(* ===== verification/_CoqProject ===== *)
-Q . S2P
Prelude.v
Types.v
Framing.v
RouteTable.v
Aligned.v
FrameParser.v
RoutedAsk.v
AddrOwnership.v
RoutingSnapshot.v
RegistryOwner.v
RouteIndex.v
RegistryOwnerInv.v
OwnerScenario.v
RegistryOwnerProps.v
RegistryOwnerReap.v
RegistryOwnerConfig.v
CasCell.v
VectorClock.v
Bitmap.v
Streaming.v
StreamInv.v
StreamTable.v
StreamReap.v
ReadPipeline.v
ReadInv.v
ReadFeed.v
ReadRefine.v
StreamDeliver.v
StreamReject.v
WriterCommands.v
WriterQueue.v
StreamWriter.v
SliceWriter.v
ResponseWriter.v
CommandWriter.v
OrdinaryWriter.v
OrdinaryInv.v
OrdinaryBatch.v
OrdinaryOrder.v
WireFrames.v
LeaseInv.v
ActorConflict.v
ActorDirectory.v
ActorAdmission.v
ActorDirectoryInv.v
ActorConverge.v
ActorRemoval.v
ActorReap.v
Correlation.v
CorrelationInv.v
CorrelationRace.v
ReplySlots.v
ReplySlotsInv.v
Concurrent.v
ConnectionConflict.v
ConnectionPool.v
PoolCounter.v
PoolSessions.v
PoolSafety.v
PoolRuns.v
PubSubFrame.v
PubSub.v
PubSubLocal.v
PubSubSeen.v
PubSubRoutes.v
PubSubNet.v
PubSubDelivery.v
PubSubForward.v
PubSubInterest.v
