(* ===== verification/Prelude.v ===== *)
(** * A verification library for icanact-remote

    icanact-remote is a peer-to-peer actor transport in Rust (src/src/): nodes
    keep TLS connections, exchange framed messages and streams over them, and
    gossip about which node hosts which actor.  This library models the parts of
    it that are deterministic state machines or codecs as executable functions
    and relations, and proves what makes them correct.

    ** The parts and the files that model them

    _Common ground._ Prelude (machine integers with their wrap-around, checked
    and saturating operations, byte strings, list, map and sum lemmas, stable
    sorting, reflexive-transitive closure) and Types (addresses, identities,
    message types, errors and the [Result] monad with its [Panic] outcome;
    src/src/lib.rs).

    _The wire._ Framing has every header writer and reader of
    src/src/framing.rs; FrameParser the receive-side parser of src/src/handle.rs;
    RouteTable the route slots of src/src/route_interning.rs; RoutedAsk the
    writer of routed asks (connection_pool/stream_writer.rs) against the
    peer's parser; Aligned the payload buffers of src/src/aligned.rs.

    _Receiving._ Bitmap and Streaming are the stream reassembly of
    src/src/protocol.rs, ReadPipeline the incremental reader of
    connection_pool/read_pipeline.rs, which calls both and the parser.
    StreamInv, StreamTable and StreamReap carry the invariant of one stream, of
    the table and of the reaper; ReadInv, ReadFeed and ReadRefine the theorems on
    the reader; StreamDeliver and StreamReject what becomes of a whole stream.

    _Sending._ WriterCommands is connection_pool/writer_commands.rs (responses
    framed lazily, the response queue, the lane rotation); StreamWriter the
    slice writers of connection_pool/stream_writer.rs with leased replies;
    OrdinaryWriter and OrdinaryBatch its ordinary writes and their batches.
    SliceWriter states once, as a record of laws, what a writer of bounded slices
    promises; ResponseWriter, CommandWriter, OrdinaryInv and LeaseInv show that
    each writer keeps that promise; WriterQueue, OrdinaryOrder and WireFrames
    have the queue, the order of commands and the shape of what is sent.

    _Who owns an address._ AddrOwnership is the truth table of
    src/src/addr_ownership.rs; RegistryOwner the single-writer task of
    src/src/registry_owner.rs with the snapshot (RoutingSnapshot) and the pool
    route (RouteIndex) it publishes.  RegistryOwnerInv makes its mailbox a step
    relation; RegistryOwnerProps, RegistryOwnerReap and RegistryOwnerConfig hold
    the theorems on every reachable state, OwnerScenario concrete runs.

    _Who hosts an actor._ CasCell and VectorClock are the vector clocks of
    src/src/lib.rs with their compare-and-swap loops; ActorConflict the rules
    between two accounts of an actor and ActorDirectory the directory itself
    (src/src/registry.rs: registration, unregistration, lookup, deltas, full
    syncs with sessions and sequences, expiry, reaping, changes of ownership,
    eviction).  ActorAdmission and ActorDirectoryInv carry its invariant,
    ActorConverge, ActorRemoval and ActorReap its theorems.

    ** What the theorems show

    - C1, C2: frames survive the wire; routed asks arrive in order, as sent,
      with both route tables in agreement, through refusals and cancellations.
    - C3 to C10: an owned address changes hands only through vacancy, pins
      survive, the publication answers as the owner does, session teardown,
      configuration and migration do exactly what they say, and the reap protocol
      is linearised against liveness evidence.
    - C11 to C16: a stream is delivered exactly once and whole; the reader
      refines a reader of frames, never panics, never stalls, does not depend on
      segmentation, keeps its budgets, and drains what it refused.
    - C17 to C21: an unregistered actor stays gone, the directory keeps its
      limits and accounts, nodes agree on announcements when clocks are
      coherent and may not when they are skewed, and reaping is exact.
    - C22 to C31: replies are answered once and complete, commands are written
      whole and in order, the response queue is bounded and loses nothing.
    - C32 on: the reaper of streams, and the algebra of vector clocks.

    ** Conventions, bounds and fuel

    Rust integers are [Z] with their width's limits written out; [usize] has 64
    bits.  Strings and buffers are byte lists.  Panics, failed [expect]s and
    indices out of range are the value [Panic]; errors are [Err].  Maps whose
    iteration order Rust leaves open are [gmap]; a theorem that would depend on
    that order sorts, or holds for the canonical order the source imposes.
    Clocks and the answers of the transport are arguments.  Loops over a bounded
    quantity take fuel computed from their state (the bytes left of a slice, the
    frames left of a command); the lemmas that use them show the fuel is never
    exhausted, and the liveness theorems state that enough turns finish.  An
    operation that runs under one lock, or in one task between two awaits, is one
    step; where the source races (the compare-and-swap loops, the reap guard, the
    buffer pool) the model is a step relation over the atomic operations.

    What is not in src/ is a parameter with its documented behaviour as a named
    hypothesis: the rkyv encoder's lengths and decoder, the parsing of socket
    addresses, the validity of Ed25519 keys, the hash of addresses.

    ** Not modelled

    The select loop of [io_task] around the modelled slices and batches; dialling,
    tie breaking and TLS; gossip rounds, peer health and DNS refresh; the public
    API and the derive-generated serialisation.  These are asynchronous glue over
    tokio, rustls and sockets whose decisions are modelled where they are
    functions of state.  Logging and metrics are left out throughout. *)

From Stdlib Require Export ZArith Lia Sorted.
From stdpp Require Export base list gmap strings option.

#[global] Open Scope Z_scope.

(** ** Machine integers

    Every Rust integer is a [Z] kept in the range of its width; the wrapping,
    checked and saturating operations of the standard library are written out
    once here.  [usize] is 64 bits wide. *)
Definition u8_max : Z := 255.
Definition u16_max : Z := 65535.
Definition u32_max : Z := 4294967295.
Definition u64_max : Z := 18446744073709551615.
Definition usize_max : Z := u64_max.

Definition wrapping_add (max a b : Z) : Z := (a + b) mod (max + 1).
Definition saturating_add (max a b : Z) : Z := Z.min max (a + b).
Definition saturating_sub (a b : Z) : Z := Z.max 0 (a - b).
Definition checked_add (max a b : Z) : option Z :=
  if a + b <=? max then Some (a + b) else None.
Definition checked_mul (max a b : Z) : option Z :=
  if a * b <=? max then Some (a * b) else None.
Definition saturating_mul (max a b : Z) : Z := Z.min max (a * b).
Definition checked_div (a b : Z) : option Z := if b =? 0 then None else Some (a / b).
Definition div_ceil (a b : Z) : Z :=
  if a mod b =? 0 then a / b else a / b + 1.

(** Length of a slice or vector, and of a map, as a [usize]. *)
Definition len {A} (l : list A) : Z := Z.of_nat (length l).
Definition map_len {K A} `{Countable K} (m : gmap K A) : Z := Z.of_nat (size m).

(** [map.values().map(f).sum()]. *)
Definition map_sum {K A} `{Countable K} (f : A -> Z) (m : gmap K A) : Z :=
  map_fold (fun _ a acc => f a + acc) 0 m.

(** ** Bytes and slices

    A byte is a [Z] in [0, 255]; [slice l a b] is Rust's [l[a..b]],
    [copy_from_slice l a src] is [l[a..a + src.len()].copy_from_slice(src)]. *)
Definition is_byte (b : Z) : Prop := 0 <= b <= u8_max.
Definition slice {A} (l : list A) (a b : nat) : list A := take (b - a) (drop a l).
Definition copy_from_slice {A} (l : list A) (a : nat) (src : list A) : list A :=
  take a l ++ src ++ drop (a + length src) l.

(** [to_be_bytes] and [from_be_bytes] of an [n]-byte unsigned integer. *)
Fixpoint to_be_bytes (n : nat) (x : Z) : list Z :=
  match n with
  | O => []
  | S k => (x / 256 ^ Z.of_nat k) mod 256 :: to_be_bytes k x
  end.

Definition from_be_bytes (l : list Z) : Z := foldl (fun acc b => acc * 256 + b) 0 l.

(** ** Reachability *)
Section Reachability.
  Context {S : Type} (step : S -> S -> Prop).

Inductive star : S -> S -> Prop :=
  | star_refl s : star s s
  | star_step s t u : step s t -> star t u -> star s u.

Lemma star_one s t : step s t -> star s t.
Proof. intros H; eapply star_step; [exact H | apply star_refl]. Qed.

Lemma star_trans s t u : star s t -> star t u -> star s u.
Proof. induction 1; eauto using star. Qed.

(** An inductive invariant holds of every reachable state. *)
Lemma star_invariant (I : S -> Prop) :
  (forall s t, I s -> step s t -> I t) ->
  forall s t, star s t -> I s -> I t.
Proof. intros Hstep s t H; induction H; eauto. Qed.
End Reachability.

(** ** Sorting

    [sort_by_key] is a stable sort, so it equals insertion sort on every input;
    [le] is the comparison of the keys. *)
Section Sorting.
Context {A : Type} (le : A -> A -> bool).

Fixpoint insert_by (x : A) (l : list A) : list A :=
  match l with
  | [] => [x]
  | y :: l' => if le x y then x :: y :: l' else y :: insert_by x l'
  end.

Definition sort_by (l : list A) : list A := foldr insert_by [] l.

Lemma insert_by_perm x l : insert_by x l ≡ₚ x :: l.
Proof.
  induction l as [|y l IH]; [done|]. cbn. destruct (le x y); [done|].
  rewrite IH. apply Permutation_swap.
Qed.

Lemma sort_by_perm l : sort_by l ≡ₚ l.
Proof. induction l as [|x l IH]; [done|]. cbn. now rewrite insert_by_perm, IH. Qed.

Context (le_total : forall x y, le x y = false -> le y x = true).
Context (le_trans : forall x y z, le x y = true -> le y z = true -> le x z = true).

Lemma insert_by_sorted x l :
  StronglySorted (fun a b => le a b = true) l ->
  StronglySorted (fun a b => le a b = true) (insert_by x l).
Proof using le_total le_trans.
  induction 1 as [|y l Hs IH Hf]; cbn; [repeat constructor|].
  destruct (le x y) eqn:E.
  - constructor; [now constructor|]. constructor; [done|].
    eapply List.Forall_impl; [|exact Hf]. cbn. eauto.
  - constructor; [exact IH|]. rewrite insert_by_perm. constructor; auto.
Qed.

Lemma sort_by_sorted l : StronglySorted (fun a b => le a b = true) (sort_by l).
Proof using le_total le_trans. induction l; cbn; [constructor|]. now apply insert_by_sorted. Qed.
End Sorting.

Lemma sorted_app_rel {A} (R : A -> A -> Prop) (l1 l2 : list A) x y :
  StronglySorted R (l1 ++ l2) -> x ∈ l1 -> y ∈ l2 -> R x y.
Proof.
  intros H. induction l1 as [|z l1 IH]; [intros Hx; now apply elem_of_nil in Hx|].
  cbn in H. apply StronglySorted_inv in H as [H Hf]. rewrite elem_of_cons.
  intros [->|Hx] Hy; [|auto]. rewrite List.Forall_forall in Hf.
  apply Hf, in_or_app. right. now apply list_elem_of_In.
Qed.

(** ** Hints and tactics *)
Create HintDb remote.
Create Rewrite HintDb remote.

(** Case analysis on the boolean comparisons of a definition, turning each
    into the proposition it decides. *)
Ltac cmp_cases :=
  repeat match goal with
  | |- context [?a <? ?b] => destruct (Z.ltb_spec a b)
  | |- context [?a <=? ?b] => destruct (Z.leb_spec a b)
  | |- context [?a =? ?b] => destruct (Z.eqb_spec a b)
  | H : context [?a <? ?b] |- _ => destruct (Z.ltb_spec a b)
  | H : context [?a <=? ?b] |- _ => destruct (Z.leb_spec a b)
  | H : context [?a =? ?b] |- _ => destruct (Z.eqb_spec a b)
  end.

(** Case analysis on every [match] scrutinee of the hypothesis [H], closing
    the contradictory branches. *)
Ltac inv_match H :=
  repeat (match type of H with
          | context [match ?x with _ => _ end] => destruct x eqn:?
          end; simplify_eq/=).

Ltac unfold_widths :=
  unfold usize_max, u64_max, u32_max, u16_max, u8_max in *.

(** ** Integer lemmas *)
Lemma saturating_add_le max a b : saturating_add max a b <= max.
Proof. unfold saturating_add; lia. Qed.

Lemma saturating_add_exact max a b : a + b <= max -> saturating_add max a b = a + b.
Proof. unfold saturating_add; lia. Qed.

Lemma checked_add_Some max a b c :
  checked_add max a b = Some c <-> c = a + b /\ a + b <= max.
Proof. unfold checked_add; cmp_cases; split; intros; destruct_and?; simplify_eq; auto; lia. Qed.

Lemma checked_add_None max a b : checked_add max a b = None <-> max < a + b.
Proof. unfold checked_add; cmp_cases; split; intros; destruct_and?; simplify_eq; auto; lia. Qed.

Lemma div_ceil_spec a b :
  0 <= a -> 0 < b -> a <= b * div_ceil a b < a + b.
Proof.
  intros Ha Hb. unfold div_ceil.
  pose proof (Z.div_mod a b ltac:(lia)). pose proof (Z.mod_pos_bound a b Hb).
  cmp_cases; nia.
Qed.

Lemma div_ceil_nonneg a b : 0 <= a -> 0 < b -> 0 <= div_ceil a b.
Proof. intros Ha Hb. pose proof (div_ceil_spec a b Ha Hb). nia. Qed.

(** [div_ceil] is the least number of [b]-sized pieces that covers [a]. *)
Lemma div_ceil_lt_iff a b i :
  0 <= a -> 0 < b -> i < div_ceil a b <-> i * b < a.
Proof. intros Ha Hb. pose proof (div_ceil_spec a b Ha Hb). nia. Qed.

(** A bit field placed above an [n]-bit field. *)
Lemma lor_shiftl_add a n b :
  0 <= n -> 0 <= b < 2 ^ n -> Z.lor (Z.shiftl a n) b = a * 2 ^ n + b.
Proof.
  intros Hn Hb.
  assert (Z.land (Z.shiftl a n) b = 0) as Hdisj.
  { apply Z.bits_inj'; intros i Hi. rewrite Z.land_spec, Z.bits_0.
    destruct (Z.lt_ge_cases i n).
    - now rewrite Z.shiftl_spec_low.
    - rewrite <- (Z.mod_small b (2 ^ n)), Z.mod_pow2_bits_high by lia. apply andb_false_r. }
  pose proof (Z.add_lor_land (Z.shiftl a n) b) as Hadd.
  rewrite Hdisj, Z.add_0_r in Hadd. now rewrite Hadd, Z.shiftl_mul_pow2.
Qed.

(** ** Big-endian codec lemmas *)
Lemma length_to_be_bytes n x : length (to_be_bytes n x) = n.
Proof. induction n; simpl; congruence. Qed.

Lemma to_be_bytes_bytes n x : Forall is_byte (to_be_bytes n x).
Proof.
  induction n as [|n IH]; constructor; [|exact IH].
  unfold is_byte, u8_max. pose proof (Z.mod_pos_bound (x / 256 ^ Z.of_nat n) 256). lia.
Qed.

Lemma foldl_be_app acc l :
  foldl (fun acc b => acc * 256 + b) acc l
  = acc * 256 ^ len l + from_be_bytes l.
Proof.
  unfold from_be_bytes, len. revert acc.
  induction l as [|b l IH]; intros acc; simpl foldl; [simpl; lia|].
  rewrite (IH (acc * 256 + b)), (IH (0 * 256 + b)).
  simpl length. rewrite Nat2Z.inj_succ, Z.pow_succ_r by lia. ring.
Qed.

Lemma from_be_bytes_cons b l :
  from_be_bytes (b :: l) = b * 256 ^ len l + from_be_bytes l.
Proof. unfold from_be_bytes at 1. simpl. apply foldl_be_app. Qed.

(** Decoding an encoded integer gives it back modulo its width. *)
Lemma from_to_be_bytes_mod n x :
  from_be_bytes (to_be_bytes n x) = x mod 256 ^ Z.of_nat n.
Proof.
  induction n as [|n IH]; [cbn; symmetry; apply Z.mod_1_r|].
  cbn [to_be_bytes]. rewrite from_be_bytes_cons, IH.
  unfold len. rewrite length_to_be_bytes.
  rewrite Nat2Z.inj_succ, Z.pow_succ_r, (Z.mul_comm 256), Z.rem_mul_r by lia. ring.
Qed.

Lemma from_to_be_bytes n x :
  0 <= x < 256 ^ Z.of_nat n -> from_be_bytes (to_be_bytes n x) = x.
Proof. intros H. rewrite from_to_be_bytes_mod. apply Z.mod_small, H. Qed.

Lemma from_be_bytes_bound l :
  Forall is_byte l -> 0 <= from_be_bytes l < 256 ^ len l.
Proof.
  induction 1 as [|b l Hb Hl IH]; [vm_compute; intuition congruence|].
  rewrite from_be_bytes_cons. unfold len in *. simpl length.
  rewrite Nat2Z.inj_succ, Z.pow_succ_r by lia. unfold is_byte, u8_max in Hb. nia.
Qed.

(** Encoding a decoded byte string gives the string back. *)
Lemma to_from_be_bytes l :
  Forall is_byte l -> to_be_bytes (length l) (from_be_bytes l) = l.
Proof.
  enough (H : forall l, Forall is_byte l -> forall k,
            to_be_bytes (length l) (k * 256 ^ len l + from_be_bytes l) = l).
  { intros Hl. specialize (H l Hl 0). now rewrite Z.mul_0_l, Z.add_0_l in H. }
  clear l. induction 1 as [|b l Hb Hl IH]; intros k; [reflexivity|].
  pose proof (from_be_bytes_bound l Hl) as Hbnd.
  rewrite from_be_bytes_cons. unfold len in *. simpl length. simpl to_be_bytes.
  rewrite Nat2Z.inj_succ, Z.pow_succ_r by lia.
  set (p := 256 ^ Z.of_nat (length l)) in *.
  replace (k * (256 * p) + (b * p + from_be_bytes l))
    with ((k * 256 + b) * p + from_be_bytes l) by ring.
  f_equal; [|apply IH].
  rewrite Z.div_add_l, (Z.div_small (from_be_bytes l)), Z.add_0_r by lia.
  rewrite Z.add_comm, Z.mod_add by lia. apply Z.mod_small.
  unfold is_byte, u8_max in Hb. lia.
Qed.

(** ** Lists and maps *)
Lemma len_nonneg {A} (l : list A) : 0 <= len l.
Proof. unfold len; lia. Qed.

Lemma len_app {A} (l k : list A) : len (l ++ k) = len l + len k.
Proof. unfold len. rewrite length_app. lia. Qed.

Lemma length_copy_from_slice {A} (l : list A) a src :
  (a + length src <= length l)%nat ->
  length (copy_from_slice l a src) = length l.
Proof.
  intros H. unfold copy_from_slice.
  rewrite !length_app, length_take, length_drop. lia.
Qed.

(** ** Sums over a map *)
Section MapSum.
Context {K A : Type} `{Countable K} (f : A -> Z).

Lemma map_sum_empty : map_sum f (∅ : gmap K A) = 0.
Proof. apply map_fold_empty. Qed.

Lemma map_sum_insert (m : gmap K A) i a :
  m !! i = None -> map_sum f (<[i := a]> m) = f a + map_sum f m.
Proof.
  intros Hi. unfold map_sum. rewrite map_fold_insert_L; [done| |done]. intros. lia.
Qed.

Lemma map_sum_delete (m : gmap K A) i a :
  m !! i = Some a -> map_sum f m = f a + map_sum f (delete i m).
Proof.
  intros Hi. rewrite <- (insert_delete_id m i a) at 1 by done.
  apply map_sum_insert, lookup_delete_eq.
Qed.

Lemma map_sum_delete_none (m : gmap K A) i : m !! i = None -> map_sum f (delete i m) = map_sum f m.
Proof. intros Hi. now rewrite delete_id. Qed.

(** Replacing an entry. *)
Lemma map_sum_replace (m : gmap K A) i a b :
  m !! i = Some a -> map_sum f (<[i := b]> m) = map_sum f m - f a + f b.
Proof.
  intros Hi. rewrite <- insert_delete_eq, map_sum_insert by apply lookup_delete_eq.
  rewrite (map_sum_delete m i a Hi). lia.
Qed.

Lemma map_sum_nonneg (m : gmap K A) :
  (forall i a, m !! i = Some a -> 0 <= f a) -> 0 <= map_sum f m.
Proof.
  induction m as [|i a m Hi IH] using map_ind; intros Hm; [now rewrite map_sum_empty|].
  rewrite map_sum_insert by done. pose proof (Hm i a (lookup_insert_eq m i a)).
  enough (0 <= map_sum f m) by lia. apply IH. intros j b Hj. apply (Hm j).
  rewrite lookup_insert_ne; [done|congruence].
Qed.

(** Transforming values without changing their weight. *)
Lemma map_sum_fmap (g : A -> A) (m : gmap K A) :
  (forall a, f (g a) = f a) -> map_sum f (g <$> m) = map_sum f m.
Proof.
  intros Hg. induction m as [|i a m Hi IH] using map_ind; [now rewrite fmap_empty|].
  rewrite fmap_insert, !map_sum_insert, IH, Hg by (done || now rewrite lookup_fmap, Hi). done.
Qed.

Lemma map_sum_filter_le (P : K * A -> Prop) `{!forall x, Decision (P x)} (m : gmap K A) :
  (forall i a, m !! i = Some a -> 0 <= f a) -> map_sum f (filter P m) <= map_sum f m.
Proof.
  induction m as [|i a m Hi IH] using map_ind; intros Hm; [now rewrite map_filter_empty|].
  assert (forall j b, m !! j = Some b -> 0 <= f b) as Hm'.
  { intros j b Hj. apply (Hm j). rewrite lookup_insert_ne; [done|congruence]. }
  specialize (IH Hm'). pose proof (Hm i a (lookup_insert_eq m i a)).
  rewrite map_sum_insert by done. destruct (decide (P (i, a))).
  - rewrite map_filter_insert_True, map_sum_insert by
      (done || (apply map_lookup_filter_None; auto)). lia.
  - rewrite map_filter_insert_not' by (done || (intros b Hb; congruence)). lia.
Qed.

Lemma map_len_filter_le (P : K * A -> Prop) `{!forall x, Decision (P x)} (m : gmap K A) :
  map_len (filter P m) <= map_len m.
Proof.
  unfold map_len. enough (size (filter P m) <= size m)%nat by lia.
  apply map_subseteq_size, map_filter_subseteq.
Qed.

Lemma map_len_insert_fresh (m : gmap K A) i a : m !! i = None -> map_len (<[i := a]> m) = map_len m + 1.
Proof. intros Hi. unfold map_len. rewrite map_size_insert_None by done. lia. Qed.

Lemma map_len_replace (m : gmap K A) i a : is_Some (m !! i) -> map_len (<[i := a]> m) = map_len m.
Proof. intros [b Hi]. unfold map_len. now rewrite map_size_insert_Some by eauto. Qed.

Lemma map_len_delete_present (m : gmap K A) i : is_Some (m !! i) -> map_len (delete i m) = map_len m - 1.
Proof.
  intros Hi. unfold map_len. rewrite map_size_delete_Some by done.
  destruct Hi as [a Hi]. pose proof (map_size_ne_0_lookup_2 m i ltac:(eauto)). lia.
Qed.
End MapSum.

#[export] Hint Resolve star_refl star_one saturating_add_le len_nonneg
  to_be_bytes_bytes : remote.
#[export] Hint Rewrite @length_to_be_bytes @length_copy_from_slice : remote.
