(* ===== verification/Types.v ===== *)
(** * Shared types

    The types every component passes around: socket addresses, peer
    identities, message types, the error enum and the result monad
    (src/src/lib.rs, and [AskNackReason] of src/src/framing.rs). *)

From S2P Require Import Prelude.

(** ** Network addresses

    An IPv4 address is its [u32], an IPv6 address its [u128]; [SocketAddrV6]
    also carries flow information and a scope id, which take part in the
    equality of the standard library. *)
Inductive IpAddr :=
  | IpV4 (bits : Z)
  | IpV6 (bits : Z).

Inductive SocketAddr :=
  | SocketAddrV4 (ip port : Z)
  | SocketAddrV6 (ip port flowinfo scope_id : Z).

Definition addr_ip (a : SocketAddr) : IpAddr :=
  match a with
  | SocketAddrV4 ip _ => IpV4 ip
  | SocketAddrV6 ip _ _ _ => IpV6 ip
  end.

#[global] Instance SocketAddr_eq_dec : EqDecision SocketAddr.
Proof. solve_decision. Defined.

#[global] Instance SocketAddr_countable : Countable SocketAddr.
Proof.
  refine (inj_countable'
    (fun a => match a with
              | SocketAddrV4 ip port => inl (ip, port)
              | SocketAddrV6 ip port f s => inr (ip, port, f, s)
              end)
    (fun s => match s with
              | inl (ip, port) => SocketAddrV4 ip port
              | inr (ip, port, f, s) => SocketAddrV6 ip port f s
              end) _).
  now intros [].
Defined.

(** ** Identities: [PeerId] wraps the 32 bytes of an Ed25519 public key. *)
Record PeerId := mkPeerId { peer_bytes : list Z }.

#[global] Instance PeerId_eq_dec : EqDecision PeerId.
Proof. solve_decision. Defined.

#[global] Instance PeerId_countable : Countable PeerId.
Proof. refine (inj_countable' peer_bytes mkPeerId _). now intros []. Defined.

(** ** Why an ask was refused *)
Inductive AskNackReason :=
  | UnknownActor | HandlerError | NoDispatcher | Backpressure | Unsupported.

#[global] Instance AskNackReason_eq_dec : EqDecision AskNackReason.
Proof. solve_decision. Defined.

(** ** Errors

    [std::io::Error] is represented by its [ErrorKind]: callers branch on the
    kind, the text is for humans and is not modelled.  The string payloads of
    the other variants are left out for the same reason. *)
Inductive ErrorKind :=
  | InvalidInput | InvalidData | OutOfMemory | ResourceBusy | NotFound
  | UnexpectedEof | TimedOut | AlreadyExists | Interrupted | QuotaExceeded
  | WriteZero | WouldBlock | BrokenPipe | OtherKind
  | AskCapacity (** [Other], carrying an [AskCapacityViolation] *).

Inductive GossipError :=
  | Network (kind : ErrorKind)
  | Serialization
  | MessageTooLarge (size max : Z)
  | Timeout
  | ConnectionDropped
  | PeerNotFound (addr : SocketAddr)
  | TlsError
  | TlsConfigError
  | ActorNotFound
  | Shutdown
  | ConnectionClosed (addr : SocketAddr)
  | WriteQueueFull
  | InvalidKeyPair
  | InvalidSignature
  | AuthenticationFailed
  | TlsHandshakeFailed
  | DeltaTooOld (requested oldest : Z)
  | FullSyncRequired
  | ConnectionExists
  | ClientOnlyPeer (peer : PeerId)
  | ActorAlreadyExists
  | InvalidConfig
  | NonZeroCopyPath
  | CorrelationTrackerExhausted
  | AskNacked (reason : AskNackReason).

#[global] Instance ErrorKind_eq_dec : EqDecision ErrorKind.
Proof. solve_decision. Defined.

#[global] Instance GossipError_eq_dec : EqDecision GossipError.
Proof. solve_decision. Defined.

(** [GossipError::ask_nack_reason]. *)
Definition error_nack_reason (e : GossipError) : AskNackReason :=
  match e with
  | ActorNotFound => UnknownActor
  | AskNacked reason => reason
  | _ => HandlerError
  end.

(** ** Results

    [Panic] is the outcome of a failed [expect], [unwrap], [assert!] or
    [panic!]; the theorems show where it cannot happen. *)
Inductive Result (A : Type) :=
  | Ok (a : A)
  | Err (e : GossipError)
  | Panic.
Arguments Ok {A} a.
Arguments Err {A} e.
Arguments Panic {A}.

#[global] Instance Result_ret : MRet Result := fun A a => Ok a.
#[global] Instance Result_bind : MBind Result := fun A B f m =>
  match m with
  | Ok a => f a
  | Err e => Err e
  | Panic => Panic
  end.
#[global] Instance Result_fmap : FMap Result := fun A B f m =>
  match m with
  | Ok a => Ok (f a)
  | Err e => Err e
  | Panic => Panic
  end.

Definition ok_or {A} (o : option A) (e : GossipError) : Result A :=
  match o with Some a => Ok a | None => Err e end.

Definition expect {A} (r : Result A) : Result A :=
  match r with Err _ => Panic | _ => r end.

Definition is_ok {A} (r : Result A) : bool :=
  match r with Ok _ => true | _ => false end.

(** ** Message types ([MessageType], [repr(u8)]) *)
Inductive MessageType :=
  | MGossip | MAsk | MResponse | MActorTell | MActorAsk
  | MStreamStart | MStreamData | MStreamEnd
  | MStreamResponseStart | MStreamResponseData | MStreamResponseEnd
  | MDirectAsk | MDirectResponse | MPubSub.

Definition MessageType_to_byte (t : MessageType) : Z :=
  match t with
  | MGossip => 0 | MAsk => 1 | MResponse => 2 | MActorTell => 3 | MActorAsk => 4
  | MStreamStart => 16 | MStreamData => 17 | MStreamEnd => 18
  | MStreamResponseStart => 19 | MStreamResponseData => 20 | MStreamResponseEnd => 21
  | MDirectAsk => 32 | MDirectResponse => 33 | MPubSub => 48
  end.

Definition MessageType_from_byte (byte : Z) : option MessageType :=
  match byte with
  | 0 => Some MGossip
  | 1 => Some MAsk
  | 2 => Some MResponse
  | 3 => Some MActorTell
  | 4 => Some MActorAsk
  | 16 => Some MStreamStart
  | 17 => Some MStreamData
  | 18 => Some MStreamEnd
  | 19 => Some MStreamResponseStart
  | 20 => Some MStreamResponseData
  | 21 => Some MStreamResponseEnd
  | 32 => Some MDirectAsk
  | 33 => Some MDirectResponse
  | 48 => Some MPubSub
  | _ => None
  end.

Definition is_streaming_response (t : MessageType) : bool :=
  match t with
  | MStreamResponseStart | MStreamResponseData | MStreamResponseEnd => true
  | _ => false
  end.

Definition is_streaming_request (t : MessageType) : bool :=
  match t with
  | MStreamStart | MStreamData | MStreamEnd => true
  | _ => false
  end.

(** ** Lemmas on results *)
Lemma bind_Ok {A B} (m : Result A) (f : A -> Result B) b :
  m ≫= f = Ok b <-> exists a, m = Ok a /\ f a = Ok b.
Proof. destruct m; split; cbn; [eauto | intros (? & [= ->] & ?) | ..]; try done; intros (? & ? & ?); done. Qed.

Lemma Ok_inj {A} (x y : A) : Ok x = Ok y -> x = y.
Proof. congruence. Qed.

Lemma MessageType_roundtrip t :
  MessageType_from_byte (MessageType_to_byte t) = Some t.
Proof. now destruct t. Qed.

Lemma streaming_kinds_disjoint t :
  is_streaming_request t = true -> is_streaming_response t = false.
Proof. now destruct t. Qed.

(** Run the result monad in a hypothesis: split a successful [m ≫= f] into the
    successes of its two parts. *)
Ltac inv_ok H :=
  repeat (apply bind_Ok in H; destruct H as (? & ? & H)); simplify_eq/=.
