(* ===== verification/Framing.v ===== *)
(** * V5 wire framing

    The frame writers of src/src/framing.rs and [StreamHeader] of
    src/src/lib.rs.  A frame starts with a big-endian control word,
    kind:5 | body_len:27; each kind has a fixed header after it.  Headers are
    byte lists built with the writes the source makes. *)

From S2P Require Import Prelude Types.

(** ** Constants *)
Definition LENGTH_PREFIX_LEN : Z := 4.
Definition CONTROL_KIND_BITS : Z := 5.
Definition CONTROL_BODY_LEN_BITS : Z := 32 - CONTROL_KIND_BITS.
Definition CONTROL_BODY_LEN_MASK : Z := Z.shiftl 1 CONTROL_BODY_LEN_BITS - 1.

Definition ASK_RESPONSE_HEADER_LEN : Z := 12.
Definition GOSSIP_HEADER_LEN : Z := 12.
Definition ACTOR_TELL_HEADER_LEN : Z := 12.
Definition ACTOR_ASK_HEADER_LEN : Z := 28.
Definition ROUTED_ACTOR_ASK_HEADER_LEN : Z := 12.
Definition ROUTE_BIND_HEADER_LEN : Z := 20.
Definition DIRECT_ASK_HEADER_LEN : Z := 12.
Definition DIRECT_RESPONSE_HEADER_LEN : Z := 12.
Definition PUBSUB_HEADER_LEN : Z := 12.
Definition STREAM_REQUEST_START_HEADER_LEN : Z := 24.
Definition STREAM_RESPONSE_START_HEADER_LEN : Z := 12.
Definition STREAM_DATA_HEADER_LEN : Z := 8.

(** [*_FRAME_HEADER_LEN]: control word plus fixed header. *)
Definition FRAME_HEADER_LEN (header_len : Z) : Z := LENGTH_PREFIX_LEN + header_len.

(** ** Kinds *)
Inductive WireKind :=
  | KGossip | KAsk | KResponse | KActorTell | KActorAsk
  | KStreamStart | KStreamData | KStreamResponseStart | KStreamResponseData
  | KDirectAsk | KDirectResponse | KPubSub | KStreamAbort
  | KRouteBind | KRoutedActorAsk.

#[global] Instance WireKind_eq_dec : EqDecision WireKind.
Proof. solve_decision. Defined.

Definition WireKind_to_u8 (k : WireKind) : Z :=
  match k with
  | KGossip => 0 | KAsk => 1 | KResponse => 2 | KActorTell => 3 | KActorAsk => 4
  | KStreamStart => 5 | KStreamData => 6 | KStreamResponseStart => 7
  | KStreamResponseData => 8 | KDirectAsk => 9 | KDirectResponse => 10
  | KPubSub => 11 | KStreamAbort => 12 | KRouteBind => 13 | KRoutedActorAsk => 14
  end.

Definition WireKind_ALL : list WireKind :=
  [KGossip; KAsk; KResponse; KActorTell; KActorAsk; KStreamStart; KStreamData;
   KStreamResponseStart; KStreamResponseData; KDirectAsk; KDirectResponse;
   KPubSub; KStreamAbort; KRouteBind; KRoutedActorAsk].

Definition WireKind_from_message_type (t : MessageType) : option WireKind :=
  match t with
  | MGossip => Some KGossip
  | MAsk => Some KAsk
  | MResponse => Some KResponse
  | MActorTell => Some KActorTell
  | MActorAsk => Some KActorAsk
  | MStreamStart => Some KStreamStart
  | MStreamData => Some KStreamData
  | MStreamResponseStart => Some KStreamResponseStart
  | MStreamResponseData => Some KStreamResponseData
  | MDirectAsk => Some KDirectAsk
  | MDirectResponse => Some KDirectResponse
  | MPubSub => Some KPubSub
  | MStreamEnd | MStreamResponseEnd => None
  end.

Definition WireKind_message_type (k : WireKind) : MessageType :=
  match k with
  | KGossip => MGossip
  | KAsk => MAsk
  | KResponse => MResponse
  | KActorTell => MActorTell
  | KActorAsk => MActorAsk
  | KStreamStart => MStreamStart
  | KStreamData => MStreamData
  | KStreamResponseStart => MStreamResponseStart
  | KStreamResponseData => MStreamResponseData
  | KDirectAsk => MDirectAsk
  | KDirectResponse => MDirectResponse
  | KPubSub => MPubSub
  | KStreamAbort => MStreamEnd
  | KRouteBind | KRoutedActorAsk => MActorAsk
  end.

Definition WireKind_from_u8 (value : Z) : option WireKind :=
  match value with
  | 0 => Some KGossip
  | 1 => Some KAsk
  | 2 => Some KResponse
  | 3 => Some KActorTell
  | 4 => Some KActorAsk
  | 5 => Some KStreamStart
  | 6 => Some KStreamData
  | 7 => Some KStreamResponseStart
  | 8 => Some KStreamResponseData
  | 9 => Some KDirectAsk
  | 10 => Some KDirectResponse
  | 11 => Some KPubSub
  | 12 => Some KStreamAbort
  | 13 => Some KRouteBind
  | 14 => Some KRoutedActorAsk
  | _ => None
  end.

(** ** Control word *)
Record Control := mkControl { kind : WireKind; body_len : Z }.

Definition try_checked_body_len (fixed_len payload_len : Z) : Result Z :=
  ok_or
    (match checked_add usize_max fixed_len payload_len with
     | Some l => if l <=? CONTROL_BODY_LEN_MASK then Some l else None
     | None => None
     end)
    (MessageTooLarge (saturating_add usize_max fixed_len payload_len)
                     CONTROL_BODY_LEN_MASK).

Definition checked_body_len (fixed_len payload_len : Z) : Result Z :=
  expect (try_checked_body_len fixed_len payload_len).

(** [body_len as u32] keeps the low 32 bits. *)
Definition try_encode_control (kind : WireKind) (body_len : Z) : Result (list Z) :=
  if CONTROL_BODY_LEN_MASK <? body_len
  then Err (MessageTooLarge body_len CONTROL_BODY_LEN_MASK)
  else Ok (to_be_bytes 4
             (Z.lor (Z.shiftl (WireKind_to_u8 kind) CONTROL_BODY_LEN_BITS)
                    (Z.land body_len u32_max))).

Definition encode_control (kind : WireKind) (body_len : Z) : Result (list Z) :=
  expect (try_encode_control kind body_len).

Definition reject_oversize_for_inline_send
    (fixed_header_len payload_len max_message_size : Z) : Result unit :=
  let body_len := saturating_add usize_max fixed_header_len payload_len in
  if max_message_size <? body_len
  then Err (MessageTooLarge body_len max_message_size)
  else Ok tt.

(** [(word >> 27) as u8] keeps the low 8 bits. *)
Definition decode_control (bytes : list Z) : option Control :=
  let word := from_be_bytes bytes in
  match WireKind_from_u8 (Z.land (Z.shiftr word CONTROL_BODY_LEN_BITS) u8_max) with
  | Some k => Some (mkControl k (Z.land word CONTROL_BODY_LEN_MASK))
  | None => None
  end.

(** [init_header::<N>]: a zeroed array of [n] bytes holding the control word. *)
Definition init_header (n : Z) (kind : WireKind) (body_len : Z) : Result (list Z) :=
  word ← try_encode_control kind body_len;
  Ok (copy_from_slice (replicate (Z.to_nat n) 0) 0 word).

(** ** Header writers *)
Definition try_write_actor_tell_header
    (actor_id type_hash payload_len : Z) : Result (list Z) :=
  body_len ← try_checked_body_len ACTOR_TELL_HEADER_LEN payload_len;
  header ← init_header (FRAME_HEADER_LEN ACTOR_TELL_HEADER_LEN) KActorTell body_len;
  let header := copy_from_slice header 4 (to_be_bytes 8 actor_id) in
  let header := copy_from_slice header 12 (to_be_bytes 4 type_hash) in
  Ok header.

Definition try_write_actor_ask_header_with_request_id
    (correlation_id actor_id type_hash payload_len : Z) (request_id : option Z)
    : Result (list Z) :=
  if decide (request_id = Some 0) then Err InvalidConfig
  else
    body_len ← try_checked_body_len ACTOR_ASK_HEADER_LEN payload_len;
    header ← init_header (FRAME_HEADER_LEN ACTOR_ASK_HEADER_LEN) KActorAsk body_len;
    let header := copy_from_slice header 4 (to_be_bytes 4 correlation_id) in
    let header := copy_from_slice header 8 (to_be_bytes 8 actor_id) in
    let header := copy_from_slice header 16 (to_be_bytes 4 type_hash) in
    Ok (match request_id with
        | Some request_id => copy_from_slice header 20 (to_be_bytes 8 request_id)
        | None => header
        end).

Definition try_write_actor_ask_header
    (correlation_id actor_id type_hash payload_len : Z) : Result (list Z) :=
  try_write_actor_ask_header_with_request_id
    correlation_id actor_id type_hash payload_len None.

Definition try_write_routed_actor_ask_header
    (correlation_id route_slot payload_len : Z) : Result (list Z) :=
  body_len ← try_checked_body_len ROUTED_ACTOR_ASK_HEADER_LEN payload_len;
  header ← init_header (FRAME_HEADER_LEN ROUTED_ACTOR_ASK_HEADER_LEN)
                       KRoutedActorAsk body_len;
  let header := copy_from_slice header 4 (to_be_bytes 4 correlation_id) in
  let header := copy_from_slice header 8 (to_be_bytes 4 route_slot) in
  Ok header.

Definition write_route_bind_header
    (route_slot actor_id type_hash : Z) : Result (list Z) :=
  header ← expect (init_header (FRAME_HEADER_LEN ROUTE_BIND_HEADER_LEN)
                               KRouteBind ROUTE_BIND_HEADER_LEN);
  let header := copy_from_slice header 4 (to_be_bytes 4 route_slot) in
  let header := copy_from_slice header 8 (to_be_bytes 8 actor_id) in
  let header := copy_from_slice header 16 (to_be_bytes 4 type_hash) in
  Ok header.

Definition try_write_ask_response_header
    (msg_type : MessageType) (correlation_id payload_len : Z) : Result (list Z) :=
  kind ← match msg_type with
         | MAsk => Ok KAsk
         | MResponse => Ok KResponse
         | _ => Panic
         end;
  body_len ← try_checked_body_len ASK_RESPONSE_HEADER_LEN payload_len;
  header ← init_header (FRAME_HEADER_LEN ASK_RESPONSE_HEADER_LEN) kind body_len;
  Ok (copy_from_slice header 4 (to_be_bytes 4 correlation_id)).

(** ** Negative acknowledgements *)
Definition AskNackReason_to_u8 (r : AskNackReason) : Z :=
  match r with
  | UnknownActor => 1 | HandlerError => 2 | NoDispatcher => 3
  | Backpressure => 4 | Unsupported => 0
  end.

Definition AskNackReason_from_u8 (value : Z) : AskNackReason :=
  match value with
  | 1 => UnknownActor
  | 2 => HandlerError
  | 3 => NoDispatcher
  | 4 => Backpressure
  | _ => Unsupported
  end.

Definition ASK_NACK_FLAG_BODY_OFFSET : nat := 4.
Definition ASK_NACK_REASON_BODY_OFFSET : nat := 5.
Definition ASK_NACK_FLAG_SET : Z := 1.

Definition try_write_ask_nack_header
    (correlation_id : Z) (reason : AskNackReason) : Result (list Z) :=
  header ← init_header (FRAME_HEADER_LEN ASK_RESPONSE_HEADER_LEN) KResponse
                       ASK_RESPONSE_HEADER_LEN;
  let header := copy_from_slice header 4 (to_be_bytes 4 correlation_id) in
  let header := <[(4 + ASK_NACK_FLAG_BODY_OFFSET)%nat := ASK_NACK_FLAG_SET]> header in
  let header := <[(4 + ASK_NACK_REASON_BODY_OFFSET)%nat := AskNackReason_to_u8 reason]>
                  header in
  Ok header.

(** The bound check comes first, so the two indexings are in range. *)
Definition ask_nack_reason (response_fixed_region : list Z) : option AskNackReason :=
  if len response_fixed_region <? ASK_RESPONSE_HEADER_LEN then None
  else if negb (nth ASK_NACK_FLAG_BODY_OFFSET response_fixed_region 0
                =? ASK_NACK_FLAG_SET) then None
  else Some (AskNackReason_from_u8
               (nth ASK_NACK_REASON_BODY_OFFSET response_fixed_region 0)).

(** ** Gossip, pub/sub and direct frames *)
Definition try_write_gossip_frame_prefix (payload_len : Z) : Result (list Z) :=
  body_len ← try_checked_body_len GOSSIP_HEADER_LEN payload_len;
  init_header (FRAME_HEADER_LEN GOSSIP_HEADER_LEN) KGossip body_len.

Definition try_write_pubsub_frame_prefix (payload_len : Z) : Result (list Z) :=
  body_len ← try_checked_body_len PUBSUB_HEADER_LEN payload_len;
  init_header (FRAME_HEADER_LEN PUBSUB_HEADER_LEN) KPubSub body_len.

Definition try_write_direct_ask_header
    (correlation_id request_id payload_len : Z) : Result (list Z) :=
  body_len ← try_checked_body_len DIRECT_ASK_HEADER_LEN payload_len;
  header ← init_header (FRAME_HEADER_LEN DIRECT_ASK_HEADER_LEN) KDirectAsk body_len;
  let header := copy_from_slice header 4 (to_be_bytes 4 correlation_id) in
  let header := copy_from_slice header 8 (to_be_bytes 8 request_id) in
  Ok header.

Definition direct_ask_request_id (body : list Z) : option Z :=
  if len body <? DIRECT_ASK_HEADER_LEN then None
  else
    let request_id := from_be_bytes (slice body 4 12) in
    if request_id =? 0 then None else Some request_id.

Definition try_write_direct_response_header
    (correlation_id payload_len : Z) : Result (list Z) :=
  body_len ← try_checked_body_len DIRECT_RESPONSE_HEADER_LEN payload_len;
  header ← init_header (FRAME_HEADER_LEN DIRECT_RESPONSE_HEADER_LEN)
                       KDirectResponse body_len;
  Ok (copy_from_slice header 4 (to_be_bytes 4 correlation_id)).

(** ** Stream frames *)
Definition try_write_stream_request_start_header
    (stream_id correlation_id total_size actor_id type_hash first_chunk_len : Z)
    : Result (list Z) :=
  body_len ← try_checked_body_len STREAM_REQUEST_START_HEADER_LEN first_chunk_len;
  header ← init_header (FRAME_HEADER_LEN STREAM_REQUEST_START_HEADER_LEN)
                       KStreamStart body_len;
  let header := copy_from_slice header 4 (to_be_bytes 4 stream_id) in
  let header := copy_from_slice header 8 (to_be_bytes 4 correlation_id) in
  let header := copy_from_slice header 12 (to_be_bytes 4 total_size) in
  let header := copy_from_slice header 16 (to_be_bytes 8 actor_id) in
  let header := copy_from_slice header 24 (to_be_bytes 4 type_hash) in
  Ok header.

Definition try_write_stream_response_start_header
    (stream_id correlation_id total_size first_chunk_len : Z) : Result (list Z) :=
  body_len ← try_checked_body_len STREAM_RESPONSE_START_HEADER_LEN first_chunk_len;
  header ← init_header (FRAME_HEADER_LEN STREAM_RESPONSE_START_HEADER_LEN)
                       KStreamResponseStart body_len;
  let header := copy_from_slice header 4 (to_be_bytes 4 stream_id) in
  let header := copy_from_slice header 8 (to_be_bytes 4 correlation_id) in
  let header := copy_from_slice header 12 (to_be_bytes 4 total_size) in
  Ok header.

Definition try_write_stream_data_header
    (response : bool) (stream_id chunk_index payload_len : Z) : Result (list Z) :=
  let kind := if response then KStreamResponseData else KStreamData in
  body_len ← try_checked_body_len STREAM_DATA_HEADER_LEN payload_len;
  header ← init_header (FRAME_HEADER_LEN STREAM_DATA_HEADER_LEN) kind body_len;
  let header := copy_from_slice header 4 (to_be_bytes 4 stream_id) in
  let header := copy_from_slice header 8 (to_be_bytes 4 chunk_index) in
  Ok header.

Definition write_stream_abort_header (stream_id reason : Z) : Result (list Z) :=
  header ← expect (init_header (FRAME_HEADER_LEN STREAM_DATA_HEADER_LEN)
                               KStreamAbort STREAM_DATA_HEADER_LEN);
  let header := copy_from_slice header 4 (to_be_bytes 4 stream_id) in
  let header := copy_from_slice header 8 (to_be_bytes 4 reason) in
  Ok header.

(** ** [StreamHeader]: the 36-byte legacy stream header of lib.rs *)
Record StreamHeader := mkStreamHeader {
  sh_stream_id : Z;
  sh_total_size : Z;
  sh_chunk_size : Z;
  sh_chunk_index : Z;
  sh_type_hash : Z;
  sh_actor_id : Z;
}.

Definition SERIALIZED_SIZE : Z := 8 + 8 + 4 + 4 + 4 + 8.

Definition StreamHeader_to_bytes (h : StreamHeader) : list Z :=
  to_be_bytes 8 (sh_stream_id h) ++ to_be_bytes 8 (sh_total_size h)
  ++ to_be_bytes 4 (sh_chunk_size h) ++ to_be_bytes 4 (sh_chunk_index h)
  ++ to_be_bytes 4 (sh_type_hash h) ++ to_be_bytes 8 (sh_actor_id h).

Definition StreamHeader_from_bytes (bytes : list Z) : option StreamHeader :=
  if len bytes <? SERIALIZED_SIZE then None
  else Some
    {| sh_stream_id := from_be_bytes (slice bytes 0 8);
       sh_total_size := from_be_bytes (slice bytes 8 16);
       sh_chunk_size := from_be_bytes (slice bytes 16 20);
       sh_chunk_index := from_be_bytes (slice bytes 20 24);
       sh_type_hash := from_be_bytes (slice bytes 24 28);
       sh_actor_id := from_be_bytes (slice bytes 28 36) |}.

(** ** The control word *)
Lemma MASK_value : CONTROL_BODY_LEN_MASK = 2 ^ 27 - 1.
Proof. reflexivity. Qed.

Lemma WireKind_range k : 0 <= WireKind_to_u8 k <= 14.
Proof. destruct k; cbn; lia. Qed.

Lemma WireKind_roundtrip k : WireKind_from_u8 (WireKind_to_u8 k) = Some k.
Proof. now destruct k. Qed.

Lemma WireKind_from_u8_Some v k :
  WireKind_from_u8 v = Some k -> v = WireKind_to_u8 k.
Proof.
  destruct v as [|p|p]; cbn; intros H; [now simplify_eq| |done].
  repeat (destruct p as [p|p|]; cbn in H; try done); now simplify_eq.
Qed.

(** The bytes of the control word of a body that fits. *)
Definition control_bytes (k : WireKind) (b : Z) : list Z :=
  to_be_bytes 4 (WireKind_to_u8 k * 2 ^ 27 + b).

Lemma try_encode_control_Ok k b :
  0 <= b <= CONTROL_BODY_LEN_MASK -> try_encode_control k b = Ok (control_bytes k b).
Proof.
  intros Hb. rewrite MASK_value in Hb. unfold try_encode_control. rewrite MASK_value.
  cmp_cases; [lia|]. change u32_max with (Z.ones 32).
  change CONTROL_BODY_LEN_BITS with 27.
  rewrite Z.land_ones, Z.mod_small, lor_shiftl_add by lia.
  reflexivity.
Qed.

Lemma decode_control_bytes k b :
  0 <= b <= CONTROL_BODY_LEN_MASK ->
  decode_control (control_bytes k b) = Some (mkControl k b).
Proof.
  intros Hb. rewrite MASK_value in Hb. pose proof (WireKind_range k).
  unfold decode_control, control_bytes. rewrite from_to_be_bytes by (change (256 ^ Z.of_nat 4) with (2 ^ 32); lia).
  change u8_max with (Z.ones 8). change CONTROL_BODY_LEN_MASK with (Z.ones 27).
  change CONTROL_BODY_LEN_BITS with 27.
  rewrite !Z.land_ones, Z.shiftr_div_pow2 by lia.
  rewrite Z.div_add_l, (Z.div_small b), Z.add_0_r, (Z.mod_small (WireKind_to_u8 k)) by lia.
  rewrite WireKind_roundtrip, Z.add_comm, Z.mod_add, Z.mod_small by lia. reflexivity.
Qed.

Lemma try_checked_body_len_spec fixed p :
  0 <= fixed -> 0 <= p ->
  try_checked_body_len fixed p
  = if fixed + p <=? CONTROL_BODY_LEN_MASK then Ok (fixed + p)
    else Err (MessageTooLarge (saturating_add usize_max fixed p) CONTROL_BODY_LEN_MASK).
Proof.
  intros Hf Hp. unfold try_checked_body_len, checked_add. rewrite MASK_value.
  unfold_widths. cmp_cases; cbn -[Z.leb]; cmp_cases; try done; lia.
Qed.

Lemma try_checked_body_len_fits fixed p n :
  try_checked_body_len fixed p = Ok n -> fixed + p <= CONTROL_BODY_LEN_MASK.
Proof.
  unfold try_checked_body_len. destruct (checked_add _ _ _) as [l|] eqn:E; [|done].
  apply checked_add_Some in E as [-> _]. cmp_cases; cbn; congruence || lia.
Qed.

(** ** Header layouts

    Every writer succeeds on a payload that fits and lays its fields out in
    order; the remaining bytes are zero. *)
Ltac header_layout :=
  intros; rewrite ?MASK_value in *; cbv delta [
    try_write_actor_tell_header try_write_actor_ask_header_with_request_id
    try_write_routed_actor_ask_header write_route_bind_header
    try_write_ask_response_header try_write_ask_nack_header
    try_write_gossip_frame_prefix try_write_pubsub_frame_prefix
    try_write_direct_ask_header try_write_direct_response_header
    try_write_stream_request_start_header try_write_stream_response_start_header
    try_write_stream_data_header write_stream_abort_header
    ACTOR_TELL_HEADER_LEN ACTOR_ASK_HEADER_LEN ROUTED_ACTOR_ASK_HEADER_LEN
    ROUTE_BIND_HEADER_LEN ASK_RESPONSE_HEADER_LEN GOSSIP_HEADER_LEN PUBSUB_HEADER_LEN
    DIRECT_ASK_HEADER_LEN DIRECT_RESPONSE_HEADER_LEN STREAM_REQUEST_START_HEADER_LEN
    STREAM_RESPONSE_START_HEADER_LEN STREAM_DATA_HEADER_LEN] in *;
  cbv beta iota;
  rewrite ?decide_False by done;
  rewrite ?try_checked_body_len_spec, ?MASK_value by lia;
  rewrite ?(proj2 (Z.leb_le _ _)) by lia;
  cbv [mbind Result_bind]; cbv [init_header mbind Result_bind expect];
  rewrite try_encode_control_Ok by (rewrite MASK_value; lia);
  reflexivity.

Lemma actor_tell_layout actor_id type_hash p :
  0 <= p -> ACTOR_TELL_HEADER_LEN + p <= CONTROL_BODY_LEN_MASK ->
  try_write_actor_tell_header actor_id type_hash p
  = Ok (control_bytes KActorTell (12 + p)
        ++ to_be_bytes 8 actor_id ++ to_be_bytes 4 type_hash).
Proof. header_layout. Qed.

Lemma actor_ask_layout cid actor_id type_hash p rid :
  rid <> Some 0 -> 0 <= p -> ACTOR_ASK_HEADER_LEN + p <= CONTROL_BODY_LEN_MASK ->
  try_write_actor_ask_header_with_request_id cid actor_id type_hash p rid
  = Ok (control_bytes KActorAsk (28 + p)
        ++ to_be_bytes 4 cid ++ to_be_bytes 8 actor_id ++ to_be_bytes 4 type_hash
        ++ to_be_bytes 8 (default 0 rid) ++ replicate 4 0).
Proof. destruct rid; header_layout. Qed.

Lemma routed_actor_ask_layout cid slot p :
  0 <= p -> ROUTED_ACTOR_ASK_HEADER_LEN + p <= CONTROL_BODY_LEN_MASK ->
  try_write_routed_actor_ask_header cid slot p
  = Ok (control_bytes KRoutedActorAsk (12 + p)
        ++ to_be_bytes 4 cid ++ to_be_bytes 4 slot ++ replicate 4 0).
Proof. header_layout. Qed.

Lemma route_bind_layout slot actor_id type_hash :
  write_route_bind_header slot actor_id type_hash
  = Ok (control_bytes KRouteBind 20
        ++ to_be_bytes 4 slot ++ to_be_bytes 8 actor_id ++ to_be_bytes 4 type_hash
        ++ replicate 4 0).
Proof. header_layout. Qed.

Lemma ask_layout cid p :
  0 <= p -> ASK_RESPONSE_HEADER_LEN + p <= CONTROL_BODY_LEN_MASK ->
  try_write_ask_response_header MAsk cid p
  = Ok (control_bytes KAsk (12 + p) ++ to_be_bytes 4 cid ++ replicate 8 0).
Proof. header_layout. Qed.

Lemma response_layout cid p :
  0 <= p -> ASK_RESPONSE_HEADER_LEN + p <= CONTROL_BODY_LEN_MASK ->
  try_write_ask_response_header MResponse cid p
  = Ok (control_bytes KResponse (12 + p) ++ to_be_bytes 4 cid ++ replicate 8 0).
Proof. header_layout. Qed.

Lemma ask_nack_layout cid reason :
  try_write_ask_nack_header cid reason
  = Ok (control_bytes KResponse 12 ++ to_be_bytes 4 cid
        ++ [ASK_NACK_FLAG_SET; AskNackReason_to_u8 reason] ++ replicate 6 0).
Proof. header_layout. Qed.

Lemma gossip_layout p :
  0 <= p -> GOSSIP_HEADER_LEN + p <= CONTROL_BODY_LEN_MASK ->
  try_write_gossip_frame_prefix p = Ok (control_bytes KGossip (12 + p) ++ replicate 12 0).
Proof. header_layout. Qed.

Lemma pubsub_layout p :
  0 <= p -> PUBSUB_HEADER_LEN + p <= CONTROL_BODY_LEN_MASK ->
  try_write_pubsub_frame_prefix p = Ok (control_bytes KPubSub (12 + p) ++ replicate 12 0).
Proof. header_layout. Qed.

Lemma direct_ask_layout cid rid p :
  0 <= p -> DIRECT_ASK_HEADER_LEN + p <= CONTROL_BODY_LEN_MASK ->
  try_write_direct_ask_header cid rid p
  = Ok (control_bytes KDirectAsk (12 + p) ++ to_be_bytes 4 cid ++ to_be_bytes 8 rid).
Proof. header_layout. Qed.

Lemma direct_response_layout cid p :
  0 <= p -> DIRECT_RESPONSE_HEADER_LEN + p <= CONTROL_BODY_LEN_MASK ->
  try_write_direct_response_header cid p
  = Ok (control_bytes KDirectResponse (12 + p) ++ to_be_bytes 4 cid ++ replicate 8 0).
Proof. header_layout. Qed.

Lemma stream_request_start_layout sid cid total actor_id type_hash p :
  0 <= p -> STREAM_REQUEST_START_HEADER_LEN + p <= CONTROL_BODY_LEN_MASK ->
  try_write_stream_request_start_header sid cid total actor_id type_hash p
  = Ok (control_bytes KStreamStart (24 + p)
        ++ to_be_bytes 4 sid ++ to_be_bytes 4 cid ++ to_be_bytes 4 total
        ++ to_be_bytes 8 actor_id ++ to_be_bytes 4 type_hash).
Proof. header_layout. Qed.

Lemma stream_response_start_layout sid cid total p :
  0 <= p -> STREAM_RESPONSE_START_HEADER_LEN + p <= CONTROL_BODY_LEN_MASK ->
  try_write_stream_response_start_header sid cid total p
  = Ok (control_bytes KStreamResponseStart (12 + p)
        ++ to_be_bytes 4 sid ++ to_be_bytes 4 cid ++ to_be_bytes 4 total).
Proof. header_layout. Qed.

Lemma stream_data_layout (response : bool) sid index p :
  0 <= p -> STREAM_DATA_HEADER_LEN + p <= CONTROL_BODY_LEN_MASK ->
  try_write_stream_data_header response sid index p
  = Ok (control_bytes (if response then KStreamResponseData else KStreamData) (8 + p)
        ++ to_be_bytes 4 sid ++ to_be_bytes 4 index).
Proof. header_layout. Qed.

Lemma stream_abort_layout sid reason :
  write_stream_abort_header sid reason
  = Ok (control_bytes KStreamAbort 8 ++ to_be_bytes 4 sid ++ to_be_bytes 4 reason).
Proof. header_layout. Qed.
