(* ===== verification/RouteTable.v ===== *)
(** * Connection-scoped route slots

    [RouteTable] and [UnboundRouteGuard] of src/src/route_interning.rs: the
    interning of (actor id, type hash) pairs into compact slots.  The two maps
    live under one lock, so every operation is one atomic state change; the
    lock is never poisoned, because no operation panics while holding it. *)

From S2P Require Import Prelude Types.

Module Routes.

Definition MAX_ROUTES_PER_CONNECTION : Z := 65536.

Record RouteKey := mkRouteKey { actor_id : Z; type_hash : Z }.

#[global] Instance RouteKey_eq_dec : EqDecision RouteKey.
Proof. solve_decision. Defined.

#[global] Instance RouteKey_countable : Countable RouteKey.
Proof.
  refine (inj_countable' (fun k => (actor_id k, type_hash k))
                         (fun p => mkRouteKey p.1 p.2) _).
  now intros [].
Defined.

Record RouteTable := mkRouteTable {
  next_slot : Z;
  max_routes : Z;
  by_key : gmap RouteKey Z;
  by_slot : gmap Z RouteKey;
}.

Definition with_limit (max_routes : Z) : RouteTable := mkRouteTable 1 max_routes ∅ ∅.

Definition new : RouteTable := with_limit MAX_ROUTES_PER_CONNECTION.

(** Both maps gain the pair, as under the write lock. *)
Definition insert_pair (t : RouteTable) (slot : Z) (key : RouteKey) : RouteTable :=
  mkRouteTable (next_slot t) (max_routes t)
    (<[key := slot]> (by_key t)) (<[slot := key]> (by_slot t)).

(** The compare-exchange loop, run to its successful exchange. *)
Definition allocate_slot (t : RouteTable) : option (Z * RouteTable) :=
  let current := next_slot t in
  if (current =? 0) || (current =? u32_max) then None
  else Some (current,
             mkRouteTable (current + 1) (max_routes t) (by_key t) (by_slot t)).

Definition slot_for (t : RouteTable) (key : RouteKey) : option (Z * bool) * RouteTable :=
  match by_key t !! key with
  | Some slot => (Some (slot, false), t)
  | None =>
      if max_routes t <=? map_len (by_key t) then (None, t)
      else match allocate_slot t with
           | None => (None, t)
           | Some (slot, t) => (Some (slot, true), insert_pair t slot key)
           end
  end.

Definition bind (t : RouteTable) (slot : Z) (key : RouteKey) : bool * RouteTable :=
  if slot =? 0 then (false, t)
  else match by_slot t !! slot with
       | Some existing => if decide (existing = key) then (true, t) else (false, t)
       | None =>
           if max_routes t <=? map_len (by_key t) then (false, t)
           else match by_key t !! key with
                | Some existing =>
                    if decide (existing = slot)
                    then (true, insert_pair t slot key) else (false, t)
                | None => (true, insert_pair t slot key)
                end
       end.

Definition resolve (t : RouteTable) (slot : Z) : option RouteKey := by_slot t !! slot.

Definition remove_unbound (t : RouteTable) (slot : Z) (key : RouteKey) : RouteTable :=
  if decide (by_slot t !! slot = Some key /\ by_key t !! key = Some slot)
  then mkRouteTable (next_slot t) (max_routes t)
         (delete key (by_key t)) (delete slot (by_slot t))
  else t.

(** The rollback guard: [drop] undoes the allocation unless disarmed. *)
Record UnboundRouteGuard := mkGuard { g_slot : Z; g_key : RouteKey; armed : bool }.

Definition guard_new (slot : Z) (key : RouteKey) : UnboundRouteGuard :=
  mkGuard slot key true.

Definition disarm (g : UnboundRouteGuard) : UnboundRouteGuard :=
  mkGuard (g_slot g) (g_key g) false.

Definition guard_drop (g : UnboundRouteGuard) (t : RouteTable) : RouteTable :=
  if armed g then remove_unbound t (g_slot g) (g_key g) else t.

(** ** Well-formedness

    The two maps are inverse of each other, slot 0 is never bound and the
    table never exceeds its limit. *)
Record wf (t : RouteTable) : Prop := {
  wf_inverse : forall k s, by_key t !! k = Some s <-> by_slot t !! s = Some k;
  wf_nonzero : by_slot t !! 0 = None;
  wf_bounded : map_len (by_key t) <= Z.max 0 (max_routes t);
}.

(** A table whose slots all come from its own allocator. *)
Definition issued_below (t : RouteTable) : Prop :=
  1 <= next_slot t <= u32_max
  /\ forall s k, by_slot t !! s = Some k -> 1 <= s < next_slot t.

Lemma wf_with_limit m : wf (with_limit m).
Proof.
  split; cbn; [|done|unfold map_len; rewrite map_size_empty; lia].
  intros k s. now rewrite !lookup_empty.
Qed.

Lemma map_len_insert_le {K A} `{Countable K} (m : gmap K A) k a :
  map_len (<[k := a]> m) <= map_len m + 1.
Proof. unfold map_len. rewrite map_size_insert. destruct (m !! k); unfold id; lia. Qed.

Lemma map_len_delete_le {K A} `{Countable K} (m : gmap K A) k :
  map_len (delete k m) <= map_len m.
Proof. unfold map_len. rewrite map_size_delete. destruct (m !! k); unfold id; lia. Qed.

Lemma wf_insert_pair t slot key :
  wf t -> slot <> 0 -> by_slot t !! slot = None -> by_key t !! key = None ->
  map_len (by_key t) < max_routes t ->
  wf (insert_pair t slot key).
Proof.
  intros [Hinv H0 Hb] Hs Hslot Hkey Hlen. split; cbn.
  - intros k s. rewrite !lookup_insert_Some, Hinv.
    split; intros [[-> ->]|[Hne E]]; auto; right; (split; [intros <-|done]).
    + congruence.
    + apply Hinv in E. congruence.
  - now rewrite lookup_insert_ne.
  - pose proof (map_len_insert_le (by_key t) key slot). lia.
Qed.

Lemma allocate_slot_Some t slot t' :
  allocate_slot t = Some (slot, t') ->
  slot = next_slot t /\ next_slot t <> 0 /\ next_slot t <> u32_max
  /\ t' = mkRouteTable (next_slot t + 1) (max_routes t) (by_key t) (by_slot t).
Proof. unfold allocate_slot. intros H. cmp_cases; cbn in H; simplify_eq; auto. Qed.

Lemma wf_slot_for t key :
  wf t -> issued_below t ->
  wf (slot_for t key).2 /\ issued_below (slot_for t key).2.
Proof.
  intros Hwf [Hn Hi]. unfold slot_for.
  destruct (by_key t !! key) as [s|] eqn:Hk; [now split|]. cmp_cases; [now split|].
  destruct (allocate_slot t) as [[s t']|] eqn:Ha; [|now split].
  apply allocate_slot_Some in Ha as (-> & H0 & Hmax & ->). cbn. split.
  - apply (wf_insert_pair (mkRouteTable _ _ _ _)); cbn; auto; [now destruct Hwf|].
    destruct (by_slot t !! next_slot t) eqn:E; [|done]. apply Hi in E. lia.
  - split; cbn; [unfold u32_max in *; lia|].
    intros s k [[<- _]|[_ E]]%lookup_insert_Some; [lia|]. apply Hi in E. lia.
Qed.

Lemma wf_bind t slot key : wf t -> wf (bind t slot key).2.
Proof.
  intros Hwf. unfold bind. destruct (Z.eqb_spec slot 0); [done|].
  destruct (by_slot t !! slot) eqn:Hs; [now case_decide|].
  destruct (Z.leb_spec (max_routes t) (map_len (by_key t))); [done|].
  destruct (by_key t !! key) eqn:Hk.
  - case_decide; [|done]. subst. apply (wf_inverse _ Hwf) in Hk. congruence.
  - now apply wf_insert_pair.
Qed.

Lemma remove_unbound_spec t slot key :
  by_slot (remove_unbound t slot key) ⊆ by_slot t
  /\ next_slot (remove_unbound t slot key) = next_slot t
  /\ max_routes (remove_unbound t slot key) = max_routes t.
Proof. unfold remove_unbound. case_decide; cbn; split_and!; try done. apply delete_subseteq. Qed.

Lemma wf_remove_unbound t slot key : wf t -> wf (remove_unbound t slot key).
Proof.
  intros Hwf. unfold remove_unbound. case_decide as Hd; [|done].
  destruct Hd as [Hs Hk], Hwf as [Hinv H0 Hb]. split; cbn.
  - intros k s. rewrite !lookup_delete_Some, Hinv. split; intros [Hne E]; split; auto.
    + intros <-. rewrite Hs in E. congruence.
    + intros <-. apply Hinv in E. congruence.
  - now apply lookup_delete_None; right.
  - pose proof (map_len_delete_le (by_key t) key). lia.
Qed.

Lemma issued_below_remove_unbound t slot key :
  issued_below t -> issued_below (remove_unbound t slot key).
Proof.
  intros [Hn Hi]. destruct (remove_unbound_spec t slot key) as (? & Hnx & ?).
  split; [now rewrite Hnx|]. intros s k E. rewrite Hnx. eapply Hi, lookup_weaken; eauto.
Qed.

#[export] Hint Resolve wf_with_limit wf_bind wf_remove_unbound
  issued_below_remove_unbound : remote.

(** ** Behaviour of the operations *)

(** A fresh slot is the allocator's counter: it was never handed out before. *)
Lemma slot_for_fresh t key s t' :
  slot_for t key = (Some (s, true), t') ->
  s = next_slot t /\ next_slot t' = s + 1 /\ s <> 0
  /\ by_key t !! key = None /\ map_len (by_key t) < max_routes t
  /\ t' = insert_pair (mkRouteTable (s + 1) (max_routes t) (by_key t) (by_slot t)) s key.
Proof.
  unfold slot_for. intros H. destruct (by_key t !! key); [done|].
  destruct (Z.leb_spec (max_routes t) (map_len (by_key t))); [done|].
  destruct (allocate_slot t) as [[s' u]|] eqn:Ha; [|done]. simplify_eq.
  apply allocate_slot_Some in Ha as (-> & Hnz & Hmax & ->). cbn. auto 6.
Qed.

Lemma slot_for_known t key s t' :
  slot_for t key = (Some (s, false), t') -> t' = t /\ by_key t !! key = Some s.
Proof.
  unfold slot_for. intros H. destruct (by_key t !! key); [now simplify_eq|].
  destruct (max_routes t <=? map_len (by_key t)); [done|].
  now destruct (allocate_slot t) as [[]|].
Qed.

(** Rolling back a fresh allocation restores the maps exactly; the counter
    stays past the slot. *)
Lemma slot_for_rollback t key s t' :
  wf t -> issued_below t -> slot_for t key = (Some (s, true), t') ->
  by_key (remove_unbound t' s key) = by_key t
  /\ by_slot (remove_unbound t' s key) = by_slot t.
Proof.
  intros Hwf [_ Hi] H.
  apply slot_for_fresh in H as (Hs & _ & _ & Hk & _ & ->).
  assert (by_slot t !! s = None) as Hns.
  { destruct (by_slot t !! s) eqn:E; [|done]. apply Hi in E. lia. }
  unfold remove_unbound, insert_pair; cbn.
  rewrite decide_True by now rewrite !lookup_insert_eq.
  cbn. now rewrite !delete_insert_id.
Qed.

End Routes.
