(* ===== verification/Aligned.v ===== *)
(** * Aligned payload buffers

    [AlignedBytes] and [AlignedBytesPool] of src/src/aligned.rs.  A buffer is
    its start address and its bytes; the address comes from the allocator, and
    the alignment of an [AlignedVec] is a hypothesis where it is used.  The
    pool is a step relation over its atomic operations, so that its budget is
    proved under every interleaving of connections. *)

From S2P Require Import Prelude Types.

Module Aligned.

Definition PAYLOAD_ALIGNMENT : Z := 16.
Definition MAX_POOLED_ALIGNED_CAPACITY : Z := 8 * 1024 * 1024.
Definition DEFAULT_ALIGNED_BUFFER_CAPACITY : Z := 256.
Definition DEFAULT_ALIGNED_POOL_BYTE_BUDGET : Z := 64 * 1024 * 1024.

Record PooledAlignedBuffer := mkBuffer { base : Z; data : list Z }.

(** [AlignedBytes]: a view of [len] bytes at [offset] of its buffer. *)
Record AlignedBytes := mkAligned { buffer : PooledAlignedBuffer; offset : Z; view_len : Z }.

Definition from_pooled_buffer_range
    (b : PooledAlignedBuffer) (offset l : Z) : Result AlignedBytes :=
  let buf_len := len (data b) in
  let end_ := saturating_add usize_max offset l in
  if buf_len <? end_ then Err (Network InvalidData)
  else if l =? 0 then Ok (mkAligned b offset 0)
  else if negb ((base b + offset) mod PAYLOAD_ALIGNMENT =? 0)
       then Err (Network InvalidData)
       else Ok (mkAligned b offset l).

Definition from_pooled_buffer (b : PooledAlignedBuffer) : Result AlignedBytes :=
  expect (from_pooled_buffer_range b 0 (len (data b))).

(** [AsRef<[u8]>] of a pooled view. *)
Definition view (a : AlignedBytes) : list Z :=
  slice (data (buffer a)) (Z.to_nat (offset a)) (Z.to_nat (offset a + view_len a)).

(** ** The pool

    Capacities are what the budget counts.  A buffer being returned is
    [reserved] between its reservation and its push; a buffer being taken is
    [popped] between its pop and the release of its reservation. *)
Record Pool := mkPool {
  queue : list Z;
  slots : Z;
  retained_bytes : Z;
  budget : Z;
  reserved : list Z;
  popped : list Z;
}.

Definition try_reserve (p : Pool) (bytes : Z) : option Pool :=
  match checked_add usize_max (retained_bytes p) bytes with
  | None => None
  | Some next =>
      if budget p <? next then None
      else Some (mkPool (queue p) (slots p) next (budget p)
                   (bytes :: reserved p) (popped p))
  end.

Definition release_bytes (retained bytes : Z) : Z := saturating_sub retained bytes.

(** [return_buffer]: an oversized buffer is dropped, then the reservation. *)
Definition return_begin (p : Pool) (cap : Z) : Pool :=
  if MAX_POOLED_ALIGNED_CAPACITY <? cap then p
  else match try_reserve p cap with None => p | Some p => p end.

Fixpoint remove_one (x : Z) (l : list Z) : list Z :=
  match l with
  | [] => []
  | y :: l => if x =? y then l else y :: remove_one x l
  end.

Inductive pool_step : Pool -> Pool -> Prop :=
  | step_return p cap :
      0 <= cap -> pool_step p (return_begin p cap)
  | step_push p cap :
      cap ∈ reserved p -> len (queue p) < slots p ->
      pool_step p (mkPool (queue p ++ [cap]) (slots p) (retained_bytes p) (budget p)
                     (remove_one cap (reserved p)) (popped p))
  | step_push_full p cap :
      cap ∈ reserved p -> slots p <= len (queue p) ->
      pool_step p (mkPool (queue p) (slots p) (release_bytes (retained_bytes p) cap)
                     (budget p) (remove_one cap (reserved p)) (popped p))
  | step_pop p cap q :
      queue p = cap :: q ->
      pool_step p (mkPool q (slots p) (retained_bytes p) (budget p)
                     (reserved p) (cap :: popped p))
  | step_release p cap :
      cap ∈ popped p ->
      pool_step p (mkPool (queue p) (slots p) (release_bytes (retained_bytes p) cap)
                     (budget p) (reserved p) (remove_one cap (popped p))).

Definition total (l : list Z) : Z := foldr Z.add 0 l.
Arguments total : simpl never.

(** The counter is exactly the capacity it accounts for, within the budget. *)
Record pool_inv (p : Pool) : Prop := {
  pi_exact : retained_bytes p = total (queue p) + total (reserved p) + total (popped p);
  pi_budget : retained_bytes p <= budget p;
  pi_slots : len (queue p) <= slots p;
  pi_nonneg : Forall (Z.le 0) (queue p ++ reserved p ++ popped p);
}.

Lemma total_cons x l : total (x :: l) = x + total l.
Proof. reflexivity. Qed.

Lemma total_remove_one x l : x ∈ l -> total (remove_one x l) = total l - x.
Proof.
  induction l as [|y l IH]; cbn; [now intros ?%not_elem_of_nil|].
  intros [->|Hin]%elem_of_cons; cmp_cases; rewrite ?total_cons; try lia.
  rewrite IH by done. lia.
Qed.

Lemma total_nonneg l : Forall (Z.le 0) l -> 0 <= total l.
Proof. induction 1; rewrite ?total_cons; [reflexivity|lia]. Qed.

Lemma elem_nonneg l x : Forall (Z.le 0) l -> x ∈ l -> 0 <= x.
Proof. intros H Hx. rewrite List.Forall_forall in H. now apply H, list_elem_of_In. Qed.

Lemma total_app l k : total (l ++ k) = total l + total k.
Proof. induction l; cbn [app]; rewrite ?total_cons; [reflexivity|lia]. Qed.

Lemma nonneg_remove_one x l : Forall (Z.le 0) l -> Forall (Z.le 0) (remove_one x l).
Proof.
  induction 1; cbn; [constructor|]. cmp_cases; [done|]. now constructor.
Qed.

Lemma try_reserve_Some p cap p' :
  try_reserve p cap = Some p' ->
  retained_bytes p + cap <= budget p
  /\ p' = mkPool (queue p) (slots p) (retained_bytes p + cap) (budget p)
            (cap :: reserved p) (popped p).
Proof.
  unfold try_reserve. destruct (checked_add _ _ _) eqn:E; [|done].
  apply checked_add_Some in E as [-> ?]. cmp_cases; [done|]. intros [= <-]. auto.
Qed.

(** A reservation given back is at most the counter, so the saturating
    subtraction of [release_reservation] is exact. *)
Lemma release_exact retained a b c x :
  retained = total a + total b + total c -> x ∈ b ->
  Forall (Z.le 0) (a ++ b ++ c) ->
  release_bytes retained x = total a + total (remove_one x b) + total c.
Proof.
  intros -> Hin [Ha [Hb Hc]%Forall_app]%Forall_app.
  rewrite total_remove_one by done. unfold release_bytes, saturating_sub.
  pose proof (total_remove_one x b Hin). pose proof (total_nonneg a Ha).
  pose proof (total_nonneg c Hc). pose proof (total_nonneg _ (nonneg_remove_one x b Hb)). lia.
Qed.

Lemma pool_inv_step p p' : pool_inv p -> pool_step p p' -> pool_inv p'.
Proof.
  intros [He Hb Hs Hn] Hstep.
  apply Forall_app in Hn as [Hq [Hr Hp]%Forall_app].
  destruct Hstep as [p cap Hc|p cap Hin Hl|p cap Hin Hl|p cap q Hq'|p cap Hin].
  - unfold return_begin. destruct (_ <? cap); [|destruct (try_reserve p cap) eqn:E];
      try (split; auto; rewrite !Forall_app; auto).
    apply try_reserve_Some in E as [? ->].
    split; cbn; auto; [rewrite total_cons; lia|]. rewrite Forall_app, Forall_cons_iff, Forall_app. auto.
  - pose proof (total_remove_one cap _ Hin). split; cbn; auto.
    + rewrite total_app. rewrite total_cons. change (total []) with 0. lia.
    + rewrite len_app. unfold len in *. cbn. lia.
    + rewrite !Forall_app. split_and!; auto using nonneg_remove_one.
      constructor; [exact (elem_nonneg _ _ Hr Hin)|constructor].
  - assert (E := release_exact _ _ _ _ cap He Hin ltac:(rewrite !Forall_app; auto)).
    pose proof (elem_nonneg _ _ Hr Hin). pose proof (total_remove_one cap _ Hin).
    split; cbn; [exact E|lia|exact Hs|]. rewrite !Forall_app. auto using nonneg_remove_one.
  - rewrite Hq' in *. inversion_clear Hq. unfold len in *. cbn in *.
    split; cbn; auto; [rewrite total_cons in *; lia|unfold len; lia|].
    rewrite !Forall_app, Forall_cons_iff. auto.
  - assert (E := release_exact (retained_bytes p) (queue p) (popped p) (reserved p) cap
                   ltac:(lia) Hin ltac:(rewrite !Forall_app; auto)).
    pose proof (elem_nonneg _ _ Hp Hin). pose proof (total_remove_one cap _ Hin).
    split; cbn; [lia|lia|exact Hs|]. rewrite !Forall_app. auto using nonneg_remove_one.
Qed.

(** ** Views *)

(** An aligned, in-range view succeeds and shows exactly its range. *)
Lemma from_pooled_buffer_range_Ok b off l :
  0 <= off -> 0 <= l -> off + l <= len (data b) <= usize_max ->
  base b mod PAYLOAD_ALIGNMENT = 0 -> off mod PAYLOAD_ALIGNMENT = 0 ->
  from_pooled_buffer_range b off l = Ok (mkAligned b off l).
Proof.
  intros Ho Hl Hend Hbase Hoff. unfold from_pooled_buffer_range.
  rewrite saturating_add_exact by lia.
  rewrite (proj2 (Z.ltb_ge _ _)) by lia.
  destruct (Z.eqb_spec l 0) as [->|]; [done|].
  rewrite Z.add_mod, Hbase, Hoff by done. reflexivity.
Qed.

Lemma view_suffix b off :
  0 <= off <= len (data b) ->
  view (mkAligned b off (len (data b) - off)) = drop (Z.to_nat off) (data b).
Proof.
  intros H. unfold view, slice, len in *. cbn [buffer offset view_len].
  apply take_ge. rewrite length_drop. lia.
Qed.

End Aligned.
