(* ===== verification/FrameParser.v ===== *)
(** * Frame parser

    [parse_message_from_pooled_buffer_with_routes] of src/src/handle.rs: a
    complete V5 frame to a [MessageReadResult], with the route bindings of its
    connection.  The rkyv decoder of a registry message is a parameter. *)

From S2P Require Import Prelude Types Framing RouteTable Aligned.
Import Routes Aligned.

(** [uN::from_be_bytes(body[a..b])]. *)
Definition field (body : list Z) (a b : nat) : Z := from_be_bytes (slice body a b).

(** [body[a..b].iter().any(|byte| *byte != 0)]. *)
Definition any_nonzero (l : list Z) : bool := existsb (fun b => negb (b =? 0)) l.

(** Integers of their width. *)
Definition u32 (x : Z) : Prop := 0 <= x <= u32_max.
Definition u64 (x : Z) : Prop := 0 <= x <= u64_max.

Lemma u32_be x : u32 x -> from_be_bytes (to_be_bytes 4 x) = x.
Proof.
  intros H. apply from_to_be_bytes. unfold u32, u32_max in H.
  change (256 ^ Z.of_nat 4) with 4294967296. lia.
Qed.

Lemma u64_be x : u64 x -> from_be_bytes (to_be_bytes 8 x) = x.
Proof.
  intros H. apply from_to_be_bytes. unfold u64, u64_max in H.
  change (256 ^ Z.of_nat 8) with 18446744073709551616. lia.
Qed.

(** Reading one field of a frame back. *)
Ltac read_u32 a e x :=
  change (field _ a e) with (from_be_bytes (to_be_bytes 4 x)); rewrite (u32_be x) by done.
Ltac read_u64 a e x :=
  change (field _ a e) with (from_be_bytes (to_be_bytes 8 x)); rewrite (u64_be x) by done.
Ltac header_fits :=
  rewrite (proj2 (Z.ltb_ge _ _))
    by (unfold DIRECT_ASK_HEADER_LEN, DIRECT_RESPONSE_HEADER_LEN in *; lia).

Section Parser.
(** [decode_registry_message]: rkyv access to the payload bytes. *)
Context {RegistryMessage : Type}.
Context (decode_registry_message : list Z -> option RegistryMessage).

Inductive MessageReadResult :=
  | RouteBound
  | Gossip (message : RegistryMessage) (correlation_id : option Z)
  | AskRaw (correlation_id : Z) (payload : AlignedBytes)
  | Response (correlation_id : Z) (payload : AlignedBytes)
  | AskNack (correlation_id : Z) (reason : AskNackReason)
  | Raw (payload : list Z)
  | PubSub (payload : AlignedBytes)
  | Actor (msg_type : MessageType) (correlation_id actor_id type_hash : Z)
          (request_id : option Z) (payload : AlignedBytes)
  | Streaming (msg_type : MessageType) (correlation_id : Z)
              (stream_header : StreamHeader) (chunk_data : list Z)
  | StreamAbort (stream_id reason : Z)
  | DirectAsk (correlation_id request_id : Z) (payload : AlignedBytes)
  | DirectResponse (correlation_id : Z) (payload : AlignedBytes).

Definition invalid_v5_frame {A} : Result A := Err (Network InvalidData).

(** The result and the route table the parse leaves behind. *)
Definition parse_message_from_pooled_buffer_with_routes
    (b : PooledAlignedBuffer) (msg_len : Z) (routes : option RouteTable)
    : Result MessageReadResult * option RouteTable :=
  match decode_control (take 4 (data b)) with
  | None => (invalid_v5_frame, routes)
  | Some control =>
  if negb (body_len control =? msg_len) then (invalid_v5_frame, routes) else
  let body := drop 4 (data b) in
  let n := len body in
  let aligned frame_header header :=
    from_pooled_buffer_range b frame_header (msg_len - header) in
  match kind control with
  | KActorTell =>
      if n <? ACTOR_TELL_HEADER_LEN then (invalid_v5_frame, routes) else
      (payload ← aligned (FRAME_HEADER_LEN ACTOR_TELL_HEADER_LEN) ACTOR_TELL_HEADER_LEN;
       Ok (Actor MActorTell 0 (field body 0 8) (field body 8 12) None payload), routes)
  | KActorAsk =>
      if n <? ACTOR_ASK_HEADER_LEN then (invalid_v5_frame, routes) else
      let correlation_id := field body 0 4 in
      if correlation_id =? 0 then (invalid_v5_frame, routes) else
      if any_nonzero (slice body 24 28) then (invalid_v5_frame, routes) else
      let request_id := field body 16 24 in
      (payload ← aligned (FRAME_HEADER_LEN ACTOR_ASK_HEADER_LEN) ACTOR_ASK_HEADER_LEN;
       Ok (Actor MActorAsk correlation_id (field body 4 12) (field body 12 16)
             (if negb (request_id =? 0) then Some request_id else None) payload), routes)
  | KRouteBind =>
      if negb (n =? ROUTE_BIND_HEADER_LEN) then (invalid_v5_frame, routes) else
      if any_nonzero (slice body 16 20) then (invalid_v5_frame, routes) else
      match routes with
      | None => (invalid_v5_frame, routes)
      | Some table =>
          match bind table (field body 0 4) (mkRouteKey (field body 4 12) (field body 12 16)) with
          | (false, table) => (invalid_v5_frame, Some table)
          | (true, table) => (Ok RouteBound, Some table)
          end
      end
  | KRoutedActorAsk =>
      if n <? ROUTED_ACTOR_ASK_HEADER_LEN then (invalid_v5_frame, routes) else
      let correlation_id := field body 0 4 in
      if correlation_id =? 0 then (invalid_v5_frame, routes) else
      if any_nonzero (slice body 8 12) then (invalid_v5_frame, routes) else
      match routes with
      | None => (invalid_v5_frame, routes)
      | Some table =>
          match resolve table (field body 4 8) with
          | None => (invalid_v5_frame, routes)
          | Some route =>
              (payload ← aligned (FRAME_HEADER_LEN ROUTED_ACTOR_ASK_HEADER_LEN)
                                 ROUTED_ACTOR_ASK_HEADER_LEN;
               Ok (Actor MActorAsk correlation_id (actor_id route) (type_hash route)
                     None payload), routes)
          end
      end
  | KAsk =>
      if n <? ASK_RESPONSE_HEADER_LEN then (invalid_v5_frame, routes) else
      let correlation_id := field body 0 4 in
      match decode_registry_message (drop 16 (data b)) with
      | Some message => (Ok (Gossip message (Some correlation_id)), routes)
      | None =>
          (payload ← aligned (FRAME_HEADER_LEN ASK_RESPONSE_HEADER_LEN) ASK_RESPONSE_HEADER_LEN;
           Ok (AskRaw correlation_id payload), routes)
      end
  | KResponse =>
      if n <? ASK_RESPONSE_HEADER_LEN then (invalid_v5_frame, routes) else
      let correlation_id := field body 0 4 in
      match ask_nack_reason body with
      | Some reason => (Ok (AskNack correlation_id reason), routes)
      | None =>
          (payload ← aligned (FRAME_HEADER_LEN ASK_RESPONSE_HEADER_LEN) ASK_RESPONSE_HEADER_LEN;
           Ok (Response correlation_id payload), routes)
      end
  | KDirectAsk =>
      if n <? DIRECT_ASK_HEADER_LEN then (invalid_v5_frame, routes) else
      match direct_ask_request_id body with
      | None => (invalid_v5_frame, routes)
      | Some request_id =>
          (payload ← aligned (FRAME_HEADER_LEN DIRECT_ASK_HEADER_LEN) DIRECT_ASK_HEADER_LEN;
           Ok (DirectAsk (field body 0 4) request_id payload), routes)
      end
  | KDirectResponse =>
      if n <? DIRECT_ASK_HEADER_LEN then (invalid_v5_frame, routes) else
      (payload ← aligned (FRAME_HEADER_LEN DIRECT_ASK_HEADER_LEN) DIRECT_ASK_HEADER_LEN;
       Ok (DirectResponse (field body 0 4) payload), routes)
  | KPubSub =>
      if n <? PUBSUB_HEADER_LEN then (invalid_v5_frame, routes) else
      (payload ← aligned (FRAME_HEADER_LEN PUBSUB_HEADER_LEN) PUBSUB_HEADER_LEN;
       Ok (PubSub payload), routes)
  | KGossip =>
      if n <? GOSSIP_HEADER_LEN then (invalid_v5_frame, routes) else
      match decode_registry_message (drop 16 (data b)) with
      | Some message => (Ok (Gossip message None), routes)
      | None => (Ok (Raw body), routes)
      end
  | KStreamStart =>
      if n <? STREAM_REQUEST_START_HEADER_LEN then (invalid_v5_frame, routes) else
      let chunk_data := drop 28 (data b) in
      (Ok (Streaming MStreamStart (field body 4 8)
             (mkStreamHeader (field body 0 4) (field body 8 12)
                (Z.land (len chunk_data) u32_max) 0 (field body 20 24) (field body 12 20))
             chunk_data), routes)
  | KStreamResponseStart =>
      if n <? STREAM_RESPONSE_START_HEADER_LEN then (invalid_v5_frame, routes) else
      let chunk_data := drop 16 (data b) in
      (Ok (Streaming MStreamResponseStart (field body 4 8)
             (mkStreamHeader (field body 0 4) (field body 8 12)
                (Z.land (len chunk_data) u32_max) 0 0 0)
             chunk_data), routes)
  | KStreamData | KStreamResponseData =>
      if n <? STREAM_DATA_HEADER_LEN then (invalid_v5_frame, routes) else
      let chunk_data := drop 12 (data b) in
      (Ok (Streaming (if decide (kind control = KStreamData) then MStreamData
                      else MStreamResponseData) 0
             (mkStreamHeader (field body 0 4) 0 (Z.land (len chunk_data) u32_max)
                (field body 4 8) 0 0)
             chunk_data), routes)
  | KStreamAbort =>
      if negb (n =? STREAM_DATA_HEADER_LEN) then (invalid_v5_frame, routes) else
      (Ok (StreamAbort (field body 0 4) (field body 4 8)), routes)
  end
  end.

(** ** Parsing what the writers write

    [frame b header payload]: the buffer holds the header a writer produced
    followed by the payload, at the alignment of an [AlignedVec]. *)
Definition frame (b : PooledAlignedBuffer) (header payload : list Z) : Prop :=
  data b = header ++ payload /\ base b mod PAYLOAD_ALIGNMENT = 0.

Lemma field_to_be n x rest :
  0 <= x < 256 ^ Z.of_nat n -> field (to_be_bytes n x ++ rest) 0 n = x.
Proof.
  intros Hx. unfold field, slice. rewrite Nat.sub_0_r, drop_0, take_app_le, take_ge.
  all: rewrite ?length_to_be_bytes; try lia. now apply from_to_be_bytes.
Qed.

Lemma field_to_be_at n x pre rest a e :
  length pre = a -> e = (a + n)%nat -> 0 <= x < 256 ^ Z.of_nat n ->
  field (pre ++ to_be_bytes n x ++ rest) a e = x.
Proof.
  intros <- -> Hx. unfold field, slice.
  rewrite drop_app_length. replace (_ + n - _)%nat with (n - 0)%nat by lia.
  exact (field_to_be n x rest Hx).
Qed.

(** What a sender asks the wire to carry, with the header it writes for it and
    the message the receiver must see. *)
Inductive OutFrame :=
  | OutTell (actor_id type_hash : Z)
  | OutAsk (correlation_id actor_id type_hash : Z) (request_id : option Z)
  | OutRoutedAsk (correlation_id slot : Z)
  | OutResponse (correlation_id : Z)
  | OutDirectAsk (correlation_id request_id : Z)
  | OutDirectResponse (correlation_id : Z)
  | OutPubSub
  | OutStreamStart (stream_id correlation_id total_size actor_id type_hash : Z)
  | OutStreamResponseStart (stream_id correlation_id total_size : Z)
  | OutStreamData (response : bool) (stream_id chunk_index : Z).

Definition write_header (f : OutFrame) (payload_len : Z) : Result (list Z) :=
  match f with
  | OutTell a t => try_write_actor_tell_header a t payload_len
  | OutAsk c a t r => try_write_actor_ask_header_with_request_id c a t payload_len r
  | OutRoutedAsk c s => try_write_routed_actor_ask_header c s payload_len
  | OutResponse c => try_write_ask_response_header MResponse c payload_len
  | OutDirectAsk c r => try_write_direct_ask_header c r payload_len
  | OutDirectResponse c => try_write_direct_response_header c payload_len
  | OutPubSub => try_write_pubsub_frame_prefix payload_len
  | OutStreamStart s c n a t => try_write_stream_request_start_header s c n a t payload_len
  | OutStreamResponseStart s c n => try_write_stream_response_start_header s c n payload_len
  | OutStreamData r s i => try_write_stream_data_header r s i payload_len
  end.

(** Fixed header length of each frame. *)
Definition header_len (f : OutFrame) : Z :=
  match f with
  | OutTell _ _ => ACTOR_TELL_HEADER_LEN
  | OutAsk _ _ _ _ => ACTOR_ASK_HEADER_LEN
  | OutRoutedAsk _ _ => ROUTED_ACTOR_ASK_HEADER_LEN
  | OutResponse _ => ASK_RESPONSE_HEADER_LEN
  | OutDirectAsk _ _ => DIRECT_ASK_HEADER_LEN
  | OutDirectResponse _ => DIRECT_RESPONSE_HEADER_LEN
  | OutPubSub => PUBSUB_HEADER_LEN
  | OutStreamStart _ _ _ _ _ => STREAM_REQUEST_START_HEADER_LEN
  | OutStreamResponseStart _ _ _ => STREAM_RESPONSE_START_HEADER_LEN
  | OutStreamData _ _ _ => STREAM_DATA_HEADER_LEN
  end.

(** The fields are of their width; asks carry a nonzero correlation id, a
    request id is nonzero, and a routed ask names a bound slot. *)
Definition sendable (routes : option RouteTable) (f : OutFrame) : Prop :=
  match f with
  | OutTell a t => u64 a /\ u32 t
  | OutAsk c a t r =>
      u32 c /\ c <> 0 /\ u64 a /\ u32 t /\ u64 (default 1 r) /\ r <> Some 0
  | OutRoutedAsk c s => u32 c /\ c <> 0 /\ u32 s /\ is_Some (routes ≫= fun t => resolve t s)
  | OutResponse c | OutDirectResponse c => u32 c
  | OutDirectAsk c r => u32 c /\ u64 r /\ r <> 0
  | OutPubSub => True
  | OutStreamStart s c n a t => u32 s /\ u32 c /\ u32 n /\ u64 a /\ u32 t
  | OutStreamResponseStart s c n => u32 s /\ u32 c /\ u32 n
  | OutStreamData _ s i => u32 s /\ u32 i
  end.

(** The payload of the frame, as the view the parser hands out. *)
Definition payload_view (b : PooledAlignedBuffer) (f : OutFrame) : AlignedBytes :=
  mkAligned b (4 + header_len f) (len (data b) - (4 + header_len f)).

Definition received (routes : option RouteTable) (b : PooledAlignedBuffer)
    (f : OutFrame) (payload : list Z) : MessageReadResult :=
  match f with
  | OutTell a t => Actor MActorTell 0 a t None (payload_view b f)
  | OutAsk c a t r => Actor MActorAsk c a t r (payload_view b f)
  | OutRoutedAsk c s =>
      let route := default (mkRouteKey 0 0) (routes ≫= fun t => resolve t s) in
      Actor MActorAsk c (actor_id route) (type_hash route) None (payload_view b f)
  | OutResponse c => Response c (payload_view b f)
  | OutDirectAsk c r => DirectAsk c r (payload_view b f)
  | OutDirectResponse c => DirectResponse c (payload_view b f)
  | OutPubSub => PubSub (payload_view b f)
  | OutStreamStart s c n a t =>
      Streaming MStreamStart c (mkStreamHeader s n (len payload) 0 t a) payload
  | OutStreamResponseStart s c n =>
      Streaming MStreamResponseStart c (mkStreamHeader s n (len payload) 0 0 0) payload
  | OutStreamData r s i =>
      Streaming (if r then MStreamResponseData else MStreamData) 0
        (mkStreamHeader s 0 (len payload) i 0 0) payload
  end.

(** The parser on a frame whose control word matches, for any body. *)
Lemma parse_known b msg_len k fields payload :
  data b = control_bytes k msg_len ++ fields ++ payload ->
  0 <= msg_len <= CONTROL_BODY_LEN_MASK ->
  decode_control (take 4 (data b)) = Some (mkControl k msg_len)
  /\ drop 4 (data b) = fields ++ payload.
Proof.
  intros -> H. split; [|reflexivity].
  change (take 4 _) with (control_bytes k msg_len). now apply decode_control_bytes.
Qed.

Lemma len_frame b k m fields payload :
  data b = control_bytes k m ++ fields ++ payload ->
  len (data b) = 4 + len fields + len payload.
Proof. intros ->. rewrite !len_app. change (len (control_bytes k m)) with 4. lia. Qed.

(** An aligned view of the payload after a fixed header. *)
Lemma aligned_payload b k m fields payload h :
  data b = control_bytes k m ++ fields ++ payload ->
  base b mod PAYLOAD_ALIGNMENT = 0 -> len fields = h -> (4 + h) mod 16 = 0 ->
  m = h + len payload -> m <= CONTROL_BODY_LEN_MASK ->
  from_pooled_buffer_range b (FRAME_HEADER_LEN h) (m - h)
  = Ok (mkAligned b (4 + h) (len (data b) - (4 + h))).
Proof.
  intros Hd Hb Hf Ho -> Hm. pose proof (len_frame _ _ _ _ _ Hd) as Hl.
  rewrite MASK_value in Hm. pose proof (len_nonneg fields). pose proof (len_nonneg payload).
  unfold FRAME_HEADER_LEN, LENGTH_PREFIX_LEN.
  rewrite from_pooled_buffer_range_Ok; auto; unfold_widths; try lia.
  do 2 f_equal. lia.
Qed.

(** The kind and the fields each writer lays out after the control word. *)
Definition frame_kind (f : OutFrame) : WireKind :=
  match f with
  | OutTell _ _ => KActorTell
  | OutAsk _ _ _ _ => KActorAsk
  | OutRoutedAsk _ _ => KRoutedActorAsk
  | OutResponse _ => KResponse
  | OutDirectAsk _ _ => KDirectAsk
  | OutDirectResponse _ => KDirectResponse
  | OutPubSub => KPubSub
  | OutStreamStart _ _ _ _ _ => KStreamStart
  | OutStreamResponseStart _ _ _ => KStreamResponseStart
  | OutStreamData r _ _ => if r then KStreamResponseData else KStreamData
  end.

Definition header_fields (f : OutFrame) : list Z :=
  match f with
  | OutTell a t => to_be_bytes 8 a ++ to_be_bytes 4 t
  | OutAsk c a t r =>
      to_be_bytes 4 c ++ to_be_bytes 8 a ++ to_be_bytes 4 t
      ++ to_be_bytes 8 (default 0 r) ++ replicate 4 0
  | OutRoutedAsk c s => to_be_bytes 4 c ++ to_be_bytes 4 s ++ replicate 4 0
  | OutResponse c | OutDirectResponse c => to_be_bytes 4 c ++ replicate 8 0
  | OutDirectAsk c r => to_be_bytes 4 c ++ to_be_bytes 8 r
  | OutPubSub => replicate 12 0
  | OutStreamStart s c n a t =>
      to_be_bytes 4 s ++ to_be_bytes 4 c ++ to_be_bytes 4 n
      ++ to_be_bytes 8 a ++ to_be_bytes 4 t
  | OutStreamResponseStart s c n => to_be_bytes 4 s ++ to_be_bytes 4 c ++ to_be_bytes 4 n
  | OutStreamData _ s i => to_be_bytes 4 s ++ to_be_bytes 4 i
  end.

Lemma len_header_fields f : len (header_fields f) = header_len f.
Proof. now destruct f. Qed.

Lemma write_header_layout f p routes :
  sendable routes f -> 0 <= p -> header_len f + p <= CONTROL_BODY_LEN_MASK ->
  write_header f p
  = Ok (control_bytes (frame_kind f) (header_len f + p) ++ header_fields f).
Proof.
  intros Hs Hp Hm. destruct f; cbn [write_header header_len frame_kind header_fields] in *.
  - now apply actor_tell_layout.
  - destruct_and! Hs. now apply actor_ask_layout.
  - now apply routed_actor_ask_layout.
  - now apply response_layout.
  - now apply direct_ask_layout.
  - now apply direct_response_layout.
  - now apply pubsub_layout.
  - now apply stream_request_start_layout.
  - now apply stream_response_start_layout.
  - now apply stream_data_layout.
Qed.

(** A writer that succeeds was given a payload that fits. *)
Lemma write_header_fits f p header :
  write_header f p = Ok header -> header_len f + p <= CONTROL_BODY_LEN_MASK.
Proof.
  destruct f; cbn [write_header header_len];
    unfold try_write_actor_tell_header, try_write_actor_ask_header_with_request_id,
      try_write_routed_actor_ask_header, try_write_ask_response_header,
      try_write_direct_ask_header, try_write_direct_response_header,
      try_write_pubsub_frame_prefix, try_write_stream_request_start_header,
      try_write_stream_response_start_header, try_write_stream_data_header;
    try case_decide; try done; intros Hw; apply bind_Ok in Hw as (n & E & Hw);
    try apply bind_Ok in Hw as (n' & E' & Hw); eauto using try_checked_body_len_fits.
Qed.

(** The chunk length of a stream frame fits its 32-bit field. *)
Lemma chunk_size_u32 (l : list Z) :
  len l <= CONTROL_BODY_LEN_MASK -> Z.land (len l) u32_max = len l.
Proof.
  intros H. rewrite MASK_value in H. pose proof (len_nonneg l).
  change u32_max with (Z.ones 32). rewrite Z.land_ones by lia. apply Z.mod_small. lia.
Qed.

(** Zero padding after the correlation id is not the NACK marker. *)
Lemma ask_nack_reason_unset c payload :
  ask_nack_reason ((to_be_bytes 4 c ++ replicate 8 0) ++ payload) = None.
Proof. unfold ask_nack_reason. destruct (_ <? _); reflexivity. Qed.

(** The all-zero request id stands for its absence. *)
Lemma request_id_field r :
  u64 (default 1 r) -> r <> Some 0 ->
  (if negb (from_be_bytes (to_be_bytes 8 (default 0 r)) =? 0)
   then Some (from_be_bytes (to_be_bytes 8 (default 0 r))) else None) = r.
Proof.
  intros Hr Hn. destruct r as [r|]; [|reflexivity].
  change (default 1 (Some r)) with r in Hr. change (default 0 (Some r)) with r.
  rewrite u64_be by done. cmp_cases; [congruence|done].
Qed.

Lemma parse_written f b payload routes :
  sendable routes f -> header_len f + len payload <= CONTROL_BODY_LEN_MASK ->
  data b = control_bytes (frame_kind f) (header_len f + len payload)
           ++ header_fields f ++ payload ->
  base b mod PAYLOAD_ALIGNMENT = 0 ->
  parse_message_from_pooled_buffer_with_routes b (header_len f + len payload) routes
  = (Ok (received routes b f payload), routes).
Proof.
  intros Hs Hm Hd Hb. pose proof (len_nonneg payload) as Hp.
  pose proof (len_header_fields f) as Hf.
  assert (0 <= header_len f) as Hh by (now destruct f).
  destruct (parse_known _ _ _ _ _ Hd) as [Hc Hbody]; [lia|].
  assert (Hview : (4 + header_len f) mod 16 = 0 ->
    from_pooled_buffer_range b (FRAME_HEADER_LEN (header_len f))
      (header_len f + len payload - header_len f) = Ok (payload_view b f)).
  { intros. eapply aligned_payload; eauto. }
  unfold parse_message_from_pooled_buffer_with_routes.
  rewrite Hc. cbn [body_len kind]. rewrite Z.eqb_refl. cbn [negb]. rewrite Hbody.
  assert (len (header_fields f ++ payload) = header_len f + len payload) as Hlen
    by (rewrite len_app; lia).
  rewrite Hlen. clear Hlen.
  destruct f; cbn [frame_kind header_len header_fields sendable received] in *; destruct_and?.
  - header_fits. read_u64 0%nat 8%nat actor_id0. read_u32 8%nat 12%nat type_hash0.
    now rewrite Hview.
  - header_fits. read_u32 0%nat 4%nat correlation_id. rewrite (proj2 (Z.eqb_neq _ _)) by done.
    change (any_nonzero (slice _ 24 28)) with false.
    read_u64 4%nat 12%nat actor_id0. read_u32 12%nat 16%nat type_hash0.
    change (field _ 16 24) with (from_be_bytes (to_be_bytes 8 (default 0 request_id))).
    rewrite (request_id_field request_id) by done. now rewrite Hview.
  - header_fits. read_u32 0%nat 4%nat correlation_id. rewrite (proj2 (Z.eqb_neq _ _)) by done.
    change (any_nonzero (slice _ 8 12)) with false. read_u32 4%nat 8%nat slot.
    match goal with H : is_Some _ |- _ => destruct H as [route Hr] end.
    destruct routes as [table|]; [|done]. cbn [mbind option_bind] in Hr |- *. rewrite Hr.
    now rewrite Hview.
  - header_fits. read_u32 0%nat 4%nat correlation_id.
    rewrite (ask_nack_reason_unset _ payload). now rewrite Hview.
  - header_fits. unfold direct_ask_request_id. rewrite len_app, Hf. header_fits.
    change (slice _ 4 12) with (to_be_bytes 8 request_id). rewrite u64_be by done.
    rewrite (proj2 (Z.eqb_neq _ _)) by done. read_u32 0%nat 4%nat correlation_id.
    now rewrite Hview.
  - header_fits. read_u32 0%nat 4%nat correlation_id.
    change DIRECT_RESPONSE_HEADER_LEN with DIRECT_ASK_HEADER_LEN in *. now rewrite Hview.
  - header_fits. now rewrite Hview.
  - header_fits. read_u32 0%nat 4%nat stream_id. read_u32 4%nat 8%nat correlation_id.
    read_u32 8%nat 12%nat total_size. read_u64 12%nat 20%nat actor_id0.
    read_u32 20%nat 24%nat type_hash0. rewrite Hd. change (drop 28 _) with payload.
    rewrite chunk_size_u32 by lia. reflexivity.
  - header_fits. read_u32 0%nat 4%nat stream_id. read_u32 4%nat 8%nat correlation_id.
    read_u32 8%nat 12%nat total_size. rewrite Hd. change (drop 16 _) with payload.
    rewrite chunk_size_u32 by lia. reflexivity.
  - destruct response; header_fits; read_u32 0%nat 4%nat stream_id;
      read_u32 4%nat 8%nat chunk_index; rewrite Hd; change (drop 12 _) with payload;
      rewrite chunk_size_u32 by lia; reflexivity.
Qed.

(** The buffer a reader assembles shows the payload it was given. *)
Lemma payload_view_correct f b header payload :
  data b = header ++ payload -> len header = 4 + header_len f ->
  view (payload_view b f) = payload.
Proof.
  intros Hd Hl. pose proof (len_nonneg header). pose proof (len_nonneg payload).
  unfold payload_view. rewrite view_suffix by (rewrite Hd, len_app; lia).
  rewrite Hd, <- Hl. unfold len. rewrite Nat2Z.id. apply drop_app_length.
Qed.


End Parser.

(** A routed ask on a table that binds slot 5, carrying two bytes. *)
Definition example_routes : RouteTable := insert_pair new 5 (mkRouteKey 11 22).

