(* ===== verification/RoutedAsk.v ===== *)
(** * Routed asks, end to end

    [write_routed_actor_ask_with_optional_request_id] of
    src/src/connection_pool/stream_writer.rs against the parser of the peer.
    The sender interns a route, queues a [RouteBind] frame before the first
    compact ask that uses it and rolls the allocation back when the bind was
    not queued; the receiver binds and resolves slots from the frames alone.
    How each enqueue ends is chosen by the environment. *)

From S2P Require Import Prelude Types Framing RouteTable Aligned FrameParser.
Import Routes Aligned.

Module RoutedAsk.

(** How an awaited enqueue ends: the frame is in the ordered queue, the queue
    refused it, or the caller dropped the future while it was parked. *)
Inductive Enqueue := Queued | Refused (e : GossipError) | Cancelled.

(** What the call leaves behind: its result ([None] when it was cancelled), the
    outbound route table and the frames that reached the queue, in order. *)
Record Outcome := mkOutcome {
  result : option (Result unit);
  table : RouteTable;
  frames : list (list Z);
}.

(** Queue one frame as the last action of the call. *)
Definition enqueue_last (t : RouteTable) (sent : list (list Z)) (frame : list Z)
    (out : Enqueue) : Outcome :=
  match out with
  | Queued => mkOutcome (Some (Ok tt)) t (sent ++ [frame])
  | Refused e => mkOutcome (Some (Err e)) t sent
  | Cancelled => mkOutcome None t sent
  end.

Definition stop {A} (r : Result A) (t : RouteTable) (sent : list (list Z)) : Outcome :=
  mkOutcome (Some (_ ← r; Ok tt)) t sent.

(** The compact ask once its slot is known to the peer. *)
Definition send_compact (t : RouteTable) (sent : list (list Z))
    (correlation_id slot : Z) (payload : list Z) (ask_out : Enqueue) : Outcome :=
  match try_write_routed_actor_ask_header correlation_id slot (len payload) with
  | Ok header => enqueue_last t sent (header ++ payload) ask_out
  | r => stop r t sent
  end.

Definition write_routed_actor_ask_with_optional_request_id
    (t : RouteTable) (max_message_size : Z) (identified : Result unit)
    (correlation_id actor_id type_hash : Z) (payload : list Z)
    (request_id : option Z) (bind_out ask_out : Enqueue) : Outcome :=
  match request_id with
  | Some request_id =>
      match (_ ← reject_oversize_for_inline_send ACTOR_ASK_HEADER_LEN (len payload)
                   max_message_size;
             _ ← identified;
             try_write_actor_ask_header_with_request_id correlation_id actor_id
               type_hash (len payload) (Some request_id)) with
      | Ok header => enqueue_last t [] (header ++ payload) ask_out
      | r => stop r t []
      end
  | None =>
      match (_ ← reject_oversize_for_inline_send ROUTED_ACTOR_ASK_HEADER_LEN
                   (len payload) max_message_size;
             identified) with
      | Ok _ =>
          let route := mkRouteKey actor_id type_hash in
          match slot_for t route with
          | (None, t) =>
              match (_ ← reject_oversize_for_inline_send ACTOR_ASK_HEADER_LEN
                           (len payload) max_message_size;
                     try_write_actor_ask_header correlation_id actor_id type_hash
                       (len payload)) with
              | Ok header => enqueue_last t [] (header ++ payload) ask_out
              | r => stop r t []
              end
          | (Some (slot, needs_bind), t) =>
              if needs_bind then
                match write_route_bind_header slot actor_id type_hash with
                | Ok bind =>
                    let guard := guard_new slot route in
                    match bind_out with
                    | Refused e => mkOutcome (Some (Err e)) (guard_drop guard t) []
                    | Cancelled => mkOutcome None (guard_drop guard t) []
                    | Queued =>
                        let t := guard_drop (disarm guard) t in
                        send_compact t [bind] correlation_id slot payload ask_out
                    end
                | r => stop r t []
                end
              else send_compact t [] correlation_id slot payload ask_out
          end
      | r => stop r t []
      end
  end.

Section Receiver.
Context {RegistryMessage : Type}.
Context (decode_registry_message : list Z -> option RegistryMessage).

(** The peer reads a frame into an aligned buffer and parses it. *)
Definition receive (t : RouteTable) (bytes : list Z)
    : Result (@MessageReadResult RegistryMessage) * RouteTable :=
  match parse_message_from_pooled_buffer_with_routes decode_registry_message
          (mkBuffer 0 bytes) (len bytes - 4) (Some t) with
  | (r, t') => (r, default t t')
  end.

(** Frames in order; the connection is torn down at the first error. *)
Fixpoint receive_all (t : RouteTable) (fs : list (list Z))
    : option (list (@MessageReadResult RegistryMessage)) * RouteTable :=
  match fs with
  | [] => (Some [], t)
  | f :: fs =>
      match receive t f with
      | (Ok m, t) =>
          match receive_all t fs with
          | (ms, t) => (cons m <$> ms, t)
          end
      | (_, t) => (None, t)
      end
  end.

(** The asks of a connection, each with how its enqueues end. *)
Record Ask := mkAsk {
  a_cid : Z; a_actor : Z; a_type : Z; a_payload : list Z;
  a_rid : option Z; a_identified : Result unit; a_bind : Enqueue; a_ask : Enqueue;
}.

Definition perform (max : Z) (t : RouteTable) (a : Ask) : Outcome :=
  write_routed_actor_ask_with_optional_request_id t max (a_identified a)
    (a_cid a) (a_actor a) (a_type a) (a_payload a) (a_rid a) (a_bind a) (a_ask a).

(** Fields of their width, a nonzero correlation id (the tracker never hands
    out zero), a nonzero request id (the public entry rejects zero). *)
Definition ask_ok (a : Ask) : Prop :=
  u32 (a_cid a) /\ a_cid a <> 0 /\ u64 (a_actor a) /\ u32 (a_type a)
  /\ u64 (default 1 (a_rid a)) /\ a_rid a <> Some 0.

(** The sender's table and the receiver's table agree. *)
Record agree (s r : RouteTable) : Prop := {
  ag_wf : wf s;
  ag_issued : issued_below s;
  ag_limit : max_routes r = max_routes s;
  ag_by_key : by_key r = by_key s;
  ag_by_slot : by_slot r = by_slot s;
}.

(** The message an ask stands for. *)
Definition delivers (a : Ask) (m : @MessageReadResult RegistryMessage) : Prop :=
  exists p, m = Actor MActorAsk (a_cid a) (a_actor a) (a_type a) (a_rid a) p
            /\ view p = a_payload a.

(** ** Receiving what was queued *)
Lemma receive_all_app t fs gs ms u :
  receive_all t fs = (Some ms, u) ->
  receive_all t (fs ++ gs)
  = match receive_all u gs with (ns, v) => (app ms <$> ns, v) end.
Proof.
  revert t ms u. induction fs as [|f fs IH]; intros t ms u; cbn.
  - intros [= <- <-]. now destruct (receive_all t gs) as [[]].
  - destruct (receive t f) as [[m|e|] t']; try done.
    destruct (receive_all t' fs) as [[ms'|] v] eqn:E; cbn; [|done].
    intros [= <- <-]. rewrite (IH t' ms' v E).
    now destruct (receive_all v gs) as [[]].
Qed.

Lemma receive_written t f payload header :
  sendable (Some t) f -> header_len f + len payload <= CONTROL_BODY_LEN_MASK ->
  write_header f (len payload) = Ok header ->
  receive t (header ++ payload)
  = (Ok (received (Some t) (mkBuffer 0 (header ++ payload)) f payload), t)
  /\ view (payload_view (mkBuffer 0 (header ++ payload)) f) = payload.
Proof.
  intros Hs Hm Hw. pose proof (len_nonneg payload).
  rewrite (write_header_layout f _ (Some t)) in Hw by auto.
  apply Ok_inj in Hw as <-.
  assert (len (control_bytes (frame_kind f) (header_len f + len payload)
               ++ header_fields f) = 4 + header_len f) as Hl.
  { now rewrite len_app, len_header_fields. }
  split; [|eapply payload_view_correct; [reflexivity|exact Hl]].
  unfold receive. rewrite len_app, Hl.
  replace (4 + header_len f + len payload - 4) with (header_len f + len payload) by lia.
  now rewrite parse_written by auto.
Qed.

(** A bind frame runs the receiver's [bind] on the fields it carries. *)
Lemma receive_bind t slot actor_id type_hash frame :
  u32 slot -> u64 actor_id -> u32 type_hash ->
  write_route_bind_header slot actor_id type_hash = Ok frame ->
  receive t frame
  = match bind t slot (mkRouteKey actor_id type_hash) with
    | (true, t') => (Ok RouteBound, t')
    | (false, t') => (Err (Network InvalidData), t')
    end.
Proof.
  intros Hs Ha Ht Hw. rewrite route_bind_layout in Hw. apply Ok_inj in Hw as <-.
  unfold receive, parse_message_from_pooled_buffer_with_routes.
  cbn [data base]. change (take 4 _) with (control_bytes KRouteBind 20).
  rewrite decode_control_bytes by (now vm_compute). cbn [body_len kind].
  change (len _) with 24 at 1. cbn [negb Z.eqb Pos.eqb].
  change (drop 4 _) with (to_be_bytes 4 slot ++ to_be_bytes 8 actor_id
                          ++ to_be_bytes 4 type_hash ++ replicate 4 0).
  change (any_nonzero (slice _ 16 20)) with false.
  read_u32 0%nat 4%nat slot. read_u64 4%nat 12%nat actor_id. read_u32 12%nat 16%nat type_hash.
  change (24 - 4) with 20.
  now destruct (bind t slot _) as [[] ?].
Qed.

(** ** Agreement of the two tables *)
Lemma agree_fresh s r key slot s' :
  agree s r -> slot_for s key = (Some (slot, true), s') ->
  bind r slot key = (true, insert_pair r slot key)
  /\ agree s' (insert_pair r slot key)
  /\ agree (remove_unbound s' slot key) r
  /\ u32 slot.
Proof.
  intros [Hwf Hi Hl Hk Hs] H. pose proof (wf_slot_for s key Hwf Hi) as [Hwf' Hi'].
  rewrite H in Hwf', Hi'. pose proof (slot_for_rollback _ _ _ _ Hwf Hi H) as [Hrk Hrs].
  apply slot_for_fresh in H as (-> & _ & Hz & Hnk & Hlen & ->). destruct Hi as [Hn Hb].
  assert (by_slot s !! next_slot s = None) as Hns.
  { destruct (by_slot s !! next_slot s) eqn:E; [|done]. apply Hb in E. lia. }
  split_and!.
  - unfold bind. rewrite Hs, Hk, Hl, Hns, Hnk.
    rewrite (proj2 (Z.eqb_neq _ _)), (proj2 (Z.leb_gt _ _)) by done. reflexivity.
  - split; cbn; auto; congruence.
  - split; auto using wf_remove_unbound, issued_below_remove_unbound; [|congruence..].
    destruct (remove_unbound_spec (insert_pair
      (mkRouteTable (next_slot s + 1) (max_routes s) (by_key s) (by_slot s))
      (next_slot s) key) (next_slot s) key) as (_ & _ & ->). done.
  - unfold u32. lia.
Qed.

Lemma agree_known s r key slot s' :
  agree s r -> slot_for s key = (Some (slot, false), s') ->
  s' = s /\ resolve r slot = Some key /\ u32 slot.
Proof.
  intros [Hwf [Hn Hb] Hl Hk Hs] H. apply slot_for_known in H as [-> H].
  apply (wf_inverse _ Hwf) in H. unfold resolve. rewrite Hs. split_and!; auto.
  apply Hb in H. unfold u32. lia.
Qed.

Lemma agree_full s r key s' :
  agree s r -> slot_for s key = (None, s') -> s' = s.
Proof.
  intros _. unfold slot_for. destruct (by_key s !! key); [done|].
  destruct (_ <=? _); [now intros [= <-]|].
  destruct (allocate_slot s) as [[]|]; [done|now intros [= <-]].
Qed.

Lemma resolve_insert_pair r slot key : resolve (insert_pair r slot key) slot = Some key.
Proof. unfold resolve. cbn. apply lookup_insert_eq. Qed.

(** ** One ask *)

(** The frames of an outcome are accepted by the receiver: some binds, then the
    ask itself exactly when the call reported success. *)
Definition accepted (a : Ask) (r : RouteTable) (o : Outcome) : Prop :=
  exists bound asks r',
    receive_all r (frames o) = (Some (bound ++ asks), r')
    /\ agree (table o) r'
    /\ Forall (eq RouteBound) bound
    /\ match result o with
       | Some (Ok _) => exists m, asks = [m] /\ delivers a m
       | _ => asks = []
       end.

Lemma accepted_nothing a s r res :
  agree s r -> match res with Some (Ok _) => False | _ => True end ->
  accepted a r (mkOutcome res s []).
Proof.
  intros H Hres. exists [], [], r. cbn. split_and!; auto. now destruct res as [[]|].
Qed.

(** A written ask frame queued last is delivered; refused or cancelled, the
    frames already queued stand alone. *)
Lemma accepted_last a s r r0 sent bound f header out :
  receive_all r0 sent = (Some bound, r) -> Forall (eq RouteBound) bound ->
  agree s r -> sendable (Some r) f ->
  header_len f + len (a_payload a) <= CONTROL_BODY_LEN_MASK ->
  write_header f (len (a_payload a)) = Ok header ->
  (forall b, @received RegistryMessage (Some r) b f (a_payload a)
             = Actor MActorAsk (a_cid a) (a_actor a) (a_type a) (a_rid a) (payload_view b f)) ->
  accepted a r0 (enqueue_last s sent (header ++ a_payload a) out).
Proof.
  intros Hsent Hb Hag Hs Hm Hw Hrec.
  destruct (receive_written r f _ _ Hs Hm Hw) as [Hr Hv].
  destruct out; cbn [enqueue_last];
    [|exists bound, [], r; rewrite app_nil_r; cbn; auto..].
  eexists bound, [_], r. cbn [frames table result]. split_and!; auto.
  - rewrite (receive_all_app _ _ _ _ _ Hsent). cbn [receive_all]. rewrite Hr. reflexivity.
  - eexists. split; [reflexivity|]. eexists. split; [apply Hrec|exact Hv].
Qed.

Lemma accepted_compact a s r r0 sent bound slot :
  receive_all r0 sent = (Some bound, r) -> Forall (eq RouteBound) bound ->
  agree s r -> ask_ok a -> a_rid a = None -> u32 slot ->
  resolve r slot = Some (mkRouteKey (a_actor a) (a_type a)) ->
  accepted a r0 (send_compact s sent (a_cid a) slot (a_payload a) (a_ask a)).
Proof.
  intros Hsent Hb Hag Hok Hrid Hu Hres. unfold send_compact.
  destruct (try_write_routed_actor_ask_header _ _ _) as [header|e|] eqn:Hw;
    [|exists bound, [], r; rewrite app_nil_r; cbn; auto..].
  destruct Hok as (? & ? & ? & ? & ? & ?).
  apply (accepted_last a s r r0 sent bound (OutRoutedAsk (a_cid a) slot)); auto.
  - cbn. rewrite Hres. split_and!; auto.
  - exact (write_header_fits (OutRoutedAsk (a_cid a) slot) _ _ Hw).
  - intros b. cbn. now rewrite Hres, Hrid.
Qed.

Lemma accepted_uncompact a s r header :
  agree s r -> ask_ok a ->
  try_write_actor_ask_header_with_request_id (a_cid a) (a_actor a) (a_type a)
    (len (a_payload a)) (a_rid a) = Ok header ->
  accepted a r (enqueue_last s [] (header ++ a_payload a) (a_ask a)).
Proof.
  intros Hag Hok Hw. set (f := OutAsk (a_cid a) (a_actor a) (a_type a) (a_rid a)).
  apply (accepted_last a s r r [] [] f); auto.
  exact (write_header_fits f _ _ Hw).
Qed.

(** Whatever the environment does to its enqueues, an ask leaves the tables in
    agreement and the receiver accepts every frame it queued. *)
Lemma perform_accepted max s r a :
  agree s r -> ask_ok a -> accepted a r (perform max s a).
Proof.
  intros Hag Hok. unfold perform, write_routed_actor_ask_with_optional_request_id.
  destruct (a_rid a) as [rid|] eqn:Hrid.
  - rewrite <- Hrid.
    destruct (reject_oversize_for_inline_send _ _ _), (a_identified a); cbn;
      try (now apply accepted_nothing).
    destruct (try_write_actor_ask_header_with_request_id _ _ _ _ _) eqn:Hw;
      [now apply accepted_uncompact | now apply accepted_nothing..].
  - destruct (reject_oversize_for_inline_send ROUTED_ACTOR_ASK_HEADER_LEN _ _),
      (a_identified a); cbn [mbind Result_bind]; try (now apply accepted_nothing).
    destruct (slot_for s _) as [[[slot []]|] s'] eqn:Hslot.
    + destruct (agree_fresh _ _ _ _ _ Hag Hslot) as (Hbind & Hag' & Hroll & Hu).
      pose proof Hok as (_ & _ & Ha & Ht & _).
      pose proof (route_bind_layout slot (a_actor a) (a_type a)) as Hw.
      rewrite Hw. destruct (a_bind a); try (now apply accepted_nothing).
      eapply (accepted_compact a _ _ _ _ [RouteBound]); eauto using resolve_insert_pair.
      cbn [receive_all]. rewrite (receive_bind _ _ _ _ _ Hu Ha Ht Hw), Hbind. reflexivity.
    + destruct (agree_known _ _ _ _ _ Hag Hslot) as (-> & Hres & Hu).
      eapply accepted_compact; eauto.
    + apply (agree_full _ r) in Hslot as ->; [|done].
      destruct (reject_oversize_for_inline_send ACTOR_ASK_HEADER_LEN _ _);
        cbn [mbind Result_bind]; try (now apply accepted_nothing).
      unfold try_write_actor_ask_header. rewrite <- Hrid.
      destruct (try_write_actor_ask_header_with_request_id _ _ _ _ _) eqn:Hw;
        [now apply accepted_uncompact | now apply accepted_nothing..].
Qed.

(** ** A whole connection *)

(** Asks in order on one connection: the final table, the frames queued and the
    asks that reported success. *)
Fixpoint run (max : Z) (s : RouteTable) (asks : list Ask)
    : RouteTable * list (list Z) * list Ask :=
  match asks with
  | [] => (s, [], [])
  | a :: asks =>
      let o := perform max s a in
      let '(s', fs, ok) := run max (table o) asks in
      (s', frames o ++ fs,
       match result o with Some (Ok _) => a :: ok | _ => ok end)
  end.

Definition is_ask (m : @MessageReadResult RegistryMessage) : bool :=
  match m with RouteBound => false | _ => true end.

Lemma filter_bound bound :
  Forall (eq RouteBound) bound -> List.filter is_ask bound = [].
Proof. induction 1 as [|m l <- _ IH]; [done|exact IH]. Qed.

Lemma run_accepted max s r asks :
  agree s r -> Forall ask_ok asks ->
  exists ms r',
    receive_all r (run max s asks).1.2 = (Some ms, r')
    /\ agree (run max s asks).1.1 r'
    /\ Forall2 delivers (run max s asks).2 (List.filter is_ask ms).
Proof.
  intros Hag Hok. revert s r Hag. induction Hok as [|a asks Ha _ IH]; intros s r Hag.
  - exists [], r. cbn. auto.
  - destruct (perform_accepted max s r a Hag Ha) as (bound & own & r1 & Hrec & Hag1 & Hb & Hm).
    destruct (IH _ _ Hag1) as (ms & r2 & Hrec2 & Hag2 & Hd). cbn [run].
    destruct (run max (table (perform max s a)) asks) as [[s' fs] ok]. cbn in *.
    exists ((bound ++ own) ++ ms), r2.
    rewrite (receive_all_app _ _ _ _ _ Hrec), Hrec2. split_and!; auto.
    rewrite !List.filter_app, (filter_bound bound Hb). cbn.
    destruct (result (perform max s a)) as [[]|];
      [destruct Hm as (m & -> & Hdel); pose proof Hdel as (p & -> & _); cbn; auto | ..];
      now subst own.
Qed.


End Receiver.

(** A bind cancelled while parked, a retry, a reuse and an identified ask. *)
Definition example_asks : list Ask :=
  [mkAsk 1 7 9 [1; 2] None (Ok tt) Cancelled Queued;
   mkAsk 2 7 9 [3] None (Ok tt) Queued Queued;
   mkAsk 3 7 9 [] None (Ok tt) Queued Queued;
   mkAsk 4 8 9 [5] (Some 6) (Ok tt) Queued Queued].


End RoutedAsk.
