(* ===== verification/AddrOwnership.v ===== *)
(** * Address arbitration

    The pure truth table of src/src/addr_ownership.rs: may a claim take or
    refresh the ownership of an address? *)

From S2P Require Import Prelude Types.

Inductive ClaimKind := Verified | Provisional.

#[global] Instance ClaimKind_eq_dec : EqDecision ClaimKind.
Proof. solve_decision. Defined.

(** [Owner] and [Claim] have the same fields in the source. *)
Record Owner := mkOwner { node_id : PeerId; owner_kind : ClaimKind }.
Record Claim := mkClaim { claim_node_id : PeerId; claim_kind : ClaimKind }.

#[global] Instance Owner_eq_dec : EqDecision Owner.
Proof. solve_decision. Defined.

Inductive RejectReason :=
  | LocalAddress | UnverifiedAddress | VerifiedOwnerPresent | ProvisionalFirstCome.

Inductive Decision_ := Accept | Reject (reason : RejectReason).

Inductive AddrClaimOutcome := ClaimAccepted | ClaimRejected.

Definition arbitrate (current : option Owner) (claim : Claim) (is_local_addr : bool)
    : Decision_ :=
  if is_local_addr then Reject LocalAddress
  else match current with
       | None =>
           match claim_kind claim with
           | Provisional => Reject UnverifiedAddress
           | Verified => Accept
           end
       | Some owner =>
           if decide (node_id owner = claim_node_id claim) then Accept
           else match owner_kind owner with
                | Verified => Reject VerifiedOwnerPresent
                | Provisional =>
                    match claim_kind claim with
                    | Verified => Accept
                    | Provisional => Reject ProvisionalFirstCome
                    end
                end
       end.

Definition resolved_kind (current : option Owner) (claim : Claim) : ClaimKind :=
  match current with
  | Some owner =>
      if decide (node_id owner = claim_node_id claim /\ owner_kind owner = Verified)
      then Verified else claim_kind claim
  | None => claim_kind claim
  end.

(** ** Lemmas *)

(** What acceptance means: the address is not local, and it is either taken
    with verified evidence, refreshed by its owner, or won over a provisional
    owner by verified evidence. *)
Lemma arbitrate_accept current claim local :
  arbitrate current claim local = Accept <->
  local = false
  /\ match current with
     | None => claim_kind claim = Verified
     | Some owner =>
         node_id owner = claim_node_id claim
         \/ owner_kind owner = Provisional /\ claim_kind claim = Verified
     end.
Proof.
  unfold arbitrate. destruct local, current as [o|], (claim_kind claim) eqn:?;
    try case_decide; try destruct (owner_kind o) eqn:?; naive_solver.
Qed.

(** A refresh never downgrades. *)
Lemma resolved_kind_upgrade owner claim :
  node_id owner = claim_node_id claim -> owner_kind owner = Verified ->
  resolved_kind (Some owner) claim = Verified.
Proof. intros H1 H2. unfold resolved_kind. now rewrite decide_True. Qed.

(** An accepted claim on an address whose owner, if any, is verified leaves a
    verified owner of the claimant's identity. *)
Lemma accept_verified current claim local :
  arbitrate current claim local = Accept ->
  (forall o, current = Some o -> owner_kind o = Verified) ->
  resolved_kind current claim = Verified
  /\ (forall o, current = Some o -> node_id o = claim_node_id claim).
Proof.
  intros [_ H]%arbitrate_accept Hv. destruct current as [o|]; cbn.
  - specialize (Hv o eq_refl). destruct H as [H|[H _]]; [|congruence].
    split; [now rewrite decide_True|]. intros ? [= <-]. done.
  - split; [exact H|done].
Qed.
