(* ===== verification/RoutingSnapshot.v ===== *)
(** * The published routing snapshot

    [RoutingSnapshot] of src/src/registry_owner.rs: the lock-free readable
    publication of the ownership table, in 64 shards selected by a hash of the
    address, with the operator pins and their reverse index beside it.  The
    theorems show that the sharded structure behaves as one flat map. *)

From S2P Require Import Prelude Types AddrOwnership.

Definition ROUTING_SNAPSHOT_SHARDS : Z := 64.

(** [OwnershipToken]: the exact authority of one ownership generation. *)
Record OwnershipToken := mkToken { token_owner : PeerId; token_generation : Z }.

#[global] Instance OwnershipToken_eq_dec : EqDecision OwnershipToken.
Proof. solve_decision. Defined.

Record PublishedOwner := mkPublished { po_owner : Owner; po_generation : Z }.

Record RoutingSnapshot := mkSnapshot {
  owner_shards : list (gmap SocketAddr PublishedOwner);
  pin_shards : list (gmap SocketAddr PeerId);
  snap_pinned_by_peer : gmap PeerId SocketAddr;
}.

Definition snapshot_default : RoutingSnapshot :=
  mkSnapshot (replicate (Z.to_nat ROUTING_SNAPSHOT_SHARDS) ∅)
             (replicate (Z.to_nat ROUTING_SNAPSHOT_SHARDS) ∅) ∅.

Section Snapshot.
(** [DefaultHasher] on an address: some function to [u64]. *)
Context (hash : SocketAddr -> Z).

Definition shard_index (addr : SocketAddr) : nat :=
  Z.to_nat (hash addr mod ROUTING_SNAPSHOT_SHARDS).

(** [self.shards[Self::shard_index(addr)]]. *)
Definition shard {A} (shards : list (gmap SocketAddr A)) (addr : SocketAddr)
    : gmap SocketAddr A := default ∅ (shards !! shard_index addr).

Definition published (s : RoutingSnapshot) (addr : SocketAddr) : option PublishedOwner :=
  shard (owner_shards s) addr !! addr.

Definition snap_owner (s : RoutingSnapshot) (addr : SocketAddr) : option Owner :=
  po_owner <$> published s addr.

Definition snap_peer_id (s : RoutingSnapshot) (addr : SocketAddr) : option PeerId :=
  node_id <$> snap_owner s addr.

Definition ownership_token (s : RoutingSnapshot) (addr : SocketAddr)
    : option OwnershipToken :=
  (fun p => mkToken (node_id (po_owner p)) (po_generation p)) <$> published s addr.

Definition claim_is_current (s : RoutingSnapshot) (addr : SocketAddr)
    (owner : PeerId) (generation : Z) : bool :=
  match published s addr with
  | Some p => bool_decide (node_id (po_owner p) = owner /\ po_generation p = generation)
  | None => false
  end.

Definition snap_len (s : RoutingSnapshot) : Z :=
  foldr (fun m n => map_len m + n) 0 (owner_shards s).

Definition with_owner (s : RoutingSnapshot) (addr : SocketAddr)
    (owner : option (Owner * Z)) : RoutingSnapshot :=
  let sh := shard (owner_shards s) addr in
  let sh := match owner with
            | Some (owner, generation) => <[addr := mkPublished owner generation]> sh
            | None => delete addr sh
            end in
  mkSnapshot (<[shard_index addr := sh]> (owner_shards s)) (pin_shards s)
             (snap_pinned_by_peer s).

Definition pin_owner (s : RoutingSnapshot) (addr : SocketAddr) : option PeerId :=
  shard (pin_shards s) addr !! addr.

Definition pin_is_current (s : RoutingSnapshot) (addr : SocketAddr) (peer : PeerId) : bool :=
  bool_decide (pin_owner s addr = Some peer).

Definition pinned_addr_for (s : RoutingSnapshot) (peer : PeerId) : option SocketAddr :=
  snap_pinned_by_peer s !! peer.

Definition with_pin (s : RoutingSnapshot) (addr : SocketAddr) (pin : option PeerId)
    : RoutingSnapshot :=
  let sh := shard (pin_shards s) addr in
  let by_peer := snap_pinned_by_peer s in
  match pin with
  | Some peer =>
      let by_peer :=
        match sh !! addr with
        | Some previous => if decide (previous = peer) then by_peer
                           else delete previous by_peer
        | None => by_peer
        end in
      mkSnapshot (owner_shards s) (<[shard_index addr := <[addr := peer]> sh]> (pin_shards s))
                 (<[peer := addr]> by_peer)
  | None =>
      let by_peer :=
        match sh !! addr with
        | Some previous => if decide (by_peer !! previous = Some addr)
                           then delete previous by_peer else by_peer
        | None => by_peer
        end in
      mkSnapshot (owner_shards s) (<[shard_index addr := delete addr sh]> (pin_shards s)) by_peer
  end.

(** ** The shards behave as one map *)
Definition snapshot_wf (s : RoutingSnapshot) : Prop :=
  length (owner_shards s) = Z.to_nat ROUTING_SNAPSHOT_SHARDS
  /\ length (pin_shards s) = Z.to_nat ROUTING_SNAPSHOT_SHARDS.

Lemma shard_index_lt addr : (shard_index addr < Z.to_nat ROUTING_SNAPSHOT_SHARDS)%nat.
Proof.
  unfold shard_index, ROUTING_SNAPSHOT_SHARDS.
  pose proof (Z.mod_pos_bound (hash addr) 64). lia.
Qed.

(** Replacing the shard of [addr] changes the lookup of another address only
    through the shard they share. *)
Lemma shard_insert {A} (shards : list (gmap SocketAddr A)) addr addr' m :
  length shards = Z.to_nat ROUTING_SNAPSHOT_SHARDS ->
  shard (<[shard_index addr := m]> shards) addr'
  = if decide (shard_index addr = shard_index addr') then m else shard shards addr'.
Proof.
  intros Hl. unfold shard. pose proof (shard_index_lt addr).
  case_decide as E.
  - rewrite <- E. rewrite list_lookup_insert_eq by lia. reflexivity.
  - now rewrite list_lookup_insert_ne.
Qed.

Lemma shard_same {A} (shards : list (gmap SocketAddr A)) addr addr' :
  shard_index addr = shard_index addr' -> shard shards addr = shard shards addr'.
Proof. unfold shard. now intros ->. Qed.

Lemma shard_insert_lookup {A} (shards : list (gmap SocketAddr A)) addr addr' a :
  length shards = Z.to_nat ROUTING_SNAPSHOT_SHARDS ->
  shard (<[shard_index addr := <[addr := a]> (shard shards addr)]> shards) addr' !! addr'
  = if decide (addr = addr') then Some a else shard shards addr' !! addr'.
Proof.
  intros Hl. rewrite shard_insert by done. case_decide as E.
  - rewrite lookup_insert. case_decide; [now subst|]. now rewrite (shard_same shards addr addr').
  - rewrite decide_False by congruence. reflexivity.
Qed.

Lemma shard_delete_lookup {A} (shards : list (gmap SocketAddr A)) addr addr' :
  length shards = Z.to_nat ROUTING_SNAPSHOT_SHARDS ->
  shard (<[shard_index addr := delete addr (shard shards addr)]> shards) addr' !! addr'
  = if decide (addr = addr') then None else shard shards addr' !! addr'.
Proof.
  intros Hl. rewrite shard_insert by done. case_decide as E.
  - rewrite lookup_delete. case_decide; [done|]. now rewrite (shard_same shards addr addr').
  - rewrite decide_False by congruence. reflexivity.
Qed.

Lemma published_with_owner s addr o addr' :
  snapshot_wf s ->
  published (with_owner s addr o) addr'
  = if decide (addr = addr') then (fun p => mkPublished p.1 p.2) <$> o
    else published s addr'.
Proof.
  intros [Hl _]. unfold published, with_owner. destruct o as [[o g]|]; cbn.
  - now rewrite shard_insert_lookup.
  - now rewrite shard_delete_lookup.
Qed.

Lemma pin_owner_with_pin s addr p addr' :
  snapshot_wf s ->
  pin_owner (with_pin s addr p) addr' = if decide (addr = addr') then p else pin_owner s addr'.
Proof.
  intros [_ Hl]. unfold pin_owner, with_pin. destruct p as [p|]; cbn.
  - now rewrite shard_insert_lookup.
  - now rewrite shard_delete_lookup.
Qed.

Lemma pin_owner_with_owner s addr o addr' :
  pin_owner (with_owner s addr o) addr' = pin_owner s addr'.
Proof. now destruct o as [[]|]. Qed.

Lemma published_with_pin s addr p addr' :
  published (with_pin s addr p) addr' = published s addr'.
Proof. now destruct p. Qed.

Lemma snap_pinned_with_owner s addr o :
  snap_pinned_by_peer (with_owner s addr o) = snap_pinned_by_peer s.
Proof. now destruct o as [[]|]. Qed.

Lemma snap_pinned_with_pin_Some s addr p :
  snap_pinned_by_peer (with_pin s addr (Some p))
  = <[p := addr]>
      match pin_owner s addr with
      | Some q => if decide (q = p) then snap_pinned_by_peer s
                  else delete q (snap_pinned_by_peer s)
      | None => snap_pinned_by_peer s
      end.
Proof. reflexivity. Qed.

Lemma snap_pinned_with_pin_None s addr :
  snap_pinned_by_peer (with_pin s addr None)
  = match pin_owner s addr with
    | Some q => if decide (snap_pinned_by_peer s !! q = Some addr)
                then delete q (snap_pinned_by_peer s) else snap_pinned_by_peer s
    | None => snap_pinned_by_peer s
    end.
Proof. reflexivity. Qed.

Lemma snapshot_wf_with_owner s addr o : snapshot_wf s -> snapshot_wf (with_owner s addr o).
Proof. intros [? ?]. split; cbn; now rewrite ?length_insert. Qed.

Lemma snapshot_wf_with_pin s addr p : snapshot_wf s -> snapshot_wf (with_pin s addr p).
Proof. intros [? ?]. destruct p; split; cbn; now rewrite ?length_insert. Qed.

Lemma snapshot_wf_default : snapshot_wf snapshot_default.
Proof. split; apply length_replicate. Qed.

Lemma shard_default {A} addr :
  shard (replicate (Z.to_nat ROUTING_SNAPSHOT_SHARDS) (∅ : gmap SocketAddr A)) addr = ∅.
Proof.
  unfold shard. destruct (_ !! _) as [m|] eqn:E; [|done].
  now apply lookup_replicate in E as [-> _].
Qed.

Lemma published_default addr : published snapshot_default addr = None.
Proof. unfold published. cbn. rewrite shard_default. apply lookup_empty. Qed.

Lemma pin_owner_default addr : pin_owner snapshot_default addr = None.
Proof. unfold pin_owner. cbn. rewrite shard_default. apply lookup_empty. Qed.

End Snapshot.

#[export] Hint Resolve snapshot_wf_with_owner snapshot_wf_with_pin snapshot_wf_default : remote.
