(* ===== verification/RegistryOwner.v ===== *)
(** * The registry owner

    [PeerRegistryOwner] of src/src/registry_owner.rs: the single writer of the
    address ownership table.  Every command runs to completion in the owner's
    task, so each handler is one state transformer; [ReapReservation] guards
    live outside the task and race with it only through their atomic cell,
    which is modelled as a cell of a shared heap. *)

From S2P Require Import Prelude Types AddrOwnership RoutingSnapshot.

(** ** What the owner needs from the connection pool

    [trait RoutingPublisher], with the state of the pool made explicit. *)
Class RoutingPublisher (R : Type) := {
  rp_publish_owner : SocketAddr -> PeerId -> R -> R;
  rp_retract_owner : SocketAddr -> PeerId -> R -> R;
  rp_set_configured_peer_addr : SocketAddr -> PeerId -> option SocketAddr -> R -> R;
}.

(** What it promises about the address route it publishes: [publish_owner]
    routes one address, [retract_owner] withdraws it only if it still points
    at the peer, and the dial target does not touch routes. *)
Class RoutingLaws (R : Type) `{RoutingPublisher R} := {
  routed : R -> SocketAddr -> option PeerId;
  routed_publish a p r a' :
    routed (rp_publish_owner a p r) a' = if decide (a = a') then Some p else routed r a';
  routed_retract a p r a' :
    routed (rp_retract_owner a p r) a'
    = if decide (a = a' /\ routed r a = Some p) then None else routed r a';
  routed_set_configured a p e r a' :
    routed (rp_set_configured_peer_addr a p e r) a' = routed r a';
}.

(** ** Reap reservations: the shared atomic cell of a guard *)
Inductive ReapState := REAP_PENDING | REAP_COMMITTED | REAP_INVALIDATED.

#[global] Instance ReapState_eq_dec : EqDecision ReapState.
Proof. solve_decision. Defined.

(** ** Replies *)
Inductive ClaimRejection :=
  | Arbitration (reason : RejectReason)
  | OwnerUnavailable
  | ReapInProgress
  | SupersededByNewerConfiguration.

Inductive ClaimCommit :=
  | Accepted (kind : ClaimKind) (displaced : option PeerId) (created_ownership : bool)
             (commit_seq : Z)
  | Rejected (why : ClaimRejection).

Definition is_accepted (c : ClaimCommit) : bool :=
  match c with Accepted _ _ _ _ => true | Rejected _ => false end.

Inductive DeadPeerReleaseOutcome := Released (seq : Z) | ProvenAlive | NotApplicable.

Inductive MigrateOutcome :=
  | Migrated (commit_seq : Z)
  | SourceUnowned
  | TargetOwnedByOther
  | TargetIsLocal
  | SourceOwnerMismatch
  | MigrateReapInProgress.

Inductive SourceExpectation := Unowned | Owned (token : OwnershipToken).

Record ConfigurePeerCommit := mkConfigureCommit {
  cc_claim : ClaimCommit;
  cc_evicted_pin : option SocketAddr;
  cc_evicted_release_seq : option Z;
  cc_generation : Z;
}.

(** ** State *)
Record St (R : Type) := mkSt {
  addr_ownership : gmap SocketAddr Owner;
  claim_generation : gmap SocketAddr Z;
  claim_committed_at : gmap SocketAddr Z;
  connection_scoped_claims : gmap (PeerId * Z * SocketAddr) Z;
  operator_pinned : gmap SocketAddr PeerId;
  pinned_by_peer : gmap PeerId SocketAddr;
  reap_reserved : gmap SocketAddr nat;
  liveness_evidence_at : gmap SocketAddr Z;
  configure_peer_generation : gmap PeerId Z;
  snapshot : RoutingSnapshot;
  routing : option R;
  commit_seq : Z;
  reap_cells : list ReapState;
}.
Arguments mkSt {R}.
Arguments addr_ownership {R} _.
Arguments claim_generation {R} _.
Arguments claim_committed_at {R} _.
Arguments connection_scoped_claims {R} _.
Arguments operator_pinned {R} _.
Arguments pinned_by_peer {R} _.
Arguments reap_reserved {R} _.
Arguments liveness_evidence_at {R} _.
Arguments configure_peer_generation {R} _.
Arguments snapshot {R} _.
Arguments routing {R} _.
Arguments commit_seq {R} _.
Arguments reap_cells {R} _.

Section Owner.
Context {R : Type} `{!RoutingPublisher R}.
Context (hash : SocketAddr -> Z).

(** Field updates. *)
Definition set_owners f (s : St R) : St R :=
  mkSt (f (addr_ownership s)) (claim_generation s) (claim_committed_at s)
    (connection_scoped_claims s) (operator_pinned s) (pinned_by_peer s) (reap_reserved s)
    (liveness_evidence_at s) (configure_peer_generation s) (snapshot s) (routing s)
    (commit_seq s) (reap_cells s).
Definition set_generations f (s : St R) : St R :=
  mkSt (addr_ownership s) (f (claim_generation s)) (claim_committed_at s)
    (connection_scoped_claims s) (operator_pinned s) (pinned_by_peer s) (reap_reserved s)
    (liveness_evidence_at s) (configure_peer_generation s) (snapshot s) (routing s)
    (commit_seq s) (reap_cells s).
Definition set_committed_at f (s : St R) : St R :=
  mkSt (addr_ownership s) (claim_generation s) (f (claim_committed_at s))
    (connection_scoped_claims s) (operator_pinned s) (pinned_by_peer s) (reap_reserved s)
    (liveness_evidence_at s) (configure_peer_generation s) (snapshot s) (routing s)
    (commit_seq s) (reap_cells s).
Definition set_receipts f (s : St R) : St R :=
  mkSt (addr_ownership s) (claim_generation s) (claim_committed_at s)
    (f (connection_scoped_claims s)) (operator_pinned s) (pinned_by_peer s) (reap_reserved s)
    (liveness_evidence_at s) (configure_peer_generation s) (snapshot s) (routing s)
    (commit_seq s) (reap_cells s).
Definition set_pins f g (s : St R) : St R :=
  mkSt (addr_ownership s) (claim_generation s) (claim_committed_at s)
    (connection_scoped_claims s) (f (operator_pinned s)) (g (pinned_by_peer s))
    (reap_reserved s) (liveness_evidence_at s) (configure_peer_generation s) (snapshot s)
    (routing s) (commit_seq s) (reap_cells s).
Definition set_reserved f g (s : St R) : St R :=
  mkSt (addr_ownership s) (claim_generation s) (claim_committed_at s)
    (connection_scoped_claims s) (operator_pinned s) (pinned_by_peer s) (f (reap_reserved s))
    (liveness_evidence_at s) (configure_peer_generation s) (snapshot s) (routing s)
    (commit_seq s) (g (reap_cells s)).
Definition set_evidence f (s : St R) : St R :=
  mkSt (addr_ownership s) (claim_generation s) (claim_committed_at s)
    (connection_scoped_claims s) (operator_pinned s) (pinned_by_peer s) (reap_reserved s)
    (f (liveness_evidence_at s)) (configure_peer_generation s) (snapshot s) (routing s)
    (commit_seq s) (reap_cells s).
Definition set_configured f (s : St R) : St R :=
  mkSt (addr_ownership s) (claim_generation s) (claim_committed_at s)
    (connection_scoped_claims s) (operator_pinned s) (pinned_by_peer s) (reap_reserved s)
    (liveness_evidence_at s) (f (configure_peer_generation s)) (snapshot s) (routing s)
    (commit_seq s) (reap_cells s).
Definition set_snapshot f (s : St R) : St R :=
  mkSt (addr_ownership s) (claim_generation s) (claim_committed_at s)
    (connection_scoped_claims s) (operator_pinned s) (pinned_by_peer s) (reap_reserved s)
    (liveness_evidence_at s) (configure_peer_generation s) (f (snapshot s)) (routing s)
    (commit_seq s) (reap_cells s).
(** [if let Some(routing) = self.routing.upgrade() { ... }]. *)
Definition with_routing f (s : St R) : St R :=
  mkSt (addr_ownership s) (claim_generation s) (claim_committed_at s)
    (connection_scoped_claims s) (operator_pinned s) (pinned_by_peer s) (reap_reserved s)
    (liveness_evidence_at s) (configure_peer_generation s) (snapshot s) (f <$> routing s)
    (commit_seq s) (reap_cells s).

(** [advance]: the new position is [commit_seq] of the returned state. *)
Definition advance (s : St R) : St R :=
  mkSt (addr_ownership s) (claim_generation s) (claim_committed_at s)
    (connection_scoped_claims s) (operator_pinned s) (pinned_by_peer s) (reap_reserved s)
    (liveness_evidence_at s) (configure_peer_generation s) (snapshot s) (routing s)
    (wrapping_add u64_max (commit_seq s) 1) (reap_cells s).

Definition publish_owner_snapshot (addr : SocketAddr) (o : option (Owner * Z)) : St R -> St R :=
  set_snapshot (fun snap => with_owner hash snap addr o).

Definition init (r : option R) : St R :=
  mkSt ∅ ∅ ∅ ∅ ∅ ∅ ∅ ∅ ∅ snapshot_default r 0 [].

(** Every receipt of [peer] at [addr] moves to generation [seq]. *)
Definition bump_receipts (peer : PeerId) (addr : SocketAddr) (seq : Z)
    (m : gmap (PeerId * Z * SocketAddr) Z) : gmap (PeerId * Z * SocketAddr) Z :=
  map_imap (fun k g => Some (if decide (k.1.1 = peer /\ k.2 = addr) then seq else g)) m.

(** ** Claims *)
Definition claim (addr : SocketAddr) (c : Claim) (is_local_addr : bool) (s : St R)
    : ClaimCommit * St R :=
  if decide (is_Some (reap_reserved s !! addr)) then (Rejected ReapInProgress, s)
  else
    let current := addr_ownership s !! addr in
    match arbitrate current c is_local_addr with
    | Reject reason => (Rejected (Arbitration reason), s)
    | Accept =>
        let created_ownership := bool_decide (current = None) in
        let kind := resolved_kind current c in
        let displaced :=
          match current with
          | Some o => if decide (node_id o = claim_node_id c) then None else Some (node_id o)
          | None => None
          end in
        let next_owner := mkOwner (claim_node_id c) kind in
        let ownership_changed := negb (bool_decide (current = Some next_owner)) in
        let s := if ownership_changed then set_owners <[addr := next_owner]> s else s in
        let s := advance s in
        let seq := commit_seq s in
        let s := set_generations <[addr := seq]> s in
        let s := set_receipts (bump_receipts (claim_node_id c) addr seq) s in
        let s := publish_owner_snapshot addr (Some (next_owner, seq)) s in
        let s := if ownership_changed
                 then with_routing (rp_publish_owner addr (claim_node_id c)) s else s in
        (Accepted kind displaced created_ownership seq, s)
    end.

Definition claim_connection_scoped (addr : SocketAddr) (c : Claim)
    (connection_instance_id evidence_at : Z) (s : St R) : ClaimCommit * St R :=
  let peer := claim_node_id c in
  let '(commit, s) := claim addr c false s in
  let s := if is_accepted commit then set_committed_at <[addr := evidence_at]> s else s in
  if decide (operator_pinned s !! addr = Some peer) then (commit, s)
  else match commit with
       | Accepted _ _ _ seq =>
           (commit, set_receipts <[(peer, connection_instance_id, addr) := seq]> s)
       | Rejected _ => (commit, s)
       end.

(** ** Releases *)
Definition retract_owner (addr : SocketAddr) (owner : Owner) (s : St R) : Z * St R :=
  let s := set_generations (delete addr) s in
  let s := set_committed_at (delete addr) s in
  let s := set_evidence (delete addr) s in
  let s := set_receipts (filter (fun kv => kv.1.2 <> addr)) s in
  let s := advance s in
  let s := publish_owner_snapshot addr None s in
  let s := with_routing (rp_retract_owner addr (node_id owner)) s in
  (commit_seq s, s).

(** [addr_ownership.get(addr).is_some_and(|owner| owner.node_id == peer)]. *)
Definition owned_by (peer : PeerId) (addr : SocketAddr) (s : St R) : bool :=
  bool_decide (node_id <$> addr_ownership s !! addr = Some peer).

(** Remove the record and run the shared tail. *)
Definition vacate (addr : SocketAddr) (s : St R) : option (Z * St R) :=
  match addr_ownership s !! addr with
  | Some owner => Some (retract_owner addr owner (set_owners (delete addr) s))
  | None => None
  end.

Definition release (addr : SocketAddr) (expected_owner : PeerId) (expected_generation : Z)
    (s : St R) : option Z * St R :=
  if decide (is_Some (operator_pinned s !! addr)) then (None, s)
  else if negb (owned_by expected_owner addr s
                && bool_decide (claim_generation s !! addr = Some expected_generation))
  then (None, s)
  else match vacate addr s with
       | Some (seq, s) => (Some seq, s)
       | None => (None, s)
       end.

(** One address of [release_session]'s loop. *)
Definition release_uncovered (peer : PeerId) (acc : list (SocketAddr * Z) * St R)
    (addr : SocketAddr) : list (SocketAddr * Z) * St R :=
  let '(released, s) := acc in
  if decide (is_Some (operator_pinned s !! addr)) then (released, s)
  else if negb (owned_by peer addr s) then (released, s)
  else match vacate addr s with
       | Some (seq, s) => (released ++ [(addr, seq)], s)
       | None => (released, s)
       end.

(** The receipts of the exiting session leave first; the addresses no other
    session of the peer covers are then released. *)
Definition own_entries (peer : PeerId) (conn : Z) (s : St R) : list SocketAddr :=
  (fun kv => kv.1.2)
  <$> map_to_list (filter (fun kv => kv.1.1 = (peer, conn)) (connection_scoped_claims s)).

Definition covered (peer : PeerId) (s : St R) (addr : SocketAddr) : bool :=
  bool_decide
    (filter (fun kv => kv.1.1.1 = peer /\ kv.1.2 = addr) (connection_scoped_claims s) <> ∅).

Definition release_session (peer : PeerId) (connection_instance_id : Z) (s : St R)
    : list (SocketAddr * Z) * St R :=
  let own := own_entries peer connection_instance_id s in
  let s := set_receipts (filter (fun kv => kv.1.1 <> (peer, connection_instance_id))) s in
  let no_longer_covered := List.filter (fun addr => negb (covered peer s addr)) own in
  foldl (release_uncovered peer) ([], s) no_longer_covered.

(** ** Liveness evidence and dead-peer release *)
Definition invalidate_reap_reservation (addr : SocketAddr) (s : St R) : St R :=
  match reap_reserved s !! addr with
  | Some cell =>
      match reap_cells s !! cell with
      | Some REAP_PENDING => set_reserved id <[cell := REAP_INVALIDATED]> s
      | _ => s
      end
  | None => s
  end.

(** [entry(addr).and_modify(max).or_insert(at)]. *)
Definition insert_max (addr : SocketAddr) (t : Z) (m : gmap SocketAddr Z) : gmap SocketAddr Z :=
  match m !! addr with
  | Some existing => if existing <? t then <[addr := t]> m else m
  | None => <[addr := t]> m
  end.

Definition note_liveness_evidence (addr : SocketAddr) (t : Z) (s : St R) : St R :=
  invalidate_reap_reservation addr (set_evidence (insert_max addr t) s).

(** [m.get(addr).is_some_and(|at| *at > evidence_before)]. *)
Definition newer (m : gmap SocketAddr Z) (addr : SocketAddr) (evidence_before : Z) : bool :=
  match m !! addr with Some t => evidence_before <? t | None => false end.

Definition has_newer_liveness_evidence (addr : SocketAddr) (evidence_before : Z) (s : St R)
    : bool :=
  newer (claim_committed_at s) addr evidence_before
  || newer (liveness_evidence_at s) addr evidence_before.

Definition generation_of (peer : PeerId) (s : St R) : Z :=
  default 0 (configure_peer_generation s !! peer).

Definition reap_baseline_activity_detected (addr : SocketAddr) (peer : PeerId)
    (evidence_before baseline : Z) (s : St R) : bool :=
  if has_newer_liveness_evidence addr evidence_before s then true
  else baseline <? generation_of peer s.

Definition reap_committed (addr : SocketAddr) (s : St R) : bool :=
  bool_decide ((reap_reserved s !! addr) ≫= (fun c => reap_cells s !! c) = Some REAP_COMMITTED).

Definition release_dead_peer (peer : PeerId) (addr : SocketAddr) (evidence_before : Z)
    (s : St R) : DeadPeerReleaseOutcome * St R :=
  if negb (reap_committed addr s) && newer (claim_committed_at s) addr evidence_before
  then (ProvenAlive, s)
  else if negb (reap_committed addr s) && newer (liveness_evidence_at s) addr evidence_before
  then (ProvenAlive, s)
  else
    let s := set_receipts (filter (fun kv => ~ (kv.1.1.1 = peer /\ kv.1.2 = addr))) s in
    if decide (is_Some (operator_pinned s !! addr)) then (NotApplicable, s)
    else if negb (owned_by peer addr s) then (NotApplicable, s)
    else match vacate addr s with
         | Some (seq, s) => (Released seq, s)
         | None => (NotApplicable, s)
         end.

(** ** Reap reservations

    [current_ownership_token] panics ([None] of the outer option) if a recorded
    owner has no generation. *)
Definition current_ownership_token (addr : SocketAddr) (s : St R)
    : option (option OwnershipToken) :=
  match addr_ownership s !! addr with
  | None => Some None
  | Some owner =>
      match claim_generation s !! addr with
      | Some g => Some (Some (mkToken (node_id owner) g))
      | None => None
      end
  end.

(** The granted cell, or a refusal; the outer [option] is the panic above. *)
Definition reserve_for_reap (addr : SocketAddr) (evidence_before : Z)
    (expected_ownership : option OwnershipToken) (expected_pin expected_node_id : option PeerId)
    (s : St R) : option (option nat * St R) :=
  if newer (claim_committed_at s) addr evidence_before then Some (None, s)
  else match current_ownership_token addr s with
  | None => None
  | Some token =>
      if negb (bool_decide (token = expected_ownership)) then Some (None, s)
      else if negb (bool_decide (operator_pinned s !! addr = expected_pin)) then Some (None, s)
      else
        let current_identity :=
          match token_owner <$> expected_ownership with
          | Some p => Some p
          | None => expected_pin
          end in
        if match current_identity with
           | Some p => negb (bool_decide (expected_node_id = Some p))
           | None => false
           end then Some (None, s)
        else if decide (is_Some (reap_reserved s !! addr)) then Some (None, s)
        else
          let cell := length (reap_cells s) in
          Some (Some cell,
                set_reserved <[addr := cell]> (fun cells => cells ++ [REAP_PENDING]) s)
  end.

Definition release_reap_reservation (addr : SocketAddr) : St R -> St R :=
  set_reserved (delete addr) id.

(** [ReapReservation::try_consume], run by a guard outside the owner task. *)
Definition try_consume (cell : nat) (s : St R) : bool * St R :=
  match reap_cells s !! cell with
  | Some REAP_PENDING => (true, set_reserved id <[cell := REAP_COMMITTED]> s)
  | _ => (false, s)
  end.

(** ** Pins *)
Definition install_pin (addr : SocketAddr) (peer : PeerId) (s : St R)
    : option SocketAddr * St R :=
  let by_peer :=
    match operator_pinned s !! addr with
    | Some previous =>
        if decide (previous <> peer /\ pinned_by_peer s !! previous = Some addr)
        then delete previous (pinned_by_peer s) else pinned_by_peer s
    | None => pinned_by_peer s
    end in
  let evicted :=
    match by_peer !! peer with
    | Some previous => if decide (previous = addr) then None else Some previous
    | None => None
    end in
  let by_peer := <[peer := addr]> by_peer in
  let pinned :=
    match evicted with
    | Some e => delete e (operator_pinned s)
    | None => operator_pinned s
    end in
  let s := with_routing (rp_set_configured_peer_addr addr peer evicted) s in
  let s := set_pins (fun _ => <[addr := peer]> pinned) (fun _ => by_peer) s in
  let s := set_snapshot (fun snap =>
             let snap := with_pin hash snap addr (Some peer) in
             match evicted with
             | Some e => with_pin hash snap e None
             | None => snap
             end) s in
  (evicted, s).

Definition set_ordinary_connect_route (peer : PeerId) (addr : SocketAddr) (s : St R)
    : bool * St R :=
  match pinned_by_peer s !! peer with
  | Some pinned =>
      if decide (pinned = addr)
      then (true, with_routing (rp_set_configured_peer_addr addr peer None) s)
      else (false, s)
  | None => (true, with_routing (rp_set_configured_peer_addr addr peer None) s)
  end.

(** The tail of [configure_peer]: the evicted address loses its receipts and,
    when the peer still holds it, its ownership. *)
Definition release_evicted (peer : PeerId) (evicted : option SocketAddr) (s : St R)
    : option Z * St R :=
  match evicted with
  | None => (None, s)
  | Some e =>
      let s := set_receipts (filter (fun kv => ~ (kv.1.1.1 = peer /\ kv.1.2 = e))) s in
      if owned_by peer e s
      then match vacate e s with
           | Some (seq, s) => (Some seq, s)
           | None => (None, s)
           end
      else (None, s)
  end.

(** [configure_peer] past its generation check: claim, pin, release. *)
Definition configure_commit (addr : SocketAddr) (peer : PeerId) (generation : Z) (s : St R)
    : ConfigurePeerCommit * St R :=
  let '(commit, s) := claim addr (mkClaim peer Verified) false s in
  if negb (is_accepted commit) then (mkConfigureCommit commit None None generation, s)
  else
    let '(evicted, s) := install_pin addr peer s in
    let '(seq, s) := release_evicted peer evicted s in
    (mkConfigureCommit commit evicted seq generation, s).

Definition configure_peer (addr : SocketAddr) (peer : PeerId) (expected_generation : option Z)
    (s : St R) : ConfigurePeerCommit * St R :=
  let current_generation := generation_of peer s in
  if match pinned_by_peer s !! peer with
     | Some previous =>
         bool_decide (previous <> addr /\ is_Some (reap_reserved s !! previous))
     | None => false
     end
  then (mkConfigureCommit (Rejected ReapInProgress) None None current_generation, s)
  else
    match expected_generation with
    | Some expected =>
        if expected <? current_generation
        then (mkConfigureCommit (Rejected SupersededByNewerConfiguration) None None
                current_generation, s)
        else configure_commit addr peer expected s
    | None =>
        let bumped := wrapping_add u64_max current_generation 1 in
        configure_commit addr peer bumped (set_configured <[peer := bumped]> s)
    end.

(** ** Migration *)
Definition move_max (from to : SocketAddr) (m : gmap SocketAddr Z) : gmap SocketAddr Z :=
  match m !! from with
  | Some t => insert_max to t (delete from m)
  | None => m
  end.

(** The receipts of the migrating identity re-home at [to]; every other
    receipt at [from] is dropped. *)
Definition migrate_receipts (peer : PeerId) (from to : SocketAddr) (seq : Z)
    (m : gmap (PeerId * Z * SocketAddr) Z) : gmap (PeerId * Z * SocketAddr) Z :=
  let moved := (fun kv => kv.1.1.2)
               <$> map_to_list (filter (fun kv => kv.1.1.1 = peer /\ kv.1.2 = from) m) in
  let kept := filter (fun kv => kv.1.2 <> from) m in
  bump_receipts peer to seq
    (foldl (fun m conn => <[(peer, conn, to) := seq]> m) kept moved).

Definition source_matches (from : SocketAddr) (expected : SourceExpectation) (s : St R) : bool :=
  match expected with
  | Unowned => bool_decide (addr_ownership s !! from = None)
  | Owned token =>
      owned_by (token_owner token) from s
      && bool_decide (claim_generation s !! from = Some (token_generation token))
  end.

Definition migrate (from to : SocketAddr) (expected_source : SourceExpectation)
    (is_local_addr : bool) (s : St R) : MigrateOutcome * St R :=
  if decide (is_Some (reap_reserved s !! from) \/ is_Some (reap_reserved s !! to))
  then (MigrateReapInProgress, s)
  else if is_local_addr then (TargetIsLocal, s)
  else if negb (source_matches from expected_source s) then (SourceOwnerMismatch, s)
  else
    let source := addr_ownership s !! from in
    let destination := addr_ownership s !! to in
    if match destination with
       | Some existing =>
           negb (bool_decide (node_id <$> source = Some (node_id existing)))
       | None => false
       end
    then (TargetOwnedByOther, s)
    else match source with
    | None => (SourceUnowned, s)
    | Some owner =>
        let kind := resolved_kind destination (mkClaim (node_id owner) (owner_kind owner)) in
        let owner := mkOwner (node_id owner) kind in
        let s := set_owners (fun m => <[to := owner]> (delete from m)) s in
        let migrated_pin := operator_pinned s !! from in
        let s := match migrated_pin with
                 | Some p =>
                     with_routing (rp_set_configured_peer_addr to p (Some from))
                       (set_pins (fun m => <[to := p]> (delete from m)) <[p := to]> s)
                 | None => s
                 end in
        let s := advance s in
        let seq := commit_seq s in
        let s := set_generations (fun m => <[to := seq]> (delete from m)) s in
        let s := set_receipts (migrate_receipts (node_id owner) from to seq) s in
        let s := set_committed_at (move_max from to) s in
        let s := set_evidence (move_max from to) s in
        let s := set_snapshot (fun snap =>
                   let snap := with_owner hash (with_owner hash snap from None) to
                                 (Some (owner, seq)) in
                   match migrated_pin with
                   | Some p => with_pin hash (with_pin hash snap from None) to (Some p)
                   | None => snap
                   end) s in
        let s := with_routing (fun r =>
                   rp_publish_owner to (node_id owner)
                     (rp_retract_owner from (node_id owner) r)) s in
        (Migrated seq, s)
    end.

End Owner.
