(* ===== verification/RouteIndex.v ===== *)
(** * The address route of the connection pool

    The part of [impl RoutingPublisher for ConnectionPool]
    (src/src/registry_owner.rs) the owner's publication is about: the map
    [addr_to_peer_id].  [set_configured_peer_addr] re-indexes live connections
    and records dial targets, and writes [addr_to_peer_id] only where it
    already holds the same peer. *)

From S2P Require Import Prelude Types RegistryOwner.

Abbreviation RouteIndex := (gmap SocketAddr PeerId).

(** [upsert_sync(addr, peer_id)]. *)
Definition route_publish (addr : SocketAddr) (peer : PeerId) (m : RouteIndex) : RouteIndex :=
  <[addr := peer]> m.

(** [remove_if_sync(&addr, |current| current == peer_id)]. *)
Definition route_retract (addr : SocketAddr) (peer : PeerId) (m : RouteIndex) : RouteIndex :=
  if decide (m !! addr = Some peer) then delete addr m else m.

(** [reindex_connection_addr] returns unless the address is already published
    for the peer, and then writes the same entry again; [None] is no live
    connection to re-index. *)
Definition route_reindex (live : bool) (addr : SocketAddr) (peer : PeerId) (m : RouteIndex)
    : RouteIndex :=
  if negb live then m
  else if decide (m !! addr = Some peer) then route_publish addr peer m else m.

Section Instance_.
(** Whether the pool holds a live connection for the peer. *)
Context (live : PeerId -> bool).

#[local] Instance route_publisher : RoutingPublisher RouteIndex := {|
  rp_publish_owner := route_publish;
  rp_retract_owner := route_retract;
  rp_set_configured_peer_addr addr peer _ m := route_reindex (live peer) addr peer m;
|}.

Lemma route_reindex_id l addr peer m : route_reindex l addr peer m = m.
Proof.
  unfold route_reindex, route_publish. destruct l; [|done]. cbn.
  case_decide as H; [|done]. now apply insert_id.
Qed.

#[local] Instance route_laws : RoutingLaws RouteIndex.
Proof.
  refine {| routed m a := m !! a |}; cbn; intros.
  - unfold route_publish. apply lookup_insert.
  - unfold route_retract. case_decide as H.
    + rewrite lookup_delete. repeat case_decide; naive_solver.
    + repeat case_decide; naive_solver.
  - now rewrite route_reindex_id.
Defined.
End Instance_.
