(* ===== verification/RegistryOwnerInv.v ===== *)
(** * Invariants of the registry owner

    The commands of the owner's mailbox as a step relation, the well-formedness
    every reachable state has, and the theorems on ownership, pins, receipts
    and publication that follow. *)

From S2P Require Import Prelude Types AddrOwnership RoutingSnapshot RegistryOwner.

Section Invariant.
Context {R : Type} `{!RoutingPublisher R} `{!RoutingLaws R}.
Context (hash : SocketAddr -> Z).

(** ** The mailbox *)
Inductive OwnerCommand :=
  | CmdClaim (addr : SocketAddr) (c : Claim) (is_local_addr : bool)
  | CmdRelease (addr : SocketAddr) (owner : PeerId) (generation : Z)
  | CmdMigrate (from to : SocketAddr) (expected : SourceExpectation) (is_local_addr : bool)
  | CmdClaimConnectionScoped (addr : SocketAddr) (c : Claim) (conn evidence_at : Z)
  | CmdReleaseSession (peer : PeerId) (conn : Z)
  | CmdReleaseDeadPeer (peer : PeerId) (addr : SocketAddr) (evidence_before : Z)
  | CmdReserveForReap (addr : SocketAddr) (evidence_before : Z)
      (token : option OwnershipToken) (pin node : option PeerId)
  | CmdReleaseReapReservation (addr : SocketAddr)
  | CmdConfigurePeer (addr : SocketAddr) (peer : PeerId) (expected_generation : option Z)
  | CmdSetOrdinaryConnectRoute (peer : PeerId) (addr : SocketAddr)
  | CmdNoteLivenessEvidence (addr : SocketAddr) (at_ : Z).

(** [handle]; the pure queries do not change the state and are left out.
    [None] is a panic of the owner task. *)
Definition handle (cmd : OwnerCommand) (s : St R) : option (St R) :=
  match cmd with
  | CmdClaim addr c l => Some (claim hash addr c l s).2
  | CmdRelease addr p g => Some (release hash addr p g s).2
  | CmdMigrate from to e l => Some (migrate hash from to e l s).2
  | CmdClaimConnectionScoped addr c i t => Some (claim_connection_scoped hash addr c i t s).2
  | CmdReleaseSession p i => Some (release_session hash p i s).2
  | CmdReleaseDeadPeer p addr t => Some (release_dead_peer hash p addr t s).2
  | CmdReserveForReap addr t tok pin n => snd <$> reserve_for_reap addr t tok pin n s
  | CmdReleaseReapReservation addr => Some (release_reap_reservation addr s)
  | CmdConfigurePeer addr p g => Some (configure_peer hash addr p g s).2
  | CmdSetOrdinaryConnectRoute p addr => Some (set_ordinary_connect_route p addr s).2
  | CmdNoteLivenessEvidence addr t => Some (note_liveness_evidence addr t s)
  end.

(** The owner handles a command, a guard outside the task consumes its
    reservation, or the last strong reference to the pool goes away. *)
Inductive owner_step : St R -> St R -> Prop :=
  | step_command s cmd s' : handle cmd s = Some s' -> owner_step s s'
  | step_consume s cell : owner_step s (try_consume cell s).2
  | step_pool_dropped s :
      owner_step s (mkSt (addr_ownership s) (claim_generation s) (claim_committed_at s)
        (connection_scoped_claims s) (operator_pinned s) (pinned_by_peer s)
        (reap_reserved s) (liveness_evidence_at s) (configure_peer_generation s)
        (snapshot s) None (commit_seq s) (reap_cells s)).

(** A pool whose address routes are empty: the owner's starting point. *)
Definition fresh_pool (r : option R) : Prop :=
  forall r' a, r = Some r' -> routed r' a = None.

Definition reachable (s : St R) : Prop :=
  exists r, fresh_pool r /\ star owner_step (init r) s.

(** ** The invariant *)
Definition owner_at (s : St R) (a : SocketAddr) : option PeerId :=
  node_id <$> addr_ownership s !! a.

(** What the snapshot should publish for an address. *)
Definition publication (s : St R) (a : SocketAddr) : option PublishedOwner :=
  match addr_ownership s !! a, claim_generation s !! a with
  | Some o, Some g => Some (mkPublished o g)
  | _, _ => None
  end.

(** Ownership, generations, receipts. *)
Record core_inv (s : St R) : Prop := {
  ci_gen a : is_Some (addr_ownership s !! a) <-> is_Some (claim_generation s !! a);
  ci_verified a o : addr_ownership s !! a = Some o -> owner_kind o = Verified;
  ci_receipts p i a g :
    connection_scoped_claims s !! (p, i, a) = Some g ->
    owner_at s a = Some p /\ claim_generation s !! a = Some g;
  ci_committed a : is_Some (claim_committed_at s !! a) -> is_Some (addr_ownership s !! a);
}.

(** Pins and their reverse index; a pin sits on an address its peer owns. *)
Record pin_inv (s : St R) : Prop := {
  pi_inverse a p : operator_pinned s !! a = Some p <-> pinned_by_peer s !! p = Some a;
  pi_owned a p : operator_pinned s !! a = Some p -> owner_at s a = Some p;
}.

(** Everything published agrees with the authoritative state. *)
Record pub_inv (s : St R) : Prop := {
  bi_wf : snapshot_wf (snapshot s);
  bi_owner a : published hash (snapshot s) a = publication s a;
  bi_pin a : pin_owner hash (snapshot s) a = operator_pinned s !! a;
  bi_by_peer : snap_pinned_by_peer (snapshot s) = pinned_by_peer s;
  bi_routed r a : routing s = Some r -> routed r a = owner_at s a;
}.

(** Reservations name distinct, allocated cells. *)
Record reap_inv (s : St R) : Prop := {
  ri_cell a c : reap_reserved s !! a = Some c -> is_Some (reap_cells s !! c);
  ri_inj a a' c : reap_reserved s !! a = Some c -> reap_reserved s !! a' = Some c -> a = a';
}.

Record owner_inv (s : St R) : Prop := {
  oi_core : core_inv s;
  oi_pin : pin_inv s;
  oi_pub : pub_inv s;
  oi_reap : reap_inv s;
}.

Lemma owner_inv_init r : fresh_pool r -> owner_inv (init r).
Proof.
  intros Hr. split; split; cbn; intros; rewrite ?lookup_empty in *; try done.
  - unfold publication. cbn. rewrite lookup_empty. apply published_default.
  - apply pin_owner_default.
  - unfold owner_at. cbn. rewrite lookup_empty. now apply Hr.
Qed.

(** ** Claims *)

(** The position the next commit takes. *)
Definition next_seq (s : St R) : Z := wrapping_add u64_max (commit_seq s) 1.

(** The state an accepted claim leaves. *)
Definition claimed (addr : SocketAddr) (o : Owner) (s : St R) : St R :=
  mkSt (<[addr := o]> (addr_ownership s))
    (<[addr := next_seq s]> (claim_generation s)) (claim_committed_at s)
    (bump_receipts (node_id o) addr (next_seq s) (connection_scoped_claims s))
    (operator_pinned s) (pinned_by_peer s) (reap_reserved s) (liveness_evidence_at s)
    (configure_peer_generation s)
    (with_owner hash (snapshot s) addr (Some (o, next_seq s)))
    (if decide (addr_ownership s !! addr = Some o) then routing s
     else rp_publish_owner addr (node_id o) <$> routing s)
    (next_seq s) (reap_cells s).

Definition claim_owner (addr : SocketAddr) (c : Claim) (s : St R) : Owner :=
  mkOwner (claim_node_id c) (resolved_kind (addr_ownership s !! addr) c).

Lemma claim_spec addr c l s :
  (exists why, claim hash addr c l s = (Rejected why, s))
  \/ exists d cr,
       claim hash addr c l s
       = (Accepted (resolved_kind (addr_ownership s !! addr) c) d cr (next_seq s),
          claimed addr (claim_owner addr c s) s)
       /\ reap_reserved s !! addr = None
       /\ arbitrate (addr_ownership s !! addr) c l = Accept.
Proof.
  unfold claim. case_decide as Hr; [eauto|].
  destruct (arbitrate _ c l) eqn:Ha; [right|eauto].
  fold (claim_owner addr c s). set (o := claim_owner addr c s).
  eexists _, _. split; [|split; [now apply eq_None_not_Some|done]].
  unfold claimed. destruct (decide (addr_ownership s !! addr = Some o)) as [E|E];
    [rewrite (bool_decide_eq_true_2 _ E) | rewrite (bool_decide_eq_false_2 _ E)];
    cbn [negb]; [rewrite (insert_id _ _ _ E)|]; reflexivity.
Qed.

(** In a well-formed state an accepted claim refreshes the claimant's own
    address or takes a free one, and leaves it verified. *)
Lemma claim_owner_verified addr c l s :
  core_inv s -> arbitrate (addr_ownership s !! addr) c l = Accept ->
  owner_kind (claim_owner addr c s) = Verified
  /\ (forall p, owner_at s addr = Some p -> p = claim_node_id c).
Proof.
  intros Hc Ha. destruct (accept_verified _ _ _ Ha) as [Hk Hn]; [apply (ci_verified _ Hc)|].
  split; [exact Hk|]. unfold owner_at. intros p.
  destruct (addr_ownership s !! addr) as [o|]; [|done]. intros [= <-]. now apply Hn.
Qed.

Lemma lookup_bump_receipts p a seq m k :
  bump_receipts p a seq m !! k
  = (fun g => if decide (k.1.1 = p /\ k.2 = a) then seq else g) <$> m !! k.
Proof. unfold bump_receipts. rewrite map_lookup_imap. now destruct (m !! k). Qed.

Section Claimed.
Context (addr : SocketAddr) (o : Owner) (s : St R).
Context (Hv : owner_kind o = Verified).
Context (Hsame : forall p, owner_at s addr = Some p -> p = node_id o).

Lemma owner_at_claimed a :
  owner_at (claimed addr o s) a = if decide (addr = a) then Some (node_id o) else owner_at s a.
Proof. unfold owner_at. cbn. rewrite lookup_insert. now case_decide. Qed.

Lemma claimed_core : core_inv s -> core_inv (claimed addr o s).
Proof.
  intros [Hg Hvf Hr Hc]. split; cbn.
  - intros a. rewrite !lookup_insert. case_decide; [|apply Hg]. split; intros; eauto.
  - intros a o'. rewrite lookup_insert. case_decide; [congruence|apply Hvf].
  - intros p i a g. rewrite lookup_bump_receipts, owner_at_claimed, lookup_insert. cbn.
    destruct (_ !! (p, i, a)) as [g'|] eqn:E; [|done]. cbn. intros [= <-].
    apply Hr in E as [Ho Hg']. case_decide as Ha; subst.
    + pose proof (Hsame _ Ho) as ->. rewrite decide_True by done. auto.
    + rewrite decide_False by naive_solver. auto.
  - intros a. rewrite lookup_insert. case_decide; [eauto|apply Hc].
Qed.

Lemma claimed_pin : pin_inv s -> pin_inv (claimed addr o s).
Proof.
  intros [Hi Ho]. split; cbn; [exact Hi|]. intros a p Hp. rewrite owner_at_claimed.
  apply Ho in Hp. case_decide; [subst|done]. now rewrite (Hsame _ Hp).
Qed.

Lemma publication_claimed a :
  publication (claimed addr o s) a
  = if decide (addr = a) then Some (mkPublished o (next_seq s)) else publication s a.
Proof. unfold publication. cbn. rewrite !lookup_insert. now case_decide. Qed.

Lemma claimed_pub : pub_inv s -> pub_inv (claimed addr o s).
Proof.
  intros [Hw Ho Hp Hb Hr]. split; cbn.
  - auto with remote.
  - intros a. rewrite published_with_owner, publication_claimed by done.
    case_decide; [done|apply Ho].
  - intros a. rewrite pin_owner_with_owner. apply Hp.
  - exact Hb.
  - intros r a. rewrite owner_at_claimed. case_decide as Hch.
    + intros Hrt. rewrite (Hr _ _ Hrt). case_decide; [subst|done].
      unfold owner_at. now rewrite Hch.
    + destruct (routing s) as [r0|]; [|done]. intros [= <-].
      rewrite routed_publish. now rewrite (Hr r0 a eq_refl).
Qed.

Lemma claimed_reap : reap_inv s -> reap_inv (claimed addr o s).
Proof. intros [H1 H2]. split; cbn; [exact H1|exact H2]. Qed.

Lemma claimed_inv : owner_inv s -> owner_inv (claimed addr o s).
Proof.
  intros [H1 H2 H3 H4].
  split; auto using claimed_core, claimed_pin, claimed_pub, claimed_reap.
Qed.
End Claimed.

Lemma claim_inv addr c l s : owner_inv s -> owner_inv (claim hash addr c l s).2.
Proof.
  intros Hi. destruct (claim_spec addr c l s) as [[why ->]|(d & cr & -> & _ & Ha)]; [done|].
  destruct (claim_owner_verified _ _ _ _ (oi_core _ Hi) Ha) as [Hv Hs].
  cbn. now apply claimed_inv.
Qed.

(** ** Vacating an address *)
Definition vacated (addr : SocketAddr) (o : Owner) (s : St R) : St R :=
  mkSt (delete addr (addr_ownership s)) (delete addr (claim_generation s))
    (delete addr (claim_committed_at s))
    (filter (fun kv => kv.1.2 <> addr) (connection_scoped_claims s))
    (operator_pinned s) (pinned_by_peer s) (reap_reserved s)
    (delete addr (liveness_evidence_at s)) (configure_peer_generation s)
    (with_owner hash (snapshot s) addr None)
    (rp_retract_owner addr (node_id o) <$> routing s) (next_seq s) (reap_cells s).

Lemma vacate_spec addr s :
  vacate hash addr s
  = (fun o => (next_seq s, vacated addr o s)) <$> addr_ownership s !! addr.
Proof. unfold vacate. now destruct (addr_ownership s !! addr). Qed.

Section Vacated.
Context (addr : SocketAddr) (o : Owner) (s : St R).
Context (Ho : addr_ownership s !! addr = Some o).
Context (Hp : operator_pinned s !! addr = None).

Lemma owner_at_vacated a :
  owner_at (vacated addr o s) a = if decide (addr = a) then None else owner_at s a.
Proof. unfold owner_at. cbn. rewrite lookup_delete. now case_decide. Qed.

Lemma vacated_core : core_inv s -> core_inv (vacated addr o s).
Proof.
  intros [Hg Hvf Hr Hc]. split; cbn.
  - intros a. rewrite !lookup_delete. case_decide; [|apply Hg]. split; intros []; done.
  - intros a o'. rewrite lookup_delete. case_decide; [done|apply Hvf].
  - intros p i a g [H Hne]%map_lookup_filter_Some. cbn in Hne.
    rewrite owner_at_vacated, lookup_delete, !decide_False by congruence. now apply Hr in H.
  - intros a. rewrite !lookup_delete. case_decide; [intros []; done|apply Hc].
Qed.

Lemma vacated_pin : pin_inv s -> pin_inv (vacated addr o s).
Proof.
  intros [Hi Hw]. split; cbn; [exact Hi|]. intros a p H. rewrite owner_at_vacated.
  case_decide; [congruence|now apply Hw].
Qed.

Lemma vacated_pub : pub_inv s -> pub_inv (vacated addr o s).
Proof.
  intros [Hw Hpo Hpi Hb Hr]. split; cbn; auto with remote.
  - intros a. rewrite published_with_owner by done. unfold publication. cbn.
    rewrite !lookup_delete. case_decide; [done|apply Hpo].
  - intros r a. destruct (routing s) as [r0|]; [|done]. intros [= <-].
    rewrite owner_at_vacated, routed_retract, !(Hr r0 _ eq_refl).
    assert (owner_at s addr = Some (node_id o)) by (unfold owner_at; now rewrite Ho).
    repeat case_decide; naive_solver.
Qed.

Lemma vacated_inv : owner_inv s -> owner_inv (vacated addr o s).
Proof.
  intros [H1 H2 H3 [H4 H5]].
  split; auto using vacated_core, vacated_pin, vacated_pub. split; [exact H4|exact H5].
Qed.
End Vacated.

(** Dropping receipts keeps the invariant. *)
Lemma receipts_shrink_inv f s :
  (forall k g, f (connection_scoped_claims s) !! k = Some g ->
               connection_scoped_claims s !! k = Some g) ->
  owner_inv s -> owner_inv (set_receipts f s).
Proof.
  intros Hf [[Hg Hv Hr Hc] [H2 H2'] [H3 H3' H3'' H4 H5] [H6 H7]].
  split; split; auto. cbn. intros p i a g H. apply Hf in H. now apply Hr in H.
Qed.

Lemma filter_receipts_inv (P : PeerId * Z * SocketAddr * Z -> Prop)
    `{!forall x, Decision (P x)} s :
  owner_inv s -> owner_inv (set_receipts (filter P) s).
Proof.
  apply receipts_shrink_inv. now intros k g [? _]%map_lookup_filter_Some.
Qed.

Lemma owned_by_true p a s : owned_by p a s = true <-> owner_at s a = Some p.
Proof. apply bool_decide_eq_true. Qed.

Lemma vacate_inv addr s seq s' :
  owner_inv s -> operator_pinned s !! addr = None -> vacate hash addr s = Some (seq, s') ->
  owner_inv s'.
Proof.
  intros Hi Hp. rewrite vacate_spec. destruct (addr_ownership s !! addr) eqn:Ho; [|done].
  intros [= <- <-]. now apply vacated_inv.
Qed.

Lemma release_inv addr p g s : owner_inv s -> owner_inv (release hash addr p g s).2.
Proof.
  intros Hi. unfold release. case_decide as Hp; [done|].
  destruct (negb _); [done|]. destruct (vacate hash addr s) as [[seq s']|] eqn:Hv; [|done].
  eapply vacate_inv; eauto. now apply eq_None_not_Some.
Qed.

Lemma release_uncovered_inv p acc a :
  owner_inv acc.2 -> owner_inv (release_uncovered hash p acc a).2.
Proof.
  destruct acc as [l s]. cbn. intros Hi. case_decide as Hp; [done|].
  destruct (negb _); [done|]. destruct (vacate hash a s) as [[seq s']|] eqn:Hv; [|done].
  eapply vacate_inv; eauto. now apply eq_None_not_Some.
Qed.

Lemma release_session_inv p i s : owner_inv s -> owner_inv (release_session hash p i s).2.
Proof.
  intros Hi. unfold release_session.
  assert (forall l acc, owner_inv acc.2 -> owner_inv (foldl (release_uncovered hash p) acc l).2)
    as Hfold.
  { induction l as [|a l IH]; intros acc H; cbn; auto using release_uncovered_inv. }
  apply Hfold. cbn. now apply filter_receipts_inv.
Qed.

Lemma release_dead_peer_inv p a t s :
  owner_inv s -> owner_inv (release_dead_peer hash p a t s).2.
Proof.
  intros Hi. unfold release_dead_peer.
  destruct (_ && _); [done|]. destruct (_ && _); [done|]. set (s1 := set_receipts _ s).
  assert (owner_inv s1) as H1 by now apply filter_receipts_inv.
  case_decide as Hp; [done|]. destruct (negb _); [done|].
  destruct (vacate hash a s1) as [[seq s']|] eqn:Hv; [|done].
  eapply vacate_inv; eauto. now apply eq_None_not_Some.
Qed.

(** ** Connection-scoped claims *)
Lemma committed_at_inv addr t s :
  owner_inv s -> is_Some (addr_ownership s !! addr) ->
  owner_inv (set_committed_at <[addr := t]> s).
Proof.
  intros [[Hg Hv Hr Hc] [H2 H2'] [H3 H3' H3'' H4 H5] [H6 H7]] Ho.
  split; split; auto. cbn. intros a. rewrite lookup_insert. case_decide; [now subst|apply Hc].
Qed.

Lemma receipt_insert_inv p i a g s :
  owner_inv s -> owner_at s a = Some p -> claim_generation s !! a = Some g ->
  owner_inv (set_receipts <[(p, i, a) := g]> s).
Proof.
  intros [[Hg Hv Hr Hc] [H2 H2'] [H3 H3' H3'' H4 H5] [H6 H7]] Ho Hgen.
  split; split; auto. cbn. intros p' i' a' g' [[E ->]|[_ E]]%lookup_insert_Some;
    [now injection E as <- <- <-|now apply Hr in E].
Qed.

Lemma claim_connection_scoped_inv addr c i t s :
  owner_inv s -> owner_inv (claim_connection_scoped hash addr c i t s).2.
Proof.
  intros Hi. unfold claim_connection_scoped. pose proof (claim_inv addr c false s Hi) as H.
  destruct (claim_spec addr c false s) as [[why E]|(d & cr & E & _ & _)]; rewrite E in *; cbn in *.
  - now case_decide.
  - assert (owner_inv (set_committed_at <[addr := t]> (claimed addr (claim_owner addr c s) s)))
      as H1.
    { apply committed_at_inv; [done|]. cbn. rewrite lookup_insert_eq. eauto. }
    case_decide; [exact H1|]. apply receipt_insert_inv; [exact H1| |].
    + unfold owner_at. cbn. now rewrite lookup_insert_eq.
    + cbn. apply lookup_insert_eq.
Qed.

(** ** Pins *)
Section InstallPin.
Context (addr : SocketAddr) (peer : PeerId) (s : St R).
Context (Hi : owner_inv s) (Hown : owner_at s addr = Some peer).

(** The address the peer's pin leaves. *)
Definition evicted_pin : option SocketAddr :=
  match pinned_by_peer s !! peer with
  | Some e => if decide (e = addr) then None else Some e
  | None => None
  end.

Definition pinned_state : St R :=
  mkSt (addr_ownership s) (claim_generation s) (claim_committed_at s)
    (connection_scoped_claims s)
    (<[addr := peer]> match evicted_pin with
                      | Some e => delete e (operator_pinned s)
                      | None => operator_pinned s
                      end)
    (<[peer := addr]> (pinned_by_peer s)) (reap_reserved s) (liveness_evidence_at s)
    (configure_peer_generation s)
    (let snap := with_pin hash (snapshot s) addr (Some peer) in
     match evicted_pin with Some e => with_pin hash snap e None | None => snap end)
    (rp_set_configured_peer_addr addr peer evicted_pin <$> routing s)
    (commit_seq s) (reap_cells s).

(** Nobody else can be pinned at an address the peer owns. *)
Lemma pinned_at_own p : operator_pinned s !! addr = Some p -> p = peer.
Proof. intros H. apply (pi_owned _ (oi_pin _ Hi)) in H. congruence. Qed.

Lemma install_pin_spec : install_pin hash addr peer s = (evicted_pin, pinned_state).
Proof.
  unfold install_pin, pinned_state, evicted_pin. pose proof pinned_at_own as Hq.
  destruct (operator_pinned s !! addr) as [q|] eqn:E; [|reflexivity].
  rewrite decide_False by (pose proof (Hq q eq_refl); naive_solver). reflexivity.
Qed.

Lemma evicted_Some e :
  evicted_pin = Some e -> e <> addr /\ pinned_by_peer s !! peer = Some e
                          /\ operator_pinned s !! e = Some peer.
Proof.
  unfold evicted_pin. destruct (pinned_by_peer s !! peer) as [e'|] eqn:E; [|done].
  case_decide; [done|]. intros [= <-]. split; [done|]. split; [done|].
  now apply (pi_inverse _ (oi_pin _ Hi)).
Qed.

Lemma evicted_None e :
  evicted_pin = None -> pinned_by_peer s !! peer = Some e -> e = addr.
Proof. unfold evicted_pin. intros H E. rewrite E in H. now case_decide. Qed.

Lemma lookup_pinned_state a :
  operator_pinned pinned_state !! a
  = if decide (addr = a) then Some peer
    else if decide (evicted_pin = Some a) then None else operator_pinned s !! a.
Proof.
  cbn. rewrite lookup_insert. case_decide; [done|].
  destruct evicted_pin as [e|]; [|now rewrite decide_False].
  rewrite lookup_delete. repeat case_decide; congruence.
Qed.

Lemma pinned_state_pin : pin_inv pinned_state.
Proof.
  destruct (oi_pin _ Hi) as [Hinv Ho]. split; intros a p; rewrite lookup_pinned_state.
  - cbn [pinned_by_peer pinned_state]. rewrite lookup_insert.
    destruct (decide (addr = a)) as [<-|Ha], (decide (peer = p)) as [<-|Hp].
    + naive_solver.
    + split; [congruence|]. intros E. apply Hinv, pinned_at_own in E. congruence.
    + split; [|congruence]. case_decide as Hev; [done|]. intros E. apply Hinv in E.
      unfold evicted_pin in Hev. rewrite E in Hev. case_decide; congruence.
    + case_decide as Hev; [|apply Hinv]. apply evicted_Some in Hev as (_ & _ & Hev).
      split; [done|]. intros E. apply Hinv in E. congruence.
  - unfold owner_at. cbn. fold (owner_at s a). intros E. case_decide; [congruence|].
    case_decide; [done|]. now apply Ho.
Qed.

Lemma pinned_state_by_peer : snap_pinned_by_peer (snapshot pinned_state) = pinned_by_peer pinned_state.
Proof.
  destruct (oi_pub _ Hi) as [Hw Hpo Hpi Hb Hr]. cbn [snapshot pinned_state pinned_by_peer].
  assert (snap_pinned_by_peer (with_pin hash (snapshot s) addr (Some peer))
          = <[peer := addr]> (pinned_by_peer s)) as H1.
  { rewrite snap_pinned_with_pin_Some, Hpi, Hb. pose proof pinned_at_own as Hq.
    destruct (operator_pinned s !! addr) as [q|]; [|done].
    now rewrite decide_True by auto. }
  destruct evicted_pin as [e|] eqn:Hev; [|exact H1].
  apply evicted_Some in Hev as (Hne & _ & Hpe).
  rewrite snap_pinned_with_pin_None, pin_owner_with_pin, decide_False, Hpi, Hpe, H1 by done.
  rewrite lookup_insert_eq. rewrite decide_False by congruence. done.
Qed.

Lemma pinned_state_inv : owner_inv pinned_state.
Proof.
  pose proof pinned_state_pin as Hpin. pose proof pinned_state_by_peer as Hby.
  destruct Hi as [[Hg Hv Hr Hc] _ [Hw Hpo Hpi Hb Hrt] [H6 H7]].
  split; [now split|exact Hpin| |now split].
  split; [| | |exact Hby|]; cbn [snapshot pinned_state routing].
  - destruct evicted_pin; auto with remote.
  - intros a. destruct evicted_pin; rewrite !published_with_pin; apply Hpo.
  - intros a. rewrite lookup_pinned_state. destruct evicted_pin as [e|] eqn:Hev.
    + rewrite !pin_owner_with_pin, Hpi by auto with remote.
      destruct (decide (addr = a)) as [<-|]; repeat case_decide; try congruence.
      exfalso. now destruct (evicted_Some e Hev).
    + rewrite pin_owner_with_pin, Hpi by done. now repeat case_decide.
  - intros r a. destruct (routing s) as [r0|] eqn:Er; [|done]. intros [= <-].
    rewrite routed_set_configured. now apply Hrt.
Qed.
End InstallPin.

Lemma release_evicted_inv p e s :
  owner_inv s -> (forall a, e = Some a -> operator_pinned s !! a = None) ->
  owner_inv (release_evicted hash p e s).2.
Proof.
  intros Hi He. destruct e as [e|]; [|done]. cbn. set (s1 := set_receipts _ s).
  assert (owner_inv s1) as H1 by now apply filter_receipts_inv.
  destruct (owned_by p e s1); [|done].
  destruct (vacate hash e s1) as [[seq s']|] eqn:Hv; [|done].
  eapply vacate_inv; eauto.
Qed.

(** The part of [configure_peer] past its generation check. *)
Lemma configure_commit_inv addr p s g :
  owner_inv s -> owner_inv (configure_commit hash addr p g s).2.
Proof.
  unfold configure_commit.
  intros Hi. set (c := mkClaim p Verified). pose proof (claim_inv addr c false s Hi) as H1.
  destruct (claim_spec addr c false s) as [[why E]|(d & cr & E & _ & Ha)];
    rewrite E in *; cbn [negb is_accepted snd] in *; [done|].
  set (s1 := claimed _ _ s) in *.
  assert (owner_at s1 addr = Some p) as Ho.
  { unfold s1. rewrite owner_at_claimed. now rewrite decide_True. }
  rewrite (install_pin_spec _ _ _ H1 Ho).
  pose proof (pinned_state_inv _ _ _ H1 Ho) as H2.
  pose proof (release_evicted_inv p (evicted_pin addr p s1) (pinned_state addr p s1) H2) as H3.
  destruct (release_evicted hash p _ _) as [seq s3]. apply H3.
  intros a Hev. rewrite lookup_pinned_state, Hev.
  rewrite decide_False, decide_True; [done..|]. now destruct (evicted_Some _ _ _ H1 a Hev).
Qed.

Lemma set_configured_inv f s : owner_inv s -> owner_inv (set_configured f s).
Proof.
  intros [[Hg Hv Hr Hc] [H2 H2'] [H3 H3' H3'' H4 H5] [H6 H7]]. split; split; auto.
Qed.

Lemma configure_peer_inv addr p g s :
  owner_inv s -> owner_inv (configure_peer hash addr p g s).2.
Proof.
  intros Hi. unfold configure_peer.
  match goal with |- context [if ?b then (_, s) else _] => destruct b; [done|] end.
  destruct g as [g|]; [destruct (_ <? _); [done|]|];
    apply configure_commit_inv; auto using set_configured_inv.
Qed.

Lemma set_ordinary_connect_route_inv p a s :
  owner_inv s -> owner_inv (set_ordinary_connect_route p a s).2.
Proof.
  intros Hi.
  assert (owner_inv (with_routing (rp_set_configured_peer_addr a p None) s)) as H.
  { destruct Hi as [[Hg Hv Hr Hc] [H2 H2'] [H3 H3' H3'' H4 H5] [H6 H7]]. split; split; auto.
    cbn. intros r a'. destruct (routing s) as [r0|]; [|done]. intros [= <-].
    rewrite routed_set_configured. now apply H5. }
  unfold set_ordinary_connect_route. destruct (pinned_by_peer s !! p); [|done].
  now case_decide.
Qed.

(** ** Evidence and reservations *)
Lemma set_evidence_inv f s : owner_inv s -> owner_inv (set_evidence f s).
Proof.
  intros [[Hg Hv Hr Hc] [H2 H2'] [H3 H3' H3'' H4 H5] [H6 H7]]. split; split; auto.
Qed.

Lemma set_reserved_inv f g s :
  owner_inv s -> reap_inv (set_reserved f g s) -> owner_inv (set_reserved f g s).
Proof.
  intros [[Hg Hv Hr Hc] [H2 H2'] [H3 H3' H3'' H4 H5] [H6 H7]]. split; [split|split|split|];
    auto.
Qed.

(** Writing a cell keeps every reservation on an allocated cell. *)
Lemma write_cell_inv c v s : owner_inv s -> owner_inv (set_reserved id <[c := v]> s).
Proof.
  intros Hi. apply set_reserved_inv; [done|]. destruct (oi_reap _ Hi) as [H6 H7].
  split; cbn; [|exact H7]. intros a c' H. apply H6 in H.
  apply lookup_lt_is_Some in H. apply lookup_lt_is_Some. now rewrite length_insert.
Qed.

Lemma note_liveness_evidence_inv a t s :
  owner_inv s -> owner_inv (note_liveness_evidence a t s).
Proof.
  intros Hi. unfold note_liveness_evidence, invalidate_reap_reservation.
  pose proof (set_evidence_inv (insert_max a t) s Hi).
  repeat case_match; auto using write_cell_inv.
Qed.

Lemma try_consume_inv c s : owner_inv s -> owner_inv (try_consume c s).2.
Proof.
  intros Hi. unfold try_consume. repeat case_match; cbn; auto using write_cell_inv.
Qed.

Lemma release_reap_reservation_inv a s :
  owner_inv s -> owner_inv (release_reap_reservation a s).
Proof.
  intros Hi. apply set_reserved_inv; [done|]. destruct (oi_reap _ Hi) as [H6 H7].
  split; cbn.
  - intros a' c [_ H]%lookup_delete_Some. eauto.
  - intros a1 a2 c [_ Ha1]%lookup_delete_Some [_ Ha2]%lookup_delete_Some. eauto.
Qed.

(** A recorded owner always has a generation: the token is total. *)
Lemma current_ownership_token_total a s :
  core_inv s -> current_ownership_token a s
  = Some (match publication s a with
          | Some p => Some (mkToken (node_id (po_owner p)) (po_generation p))
          | None => None
          end).
Proof.
  intros Hc. unfold current_ownership_token, publication.
  pose proof (ci_gen _ Hc a) as Hg. destruct (addr_ownership s !! a) as [o|]; [|done].
  destruct (proj1 Hg (mk_is_Some _ _ eq_refl)) as [g ->]. done.
Qed.

Lemma reserve_for_reap_inv a t tok pin n s s' r :
  owner_inv s -> reserve_for_reap a t tok pin n s = Some (r, s') -> owner_inv s'.
Proof.
  intros Hi H. unfold reserve_for_reap in H.
  rewrite current_ownership_token_total in H by apply (oi_core _ Hi).
  destruct (newer _ _ _); [now simplify_eq|]. destruct (negb _); [now simplify_eq|].
  destruct (negb _); [now simplify_eq|].
  destruct (match _ with Some p => _ | None => _ end); [now simplify_eq|].
  case_decide as Hr; [now simplify_eq|]. simplify_eq.
  apply set_reserved_inv; [done|]. destruct (oi_reap _ Hi) as [H6 H7].
  assert (forall a' c, reap_reserved s !! a' = Some c -> (c < length (reap_cells s))%nat) as Hlt.
  { intros a' c E. apply H6 in E. now apply lookup_lt_is_Some in E. }
  split; cbn.
  - intros a' c [[_ <-]|[_ E]]%lookup_insert_Some; apply lookup_lt_is_Some;
      rewrite length_app; cbn; [lia|]. apply Hlt in E. lia.
  - intros a1 a2 c [[<- <-]|[Hn1 E1]]%lookup_insert_Some [[<- E2]|[Hn2 E2]]%lookup_insert_Some;
      try done; [apply Hlt in E2; lia | apply Hlt in E1; lia | eauto].
Qed.

(** ** Migration *)
Lemma foldl_receipts_Some (peer : PeerId) (to : SocketAddr) (seq : Z) (l : list Z)
    (m : gmap (PeerId * Z * SocketAddr) Z) k g :
  foldl (fun m conn => <[(peer, conn, to) := seq]> m) m l !! k = Some g ->
  (k.1.1 = peer /\ k.2 = to /\ g = seq) \/ m !! k = Some g.
Proof.
  revert m. induction l as [|c l IH]; intros m H; [auto|].
  apply IH in H as [?|H]; [auto|]. apply lookup_insert_Some in H as [[<- <-]|[_ H]]; auto.
Qed.

Lemma migrate_receipts_Some peer from to seq m p i a g :
  migrate_receipts peer from to seq m !! (p, i, a) = Some g ->
  (p = peer /\ a = to /\ g = seq)
  \/ (a <> from /\ ~ (p = peer /\ a = to) /\ m !! (p, i, a) = Some g).
Proof.
  unfold migrate_receipts. rewrite lookup_bump_receipts. cbn.
  destruct (foldl _ _ _ !! _) as [g'|] eqn:E; [|done]. cbn. intros [= <-].
  apply foldl_receipts_Some in E as [E|[E Hne]%map_lookup_filter_Some]; cbn in *;
    [destruct E as (-> & -> & ->)|].
  - left. split_and!; auto. now case_decide.
  - case_decide as H; [destruct H; auto|auto].
Qed.

Lemma move_max_is_Some from to m a :
  is_Some (move_max from to m !! a) -> a = to \/ (a <> from /\ is_Some (m !! a)).
Proof.
  unfold move_max. destruct (m !! from) as [t|] eqn:E.
  - unfold insert_max. assert (forall m' : gmap SocketAddr Z, is_Some (<[to := t]> m' !! a) ->
      a = to \/ is_Some (m' !! a)) as Hi.
    { intros m'. rewrite lookup_insert. case_decide; auto. }
    assert (is_Some (delete from m !! a) -> a <> from /\ is_Some (m !! a)) as Hd.
    { rewrite lookup_delete. case_decide; [intros []; done|auto]. }
    repeat case_match; intros Hs; try (apply Hi in Hs as [|]); auto.
  - intros H. destruct (decide (a = from)) as [->|]; [rewrite E in H; now destruct H|auto].
Qed.

Section Migrated.
Context (from to : SocketAddr) (o : Owner) (s : St R).
Context (Hi : owner_inv s) (Ho : addr_ownership s !! from = Some o).
Context (Hdst : forall p, owner_at s to = Some p -> p = node_id o).

Definition migrated : St R :=
  mkSt (<[to := o]> (delete from (addr_ownership s)))
    (<[to := next_seq s]> (delete from (claim_generation s)))
    (move_max from to (claim_committed_at s))
    (migrate_receipts (node_id o) from to (next_seq s) (connection_scoped_claims s))
    match operator_pinned s !! from with
    | Some p => <[to := p]> (delete from (operator_pinned s))
    | None => operator_pinned s
    end
    match operator_pinned s !! from with
    | Some p => <[p := to]> (pinned_by_peer s)
    | None => pinned_by_peer s
    end
    (reap_reserved s) (move_max from to (liveness_evidence_at s))
    (configure_peer_generation s)
    (let snap := with_owner hash (with_owner hash (snapshot s) from None) to
                   (Some (o, next_seq s)) in
     match operator_pinned s !! from with
     | Some p => with_pin hash (with_pin hash snap from None) to (Some p)
     | None => snap
     end)
    ((fun r => rp_publish_owner to (node_id o) (rp_retract_owner from (node_id o)
        match operator_pinned s !! from with
        | Some p => rp_set_configured_peer_addr to p (Some from) r
        | None => r
        end)) <$> routing s)
    (next_seq s) (reap_cells s).

Lemma owner_at_migrated a :
  owner_at migrated a
  = if decide (to = a) then Some (node_id o)
    else if decide (from = a) then None else owner_at s a.
Proof.
  unfold owner_at. cbn. rewrite lookup_insert. case_decide; [done|].
  rewrite lookup_delete. now case_decide.
Qed.

Lemma owner_at_from : owner_at s from = Some (node_id o).
Proof. unfold owner_at. now rewrite Ho. Qed.

Lemma pinned_at_from p : operator_pinned s !! from = Some p -> p = node_id o.
Proof. intros H. apply (pi_owned _ (oi_pin _ Hi)) in H. rewrite owner_at_from in H. congruence. Qed.

Lemma pinned_at_to p : operator_pinned s !! to = Some p -> p = node_id o.
Proof. intros H. apply (pi_owned _ (oi_pin _ Hi)) in H. auto. Qed.

Lemma migrated_core : owner_kind o = Verified -> core_inv migrated.
Proof.
  intros Hk. destruct (oi_core _ Hi) as [Hg Hvf Hr Hc]. split; cbn.
  - intros a. rewrite !lookup_insert. case_decide; [split; eauto|].
    rewrite !lookup_delete. case_decide; [split; intros []; done|apply Hg].
  - intros a o'. rewrite lookup_insert. case_decide; [congruence|].
    rewrite lookup_delete. case_decide; [done|apply Hvf].
  - intros p i a g H. rewrite owner_at_migrated, lookup_insert.
    apply migrate_receipts_Some in H as [(-> & -> & ->)|(Hne & Hnt & H)].
    + now rewrite !decide_True.
    + apply Hr in H as [H1 H2]. rewrite lookup_delete, !(decide_False (P := from = a)) by done.
      case_decide; [|done]. subst. apply Hdst in H1. naive_solver.
  - intros a H. apply move_max_is_Some in H as [->|[Hne H]].
    + rewrite lookup_insert_eq. eauto.
    + rewrite lookup_insert. case_decide; [eauto|]. rewrite lookup_delete_ne by done. auto.
Qed.

Lemma migrated_pin : pin_inv migrated.
Proof.
  destruct (oi_pin _ Hi) as [Hinv Hpo]. pose proof pinned_at_from as Hpf.
  pose proof pinned_at_to as Hpt. split; intros a p.
  - cbn. destruct (operator_pinned s !! from) as [q|] eqn:E; [|apply Hinv].
    rewrite !lookup_insert, lookup_delete. pose proof (proj1 (Hinv _ _) E) as Er.
    destruct (decide (to = a)) as [<-|Ha], (decide (q = p)) as [<-|Hp].
    + done.
    + split; [intros [=]; done|]. intros E2. apply Hinv, Hpt in E2.
      rewrite (Hpf q eq_refl) in Hp. congruence.
    + split; [|intros [=]; done]. case_decide; [done|]. intros E2. apply Hinv in E2. congruence.
    + case_decide; [subst|apply Hinv]. split; [done|]. intros E2. apply Hinv in E2. congruence.
  - rewrite owner_at_migrated. cbn.
    destruct (operator_pinned s !! from) as [q|] eqn:E.
    + rewrite lookup_insert. case_decide; [intros [= <-]; f_equal; symmetry; auto|].
      rewrite lookup_delete. case_decide; [done|apply Hpo].
    + intros H. pose proof (Hpo _ _ H) as Hown. case_decide; [subst; f_equal; symmetry; auto|].
      case_decide; [congruence|done].
Qed.

Lemma migrated_by_peer :
  snap_pinned_by_peer (snapshot migrated) = pinned_by_peer migrated.
Proof.
  destruct (oi_pub _ Hi) as [Hw Hpo Hpi Hb Hr]. destruct (oi_pin _ Hi) as [Hinv _].
  pose proof pinned_at_from as Hpf. pose proof pinned_at_to as Hpt.
  cbn [snapshot migrated pinned_by_peer].
  destruct (operator_pinned s !! from) as [q|] eqn:E; [|exact Hb].
  pose proof (proj1 (Hinv _ _) E) as Er.
  rewrite snap_pinned_with_pin_Some, snap_pinned_with_pin_None.
  rewrite !pin_owner_with_pin, !pin_owner_with_owner by auto with remote.
  rewrite !Hpi, E, !snap_pinned_with_owner, Hb.
  rewrite (decide_True (P := pinned_by_peer s !! q = Some from)) by done.
  assert ((if decide (from = to) then None else operator_pinned s !! to) = None) as ->.
  { case_decide; [done|]. destruct (operator_pinned s !! to) as [p|] eqn:Et; [|done].
    pose proof (proj1 (Hinv _ _) Et) as Et'. rewrite (Hpt p eq_refl) in Et'.
    rewrite (Hpf q eq_refl) in Er. congruence. }
  apply insert_delete_eq.
Qed.

Lemma migrated_pub : pub_inv migrated.
Proof.
  pose proof migrated_by_peer as Hby. destruct (oi_pub _ Hi) as [Hw Hpo Hpi Hb Hr].
  split; [| | |exact Hby|]; cbn [snapshot migrated routing].
  - destruct (operator_pinned s !! from); auto with remote.
  - intros a. transitivity (published hash (with_owner hash (with_owner hash (snapshot s) from None)
      to (Some (o, next_seq s))) a).
    { destruct (operator_pinned s !! from); [now rewrite !published_with_pin|done]. }
    rewrite !published_with_owner by auto with remote. unfold publication. cbn.
    rewrite !lookup_insert, !lookup_delete. repeat case_decide; try done.
  - intros a. cbn [operator_pinned migrated].
    destruct (operator_pinned s !! from) as [q|];
      rewrite ?pin_owner_with_pin, ?pin_owner_with_owner, Hpi by auto with remote; [|done].
    rewrite lookup_insert, lookup_delete. now repeat case_decide.
  - intros r a. destruct (routing s) as [r0|]; [|done]. intros [= <-].
    rewrite owner_at_migrated, routed_publish, routed_retract. case_decide; [done|].
    set (r1 := match operator_pinned s !! from with Some p => _ | None => r0 end).
    assert (forall a', routed r1 a' = owner_at s a') as Hr1.
    { intros a'. unfold r1. destruct (operator_pinned s !! from);
        rewrite ?routed_set_configured; now apply Hr. }
    pose proof owner_at_from as Hf. rewrite !Hr1. repeat case_decide; naive_solver.
Qed.

Lemma migrated_inv : owner_kind o = Verified -> owner_inv migrated.
Proof.
  intros Hk. destruct (oi_reap _ Hi) as [H6 H7].
  split; [now apply migrated_core|apply migrated_pin|apply migrated_pub|].
  split; [exact H6|exact H7].
Qed.
End Migrated.

(** The destination is free or held by the source's identity, so the move keeps
    a verified owner and is the state [migrated] describes. *)
Lemma migrate_spec from to e l s :
  owner_inv s ->
  (exists out, migrate hash from to e l s = (out, s) /\ forall q, out <> Migrated q)
  \/ exists o,
       addr_ownership s !! from = Some o
       /\ source_matches from e s = true
       /\ reap_reserved s !! from = None /\ reap_reserved s !! to = None
       /\ (forall p, owner_at s to = Some p -> p = node_id o)
       /\ owner_kind o = Verified
       /\ migrate hash from to e l s = (Migrated (next_seq s), migrated from to o s).
Proof.
  intros Hi. unfold migrate. case_decide as Hr; [eauto|]. destruct l; [eauto|].
  destruct (source_matches from e s) eqn:Hsm; cbn [negb]; [|eauto].
  match goal with |- context [if ?b then (TargetOwnedByOther, s) else _] =>
    destruct b eqn:Hd; [eauto|] end.
  destruct (addr_ownership s !! from) as [[n k]|] eqn:Ho; [right|eauto].
  pose proof (ci_verified _ (oi_core _ Hi) _ _ Ho) as Hk. cbn in Hk. subst k.
  assert (forall p, owner_at s to = Some p -> p = n) as Hdst.
  { unfold owner_at. intros p E. destruct (addr_ownership s !! to) as [o'|]; [|done].
    cbn in *. simplify_eq. case_bool_decide; [congruence|done]. }
  assert (resolved_kind (addr_ownership s !! to) (mkClaim n Verified) = Verified) as Hres.
  { unfold resolved_kind. destruct (addr_ownership s !! to); [destruct (decide (_ /\ _))|]; reflexivity. }
  exists (mkOwner n Verified). split_and!; auto; [apply eq_None_not_Some; naive_solver..|].
  cbn [node_id owner_kind]. rewrite Hres. clear. destruct s as [? ? ? ? pins ? ? ? ? ? rt ? ?].
  unfold migrated, next_seq. cbn [operator_pinned set_owners].
  destruct (pins !! from) as [p|], rt as [r|]; reflexivity.
Qed.

Lemma migrate_inv from to e l s : owner_inv s -> owner_inv (migrate hash from to e l s).2.
Proof.
  intros Hi. destruct (migrate_spec from to e l s Hi)
    as [(out & -> & _)|(o & Ho & _ & _ & _ & Hd & Hk & ->)]; [done|]. now apply migrated_inv.
Qed.

(** ** Every step *)
Lemma handle_inv cmd s s' : owner_inv s -> handle cmd s = Some s' -> owner_inv s'.
Proof.
  intros Hi H. destruct cmd; cbn in H; simplify_eq;
    auto using claim_inv, release_inv, migrate_inv, claim_connection_scoped_inv,
      release_session_inv, release_dead_peer_inv, release_reap_reservation_inv,
      configure_peer_inv, set_ordinary_connect_route_inv, note_liveness_evidence_inv.
  destruct (reserve_for_reap _ _ _ _ _ s) as [[r s1]|] eqn:E; [|done].
  cbn in H. simplify_eq. eapply reserve_for_reap_inv; eauto.
Qed.

Lemma owner_step_inv s s' : owner_inv s -> owner_step s s' -> owner_inv s'.
Proof.
  intros Hi Hstep. revert Hi.
  destruct Hstep as [s0 cmd s1 H|s0 c|s0]; intros Hi; [exact (handle_inv _ _ _ Hi H)|exact (try_consume_inv c s0 Hi)|].
  destruct Hi as [[Hg Hv Hr Hc] [H2 H2'] [H3 H3' H3'' H4 H5] [H6 H7]]. split; split; auto; done.
Qed.

Lemma reachable_inv s : reachable s -> owner_inv s.
Proof.
  intros (r & Hr & Hs).
  exact (star_invariant _ owner_inv owner_step_inv _ _ Hs (owner_inv_init r Hr)).
Qed.

End Invariant.
