(* ===== verification/OwnerScenario.v ===== *)
(** * Concrete runs of the registry owner

    The owner over the pool's address route ([RouteIndex]), with two peers and
    three addresses, and the states command sequences lead to.  The witnesses
    of the owner's theorems evaluate these. *)

From S2P Require Import Prelude Types AddrOwnership RoutingSnapshot RegistryOwner RouteIndex.
From S2P Require Import RegistryOwnerInv.

Definition no_live (_ : PeerId) : bool := false.
#[export] Instance scenario_publisher : RoutingPublisher RouteIndex := route_publisher no_live.
#[export] Instance scenario_laws : RoutingLaws RouteIndex := route_laws no_live.

Definition alice : PeerId := mkPeerId (replicate 32 1).
Definition bob : PeerId := mkPeerId (replicate 32 2).
Definition home : SocketAddr := SocketAddrV4 167772161 9000.
Definition away : SocketAddr := SocketAddrV4 167772162 9000.
Definition other : SocketAddr := SocketAddrV4 167772163 9001.

(** A hash under which [home] and [away] share a shard. *)
Definition port_hash (a : SocketAddr) : Z :=
  match a with SocketAddrV4 _ port => port | SocketAddrV6 _ port _ _ => port end.

Definition start : St RouteIndex := init (Some ∅).

Definition run (cmds : list OwnerCommand) : option (St RouteIndex) :=
  foldl (fun s cmd => s ≫= handle port_hash cmd) (Some start) cmds.

Definition after (cmds : list OwnerCommand) : St RouteIndex := default start (run cmds).

Lemma run_snoc cmds cmd : run (cmds ++ [cmd]) = run cmds ≫= handle port_hash cmd.
Proof. unfold run. now rewrite foldl_app. Qed.

Lemma run_star cmds : forall s, run cmds = Some s -> star (owner_step port_hash) start s.
Proof.
  induction cmds as [|cmd cmds IH] using rev_ind; intros s H.
  - unfold run in H. cbn in H. injection H as <-. apply star_refl.
  - rewrite run_snoc in H. destruct (run cmds) as [t|]; [|done]. cbn in H.
    eapply star_trans; [now apply IH|]. apply star_one. now apply step_command with cmd.
Qed.

Lemma run_reachable cmds s : run cmds = Some s -> reachable port_hash s.
Proof.
  intros H. exists (Some ∅). split; [|now apply run_star in H].
  intros r a [= <-]. cbn. apply lookup_empty.
Qed.

(** Whether no command of the sequence panics. *)
Definition runs (cmds : list OwnerCommand) : bool :=
  match run cmds with Some _ => true | None => false end.

Lemma runs_after cmds : runs cmds = true -> run cmds = Some (after cmds).
Proof. unfold runs, after. now destruct (run cmds). Qed.

Lemma after_reachable cmds : runs cmds = true -> reachable port_hash (after cmds).
Proof. intros H. now apply run_reachable with cmds, runs_after. Qed.

Lemma after_snoc cmds cmd :
  runs cmds = true -> runs (cmds ++ [cmd]) = true ->
  handle port_hash cmd (after cmds) = Some (after (cmds ++ [cmd])).
Proof.
  intros H1 H2. apply runs_after in H1, H2. rewrite run_snoc, H1 in H2. exact H2.
Qed.

Ltac evaluate := vm_compute; reflexivity.
Ltac reached := apply after_reachable; evaluate.
