(* ===== verification/RegistryOwnerProps.v ===== *)
(** * What the registry owner guarantees

    Theorems on every reachable state of the owner: publication, pins,
    ownership changes, session teardown, and the reap protocol. *)

From S2P Require Import Prelude Types AddrOwnership RoutingSnapshot RegistryOwner.
From S2P Require Import RegistryOwnerInv RouteIndex OwnerScenario.

Section Props.
Context {R : Type} `{!RoutingPublisher R} `{!RoutingLaws R}.
Context (hash : SocketAddr -> Z).
Abbreviation owner_step := (owner_step hash).
Abbreviation reachable := (reachable hash).
Abbreviation owner_inv := (owner_inv hash).
Abbreviation handle := (handle hash).

(** ** Ownership changes hands only through a vacancy *)

(** The owner of [a] is kept or dropped, never replaced. *)
Definition keeps (a : SocketAddr) (s s' : St R) : Prop :=
  owner_at s' a = owner_at s a \/ owner_at s' a = None.

Definition keeps_owned (a : SocketAddr) (s s' : St R) : Prop :=
  forall p, owner_at s a = Some p -> keeps a s s'.

Lemma keeps_refl a s : keeps a s s.
Proof. now left. Qed.

Lemma keeps_trans a s t u : keeps a s t -> keeps a t u -> keeps a s u.
Proof. unfold keeps. intros [->|H] [Ht|Ht]; auto. rewrite Ht. auto. Qed.

Lemma keeps_vacate a b s seq s' : vacate hash b s = Some (seq, s') -> keeps a s s'.
Proof.
  rewrite vacate_spec. destruct (addr_ownership s !! b) as [o|]; [|done].
  intros [= _ <-]. unfold keeps. rewrite owner_at_vacated. case_decide; auto.
Qed.

Lemma keeps_claim a b c l s :
  core_inv s -> is_Some (owner_at s a) -> keeps a s (claim hash b c l s).2.
Proof.
  intros Hc [p Hp]. destruct (claim_spec hash b c l s) as [[w ->]|(d & cr & -> & _ & Ha)];
    [apply keeps_refl|].
  destruct (claim_owner_verified _ _ _ _ Hc Ha) as [_ Hs].
  cbn. left. rewrite owner_at_claimed. case_decide; [subst|done]. rewrite Hp.
  f_equal. symmetry. now apply Hs.
Qed.

Lemma keeps_release_session a p i s : keeps a s (release_session hash p i s).2.
Proof.
  unfold release_session.
  assert (forall l acc, keeps a acc.2 (foldl (release_uncovered hash p) acc l).2) as H.
  { induction l as [|b l IH]; intros acc; [apply keeps_refl|]. cbn [foldl].
    eapply keeps_trans; [|apply IH]. destruct acc as [rel t]. cbn.
    case_decide; [apply keeps_refl|]. destruct (negb _); [apply keeps_refl|].
    destruct (vacate hash b t) as [[seq t']|] eqn:E; [|apply keeps_refl].
    cbn. eapply keeps_vacate; eauto. }
  eapply keeps_trans; [|apply H]. now left.
Qed.

Lemma keeps_release_dead_peer a p b t s : keeps a s (release_dead_peer hash p b t s).2.
Proof.
  unfold release_dead_peer. destruct (_ && _); [apply keeps_refl|].
  destruct (_ && _); [apply keeps_refl|]. set (s1 := set_receipts _ s).
  case_decide; [now left|]. destruct (negb _); [now left|].
  destruct (vacate hash b s1) as [[seq s2]|] eqn:E; [|now left].
  apply (keeps_vacate a) in E. exact E.
Qed.

Lemma keeps_release_evicted a p e s : keeps a s (release_evicted hash p e s).2.
Proof.
  destruct e as [e|]; [|apply keeps_refl]. cbn. set (s1 := set_receipts _ s).
  destruct (owned_by p e s1); [|now left].
  destruct (vacate hash e s1) as [[q s2]|] eqn:E; [|now left].
  apply (keeps_vacate a) in E. exact E.
Qed.

Lemma owner_at_install_pin a b p s : owner_at (install_pin hash b p s).2 a = owner_at s a.
Proof. reflexivity. Qed.

Lemma keeps_configure_commit a b p g s :
  core_inv s -> is_Some (owner_at s a) -> keeps a s (configure_commit hash b p g s).2.
Proof.
  intros Hc Ha. unfold configure_commit.
  pose proof (keeps_claim a b (mkClaim p Verified) false s Hc Ha) as Hk.
  destruct (claim hash b _ false s) as [commit s1]. cbn in Hk.
  destruct (negb _); [exact Hk|]. pose proof (owner_at_install_pin a b p s1) as H2.
  destruct (install_pin hash b p s1) as [ev s2]. cbn in H2.
  pose proof (keeps_release_evicted a p ev s2) as H3.
  destruct (release_evicted hash p ev s2) as [seq s3].
  apply (keeps_trans a s s2); [|exact H3]. apply (keeps_trans a s s1); [exact Hk|now left].
Qed.

Lemma keeps_configure a b p g s :
  core_inv s -> is_Some (owner_at s a) -> keeps a s (configure_peer hash b p g s).2.
Proof.
  intros Hc Ha. unfold configure_peer.
  match goal with |- context [if ?x then (_, s) else _] => destruct x; [apply keeps_refl|] end.
  destruct g as [g|]; [destruct (_ <? _); [apply keeps_refl|]|].
  - now apply keeps_configure_commit.
  - eapply keeps_trans; [|apply keeps_configure_commit]; [now left| |exact Ha].
    destruct Hc. now split.
Qed.

Lemma keeps_migrate a from to e l s :
  owner_inv s -> is_Some (owner_at s a) -> keeps a s (migrate hash from to e l s).2.
Proof.
  intros Hi [p Ha]. destruct (migrate_spec hash from to e l s Hi)
    as [(out & -> & _)|(o & Ho & _ & _ & _ & Hd & _ & ->)]; [apply keeps_refl|].
  unfold keeps. cbn [snd]. rewrite owner_at_migrated. case_decide; [subst|case_decide; auto].
  left. rewrite Ha. f_equal. symmetry. now apply Hd.
Qed.

Lemma keeps_handle a cmd s s' :
  owner_inv s -> is_Some (owner_at s a) -> handle cmd s = Some s' -> keeps a s s'.
Proof.
  intros Hi Ha H. pose proof (oi_core _ _ Hi) as Hc. destruct cmd; cbn in H; simplify_eq;
    auto using keeps_claim, keeps_migrate, keeps_release_session, keeps_release_dead_peer,
      keeps_configure.
  - unfold release. case_decide; [apply keeps_refl|]. destruct (negb _); [apply keeps_refl|].
    destruct (vacate hash addr s) as [[q s2]|] eqn:E; [|apply keeps_refl].
    cbn. eapply keeps_vacate; eauto.
  - unfold claim_connection_scoped. pose proof (keeps_claim a addr c false s Hc Ha) as Hk.
    destruct (claim hash addr c false s) as [[] s1]; cbn; case_decide; exact Hk.
  - unfold reserve_for_reap in H. repeat case_match; simplify_eq/=; now left.
  - now left.
  - unfold set_ordinary_connect_route. repeat case_match; now left.
  - unfold note_liveness_evidence, invalidate_reap_reservation. repeat case_match; now left.
Qed.

(** C3: in every reachable state of the owner, an owned address is never
    reassigned: whatever single step follows (a command of the mailbox, a reap
    guard consuming its reservation, the pool going away), an address owned by
    [p] is afterwards still owned by [p] or owned by nobody. *)
Theorem ownership_never_displaced s s' a p :
  reachable s -> owner_step s s' -> owner_at s a = Some p -> keeps a s s'.
Proof.
  intros Hr Hs Hp. pose proof (reachable_inv _ _ Hr) as Hi. clear Hr. revert Hi Hp.
  destruct Hs as [s0 cmd s1 H|s0 c|s0]; intros Hi Hp.
  - eapply keeps_handle; eauto.
  - left. unfold try_consume. now repeat case_match.
  - now left.
Qed.

(** ** Session teardown *)

(** An address of the session that no other session of the peer covers and no
    operator pinned. *)
Definition abandoned (p : PeerId) (i : Z) (s : St R) (a : SocketAddr) : Prop :=
  is_Some (connection_scoped_claims s !! (p, i, a))
  /\ (forall j, j <> i -> connection_scoped_claims s !! (p, j, a) = None)
  /\ operator_pinned s !! a = None.

(** What the loop drops from [t] when it visits [l]. *)
Definition drops (p : PeerId) (l : list SocketAddr) (t : St R) (a : SocketAddr) : Prop :=
  a ∈ l /\ operator_pinned t !! a = None /\ owner_at t a = Some p.

#[local] Instance drops_dec p l t a : Decision (drops p l t a).
Proof. unfold drops. solve_decision. Defined.

Lemma release_uncovered_spec p rel t a :
  (exists o, addr_ownership t !! a = Some o /\ drops p [a] t a
     /\ release_uncovered hash p (rel, t) a = (rel ++ [(a, next_seq t)], vacated hash a o t))
  \/ (~ drops p [a] t a /\ release_uncovered hash p (rel, t) a = (rel, t)).
Proof.
  unfold drops. cbn. case_decide as Hp; [right; split; [|done]; intros (_ & E & _); rewrite E in Hp;
    now destruct Hp|].
  destruct (owned_by p a t) eqn:Ho; cbn.
  - apply owned_by_true in Ho. left. rewrite vacate_spec. pose proof Ho as Ho'.
    unfold owner_at in Ho'. destruct (addr_ownership t !! a) as [o|]; [|done].
    exists o. split_and!; auto; [now apply list_elem_of_singleton|].
    now apply eq_None_not_Some.
  - right. split; [|done]. intros (_ & _ & E). apply owned_by_true in E. congruence.
Qed.

Lemma drops_cons p l t a b :
  drops p (b :: l) t a <-> (drops p [b] t a \/ drops p l t a).
Proof. unfold drops. rewrite elem_of_cons, list_elem_of_singleton. tauto. Qed.

Lemma drops_vacated p l t a b o :
  drops p l (vacated hash b o t) a <-> (drops p l t a /\ a <> b).
Proof. unfold drops. rewrite owner_at_vacated. cbn. case_decide; naive_solver. Qed.

(** The loop of [release_session] drops exactly these addresses, with their
    receipts, and lists them. *)
Lemma release_loop p l : forall rel t rel' t',
  foldl (release_uncovered hash p) (rel, t) l = (rel', t') ->
  (forall a, owner_at t' a = if decide (drops p l t a) then None else owner_at t a)
  /\ (forall k, connection_scoped_claims t' !! k
        = if decide (drops p l t k.2) then None else connection_scoped_claims t !! k)
  /\ (forall a, a ∈ rel'.*1 <-> a ∈ rel.*1 \/ drops p l t a)
  /\ operator_pinned t' = operator_pinned t.
Proof.
  induction l as [|b l IH]; intros rel t rel' t' E.
  { cbn in E. simplify_eq. unfold drops.
    split_and!; intros; rewrite ?decide_False by (intros [H _]; now apply elem_of_nil in H);
      try done. rewrite elem_of_nil. tauto. }
  cbn [foldl] in E. destruct (release_uncovered_spec p rel t b) as [(o & Ho & Hd & Hu)|[Hd Hu]];
    rewrite Hu in E; apply IH in E as (H1 & H2 & H3 & H4).
  - assert (forall a, drops p [b] t a <-> a = b) as Hb.
    { intros a. unfold drops in *. rewrite list_elem_of_singleton in *. naive_solver. }
    split_and!; [intros a|intros k|intros a|exact H4].
    + rewrite H1, owner_at_vacated. destruct (decide (drops p (b :: l) t a)) as [D|D];
        rewrite drops_cons, Hb in D; destruct (decide (drops p l _ a)) as [D'|D'];
        rewrite drops_vacated in D'; destruct (decide (b = a)) as [Hba|Hba]; auto;
        exfalso; clear -D D' Hba; intuition congruence.
    + rewrite H2. cbn. rewrite map_lookup_filter. cbn.
      destruct (decide (drops p (b :: l) t k.2)) as [D|D]; rewrite drops_cons, Hb in D;
        destruct (decide (drops p l _ k.2)) as [D'|D']; rewrite drops_vacated in D'; auto.
      * destruct (connection_scoped_claims t !! k) as [g|]; [|done]. cbn.
        destruct (decide (k.2 = b)); [now rewrite option_guard_False by tauto|tauto].
      * tauto.
      * destruct (connection_scoped_claims t !! k) as [g|]; [|done]. cbn.
        now rewrite option_guard_True by tauto.
    + rewrite H3, fmap_app, elem_of_app, drops_cons, drops_vacated, Hb. cbn.
      rewrite list_elem_of_singleton. destruct (decide (a = b)); tauto.
  - assert (forall a, ~ drops p [b] t a) as Hb.
    { intros a D. apply Hd. unfold drops in *. rewrite list_elem_of_singleton in *. naive_solver. }
    assert (forall a, drops p (b :: l) t a <-> drops p l t a) as Hc.
    { intros a. rewrite drops_cons. specialize (Hb a). tauto. }
    split_and!; [intros a|intros k|intros a|exact H4].
    + rewrite H1. apply decide_ext. now rewrite Hc.
    + rewrite H2. apply decide_ext. now rewrite Hc.
    + now rewrite H3, Hc.
Qed.

Lemma elem_of_own_entries p i (s : St R) a :
  a ∈ own_entries p i s <-> is_Some (connection_scoped_claims s !! (p, i, a)).
Proof.
  unfold own_entries. rewrite list_elem_of_fmap. split.
  - intros ([[[q j] b] g] & -> & H). apply elem_of_map_to_list, map_lookup_filter_Some in H as [H E].
    cbn in *. simplify_eq. eauto.
  - intros [g H]. exists (p, i, a, g). split; [done|].
    apply elem_of_map_to_list, map_lookup_filter_Some. auto.
Qed.

Lemma covered_false p (s : St R) a :
  covered p s a = false <-> forall j, connection_scoped_claims s !! (p, j, a) = None.
Proof.
  unfold covered. rewrite bool_decide_eq_false. split.
  - intros H j. apply dec_stable in H. apply eq_None_not_Some. intros [g Hg].
    assert (filter (fun kv : PeerId * Z * SocketAddr * Z => kv.1.1.1 = p /\ kv.1.2 = a)
              (connection_scoped_claims s) !! (p, j, a) = Some g) as H'
      by now apply map_lookup_filter_Some.
    rewrite H in H'. now rewrite lookup_empty in H'.
  - intros H E. apply E. apply map_empty. intros [[q j] b]. apply map_lookup_filter_None.
    right. cbn. intros g Hg [-> ->]. rewrite H in Hg. done.
Qed.

Lemma abandoned_drops p i s a :
  owner_inv s ->
  let s1 := set_receipts (filter (fun kv => kv.1.1 <> (p, i))) s in
  drops p (List.filter (fun a => negb (covered p s1 a)) (own_entries p i s)) s1 a
  <-> abandoned p i s a.
Proof.
  intros Hi s1. unfold drops, abandoned.
  rewrite list_elem_of_In, filter_In, <- list_elem_of_In, elem_of_own_entries, negb_true_iff,
    covered_false.
  assert ((forall j, connection_scoped_claims s1 !! (p, j, a) = None)
          <-> (forall j, j <> i -> connection_scoped_claims s !! (p, j, a) = None)) as Hc.
  { cbn. split; intros H j; [intros Hj; specialize (H j)|]; rewrite map_lookup_filter_None in *;
      cbn in *.
    - destruct H as [H|H]; [done|]. apply eq_None_not_Some. intros [g Hg].
      apply (H g Hg). congruence.
    - destruct (decide (j = i)) as [->|Hj]; [right; congruence|left; auto]. }
  rewrite Hc. assert (is_Some (connection_scoped_claims s !! (p, i, a)) -> owner_at s1 a = Some p).
  { intros [g Hg]. now apply (ci_receipts _ (oi_core _ _ Hi)) in Hg. }
  cbn in *. tauto.
Qed.

(** C6: tearing down one physical session releases exactly what only it held.
    After [release_session p i] no receipt of the session is left; an address
    is vacated iff the session claimed it, no other session of the peer covers
    it and it is not pinned, and those are the addresses reported; every other
    address keeps its owner and every other session keeps its receipts. *)
Theorem release_session_exact p i s released s' :
  reachable s -> release_session hash p i s = (released, s') ->
  (forall a, connection_scoped_claims s' !! (p, i, a) = None)
  /\ (forall a, a ∈ released.*1 <-> abandoned p i s a)
  /\ (forall a, abandoned p i s a -> owner_at s' a = None)
  /\ (forall a, ~ abandoned p i s a -> owner_at s' a = owner_at s a)
  /\ (forall q j a, (q, j) <> (p, i) ->
        connection_scoped_claims s' !! (q, j, a) = connection_scoped_claims s !! (q, j, a)).
Proof.
  intros Hr E. pose proof (reachable_inv _ _ Hr) as Hi. unfold release_session in E.
  pose proof (abandoned_drops p i s) as Hd. cbv zeta in Hd.
  apply release_loop in E as (H1 & H2 & H3 & _).
  split_and!; intros.
  - rewrite H2. case_decide; [done|]. apply map_lookup_filter_None. right. cbn. naive_solver.
  - rewrite H3, Hd by done. cbn. rewrite elem_of_nil. tauto.
  - rewrite H1, decide_True by now apply Hd. done.
  - rewrite H1, decide_False; [done|]. rewrite Hd; done.
  - rewrite H2. cbn. destruct (decide _) as [D|D]; cbn in D.
    + rewrite Hd in D by done. destruct D as ([g Hg] & Hj & _). symmetry.
      apply (ci_receipts _ (oi_core _ _ Hi)) in Hg as [Hg _].
      destruct (decide (q = p)) as [->|Hq]; [apply Hj; congruence|].
      apply eq_None_not_Some. intros [g' Hg']. apply (ci_receipts _ (oi_core _ _ Hi)) in Hg'.
      destruct Hg'. congruence.
    + rewrite map_lookup_filter. destruct (connection_scoped_claims s !! (q, j, a)); [|done].
      cbn. now rewrite option_guard_True.
Qed.

(** ** Publication *)

(** What the lock-free readers see agrees with the owner's tables. *)
Record coherent (s : St R) : Prop := {
  co_claim a p g : claim_is_current hash (snapshot s) a p g = true
     <-> owner_at s a = Some p /\ claim_generation s !! a = Some g;
  co_token a : current_ownership_token a s = Some (ownership_token hash (snapshot s) a);
  co_pin a p : pin_is_current hash (snapshot s) a p = true <-> operator_pinned s !! a = Some p;
  co_by_peer a p : pinned_addr_for (snapshot s) p = Some a
     <-> pin_is_current hash (snapshot s) a p = true;
  co_routed r a : routing s = Some r -> routed r a = snap_peer_id hash (snapshot s) a;
}.


(** ** Pins outlive connections *)
Definition held (a : SocketAddr) (p : PeerId) (s : St R) : Prop :=
  operator_pinned s !! a = Some p /\ owner_at s a = Some p.

(** Only an operator's reconfiguration or a migration may move a pin. *)
Definition operator_command (cmd : OwnerCommand) : bool :=
  match cmd with CmdConfigurePeer _ _ _ | CmdMigrate _ _ _ _ => true | _ => false end.

Lemma held_claim a p b c l s :
  core_inv s -> held a p s -> held a p (claim hash b c l s).2.
Proof.
  intros Hc [Hp Ho]. destruct (claim_spec hash b c l s) as [[w ->]|(d & cr & -> & _ & Ha)];
    [done|]. destruct (claim_owner_verified _ _ _ _ Hc Ha) as [_ Hs].
  split; [exact Hp|]. cbn [snd]. rewrite owner_at_claimed. case_decide; [subst|done].
  cbn. f_equal. symmetry. auto.
Qed.

Lemma held_release a p b q g s : held a p s -> held a p (release hash b q g s).2.
Proof.
  intros [Hp Ho]. unfold release. case_decide as Hb; [done|]. destruct (negb _); [done|].
  rewrite vacate_spec. destruct (addr_ownership s !! b) as [o|]; [|done]. split; [exact Hp|].
  cbn. rewrite owner_at_vacated, decide_False; [done|]. intros <-. apply Hb. eauto.
Qed.

Lemma held_release_dead_peer a p b q t s :
  held a p s -> held a p (release_dead_peer hash q b t s).2.
Proof.
  intros [Hp Ho]. unfold release_dead_peer. destruct (_ && _); [done|].
  destruct (_ && _); [done|]. case_decide as Hb; [done|]. destruct (negb _); [done|].
  rewrite vacate_spec. destruct (addr_ownership _ !! b) as [o|]; [|done].
  split; [exact Hp|]. cbn. rewrite owner_at_vacated, decide_False; [done|].
  intros <-. apply Hb. cbn. eauto.
Qed.

Lemma held_release_session a p q i s : held a p s -> held a p (release_session hash q i s).2.
Proof.
  intros [Hp Ho]. destruct (release_session hash q i s) as [rel s'] eqn:E.
  unfold release_session in E. apply release_loop in E as (H1 & _ & _ & H4).
  split; cbn; [now rewrite H4|]. rewrite H1. rewrite decide_False; [done|].
  intros (_ & D & _). cbn in D. congruence.
Qed.

(** C5: nothing but an operator changes a pinned address.  From a reachable
    state in which [a] is pinned to [p], every command that is neither a
    reconfiguration nor a migration (a peer's claim, a release, a session's
    teardown, a dead-peer release, a reap reservation) leaves [a] pinned to
    [p] and owned by [p]. *)
Theorem pin_survives s cmd s' a p :
  reachable s -> operator_pinned s !! a = Some p -> operator_command cmd = false ->
  handle cmd s = Some s' ->
  operator_pinned s' !! a = Some p /\ owner_at s' a = Some p.
Proof.
  intros Hr Hp Hcmd H. pose proof (reachable_inv _ _ Hr) as Hi.
  pose proof (oi_core _ _ Hi) as Hc.
  assert (held a p s) as Hh by (split; [done|now apply (pi_owned _ (oi_pin _ _ Hi))]).
  clear Hr Hp Hi. fold (held a p s'). destruct cmd; try done; cbn in H; simplify_eq;
    auto using held_claim, held_release, held_release_dead_peer, held_release_session.
  - unfold claim_connection_scoped. pose proof (held_claim a p addr c false s Hc Hh) as Hk.
    destruct (claim hash addr c false s) as [[] s1]; cbn; case_decide; exact Hk.
  - unfold reserve_for_reap in H. destruct Hh. repeat case_match; simplify_eq/=; done.
  - unfold set_ordinary_connect_route. destruct Hh. repeat case_match; done.
  - unfold note_liveness_evidence, invalidate_reap_reservation. destruct Hh.
    repeat case_match; done.
Qed.

End Props.

(** ** Witnesses *)

(** Alice holds [home], as a pinned address, and [away], covered by the
    sessions 1 and 2, and [other], covered by session 1 only. *)
Definition settled : list OwnerCommand :=
  [ CmdConfigurePeer home alice None;
    CmdClaimConnectionScoped home (mkClaim alice Verified) 1 10;
    CmdClaimConnectionScoped away (mkClaim alice Verified) 1 10;
    CmdClaimConnectionScoped away (mkClaim alice Verified) 2 20;
    CmdClaimConnectionScoped other (mkClaim alice Verified) 1 30 ].

Lemma ownership_never_displaced_witness :
  let s := after settled in
  let s' := after (settled ++ [CmdClaim away (mkClaim bob Verified) false]) in
  owner_at s away = Some alice /\ keeps away s s'.
Proof.
  cbv zeta. split; [evaluate|]. eapply (ownership_never_displaced port_hash (after settled)); [reached| |].
  - eapply step_command, after_snoc; evaluate.
  - evaluate.
Defined.


Lemma pin_survives_witness :
  let s := after (settled ++ [CmdReleaseSession alice 1]) in
  operator_pinned s !! home = Some alice /\ owner_at s home = Some alice.
Proof.
  cbv zeta. eapply (pin_survives port_hash (after settled) (CmdReleaseSession alice 1)).
  - reached.
  - evaluate.
  - reflexivity.
  - apply after_snoc; evaluate.
Defined.

Lemma release_session_exact_witness :
  let s' := (release_session port_hash alice 1 (after settled)).2 in
  (release_session port_hash alice 1 (after settled)).1 = [(other, 6)]
  /\ owner_at s' other = None /\ owner_at s' away = Some alice
  /\ connection_scoped_claims s' !! (alice, 2, away) = Some 4.
Proof.
  cbv zeta. split; [vm_compute; reflexivity|].
  destruct (release_session_exact port_hash alice 1 (after settled) _ _
              ltac:(reached) (surjective_pairing _)) as (_ & H2 & H3 & H4 & H5).
  split_and!.
  - apply H3, H2. apply (bool_decide_eq_true_1 _). evaluate.
  - rewrite H4; [vm_compute; reflexivity|]. rewrite <- H2.
    apply (bool_decide_eq_true_1 _). evaluate.
  - rewrite H5 by discriminate. vm_compute. reflexivity.
Defined.
