(* ===== verification/RegistryOwnerReap.v ===== *)
(** * The reap protocol of the registry owner

    A dead-peer reap reserves an address, leaves the owner task, and returns
    with the guard's decision.  The theorems state what a reservation freezes
    and that the guard's atomic cell makes the decision linearisable against
    liveness evidence. *)

From S2P Require Import Prelude Types AddrOwnership RoutingSnapshot RegistryOwner.
From S2P Require Import RegistryOwnerInv RouteIndex OwnerScenario.

Section Reap.
Context {R : Type} `{!RoutingPublisher R} `{!RoutingLaws R}.
Context (hash : SocketAddr -> Z).
Abbreviation owner_step := (owner_step hash).
Abbreviation reachable := (reachable hash).
Abbreviation owner_inv := (owner_inv hash).
Abbreviation handle := (handle hash).

(** ** What a step may do to a reserved address *)

(** The pin stays, and the ownership record with its generation stays or goes. *)
Definition frozen (a : SocketAddr) (s s' : St R) : Prop :=
  operator_pinned s' !! a = operator_pinned s !! a
  /\ ((addr_ownership s' !! a = addr_ownership s !! a
       /\ claim_generation s' !! a = claim_generation s !! a)
      \/ addr_ownership s' !! a = None).

Lemma frozen_refl a s : frozen a s s.
Proof. split; auto. Qed.

Lemma frozen_trans a s t u : frozen a s t -> frozen a t u -> frozen a s u.
Proof.
  unfold frozen. intros [-> [[Ho Hg]|Ho]] [-> [[Ho' Hg']|Ho']]; split; auto; first [right; congruence | left; split; congruence].
Qed.

(** Agreement on the three tables is enough. *)
Lemma frozen_same a s s' :
  operator_pinned s' = operator_pinned s -> addr_ownership s' = addr_ownership s ->
  claim_generation s' = claim_generation s -> frozen a s s'.
Proof. unfold frozen. intros -> -> ->. auto. Qed.

Lemma frozen_vacate a b s seq s' : vacate hash b s = Some (seq, s') -> frozen a s s'.
Proof.
  rewrite vacate_spec. destruct (addr_ownership s !! b) as [o|]; [|done]. intros [= _ <-].
  unfold frozen. cbn. rewrite !lookup_delete. split; [done|]. case_decide; auto.
Qed.

Lemma claim_reserved b c l s :
  is_Some (reap_reserved s !! b) -> claim hash b c l s = (Rejected ReapInProgress, s).
Proof. intros H. unfold claim. now rewrite decide_True. Qed.

Lemma frozen_claim a b c l s :
  is_Some (reap_reserved s !! a) -> frozen a s (claim hash b c l s).2.
Proof.
  intros Hr. destruct (decide (b = a)) as [->|Hb].
  { rewrite claim_reserved by done. apply frozen_refl. }
  destruct (claim_spec hash b c l s) as [[w ->]|(d & cr & -> & _)]; [apply frozen_refl|].
  unfold frozen. cbn. rewrite !lookup_insert_ne by done. auto.
Qed.

Lemma frozen_release_session a p i s : frozen a s (release_session hash p i s).2.
Proof.
  unfold release_session.
  assert (forall l acc, frozen a acc.2 (foldl (release_uncovered hash p) acc l).2) as H.
  { induction l as [|b l IH]; intros [rel t]; [apply frozen_refl|]. cbn [foldl].
    eapply frozen_trans; [|apply IH]. cbn.
    case_decide; [apply frozen_refl|]. destruct (negb _); [apply frozen_refl|].
    destruct (vacate hash b t) as [[seq t']|] eqn:E; [|apply frozen_refl].
    cbn. eapply frozen_vacate; eauto. }
  eapply frozen_trans; [|apply H]. now apply frozen_same.
Qed.

Lemma frozen_release_dead_peer a p b t s : frozen a s (release_dead_peer hash p b t s).2.
Proof.
  unfold release_dead_peer. destruct (_ && _); [apply frozen_refl|].
  destruct (_ && _); [apply frozen_refl|]. set (s1 := set_receipts _ s).
  case_decide; [now apply frozen_same|]. destruct (negb _); [now apply frozen_same|].
  destruct (vacate hash b s1) as [[seq s2]|] eqn:E; [|now apply frozen_same].
  apply (frozen_vacate a) in E. exact E.
Qed.

Lemma frozen_release_evicted a p e s : frozen a s (release_evicted hash p e s).2.
Proof.
  destruct e as [e|]; [|apply frozen_refl]. cbn. set (s1 := set_receipts _ s).
  destruct (owned_by p e s1); [|now apply frozen_same].
  destruct (vacate hash e s1) as [[q s2]|] eqn:E; [|now apply frozen_same].
  apply (frozen_vacate a) in E. exact E.
Qed.

(** A pin moves from [e] to [b]: any other address keeps its pin. *)
Lemma frozen_configure_commit a b p g s :
  owner_inv s -> is_Some (reap_reserved s !! a) ->
  (pinned_by_peer s !! p = Some a -> a = b) ->
  frozen a s (configure_commit hash b p g s).2.
Proof.
  intros Hi Hr He. unfold configure_commit. set (c := mkClaim p Verified).
  pose proof (claim_inv hash b c false s Hi) as H1.
  pose proof (frozen_claim a b c false s Hr) as H2.
  destruct (decide (b = a)) as [->|Hb]; [rewrite claim_reserved by done; apply frozen_refl|].
  destruct (claim_spec hash b c false s) as [[w E]|(d & cr & E & _)]; rewrite E in *;
    cbn [negb is_accepted snd] in *; [done|].
  set (s1 := claimed hash _ _ s) in *.
  assert (owner_at s1 b = Some p) as Ho
    by (unfold s1; rewrite owner_at_claimed; now rewrite decide_True).
  rewrite (install_pin_spec hash b p s1 H1 Ho).
  pose proof (frozen_release_evicted a p (evicted_pin b p s1) (pinned_state hash b p s1)) as H3.
  destruct (release_evicted hash p _ _) as [seq s3]. cbn [snd] in *.
  eapply frozen_trans; [exact H2|]. eapply frozen_trans; [|exact H3].
  split; [|now left]. rewrite lookup_pinned_state, decide_False by done.
  rewrite decide_False; [done|]. intros Hev.
  destruct (evicted_Some hash b p s1 H1 a Hev) as (_ & Hq & _). apply Hb. symmetry. exact (He Hq).
Qed.

Lemma frozen_configure a b p g s :
  owner_inv s -> is_Some (reap_reserved s !! a) -> frozen a s (configure_peer hash b p g s).2.
Proof.
  intros Hi Hr. unfold configure_peer.
  match goal with |- context [if ?x then (_, s) else _] => destruct x eqn:Hx; [apply frozen_refl|] end.
  assert (pinned_by_peer s !! p = Some a -> a = b) as He.
  { intros E. rewrite E in Hx. apply bool_decide_eq_false in Hx.
    destruct (decide (a = b)); [done|]. exfalso. auto. }
  destruct g as [g|]; [destruct (_ <? _); [apply frozen_refl|]|].
  - now apply frozen_configure_commit.
  - eapply frozen_trans; [|apply frozen_configure_commit];
      [now apply frozen_same|now apply set_configured_inv|done|done].
Qed.

Lemma frozen_handle a cmd s s' :
  owner_inv s -> is_Some (reap_reserved s !! a) -> handle cmd s = Some s' -> frozen a s s'.
Proof.
  intros Hi Hr H. destruct cmd; cbn in H; simplify_eq;
    auto using frozen_claim, frozen_release_session, frozen_release_dead_peer, frozen_configure.
  - unfold release. case_decide; [apply frozen_refl|]. destruct (negb _); [apply frozen_refl|].
    destruct (vacate hash addr s) as [[q s2]|] eqn:E; [|apply frozen_refl].
    cbn. eapply frozen_vacate; eauto.
  - destruct (migrate_spec hash from to expected is_local_addr s Hi)
      as [(out & -> & _)|(o & _ & _ & Hf & Ht & _ & _ & ->)]; [apply frozen_refl|].
    assert (from <> a /\ to <> a) as [Hfa Hta]
      by (split; intros ->; rewrite ?Hf, ?Ht in Hr; now destruct Hr).
    unfold frozen. cbn. rewrite !lookup_insert_ne, !lookup_delete_ne by done. split; [|auto].
    destruct (operator_pinned s !! from); [|done].
    now rewrite lookup_insert_ne, lookup_delete_ne.
  - unfold claim_connection_scoped. pose proof (frozen_claim a addr c false s Hr) as Hk.
    destruct (claim hash addr c false s) as [[] s1]; cbn; case_decide; exact Hk.
  - unfold reserve_for_reap in H. repeat case_match; simplify_eq/=; now apply frozen_same.
  - now apply frozen_same.
  - unfold set_ordinary_connect_route. repeat case_match; now apply frozen_same.
  - unfold note_liveness_evidence, invalidate_reap_reservation.
    repeat case_match; now apply frozen_same.
Qed.

(** A reservation freezes the address it covers.  While an address is
    reserved for reaping, no step changes its pin, gives it a new owner or
    renews its generation: its ownership record and generation are as the
    reaper saw them, or the record is gone. *)
Theorem reservation_freezes s s' a :
  reachable s -> is_Some (reap_reserved s !! a) -> owner_step s s' -> frozen a s s'.
Proof.
  intros Hr Ha Hs. pose proof (reachable_inv _ _ Hr) as Hi. clear Hr. revert Hi Ha.
  destruct Hs as [s0 cmd s1 H|s0 c|s0]; intros Hi Ha.
  - eapply frozen_handle; eauto.
  - unfold try_consume. repeat case_match; now apply frozen_same.
  - now apply frozen_same.
Qed.

(** ** The guard's cell *)

(** Most commands do not touch reservations. *)
Definition same_reap (s s' : St R) : Prop :=
  reap_cells s' = reap_cells s /\ reap_reserved s' = reap_reserved s.

Lemma same_reap_refl s : same_reap s s.
Proof. done. Qed.

Lemma same_reap_trans s t u : same_reap s t -> same_reap t u -> same_reap s u.
Proof. unfold same_reap. intros [-> ->] [-> ->]. done. Qed.

Lemma same_reap_claim b c l s : same_reap s (claim hash b c l s).2.
Proof. now destruct (claim_spec hash b c l s) as [[w ->]|(d & cr & -> & _)]. Qed.

Lemma same_reap_vacate b s seq s' : vacate hash b s = Some (seq, s') -> same_reap s s'.
Proof.
  rewrite vacate_spec. destruct (addr_ownership s !! b) as [o|]; [|done]. now intros [= _ <-].
Qed.

Lemma same_reap_release_session p i s : same_reap s (release_session hash p i s).2.
Proof.
  unfold release_session.
  assert (forall l acc, same_reap acc.2 (foldl (release_uncovered hash p) acc l).2) as H.
  { induction l as [|b l IH]; intros [rel t]; [done|]. cbn [foldl].
    eapply same_reap_trans; [|apply IH]. cbn. case_decide; [done|]. destruct (negb _); [done|].
    destruct (vacate hash b t) as [[seq t']|] eqn:E; [|done]. now apply same_reap_vacate in E. }
  eapply same_reap_trans; [|apply H]. done.
Qed.

Lemma same_reap_configure_commit b p g s : same_reap s (configure_commit hash b p g s).2.
Proof.
  unfold configure_commit. pose proof (same_reap_claim b (mkClaim p Verified) false s) as H1.
  destruct (claim hash b _ false s) as [commit s1]. destruct (negb _); [done|].
  assert (same_reap s1 (install_pin hash b p s1).2) as H2 by done.
  destruct (install_pin hash b p s1) as [e s2]. destruct e as [e|]; cbn [release_evicted].
  - set (s3 := set_receipts _ s2).
    assert (same_reap s s3) as H3
      by (eapply same_reap_trans; [exact H1|]; eapply same_reap_trans; [exact H2|done]).
    destruct (owned_by p e s3); [|exact H3].
    destruct (vacate hash e s3) as [[q s4]|] eqn:E; [|exact H3].
    eapply same_reap_trans; [exact H3|]. eapply same_reap_vacate; eauto.
  - eapply same_reap_trans; [exact H1|exact H2].
Qed.

(** A decided cell stays decided. *)
Definition decided (c : nat) (v : ReapState) (s : St R) : Prop :=
  reap_cells s !! c = Some v /\ v <> REAP_PENDING.

Lemma decided_write c v c' s :
  reap_cells s !! c' = Some REAP_PENDING -> decided c v s ->
  forall v', decided c v (set_reserved id <[c' := v']> s).
Proof.
  intros Hp [H Hv] v'. split; [|done]. cbn. rewrite list_lookup_insert_ne; [done|]. congruence.
Qed.

Lemma decided_same c v s s' : same_reap s s' -> decided c v s -> decided c v s'.
Proof. unfold decided. now intros [-> _]. Qed.

Lemma handle_same_reap cmd s s' :
  owner_inv s -> handle cmd s = Some s' ->
  match cmd with
  | CmdReserveForReap _ _ _ _ _ | CmdReleaseReapReservation _ | CmdNoteLivenessEvidence _ _ => True
  | _ => same_reap s s'
  end.
Proof.
  intros Hi H. destruct cmd; try done; cbn in H; simplify_eq;
    auto using same_reap_claim, same_reap_release_session.
  - unfold release. case_decide; [done|]. destruct (negb _); [done|].
    destruct (vacate hash addr s) as [[q s2]|] eqn:E; [|done]. now apply same_reap_vacate in E.
  - now destruct (migrate_spec hash from to expected is_local_addr s Hi)
      as [(out & -> & _)|(o & _ & _ & _ & _ & _ & _ & ->)].
  - unfold claim_connection_scoped. pose proof (same_reap_claim addr c false s) as Hk.
    destruct (claim hash addr c false s) as [[] s1]; cbn; case_decide; exact Hk.
  - unfold release_dead_peer. destruct (_ && _); [done|]. destruct (_ && _); [done|].
    set (s1 := set_receipts _ s). case_decide; [done|]. destruct (negb _); [done|].
    destruct (vacate hash addr s1) as [[seq s2]|] eqn:E; [|done].
    now apply same_reap_vacate in E.
  - unfold configure_peer.
    match goal with |- context [if ?x then (_, s) else _] => destruct x; [done|] end.
    destruct expected_generation as [g|]; [destruct (_ <? _); [done|]|];
      (eapply same_reap_trans; [|apply same_reap_configure_commit]); done.
  - unfold set_ordinary_connect_route. now repeat case_match.
Qed.

Lemma decided_step c v s s' :
  owner_inv s -> owner_step s s' -> decided c v s -> decided c v s'.
Proof.
  intros Hi Hs. revert Hi. destruct Hs as [s0 cmd s1 H|s0 c'|s0]; intros Hi Hd.
  - pose proof (handle_same_reap cmd s0 s1 Hi H) as Hk.
    destruct cmd; try exact (decided_same _ _ _ _ Hk Hd); clear Hk; cbn in H.
    + unfold reserve_for_reap in H. destruct Hd as [Hc Hv].
      split; [|done]. repeat case_match; simplify_eq/=; try done; now apply lookup_app_l_Some.
    + now simplify_eq.
    + simplify_eq. unfold note_liveness_evidence, invalidate_reap_reservation. cbn.
      destruct (reap_reserved s0 !! addr) as [c'|]; [|done]. cbn.
      destruct (reap_cells s0 !! c') as [[]|] eqn:E; try done. now apply decided_write.
  - unfold try_consume. destruct (reap_cells s0 !! c') as [[]|] eqn:E; try done.
    now apply decided_write.
  - done.
Qed.

Lemma decided_star c v s s' :
  owner_inv s -> star owner_step s s' -> decided c v s -> decided c v s'.
Proof.
  intros Hi H. revert Hi. induction H as [|s t u Hst _ IH]; intros Hi Hd; [done|].
  apply IH; [now apply (owner_step_inv _ _ _ Hi)|]. now apply (decided_step _ _ _ _ Hi Hst).
Qed.

Lemma consume_decided c v s : decided c v s -> try_consume c s = (false, s).
Proof. unfold try_consume. intros [-> Hv]. now destruct v. Qed.

(** C7: the reservation's cell linearises a reap against liveness evidence.
    Evidence the owner processes for a reserved address before the guard has
    consumed its reservation makes every later consume fail, whatever steps
    intervene.  Once a guard has consumed its reservation it can never be
    consumed again, and as long as the address stays reserved under it the
    final release is no longer refused for evidence. *)
Theorem reap_linearised s a c :
  reachable s -> reap_reserved s !! a = Some c ->
  (forall t s', ~ decided c REAP_COMMITTED s ->
     star owner_step (note_liveness_evidence a t s) s' -> (try_consume c s').1 = false)
  /\ (forall s1 s', try_consume c s = (true, s1) -> star owner_step s1 s' ->
        (try_consume c s').1 = false
        /\ (reap_reserved s' !! a = Some c ->
            forall p t, (release_dead_peer hash p a t s').1 <> ProvenAlive)).
Proof.
  intros Hr Ha. pose proof (reachable_inv _ _ Hr) as Hi. split.
  - intros t s' Hn Hs. rewrite (consume_decided c REAP_INVALIDATED); [done|].
    apply (decided_star _ _ _ _ (note_liveness_evidence_inv hash a t s Hi) Hs).
    destruct (ri_cell _ (oi_reap _ _ Hi) _ _ Ha) as [v Hv].
    unfold note_liveness_evidence, invalidate_reap_reservation. cbn. rewrite Ha. cbn.
    rewrite Hv. destruct v; [|now destruct Hn|split; [exact Hv|done]].
    split; [|done]. cbn. apply list_lookup_insert_eq. now apply lookup_lt_Some in Hv.
  - intros s1 s' Hc Hs.
    assert (owner_inv s1) as H1.
    { replace s1 with (try_consume c s).2 by now rewrite Hc. now apply try_consume_inv. }
    assert (decided c REAP_COMMITTED s1) as Hd.
    { unfold try_consume in Hc. destruct (reap_cells s !! c) as [[]|] eqn:E; simplify_eq.
      split; [|done]. cbn. apply list_lookup_insert_eq. now apply lookup_lt_Some in E. }
    apply (decided_star _ _ _ _ H1 Hs) in Hd. split; [now rewrite (consume_decided _ _ _ Hd)|].
    intros Ha' p t. unfold release_dead_peer.
    assert (reap_committed a s' = true) as ->
      by (unfold reap_committed; rewrite Ha'; cbn; rewrite (proj1 Hd); done).
    cbn [negb andb]. case_decide; [done|]. destruct (negb _); [done|].
    destruct (vacate hash a _) as [[]|]; done.
Qed.

End Reap.

(** ** Witnesses *)

(** Alice's address is reserved by a reaper that saw generation 1. *)
Definition reserved : list OwnerCommand :=
  [ CmdClaimConnectionScoped away (mkClaim alice Verified) 1 10;
    CmdReserveForReap away 50 (Some (mkToken alice 1)) None (Some alice) ].

Lemma reservation_freezes_witness :
  let s := after reserved in
  let s' := after (reserved ++ [CmdConfigurePeer away alice None]) in
  reap_reserved s !! away = Some 0%nat /\ frozen away s s'.
Proof.
  cbv zeta. split; [evaluate|].
  apply (reservation_freezes port_hash (after reserved)); [reached| |].
  - eexists. evaluate.
  - eapply step_command, after_snoc; evaluate.
Defined.

Lemma reap_linearised_witness :
  let s := after reserved in
  (try_consume 0 (note_liveness_evidence away 60 s)).1 = false
  /\ (try_consume 0 s).1 = true
  /\ (release_dead_peer port_hash alice away 50 (try_consume 0 s).2).1 <> ProvenAlive.
Proof.
  cbv zeta. destruct (reap_linearised port_hash (after reserved) away 0) as [H1 H2];
    [reached|evaluate|].
  split_and!.
  - apply (H1 60); [|apply star_refl]. intros [H _].
    assert (reap_cells (after reserved) !! 0%nat = Some REAP_PENDING) as E by evaluate. congruence.
  - evaluate.
  - refine (proj2 (H2 _ _ _ (star_refl _ _)) _ alice 50); [|evaluate].
    rewrite (surjective_pairing (try_consume 0 (after reserved))) at 1. f_equal.
Defined.
