(* ===== verification/RegistryOwnerConfig.v ===== *)
(** * Configuration and migration by the registry owner

    The functional behaviour of the two commands an operator or a DNS refresh
    issues: [configure_peer] moves a peer's pin and [migrate] moves an address
    with everything attached to it. *)

From S2P Require Import Prelude Types AddrOwnership RoutingSnapshot RegistryOwner.
From S2P Require Import RegistryOwnerInv RouteIndex OwnerScenario.

Section Config.
Context {R : Type} `{!RoutingPublisher R} `{!RoutingLaws R}.
Context (hash : SocketAddr -> Z).
Abbreviation reachable := (reachable hash).
Abbreviation owner_inv := (owner_inv hash).

(** ** [configure_peer] *)

(** The pin the reconfiguration moves away. *)
Definition previous_pin (b : SocketAddr) (p : PeerId) (s : St R) : option SocketAddr :=
  match pinned_by_peer s !! p with
  | Some e => if decide (e = b) then None else Some e
  | None => None
  end.

(** Every table but the configuration counter. *)
Definition same_tables (s s' : St R) : Prop :=
  exists f, s' = set_configured f s.

(** What an accepted reconfiguration leaves. *)
Record configured (b : SocketAddr) (p : PeerId) (s : St R) (commit : ConfigurePeerCommit)
    (s' : St R) : Prop := {
  cf_evicted : cc_evicted_pin commit = previous_pin b p s;
  cf_owner a : owner_at s' a = if decide (b = a) then Some p
                               else if decide (previous_pin b p s = Some a) then None
                               else owner_at s a;
  cf_pin a : operator_pinned s' !! a = if decide (b = a) then Some p
                                       else if decide (previous_pin b p s = Some a) then None
                                       else operator_pinned s !! a;
  cf_by_peer : pinned_by_peer s' !! p = Some b;
  cf_receipts e k : previous_pin b p s = Some e -> k.2 = e ->
                    connection_scoped_claims s' !! k = None;
}.

Lemma release_evicted_owned p e s :
  owner_at s e = Some p ->
  exists o, release_evicted hash p (Some e) s
    = (Some (next_seq s),
       vacated hash e o (set_receipts (filter (fun kv => ~ (kv.1.1.1 = p /\ kv.1.2 = e))) s)).
Proof.
  intros Ho. cbn. set (s1 := set_receipts _ s).
  assert (owned_by p e s1 = true) as -> by now apply owned_by_true.
  rewrite vacate_spec. unfold owner_at in Ho. change (addr_ownership s1) with (addr_ownership s).
  destruct (addr_ownership s !! e) as [o|]; [|done]. now exists o.
Qed.

Lemma configure_commit_spec b p g s commit s' :
  owner_inv s -> configure_commit hash b p g s = (commit, s') ->
  if is_accepted (cc_claim commit) then configured b p s commit s' else s' = s.
Proof.
  intros Hi. unfold configure_commit. set (c := mkClaim p Verified).
  pose proof (claim_inv hash b c false s Hi) as H1.
  destruct (claim_spec hash b c false s) as [[w E]|(d & cr & E & _)]; rewrite E in *;
    cbn [negb is_accepted snd] in *; [now intros [= <- <-]|].
  set (s1 := claimed hash _ _ s) in *.
  assert (owner_at s1 b = Some p) as Ho
    by (unfold s1; rewrite owner_at_claimed; now rewrite decide_True).
  rewrite (install_pin_spec hash b p s1 H1 Ho).
  pose proof (evicted_Some hash b p s1 H1) as Hev.
  change (evicted_pin b p s1) with (previous_pin b p s) in *.
  assert (forall a, owner_at s1 a = if decide (b = a) then Some p else owner_at s a) as H2
    by (intros a; unfold s1; now rewrite owner_at_claimed).
  pose proof (lookup_pinned_state hash b p s1) as Hpin.
  change (evicted_pin b p s1) with (previous_pin b p s) in *.
  destruct (previous_pin b p s) as [e|] eqn:Hp.
  - destruct (Hev e eq_refl) as (Hne & _ & Hpe).
    destruct (release_evicted_owned p e (pinned_state hash b p s1)) as [o Hrel];
      [now apply (pi_owned _ (oi_pin _ _ H1))|].
    rewrite Hrel. intros [= <- <-]. cbn [is_accepted cc_claim]. split; cbn [cc_evicted_pin].
    + done.
    + intros a. rewrite owner_at_vacated. rewrite Hp. change (owner_at (set_receipts _ _) a)
        with (owner_at s1 a). rewrite H2. repeat case_decide; naive_solver.
    + intros a. rewrite Hp. exact (Hpin a).
    + cbn. apply lookup_insert_eq.
    + intros e' k. rewrite Hp. intros [= <-] Hk. cbn. apply map_lookup_filter_None. right.
      intros g' _ H. now apply H.
  - intros [= <- <-]. cbn [is_accepted cc_claim]. split; cbn [cc_evicted_pin]; rewrite ?Hp.
    + done.
    + exact H2.
    + exact Hpin.
    + cbn. apply lookup_insert_eq.
    + done.
Qed.

(** An accepted [configure_peer] makes [p] the pinned, verified owner of
    [b] and of no other pinned address: the pin it held elsewhere is reported
    as evicted, its address is vacated and loses its receipts, and every other
    address keeps owner and pin.  A rejected one changes no table, and a retry
    older than the peer's current configuration is always rejected. *)
Theorem configure_peer_spec b p g s commit s' :
  reachable s -> configure_peer hash b p g s = (commit, s') ->
  (if is_accepted (cc_claim commit) then configured b p s commit s' else same_tables s s')
  /\ (forall e, g = Some e -> e < generation_of p s ->
        is_accepted (cc_claim commit) = false /\ s' = s).
Proof.
  intros Hr. pose proof (reachable_inv _ _ Hr) as Hi. unfold configure_peer.
  assert (same_tables s s) as Hs by (exists id; now destruct s).
  match goal with |- context [if ?x then (_, s) else _] => destruct x; [now intros [= <- <-]|] end.
  destruct g as [g|].
  - destruct (Z.ltb_spec g (generation_of p s)); [now intros [= <- <-]|].
    intros E. split; [|intros e [= <-]; lia].
    apply (configure_commit_spec _ _ _ _ _ _ Hi) in E.
    destruct (is_accepted _); [done|now subst].
  - intros E. split; [|done]. set (f := insert p _) in E.
    apply (configure_commit_spec _ _ _ _ _ _ (set_configured_inv hash f s Hi)) in E.
    destruct (is_accepted _); [|now exists f].
    destruct E as [E1 E2 E3 E4 E5]. split; [exact E1|exact E2|exact E3|exact E4|exact E5].
Qed.
(** ** [migrate] *)
Lemma foldl_receipts_lookup (peer : PeerId) (to : SocketAddr) (seq : Z) (l : list Z)
    (m : gmap (PeerId * Z * SocketAddr) Z) k :
  foldl (fun m conn => <[(peer, conn, to) := seq]> m) m l !! k
  = if decide (k.1.1 = peer /\ k.2 = to /\ k.1.2 ∈ l) then Some seq else m !! k.
Proof.
  revert m. induction l as [|c l IH]; intros m; cbn [foldl].
  { rewrite decide_False; [done|]. intros (_ & _ & H). now apply elem_of_nil in H. }
  rewrite IH, lookup_insert. destruct k as [[q i] a]. cbn. repeat case_decide;
    rewrite ?elem_of_cons in *; naive_solver.
Qed.

Lemma migrate_receipts_lookup peer from to seq m q i a :
  migrate_receipts peer from to seq m !! (q, i, a)
  = if decide (q = peer /\ a = to)
    then if decide (is_Some (m !! (peer, i, from)) \/ is_Some (m !! (peer, i, to)))
         then Some seq else None
    else if decide (a = from) then None else m !! (q, i, a).
Proof.
  unfold migrate_receipts. rewrite lookup_bump_receipts, foldl_receipts_lookup, map_lookup_filter.
  cbn. set (moved := _ <$> map_to_list _).
  assert (forall j, j ∈ moved <-> is_Some (m !! (peer, j, from))) as Hm.
  { intros j. unfold moved. rewrite list_elem_of_fmap. split.
    - intros ([[[q' j'] b] g] & -> & H).
      apply elem_of_map_to_list, map_lookup_filter_Some in H as [H [E1 E2]].
      cbn in *. subst. eauto.
    - intros [g H]. exists (peer, j, from, g). split; [done|].
      apply elem_of_map_to_list, map_lookup_filter_Some. auto. }
  destruct (decide (q = peer /\ a = to)) as [[-> ->]|Hq].
  - destruct (decide (is_Some (m !! (peer, i, from)))) as [Hf|Hf].
    + rewrite decide_True by (split_and!; auto; now apply Hm).
      cbn. now rewrite (decide_True (P := _ \/ _)) by auto.
    + rewrite decide_False by (intros (_ & _ & H); apply Hf, Hm, H).
      destruct (m !! (peer, i, to)) as [g|] eqn:E; cbn.
      * rewrite (decide_True (P := _ \/ _)) by eauto.
        rewrite option_guard_True; [done|]. intros ->. apply Hf. eauto.
      * rewrite (decide_False (P := _ \/ _)); [done|]. intros [H|[? H]]; [now apply Hf|done].
  - rewrite decide_False by naive_solver. destruct (m !! (q, i, a)) as [g|]; cbn;
      [|now case_decide].
    destruct (decide (a = from)); [now rewrite option_guard_False by auto|].
    now rewrite option_guard_True.
Qed.

(** What a successful migration leaves. *)
Record moved (from to : SocketAddr) (p : PeerId) (seq : Z) (s s' : St R) : Prop := {
  mv_source : owner_at s from = Some p;
  mv_target : owner_at s to = None \/ owner_at s to = Some p;
  mv_free : reap_reserved s !! from = None /\ reap_reserved s !! to = None;
  mv_owner a : owner_at s' a = if decide (to = a) then Some p
                               else if decide (from = a) then None else owner_at s a;
  mv_pin a : operator_pinned s' !! a
             = if decide (operator_pinned s !! from = Some p)
               then if decide (to = a) then Some p
                    else if decide (from = a) then None else operator_pinned s !! a
               else operator_pinned s !! a;
  mv_generation : claim_generation s' !! to = Some seq;
  mv_receipts q i a : connection_scoped_claims s' !! (q, i, a)
     = if decide (q = p /\ a = to)
       then if decide (is_Some (connection_scoped_claims s !! (p, i, from))
                       \/ is_Some (connection_scoped_claims s !! (p, i, to)))
            then Some seq else None
       else if decide (a = from) then None else connection_scoped_claims s !! (q, i, a);
}.

(** [migrate] moves an address as a whole or does nothing.  It succeeds
    only from an owned, unreserved source the caller described exactly to an
    unreserved target that is free or already the same peer's; then ownership,
    pin and session receipts are at the target, under one new generation, the
    source is vacant, and nothing else changed.  Every other outcome leaves
    the state as it was. *)
Theorem migrate_moves from to e l s outcome s' :
  reachable s -> migrate hash from to e l s = (outcome, s') ->
  match outcome with
  | Migrated seq => source_matches from e s = true /\ exists p, moved from to p seq s s'
  | _ => s' = s
  end.
Proof.
  intros Hr E. pose proof (reachable_inv _ _ Hr) as Hi.
  destruct (migrate_spec hash from to e l s Hi)
    as [(out & Hs & Hn)|(o & Ho & Hm & Hf & Ht & Hd & _ & Em)].
  - rewrite Hs in E. simplify_eq. destruct outcome; try done. now destruct (Hn commit_seq).
  - rewrite Em in E. simplify_eq. split; [done|]. exists (node_id o). split.
    + unfold owner_at. now rewrite Ho.
    + destruct (owner_at s to) as [q|] eqn:Hq; [right; f_equal; auto|auto].
    + auto.
    + apply owner_at_migrated.
    + intros a. cbn. destruct (operator_pinned s !! from) as [q|] eqn:Hp.
      * pose proof (pinned_at_from hash from o s Hi Ho q Hp) as ->.
        rewrite decide_True by done. rewrite lookup_insert, lookup_delete.
        repeat case_decide; done.
      * rewrite decide_False by congruence. done.
    + cbn. apply lookup_insert_eq.
    + intros q i a. cbn. apply migrate_receipts_lookup.
Qed.

End Config.

(** ** Witnesses *)
Definition pinned_home : list OwnerCommand :=
  [ CmdConfigurePeer home alice None;
    CmdClaimConnectionScoped away (mkClaim alice Verified) 1 10 ].

Lemma configure_peer_spec_witness :
  let '(commit, s') := configure_peer port_hash away alice None (after pinned_home) in
  configured away alice (after pinned_home) commit s'
  /\ cc_evicted_pin commit = Some home /\ owner_at s' home = None.
Proof.
  destruct (configure_peer port_hash away alice None (after pinned_home)) as [commit s'] eqn:E.
  pose proof (configure_peer_spec port_hash away alice None (after pinned_home) commit s'
                ltac:(reached) E) as [H _].
  assert (is_accepted (cc_claim commit) = true) as Ha.
  { replace commit with (configure_peer port_hash away alice None (after pinned_home)).1
      by now rewrite E. evaluate. }
  rewrite Ha in H. split; [exact H|]. destruct H as [H1 H2 _ _ _]. rewrite H1, H2.
  split; evaluate.
Defined.

Lemma migrate_moves_witness :
  let '(outcome, s') := migrate port_hash home other (Owned (mkToken alice 1)) false
                          (after pinned_home) in
  outcome = Migrated 3 /\ moved home other alice 3 (after pinned_home) s'.
Proof.
  destruct (migrate port_hash home other (Owned (mkToken alice 1)) false (after pinned_home))
    as [outcome s'] eqn:E.
  pose proof (migrate_moves port_hash home other (Owned (mkToken alice 1)) false
    (after pinned_home) outcome s' ltac:(reached) E) as H.
  assert (outcome = Migrated 3) as ->.
  { replace outcome with (migrate port_hash home other (Owned (mkToken alice 1)) false
      (after pinned_home)).1 by now rewrite E. evaluate. }
  split; [done|]. destruct H as (_ & p & H). destruct H as [Hs H2 H3 H4 H5 H6 H7].
  assert (owner_at (after pinned_home) home = Some alice) as Ho by evaluate.
  rewrite Ho in Hs. injection Hs as <-. now split.
Defined.
