(* ===== verification/CasCell.v ===== *)
(** * Copy-on-write cells updated by compare-and-swap loops

    The update loops of [VectorClock] (src/src/lib.rs) all have one shape: load
    the current [Arc], compute the next map (or leave the loop), and
    [compare_and_swap] it in, retrying when another writer got there first.
    The loaded guard keeps the old allocation alive, so a pointer comparison
    succeeds only if no write happened in between: the pointer is modelled by
    the number of writes so far. *)

From S2P Require Import Prelude.

Section CasCell.
Context {M : Type}.

(** The body of a loop: the next value, or [None] to leave without writing. *)
Definition Update := M -> option M.

Inductive Phase :=
  | Start                            (** about to load *)
  | Loaded (version : nat) (m : M)   (** holds a snapshot *)
  | Done.

Record Cell := mkCell {
  value : M;
  version : nat;
  threads : list (Update * Phase);
  (** the commits so far, oldest first: thread index and its update *)
  commits : list (nat * Update);
}.

Definition set_phase (i : nat) (u : Update) (p : Phase) (c : Cell) : Cell :=
  mkCell (value c) (version c) (<[i := (u, p)]> (threads c)) (commits c).

Inductive cas_step : Cell -> Cell -> Prop :=
  | cas_load c i u :
      threads c !! i = Some (u, Start) ->
      cas_step c (set_phase i u (Loaded (version c) (value c)) c)
  | cas_leave c i u v m :
      threads c !! i = Some (u, Loaded v m) -> u m = None ->
      cas_step c (set_phase i u Done c)
  | cas_commit c i u m m' :
      threads c !! i = Some (u, Loaded (version c) m) -> u m = Some m' ->
      cas_step c (mkCell m' (S (version c)) (<[i := (u, Done)]> (threads c))
                    (commits c ++ [(i, u)]))
  | cas_retry c i u v m m' :
      threads c !! i = Some (u, Loaded v m) -> u m = Some m' -> v <> version c ->
      cas_step c (set_phase i u Start c).

Definition cell_init (m : M) (us : list Update) : Cell :=
  mkCell m 0 ((fun u => (u, Start)) <$> us) [].

(** Running updates one after the other. *)
Definition apply_update (m : M) (u : Update) : M := default m (u m).
Definition run_updates (m : M) (us : list Update) : M := foldl apply_update m us.

(** A loaded snapshot is current when its version is; the commits replayed in
    order give the cell's value; each thread commits at most once, when done,
    and leaves the loop without committing only on an update that declined. *)
Record cas_inv (m0 : M) (us : list Update) (c : Cell) : Prop := {
  cas_threads : (threads c).*1 = us;
  cas_version : version c = length (commits c);
  cas_snapshot i u v m :
    threads c !! i = Some (u, Loaded v m) ->
    (v <= version c)%nat /\ m = run_updates m0 (take v (commits c)).*2;
  cas_value : value c = run_updates m0 (commits c).*2;
  cas_commits i u : (i, u) ∈ commits c -> threads c !! i = Some (u, Done);
  cas_nodup : NoDup (commits c).*1;
  cas_done i u :
    threads c !! i = Some (u, Done) ->
    (i, u) ∈ commits c
    \/ exists v, (v <= version c)%nat /\ u (run_updates m0 (take v (commits c)).*2) = None;
}.

Lemma cas_init_inv m0 us : cas_inv m0 us (cell_init m0 us).
Proof.
  unfold cell_init. split; cbn.
  - induction us as [|u us IH]; [done|]. cbn. f_equal. exact IH.
  - done.
  - intros i u v m H. apply list_lookup_fmap_Some in H as (? & ? & ?). done.
  - done.
  - intros i u H. now apply elem_of_nil in H.
  - constructor.
  - intros i u H. apply list_lookup_fmap_Some in H as (? & ? & ?). done.
Qed.

(** Only the phase of thread [i] changes; it was not done. *)
Section SetPhase.
Context (m0 : M) (us : list Update) (c : Cell) (i : nat) (u : Update) (p q : Phase).
Context (Hc : cas_inv m0 us c) (Hi : threads c !! i = Some (u, p)) (Hp : p <> Done).

Lemma lookup_set_phase j w r :
  threads (set_phase i u q c) !! j = Some (w, r) ->
  (j = i /\ w = u /\ r = q) \/ (j <> i /\ threads c !! j = Some (w, r)).
Proof using Hi.
  cbn. intros [(-> & [= <- <-] & _)|[? ?]]%list_lookup_insert_Some; auto.
Qed.

Lemma threads_insert r : (<[i := (u, r)]> (threads c)).*1 = (threads c).*1.
Proof using Hi.
  rewrite list_fmap_insert. apply list_insert_id. cbn. rewrite list_lookup_fmap, Hi. done.
Qed.

Lemma not_committed w : (i, w) ∉ commits c.
Proof using Hc Hi Hp. intros H. apply (cas_commits _ _ _ Hc) in H. congruence. Qed.

Lemma set_phase_inv :
  (forall v m, q = Loaded v m -> v = version c /\ m = value c) ->
  (q = Done -> exists v, (v <= version c)%nat /\ u (run_updates m0 (take v (commits c)).*2) = None) ->
  cas_inv m0 us (set_phase i u q c).
Proof using Hc Hi Hp.
  intros Hl Hd. pose proof Hc as [H1 H2 H3 H4 H5 H6 H7]. split.
  - cbn. now rewrite threads_insert.
  - exact H2.
  - intros j w v m [(-> & -> & Hq)|[_ H]]%lookup_set_phase; [|now apply H3 in H].
    destruct (Hl v m (eq_sym Hq)) as [-> ->]. cbn. rewrite H4, H2, take_ge by done. auto.
  - exact H4.
  - intros j w H. cbn. rewrite list_lookup_insert_ne; [now apply H5|].
    intros <-. now apply not_committed in H.
  - exact H6.
  - intros j w [(-> & -> & Hq)|[_ H]]%lookup_set_phase; [auto|now apply H7 in H].
Qed.
End SetPhase.

Lemma take_snoc_le {A} (l : list A) x v : (v <= length l)%nat -> take v (l ++ [x]) = take v l.
Proof. intros H. rewrite take_app_le by done. done. Qed.

Lemma commit_inv m0 us c i u m m' :
  cas_inv m0 us c -> threads c !! i = Some (u, Loaded (version c) m) -> u m = Some m' ->
  cas_inv m0 us (mkCell m' (S (version c)) (<[i := (u, Done)]> (threads c))
                   (commits c ++ [(i, u)])).
Proof.
  intros Hc Hi Hu. pose proof Hc as [H1 H2 H3 H4 H5 H6 H7].
  assert (forall w, (i, w) ∉ commits c) as Hn by (intros w; eapply not_committed; eauto; done).
  split; cbn.
  - erewrite threads_insert by eauto. exact H1.
  - rewrite length_app. cbn. lia.
  - intros j w v n [(-> & [=] & _)|[_ H]]%list_lookup_insert_Some.
    apply H3 in H as [Hv ->]. split; [lia|]. rewrite take_snoc_le by lia. done.
  - rewrite fmap_app. unfold run_updates. rewrite foldl_app. cbn.
    fold (run_updates m0 (commits c).*2). rewrite <- H4.
    destruct (H3 _ _ _ _ Hi) as [_ Hm]. rewrite H2, take_ge in Hm by done.
    unfold apply_update. rewrite H4, <- Hm, Hu. done.
  - intros j w [H|H]%elem_of_app.
    + rewrite list_lookup_insert_ne; [now apply H5|]. intros ->. now apply Hn in H.
    + apply list_elem_of_singleton in H. injection H as -> ->.
      apply list_lookup_insert_eq. now apply lookup_lt_Some in Hi.
  - rewrite fmap_app. apply list.NoDup_app. split; [done|]. split; [|apply NoDup_singleton].
    intros j Hj Hj'. apply list_elem_of_singleton in Hj'. cbn in Hj'. subst j.
    apply list_elem_of_fmap in Hj as ([? w] & -> & Hw). now apply Hn in Hw.
  - intros j w [(-> & [= ->] & _)|[_ H]]%list_lookup_insert_Some.
    + left. apply elem_of_app. right. now apply list_elem_of_singleton.
    + apply H7 in H as [H|(v & Hv & H)]; [left; apply elem_of_app; auto|right].
      exists v. rewrite take_snoc_le by lia. split; [lia|done].
Qed.

Lemma cas_step_inv m0 us c c' : cas_inv m0 us c -> cas_step c c' -> cas_inv m0 us c'.
Proof.
  intros Hc Hs. revert Hc. destruct Hs as [c i u Hi|c i u v m Hi Hu|c i u m m' Hi Hu|c i u v m m' Hi Hu Hv];
    intros Hc.
  - apply (set_phase_inv _ _ _ _ _ _ _ Hc Hi); [done| |done]. now intros v m [= <- <-].
  - apply (set_phase_inv _ _ _ _ _ _ _ Hc Hi); [done..|]. intros _. exists v.
    destruct (cas_snapshot _ _ _ Hc _ _ _ _ Hi) as [? Hm]. now rewrite <- Hm.
  - eapply commit_inv; eauto.
  - apply (set_phase_inv _ _ _ _ _ _ _ Hc Hi); done.
Qed.

(** Every interleaving of the loops is a sequence of whole updates. *)
Lemma cas_reachable m0 us c : star cas_step (cell_init m0 us) c -> cas_inv m0 us c.
Proof.
  intros H. exact (star_invariant _ (cas_inv m0 us) (cas_step_inv m0 us) _ _ H (cas_init_inv m0 us)).
Qed.

(** The threads with their indices. *)
Definition numbered (c : Cell) : list (nat * Update) := imap (fun i t => (i, t.1)) (threads c).

Lemma numbered_updates c : (numbered c).*2 = (threads c).*1.
Proof.
  unfold numbered. rewrite fmap_imap. unfold compose. cbn. apply list_eq. intros j.
  now rewrite list_lookup_imap, list_lookup_fmap.
Qed.

Lemma committed_numbered m0 us c x : cas_inv m0 us c -> x ∈ commits c -> x ∈ numbered c.
Proof.
  intros Hc H. destruct x as [i u]. apply (cas_commits _ _ _ Hc) in H.
  apply elem_of_lookup_imap. exists i, (u, Done). auto.
Qed.

Lemma commits_submseteq m0 us c : cas_inv m0 us c -> (commits c).*2 ⊆+ us.
Proof.
  intros Hc. rewrite <- (cas_threads _ _ _ Hc), <- numbered_updates.
  apply fmap_submseteq, NoDup_submseteq; [|intros x; now apply (committed_numbered m0 us)].
  apply (NoDup_fmap_1 fst), (cas_nodup _ _ _ Hc).
Qed.

(** When every update always writes and every thread is done, each thread's
    update was applied exactly once, in some order. *)
Lemma cas_all_applied m0 us c :
  star cas_step (cell_init m0 us) c -> (forall u m, u ∈ us -> u m <> None) ->
  (forall i u p, threads c !! i = Some (u, p) -> p = Done) ->
  exists us', us' ≡ₚ us /\ value c = run_updates m0 us'.
Proof.
  intros Hs Hu Hd. pose proof (cas_reachable _ _ _ Hs) as Hc. destruct Hc as [H1 H2 H3 H4 H5 H6 H7].
  pose proof (cas_reachable _ _ _ Hs) as Hc. exists (commits c).*2. split; [|exact H4].
  assert (commits c ≡ₚ numbered c) as Hp; [|now rewrite Hp, numbered_updates, H1].
  apply list.NoDup_Permutation; [now apply NoDup_fmap_1 in H6| |].
  - apply (NoDup_fmap_1 fst). unfold numbered. rewrite fmap_imap. unfold compose. cbn.
    replace (imap _ (threads c)) with (seq 0 (length (threads c))); [apply NoDup_seq|].
    apply list_eq. intros i. rewrite list_lookup_imap.
    destruct (threads c !! i) as [t|] eqn:E; cbn.
    + apply lookup_seq. split; [lia|]. now apply lookup_lt_Some in E.
    + apply lookup_seq_ge. now apply lookup_ge_None in E.
  - intros x. split; [now apply (committed_numbered m0 us)|]. unfold numbered.
    rewrite elem_of_lookup_imap. intros (i & [u p] & -> & H). pose proof (Hd _ _ _ H). subst p.
    pose proof (list_elem_of_lookup_2 _ _ _ H) as Hin.
    apply H7 in H as [H|(v & _ & H)]; [done|]. exfalso. revert H. apply Hu.
    rewrite <- H1. apply list_elem_of_fmap. now exists (u, Done).
Qed.
End CasCell.

(** A loop that runs undisturbed finishes, whatever snapshot it holds: one
    failed exchange at most, then a load and a successful one. *)
Lemma list_eq_same_length_lookup_None {A} (l k : list A) :
  (forall j, l !! j = None <-> k !! j = None) -> length l = length k.
Proof.
  intros H. pose proof (H (length l)) as H1. pose proof (H (length k)) as H2.
  rewrite !lookup_ge_None in *. lia.
Qed.

Section Solo.
Context {M : Type}.

Lemma lookup_insert_done i u (ts : list (@Update M * @Phase M)) p j :
  ts !! i = Some (u, p) ->
  <[i := (u, Done)]> ts !! j = if decide (i = j) then Some (u, Done) else ts !! j.
Proof.
  intros H. case_decide; [subst|now apply list_lookup_insert_ne].
  apply list_lookup_insert_eq. now apply lookup_lt_Some in H.
Qed.

(** [c'] is [c] with thread [i] done. *)
Definition ran (i : nat) (u : @Update M) (c c' : @Cell M) : Prop :=
  star cas_step c c'
  /\ forall j, threads c' !! j = if decide (i = j) then Some (u, Done) else threads c !! j.

Lemma cas_finish c i u v m :
  threads c !! i = Some (u, Loaded v m) -> (v = version c \/ u m = None) ->
  exists c', ran i u c c'.
Proof.
  intros Hi Hv. destruct (u m) as [m'|] eqn:Hu.
  - destruct Hv as [->|]; [|done]. eexists. split; [apply star_one; eapply cas_commit; eauto|].
    intros j. cbn. eapply lookup_insert_done; eauto.
  - eexists. split; [apply star_one; eapply cas_leave; eauto|].
    intros j. cbn. eapply lookup_insert_done; eauto.
Qed.

Lemma cas_solo_start c i u : threads c !! i = Some (u, Start) -> exists c', ran i u c c'.
Proof.
  intros Hi. set (c1 := set_phase i u (Loaded (version c) (value c)) c).
  assert (forall j, threads c1 !! j = if decide (i = j) then Some (u, Loaded (version c) (value c))
                                      else threads c !! j) as H1.
  { intros j. cbn. case_decide; [subst|now apply list_lookup_insert_ne].
    apply list_lookup_insert_eq. now apply lookup_lt_Some in Hi. }
  destruct (cas_finish c1 i u (version c) (value c)) as (c' & Hs & Hc); [|auto|].
  { rewrite H1. now rewrite decide_True. }
  exists c'. split; [eapply star_step; [apply cas_load, Hi|exact Hs]|].
  intros j. rewrite Hc, H1. now case_decide.
Qed.

Lemma cas_solo c i u p : threads c !! i = Some (u, p) -> exists c', ran i u c c'.
Proof.
  intros Hi. destruct p as [|v m|].
  - eapply cas_solo_start; eauto.
  - assert ((v = version c \/ u m = None) \/ ~ (v = version c \/ u m = None)) as [Hv|Hv]
      by (destruct (u m), (decide (v = version c)); naive_solver);
      [eapply cas_finish; eauto|].
    set (c1 := set_phase i u Start c).
    assert (forall j, threads c1 !! j = if decide (i = j) then Some (u, Start)
                                        else threads c !! j) as H1.
    { intros j. cbn. case_decide; [subst|now apply list_lookup_insert_ne].
      apply list_lookup_insert_eq. now apply lookup_lt_Some in Hi. }
    destruct (cas_solo_start c1 i u) as (c' & Hs & Hc); [rewrite H1; now rewrite decide_True|].
    exists c'. split.
    + eapply star_step; [|exact Hs]. destruct (u m) as [m'|] eqn:Hu; [|tauto].
      eapply cas_retry; eauto.
    + intros j. rewrite Hc, H1. now case_decide.
  - exists c. split; [apply star_refl|]. intros j. case_decide; [now subst|done].
Qed.

(** Run one after the other, all of them finish. *)
Lemma cas_all_finish (c : @Cell M) : exists c',
  star cas_step c c' /\ forall i u p, threads c' !! i = Some (u, p) -> p = Done.
Proof.
  assert (forall n (c : @Cell M), exists c', star cas_step c c'
    /\ (forall j, (j < n)%nat -> forall u p, threads c' !! j = Some (u, p) -> p = Done)
    /\ length (threads c') = length (threads c)) as H.
  { clear c. induction n as [|n IH]; intros c.
    { exists c. split_and!; [apply star_refl|lia|done]. }
    destruct (IH c) as (c1 & Hs1 & Hd1 & Hl1).
    destruct (threads c1 !! n) as [[u p]|] eqn:E.
    - destruct (cas_solo c1 n u p E) as (c2 & Hs2 & Hc2). exists c2.
      split_and!; [now apply star_trans with c1| |].
      + intros j Hj w q. rewrite Hc2. case_decide; [congruence|]. apply Hd1. lia.
      + rewrite <- Hl1. apply list_eq_same_length_lookup_None. intros j. rewrite Hc2.
        case_decide; [subst; rewrite E; split; discriminate|done].
    - exists c1. split_and!; [done| |done]. intros j Hj w q. destruct (decide (j = n)); [congruence|].
      apply Hd1. lia. }
  destruct (H (length (threads c)) c) as (c' & Hs & Hd & Hl). exists c'. split; [done|].
  intros i u p Hi. eapply Hd; eauto. rewrite <- Hl. now apply lookup_lt_Some in Hi.
Qed.
End Solo.
