(* ===== verification/VectorClock.v ===== *)
(** * Vector clocks

    [VectorClock] of src/src/lib.rs: a map from node keys to [u64] counters
    behind an [ArcSwap].  [CLOCKS] is one immutable snapshot; the mutating
    operations are the bodies of their compare-and-swap loops ([CasCell]). *)

From S2P Require Import Prelude CasCell.

(** [GossipNodeId], an alias of [PublicKey]: 32 bytes with the derived,
    lexicographic order. *)
Record PublicKey := mkPublicKey { inner : list Z }.

#[global] Instance PublicKey_eq_dec : EqDecision PublicKey.
Proof. solve_decision. Defined.

#[global] Instance PublicKey_countable : Countable PublicKey.
Proof. refine (inj_countable' inner mkPublicKey _). now intros []. Defined.

(** [Ord for [u8; 32]]. *)
Fixpoint bytes_le (a b : list Z) : bool :=
  match a, b with
  | [], _ => true
  | _ :: _, [] => false
  | x :: a', y :: b' => if x <? y then true else if x =? y then bytes_le a' b' else false
  end.

Definition key_le (a b : PublicKey) : bool := bytes_le (inner a) (inner b).

Abbreviation Clocks := (gmap PublicKey Z).

Inductive ClockOrdering := Before | After | Equal | Concurrent.

(** Iteration of the [BTreeMap]: its entries in key order. *)
Definition entry_le (a b : PublicKey * Z) : bool := key_le a.1 b.1.
Definition to_vec (c : Clocks) : list (PublicKey * Z) := sort_by entry_le (map_to_list c).

Definition from_vec (v : list (PublicKey * Z)) : Clocks :=
  foldl (fun m e => <[e.1 := e.2]> m) ∅ v.

Definition clock_new : Clocks := ∅.
Definition with_node (n : PublicKey) : Clocks := {[n := 0]}.
Definition get (c : Clocks) (n : PublicKey) : Z := default 0 (c !! n).

(** ** The loop bodies *)
Definition increment (n : PublicKey) (c : Clocks) : option Clocks :=
  Some (<[n := saturating_add u64_max (get c n) 1]> c).

Definition merge_entry (m : Clocks) (e : PublicKey * Z) : Clocks :=
  <[e.1 := Z.max (get m e.1) e.2]> m.

Definition merge (other c : Clocks) : option Clocks :=
  Some (foldl merge_entry c (to_vec other)).

Definition gc_old_nodes (active : gset PublicKey) (c : Clocks) : option Clocks :=
  if decide (c = ∅) then None else Some (filter (fun e => e.1 ∈ active) c).

(** Entries by clock value, largest first. *)
Definition clock_desc (a b : PublicKey * Z) : bool := b.2 <=? a.2.

Definition compact (max_size : nat) (c : Clocks) : option Clocks :=
  if decide (size c <= max_size)%nat then None
  else Some (from_vec (take max_size (sort_by clock_desc (to_vec c)))).

(** ** Comparison *)
Definition compare_node (a b : Clocks) (flags : bool * bool) (n : PublicKey) : bool * bool :=
  match get a n ?= get b n with
  | Gt => (true, flags.2)
  | Lt => (flags.1, true)
  | Eq => flags
  end.

Definition compare (a b : Clocks) : ClockOrdering :=
  match foldl (compare_node a b) (false, false) (elements (dom a ∪ dom b)) with
  | (true, false) => After
  | (false, true) => Before
  | (false, false) => Equal
  | (true, true) => Concurrent
  end.

#[global] Instance ClockOrdering_eq_dec : EqDecision ClockOrdering.
Proof. solve_decision. Defined.

Definition happens_before (a b : Clocks) : bool := bool_decide (compare a b = Before).
Definition happens_after (a b : Clocks) : bool := bool_decide (compare a b = After).
Definition is_concurrent (a b : Clocks) : bool := bool_decide (compare a b = Concurrent).
Definition clock_eq (a b : Clocks) : bool := bool_decide (compare a b = Equal).
Definition is_effectively_empty (c : Clocks) : bool :=
  forallb (fun e => e.2 =? 0) (to_vec c).

(** What [Hash] feeds to the hasher: the entries in key order. *)
Definition hash_input (c : Clocks) : list (PublicKey * Z) := to_vec c.

(** ** The order the comparison decides *)

(** A counter is a [u64]. *)
Definition clocks_ok (c : Clocks) : Prop := forall n t, c !! n = Some t -> 0 <= t <= u64_max.

Definition leq (a b : Clocks) : Prop := forall n, get a n <= get b n.

Lemma get_range c n : clocks_ok c -> 0 <= get c n <= u64_max.
Proof.
  intros H. unfold get. destruct (c !! n) as [t|] eqn:E; cbn; [exact (H _ _ E)|].
  unfold u64_max. lia.
Qed.

Lemma compare_fold a b l : forall f,
  foldl (compare_node a b) f l
  = (f.1 || existsb (fun n => get b n <? get a n) l,
     f.2 || existsb (fun n => get a n <? get b n) l).
Proof.
  induction l as [|n l IH]; intros [f1 f2]; cbn.
  { now rewrite !orb_false_r. }
  rewrite IH. unfold compare_node. cbn. destruct (Z.compare_spec (get a n) (get b n)) as [E|E|E]; cbn.
  - rewrite E, Z.ltb_irrefl. done.
  - rewrite (proj2 (Z.ltb_lt _ _) E), (proj2 (Z.ltb_ge (get b n) (get a n)) ltac:(lia)).
    cbn. now rewrite orb_true_r.
  - rewrite (proj2 (Z.ltb_lt _ _) E), (proj2 (Z.ltb_ge (get a n) (get b n)) ltac:(lia)).
    cbn. now rewrite orb_true_r.
Qed.

(** Nodes of neither map compare equal, so the nodes of both are all of them. *)
Lemma exceeds_iff a b (u : gset PublicKey) :
  existsb (fun n => get a n <? get b n) (elements u) = true ->
  exists n, get a n < get b n.
Proof. intros (n & _ & H)%existsb_exists. exists n. now apply Z.ltb_lt. Qed.

Lemma exceeds_none a b (u : gset PublicKey) :
  dom a ∪ dom b ⊆ u ->
  existsb (fun n => get a n <? get b n) (elements u) = false ->
  leq b a.
Proof.
  intros Hsub H n. destruct (decide (n ∈ (dom a ∪ dom b : gset PublicKey))) as [Hn|Hn].
  - destruct (Z.le_gt_cases (get b n) (get a n)) as [|Hlt]; [done|]. exfalso.
    enough (existsb (fun n => get a n <? get b n) (elements u) = true)
      by congruence.
    apply existsb_exists. exists n. split; [|now apply Z.ltb_lt].
    apply list_elem_of_In, elem_of_elements, Hsub, Hn.
  - unfold get. rewrite elem_of_union, !elem_of_dom in Hn.
    rewrite (proj2 (eq_None_not_Some (a !! n))), (proj2 (eq_None_not_Some (b !! n))) by tauto.
    done.
Qed.

(** [compare] decides the pointwise order of the counters. *)
Lemma compare_spec a b :
  match compare a b with
  | Equal => leq a b /\ leq b a
  | Before => leq a b /\ ~ leq b a
  | After => leq b a /\ ~ leq a b
  | Concurrent => ~ leq a b /\ ~ leq b a
  end.
Proof.
  assert (forall x y, (exists n, get x n < get y n) -> ~ leq y x) as Hlt
    by (intros x y (n & H) H'; specialize (H' n); lia).
  unfold compare. rewrite compare_fold. cbn.
  destruct (existsb (fun n => get b n <? get a n) _) eqn:Eg,
           (existsb (fun n => get a n <? get b n) _) eqn:El;
    try (apply exceeds_iff in Eg); try (apply exceeds_iff in El);
    try (apply exceeds_none in Eg; [|clear; set_solver]);
    try (apply exceeds_none in El; [|clear; set_solver]);
    auto.
Qed.

(** ** Entries in key order *)
Lemma to_vec_perm c : to_vec c ≡ₚ map_to_list c.
Proof. apply sort_by_perm. Qed.

Lemma to_vec_nodup c : NoDup (to_vec c).*1.
Proof. rewrite to_vec_perm. apply NoDup_fst_map_to_list. Qed.

Lemma elem_of_to_vec c n t : (n, t) ∈ to_vec c <-> c !! n = Some t.
Proof. rewrite to_vec_perm. apply elem_of_map_to_list. Qed.

Lemma from_vec_lookup v : NoDup v.*1 -> forall n t, from_vec v !! n = Some t <-> (n, t) ∈ v.
Proof.
  induction v as [|[k x] v IH] using rev_ind; intros Hn n t.
  { unfold from_vec. cbn. rewrite lookup_empty, elem_of_nil. done. }
  rewrite fmap_app in Hn. apply list.NoDup_app in Hn as (Hn & Hd & _).
  unfold from_vec. rewrite foldl_app. cbn. fold (from_vec v).
  rewrite lookup_insert_Some, IH, elem_of_app, list_elem_of_singleton by done.
  assert (forall y, (k, y) ∉ v) as Hk.
  { intros y Hy. apply (Hd k); [|left]. apply list_elem_of_fmap. now exists (k, y). }
  split.
  - intros [[<- <-]|[_ H]]; auto.
  - intros [H|[= -> ->]]; [right|left; auto]. split; [|done]. intros ->. now apply Hk in H.
Qed.

(** Keys are compared in a total order. *)
Lemma bytes_le_total a : forall b, bytes_le a b = false -> bytes_le b a = true.
Proof.
  induction a as [|x a IH]; intros [|y b]; cbn; try done.
  destruct (Z.ltb_spec x y); [done|]. destruct (Z.eqb_spec x y) as [->|].
  - rewrite Z.ltb_irrefl, Z.eqb_refl. apply IH.
  - intros _. now rewrite (proj2 (Z.ltb_lt y x) ltac:(lia)).
Qed.

Lemma bytes_le_trans a : forall b c,
  bytes_le a b = true -> bytes_le b c = true -> bytes_le a c = true.
Proof.
  induction a as [|x a IH]; intros [|y b] [|z c]; cbn; try done.
  destruct (Z.ltb_spec x y), (Z.ltb_spec y z), (Z.ltb_spec x z), (Z.eqb_spec x y),
    (Z.eqb_spec y z), (Z.eqb_spec x z); try done; try lia. apply IH.
Qed.

Lemma to_vec_sorted c : StronglySorted (fun a b => entry_le a b = true) (to_vec c).
Proof.
  apply sort_by_sorted; unfold entry_le, key_le; intros;
    [now apply bytes_le_total|eapply bytes_le_trans; eauto].
Qed.

(** ** Merge *)
Lemma get_insert n m t c : get (<[n := t]> c) m = if decide (n = m) then t else get c m.
Proof. unfold get. rewrite lookup_insert. now case_decide. Qed.

Lemma get_merge_entries v : NoDup v.*1 -> forall c n,
  get (foldl merge_entry c v) n
  = match list_find (fun e => e.1 = n) v with
    | Some (_, e) => Z.max (get c n) e.2
    | None => get c n
    end.
Proof.
  induction v as [|[k x] v IH]; intros Hn c n; [done|]. cbn in Hn.
  apply list.NoDup_cons in Hn as [Hk Hn]. cbn [foldl]. rewrite IH by done. unfold merge_entry at 1 2. cbn.
  rewrite get_insert. case_decide as E.
  - subst n. destruct (list_find _ v) as [[i e]|] eqn:F; [|done]. exfalso.
    apply list_find_Some in F as (F & He & _). apply Hk. rewrite <- He.
    apply list_elem_of_fmap. exists e. split; [done|]. eapply list_elem_of_lookup_2; eauto.
  - destruct (list_find _ v) as [[i e]|]; done.
Qed.

Lemma merge_get other c n m :
  clocks_ok c -> merge other c = Some m -> get m n = Z.max (get c n) (get other n).
Proof.
  intros Hc [= <-]. rewrite get_merge_entries by apply to_vec_nodup.
  pose proof (get_range _ n Hc) as Hr.
  destruct (list_find _ _) as [[i e]|] eqn:F.
  - apply list_find_Some in F as (F & He & _). destruct e as [k t]. cbn in *. subst k.
    apply list_elem_of_lookup_2, elem_of_to_vec in F. unfold get at 3. now rewrite F.
  - apply list_find_None in F. unfold get at 3. destruct (other !! n) as [t|] eqn:E; cbn; [|lia].
    apply elem_of_to_vec in E. rewrite List.Forall_forall in F. apply list_elem_of_In in E.
    now apply F in E.
Qed.

(** ** Compaction *)
Lemma map_to_list_from_vec v : NoDup v.*1 -> map_to_list (from_vec v) ≡ₚ v.
Proof.
  intros Hn. apply list.NoDup_Permutation.
  - apply NoDup_map_to_list.
  - now apply NoDup_fmap_1 in Hn.
  - intros [n t]. rewrite elem_of_map_to_list. now apply from_vec_lookup.
Qed.

Lemma clock_desc_sorted l : StronglySorted (fun a b => clock_desc a b = true) (sort_by clock_desc l).
Proof.
  apply sort_by_sorted; unfold clock_desc; intros;
    rewrite ?Z.leb_le, ?Z.leb_gt in *; lia.
Qed.

Section Compact.
Context (k : nat) (c : Clocks).

Definition by_clock : list (PublicKey * Z) := sort_by clock_desc (to_vec c).

Lemma by_clock_perm : by_clock ≡ₚ map_to_list c.
Proof. unfold by_clock. now rewrite sort_by_perm, to_vec_perm. Qed.

Lemma take_nodup : NoDup (take k by_clock).*1.
Proof.
  assert (NoDup by_clock.*1) as H by (rewrite by_clock_perm; apply NoDup_fst_map_to_list).
  rewrite <- (take_drop k by_clock), fmap_app in H. now apply list.NoDup_app in H as [H _].
Qed.

Lemma size_from_take : size (from_vec (take k by_clock)) = Nat.min k (size c).
Proof.
  rewrite <- length_map_to_list, map_to_list_from_vec by apply take_nodup.
  rewrite length_take, by_clock_perm, length_map_to_list. done.
Qed.
End Compact.

(** ** What the clock guarantees *)
Lemma compare_Equal a b : compare a b = Equal <-> forall n, get a n = get b n.
Proof.
  pose proof (compare_spec a b) as H. split.
  - intros E n. rewrite E in H. destruct H as [H1 H2]. specialize (H1 n). specialize (H2 n). lia.
  - intros E. assert (leq a b /\ leq b a) as [H1 H2] by (split; intros n; rewrite E; lia).
    destruct (compare a b); try done; tauto.
Qed.

Lemma compare_Before a b : compare a b = Before <-> leq a b /\ ~ leq b a.
Proof. pose proof (compare_spec a b). destruct (compare a b); split; try done; tauto. Qed.

(** The causal order seen from the other side. *)
Definition reverse (o : ClockOrdering) : ClockOrdering :=
  match o with Before => After | After => Before | o => o end.


(** [merge] computes the least upper bound of two clocks: it is at or
    after both, and at or before every clock that is.  A merge that learns
    something moves the clock strictly forward. *)
Theorem merge_least_upper_bound a b m :
  clocks_ok a -> clocks_ok b -> merge b a = Some m ->
  leq a m /\ leq b m
  /\ (forall c, leq a c -> leq b c -> leq m c)
  /\ clocks_ok m
  /\ (happens_before a m = true <-> ~ leq b a).
Proof.
  intros Ha Hb Hm. pose proof (fun n => merge_get b a n m Ha Hm) as Hg.
  assert (leq a m) as H1 by (intros n; rewrite Hg; lia).
  assert (leq b m) as H2 by (intros n; rewrite Hg; lia).
  split_and!; auto.
  - intros c H3 H4 n. specialize (H3 n). specialize (H4 n). rewrite Hg. lia.
  - intros n t E. pose proof (get_range _ n Ha). pose proof (get_range _ n Hb).
    specialize (Hg n). unfold get in Hg at 1. rewrite E in Hg. cbn in Hg. lia.
  - unfold happens_before. rewrite bool_decide_eq_true, compare_Before. split.
    + intros [_ H] H'. apply H. intros n. specialize (H' n). rewrite Hg. lia.
    + intros H. split; [done|]. intros H'. apply H. intros n. specialize (H' n). specialize (H2 n). lia.
Qed.

(** Compaction keeps the largest counters and nothing else.  A clock over
    its limit is cut to exactly the limit, the kept entries are unchanged, and
    no dropped counter exceeds a kept one; a clock within the limit is left
    alone. *)
Theorem compact_keeps_largest k c :
  match compact k c with
  | None => (size c <= k)%nat
  | Some m => (k < size c)%nat /\ size m = k /\ m ⊆ c
      /\ forall n t n' t', m !! n = Some t -> c !! n' = Some t' -> m !! n' = None -> t' <= t
  end.
Proof.
  unfold compact. case_decide as Hk; [done|]. fold (by_clock c).
  pose proof (size_from_take k c) as Hs. pose proof (take_nodup k c) as Hn.
  split_and!; [lia|lia| |].
  - apply map_subseteq_spec. intros n t. rewrite from_vec_lookup by done.
    intros H%list_elem_of_In. apply elem_of_map_to_list. rewrite <- by_clock_perm.
    apply list_elem_of_In. rewrite <- (take_drop k (by_clock c)). apply in_or_app. auto.
  - intros n t n' t'. rewrite from_vec_lookup by done. intros H1 H2 H3.
    apply elem_of_map_to_list in H2. rewrite <- by_clock_perm, <- (take_drop k (by_clock c)) in H2.
    apply elem_of_app in H2 as [H2|H2]; [apply from_vec_lookup in H2; [congruence|done]|].
    pose proof (clock_desc_sorted (to_vec c)) as Hd. fold (by_clock c) in Hd.
    rewrite <- (take_drop k (by_clock c)) in Hd.
    apply (sorted_app_rel _ _ _ _ _ Hd H1) in H2. now apply Z.leb_le in H2.
Qed.

(** ** Concurrent increments *)
Definition count (n : PublicKey) (ns : list PublicKey) : Z :=
  len (filter (fun m => m = n) ns).

Lemma run_increments ns : forall m0 n,
  clocks_ok m0 ->
  get (run_updates m0 (increment <$> ns)) n = Z.min u64_max (get m0 n + count n ns).
Proof.
  induction ns as [|k ns IH]; intros m0 n Hok.
  { unfold run_updates, count. cbn. pose proof (get_range _ n Hok). unfold len. cbn. lia. }
  change (run_updates m0 (increment <$> k :: ns))
    with (run_updates (<[k := saturating_add u64_max (get m0 k) 1]> m0) (increment <$> ns)).
  rewrite IH.
  - rewrite get_insert. unfold count, saturating_add. rewrite filter_cons. case_decide as E.
    + subst. unfold len. cbn. lia.
    + done.
  - intros j t. rewrite lookup_insert_Some. intros [[_ <-]|[_ H]]; [|exact (Hok _ _ H)].
    pose proof (get_range _ k Hok). unfold saturating_add. lia.
Qed.

Definition finished (c : @Cell Clocks) : Prop :=
  forall i u p, threads c !! i = Some (u, p) -> p = Done.

(** No concurrent increment is lost.  However the compare-and-swap loops
    of any number of [increment] calls on one clock interleave, once all of
    them have returned every node's counter has grown by the number of calls
    for it, saturating at [u64::MAX]. *)
Theorem increments_not_lost m0 ns c :
  clocks_ok m0 -> star cas_step (cell_init m0 (increment <$> ns)) c -> finished c ->
  forall n, get (value c) n = Z.min u64_max (get m0 n + count n ns).
Proof.
  intros Hok Hs Hf n.
  destruct (cas_all_applied m0 (increment <$> ns) c Hs) as (us' & Hp & ->).
  - intros u m Hu. apply list_elem_of_fmap in Hu as (k & -> & _). done.
  - exact Hf.
  - apply Permutation_map_inv in Hp as (ns' & -> & Hp). rewrite run_increments by done.
    unfold count, len. now rewrite Hp.
Qed.

(** ** The update loops *)
Inductive ClockOp :=
  | OpIncrement (n : PublicKey)
  | OpMerge (other : Clocks)
  | OpGc (active : gset PublicKey)
  | OpCompact (max_size : nat).

Definition body (op : ClockOp) : Update :=
  match op with
  | OpIncrement n => increment n
  | OpMerge other => merge other
  | OpGc active => gc_old_nodes active
  | OpCompact k => compact k
  end.

(** The update loops of a clock terminate and are atomic.  From every
    state that any interleaving of [increment], [merge], [gc_old_nodes] and
    [compact] calls can reach, all the calls can still return; and whenever
    they have, the clock is the result of running whole calls one after the
    other, each at most once. *)
Theorem update_loops_complete m0 ops c :
  star cas_step (cell_init m0 (body <$> ops)) c ->
  (exists c', star cas_step c c' /\ finished c')
  /\ (exists us, value c = run_updates m0 us /\ us ⊆+ body <$> ops).
Proof.
  intros Hs. split; [exact (cas_all_finish c)|].
  pose proof (cas_reachable _ _ _ Hs) as Hc. exists (commits c).*2.
  split; [exact (cas_value _ _ _ Hc)|exact (commits_submseteq _ _ _ Hc)].
Qed.

(** The serialized form is canonical.  [to_vec] lists the entries in
    strictly comparable key order and [from_vec] restores the clock from it,
    so two clocks have the same serialized form only if they are the same. *)
Theorem vec_roundtrip c :
  from_vec (to_vec c) = c
  /\ StronglySorted (fun a b => entry_le a b = true) (to_vec c)
  /\ (forall c', to_vec c' = to_vec c -> c' = c).
Proof.
  assert (forall c, from_vec (to_vec c) = c) as H.
  { intros d. apply map_eq. intros n. apply option_eq. intros t.
    rewrite from_vec_lookup by apply to_vec_nodup. apply elem_of_to_vec. }
  split_and!; [apply H|apply to_vec_sorted|]. intros c' E. now rewrite <- (H c), <- E, H.
Qed.

(** Equality and hashing disagree.  A clock that lists a node with counter
    0 equals the empty clock but feeds a different sequence to the hasher. *)
Theorem equal_clocks_hash_differently n :
  clock_eq (with_node n) clock_new = true
  /\ hash_input (with_node n) <> hash_input clock_new.
Proof.
  split.
  - apply bool_decide_eq_true, compare_Equal. intros m. unfold get, with_node, clock_new.
    rewrite lookup_empty, lookup_singleton. now case_decide.
  - unfold hash_input, to_vec, with_node, clock_new.
    rewrite map_to_list_singleton, map_to_list_empty. done.
Qed.

(** ** Witnesses *)
Definition node_a : PublicKey := mkPublicKey (replicate 32 1).
Definition node_b : PublicKey := mkPublicKey (replicate 32 2).

Lemma clocks_ok_singleton n t : 0 <= t <= u64_max -> clocks_ok {[n := t]}.
Proof. intros H m x [<- <-]%lookup_singleton_Some. done. Qed.

Lemma merge_least_upper_bound_witness :
  exists m, merge {[node_b := 7]} {[node_a := 3]} = Some m
    /\ happens_before {[node_a := 3]} m = true.
Proof.
  eexists. split; [reflexivity|].
  refine (proj2 (proj2 (proj2 (proj2 (proj2
    (merge_least_upper_bound {[node_a := 3]} {[node_b := 7]} _ _ _ eq_refl))))) _).
  - apply clocks_ok_singleton. unfold u64_max. lia.
  - apply clocks_ok_singleton. unfold u64_max. lia.
  - intros H. specialize (H node_b). vm_compute in H. now apply H.
Defined.

(** Two increments of the same node whose loads overlap: the second exchange
    fails, reloads and succeeds. *)
Definition overlapped : @Cell Clocks :=
  mkCell {[node_a := 2]} 2 [(increment node_a, Done); (increment node_a, Done)]
    [(0%nat, increment node_a); (1%nat, increment node_a)].

Lemma overlapped_reached : star cas_step (cell_init ∅ (increment <$> [node_a; node_a])) overlapped.
Proof.
  eapply star_step; [apply (cas_load _ 0%nat); reflexivity|].
  eapply star_step; [apply (cas_load _ 1%nat); reflexivity|].
  eapply star_step; [eapply (cas_commit _ 0%nat); reflexivity|].
  eapply star_step; [eapply (cas_retry _ 1%nat); [reflexivity|reflexivity|done]|].
  eapply star_step; [apply (cas_load _ 1%nat); reflexivity|].
  eapply star_step; [eapply (cas_commit _ 1%nat); reflexivity|].
  apply star_refl.
Qed.

Lemma increments_not_lost_witness : get (value overlapped) node_a = 2.
Proof.
  rewrite (increments_not_lost ∅ [node_a; node_a] overlapped).
  - reflexivity.
  - intros n t H. rewrite lookup_empty in H. discriminate H.
  - exact overlapped_reached.
  - intros [|[|i]] u p H; [injection H as _ <-; reflexivity..|]. now rewrite lookup_ge_None_2 in H by (cbn; lia).
Defined.

Lemma update_loops_complete_witness :
  exists us, value overlapped = run_updates ∅ us
    /\ us ⊆+ body <$> [OpIncrement node_a; OpIncrement node_a].
Proof.
  exact (proj2 (update_loops_complete ∅ [OpIncrement node_a; OpIncrement node_a] overlapped
    overlapped_reached)).
Defined.
