(* ===== verification/Bitmap.v ===== *)
(** * Chunk bitmaps

    The completion bitmaps of src/src/protocol.rs: one bit per chunk index in a
    vector of [u64] words, shared by [InProgressStream] and
    [RejectedStreamTombstone].  Indexing a vector out of range panics; here it
    is [None]. *)

From S2P Require Import Prelude.

(** [vec![0u64; words]]. *)
Definition zero_words (words : Z) : list Z := replicate (Z.to_nat words) 0.

(** [expected_chunks.div_ceil(64)]. *)
Definition bitmap_words_for (expected_chunks : Z) : Z := div_ceil expected_chunks 64.

Definition word_of (chunk_index : Z) : nat := Z.to_nat (chunk_index / 64).
Definition bit_of (chunk_index : Z) : Z := Z.shiftl 1 (chunk_index mod 64).

(** [received_chunks[word] & bit != 0]. *)
Definition chunk_bit (words : list Z) (i : Z) : option bool :=
  (fun w => negb (Z.land w (bit_of i) =? 0)) <$> words !! word_of i.

(** [received_chunks[word] |= bit], where the word exists. *)
Definition set_chunk_bit (words : list Z) (i : Z) : list Z :=
  alter (fun w => Z.lor w (bit_of i)) (word_of i) words.

(** The completion test both structures share: every full word is [u64::MAX]
    and the last, partial word has its low bits set. *)
Definition all_bits_set (words : list Z) (expected : Z) : option bool :=
  if expected =? 0 then Some true
  else
    let full_words := Z.to_nat (expected / 64) in
    if (length words <? full_words)%nat then None
    else if existsb (fun w => negb (w =? u64_max)) (take full_words words) then Some false
    else
      let remainder := expected mod 64 in
      if remainder =? 0 then Some true
      else
        let mask := Z.shiftl 1 remainder - 1 in
        (fun w => Z.land w mask =? mask) <$> words !! full_words.

(** [let Some(expected) = self.expected_chunks else { return self.total_size == 0 }]. *)
Definition chunks_complete (expected : option Z) (total_size : Z) (words : list Z) : option bool :=
  match expected with
  | None => Some (total_size =? 0)
  | Some e => all_bits_set words e
  end.

(** ** The bits of a bitmap *)

(** Bit [i], false outside the vector. *)
Definition bit (words : list Z) (i : Z) : bool :=
  match words !! word_of i with Some w => Z.testbit w (i mod 64) | None => false end.

Definition is_word (w : Z) : Prop := 0 <= w <= u64_max.

(** A bitmap sized for [n] chunks. *)
Definition sized (words : list Z) (n : Z) : Prop :=
  length words = Z.to_nat (bitmap_words_for n) /\ Forall is_word words.

Lemma land_bit w k : 0 <= k -> negb (Z.land w (Z.shiftl 1 k) =? 0) = Z.testbit w k.
Proof.
  intros Hk. rewrite Z.shiftl_1_l. destruct (Z.testbit w k) eqn:E.
  - apply negb_true_iff, Z.eqb_neq. intros H. apply (f_equal (fun z => Z.testbit z k)) in H.
    rewrite Z.land_spec, E, Z.pow2_bits_true, Z.bits_0 in H by done. done.
  - apply negb_false_iff, Z.eqb_eq, Z.bits_inj'. intros j Hj.
    rewrite Z.land_spec, Z.bits_0, Z.pow2_bits_eqb by done.
    destruct (Z.eqb_spec k j) as [->|]; [now rewrite E|now rewrite andb_false_r].
Qed.

Lemma chunk_bit_spec words i b : chunk_bit words i = Some b -> b = bit words i.
Proof.
  unfold chunk_bit, bit. destruct (words !! word_of i) as [w|]; [|done]. cbn. intros [= <-].
  apply land_bit. apply Z.mod_pos_bound. lia.
Qed.

Lemma word_of_lt n i : 0 <= i < n -> (word_of i < Z.to_nat (bitmap_words_for n))%nat.
Proof.
  intros H. unfold word_of, bitmap_words_for, div_ceil.
  pose proof (Z.div_mod n 64 ltac:(lia)). pose proof (Z.mod_pos_bound n 64 ltac:(lia)).
  assert (i / 64 <= (n - 1) / 64) by (apply Z.div_le_mono; lia).
  pose proof (Z.div_pos i 64). pose proof (Z.div_mod (n - 1) 64 ltac:(lia)).
  pose proof (Z.mod_pos_bound (n - 1) 64 ltac:(lia)).
  destruct (Z.eqb_spec (n mod 64) 0); lia.
Qed.

Lemma chunk_bit_sized words n i : sized words n -> 0 <= i < n -> chunk_bit words i = Some (bit words i).
Proof.
  intros [Hl _] Hi. destruct (chunk_bit words i) as [b|] eqn:E.
  - f_equal. now apply chunk_bit_spec.
  - unfold chunk_bit in E. apply fmap_None, lookup_ge_None in E.
    pose proof (word_of_lt n i Hi). lia.
Qed.

Lemma zero_words_sized n : sized (zero_words (bitmap_words_for n)) n.
Proof.
  split; [apply length_replicate|]. apply Forall_replicate. unfold is_word, u64_max. lia.
Qed.

Lemma bit_zero_words n i : bit (zero_words n) i = false.
Proof.
  unfold bit, zero_words. destruct (replicate _ _ !! _) as [w|] eqn:E; [|done].
  apply lookup_replicate in E as [-> _]. apply Z.bits_0.
Qed.

Lemma set_chunk_bit_length words i : length (set_chunk_bit words i) = length words.
Proof. apply length_alter. Qed.

Lemma word_bit_inj i j : 0 <= i -> 0 <= j -> word_of i = word_of j -> i mod 64 = j mod 64 -> i = j.
Proof.
  unfold word_of. intros Hi Hj Hw Hb. pose proof (Z.div_pos i 64). pose proof (Z.div_pos j 64).
  rewrite (Z.div_mod i 64), (Z.div_mod j 64) by lia. lia.
Qed.

Lemma testbit_lor_bit w k j : 0 <= k -> Z.testbit (Z.lor w (Z.shiftl 1 k)) j = (Z.testbit w j || (k =? j)).
Proof. intros Hk. now rewrite Z.lor_spec, Z.shiftl_1_l, Z.pow2_bits_eqb by done. Qed.

(** Setting a bit of the vector sets that bit and no other. *)
Lemma bit_set words n i j :
  sized words n -> 0 <= i < n -> 0 <= j ->
  bit (set_chunk_bit words i) j = bit words j || (i =? j).
Proof.
  intros [Hl _] Hi Hj. unfold bit, set_chunk_bit.
  assert (0 <= i mod 64) as Hm by (apply Z.mod_pos_bound; lia).
  destruct (decide (word_of i = word_of j)) as [Hw|Hw].
  - rewrite Hw, list_lookup_alter_eq.
    destruct (words !! word_of j) as [w|] eqn:E.
    + cbn. unfold bit_of. rewrite testbit_lor_bit by done. f_equal.
      destruct (Z.eqb_spec i j) as [->|Hne]; [apply Z.eqb_refl|].
      apply Z.eqb_neq. intros H. apply Hne. apply word_bit_inj; lia || done.
    + exfalso. apply lookup_ge_None in E. pose proof (word_of_lt n i Hi). lia.
  - rewrite list_lookup_alter_ne by done.
    assert ((i =? j) = false) as -> by (apply Z.eqb_neq; congruence). now rewrite orb_false_r.
Qed.

Lemma is_word_bits w : 0 <= w -> (forall k, 64 <= k -> Z.testbit w k = false) -> is_word w.
Proof.
  intros H0 H. split; [done|]. destruct (Z.eq_dec w 0) as [->|]; [unfold u64_max; lia|].
  destruct (Z.le_gt_cases 64 (Z.log2 w)) as [Hl|Hl].
  - specialize (H _ Hl). rewrite Z.bit_log2 in H by lia. done.
  - apply Z.log2_lt_pow2 in Hl; [|lia]. unfold u64_max. lia.
Qed.

Lemma word_high_bits w k : is_word w -> 64 <= k -> Z.testbit w k = false.
Proof.
  intros [H0 H1] Hk. apply Z.bits_above_log2; [done|].
  destruct (Z.eq_dec w 0) as [->|]; [cbn; lia|].
  apply Z.le_lt_trans with 63; [|lia]. assert (Z.log2 w < 64); [|lia].
  apply Z.log2_lt_pow2; [lia|]. unfold u64_max in H1. lia.
Qed.

Lemma set_chunk_bit_sized words n i : sized words n -> sized (set_chunk_bit words i) n.
Proof.
  intros [Hl Hw]. split; [now rewrite set_chunk_bit_length|].
  apply Forall_alter; [done|]. intros w _ Hb. unfold bit_of.
  assert (0 <= i mod 64 < 64) as Hm by (apply Z.mod_pos_bound; lia).
  apply is_word_bits.
  - apply Z.lor_nonneg. split; [apply Hb|]. rewrite Z.shiftl_1_l. apply Z.pow_nonneg. lia.
  - intros k Hk. rewrite testbit_lor_bit by lia. rewrite (word_high_bits w k Hb Hk).
    apply Z.eqb_neq. lia.
Qed.

(** ** Completion *)
Lemma word_full w : is_word w -> (w =? u64_max) = true <-> forall k, 0 <= k < 64 -> Z.testbit w k = true.
Proof.
  intros Hw. rewrite Z.eqb_eq. change u64_max with (Z.ones 64). split.
  - intros -> k Hk. apply Z.ones_spec_low. lia.
  - intros H. apply Z.bits_inj'. intros k Hk. destruct (Z.lt_ge_cases k 64).
    + rewrite Z.ones_spec_low by lia. apply H. lia.
    + rewrite Z.ones_spec_high by lia. now apply word_high_bits.
Qed.

Lemma word_partial w r : 0 <= r ->
  (Z.land w (Z.shiftl 1 r - 1) =? Z.shiftl 1 r - 1) = true
  <-> forall k, 0 <= k < r -> Z.testbit w k = true.
Proof.
  intros Hr. rewrite Z.eqb_eq. replace (Z.shiftl 1 r - 1) with (Z.ones r)
    by (rewrite Z.ones_equiv, Z.shiftl_1_l; lia). split.
  - intros H k Hk. apply (f_equal (fun z => Z.testbit z k)) in H.
    rewrite Z.land_spec, Z.ones_spec_low, andb_true_r in H by lia. done.
  - intros H. apply Z.bits_inj'. intros k Hk. rewrite Z.land_spec.
    destruct (Z.lt_ge_cases k r).
    + rewrite Z.ones_spec_low, andb_true_r by lia. apply H. lia.
    + now rewrite Z.ones_spec_high, andb_false_r by lia.
Qed.

(** Every bit below [n] is set. *)
Definition full (words : list Z) (n : Z) : Prop := forall i, 0 <= i < n -> bit words i = true.

Lemma bit_word words (q : nat) k w :
  0 <= k < 64 -> words !! q = Some w -> bit words (64 * Z.of_nat q + k) = Z.testbit w k.
Proof.
  intros Hk E. unfold bit, word_of.
  rewrite (Z.mul_comm 64), (Z.add_comm (_ * 64)), Z.div_add, Z.div_small, Z.add_0_l by lia.
  rewrite Nat2Z.id, E. rewrite Z.mod_add, Z.mod_small by lia. done.
Qed.

(** The full words hold the bits below [64 * q]. *)
Lemma full_words words q :
  Forall is_word words -> (q <= length words)%nat ->
  existsb (fun w => negb (w =? u64_max)) (take q words) = false
  <-> full words (64 * Z.of_nat q).
Proof.
  intros Hw Hq. split.
  - intros H i Hi. set (p := Z.to_nat (i / 64)).
    pose proof (Z.div_mod i 64 ltac:(lia)) as Hd. pose proof (Z.mod_pos_bound i 64 ltac:(lia)).
    assert ((p < q)%nat) as Hp by (unfold p; apply Nat2Z.inj_lt; pose proof (Z.div_pos i 64); lia).
    destruct (lookup_lt_is_Some_2 words p) as [w E]; [lia|].
    assert (Forall (fun w => w = u64_max) (take q words)) as Hf.
    { apply List.Forall_forall. intros x Hx. destruct (Z.eqb_spec x u64_max); [done|].
      exfalso. enough (existsb (fun w => negb (w =? u64_max)) (take q words) = true) by congruence.
      apply existsb_exists. exists x. split; [done|]. now apply negb_true_iff, Z.eqb_neq. }
    assert (take q words !! p = Some w) as E' by now rewrite lookup_take_lt.
    pose proof (proj1 (Forall_lookup _ _) Hf _ _ E') as ->. pose proof (proj1 (Forall_lookup _ _) Hw _ _ E) as Hx.
    replace i with (64 * Z.of_nat p + i mod 64) by (unfold p; pose proof (Z.div_pos i 64); lia).
    rewrite (bit_word words p (i mod 64) _ H0 E).
    apply (proj1 (word_full _ Hx)); [apply Z.eqb_refl|lia].
  - intros H. apply not_true_is_false. intros (w & Hin & Hne)%existsb_exists.
    apply list_elem_of_In, list_elem_of_lookup in Hin as (p & E).
    pose proof (lookup_lt_Some _ _ _ E) as Hp. rewrite length_take in Hp.
    rewrite lookup_take_lt in E by lia. pose proof (proj1 (Forall_lookup _ _) Hw _ _ E) as Hx.
    apply negb_true_iff in Hne. enough ((w =? u64_max) = true) by congruence.
    apply (word_full w Hx). intros k Hk. rewrite <- (bit_word words p k w Hk E). apply H. lia.
Qed.

Lemma all_bits_set_spec words n :
  0 <= n -> sized words n ->
  exists b, all_bits_set words n = Some b /\ (b = true <-> full words n).
Proof.
  intros Hn [Hl Hw]. unfold all_bits_set.
  pose proof (Z.div_mod n 64 ltac:(lia)) as Hd. pose proof (Z.mod_pos_bound n 64 ltac:(lia)) as Hm.
  pose proof (Z.div_pos n 64). unfold bitmap_words_for, div_ceil in Hl.
  destruct (Z.eqb_spec n 0) as [->|Hn0].
  { exists true. split; [done|]. split; [|done]. intros _ i Hi. lia. }
  set (q := Z.to_nat (n / 64)) in *. assert (Z.of_nat q = n / 64) as Hqz by (unfold q; lia).
  assert ((q <= length words)%nat) as Hq by (rewrite Hl; destruct (n mod 64 =? 0); lia).
  rewrite (proj2 (Nat.ltb_ge _ _) Hq). pose proof (full_words words q Hw Hq) as Hf.
  destruct (existsb _ _).
  - exists false. split; [done|]. split; [done|]. intros H'. symmetry. apply Hf. intros i Hi. apply H'. lia.
  - pose proof (proj1 Hf eq_refl) as H1. destruct (Z.eqb_spec (n mod 64) 0) as [E0|E0].
    + exists true. split; [done|]. split; [|done]. intros _ i Hi. apply H1. lia.
    + destruct (lookup_lt_is_Some_2 words q) as [w E]; [lia|]. rewrite E. cbn [fmap option_fmap option_map].
      eexists. split; [reflexivity|]. rewrite word_partial by lia. split.
      * intros Hk i Hi. destruct (Z.lt_ge_cases i (64 * Z.of_nat q)); [apply H1; lia|].
        replace i with (64 * Z.of_nat q + (i - 64 * Z.of_nat q)) by lia.
        rewrite (bit_word words q _ w) by (done || lia). apply Hk. lia.
      * intros H' k Hk. rewrite <- (bit_word words q k w) by (done || lia). apply H'. lia.
Qed.
