(* ===== verification/Streaming.v ===== *)
(** * Stream reassembly

    [StreamingState] of src/src/protocol.rs: the per-connection table of streams
    being assembled, with the tombstones of rejected and reaped ones.  An
    operation takes the state to its result and the next state; a failed
    [expect] or an index out of range is [Panic].  Instants are integers; the
    clock is an argument of the operations that read it.  Buffers are their
    contents: [PooledAlignedBuffer::with_len] hands out zeroed bytes. *)

From S2P Require Import Prelude Types Framing Bitmap.

Definition MAX_STREAM_SIZE : Z := 64 * 1024 * 1024.
Definition MAX_INFLIGHT_STREAM_BYTES : Z := 2 * MAX_STREAM_SIZE.
(** Durations in milliseconds. *)
Definition STREAM_IDLE_TIMEOUT : Z := 60000.
Definition MIN_SUSTAINED_RATE_WINDOW : Z := 300000.
Definition MIN_SUSTAINED_BYTES_PER_WINDOW : Z := 8 * 1024.
Definition REJECTED_STREAMS_BITMAP_WORD_BUDGET : Z := 131072.
Definition REJECTED_STREAMS_ENTRY_BUDGET : Z := 4096.

(** ** Data *)
Record InProgressStream := mkStream {
  is_stream_id : Z;
  is_total_size : Z;
  is_type_hash : Z;
  is_actor_id : Z;
  is_correlation_id : Z;
  is_is_response : bool;
  is_schema_hash : option Z;
  is_received_size : Z;
  is_buffer : list Z;
  is_chunk_stride : option Z;
  is_received_chunks : list Z;
  is_expected_chunks : option Z;
  is_duplicate_chunks : Z;
  is_started_at : Z;
  is_last_activity : Z;
  is_total_bytes_progressed : Z;
  is_rate_window_started_at : Z;
  is_progressed_bytes_at_window_start : Z;
}.

Record RejectedStreamTombstone := mkTombstone {
  tb_total_size : Z;
  tb_chunk_stride : option Z;
  tb_expected_chunks : option Z;
  tb_received_chunks : list Z;
}.

Record StreamChunkReservation := mkReservation {
  rv_stream_id : Z;
  rv_chunk_index : Z;
  rv_offset : Z;
  rv_len : Z;
}.

Record CompletedV5Stream := mkCompleted {
  cs_actor_id : Z;
  cs_type_hash : Z;
  cs_correlation_id : Z;
  cs_is_response : bool;
  cs_payload : list Z;
}.

Record StreamingState := mkStreaming {
  active_streams : gmap Z InProgressStream;
  rejected_streams : gmap Z RejectedStreamTombstone;
  rejected_streams_bitmap_words : Z;
  max_concurrent_streams : Z;
}.

Definition streaming_new : StreamingState := mkStreaming ∅ ∅ 0 16.

(** ** Field updates *)
Definition set_active f (s : StreamingState) : StreamingState :=
  mkStreaming (f (active_streams s)) (rejected_streams s)
    (rejected_streams_bitmap_words s) (max_concurrent_streams s).

Definition set_rejected f words (s : StreamingState) : StreamingState :=
  mkStreaming (active_streams s) (f (rejected_streams s)) words (max_concurrent_streams s).

(** The stride, the chunk count and the bitmap, set together. *)
Definition set_stride (stride expected : Z) (st : InProgressStream) : InProgressStream :=
  mkStream (is_stream_id st) (is_total_size st) (is_type_hash st) (is_actor_id st)
    (is_correlation_id st) (is_is_response st) (is_schema_hash st) (is_received_size st)
    (is_buffer st) (Some stride) (zero_words (bitmap_words_for expected)) (Some expected)
    (is_duplicate_chunks st) (is_started_at st) (is_last_activity st)
    (is_total_bytes_progressed st) (is_rate_window_started_at st)
    (is_progressed_bytes_at_window_start st).

Definition set_duplicates n (st : InProgressStream) : InProgressStream :=
  mkStream (is_stream_id st) (is_total_size st) (is_type_hash st) (is_actor_id st)
    (is_correlation_id st) (is_is_response st) (is_schema_hash st) (is_received_size st)
    (is_buffer st) (is_chunk_stride st) (is_received_chunks st) (is_expected_chunks st)
    n (is_started_at st) (is_last_activity st) (is_total_bytes_progressed st)
    (is_rate_window_started_at st) (is_progressed_bytes_at_window_start st).

Definition set_received_chunks words (st : InProgressStream) : InProgressStream :=
  mkStream (is_stream_id st) (is_total_size st) (is_type_hash st) (is_actor_id st)
    (is_correlation_id st) (is_is_response st) (is_schema_hash st) (is_received_size st)
    (is_buffer st) (is_chunk_stride st) words (is_expected_chunks st)
    (is_duplicate_chunks st) (is_started_at st) (is_last_activity st)
    (is_total_bytes_progressed st) (is_rate_window_started_at st)
    (is_progressed_bytes_at_window_start st).

Definition set_buffer buf (st : InProgressStream) : InProgressStream :=
  mkStream (is_stream_id st) (is_total_size st) (is_type_hash st) (is_actor_id st)
    (is_correlation_id st) (is_is_response st) (is_schema_hash st) (is_received_size st)
    buf (is_chunk_stride st) (is_received_chunks st) (is_expected_chunks st)
    (is_duplicate_chunks st) (is_started_at st) (is_last_activity st)
    (is_total_bytes_progressed st) (is_rate_window_started_at st)
    (is_progressed_bytes_at_window_start st).

(** Bytes counted as received, and the progress clock. *)
Definition set_progress received now progressed (st : InProgressStream) : InProgressStream :=
  mkStream (is_stream_id st) (is_total_size st) (is_type_hash st) (is_actor_id st)
    (is_correlation_id st) (is_is_response st) (is_schema_hash st) received
    (is_buffer st) (is_chunk_stride st) (is_received_chunks st) (is_expected_chunks st)
    (is_duplicate_chunks st) (is_started_at st) now progressed
    (is_rate_window_started_at st) (is_progressed_bytes_at_window_start st).

Definition set_window now (st : InProgressStream) : InProgressStream :=
  mkStream (is_stream_id st) (is_total_size st) (is_type_hash st) (is_actor_id st)
    (is_correlation_id st) (is_is_response st) (is_schema_hash st) (is_received_size st)
    (is_buffer st) (is_chunk_stride st) (is_received_chunks st) (is_expected_chunks st)
    (is_duplicate_chunks st) (is_started_at st) (is_last_activity st)
    (is_total_bytes_progressed st) now (is_total_bytes_progressed st).

Definition invalid_data {A} : Result A := Err (Network InvalidData).

(** A boolean that a panicking computation may fail to deliver. *)
Definition or_panic {A} (o : option A) : Result A :=
  match o with Some a => Ok a | None => Panic end.

(** ** [InProgressStream] *)
Definition mark_chunk_received (chunk_index : Z) (st : InProgressStream)
    : bool * InProgressStream :=
  match chunk_bit (is_received_chunks st) chunk_index with
  | None => (false, st)
  | Some true => (false, set_duplicates (saturating_add u32_max (is_duplicate_chunks st) 1) st)
  | Some false => (true, set_received_chunks (set_chunk_bit (is_received_chunks st) chunk_index) st)
  end.

Definition all_chunks_received (st : InProgressStream) : Result bool :=
  or_panic (chunks_complete (is_expected_chunks st) (is_total_size st) (is_received_chunks st)).

(** ** [RejectedStreamTombstone] *)
Definition expected_chunk_count (total_size chunk_len : Z) : Z := div_ceil total_size chunk_len.

Definition establish_stride (chunk_len : Z) (t : RejectedStreamTombstone)
    : RejectedStreamTombstone :=
  if bool_decide (is_Some (tb_chunk_stride t)) || (chunk_len =? 0) then t
  else
    let expected := expected_chunk_count (tb_total_size t) chunk_len in
    mkTombstone (tb_total_size t) (Some chunk_len) (Some expected)
      (zero_words (bitmap_words_for expected)).

Definition tomb_mark_chunk_received (chunk_index : Z) (t : RejectedStreamTombstone)
    : RejectedStreamTombstone :=
  mkTombstone (tb_total_size t) (tb_chunk_stride t) (tb_expected_chunks t)
    (set_chunk_bit (tb_received_chunks t) chunk_index).

Definition tomb_rejected (total_size first_chunk_len : Z) : RejectedStreamTombstone :=
  tomb_mark_chunk_received 0
    (establish_stride first_chunk_len (mkTombstone total_size None None [])).

Definition tomb_is_complete (t : RejectedStreamTombstone) : Result bool :=
  or_panic (chunks_complete (tb_expected_chunks t) (tb_total_size t) (tb_received_chunks t)).

(** ** The tombstone table *)
Definition remove_tombstone (id : Z) (s : StreamingState) : StreamingState :=
  match rejected_streams s !! id with
  | Some removed =>
      set_rejected (delete id)
        (saturating_sub (rejected_streams_bitmap_words s) (len (tb_received_chunks removed))) s
  | None => s
  end.

Definition projected_bitmap_words (id new_words : Z) (s : StreamingState) : option Z :=
  let existing := rejected_streams s !! id in
  if bool_decide (existing = None)
     && (REJECTED_STREAMS_ENTRY_BUDGET <=? map_len (rejected_streams s)) then None
  else
    let previous_words :=
      match existing with Some t => len (tb_received_chunks t) | None => 0 end in
    let projected := saturating_add usize_max
      (saturating_sub (rejected_streams_bitmap_words s) previous_words) new_words in
    if projected <=? REJECTED_STREAMS_BITMAP_WORD_BUDGET then Some projected else None.

Definition try_insert_tombstone (id : Z) (t : RejectedStreamTombstone) (s : StreamingState)
    : bool * StreamingState :=
  match projected_bitmap_words id (len (tb_received_chunks t)) s with
  | None => (false, s)
  | Some words => (true, set_rejected <[id := t]> words s)
  end.

Definition reject_stream (id total_size first_chunk_len : Z) (s : StreamingState)
    : bool * StreamingState :=
  let expected := expected_chunk_count total_size first_chunk_len in
  if expected <=? 1 then (true, remove_tombstone id s)
  else match projected_bitmap_words id (bitmap_words_for expected) s with
       | None => (false, s)
       | Some _ => try_insert_tombstone id (tomb_rejected total_size first_chunk_len) s
       end.

(** A late chunk of a quarantined stream, and the tombstone it may complete. *)
Definition absorb_chunk (id chunk_index : Z) (t : RejectedStreamTombstone) (s : StreamingState)
    : Result unit * StreamingState :=
  let t := tomb_mark_chunk_received chunk_index t in
  let s := set_rejected <[id := t]> (rejected_streams_bitmap_words s) s in
  match tomb_is_complete t with
  | Ok true => (Ok tt, remove_tombstone id s)
  | Ok false => (Ok tt, s)
  | Err e => (Err e, s)
  | Panic => (Panic, s)
  end.

Definition mark_reap_discarded_chunk_received (id chunk_index : Z) (s : StreamingState)
    : Result unit * StreamingState :=
  match rejected_streams s !! id with
  | Some t => absorb_chunk id chunk_index t s
  | None => (Ok tt, s)
  end.

(** ** Starting a stream *)
Definition inflight_bytes (m : gmap Z InProgressStream) : Z :=
  map_sum is_total_size m.

Definition new_stream (h : StreamHeader) (correlation_id : Z) (schema : option Z)
    (is_response : bool) (now : Z) : InProgressStream :=
  mkStream (sh_stream_id h) (sh_total_size h) (sh_type_hash h) (sh_actor_id h)
    correlation_id is_response schema 0
    (replicate (Z.to_nat (sh_total_size h)) 0) None [] None 0 now now 0 now 0.

Definition start_stream_with_correlation_and_kind (h : StreamHeader) (correlation_id : Z)
    (schema : option Z) (is_response : bool) (now : Z) (s : StreamingState)
    : Result unit * StreamingState :=
  if bool_decide (is_Some (active_streams s !! sh_stream_id h)) then (Ok tt, s)
  else if MAX_STREAM_SIZE <? sh_total_size h then (invalid_data, s)
  else if max_concurrent_streams s <=? map_len (active_streams s)
  then (Err (Network ResourceBusy), s)
  else if MAX_INFLIGHT_STREAM_BYTES
          <? saturating_add usize_max (inflight_bytes (active_streams s)) (sh_total_size h)
  then (Err (Network ResourceBusy), s)
  else (Ok tt, set_active
                 <[sh_stream_id h := new_stream h correlation_id schema is_response now]> s).

(** The stride of a stream: the one it has, or this chunk's length. *)
Definition with_stride (chunk_len : Z) (st : InProgressStream) : InProgressStream :=
  match is_chunk_stride st with
  | Some _ => st
  | None => set_stride chunk_len (div_ceil (is_total_size st) chunk_len) st
  end.

Definition reserve_v5_chunk (id chunk_index chunk_len : Z) (s : StreamingState)
    : Result StreamChunkReservation * StreamingState :=
  match active_streams s !! id with
  | None => (invalid_data, s)
  | Some st =>
      if chunk_len =? 0 then (invalid_data, s)
      else
        let st := with_stride chunk_len st in
        let s := set_active <[id := st]> s in
        match is_chunk_stride st, is_expected_chunks st with
        | Some stride, Some expected =>
            if expected <=? chunk_index then (invalid_data, s)
            else match checked_mul usize_max chunk_index stride with
            | None => (invalid_data, s)
            | Some offset =>
                let remaining := is_total_size st - offset in
                if negb (chunk_len =? Z.min remaining stride) then (invalid_data, s)
                else match chunk_bit (is_received_chunks st) chunk_index with
                | None => (Panic, s)
                | Some true =>
                    (invalid_data,
                     set_active <[id := set_duplicates
                       (saturating_add u32_max (is_duplicate_chunks st) 1) st]> s)
                | Some false => (Ok (mkReservation id chunk_index offset chunk_len), s)
                end
            end
        | _, _ => (Panic, s)
        end
  end.

Definition begin_v5_stream (h : StreamHeader) (correlation_id : Z) (is_response : bool)
    (first_chunk_len now : Z) (s : StreamingState)
    : Result StreamChunkReservation * StreamingState :=
  if first_chunk_len =? 0 then (invalid_data, s)
  else if sh_total_size h <? first_chunk_len then (invalid_data, s)
  else match start_stream_with_correlation_and_kind h correlation_id None is_response now s with
       | (Ok tt, s) => reserve_v5_chunk (sh_stream_id h) 0 first_chunk_len s
       | (Err e, s) => (Err e, s)
       | (Panic, s) => (Panic, s)
       end.

Definition is_resource_busy (e : GossipError) : bool := bool_decide (e = Network ResourceBusy).
Definition is_stream_reaped_error (e : GossipError) : bool := bool_decide (e = Network NotFound).

Definition begin_v5_stream_or_discard (h : StreamHeader) (correlation_id : Z)
    (is_response : bool) (first_chunk_len now : Z) (s : StreamingState)
    : Result (option StreamChunkReservation) * StreamingState :=
  let s := remove_tombstone (sh_stream_id h) s in
  match begin_v5_stream h correlation_id is_response first_chunk_len now s with
  | (Ok reservation, s) => (Ok (Some reservation), s)
  | (Err e, s) =>
      if is_resource_busy e then
        match reject_stream (sh_stream_id h) (sh_total_size h) first_chunk_len s with
        | (true, s) => (Ok None, s)
        | (false, s) => (Err (Network QuotaExceeded), s)
        end
      else (Err e, s)
  | (Panic, s) => (Panic, s)
  end.

Definition reserve_v5_chunk_or_discard (id chunk_index chunk_len : Z) (s : StreamingState)
    : Result (option StreamChunkReservation) * StreamingState :=
  match rejected_streams s !! id with
  | Some t => let '(r, s) := absorb_chunk id chunk_index t s in ((fun _ => None) <$> r, s)
  | None => let '(r, s) := reserve_v5_chunk id chunk_index chunk_len s in (Some <$> r, s)
  end.

(** ** Direct reads into a reservation *)

(** The range [start, end) of the buffer the next read may fill. *)
Definition v5_chunk_target (r : StreamChunkReservation) (read : Z) (s : StreamingState)
    : Result (Z * Z) :=
  match active_streams s !! rv_stream_id r with
  | None => Err (Network NotFound)
  | Some st =>
      if rv_len r <? read then invalid_data
      else
        let start := rv_offset r + read in
        let end_ := rv_offset r + rv_len r in
        if (start <=? end_) && (end_ <=? len (is_buffer st)) then Ok (start, end_) else Panic
  end.

(** The reader puts [bytes] at the start of that range. *)
Definition fill_target (r : StreamChunkReservation) (start : Z) (bytes : list Z)
    : StreamingState -> StreamingState :=
  set_active (alter (fun st => set_buffer (copy_from_slice (is_buffer st) (Z.to_nat start) bytes) st)
                (rv_stream_id r)).

Definition record_v5_chunk_progress (r : StreamChunkReservation) (new_bytes now : Z)
    : StreamingState -> StreamingState :=
  set_active (alter (fun st => set_progress (is_received_size st) now
                (saturating_add usize_max (is_total_bytes_progressed st) new_bytes) st)
                (rv_stream_id r)).

Definition commit_v5_chunk (r : StreamChunkReservation) (now : Z) (s : StreamingState)
    : Result (option CompletedV5Stream) * StreamingState :=
  match active_streams s !! rv_stream_id r with
  | None => (invalid_data, s)
  | Some st =>
      match chunk_bit (is_received_chunks st) (rv_chunk_index r) with
      | None => (Panic, s)
      | Some true => (invalid_data, s)
      | Some false =>
          let st := set_progress (is_received_size st + rv_len r) now
                      (is_total_bytes_progressed st)
                      (set_received_chunks
                        (set_chunk_bit (is_received_chunks st) (rv_chunk_index r)) st) in
          let s := set_active <[rv_stream_id r := st]> s in
          match all_chunks_received st with
          | Ok true =>
              (Ok (Some (mkCompleted (is_actor_id st) (is_type_hash st) (is_correlation_id st)
                           (is_is_response st) (is_buffer st))),
               set_active (delete (rv_stream_id r)) s)
          | Ok false => (Ok None, s)
          | Err e => (Err e, s)
          | Panic => (Panic, s)
          end
      end
  end.

(** ** Whole chunks: the legacy path *)
Definition assemble_complete_message_with_correlation (id : Z) (s : StreamingState)
    : Result (option (list Z * Z * option Z)) * StreamingState :=
  match active_streams s !! id with
  | None => (invalid_data, s)
  | Some st =>
      let s := set_active (delete id) s in
      if is_received_size st <? is_total_size st then (invalid_data, s)
      else match all_chunks_received st with
           | Ok true => (Ok (Some (is_buffer st, is_correlation_id st, is_schema_hash st)), s)
           | Ok false => (invalid_data, s)
           | Err e => (Err e, s)
           | Panic => (Panic, s)
           end
  end.

(** The checks of [add_chunk_with_correlation] on a stream whose stride is
    settled: the offset and end of the chunk's range. *)
Definition chunk_range (h : StreamHeader) (data_len : Z) (st : InProgressStream)
    : Result (Z * Z) :=
  let stride := default (sh_chunk_size h) (is_chunk_stride st) in
  if stride <? sh_chunk_size h then invalid_data
  else match checked_mul usize_max (sh_chunk_index h) stride with
  | None => invalid_data
  | Some offset =>
      let end_ := offset + data_len in
      if is_total_size st <? end_ then invalid_data
      else match is_expected_chunks st with
           | Some expected =>
               if expected <=? sh_chunk_index h then invalid_data
               else
                 let want := if sh_chunk_index h + 1 =? expected
                             then is_total_size st - offset else stride in
                 if negb (data_len =? want) then invalid_data else Ok (offset, end_)
           | None => Ok (offset, end_)
           end
  end.

Definition add_chunk_with_correlation (h : StreamHeader) (data : list Z) (now : Z)
    (s : StreamingState) : Result (option (list Z * Z * option Z)) * StreamingState :=
  let id := sh_stream_id h in
  match active_streams s !! id with
  | None => (invalid_data, s)
  | Some st =>
      if negb (sh_total_size h =? 0) && negb (sh_total_size h =? is_total_size st)
      then (invalid_data, s)
      else if is_total_size st <? is_received_size st + len data then (invalid_data, s)
      else if negb (sh_chunk_size h =? len data) then (invalid_data, s)
      else
        let st := if 0 <? sh_chunk_size h then with_stride (sh_chunk_size h) st else st in
        let s := set_active <[id := st]> s in
        match chunk_range h (len data) st with
        | Err e => (Err e, s)
        | Panic => (Panic, s)
        | Ok (offset, _) =>
            let '(fresh, st) := mark_chunk_received (sh_chunk_index h) st in
            if negb fresh then (Ok None, set_active <[id := st]> s)
            else
              let st := set_buffer (copy_from_slice (is_buffer st) (Z.to_nat offset) data) st in
              let st := set_progress (is_received_size st + len data) now
                          (saturating_add usize_max (is_total_bytes_progressed st) (len data)) st in
              let s := set_active <[id := st]> s in
              match all_chunks_received st with
              | Ok true => assemble_complete_message_with_correlation id s
              | Ok false => (Ok None, s)
              | Err e => (Err e, s)
              | Panic => (Panic, s)
              end
        end
  end.

Definition metadata_for (id : Z) (s : StreamingState) : option (Z * Z * Z * bool) :=
  (fun st => (is_actor_id st, is_type_hash st, is_correlation_id st, is_is_response st))
  <$> active_streams s !! id.

Definition abort_stream (id : Z) (s : StreamingState) : bool * StreamingState :=
  (bool_decide (is_Some (active_streams s !! id)), set_active (delete id) s).

Definition finalize_stream_with_correlation (id : Z) (schema : option Z) (s : StreamingState)
    : Result (option (list Z * Z * option Z)) * StreamingState :=
  match active_streams s !! id with
  | Some st =>
      if bool_decide (is_schema_hash st = schema)
      then assemble_complete_message_with_correlation id s
      else (invalid_data, s)
  | None => assemble_complete_message_with_correlation id s
  end.

(** ** The reaper *)
Definition tombstone_reaped_stream (id : Z) (st : InProgressStream) (s : StreamingState)
    : Result bool * StreamingState :=
  match is_chunk_stride st with
  | None => (Ok true, remove_tombstone id s)
  | Some _ =>
      let t := mkTombstone (is_total_size st) (is_chunk_stride st) (is_expected_chunks st)
                 (is_received_chunks st) in
      match tomb_is_complete t with
      | Ok true => (Ok true, remove_tombstone id s)
      | Ok false => let '(b, s) := try_insert_tombstone id t s in (Ok b, s)
      | Err e => (Err e, s)
      | Panic => (Panic, s)
      end
  end.

(** Whether a stream has made no progress for too long, or has not sustained
    the minimum rate over a full window. *)
Definition window_elapsed (now rate_window : Z) (st : InProgressStream) : bool :=
  rate_window <=? now - is_rate_window_started_at st.

Definition is_stale (now idle_timeout rate_window min_bytes : Z) (st : InProgressStream) : bool :=
  (idle_timeout <? now - is_last_activity st)
  || (window_elapsed now rate_window st
      && (saturating_sub (is_total_bytes_progressed st) (is_progressed_bytes_at_window_start st)
          <? min_bytes)).

(** A stream that stays gets a new window once its current one has elapsed. *)
Definition slide_window (now rate_window : Z) (st : InProgressStream) : InProgressStream :=
  if window_elapsed now rate_window st then set_window now st else st.

(** The loop over the reaped streams; the flag is [budget_exhausted]. *)
Fixpoint tombstone_all (reaped : list (Z * InProgressStream)) (exhausted : bool)
    (s : StreamingState) : Result bool * StreamingState :=
  match reaped with
  | [] => (Ok exhausted, s)
  | (id, st) :: rest =>
      match tombstone_reaped_stream id st s with
      | (Ok true, s) => tombstone_all rest exhausted s
      | (Ok false, s) => tombstone_all rest true s
      | (Err e, s) => (Err e, s)
      | (Panic, s) => (Panic, s)
      end
  end.

Definition cleanup_stale_with (now idle_timeout rate_window min_bytes : Z) (s : StreamingState)
    : Result bool * StreamingState :=
  let stale := is_stale now idle_timeout rate_window min_bytes in
  let reaped := map_to_list (filter (fun kv => stale kv.2 = true) (active_streams s)) in
  let kept := slide_window now rate_window
              <$> filter (fun kv => stale kv.2 = false) (active_streams s) in
  let '(r, s) := tombstone_all reaped false (set_active (fun _ => kept) s) in
  (negb <$> r, s).

Definition cleanup_stale (now : Z) : StreamingState -> Result bool * StreamingState :=
  cleanup_stale_with now STREAM_IDLE_TIMEOUT MIN_SUSTAINED_RATE_WINDOW
    MIN_SUSTAINED_BYTES_PER_WINDOW.
