(* ===== verification/StreamInv.v ===== *)
(** * Invariants of stream reassembly

    What one stream and the whole table keep through every operation of
    [Streaming]: sizes, bitmaps and byte counts agree, budgets hold, no
    operation panics, and received bytes sit where the sender put them. *)

From S2P Require Import Prelude Types Framing Bitmap Streaming.

(** ** Sums over chunk indices *)
Fixpoint sum_to (f : Z -> Z) (n : nat) : Z :=
  match n with O => 0 | S m => sum_to f m + f (Z.of_nat m) end.

Lemma sum_to_ext f g n :
  (forall i, 0 <= i < Z.of_nat n -> f i = g i) -> sum_to f n = sum_to g n.
Proof.
  induction n as [|n IH]; intros H; [done|]. cbn. rewrite IH, H; [done|lia|].
  intros i Hi. apply H. lia.
Qed.

Lemma sum_to_update f g n i :
  0 <= i < Z.of_nat n -> (forall j, j <> i -> f j = g j) ->
  sum_to f n = sum_to g n + (f i - g i).
Proof.
  intros Hi H. induction n as [|n IH]; [lia|]. cbn.
  destruct (decide (i = Z.of_nat n)) as [->|Hne].
  - rewrite (sum_to_ext f g n); [lia|]. intros j Hj. apply H. lia.
  - rewrite IH by lia. rewrite (H (Z.of_nat n)) by lia. lia.
Qed.

Lemma sum_to_mono f g n :
  (forall i, 0 <= i < Z.of_nat n -> f i <= g i) -> sum_to f n <= sum_to g n.
Proof.
  induction n as [|n IH]; intros H; cbn; [lia|].
  specialize (IH ltac:(intros; apply H; lia)). specialize (H (Z.of_nat n) ltac:(lia)). lia.
Qed.

(** ** Chunk arithmetic *)

(** The length of chunk [i] of a [total]-byte stream cut every [k] bytes. *)
Definition chunk_len_at (total k i : Z) : Z := Z.min (total - i * k) k.

Lemma chunk_lens_sum total k :
  0 <= total -> 0 < k ->
  sum_to (chunk_len_at total k) (Z.to_nat (div_ceil total k)) = total.
Proof.
  intros Ht Hk. pose proof (div_ceil_spec total k Ht Hk) as Hd.
  assert (forall n : nat, Z.of_nat n <= div_ceil total k ->
    sum_to (chunk_len_at total k) n = Z.min total (Z.of_nat n * k)) as H.
  { induction n as [|n IH]; intros Hn; cbn [sum_to]; [lia|].
    rewrite IH by lia. unfold chunk_len_at.
    assert (Z.of_nat n * k < total) by (apply div_ceil_lt_iff; lia). lia. }
  rewrite H by lia. pose proof (div_ceil_nonneg total k Ht Hk). lia.
Qed.

(** Bytes of the chunks whose bit is set. *)
Definition received_sum (total k : Z) (words : list Z) : Z :=
  sum_to (fun i => if bit words i then chunk_len_at total k i else 0)
    (Z.to_nat (div_ceil total k)).

Section Sums.
Context (total k : Z) (Ht : 0 <= total) (Hk : 0 < k).

Lemma chunk_len_pos i : 0 <= i < div_ceil total k -> 0 < chunk_len_at total k i <= k.
Proof using Ht Hk.
  intros Hi. assert (i * k < total) by (apply div_ceil_lt_iff; lia). unfold chunk_len_at. lia.
Qed.

Lemma received_sum_set words n i :
  n = div_ceil total k -> sized words n -> 0 <= i < n -> bit words i = false ->
  received_sum total k (set_chunk_bit words i) = received_sum total k words + chunk_len_at total k i.
Proof using Ht Hk.
  intros -> Hw Hi Hb. unfold received_sum.
  rewrite (sum_to_ext _ (fun j => if bit words j || (i =? j) then chunk_len_at total k j else 0)).
  2: { intros j Hj. now rewrite (bit_set words _ i j Hw) by lia. }
  rewrite (sum_to_update _ (fun j => if bit words j then chunk_len_at total k j else 0) _ i) by
    (try lia; intros j Hj; rewrite (proj2 (Z.eqb_neq i j)) by lia; now rewrite orb_false_r).
  rewrite Z.eqb_refl, Hb. cbn. lia.
Qed.

Lemma received_sum_full words : full words (div_ceil total k) -> received_sum total k words = total.
Proof using Ht Hk.
  intros H. unfold received_sum. rewrite (sum_to_ext _ (chunk_len_at total k));
    [now apply chunk_lens_sum|]. intros i Hi. rewrite H; [done|]. lia.
Qed.

(** A chunk not yet received still fits. *)
Lemma received_sum_room words n i :
  n = div_ceil total k -> sized words n -> 0 <= i < n -> bit words i = false ->
  received_sum total k words + chunk_len_at total k i <= total.
Proof using Ht Hk.
  intros -> Hw Hi Hb. rewrite <- (received_sum_set words (div_ceil total k)) by done.
  rewrite <- (chunk_lens_sum total k) at 2 by done. apply sum_to_mono. intros j Hj.
  pose proof (chunk_len_pos j). destruct (bit _ j); lia.
Qed.

Lemma received_sum_zero n : received_sum total k (zero_words n) = 0.
Proof.
  unfold received_sum. rewrite (sum_to_ext _ (fun _ => 0)).
  - induction (Z.to_nat _); cbn; lia.
  - intros i _. now rewrite bit_zero_words.
Qed.
End Sums.

(** ** One stream *)

(** Stride, chunk count, bitmap and byte count agree. *)
Definition layout_ok (total : Z) (stride expected : option Z) (words : list Z) (received : Z) : Prop :=
  match stride, expected with
  | None, None => words = [] /\ received = 0
  | Some k, Some e =>
      0 < k /\ e = div_ceil total k /\ sized words e /\ received = received_sum total k words
  | _, _ => False
  end.

Record stream_ok (st : InProgressStream) : Prop := {
  so_total : 0 <= is_total_size st <= MAX_STREAM_SIZE;
  so_buffer : len (is_buffer st) = is_total_size st;
  so_layout : layout_ok (is_total_size st) (is_chunk_stride st) (is_expected_chunks st)
                (is_received_chunks st) (is_received_size st);
}.

(** Every byte of a received chunk is the byte of the message [m]. *)
Definition carries (m : list Z) (st : InProgressStream) : Prop :=
  len m = is_total_size st
  /\ forall k, is_chunk_stride st = Some k ->
     forall j, 0 <= j < is_total_size st -> bit (is_received_chunks st) (j / k) = true ->
     is_buffer st !! Z.to_nat j = m !! Z.to_nat j.

Lemma new_stream_ok h c schema r now :
  0 <= sh_total_size h <= MAX_STREAM_SIZE -> stream_ok (new_stream h c schema r now).
Proof.
  intros H. split; cbn; [done| |done]. unfold len. rewrite length_replicate. lia.
Qed.

Lemma with_stride_ok n st : 0 < n -> stream_ok st -> stream_ok (with_stride n st).
Proof.
  intros Hn Hst. destruct Hst as [H1 H2 H3]. unfold with_stride.
  destruct (is_chunk_stride st) as [k|] eqn:E; [split; try done; now rewrite E|].
  split; cbn; [done|done|]. split_and!; auto using zero_words_sized.
  rewrite received_sum_zero. unfold layout_ok in H3.
  destruct (is_expected_chunks st); [done|]. now destruct H3.
Qed.

(** After that the stride is settled. *)
Lemma with_stride_settled n st :
  0 < n -> stream_ok st ->
  exists k, is_chunk_stride (with_stride n st) = Some k /\ 0 < k
    /\ is_expected_chunks (with_stride n st) = Some (div_ceil (is_total_size st) k)
    /\ sized (is_received_chunks (with_stride n st)) (div_ceil (is_total_size st) k)
    /\ is_received_size (with_stride n st)
       = received_sum (is_total_size st) k (is_received_chunks (with_stride n st))
    /\ (is_chunk_stride st = Some k \/ (is_chunk_stride st = None /\ k = n)).
Proof.
  intros Hn Hst. pose proof (so_layout _ (with_stride_ok n st Hn Hst)) as H.
  assert (is_total_size (with_stride n st) = is_total_size st) as Et
    by (unfold with_stride; now destruct (is_chunk_stride st)).
  rewrite Et in H. unfold layout_ok in H.
  destruct (is_chunk_stride (with_stride n st)) as [k|] eqn:Ek.
  - destruct (is_expected_chunks (with_stride n st)) as [e|]; [|done].
    destruct H as (H1 & -> & H3 & H4). exists k. split_and!; auto.
    unfold with_stride in Ek. destruct (is_chunk_stride st) as [k'|] eqn:E; [rewrite E in Ek; auto|].
    cbn in Ek. right. split; [done|congruence].
  - unfold with_stride in Ek. destruct (is_chunk_stride st) eqn:E; [congruence|done].
Qed.

Lemma with_stride_carries n m st : stream_ok st -> carries m st -> carries m (with_stride n st).
Proof.
  intros Hst Hc. unfold with_stride. destruct (is_chunk_stride st) as [k|] eqn:E; [exact Hc|].
  split; [apply Hc|]. cbn. intros k _ j _. now rewrite bit_zero_words.
Qed.

(** Recording a fresh chunk, by either path: the bit, the bytes and the count
    move together. *)
Definition received (i received_now now progressed : Z) (buf : list Z) (st : InProgressStream)
    : InProgressStream :=
  set_progress received_now now progressed
    (set_buffer buf (set_received_chunks (set_chunk_bit (is_received_chunks st) i) st)).

Lemma lookup_copy_from_slice {A} (l src : list A) a j :
  (a + length src <= length l)%nat ->
  copy_from_slice l a src !! j
  = if decide (a <= j < a + length src)%nat then src !! (j - a)%nat else l !! j.
Proof.
  intros H. unfold copy_from_slice. destruct (decide (j < a)%nat) as [Hj|Hj].
  - rewrite lookup_app_l by (rewrite length_take; lia). rewrite lookup_take_lt by done.
    rewrite decide_False by lia. done.
  - rewrite lookup_app_r by (rewrite length_take; lia). rewrite length_take, Nat.min_l by lia.
    destruct (decide (j < a + length src)%nat) as [Hs|Hs].
    + rewrite decide_True by lia. now rewrite lookup_app_l by lia.
    + rewrite decide_False by lia. rewrite lookup_app_r by lia. rewrite lookup_drop. f_equal. lia.
Qed.

Section Received.
Context (st : InProgressStream) (k i : Z).
Context (Hst : stream_ok st) (Hk : is_chunk_stride st = Some k).
Context (Hi : 0 <= i < div_ceil (is_total_size st) k).
Context (Hfresh : bit (is_received_chunks st) i = false).

Lemma settled :
  0 < k /\ is_expected_chunks st = Some (div_ceil (is_total_size st) k)
  /\ sized (is_received_chunks st) (div_ceil (is_total_size st) k)
  /\ is_received_size st = received_sum (is_total_size st) k (is_received_chunks st).
Proof using Hst Hk.
  pose proof (so_layout _ Hst) as H. unfold layout_ok in H. rewrite Hk in H.
  destruct (is_expected_chunks st) as [e|]; [|done]. destruct H as (? & -> & ? & ?). auto.
Qed.

Lemma received_ok now progressed buf :
  len buf = is_total_size st ->
  stream_ok (received i (is_received_size st + chunk_len_at (is_total_size st) k i) now progressed
               buf st).
Proof using Hst Hk Hi Hfresh.
  intros Hb. destruct settled as (H0 & He & Hs & Hr). pose proof (so_total _ Hst).
  split; cbn; [done|done|]. rewrite Hk, He. split_and!; auto using set_chunk_bit_sized.
  rewrite Hr. symmetry. eapply received_sum_set; eauto; lia.
Qed.

(** The chunk's range lies in the buffer. *)
Lemma chunk_range_in : 0 <= i * k /\ i * k + chunk_len_at (is_total_size st) k i <= is_total_size st.
Proof using Hst Hk Hi.
  destruct settled as (H0 & _). unfold chunk_len_at. split; [nia|lia].
Qed.

(** Bytes [chunk] of the message at the chunk's place. *)
Definition chunk_of (m : list Z) (total kk ii : Z) : list Z :=
  slice m (Z.to_nat (ii * kk)) (Z.to_nat (ii * kk + chunk_len_at total kk ii)).

Lemma received_carries m now r progressed buf :
  carries m st -> len buf = is_total_size st ->
  (forall j, 0 <= j < is_total_size st -> j / k <> i -> buf !! Z.to_nat j = is_buffer st !! Z.to_nat j) ->
  (forall j, i * k <= j < i * k + chunk_len_at (is_total_size st) k i ->
     buf !! Z.to_nat j = m !! Z.to_nat j) ->
  carries m (received i r now progressed buf st).
Proof using Hst Hk Hi Hfresh.
  intros [Hm Hc] Hb Hout Hin. destruct settled as (H0 & He & Hs & Hr). split; [done|].
  cbn. rewrite Hk. intros k' [= <-] j Hj. rewrite (bit_set _ _ i (j / k) Hs Hi)
    by (apply Z.div_pos; lia).
  destruct (Z.eqb_spec i (j / k)) as [E|E].
  - intros _. apply Hin. pose proof (Z.div_mod j k ltac:(lia)).
    pose proof (Z.mod_pos_bound j k H0). unfold chunk_len_at. nia.
  - rewrite orb_false_r. intros Hbit. rewrite Hout by (done || congruence). now apply (Hc k Hk).
Qed.
End Received.

(** A complete stream carries the whole message. *)
Lemma complete_carries m st :
  stream_ok st -> carries m st -> all_chunks_received st = Ok true -> is_buffer st = m.
Proof.
  intros Hst [Hm Hc] Ha. pose proof (so_total _ Hst) as Ht. pose proof (so_buffer _ Hst) as Hb.
  unfold all_chunks_received in Ha. pose proof (so_layout _ Hst) as Hl. unfold layout_ok in Hl.
  destruct (is_chunk_stride st) as [k|] eqn:Hk, (is_expected_chunks st) as [e|] eqn:He; try done.
  - destruct Hl as (H0 & -> & Hs & _). cbn in Ha.
    destruct (all_bits_set_spec _ _ (div_ceil_nonneg _ _ (proj1 Ht) H0) Hs) as (b & Eb & Hf).
    rewrite Eb in Ha. cbn in Ha. injection Ha as ->. apply list_eq. intros j.
    destruct (Z.lt_ge_cases (Z.of_nat j) (is_total_size st)) as [Hj|Hj].
    + specialize (Hc k eq_refl (Z.of_nat j) ltac:(lia)). rewrite Nat2Z.id in Hc. apply Hc.
      apply Hf; [done|]. split; [apply Z.div_pos; lia|].
      apply div_ceil_lt_iff; [lia|done|]. rewrite Z.mul_comm.
      pose proof (Z.mul_div_le (Z.of_nat j) k H0) as Hle. eapply Z.le_lt_trans; [exact Hle|done].
    + unfold len in *. rewrite (proj2 (lookup_ge_None (is_buffer st) j)), (proj2 (lookup_ge_None m j)) by lia. done.
  - cbn in Ha. injection Ha as Ha. apply Z.eqb_eq in Ha. unfold len in *.
    rewrite (nil_length_inv (is_buffer st)), (nil_length_inv m) by lia. done.
Qed.

Lemma all_chunks_received_ok st : stream_ok st -> exists b, all_chunks_received st = Ok b.
Proof.
  intros Hst. pose proof (so_total _ Hst) as Ht. pose proof (so_layout _ Hst) as Hl.
  unfold all_chunks_received, layout_ok in *.
  destruct (is_chunk_stride st) as [k|], (is_expected_chunks st) as [e|]; try done; cbn; [|eauto].
  destruct Hl as (H0 & -> & Hs & _).
  destruct (all_bits_set_spec _ _ (div_ceil_nonneg _ _ (proj1 Ht) H0) Hs) as (b & -> & _). eauto.
Qed.
