(* ===== verification/StreamTable.v ===== *)
(** * The stream table

    The invariant of [StreamingState] as a whole and its preservation by every
    operation: budgets on streams, bytes and tombstones hold, and no operation
    panics. *)

From S2P Require Import Prelude Types Framing Bitmap Streaming StreamInv.

(** A tombstone waits for at least one chunk of its generation. *)
Record tomb_ok (t : RejectedStreamTombstone) : Prop := {
  tk_total : 0 <= tb_total_size t <= MAX_STREAM_SIZE;
  tk_layout : exists k, tb_chunk_stride t = Some k /\ 0 < k
    /\ tb_expected_chunks t = Some (div_ceil (tb_total_size t) k)
    /\ sized (tb_received_chunks t) (div_ceil (tb_total_size t) k)
    /\ ~ full (tb_received_chunks t) (div_ceil (tb_total_size t) k);
}.

Definition tomb_words (t : RejectedStreamTombstone) : Z := len (tb_received_chunks t).

Record table_ok (s : StreamingState) : Prop := {
  ta_streams id st : active_streams s !! id = Some st -> stream_ok st /\ is_stream_id st = id;
  ta_count : map_len (active_streams s) <= max_concurrent_streams s;
  ta_inflight : inflight_bytes (active_streams s) <= MAX_INFLIGHT_STREAM_BYTES;
  ta_tombs id t : rejected_streams s !! id = Some t -> tomb_ok t;
  ta_words : rejected_streams_bitmap_words s = map_sum tomb_words (rejected_streams s);
  ta_budget : map_sum tomb_words (rejected_streams s) <= REJECTED_STREAMS_BITMAP_WORD_BUDGET;
  ta_entries : map_len (rejected_streams s) <= REJECTED_STREAMS_ENTRY_BUDGET;
}.

Lemma streaming_new_ok : table_ok streaming_new.
Proof.
  split; cbn; intros; rewrite ?lookup_empty, ?map_sum_empty in *; done.
Qed.

(** ** Replacing and removing streams *)
Lemma replace_stream_ok id st st' s :
  table_ok s -> active_streams s !! id = Some st ->
  stream_ok st' -> is_total_size st' = is_total_size st -> is_stream_id st' = is_stream_id st ->
  table_ok (set_active <[id := st']> s).
Proof.
  intros [H1 H2 H3 H4 H5 H6 H7] Hst Hok Ht Hid. split; cbn; auto.
  - intros j x. rewrite lookup_insert_Some. intros [[<- <-]|[_ H]]; [|now apply H1 in H].
    apply H1 in Hst as [_ Hst]. split; [done|congruence].
  - now rewrite map_len_replace by eauto.
  - unfold inflight_bytes. rewrite (map_sum_replace _ _ _ st) by done.
    unfold inflight_bytes in H3. lia.
Qed.

Lemma inflight_nonneg s id st : table_ok s -> active_streams s !! id = Some st -> 0 <= is_total_size st.
Proof. intros H Hst. apply (ta_streams _ H) in Hst as [Hst _]. apply (so_total _ Hst). Qed.

Lemma delete_stream_ok id s : table_ok s -> table_ok (set_active (delete id) s).
Proof.
  intros Hs. pose proof Hs as [H1 H2 H3 H4 H5 H6 H7]. split; cbn; auto.
  - intros j x [_ H]%lookup_delete_Some. auto.
  - destruct (active_streams s !! id) eqn:E; [rewrite map_len_delete_present by eauto; lia|].
    now rewrite delete_id.
  - unfold inflight_bytes in *. destruct (active_streams s !! id) as [st|] eqn:E.
    + rewrite (map_sum_delete _ _ _ _ E) in H3. pose proof (inflight_nonneg s id st Hs E). lia.
    + now rewrite delete_id.
Qed.

(** An update of one stream that keeps its size and identity. *)
Lemma alter_stream_ok f id s :
  (forall st, stream_ok st -> stream_ok (f st)) ->
  (forall st, is_total_size (f st) = is_total_size st /\ is_stream_id (f st) = is_stream_id st) ->
  table_ok s -> table_ok (set_active (alter f id) s).
Proof.
  intros Hf Hk Hs. destruct (active_streams s !! id) as [st|] eqn:E.
  - assert (alter f id (active_streams s) = <[id := f st]> (active_streams s)) as Ea.
    { apply map_eq. intros j. destruct (decide (id = j)) as [->|Hj];
        [rewrite lookup_alter_eq, lookup_insert_eq, E; done|].
      now rewrite lookup_alter_ne, lookup_insert_ne. }
    unfold set_active. rewrite Ea. fold (set_active <[id := f st]> s).
    destruct (Hk st) as [Ht Hi]. eapply replace_stream_ok; eauto. apply Hf.
    now apply (ta_streams _ Hs) in E as [? _].
  - unfold set_active. replace (alter f id (active_streams s)) with (active_streams s);
      [now destruct s|].
    apply map_eq. intros j. rewrite lookup_alter. case_decide; [subst; now rewrite E|done].
Qed.

(** ** Tombstones *)
Lemma tomb_words_nonneg s : forall id t, rejected_streams s !! id = Some t -> 0 <= tomb_words t.
Proof. intros. apply len_nonneg. Qed.

Lemma remove_tombstone_ok id s : table_ok s -> table_ok (remove_tombstone id s).
Proof.
  intros Hs. pose proof Hs as [H1 H2 H3 H4 H5 H6 H7]. unfold remove_tombstone.
  destruct (rejected_streams s !! id) as [t|] eqn:E; [|done].
  pose proof (map_sum_delete tomb_words _ _ _ E) as Hd.
  assert (0 <= map_sum tomb_words (delete id (rejected_streams s))) as Hn.
  { apply map_sum_nonneg. intros j x [_ H]%lookup_delete_Some. now apply (tomb_words_nonneg s) in H. }
  pose proof (tomb_words_nonneg s id t E).
  split; cbn; auto.
  - intros j x [_ Hx]%lookup_delete_Some. eauto.
  - unfold saturating_sub. fold (tomb_words t). lia.
  - lia.
  - rewrite map_len_delete_present by eauto. lia.
Qed.

Lemma remove_tombstone_lookup id s j :
  rejected_streams (remove_tombstone id s) !! j
  = if decide (id = j) then None else rejected_streams s !! j.
Proof.
  unfold remove_tombstone. destruct (rejected_streams s !! id) as [t|] eqn:E; cbn.
  - apply lookup_delete.
  - case_decide; [now subst|done].
Qed.

Lemma active_remove_tombstone id s : active_streams (remove_tombstone id s) = active_streams s.
Proof. unfold remove_tombstone. now destruct (rejected_streams s !! id). Qed.

Lemma projected_words_spec id n s w :
  table_ok s -> 0 <= n -> projected_bitmap_words id n s = Some w ->
  (forall t, tomb_words t = n -> w = map_sum tomb_words (<[id := t]> (rejected_streams s)))
  /\ w <= REJECTED_STREAMS_BITMAP_WORD_BUDGET
  /\ forall t, map_len (<[id := t]> (rejected_streams s)) <= REJECTED_STREAMS_ENTRY_BUDGET.
Proof.
  intros Hs Hn. pose proof Hs as [H1 H2 H3 H4 H5 H6 H7]. unfold projected_bitmap_words.
  destruct (rejected_streams s !! id) as [t0|] eqn:E; cbn [bool_decide].
  - rewrite bool_decide_eq_false_2 by done. cbn [andb].
    destruct (Z.leb_spec (saturating_add usize_max (saturating_sub
      (rejected_streams_bitmap_words s) (len (tb_received_chunks t0))) n)
      REJECTED_STREAMS_BITMAP_WORD_BUDGET) as [Hle|]; [|done]. intros [= <-].
    pose proof (map_sum_delete tomb_words _ _ _ E) as Hd.
    assert (0 <= map_sum tomb_words (delete id (rejected_streams s))) as Hnn.
    { apply map_sum_nonneg. intros j x [_ H]%lookup_delete_Some. now apply (tomb_words_nonneg s) in H. }
    split_and!; [|done|].
    + intros t Ht. rewrite (map_sum_replace _ _ _ t0) by done.
      unfold saturating_add, saturating_sub, usize_max, u64_max, REJECTED_STREAMS_BITMAP_WORD_BUDGET in *.
      fold (tomb_words t0) in *. lia.
    + intros t. now rewrite map_len_replace by eauto.
  - rewrite bool_decide_eq_true_2 by done. cbn [andb].
    destruct (Z.leb_spec REJECTED_STREAMS_ENTRY_BUDGET (map_len (rejected_streams s))); [done|].
    destruct (Z.leb_spec (saturating_add usize_max (saturating_sub
      (rejected_streams_bitmap_words s) 0) n) REJECTED_STREAMS_BITMAP_WORD_BUDGET) as [Hle|]; [|done].
    intros [= <-]. assert (0 <= map_sum tomb_words (rejected_streams s)) as Hnn
      by (apply map_sum_nonneg, tomb_words_nonneg).
    split_and!; [|done|].
    + intros t Ht. rewrite map_sum_insert by done.
      unfold saturating_add, saturating_sub, usize_max, u64_max, REJECTED_STREAMS_BITMAP_WORD_BUDGET in *.
      lia.
    + intros t. rewrite map_len_insert_fresh by done. lia.
Qed.

Lemma try_insert_tombstone_ok id t s :
  table_ok s -> tomb_ok t -> table_ok (try_insert_tombstone id t s).2.
Proof.
  intros Hs Ht. unfold try_insert_tombstone.
  destruct (projected_bitmap_words id _ s) as [w|] eqn:E; [|done].
  apply projected_words_spec in E as (Hw & Hb & He); [|done|apply len_nonneg].
  pose proof Hs as [H1 H2 H3 H4 H5 H6 H7]. specialize (Hw t eq_refl). split; cbn; auto.
  - intros j x. rewrite lookup_insert_Some. intros [[<- <-]|[_ H]]; [done|eauto].
  - lia.
Qed.

(** The completion test of a tombstone, decided. *)
Lemma tomb_is_complete_spec t k :
  0 <= tb_total_size t -> 0 < k -> tb_expected_chunks t = Some (div_ceil (tb_total_size t) k) ->
  sized (tb_received_chunks t) (div_ceil (tb_total_size t) k) ->
  exists b, tomb_is_complete t = Ok b
    /\ (b = true <-> full (tb_received_chunks t) (div_ceil (tb_total_size t) k)).
Proof.
  intros Ht Hk He Hs. unfold tomb_is_complete. rewrite He. cbn.
  destruct (all_bits_set_spec _ _ (div_ceil_nonneg _ _ Ht Hk) Hs) as (b & -> & Hb).
  exists b. auto.
Qed.

Lemma tomb_rejected_ok total n :
  0 <= total <= MAX_STREAM_SIZE -> 0 < n -> 1 < expected_chunk_count total n ->
  tomb_ok (tomb_rejected total n).
Proof.
  intros Ht Hn He. unfold tomb_rejected, establish_stride. cbn.
  rewrite (proj2 (Z.eqb_neq n 0)) by lia. cbn. unfold expected_chunk_count in *.
  split; cbn; [done|]. exists n. split_and!; auto using set_chunk_bit_sized, zero_words_sized.
  intros H. specialize (H 1 ltac:(lia)).
  rewrite (bit_set _ (div_ceil total n) 0 1 (zero_words_sized _)) in H by lia.
  now rewrite bit_zero_words in H.
Qed.

Lemma tomb_mark_ok i t :
  tomb_ok t -> exists b, tomb_is_complete (tomb_mark_chunk_received i t) = Ok b
    /\ (b = false -> tomb_ok (tomb_mark_chunk_received i t)).
Proof.
  intros [Ht (k & Hk & H0 & He & Hs & _)].
  set (t' := tomb_mark_chunk_received i t).
  destruct (tomb_is_complete_spec t' k) as (b & Hb & Hf); auto.
  - cbn. lia.
  - cbn. now apply set_chunk_bit_sized.
  - exists b. split; [done|]. intros ->. split; [done|]. exists k.
    split_and!; auto; [now apply set_chunk_bit_sized|]. intros H. now apply Hf in H.
Qed.

(** Rewriting an entry in place, with a bitmap of the same length. *)
Lemma update_tomb_ok id t t' s :
  table_ok s -> rejected_streams s !! id = Some t -> tomb_ok t' ->
  tomb_words t' = tomb_words t ->
  table_ok (set_rejected <[id := t']> (rejected_streams_bitmap_words s) s).
Proof.
  intros [H1 H2 H3 H4 H5 H6 H7] E Ht' Hw. split; cbn; auto.
  - intros j x. rewrite lookup_insert_Some. intros [[<- <-]|[_ H]]; [done|eauto].
  - rewrite (map_sum_replace _ _ _ t) by done. lia.
  - rewrite (map_sum_replace _ _ _ t) by done. lia.
  - now rewrite map_len_replace by eauto.
Qed.

Lemma tomb_words_mark i t : tomb_words (tomb_mark_chunk_received i t) = tomb_words t.
Proof. unfold tomb_words, len. cbn. now rewrite set_chunk_bit_length. Qed.

Lemma remove_updated_tomb id t i s :
  rejected_streams s !! id = Some t ->
  remove_tombstone id
    (set_rejected <[id := tomb_mark_chunk_received i t]> (rejected_streams_bitmap_words s) s)
  = remove_tombstone id s.
Proof.
  intros E. unfold remove_tombstone. cbn. rewrite lookup_insert_eq, E.
  unfold set_rejected, len. cbn. now rewrite delete_insert_eq, set_chunk_bit_length.
Qed.

Lemma absorb_chunk_ok id i t s :
  table_ok s -> rejected_streams s !! id = Some t ->
  (absorb_chunk id i t s).1 = Ok tt /\ table_ok (absorb_chunk id i t s).2.
Proof.
  intros Hs E. pose proof (ta_tombs _ Hs _ _ E) as Ht. unfold absorb_chunk.
  destruct (tomb_mark_ok i t Ht) as ([|] & -> & Hb); cbn; split; try done.
  - rewrite remove_updated_tomb by done. now apply remove_tombstone_ok.
  - eapply update_tomb_ok; eauto. apply tomb_words_mark.
Qed.

Lemma reject_stream_ok id total n s :
  table_ok s -> 0 <= total <= MAX_STREAM_SIZE -> 0 < n -> table_ok (reject_stream id total n s).2.
Proof.
  intros Hs Ht Hn. unfold reject_stream.
  destruct (Z.leb_spec (expected_chunk_count total n) 1); [now apply remove_tombstone_ok|].
  destruct (projected_bitmap_words _ _ s); [|done].
  apply try_insert_tombstone_ok; [done|]. now apply tomb_rejected_ok.
Qed.

Lemma active_try_insert id t s : active_streams (try_insert_tombstone id t s).2 = active_streams s.
Proof. unfold try_insert_tombstone. now destruct (projected_bitmap_words _ _ s). Qed.

Lemma active_reject id total n s : active_streams (reject_stream id total n s).2 = active_streams s.
Proof.
  unfold reject_stream. destruct (_ <=? 1); [apply active_remove_tombstone|].
  destruct (projected_bitmap_words _ _ s); [apply active_try_insert|done].
Qed.

(** ** Starting streams *)
Lemma start_stream_ok h c schema r now s :
  table_ok s -> 0 <= sh_total_size h ->
  let '(res, s') := start_stream_with_correlation_and_kind h c schema r now s in
  table_ok s' /\ res <> Panic
  /\ (res = Ok tt -> is_Some (active_streams s' !! sh_stream_id h))
  /\ (res = Err (Network ResourceBusy) -> sh_total_size h <= MAX_STREAM_SIZE /\ s' = s).
Proof.
  intros Hs Ht. unfold start_stream_with_correlation_and_kind.
  case_bool_decide as Ha; [done|]. destruct (Z.ltb_spec MAX_STREAM_SIZE (sh_total_size h)); [done|].
  destruct (Z.leb_spec (max_concurrent_streams s) (map_len (active_streams s))); [done|].
  apply eq_None_not_Some in Ha. pose proof Hs as [H1 H2 H3 H4 H5 H6 H7].
  destruct (Z.ltb_spec MAX_INFLIGHT_STREAM_BYTES (saturating_add usize_max
    (inflight_bytes (active_streams s)) (sh_total_size h))) as [|Hin]; [done|].
  split_and!; try done; [|intros _; cbn; rewrite lookup_insert_eq; eauto].
  split; cbn; auto.
  - intros id st. rewrite lookup_insert_Some. intros [[<- <-]|[_ H']]; [|now apply H1 in H'].
    split; [|done]. apply new_stream_ok. lia.
  - rewrite map_len_insert_fresh by done. lia.
  - unfold inflight_bytes in *. rewrite map_sum_insert by done. cbn.
    unfold saturating_add, usize_max, u64_max, MAX_INFLIGHT_STREAM_BYTES, MAX_STREAM_SIZE in *. lia.
Qed.

(** A reservation that matches the stream it was made on. *)
Definition fits (r : StreamChunkReservation) (st : InProgressStream) : Prop :=
  exists k, is_chunk_stride st = Some k
    /\ 0 <= rv_chunk_index r < div_ceil (is_total_size st) k
    /\ rv_offset r = rv_chunk_index r * k
    /\ rv_len r = chunk_len_at (is_total_size st) k (rv_chunk_index r)
    /\ bit (is_received_chunks st) (rv_chunk_index r) = false.

(** ** Reserving and committing chunks *)

Definition count_duplicate (st : InProgressStream) : InProgressStream :=
  set_duplicates (saturating_add u32_max (is_duplicate_chunks st) 1) st.

(** What [reserve_v5_chunk] does to an active stream, with its stride [k]
    settled. *)
Lemma reserve_cases id i n s st :
  table_ok s -> active_streams s !! id = Some st -> 0 <= i -> 0 < n ->
  let st' := with_stride n st in
  exists k, is_chunk_stride st' = Some k /\ 0 < k /\ stream_ok st'
    /\ (is_chunk_stride st = Some k \/ (is_chunk_stride st = None /\ k = n))
    /\ (if bool_decide (i < div_ceil (is_total_size st) k)
           && (n =? chunk_len_at (is_total_size st) k i)
           && negb (bit (is_received_chunks st') i)
        then reserve_v5_chunk id i n s
             = (Ok (mkReservation id i (i * k) n), set_active <[id := st']> s)
        else exists f, reserve_v5_chunk id i n s = (invalid_data, set_active <[id := f st']> s)
             /\ (f = count_duplicate \/ f = (fun x => x))).
Proof.
  intros Hs Hst Hi Hn st'. pose proof (ta_streams _ Hs _ _ Hst) as [Hok _].
  pose proof (with_stride_ok n st Hn Hok) as Hok'. fold st' in Hok'.
  destruct (with_stride_settled n st Hn Hok) as (k & Hk & H0 & He & Hsz & _ & Hor).
  fold st' in Hk, He, Hsz. exists k. split_and!; auto. cbv zeta.
  assert (is_total_size st' = is_total_size st) as Et
    by (unfold st', with_stride; now destruct (is_chunk_stride st)).
  pose proof (so_total _ Hok) as Htot. unfold reserve_v5_chunk. rewrite Hst.
  rewrite (proj2 (Z.eqb_neq n 0)) by lia. fold st'. rewrite Hk, He. cbv zeta.
  destruct (Z.leb_spec (div_ceil (is_total_size st) k) i) as [Hlt|Hlt].
  { rewrite bool_decide_eq_false_2 by lia. cbn. exists (fun x => x). auto. }
  rewrite bool_decide_eq_true_2 by lia. cbn [andb].
  assert (i * k < is_total_size st) as Hik by (apply div_ceil_lt_iff; lia).
  unfold checked_mul. rewrite (proj2 (Z.leb_le (i * k) usize_max))
    by (unfold usize_max, u64_max, MAX_STREAM_SIZE in *; lia).
  rewrite Et. unfold chunk_len_at. destruct (n =? _); cbn [andb negb];
    [|exists (fun x => x); auto].
  rewrite (chunk_bit_sized _ _ i Hsz) by lia.
  destruct (bit (is_received_chunks st') i); cbn [negb]; [|done].
  exists count_duplicate.
  split; [|auto]. f_equal. unfold set_active. cbn. now rewrite insert_insert_eq.
Qed.

Lemma set_duplicates_ok n st : stream_ok st -> stream_ok (set_duplicates n st).
Proof. intros [H1 H2 H3]. now split. Qed.

Lemma with_stride_same n st :
  is_total_size (with_stride n st) = is_total_size st
  /\ is_stream_id (with_stride n st) = is_stream_id st.
Proof. unfold with_stride. now destruct (is_chunk_stride st). Qed.

Lemma reserve_ok id i n s :
  table_ok s -> 0 <= i -> 0 <= n ->
  let '(res, s') := reserve_v5_chunk id i n s in
  table_ok s' /\ res <> Panic /\ res <> Err (Network ResourceBusy)
  /\ (forall r, res = Ok r -> rv_stream_id r = id
        /\ exists st, active_streams s' !! id = Some st /\ fits r st)
  /\ (forall j, j <> id -> active_streams s' !! j = active_streams s !! j)
  /\ rejected_streams s' = rejected_streams s.
Proof.
  intros Hs Hi Hn. destruct (active_streams s !! id) as [st|] eqn:E.
  2: { unfold reserve_v5_chunk. rewrite E. split_and!; try done. }
  destruct (Z.eq_dec n 0) as [->|Hn0].
  { unfold reserve_v5_chunk. rewrite E. cbn. split_and!; try done. }
  destruct (reserve_cases id i n s st Hs E Hi ltac:(lia)) as (k & Hk & H0 & Hok & _ & Hc).
  destruct (with_stride_same n st) as [Et Ei]. pose proof (ta_streams _ Hs _ _ E) as [_ Hid].
  match type of Hc with (if ?b then _ else _) => destruct b eqn:Hb end;
    [|destruct Hc as (f & Hc & Hf)]; rewrite Hc.
  - apply andb_true_iff in Hb as [[Hl%bool_decide_eq_true Hlen%Z.eqb_eq]%andb_true_iff
      Hbit%negb_true_iff].
    split_and!; try done.
    + eapply replace_stream_ok; eauto; congruence.
    + intros r [= <-]. split; [done|]. exists (with_stride n st). cbn.
      split; [apply lookup_insert_eq|]. exists k. cbn. rewrite Et. auto.
    + intros j Hj. cbn. now rewrite lookup_insert_ne.
  - split_and!; try done.
    + assert (stream_ok (f (with_stride n st)) /\ is_total_size (f (with_stride n st)) = is_total_size st
        /\ is_stream_id (f (with_stride n st)) = is_stream_id st) as (Ho & Ht & Hi')
        by (destruct Hf as [-> | ->]; [split; [now apply set_duplicates_ok|now split]|auto]).
      eapply replace_stream_ok; eauto.
    + intros j Hj. cbn. now rewrite lookup_insert_ne.
Qed.

Lemma begin_ok h c r n now s :
  table_ok s -> 0 <= sh_total_size h -> 0 <= n ->
  let '(res, s') := begin_v5_stream h c r n now s in
  table_ok s' /\ res <> Panic
  /\ (res = Err (Network ResourceBusy) -> s' = s /\ 0 < n /\ sh_total_size h <= MAX_STREAM_SIZE)
  /\ (forall rv, res = Ok rv -> rv_stream_id rv = sh_stream_id h
        /\ exists st, active_streams s' !! sh_stream_id h = Some st /\ fits rv st).
Proof.
  intros Hs Ht Hn. unfold begin_v5_stream. destruct (Z.eqb_spec n 0); [done|].
  destruct (_ <? n); [done|].
  pose proof (start_stream_ok h c None r now s Hs Ht) as H.
  destruct (start_stream_with_correlation_and_kind h c None r now s) as [[[]|e|] s1];
    destruct H as (H1 & H2 & H3 & H4); try done.
  - pose proof (reserve_ok (sh_stream_id h) 0 n s1 H1 ltac:(lia) Hn) as H'.
    destruct (reserve_v5_chunk _ 0 n s1) as [res s2]. destruct H' as (G1 & G2 & G3 & G4 & _).
    split_and!; auto. done.
  - split_and!; try done. intros [= ->]. destruct (H4 eq_refl). split_and!; [done|lia|done].
Qed.

Lemma begin_or_discard_ok h c r n now s :
  table_ok s -> 0 <= sh_total_size h -> 0 <= n ->
  let '(res, s') := begin_v5_stream_or_discard h c r n now s in
  table_ok s' /\ res <> Panic
  /\ (forall rv, res = Ok (Some rv) -> rv_stream_id rv = sh_stream_id h
        /\ exists st, active_streams s' !! sh_stream_id h = Some st /\ fits rv st).
Proof.
  intros Hs Ht Hn. unfold begin_v5_stream_or_discard.
  pose proof (begin_ok h c r n now _ (remove_tombstone_ok (sh_stream_id h) s Hs) Ht Hn) as H.
  destruct (begin_v5_stream h c r n now _) as [[rv|e|] s1]; destruct H as (H1 & H2 & H3 & H4);
    try done.
  - split_and!; try done. intros rv' [= <-]. auto.
  - unfold is_resource_busy. case_bool_decide as He; [|done]. subst e.
    destruct (H3 eq_refl) as (_ & H0 & Hmax).
    pose proof (reject_stream_ok (sh_stream_id h) (sh_total_size h) n s1 H1 ltac:(lia) H0) as Hr.
    destruct (reject_stream _ _ _ s1) as [[|] s2]; done.
Qed.

Lemma commit_ok r now s :
  table_ok s -> (forall st, active_streams s !! rv_stream_id r = Some st -> fits r st) ->
  let '(res, s') := commit_v5_chunk r now s in
  table_ok s' /\ res <> Panic
  /\ (forall c, res = Ok (Some c) -> len (cs_payload c) <= MAX_STREAM_SIZE).
Proof.
  intros Hs Hf. unfold commit_v5_chunk.
  destruct (active_streams s !! rv_stream_id r) as [st|] eqn:E; [|done].
  destruct (Hf st eq_refl) as (k & Hk & Hi & Ho & Hl & Hb).
  pose proof (ta_streams _ Hs _ _ E) as [Hok Hid].
  destruct (settled st k Hok Hk) as (H0 & He & Hsz & Hr).
  rewrite (chunk_bit_sized _ _ _ Hsz Hi), Hb.
  pose proof (received_ok st k (rv_chunk_index r) Hok Hk Hi Hb now (is_total_bytes_progressed st)
                (is_buffer st) (so_buffer _ Hok)) as Hok'. rewrite <- Hl in Hok'.
  set (st' := set_progress _ _ _ _).
  assert (st' = received (rv_chunk_index r) (is_received_size st + rv_len r) now
            (is_total_bytes_progressed st) (is_buffer st) st) as Est by reflexivity.
  rewrite <- Est in Hok'.
  assert (table_ok (set_active <[rv_stream_id r := st']> s)) as Hs'
    by (eapply replace_stream_ok; eauto).
  destruct (all_chunks_received_ok st' Hok') as (b & ->). destruct b; [|done].
  split_and!; [now apply delete_stream_ok|done|]. intros c [= <-]. cbn [cs_payload].
  pose proof (so_buffer _ Hok') as Hl'. cbn in Hl'. rewrite Hl'. apply (so_total _ Hok).
Qed.

(** ** Whole chunks *)

(** The length a chunk must have is the one its index implies. *)
Lemma want_chunk_len total k i :
  0 <= total -> 0 < k -> 0 <= i < div_ceil total k ->
  (if i + 1 =? div_ceil total k then total - i * k else k) = chunk_len_at total k i.
Proof.
  intros Ht Hk Hi. unfold chunk_len_at. pose proof (div_ceil_spec total k Ht Hk).
  destruct (Z.eqb_spec (i + 1) (div_ceil total k)) as [E|E].
  - rewrite <- E in *. nia.
  - assert ((i + 1) * k < total) by (apply div_ceil_lt_iff; lia). lia.
Qed.

Lemma chunk_range_spec h n k st :
  stream_ok st -> is_chunk_stride st = Some k -> 0 <= sh_chunk_index h -> sh_chunk_size h = n ->
  if bool_decide (sh_chunk_index h < div_ceil (is_total_size st) k)
     && (n =? chunk_len_at (is_total_size st) k (sh_chunk_index h))
  then chunk_range h n st = Ok (sh_chunk_index h * k, sh_chunk_index h * k + n)
  else chunk_range h n st = invalid_data.
Proof.
  intros Hok Hk Hi Hn. destruct (settled st k Hok Hk) as (H0 & He & _ & _).
  pose proof (so_total _ Hok) as Ht. unfold chunk_range. rewrite Hk, He, Hn.
  change (default n (Some k)) with k.
  set (i := sh_chunk_index h) in *. set (total := is_total_size st) in *.
  case_bool_decide as Hlt.
  - pose proof (want_chunk_len total k i ltac:(lia) H0 ltac:(lia)) as Hw.
    assert (i * k < total) as Hik by (apply div_ceil_lt_iff; lia).
    rewrite (proj2 (Z.leb_gt (div_ceil total k) i)) by lia.
    unfold checked_mul. rewrite (proj2 (Z.leb_le (i * k) usize_max))
      by (unfold usize_max, u64_max, MAX_STREAM_SIZE in *; lia).
    rewrite Hw. cbn [andb]. destruct (Z.eqb_spec n (chunk_len_at total k i)) as [->|Hne]; cbn [negb].
    + pose proof (chunk_len_pos total k ltac:(lia) H0 i ltac:(lia)) as Hp.
      rewrite (proj2 (Z.ltb_ge k _)) by lia.
      rewrite (proj2 (Z.ltb_ge total _)) by (unfold chunk_len_at; lia). done.
    + destruct (k <? n); [done|]. now destruct (total <? i * k + n).
  - cbn [andb]. rewrite (proj2 (Z.leb_le (div_ceil total k) i)) by lia.
    destruct (k <? n); [done|]. unfold checked_mul. destruct (i * k <=? usize_max); [|done].
    now destruct (total <? i * k + n).
Qed.

Lemma assemble_ok id s :
  table_ok s ->
  let '(res, s') := assemble_complete_message_with_correlation id s in
  table_ok s' /\ res <> Panic.
Proof.
  intros Hs. unfold assemble_complete_message_with_correlation.
  destruct (active_streams s !! id) as [st|] eqn:E; [|done].
  pose proof (ta_streams _ Hs _ _ E) as [Hok _]. pose proof (delete_stream_ok id s Hs).
  destruct (_ <? _); [done|]. destruct (all_chunks_received_ok st Hok) as ([] & ->); done.
Qed.

(** What [add_chunk_with_correlation] does with a chunk that passes its checks
    and is new. *)
Definition chunk_added (h : StreamHeader) (data : list Z) (k now : Z) (st : InProgressStream)
    : InProgressStream :=
  received (sh_chunk_index h) (is_received_size st + len data) now
    (saturating_add usize_max (is_total_bytes_progressed st) (len data))
    (copy_from_slice (is_buffer st) (Z.to_nat (sh_chunk_index h * k)) data) st.

Lemma add_chunk_fresh h data k now s st :
  table_ok s -> active_streams s !! sh_stream_id h = Some st ->
  (sh_total_size h = 0 \/ sh_total_size h = is_total_size st) ->
  sh_chunk_size h = len data -> 0 < len data ->
  let st' := with_stride (len data) st in
  is_chunk_stride st' = Some k ->
  0 <= sh_chunk_index h < div_ceil (is_total_size st) k ->
  len data = chunk_len_at (is_total_size st) k (sh_chunk_index h) ->
  bit (is_received_chunks st') (sh_chunk_index h) = false ->
  let s' := set_active <[sh_stream_id h := chunk_added h data k now st']> s in
  stream_ok (chunk_added h data k now st')
  /\ add_chunk_with_correlation h data now s
     = match all_chunks_received (chunk_added h data k now st') with
       | Ok true => assemble_complete_message_with_correlation (sh_stream_id h) s'
       | Ok false => (Ok None, s')
       | Err e => (Err e, s')
       | Panic => (Panic, s')
       end.
Proof.
  intros Hs E Htot Hsz Hn st' Hk Hi Hlen Hb s'.
  pose proof (ta_streams _ Hs _ _ E) as [Hok _]. pose proof (with_stride_ok (len data) st Hn Hok) as Hok'.
  destruct (with_stride_same (len data) st) as [Et _]. fold st' in Et, Hok'.
  destruct (settled st' k Hok' Hk) as (H0 & He & Hsized & Hr). rewrite Et in *.
  pose proof (so_total _ Hok) as Ht.
  assert (Hi' : 0 <= sh_chunk_index h < div_ceil (is_total_size st') k) by now rewrite Et.
  destruct (chunk_range_in st' k _ Hok' Hk Hi') as [Hr0 Hr1]. rewrite Et, <- Hlen in Hr1.
  assert (len (copy_from_slice (is_buffer st') (Z.to_nat (sh_chunk_index h * k)) data)
          = is_total_size st') as Hbuf.
  { pose proof (so_buffer _ Hok') as Hb'. unfold len in *. rewrite length_copy_from_slice; lia. }
  split.
  { pose proof (received_ok st' k _ Hok' Hk Hi' Hb now
      (saturating_add usize_max (is_total_bytes_progressed st') (len data)) _ Hbuf) as H.
    rewrite Et, <- Hlen in H. exact H. }
  assert (is_received_size st' = is_received_size st) as Er
    by (unfold st', with_stride; now destruct (is_chunk_stride st)).
  unfold add_chunk_with_correlation. rewrite E.
  assert (negb (sh_total_size h =? 0) && negb (sh_total_size h =? is_total_size st) = false) as ->
    by (destruct Htot as [->| ->]; rewrite Z.eqb_refl; [done|]; now rewrite andb_false_r).
  pose proof (received_sum_room (is_total_size st) k ltac:(lia) H0 _ _ _ eq_refl Hsized Hi Hb) as Hroom.
  rewrite (proj2 (Z.ltb_ge _ _)) by (rewrite <- Er, Hr; lia).
  rewrite Hsz, Z.eqb_refl. cbn [negb]. rewrite (proj2 (Z.ltb_lt 0 (len data)) Hn). fold st'.
  pose proof (chunk_range_spec h (len data) k st' Hok' Hk ltac:(lia) Hsz) as Hrange.
  rewrite Et, bool_decide_eq_true_2, <- Hlen, Z.eqb_refl in Hrange by lia. cbn [andb] in Hrange.
  rewrite Hrange. unfold mark_chunk_received. rewrite (chunk_bit_sized _ _ _ Hsized Hi), Hb.
  cbn [negb]. fold (chunk_added h data k now st').
  assert (set_active <[sh_stream_id h := chunk_added h data k now st']>
            (set_active <[sh_stream_id h := st']> s) = s') as Es.
  { unfold s', set_active. cbn. now rewrite insert_insert_eq. }
  change (set_progress _ _ _ (set_buffer _ (set_received_chunks _ st')))
    with (chunk_added h data k now st'). now rewrite Es.
Qed.

Lemma add_chunk_ok h data now s :
  table_ok s -> 0 <= sh_chunk_index h ->
  let '(res, s') := add_chunk_with_correlation h data now s in
  table_ok s' /\ res <> Panic.
Proof.
  intros Hs Hi. destruct (active_streams s !! sh_stream_id h) as [st|] eqn:E.
  2: { unfold add_chunk_with_correlation. now rewrite E. }
  pose proof (ta_streams _ Hs _ _ E) as [Hok Hid].
  destruct (negb (sh_total_size h =? 0) && negb (sh_total_size h =? is_total_size st)) eqn:C1.
  { unfold add_chunk_with_correlation. now rewrite E, C1. }
  destruct (is_total_size st <? is_received_size st + len data) eqn:C2.
  { unfold add_chunk_with_correlation. now rewrite E, C1, C2. }
  destruct (Z.eqb_spec (sh_chunk_size h) (len data)) as [C3|C3].
  2: { unfold add_chunk_with_correlation. rewrite E, C1, C2.
       now rewrite (proj2 (Z.eqb_neq _ _) C3). }
  pose proof (len_nonneg data) as Hn.
  destruct (Z.eq_dec (len data) 0) as [Hz|Hz].
  - unfold add_chunk_with_correlation. rewrite E, C1, C2, C3, Z.eqb_refl. cbn [negb].
    rewrite Hz. cbn [Z.ltb Z.compare].
    assert (table_ok (set_active <[sh_stream_id h := st]> s)) as Hs1
      by (eapply replace_stream_ok; eauto).
    destruct (is_chunk_stride st) as [k|] eqn:Hk.
    + destruct (settled st k Hok Hk) as (H0 & _ & _ & _). pose proof (so_total _ Hok) as Ht.
      pose proof (chunk_range_spec h 0 k st Hok Hk Hi ltac:(lia)) as Hr.
      match type of Hr with (if ?b then _ else _) => destruct b eqn:Hb end; rewrite Hr; [|done].
      exfalso. apply andb_true_iff in Hb as [Hl%bool_decide_eq_true Hc%Z.eqb_eq].
      pose proof (chunk_len_pos _ k (proj1 Ht) H0 (sh_chunk_index h)). lia.
    + pose proof (so_layout _ Hok) as Hl. unfold layout_ok in Hl. rewrite Hk in Hl.
      destruct (is_expected_chunks st) eqn:He; [done|]. destruct Hl as [Hw _].
      unfold chunk_range, mark_chunk_received. rewrite Hk, He.
      change (default (sh_chunk_size h) None) with (sh_chunk_size h). rewrite C3, Hz.
      cbn [Z.ltb Z.compare]. unfold checked_mul. rewrite Z.mul_0_r.
      destruct (0 <=? usize_max); [|done]. destruct (is_total_size st <? 0 + 0); [done|].
      assert (chunk_bit (is_received_chunks st) (sh_chunk_index h) = None) as -> by now rewrite Hw.
      cbn. split; [|done]. apply (replace_stream_ok _ st _ _ Hs1); auto. cbn. apply lookup_insert_eq.
  - assert (0 < len data) as Hp by lia. set (st' := with_stride (len data) st).
    destruct (with_stride_settled _ st Hp Hok) as (k & Hk & H0 & He & Hsz & _ & _).
    fold st' in Hk, He, Hsz. pose proof (with_stride_ok _ st Hp Hok) as Hok'. fold st' in Hok'.
    destruct (with_stride_same (len data) st) as [Et Ei]. fold st' in Et, Ei.
    assert (table_ok (set_active <[sh_stream_id h := st']> s)) as Hs1
      by (eapply replace_stream_ok; eauto).
    pose proof (chunk_range_spec h (len data) k st' Hok' Hk Hi C3) as Hr. rewrite Et in Hr.
    match type of Hr with (if ?b then _ else _) => destruct b eqn:Hb end.
    2: { unfold add_chunk_with_correlation. rewrite E, C1, C2, C3, Z.eqb_refl. cbn [negb].
         rewrite (proj2 (Z.ltb_lt 0 _) Hp). fold st'. now rewrite Hr. }
    apply andb_true_iff in Hb as [Hl%bool_decide_eq_true Hc%Z.eqb_eq].
    destruct (bit (is_received_chunks st') (sh_chunk_index h)) eqn:Hbit.
    + unfold add_chunk_with_correlation. rewrite E, C1, C2, C3, Z.eqb_refl. cbn [negb].
      rewrite (proj2 (Z.ltb_lt 0 _) Hp). fold st'. rewrite Hr. unfold mark_chunk_received.
      rewrite (chunk_bit_sized _ _ _ Hsz), Hbit by lia. cbn [negb]. split; [|done].
      apply (replace_stream_ok _ st' _ _ Hs1); [cbn; apply lookup_insert_eq|
        now apply set_duplicates_ok|done..].
    + destruct (add_chunk_fresh h data k now s st) as [Hok2 ->]; auto.
      { apply andb_false_iff in C1. rewrite !negb_false_iff, !Z.eqb_eq in C1. done. }
      fold st'. assert (table_ok (set_active <[sh_stream_id h := chunk_added h data k now st']> s))
        as Hs2 by (eapply replace_stream_ok; eauto).
      destruct (all_chunks_received_ok _ Hok2) as ([] & Ha); fold st' in Ha; rewrite Ha;
        [|done]. now apply assemble_ok.
Qed.

Lemma finalize_ok id schema s :
  table_ok s ->
  let '(res, s') := finalize_stream_with_correlation id schema s in table_ok s' /\ res <> Panic.
Proof.
  intros Hs. unfold finalize_stream_with_correlation.
  destruct (active_streams s !! id); [case_bool_decide; [|done]|]; now apply assemble_ok.
Qed.

(** ** The reaper *)
Lemma tombstone_reaped_ok id st s :
  table_ok s -> stream_ok st ->
  let '(res, s') := tombstone_reaped_stream id st s in
  table_ok s' /\ (exists b, res = Ok b) /\ active_streams s' = active_streams s.
Proof.
  intros Hs Hok. unfold tombstone_reaped_stream. destruct (is_chunk_stride st) as [k|] eqn:Hk.
  - destruct (settled st k Hok Hk) as (H0 & He & Hsz & _). pose proof (so_total _ Hok) as Ht.
    set (t := mkTombstone _ _ _ _).
    destruct (tomb_is_complete_spec t k) as ([] & -> & Hf); auto; [cbn; lia| |].
    + split; [now apply remove_tombstone_ok|]. split; [eauto|apply active_remove_tombstone].
    + assert (tomb_ok t) as Htk.
      { split; [done|]. exists k. split_and!; auto. intros H. now apply Hf in H. }
      pose proof (try_insert_tombstone_ok id t s Hs Htk) as Hi.
      pose proof (active_try_insert id t s) as Ha.
      destruct (try_insert_tombstone id t s) as [b s']. split; [done|]. eauto.
  - split; [now apply remove_tombstone_ok|]. split; [eauto|apply active_remove_tombstone].
Qed.

Lemma tombstone_all_ok l : forall ex s,
  table_ok s -> (forall id st, (id, st) ∈ l -> stream_ok st) ->
  let '(res, s') := tombstone_all l ex s in
  table_ok s' /\ (exists b, res = Ok b) /\ active_streams s' = active_streams s.
Proof.
  induction l as [|[id st] l IH]; intros ex s Hs Hl; cbn; [eauto|].
  pose proof (tombstone_reaped_ok id st s Hs (Hl id st (list_elem_of_here _ _))) as H.
  destruct (tombstone_reaped_stream id st s) as [res s1]. destruct H as (H1 & (b & ->) & Ha).
  assert (forall id st, (id, st) ∈ l -> stream_ok st) as Hl'
    by (intros i x Hx; apply (Hl i x); now right).
  destruct b; [specialize (IH ex s1 H1 Hl')|specialize (IH true s1 H1 Hl')];
    destruct (tombstone_all l _ s1) as [res s2]; rewrite <- Ha; done.
Qed.

Lemma slide_window_same now w st :
  is_total_size (slide_window now w st) = is_total_size st
  /\ is_stream_id (slide_window now w st) = is_stream_id st
  /\ (stream_ok st -> stream_ok (slide_window now w st)).
Proof.
  unfold slide_window. destruct (window_elapsed _ _ _); [|done]. split_and!; [done..|].
  intros [H1 H2 H3]. now split.
Qed.

Lemma cleanup_ok now idle w min s :
  table_ok s ->
  let '(res, s') := cleanup_stale_with now idle w min s in
  table_ok s' /\ res <> Panic
  /\ active_streams s' = slide_window now w
       <$> filter (fun kv => is_stale now idle w min kv.2 = false) (active_streams s).
Proof.
  intros Hs. pose proof Hs as [H1 H2 H3 H4 H5 H6 H7]. unfold cleanup_stale_with.
  set (kept := slide_window now w <$> _). set (reaped := map_to_list _).
  assert (table_ok (set_active (fun _ => kept) s)) as Hk.
  { split; cbn; auto.
    - intros id st (x & <- & [Hx _]%map_lookup_filter_Some)%lookup_fmap_Some.
      apply H1 in Hx as [Hx Hid]. destruct (slide_window_same now w x) as (_ & Hi & Ho).
      split; [auto|congruence].
    - unfold kept, map_len in *. rewrite map_size_fmap.
      pose proof (map_len_filter_le (fun kv => is_stale now idle w min kv.2 = false) (active_streams s)) as Hf.
      unfold map_len in Hf. lia.
    - unfold kept, inflight_bytes in *. rewrite map_sum_fmap by (intros; apply slide_window_same).
      etransitivity; [apply map_sum_filter_le|done]. intros i x Hx. eapply inflight_nonneg; eauto. }
  pose proof (tombstone_all_ok reaped false _ Hk) as Ht.
  destruct (tombstone_all reaped false _) as [res s']. destruct Ht as (G1 & (b & ->) & Ga).
  { intros id st Hx. apply elem_of_map_to_list, map_lookup_filter_Some in Hx as [Hx _].
    now apply H1 in Hx as [Hx _]. }
  split_and!; [done|done|exact Ga].
Qed.
