(* ===== verification/StreamReap.v ===== *)
(** * The reaper

    Which streams the reaper drops, what it leaves behind for the chunks still
    on their way, and what it does not touch. *)

From S2P Require Import Prelude Types Framing Bitmap Streaming StreamInv StreamTable.

(** What a reaped stream leaves: nothing when no chunk of it can still come. *)
Definition quarantine (st : InProgressStream) : option RejectedStreamTombstone :=
  let t := mkTombstone (is_total_size st) (is_chunk_stride st) (is_expected_chunks st)
             (is_received_chunks st) in
  match is_chunk_stride st, tomb_is_complete t with
  | Some _, Ok false => Some t
  | _, _ => None
  end.

Lemma tombstone_reaped_lookup id st s b s' :
  tombstone_reaped_stream id st s = (Ok b, s') ->
  (b = false -> s' = s)
  /\ (b = true -> forall j, rejected_streams s' !! j
        = if decide (id = j) then quarantine st else rejected_streams s !! j).
Proof.
  unfold tombstone_reaped_stream, quarantine. set (t := mkTombstone _ _ _ _).
  destruct (is_chunk_stride st); [destruct (tomb_is_complete t) as [[]| |]|];
    try done; try (intros [= <- <-]; split; [done|]; intros _ j; apply remove_tombstone_lookup).
  unfold try_insert_tombstone. destruct (projected_bitmap_words _ _ s); intros [= <- <-]; (split; [done|]);
    [|done]. intros _ j. cbn. apply lookup_insert.
Qed.

Lemma tombstone_all_flag l : forall ex s s',
  tombstone_all l ex s = (Ok false, s') -> ex = false.
Proof.
  induction l as [|[id st] l IH]; intros ex s s'; cbn; [now intros [= -> _]|].
  destruct (tombstone_reaped_stream id st s) as [[[]| |] s1]; [apply IH| |done..].
  intros H. now apply IH in H.
Qed.

Lemma tombstone_all_lookup l : forall s s',
  NoDup l.*1 -> tombstone_all l false s = (Ok false, s') ->
  (forall id st, (id, st) ∈ l -> rejected_streams s' !! id = quarantine st)
  /\ (forall id, id ∉ l.*1 -> rejected_streams s' !! id = rejected_streams s !! id).
Proof.
  induction l as [|[id st] l IH]; intros s s' Hnd H; cbn in *.
  { injection H as <-. split; [|done]. intros id st Hin. now apply elem_of_nil in Hin. }
  apply list.NoDup_cons in Hnd as [Hid Hnd].
  destruct (tombstone_reaped_stream id st s) as [[[]| |] s1] eqn:E; try done.
  2: { apply tombstone_all_flag in H. done. }
  destruct (tombstone_reaped_lookup _ _ _ _ _ E) as [_ Hl]. specialize (Hl eq_refl).
  destruct (IH s1 s' Hnd H) as [H1 H2]. split.
  - intros j x [E'|Hin]%elem_of_cons; [|eauto]. injection E' as -> ->.
    rewrite H2, Hl by done. now rewrite decide_True.
  - intros j Hj. rewrite H2, Hl by set_solver. rewrite decide_False; [done|set_solver].
Qed.

(** The reaper drops exactly the streams that are idle or too slow, and
    restarts the rate window of the others when it has elapsed.  When it
    reports success, every stream it dropped whose chunks may still come has a
    tombstone with its layout and the chunks already received, and the dropped
    streams are the only ids whose tombstones changed: none is evicted to make
    room for another. *)
Theorem reaper_exact now idle window min_bytes s s' :
  table_ok s ->
  cleanup_stale_with now idle window min_bytes s = (Ok true, s') ->
  forall id,
    active_streams s' !! id
    = (st ← active_streams s !! id;
       if is_stale now idle window min_bytes st then None else Some (slide_window now window st))
    /\ rejected_streams s' !! id
       = match active_streams s !! id with
         | Some st => if is_stale now idle window min_bytes st then quarantine st
                      else rejected_streams s !! id
         | None => rejected_streams s !! id
         end.
Proof.
  intros Hs Hc id. pose proof (cleanup_ok now idle window min_bytes s Hs) as H.
  rewrite Hc in H. destruct H as (_ & _ & Ha). split.
  - rewrite Ha, lookup_fmap, map_lookup_filter.
    destruct (active_streams s !! id) as [st|]; [|done]. cbn.
    now destruct (is_stale now idle window min_bytes st).
  - unfold cleanup_stale_with in Hc. set (R := filter _ (active_streams s)) in Hc at 1.
    set (kept := set_active _ s) in Hc.
    destruct (tombstone_all (map_to_list R) false kept) as [[b| |] s2] eqn:E; try done.
    injection Hc as Hb <-. destruct b; [done|].
    destruct (tombstone_all_lookup _ _ _ (NoDup_fst_map_to_list R) E) as [H1 H2].
    assert (forall st, R !! id = Some st <->
              active_streams s !! id = Some st /\ is_stale now idle window min_bytes st = true) as HR
      by (intros st; apply map_lookup_filter_Some).
    assert (R !! id = None -> rejected_streams s2 !! id = rejected_streams s !! id) as Hkeep.
    { intros HN. apply (H2 id). intros Hin. apply list_elem_of_fmap in Hin as ([j st] & -> & Hin).
      apply elem_of_map_to_list in Hin. cbn in HN. congruence. }
    assert (forall st, R !! id = Some st -> rejected_streams s2 !! id = quarantine st) as Hput
      by (intros st Hst; apply H1; now apply elem_of_map_to_list).
    destruct (active_streams s !! id) as [st|] eqn:Est.
    + destruct (is_stale now idle window min_bytes st) eqn:Hst; [now apply Hput, HR|].
      apply Hkeep. apply eq_None_not_Some. intros [x [[= <-] ?]%HR]. congruence.
    + apply Hkeep. apply eq_None_not_Some. now intros [x [? _]%HR].
Qed.

(** A stream idle for over half a minute, half received. *)
Definition example_stale : StreamingState :=
  set_active (fun _ => {[ 3 := set_progress 2 0 2 (set_received_chunks [1]
    (set_stride 2 2 (new_stream (mkStreamHeader 3 4 2 0 0 0) 9 None false 0))) ]}) streaming_new.

Lemma reaper_exact_witness :
  exists s', cleanup_stale_with 100000 30000 60000 10 example_stale = (Ok true, s')
    /\ is_Some (rejected_streams s' !! 3).
Proof.
  destruct (cleanup_stale_with 100000 30000 60000 10 example_stale) as [r s'] eqn:E.
  assert (r = Ok true) as ->.
  { change r with (r, s').1. rewrite <- E. vm_compute. reflexivity. }
  exists s'. split; [done|].
  destruct (reaper_exact 100000 30000 60000 10 example_stale s') with (id := 3) as [_ H]; [|exact E|].
  - split.
    + intros id st Hin. cbn [example_stale set_active active_streams] in Hin.
      apply lookup_singleton_Some in Hin as [<- <-]. split; [|done].
      split; [vm_compute; split; discriminate|reflexivity|]. cbn. split_and!; try reflexivity.
      split; [reflexivity|]. apply (bool_decide_eq_true_1 _). reflexivity.
    + vm_compute. discriminate.
    + vm_compute. discriminate.
    + intros id t. cbn. now rewrite lookup_empty.
    + reflexivity.
    + vm_compute. discriminate.
    + vm_compute. discriminate.
  - rewrite H. vm_compute. eexists. reflexivity.
Defined.
