(* ===== verification/ReadPipeline.v ===== *)
(** * The connection read pipeline

    [ReadState] and [read_message_step_poll] of
    src/src/connection_pool/read_pipeline.rs: the incremental reader of one
    connection.  One call makes at most one [poll_read]; its outcome is an
    argument.  Stream frames are read straight into the reassembly buffers of
    [Streaming]; every other frame goes through the parser of [FrameParser]. *)

From S2P Require Import Prelude Types Framing RouteTable Aligned FrameParser Bitmap Streaming.
Import Routes Aligned.

(** [poll_read_once]: the bytes a read returned; an empty list is end of file. *)
Inductive PollRead :=
  | PollPending
  | PollBytes (bytes : list Z)
  | PollErr (kind : ErrorKind).

Inductive ReadState :=
  | ReadLen (buf : list Z) (read : Z)
  | ReadBody (msg_len : Z) (buffer : PooledAlignedBuffer) (read : Z)
  | ReadStreamMeta (kind : WireKind) (body_len : Z) (meta : list Z) (meta_len read : Z)
  | ReadStreamPayload (reservation : StreamChunkReservation) (read : Z)
  | DiscardStreamPayload (remaining : Z) (on_complete_mark_received : option (Z * Z)).

Definition read_state_new : ReadState := ReadLen (replicate 4 0) 0.

(** [eof_in_length_prefix]: only zero consumed bytes is an orderly close. *)
Inductive ReadError := OrderlyPeerClose | ReadFailed (e : GossipError).

Definition eof_in_length_prefix (prefix_bytes_read : Z) : ReadError :=
  if prefix_bytes_read =? 0 then OrderlyPeerClose else ReadFailed (Network UnexpectedEof).

Definition stream_meta_len (k : WireKind) : option Z :=
  match k with
  | KStreamStart => Some STREAM_REQUEST_START_HEADER_LEN
  | KStreamResponseStart => Some STREAM_RESPONSE_START_HEADER_LEN
  | KStreamData | KStreamResponseData => Some STREAM_DATA_HEADER_LEN
  | _ => None
  end.

(** [buf[at..at + n]] overwritten by what a read returned. *)
Definition write_at (buf : list Z) (at_ : Z) (bytes : list Z) : list Z :=
  copy_from_slice buf (Z.to_nat at_) bytes.

Definition reserve_v5_stream_payload (k : WireKind) (body_len : Z) (meta : list Z) (now : Z)
    (s : StreamingState) : Result (option StreamChunkReservation) * StreamingState :=
  match stream_meta_len k with
  | None => (Panic, s)
  | Some meta_len =>
      if body_len <? meta_len then (Err (Network InvalidData), s)
      else
        let payload_len := body_len - meta_len in
        match k with
        | KStreamStart =>
            begin_v5_stream_or_discard
              (mkStreamHeader (field meta 0 4) (field meta 8 12) (Z.land payload_len u32_max) 0
                 (field meta 20 24) (field meta 12 20))
              (field meta 4 8) false payload_len now s
        | KStreamResponseStart =>
            begin_v5_stream_or_discard
              (mkStreamHeader (field meta 0 4) (field meta 8 12) (Z.land payload_len u32_max) 0 0 0)
              (field meta 4 8) true payload_len now s
        | KStreamData | KStreamResponseData =>
            reserve_v5_chunk_or_discard (field meta 0 4) (field meta 4 8) payload_len s
        | _ => (Panic, s)
        end
  end.

Definition stream_payload_state (r : option StreamChunkReservation) (body_len meta_len : Z)
    : ReadState :=
  match r with
  | Some r => if rv_len r =? 0 then read_state_new else ReadStreamPayload r 0
  | None => DiscardStreamPayload (body_len - meta_len) None
  end.

Definition discard_remainder_of_reservation (r : StreamChunkReservation) (read : Z) : ReadState :=
  DiscardStreamPayload (rv_len r - read) (Some (rv_stream_id r, rv_chunk_index r)).

Definition finish_discarding_reservation (mark : option (Z * Z)) (s : StreamingState)
    : Result unit * StreamingState :=
  match mark with
  | Some (id, i) => mark_reap_discarded_chunk_received id i s
  | None => (Ok tt, s)
  end.

(** ** Dispatch of stream messages ([process_read_result_with_instance])

    What a completed stream hands on; errors of the assembly are dropped. *)
Inductive StreamDelivery :=
  | DeliverResponse (correlation_id : Z) (payload : list Z)
  | DeliverAssembled (actor_id type_hash : Z) (payload : list Z) (correlation_id : Z)
                     (schema_hash : option Z).

Definition process_streaming (t : MessageType) (correlation_id : Z) (schema_hash : option Z)
    (h : StreamHeader) (chunk_data : list Z) (now : Z) (s : StreamingState)
    : Result (option StreamDelivery) * StreamingState :=
  let id := sh_stream_id h in
  let added (deliver : list Z -> Z -> option Z -> option StreamDelivery) (s : StreamingState) :=
    match add_chunk_with_correlation h chunk_data now s with
    | (Ok (Some (complete, corr_id, schema)), s) => (Ok (deliver complete corr_id schema), s)
    | (Panic, s) => (Panic, s)
    | (_, s) => (Ok None, s)
    end in
  let finalized (deliver : list Z -> Z -> option Z -> option StreamDelivery) :=
    match finalize_stream_with_correlation id schema_hash s with
    | (Ok (Some (complete, corr_id, schema)), s) => (Ok (deliver complete corr_id schema), s)
    | (Panic, s) => (Panic, s)
    | (_, s) => (Ok None, s)
    end in
  match t with
  | MStreamStart | MStreamResponseStart =>
      let is_response := match t with MStreamResponseStart => true | _ => false end in
      match start_stream_with_correlation_and_kind h correlation_id schema_hash is_response now s with
      | (Ok tt, s) =>
          if len chunk_data =? 0 then (Ok None, s)
          else
            let metadata := metadata_for id s in
            added (fun complete corr_id schema =>
                     if default is_response ((fun m => m.2) <$> metadata)
                     then Some (DeliverResponse corr_id complete)
                     else (fun m => DeliverAssembled m.1.1.1 m.1.1.2 complete corr_id schema)
                          <$> metadata) s
      | (Err _, s) => (Ok None, s)
      | (Panic, s) => (Panic, s)
      end
  | MStreamData | MStreamResponseData =>
      match metadata_for id s with
      | None => (Ok None, s)
      | Some (actor_id, type_hash, _, is_response) =>
          added (fun complete corr_id schema =>
                   Some (if is_response : bool then DeliverResponse corr_id complete
                         else DeliverAssembled actor_id type_hash complete corr_id schema)) s
      end
  | MStreamEnd =>
      finalized (fun complete corr_id schema =>
        Some (DeliverAssembled (sh_actor_id h) (sh_type_hash h) complete corr_id schema))
  | MStreamResponseEnd =>
      finalized (fun complete corr_id schema =>
        if negb (corr_id =? 0) then Some (DeliverResponse corr_id complete) else None)
  | _ => (Ok None, s)
  end.

Section Pipeline.
Context {RegistryMessage : Type}.
Context (decode_registry_message : list Z -> option RegistryMessage).
(** The address the allocator gives a buffer of some length. *)
Context (allocate : Z -> Z).
Context (max_message_size : Z).

Abbreviation MessageReadResult := (@MessageReadResult RegistryMessage).

Definition completed_v5_stream_result (c : CompletedV5Stream) : Result MessageReadResult :=
  payload ← from_pooled_buffer (mkBuffer (allocate (len (cs_payload c))) (cs_payload c));
  Ok (if cs_is_response c then Response (cs_correlation_id c) payload
      else Actor (if cs_correlation_id c =? 0 then MActorTell else MActorAsk)
             (cs_correlation_id c) (cs_actor_id c) (cs_type_hash c) None payload).

(** A connection's reader: its state, the streams and the route bindings. *)
Record Reader := mkReader {
  rd_state : ReadState;
  rd_streams : StreamingState;
  rd_routes : RouteTable;
}.

Inductive StepResult :=
  | Progressed (result : option MessageReadResult)
  | Stalled
  | Failed (e : ReadError)
  | Panicked.

Definition fail (e : GossipError) : StepResult := Failed (ReadFailed e).

(** What follows a complete length prefix. *)
Definition after_prefix (buf : list Z) : StepResult * ReadState :=
  match decode_control buf with
  | None => (fail (Network InvalidData), ReadLen buf 4)
  | Some control =>
      let msg_len := body_len control in
      if msg_len =? 0 then (fail (Network InvalidData), ReadLen buf 4)
      else if max_message_size <? msg_len
      then (fail (MessageTooLarge msg_len max_message_size), ReadLen buf 4)
      else match stream_meta_len (kind control) with
      | Some meta_len =>
          if msg_len <? meta_len then (fail (Network InvalidData), ReadLen buf 4)
          else (Progressed None,
                ReadStreamMeta (kind control) msg_len (replicate 24 0) meta_len 0)
      | None =>
          let total_len := msg_len + LENGTH_PREFIX_LEN in
          (Progressed None,
           ReadBody msg_len (mkBuffer (allocate total_len)
             (write_at (replicate (Z.to_nat total_len) 0) 0 buf)) 0)
      end
  end.

Definition of_result (r : Result (option MessageReadResult)) : StepResult :=
  match r with Ok m => Progressed m | Err e => fail e | Panic => Panicked end.

(** One call; [now] is the clock the streams' timers read. *)
Definition read_message_step_poll (o : PollRead) (now : Z) (rd : Reader) : StepResult * Reader :=
  let streams := rd_streams rd in
  let with_state st := mkReader st streams (rd_routes rd) in
  match rd_state rd with
  | ReadLen buf read =>
      if read =? LENGTH_PREFIX_LEN then (Stalled, rd) else
      match o with
      | PollPending => (Stalled, rd)
      | PollErr k => (fail (Network k), rd)
      | PollBytes [] => (Failed (eof_in_length_prefix read), rd)
      | PollBytes bytes =>
          let buf := write_at buf read bytes in
          let read := read + len bytes in
          if read <? LENGTH_PREFIX_LEN then (Progressed None, with_state (ReadLen buf read))
          else let '(r, st) := after_prefix buf in (r, with_state st)
      end
  | ReadBody msg_len buffer read =>
      if read =? msg_len then (Stalled, rd) else
      match o with
      | PollPending => (Stalled, rd)
      | PollErr k => (fail (Network k), rd)
      | PollBytes [] => (fail (Network UnexpectedEof), rd)
      | PollBytes bytes =>
          let buffer := mkBuffer (base buffer)
                          (write_at (data buffer) (LENGTH_PREFIX_LEN + read) bytes) in
          let read := read + len bytes in
          if read <? msg_len
          then (Progressed None, with_state (ReadBody msg_len buffer read))
          else
            let '(r, routes) := parse_message_from_pooled_buffer_with_routes
                                  decode_registry_message buffer msg_len (Some (rd_routes rd)) in
            (of_result (Some <$> r),
             mkReader read_state_new streams (default (rd_routes rd) routes))
      end
  | ReadStreamMeta k body_len meta meta_len read =>
      match o with
      | PollPending => (Stalled, rd)
      | PollErr kind => (fail (Network kind), rd)
      | PollBytes [] => (fail (Network UnexpectedEof), rd)
      | PollBytes bytes =>
          let meta := write_at meta read bytes in
          let read := read + len bytes in
          if read <? meta_len
          then (Progressed None, with_state (ReadStreamMeta k body_len meta meta_len read))
          else match reserve_v5_stream_payload k body_len (take (Z.to_nat meta_len) meta) now streams with
          | (Ok r, s) =>
              (Progressed None,
               mkReader (stream_payload_state r body_len meta_len) s (rd_routes rd))
          | (Err e, s) =>
              (fail e, mkReader (ReadStreamMeta k body_len meta meta_len read) s (rd_routes rd))
          | (Panic, s) =>
              (Panicked, mkReader (ReadStreamMeta k body_len meta meta_len read) s (rd_routes rd))
          end
      end
  | ReadStreamPayload r read =>
      match v5_chunk_target r read streams with
      | Err e =>
          if is_stream_reaped_error e
          then (Progressed None, with_state (discard_remainder_of_reservation r read))
          else (fail e, rd)
      | Panic => (Panicked, rd)
      | Ok (start, _) =>
          match o with
          | PollPending => (Stalled, rd)
          | PollErr k => (fail (Network k), rd)
          | PollBytes [] => (fail (Network UnexpectedEof), rd)
          | PollBytes bytes =>
              let read := read + len bytes in
              let s := record_v5_chunk_progress r (len bytes) now (fill_target r start bytes streams) in
              if read <? rv_len r
              then (Progressed None, mkReader (ReadStreamPayload r read) s (rd_routes rd))
              else match commit_v5_chunk r now s with
              | (Ok None, s) => (Progressed None, mkReader read_state_new s (rd_routes rd))
              | (Ok (Some c), s) =>
                  (of_result (Some <$> completed_v5_stream_result c),
                   mkReader read_state_new s (rd_routes rd))
              | (Err e, s) => (fail e, mkReader read_state_new s (rd_routes rd))
              | (Panic, s) => (Panicked, mkReader read_state_new s (rd_routes rd))
              end
          end
      end
  | DiscardStreamPayload remaining mark =>
      let finish (s : StreamingState) :=
        match finish_discarding_reservation mark s with
        | (Ok _, s) => (Progressed None, mkReader read_state_new s (rd_routes rd))
        | (Err e, s) => (fail e, mkReader (DiscardStreamPayload 0 mark) s (rd_routes rd))
        | (Panic, s) => (Panicked, mkReader (DiscardStreamPayload 0 mark) s (rd_routes rd))
        end in
      if remaining =? 0 then finish streams else
      match o with
      | PollPending => (Stalled, rd)
      | PollErr k => (fail (Network k), rd)
      | PollBytes [] => (fail (Network UnexpectedEof), rd)
      | PollBytes bytes =>
          if remaining - len bytes =? 0 then finish streams
          else (Progressed None, with_state (DiscardStreamPayload (remaining - len bytes) mark))
      end
  end.

(** How many bytes the read of the next call asks for; 0 when it makes none. *)
Definition wanted (rd : Reader) : Z :=
  match rd_state rd with
  | ReadLen _ read => LENGTH_PREFIX_LEN - read
  | ReadBody msg_len _ read => msg_len - read
  | ReadStreamMeta _ _ _ meta_len read => meta_len - read
  | ReadStreamPayload r read =>
      match v5_chunk_target r read (rd_streams rd) with
      | Ok (start, end_) => end_ - start
      | _ => 0
      end
  | DiscardStreamPayload remaining _ => Z.min remaining 8192
  end.
End Pipeline.
