(* ===== verification/ReadInv.v ===== *)
(** * Safety of the read pipeline

    Whatever bytes the peer sends, in whatever pieces, and whenever the reaper
    runs: the reader never panics, reads never exceed the range they were given,
    and the stream table keeps its invariant. *)

From S2P Require Import Prelude Types Framing RouteTable Aligned FrameParser Bitmap.
From S2P Require Import Streaming StreamInv StreamTable ReadPipeline.
Import Routes Aligned.

Section ReadInv.
Context {RegistryMessage : Type}.
Context (decode_registry_message : list Z -> option RegistryMessage).
Context (allocate : Z -> Z) (Halign : forall n, allocate n mod PAYLOAD_ALIGNMENT = 0).
Context (max_message_size : Z).

Abbreviation step := (read_message_step_poll decode_registry_message allocate max_message_size).

Definition state_ok (rs : ReadState) (s : StreamingState) : Prop :=
  match rs with
  | ReadLen buf read => length buf = 4%nat /\ 0 <= read <= 4
  | ReadBody msg_len b read =>
      0 <= read <= msg_len /\ len (data b) = msg_len + 4 /\ base b mod PAYLOAD_ALIGNMENT = 0
  | ReadStreamMeta k body_len meta meta_len read =>
      stream_meta_len k = Some meta_len /\ meta_len <= body_len /\ length meta = 24%nat
      /\ Forall is_byte meta /\ 0 <= read <= meta_len
  | ReadStreamPayload r read =>
      0 <= read < rv_len r
      /\ forall st, active_streams s !! rv_stream_id r = Some st -> fits r st
  | DiscardStreamPayload remaining _ => 0 <= remaining
  end.

Record reader_ok (rd : Reader) : Prop := {
  ro_table : table_ok (rd_streams rd);
  ro_state : state_ok (rd_state rd) (rd_streams rd);
}.

(** A read returns bytes, and no more than it was asked for. *)
Definition admissible (o : PollRead) (rd : Reader) : Prop :=
  match o with
  | PollBytes bytes => Forall is_byte bytes /\ len bytes <= wanted rd
  | _ => True
  end.

Lemma read_state_new_ok s : state_ok read_state_new s.
Proof. cbn. lia. Qed.

Lemma field_nonneg l a b : Forall is_byte l -> 0 <= field l a b.
Proof.
  intros H. apply from_be_bytes_bound. unfold slice. now apply Forall_take, Forall_drop.
Qed.

Lemma write_at_bytes l a src : Forall is_byte l -> Forall is_byte src -> Forall is_byte (write_at l a src).
Proof.
  intros Hl Hs. unfold write_at, copy_from_slice.
  repeat apply Forall_app_2; auto using Forall_take, Forall_drop.
Qed.

Lemma write_at_length l a src :
  0 <= a -> a + len src <= len l -> length (write_at l a src) = length l.
Proof. intros Ha H. unfold write_at, len in *. apply length_copy_from_slice. lia. Qed.

Lemma stream_meta_len_pos k n : stream_meta_len k = Some n -> 0 < n <= 24.
Proof. destruct k; cbn; intros [= <-]; vm_compute; intuition congruence. Qed.

(** ** Reserving the payload of a stream frame *)
Lemma reserve_or_discard_ok id i n s :
  table_ok s -> 0 <= i -> 0 <= n ->
  let '(res, s') := reserve_v5_chunk_or_discard id i n s in
  table_ok s' /\ res <> Panic
  /\ (forall r, res = Ok (Some r) -> exists st, active_streams s' !! rv_stream_id r = Some st /\ fits r st).
Proof.
  intros Hs Hi Hn. unfold reserve_v5_chunk_or_discard.
  destruct (rejected_streams s !! id) as [t|] eqn:E.
  - destruct (absorb_chunk_ok id i t s Hs E) as [H1 H2]. destruct (absorb_chunk id i t s) as [r s'].
    cbn in *. subst r. done.
  - pose proof (reserve_ok id i n s Hs Hi Hn) as H. destruct (reserve_v5_chunk id i n s) as [r s'].
    destruct H as (H1 & H2 & _ & H4 & _). destruct r as [r|e|]; split_and!; try done.
    intros r' [= <-]. destruct (H4 r eq_refl) as [-> H']. done.
Qed.

Definition backed (r : StreamChunkReservation) (s : StreamingState) : Prop :=
  exists st, active_streams s !! rv_stream_id r = Some st /\ fits r st.

Lemma reserve_payload_ok k body_len meta now s meta_len :
  table_ok s -> stream_meta_len k = Some meta_len -> meta_len <= body_len -> Forall is_byte meta ->
  let '(res, s') := reserve_v5_stream_payload k body_len meta now s in
  table_ok s' /\ res <> Panic /\ (forall r, res = Ok (Some r) -> backed r s').
Proof.
  intros Hs Hk Hlen Hb. unfold reserve_v5_stream_payload. rewrite Hk.
  rewrite (proj2 (Z.ltb_ge _ _) Hlen).
  assert (0 <= body_len - meta_len) as Hp by lia.
  assert (forall h c b, 0 <= sh_total_size h ->
    let '(res, s') := begin_v5_stream_or_discard h c b (body_len - meta_len) now s in
    table_ok s' /\ res <> Panic /\ (forall r, res = Ok (Some r) -> backed r s')) as Hbegin.
  { intros h c b Ht. pose proof (begin_or_discard_ok h c b _ now s Hs Ht Hp) as H.
    destruct (begin_v5_stream_or_discard _ _ _ _ _ _) as [res s']. destruct H as (H1 & H2 & H3).
    split_and!; auto. intros r Hr. destruct (H3 r Hr) as [E H']. unfold backed. now rewrite E. }
  assert (let '(res, s') := reserve_v5_chunk_or_discard (field meta 0 4) (field meta 4 8)
            (body_len - meta_len) s in
          table_ok s' /\ res <> Panic /\ (forall r, res = Ok (Some r) -> backed r s')) as Hdata.
  { apply reserve_or_discard_ok; auto using field_nonneg. }
  destruct k; try done; apply Hbegin; cbn [sh_total_size]; now apply field_nonneg.
Qed.

(** ** Reading into a reservation *)
Lemma fits_ext r st st' :
  is_chunk_stride st' = is_chunk_stride st -> is_total_size st' = is_total_size st ->
  is_received_chunks st' = is_received_chunks st -> fits r st -> fits r st'.
Proof. unfold fits. intros -> -> ->. done. Qed.

Lemma target_range r read s st :
  table_ok s -> active_streams s !! rv_stream_id r = Some st -> fits r st -> 0 <= read <= rv_len r ->
  v5_chunk_target r read s = Ok (rv_offset r + read, rv_offset r + rv_len r)
  /\ 0 <= rv_offset r /\ rv_offset r + rv_len r <= len (is_buffer st).
Proof.
  intros Hs E (k & Hk & Hi & Ho & Hl & _) Hr. pose proof (ta_streams _ Hs _ _ E) as [Hok _].
  destruct (chunk_range_in st k _ Hok Hk Hi) as [H1 H2]. rewrite <- Hl, <- Ho in *.
  rewrite (so_buffer _ Hok). unfold v5_chunk_target. rewrite E, (so_buffer _ Hok).
  rewrite (proj2 (Z.ltb_ge (rv_len r) read)) by lia.
  rewrite (proj2 (Z.leb_le _ _)), (proj2 (Z.leb_le _ _)) by lia. done.
Qed.

Lemma fill_progress_ok r start bytes now s :
  table_ok s -> (forall st, active_streams s !! rv_stream_id r = Some st ->
                   fits r st /\ 0 <= start /\ start + len bytes <= len (is_buffer st)) ->
  let s' := record_v5_chunk_progress r (len bytes) now (fill_target r start bytes s) in
  table_ok s' /\ forall st, active_streams s' !! rv_stream_id r = Some st -> fits r st.
Proof.
  intros Hs Hf s'. destruct (active_streams s !! rv_stream_id r) as [st|] eqn:E.
  - destruct (Hf st eq_refl) as (Hfit & H0 & H1). pose proof (ta_streams _ Hs _ _ E) as [Hok Hid].
    set (st' := set_progress (is_received_size st) now
      (saturating_add usize_max (is_total_bytes_progressed st) (len bytes))
      (set_buffer (copy_from_slice (is_buffer st) (Z.to_nat start) bytes) st)).
    assert (s' = set_active <[rv_stream_id r := st']> s) as ->.
    { unfold s', record_v5_chunk_progress, fill_target, set_active. cbn. f_equal.
      apply map_eq. intros j. rewrite !lookup_alter, lookup_insert.
      repeat case_decide; subst; rewrite ?E; done. }
    assert (stream_ok st') as Hok'.
    { destruct Hok as [G1 G2 G3]. split; cbn; [done| |done]. rewrite <- G2.
      unfold len in *. rewrite length_copy_from_slice; lia. }
    split; [eapply replace_stream_ok; eauto|]. cbn. intros st2. rewrite lookup_insert_eq.
    intros [= <-]. revert Hfit. now apply fits_ext.
  - assert (s' = s) as ->.
    { unfold s', record_v5_chunk_progress, fill_target, set_active. destruct s as [ac rj w mx]. cbn in *.
      f_equal. apply map_eq. intros j. rewrite !lookup_alter.
      repeat case_decide; subst; rewrite ?E; done. }
    split; [done|]. intros st. congruence.
Qed.

(** ** One step *)
Lemma decode_control_body_len bytes c :
  decode_control bytes = Some c -> 0 <= body_len c <= CONTROL_BODY_LEN_MASK.
Proof.
  unfold decode_control. destruct (WireKind_from_u8 _); [intros [= <-]|done].
  cbn [body_len]. change CONTROL_BODY_LEN_MASK with (Z.ones 27). rewrite Z.land_ones by lia.
  change (Z.ones 27) with (2 ^ 27 - 1). pose proof (Z.mod_pos_bound (from_be_bytes bytes) (2 ^ 27)). lia.
Qed.

Lemma after_prefix_ok buf r rs s :
  length buf = 4%nat ->
  after_prefix (RegistryMessage := RegistryMessage) allocate max_message_size buf = (r, rs) ->
  state_ok rs s /\ r <> Panicked.
Proof.
  intros Hl. unfold after_prefix.
  assert (forall e, (fail (RegistryMessage := RegistryMessage) e, ReadLen buf 4) = (r, rs) ->
            state_ok rs s /\ r <> Panicked) as Hfail
    by (intros e [= <- <-]; cbn; split; [lia|done]).
  destruct (decode_control buf) as [c|] eqn:Ec; [|apply Hfail].
  pose proof (decode_control_body_len _ _ Ec) as Hb.
  destruct (body_len c =? 0) eqn:E0; [apply Hfail|].
  destruct (max_message_size <? body_len c); [apply Hfail|].
  destruct (stream_meta_len (kind c)) as [ml|] eqn:Ek.
  - pose proof (stream_meta_len_pos _ _ Ek).
    destruct (Z.ltb_spec (body_len c) ml); [apply Hfail|]. intros [= <- <-]; cbn; split; [|done].
    split_and!; auto; try lia. now apply (Forall_replicate is_byte 24%nat 0).
  - intros [= <- <-]. split; [|done]. cbn [state_ok data base]. unfold LENGTH_PREFIX_LEN.
    split_and!; try lia; auto.
    unfold len. rewrite write_at_length; unfold len; rewrite ?length_replicate; lia.
Qed.

Lemma parse_not_panic b msg_len routes :
  (parse_message_from_pooled_buffer_with_routes decode_registry_message b msg_len routes).1 <> Panic.
Proof.
  assert (forall b o n (f : AlignedBytes -> MessageReadResult (RegistryMessage := RegistryMessage)),
            (payload ← from_pooled_buffer_range b o n; Ok (f payload)) <> Panic) as Hv.
  { intros b' o n f. unfold from_pooled_buffer_range. repeat case_match; done. }
  unfold parse_message_from_pooled_buffer_with_routes.
  repeat (case_match; try done; try apply Hv).
Qed.

Lemma completed_result_ok c :
  len (cs_payload c) <= MAX_STREAM_SIZE ->
  exists m, completed_v5_stream_result (RegistryMessage := RegistryMessage) allocate c = Ok m.
Proof.
  intros H. unfold completed_v5_stream_result, from_pooled_buffer.
  rewrite from_pooled_buffer_range_Ok; cbn [data base].
  - cbn. eauto.
  - lia.
  - apply len_nonneg.
  - unfold MAX_STREAM_SIZE, usize_max, u64_max in *. lia.
  - apply Halign.
  - reflexivity.
Qed.

Lemma finish_discard_ok mark s :
  table_ok s -> (finish_discarding_reservation mark s).1 = Ok tt
  /\ table_ok (finish_discarding_reservation mark s).2.
Proof.
  intros Hs. destruct mark as [[id i]|]; cbn; [|done]. unfold mark_reap_discarded_chunk_received.
  destruct (rejected_streams s !! id) as [t|] eqn:E; [|done]. now apply absorb_chunk_ok.
Qed.

Lemma payload_state_ok res body_len meta_len s :
  table_ok s -> meta_len <= body_len -> (forall r, res = Some r -> backed r s) ->
  state_ok (stream_payload_state res body_len meta_len) s.
Proof.
  intros Hs Hl Hr. destruct res as [r|]; cbn; [|lia].
  destruct (Z.eqb_spec (rv_len r) 0); [apply read_state_new_ok|].
  destruct (Hr r eq_refl) as (st & E & Hf). split; [|intros st'; congruence].
  destruct Hf as (k & Hk & Hi & _ & Hlen & _). pose proof (ta_streams _ Hs _ _ E) as [Hok _].
  destruct (settled st k Hok Hk) as (H0 & _). rewrite Hlen.
  destruct (chunk_len_pos (is_total_size st) k (proj1 (so_total _ Hok)) H0 _ Hi). lia.
Qed.

Lemma discard_step_ok remaining mark rd o r rd' now :
  rd_state rd = DiscardStreamPayload remaining mark -> reader_ok rd -> admissible o rd ->
  step o now rd = (r, rd') -> reader_ok rd' /\ r <> Panicked.
Proof.
  intros E Hok Ho. pose proof Hok as [Ht Hst]. unfold read_message_step_poll. rewrite E in *.
  destruct (finish_discard_ok mark _ Ht) as [H1 H2].
  destruct (finish_discarding_reservation mark (rd_streams rd)) as [res s']. cbn in H1, H2. subst res.
  assert (forall rs, state_ok rs s' -> reader_ok (mkReader rs s' (rd_routes rd))) by done.
  destruct (remaining =? 0); [intros [= <- <-]; auto using read_state_new_ok|].
  destruct o as [|[|b bytes]|k]; [intros [= <- <-]; done..| |intros [= <- <-]; done].
  destruct (remaining - len (b :: bytes) =? 0); intros [= <- <-]; [auto using read_state_new_ok|].
  split; [|done]. split; [done|]. cbn [rd_state state_ok]. destruct Ho as [_ Ho].
  unfold wanted in Ho. rewrite E in Ho. lia.
Qed.

Lemma payload_step_ok rv read rd o r rd' now :
  rd_state rd = ReadStreamPayload rv read -> reader_ok rd -> admissible o rd ->
  step o now rd = (r, rd') -> reader_ok rd' /\ r <> Panicked.
Proof.
  intros E Hok Ho. pose proof Hok as [Ht Hst]. unfold read_message_step_poll.
  unfold admissible, wanted in Ho. rewrite E in *.
  destruct Hst as [Hr Hf]. destruct (active_streams (rd_streams rd) !! rv_stream_id rv) as [st|] eqn:Es.
  2: { unfold v5_chunk_target. rewrite Es. intros [= <- <-]. split; [|done].
       split; [done|]. cbn. lia. }
  destruct (target_range rv read _ st Ht Es (Hf st eq_refl)) as (Hv & H0 & H1); [lia|].
  rewrite Hv in *. destruct o as [|[|b bytes]|k]; [intros [= <- <-]; done..| |intros [= <- <-]; done].
  destruct Ho as [_ Hlen]. pose proof (len_nonneg (b :: bytes)) as Hn.
  destruct (fill_progress_ok rv (rv_offset rv + read) (b :: bytes) now (rd_streams rd) Ht)
    as [Ht' Hf'].
  { intros st' Est'. assert (st' = st) as -> by congruence. split; [auto|]. lia. }
  set (s' := record_v5_chunk_progress _ _ _ _) in *.
  destruct (Z.ltb_spec (read + len (b :: bytes)) (rv_len rv)).
  { intros [= <- <-]. split; [|done]. split; [done|]. cbn [rd_state state_ok]. split; [lia|done]. }
  pose proof (commit_ok rv now s' Ht' Hf') as Hc. destruct (commit_v5_chunk rv now s') as [res s2].
  destruct Hc as (Hc1 & Hc2 & Hc3).
  assert (reader_ok (mkReader read_state_new s2 (rd_routes rd))) by (split; cbn; [done|lia]).
  destruct res as [[c|]|e|]; try (intros [= <- <-]; done).
  destruct (completed_result_ok c (Hc3 c eq_refl)) as [m ->]. intros [= <- <-]. done.
Qed.

Lemma meta_step_ok k body_len meta meta_len read rd o r rd' now :
  rd_state rd = ReadStreamMeta k body_len meta meta_len read -> reader_ok rd -> admissible o rd ->
  step o now rd = (r, rd') -> reader_ok rd' /\ r <> Panicked.
Proof.
  intros E Hok Ho. pose proof Hok as [Ht Hst]. unfold read_message_step_poll.
  unfold admissible, wanted in Ho. rewrite E in *. destruct Hst as (Hk & Hml & Hm & Hb & Hr).
  destruct o as [|[|b bytes]|e]; [intros [= <- <-]; done..| |intros [= <- <-]; done].
  destruct Ho as [Hbs Hlen]. pose proof (stream_meta_len_pos _ _ Hk). pose proof (len_nonneg (b :: bytes)).
  set (meta' := write_at meta read (b :: bytes)).
  assert (state_ok (ReadStreamMeta k body_len meta' meta_len (read + len (b :: bytes))) (rd_streams rd)
          /\ Forall is_byte meta') as [Hs' Hb'].
  { assert (Forall is_byte meta') by (unfold meta'; now apply write_at_bytes). cbn [state_ok]. split_and!; auto; try lia.
    unfold meta'. rewrite write_at_length; unfold len in *; lia. }
  destruct (read + len (b :: bytes) <? meta_len); [intros [= <- <-]; split; [now split|done]|].
  pose proof (reserve_payload_ok k body_len (take (Z.to_nat meta_len) meta') now _ _ Ht Hk Hml
                (Forall_take _ _ _ Hb')) as H1.
  destruct (reserve_v5_stream_payload _ _ _ _ _) as [res s']. destruct H1 as (H1 & H2 & H3).
  destruct res as [res|e|]; [| |done]; intros [= <- <-]; (split; [|done]); split; try done.
  cbn. apply payload_state_ok; auto. intros rv ->. now apply H3.
Qed.

Lemma prefix_step_ok buf read rd o r rd' now :
  rd_state rd = ReadLen buf read -> reader_ok rd -> admissible o rd ->
  step o now rd = (r, rd') -> reader_ok rd' /\ r <> Panicked.
Proof.
  intros E Hok Ho. pose proof Hok as [Ht Hst]. unfold read_message_step_poll.
  unfold admissible, wanted in Ho. rewrite E in *. destruct Hst as [Hl Hr].
  destruct (read =? LENGTH_PREFIX_LEN); [intros [= <- <-]; done|].
  destruct o as [|[|b bytes]|e]; [intros [= <- <-]; done..| |intros [= <- <-]; done].
  destruct Ho as [_ Hlen]. unfold LENGTH_PREFIX_LEN in *. pose proof (len_nonneg (b :: bytes)).
  assert (length (write_at buf read (b :: bytes)) = 4%nat) as Hl'
    by (rewrite write_at_length; unfold len in *; lia).
  destruct (read + len (b :: bytes) <? 4).
  { intros [= <- <-]. split; [|done]. split; [done|]. cbn [rd_state state_ok]. split; [done|lia]. }
  destruct (after_prefix _ _ _) as [r1 rs] eqn:Ea. intros [= <- <-].
  destruct (after_prefix_ok _ _ _ (rd_streams rd) Hl' Ea). split; [now split|done].
Qed.

Lemma body_step_ok n buf read rd o r rd' now :
  rd_state rd = ReadBody n buf read -> reader_ok rd -> admissible o rd ->
  step o now rd = (r, rd') -> reader_ok rd' /\ r <> Panicked.
Proof.
  intros E Hok Ho. pose proof Hok as [Ht Hst]. unfold read_message_step_poll.
  unfold admissible, wanted in Ho. rewrite E in *. destruct Hst as (Hr & Hl & Ha).
  destruct (read =? n); [intros [= <- <-]; done|].
  destruct o as [|[|b bytes]|e]; [intros [= <- <-]; done..| |intros [= <- <-]; done].
  destruct Ho as [_ Hlen]. unfold LENGTH_PREFIX_LEN. pose proof (len_nonneg (b :: bytes)).
  set (buf' := mkBuffer _ _).
  destruct (read + len (b :: bytes) <? n).
  { intros [= <- <-]. split; [|done]. split; [done|]. cbn [rd_state state_ok]. split_and!; try done; try lia.
    cbn. unfold len in *. rewrite write_at_length; unfold len; lia. }
  pose proof (parse_not_panic buf' n (Some (rd_routes rd))) as Hp.
  destruct (parse_message_from_pooled_buffer_with_routes _ _ _ _) as [res routes].
  destruct res; [| |done]; intros [= <- <-]; (split; [split; cbn; [done|lia]|done]).
Qed.

(** Every call keeps the invariant and returns, failures included. *)
Lemma step_ok rd o r rd' now :
  reader_ok rd -> admissible o rd -> step o now rd = (r, rd') -> reader_ok rd' /\ r <> Panicked.
Proof.
  intros. destruct (rd_state rd) eqn:E;
    eauto using prefix_step_ok, body_step_ok, meta_step_ok, payload_step_ok, discard_step_ok.
Qed.

(** ** The connection

    Between two polls the reaper may run; a poll that produced a message is
    followed by its dispatch, which may start, feed, end or abort streams. *)
Inductive reader_step : Reader -> Reader -> Prop :=
  | reader_poll o now m rd rd' :
      admissible o rd -> step o now rd = (Progressed m, rd') -> reader_step rd rd'
  | reader_cleanup now s rd :
      cleanup_stale now (rd_streams rd) = (Ok true, s) ->
      reader_step rd (mkReader (rd_state rd) s (rd_routes rd))
  | reader_dispatch t c schema h chunk now m s rd :
      rd_state rd = read_state_new -> 0 <= sh_total_size h -> 0 <= sh_chunk_index h ->
      process_streaming t c schema h chunk now (rd_streams rd) = (Ok m, s) ->
      reader_step rd (mkReader read_state_new s (rd_routes rd))
  | reader_abort id rd :
      rd_state rd = read_state_new ->
      reader_step rd (mkReader read_state_new (abort_stream id (rd_streams rd)).2 (rd_routes rd)).

Lemma process_streaming_ok t c schema h chunk now s :
  table_ok s -> 0 <= sh_total_size h -> 0 <= sh_chunk_index h ->
  let '(res, s') := process_streaming t c schema h chunk now s in table_ok s' /\ res <> Panic.
Proof.
  intros Hs Ht Hi. unfold process_streaming.
  assert (forall r, let '(res, s1) := start_stream_with_correlation_and_kind h c schema r now s in
            table_ok s1 /\ res <> Panic) as Hstart.
  { intros r. pose proof (start_stream_ok h c schema r now s Hs Ht) as H.
    destruct (start_stream_with_correlation_and_kind _ _ _ _ _ _). now destruct H as (? & ? & _). }
  pose proof (fun s1 H => add_chunk_ok h chunk now s1 H Hi) as Hadd.
  pose proof (finalize_ok (sh_stream_id h) schema s Hs) as Hfin.
  destruct t; try done; repeat match goal with
    | |- context [start_stream_with_correlation_and_kind h c schema ?r now s] =>
        specialize (Hstart r); destruct (start_stream_with_correlation_and_kind h c schema r now s)
          as [[[]|e|] s1]; destruct Hstart as [Hs1 Hp]; try done
    | |- context [len chunk =? 0] => destruct (len chunk =? 0); [done|]
    | |- context [add_chunk_with_correlation h chunk now ?s1] =>
        first [specialize (Hadd s1 Hs1) | specialize (Hadd s1 Hs)];
        destruct (add_chunk_with_correlation h chunk now s1) as [[[[[? ?] ?]|]|e|] s2];
        destruct Hadd; try done
    | |- context [metadata_for ?i s] => destruct (metadata_for i s) as [[[[? ?] ?] ?]|]; [|done]
    | |- context [finalize_stream_with_correlation ?i schema s] =>
        destruct (finalize_stream_with_correlation i schema s) as [[[[[? ?] ?]|]|e|] s2];
        destruct Hfin; try done
    end; done.
Qed.

Lemma cleanup_state_ok rs now s :
  table_ok s -> state_ok rs s ->
  let '(_, s') := cleanup_stale now s in table_ok s' /\ state_ok rs s'.
Proof.
  intros Hs Hrs. unfold cleanup_stale.
  pose proof (cleanup_ok now STREAM_IDLE_TIMEOUT MIN_SUSTAINED_RATE_WINDOW
                MIN_SUSTAINED_BYTES_PER_WINDOW s Hs) as H.
  destruct (cleanup_stale_with _ _ _ _ _) as [res s']. destruct H as (H1 & _ & Ha). split; [done|].
  destruct rs; try done. cbn in *. destruct Hrs as [Hr Hf]. split; [done|]. intros st. rewrite Ha, lookup_fmap.
  intros (st0 & H0 & ->)%fmap_Some. apply map_lookup_filter_Some in H0 as [H0 _].
  generalize (Hf _ H0). apply fits_ext; unfold slide_window; destruct (window_elapsed _ _ _); done.
Qed.

Lemma reader_step_ok rd rd' : reader_ok rd -> reader_step rd rd' -> reader_ok rd'.
Proof.
  intros Hok H. destruct H as [o now m rd rd' Ho H|now s rd H|t c schema h chunk now m s rd E H1 H2 H|id rd E].
  - now destruct (step_ok rd o _ rd' now Hok Ho H).
  - destruct Hok as [H1 H2]. pose proof (cleanup_state_ok _ now _ H1 H2) as H3. rewrite H in H3. now split.
  - destruct Hok as [Ht _]. pose proof (process_streaming_ok t c schema h chunk now _ Ht H1 H2) as H3.
    rewrite H in H3. split; [apply H3|apply read_state_new_ok].
  - destruct Hok as [Ht _]. split; [now apply delete_stream_ok|apply read_state_new_ok].
Qed.

Definition reader_new (routes : RouteTable) : Reader := mkReader read_state_new streaming_new routes.

Lemma reader_reachable_ok routes rd : star reader_step (reader_new routes) rd -> reader_ok rd.
Proof.
  intros H. eapply (star_invariant reader_step reader_ok); eauto using reader_step_ok.
  split; [apply streaming_new_ok|apply read_state_new_ok].
Qed.

(** C10: whatever bytes a peer sends, in whatever pieces, and whenever the reaper
    or the dispatch of a message touches the streams: the reader never panics,
    neither does the reaper, and the memory a peer can make the connection hold
    is bounded, by the number of streams, by the bytes of their buffers, and by
    the number and the bitmap words of the tombstones. *)
Theorem reader_safe routes rd :
  star reader_step (reader_new routes) rd ->
  (forall o now, admissible o rd -> (step o now rd).1 <> Panicked)
  /\ (forall now, (cleanup_stale now (rd_streams rd)).1 <> Panic)
  /\ map_len (active_streams (rd_streams rd)) <= max_concurrent_streams (rd_streams rd)
  /\ inflight_bytes (active_streams (rd_streams rd)) <= MAX_INFLIGHT_STREAM_BYTES
  /\ map_len (rejected_streams (rd_streams rd)) <= REJECTED_STREAMS_ENTRY_BUDGET
  /\ map_sum tomb_words (rejected_streams (rd_streams rd)) <= REJECTED_STREAMS_BITMAP_WORD_BUDGET.
Proof.
  intros Hr%reader_reachable_ok. pose proof Hr as [Ht _]. split_and!; try apply Ht.
  - intros o now Ho. destruct (step o now rd) as [r rd'] eqn:E. now apply (step_ok rd o r rd' now).
  - intros now. pose proof (cleanup_ok now STREAM_IDLE_TIMEOUT MIN_SUSTAINED_RATE_WINDOW
      MIN_SUSTAINED_BYTES_PER_WINDOW _ Ht) as H. unfold cleanup_stale.
    destruct (cleanup_stale_with _ _ _ _ _). now destruct H as (_ & ? & _).
Qed.
End ReadInv.

(** After the first byte of a length prefix. *)
Lemma reader_safe_witness :
  let rd := mkReader (ReadLen [8; 0; 0; 0] 1) streaming_new new in
  (read_message_step_poll (fun _ => @None unit) (fun _ => 0) 1000 (PollBytes [0; 0; 9]) 5 rd).1 <> Panicked.
Proof.
  intros rd. apply (reader_safe (fun _ => @None unit) (fun _ => 0) (fun _ => eq_refl) 1000 new rd).
  - apply star_one. apply (reader_poll _ _ _ (PollBytes [8]) 0 None); [|reflexivity].
    split; [apply Forall_singleton; vm_compute; split; discriminate|vm_compute; discriminate].
  - split; [apply (bool_decide_eq_true_1 _); reflexivity|vm_compute; discriminate].
Defined.
