(* ===== verification/ReadFeed.v ===== *)
(** * The byte stream and the messages

    The reader's messages depend on the bytes the peer sent, not on how the
    transport cut them into reads. *)

From S2P Require Import Prelude Types Framing RouteTable Aligned FrameParser Bitmap.
From S2P Require Import Streaming StreamInv StreamTable ReadPipeline ReadInv.
Import Routes Aligned.

(** ** Writes of adjacent pieces *)
Lemma copy_from_slice_app {A} (l b1 b2 : list A) a :
  (a + length b1 + length b2 <= length l)%nat ->
  copy_from_slice (copy_from_slice l a b1) (a + length b1) b2 = copy_from_slice l a (b1 ++ b2).
Proof.
  intros H. apply list_eq. intros j.
  rewrite !lookup_copy_from_slice by (rewrite ?length_copy_from_slice, ?length_app; lia).
  rewrite length_app.
  repeat case_decide; try lia; try done.
  - rewrite lookup_app_r by lia. f_equal. lia.
  - now rewrite lookup_app_l by lia.
Qed.

Lemma write_at_app l a b1 b2 :
  0 <= a -> a + len b1 + len b2 <= len l ->
  write_at (write_at l a b1) (a + len b1) b2 = write_at l a (b1 ++ b2).
Proof.
  intros Ha H. unfold write_at, len in *. rewrite <- copy_from_slice_app by lia.
  f_equal. lia.
Qed.

Lemma len_cons_pos {A} (x : A) l : 0 < len (x :: l).
Proof. unfold len. cbn. lia. Qed.

Section ReadFeed.
Context {RegistryMessage : Type}.
Context (decode_registry_message : list Z -> option RegistryMessage).
Context (allocate : Z -> Z) (Halign : forall n, allocate n mod PAYLOAD_ALIGNMENT = 0).
Context (max_message_size : Z) (now : Z).

Abbreviation step := (read_message_step_poll decode_registry_message allocate max_message_size).
Abbreviation message := (@MessageReadResult RegistryMessage).

(** ** Readers that wait for bytes *)
Definition live (rd : Reader) : Prop :=
  match rd_state rd with
  | ReadLen _ read => read < LENGTH_PREFIX_LEN
  | ReadBody msg_len _ read => read < msg_len
  | ReadStreamMeta _ _ _ meta_len read => read < meta_len
  | _ => True
  end.

Lemma after_prefix_live buf m rs s routes :
  after_prefix (RegistryMessage := RegistryMessage) allocate max_message_size buf = (Progressed m, rs) ->
  live (mkReader rs s routes).
Proof.
  unfold after_prefix. destruct (decode_control buf) as [c|] eqn:Ec; [|done].
  pose proof (decode_control_body_len _ _ Ec). destruct (Z.eqb_spec (body_len c) 0); [done|].
  destruct (max_message_size <? _); [done|]. destruct (stream_meta_len (kind c)) as [ml|] eqn:Ek.
  - pose proof (stream_meta_len_pos _ _ Ek). destruct (body_len c <? ml); [done|]. intros [= <- <-]. cbn. lia.
  - intros [= <- <-]. cbn. lia.
Qed.

Lemma live_new s routes : live (mkReader read_state_new s routes).
Proof. done. Qed.

Lemma step_live o rd m rd' : live rd -> step o now rd = (Progressed m, rd') -> live rd'.
Proof.
  intros Hl. unfold read_message_step_poll, live in *.
  destruct (rd_state rd) as [buf read|n buf read|k bl meta ml read|rv read|rem mark] eqn:E.
  - destruct (read =? _); [done|]. destruct o as [|[|b bytes]|e]; [done..| |done].
    destruct (Z.ltb_spec (read + len (b :: bytes)) LENGTH_PREFIX_LEN); [now intros [= <- <-]|].
    destruct (after_prefix _ _ _) as [r rs] eqn:Ea. intros [= -> <-].
    exact (after_prefix_live _ _ _ (rd_streams rd) (rd_routes rd) Ea).
  - destruct (read =? _); [done|]. destruct o as [|[|b bytes]|e]; [done..| |done].
    destruct (Z.ltb_spec (read + len (b :: bytes)) n); [now intros [= <- <-]|].
    destruct (parse_message_from_pooled_buffer_with_routes _ _ _ _). now intros [= _ <-].
  - destruct o as [|[|b bytes]|e]; [done..| |done].
    destruct (Z.ltb_spec (read + len (b :: bytes)) ml); [now intros [= <- <-]|].
    destruct (reserve_v5_stream_payload _ _ _ _ _) as [[res|e|] s]; [|done..]. intros [= <- <-].
    unfold stream_payload_state. destruct res as [rv|]; cbn; [|done]. now destruct (rv_len rv =? 0).
  - destruct (v5_chunk_target _ _ _) as [[start e]|e|]; [|destruct (is_stream_reaped_error e); [now intros [= <- <-]|done]|done].
    destruct o as [|[|b bytes]|k]; [done..| |done].
    destruct (_ <? _); [now intros [= <- <-]|].
    destruct (commit_v5_chunk _ _ _) as [[[c|]|k|] s]; try done; now intros [= _ <-].
  - destruct (finish_discarding_reservation mark (rd_streams rd)) as [[[]|e|] s];
      (destruct (rem =? 0); [try done; now intros [= _ <-]|]);
      (destruct o as [|[|b bytes]|k]; [done..| |done]);
      (destruct (_ =? 0); [try done|]; now intros [= _ <-]).
Qed.

(** ** Splitting one read into two *)
Lemma fill_progress_app rv start b1 b2 s :
  (forall st, active_streams s !! rv_stream_id rv = Some st ->
     0 <= start /\ start + len b1 + len b2 <= len (is_buffer st)) ->
  record_v5_chunk_progress rv (len b2) now (fill_target rv (start + len b1) b2
    (record_v5_chunk_progress rv (len b1) now (fill_target rv start b1 s)))
  = record_v5_chunk_progress rv (len (b1 ++ b2)) now (fill_target rv start (b1 ++ b2) s).
Proof.
  intros H. unfold record_v5_chunk_progress, fill_target, set_active. cbn. f_equal.
  apply map_eq. intros j. rewrite !lookup_alter. repeat case_decide; try done. subst j.
  destruct (active_streams s !! rv_stream_id rv) as [st|] eqn:E; [|done].
  destruct (H st eq_refl) as [Hs0 Hs1]. cbn. f_equal. unfold set_progress, set_buffer. cbn. f_equal.
  - unfold len in *. rewrite <- copy_from_slice_app by lia. f_equal. lia.
  - unfold saturating_add, len. rewrite length_app, Nat2Z.inj_add. lia.
Qed.

(** A read cut in two: the first part produces nothing, the second ends where
    the whole read would have. *)
Definition splits (b1 b2 : list Z) (rd : Reader) : Prop :=
  exists rd1, step (PollBytes b1) now rd = (Progressed None, rd1)
    /\ step (PollBytes b2) now rd1 = step (PollBytes (b1 ++ b2)) now rd
    /\ len b1 <= wanted rd /\ len b2 <= wanted rd1.

Section Split.
Context (x y : Z) (b1 b2 : list Z) (rd : Reader) (Hok : reader_ok rd) (Hl : live rd).
Context (Hw : len ((x :: b1) ++ y :: b2) <= wanted rd).

Lemma split_lens :
  len ((x :: b1) ++ y :: b2) = len (x :: b1) + len (y :: b2)
  /\ 0 < len (x :: b1) /\ 0 < len (y :: b2)
  /\ (x :: b1) ++ y :: b2 = x :: (b1 ++ y :: b2).
Proof using. split_and!; auto using len_cons_pos. unfold len. rewrite length_app. lia. Qed.

Ltac split_case E :=
  pose proof (ro_table _ Hok) as Ht; pose proof (ro_state _ Hok) as Hst; clear Hok;
  destruct split_lens as (Hlen & P1 & P2 & Happ); unfold splits;
  unfold wanted, live in *; rewrite E in *; cbn [state_ok] in Hst;
  unfold read_message_step_poll at 1 3; rewrite E.

Lemma split_prefix buf read : rd_state rd = ReadLen buf read -> splits (x :: b1) (y :: b2) rd.
Proof using Hok Hl Hw.
  intros E. split_case E. unfold LENGTH_PREFIX_LEN in *. destruct Hst as [Hb Hr].
  rewrite (proj2 (Z.eqb_neq read 4)) by lia.
  rewrite (proj2 (Z.ltb_lt (read + len (x :: b1)) 4)) by lia.
  eexists. split_and!; [done| |lia|cbn [rd_state]; lia].
  cbn [read_message_step_poll rd_state rd_streams rd_routes]. unfold LENGTH_PREFIX_LEN.
  rewrite (proj2 (Z.eqb_neq (read + _) 4)) by lia. rewrite Happ, <- !Happ, Hlen, Z.add_assoc.
  rewrite write_at_app by (unfold len in *; lia). done.
Qed.

Lemma split_body n buf read : rd_state rd = ReadBody n buf read -> splits (x :: b1) (y :: b2) rd.
Proof using Hok Hl Hw.
  intros E. split_case E. destruct Hst as (Hr & Hd & _).
  rewrite (proj2 (Z.eqb_neq read n)) by lia.
  rewrite (proj2 (Z.ltb_lt (read + len (x :: b1)) n)) by lia.
  eexists. split_and!; [done| |lia|cbn [rd_state]; lia].
  cbn [read_message_step_poll rd_state rd_streams rd_routes]. unfold LENGTH_PREFIX_LEN.
  rewrite (proj2 (Z.eqb_neq (read + _) n)) by lia. rewrite Happ, <- !Happ, Hlen, !Z.add_assoc.
  cbn [base data]. rewrite write_at_app by lia. done.
Qed.

Lemma split_meta k bl meta ml read :
  rd_state rd = ReadStreamMeta k bl meta ml read -> splits (x :: b1) (y :: b2) rd.
Proof using Hok Hl Hw.
  intros E. split_case E. destruct Hst as (Hk & _ & Hm & _ & Hr).
  pose proof (stream_meta_len_pos _ _ Hk).
  rewrite (proj2 (Z.ltb_lt (read + len (x :: b1)) ml)) by lia.
  eexists. split_and!; [done| |lia|cbn [rd_state]; lia].
  cbn [read_message_step_poll rd_state rd_streams rd_routes].
  rewrite Happ, <- !Happ, Hlen, !Z.add_assoc.
  assert (write_at (write_at meta read (x :: b1)) (read + len (x :: b1)) (y :: b2)
          = write_at meta read ((x :: b1) ++ y :: b2)) as ->
    by (apply write_at_app; unfold len in *; lia).
  destruct (_ <? ml); [done|]. destruct (reserve_v5_stream_payload _ _ _ _ _) as [[r|e|] s]; try done.
Qed.

Lemma split_discard rem mark :
  rd_state rd = DiscardStreamPayload rem mark -> splits (x :: b1) (y :: b2) rd.
Proof using Hok Hl Hw.
  intros E. split_case E.
  rewrite (proj2 (Z.eqb_neq rem 0)), (proj2 (Z.eqb_neq (rem - len (x :: b1)) 0)) by lia.
  eexists. split_and!; [done| |lia|cbn [rd_state]; lia].
  cbn [read_message_step_poll rd_state rd_streams rd_routes].
  rewrite (proj2 (Z.eqb_neq (rem - len (x :: b1)) 0)) by lia.
  rewrite Happ, <- !Happ, Hlen, !Z.sub_add_distr. done.
Qed.

Lemma split_payload rv read :
  rd_state rd = ReadStreamPayload rv read -> splits (x :: b1) (y :: b2) rd.
Proof using Hok Hl Hw.
  intros E. split_case E. destruct Hst as [Hr Hf].
  destruct (active_streams (rd_streams rd) !! rv_stream_id rv) as [st|] eqn:Es.
  2: { unfold v5_chunk_target in Hw. rewrite Es in Hw. lia. }
  destruct (target_range rv read _ st Ht Es (Hf _ eq_refl)) as (Hv & H0 & H1); [lia|].
  rewrite Hv in *. rewrite (proj2 (Z.ltb_lt (read + len (x :: b1)) (rv_len rv))) by lia.
  set (s1 := record_v5_chunk_progress rv (len (x :: b1)) now _).
  assert (v5_chunk_target rv (read + len (x :: b1)) s1
          = Ok (rv_offset rv + (read + len (x :: b1)), rv_offset rv + rv_len rv)) as Hv1.
  { destruct (fill_progress_ok rv (rv_offset rv + read) (x :: b1) now (rd_streams rd) Ht) as [Ht1 Hf1].
    { intros st' Est'. assert (st' = st) as -> by congruence. split; [auto|]. lia. }
    destruct (active_streams s1 !! rv_stream_id rv) as [st1|] eqn:Es1.
    - apply (target_range rv _ s1 st1 Ht1 Es1 (Hf1 _ Es1)). lia.
    - unfold s1 in Es1. cbn in Es1. rewrite !lookup_alter, !decide_True, Es in Es1 by done. done. }
  eexists. split_and!; [done| |lia|cbn [rd_state rd_streams]; rewrite Hv1; lia].
  cbn [read_message_step_poll rd_state rd_streams rd_routes]. rewrite Hv1.
  rewrite Happ, <- !Happ, Hlen, !Z.add_assoc. unfold s1. rewrite fill_progress_app, Hlen; [done|].
  intros st' Est'. assert (st' = st) as -> by congruence. lia.
Qed.
End Split.

Lemma poll_split b1 b2 rd :
  reader_ok rd -> live rd -> b1 <> [] -> b2 <> [] -> len (b1 ++ b2) <= wanted rd -> splits b1 b2 rd.
Proof.
  intros Hok Hl H1 H2 Hw. destruct b1 as [|x b1]; [done|]. destruct b2 as [|y b2]; [done|].
  destruct (rd_state rd) eqn:E;
    eauto using split_prefix, split_body, split_meta, split_payload, split_discard.
Qed.

(** ** Feeding bytes

    [settle] makes the calls that need no byte; [feed] gives the reader one
    byte at a time.  [None]: the connection failed. *)
Definition settle (rd : Reader) : Reader :=
  if wanted rd =? 0 then (step PollPending now rd).2 else rd.

Definition emitted (m : option message) : list message :=
  match m with Some m => [m] | None => [] end.

Definition after (r : StepResult * Reader) (k : Reader -> list message * option Reader)
    : list message * option Reader :=
  match r with
  | (Progressed m, rd) => let '(ms, out) := k rd in (emitted m ++ ms, out)
  | _ => ([], None)
  end.

Fixpoint feed (bytes : list Z) (rd : Reader) : list message * option Reader :=
  match bytes with
  | [] => ([], Some (settle rd))
  | b :: bytes => after (step (PollBytes [b]) now (settle rd)) (feed bytes)
  end.

(** Any schedule of reads: pieces of any size the reader asked for, and calls
    that find nothing to read. *)
Inductive reads : list Z -> Reader -> list message -> option Reader -> Prop :=
  | reads_done rd : reads [] rd [] (Some rd)
  | reads_pending bytes rd ms out :
      step PollPending now rd = (Stalled, rd) -> reads bytes rd ms out -> reads bytes rd ms out
  | reads_silent o bytes rd m rd' ms out :
      wanted rd = 0 -> step o now rd = (Progressed m, rd') -> reads bytes rd' ms out ->
      reads bytes rd (emitted m ++ ms) out
  | reads_piece piece bytes rd m rd' ms out :
      piece <> [] -> len piece <= wanted rd ->
      step (PollBytes piece) now rd = (Progressed m, rd') -> reads bytes rd' ms out ->
      reads (piece ++ bytes) rd (emitted m ++ ms) out
  | reads_failed piece bytes rd e rd' :
      piece <> [] -> len piece <= wanted rd ->
      step (PollBytes piece) now rd = (Failed e, rd') -> reads (piece ++ bytes) rd [] None.

(** A reader that asks for no byte moves on by itself. *)
Lemma silent_step rd :
  reader_ok rd -> live rd -> wanted rd = 0 ->
  exists rd', (forall o, step o now rd = (Progressed None, rd')) /\ 0 < wanted rd'.
Proof.
  intros [Ht Hst] Hl Hw. unfold wanted, live, read_message_step_poll in *.
  destruct (rd_state rd) as [buf read|n buf read|k bl meta ml read|rv read|rem mark] eqn:E;
    cbn [state_ok] in Hst; try (unfold LENGTH_PREFIX_LEN in *; lia).
  - destruct Hst as [Hr Hf].
    destruct (active_streams (rd_streams rd) !! rv_stream_id rv) as [st|] eqn:Es.
    + destruct (target_range rv read _ st Ht Es (Hf _ eq_refl)) as (Hv & _); [lia|].
      rewrite Hv in Hw. lia.
    + unfold v5_chunk_target. rewrite Es. eexists. split; [done|]. cbn [rd_state]. cbn. lia.
  - assert (rem = 0) as -> by lia. destruct (finish_discard_ok mark _ Ht) as [H1 H2].
    destruct (finish_discarding_reservation mark (rd_streams rd)) as [res s']. cbn in H1. subst res.
    eexists. split; [done|]. cbn. unfold LENGTH_PREFIX_LEN. lia.
Qed.

Lemma settle_spec rd :
  reader_ok rd -> live rd ->
  reader_ok (settle rd) /\ live (settle rd) /\ 0 < wanted (settle rd)
  /\ (0 < wanted rd -> settle rd = rd)
  /\ (wanted rd = 0 -> forall o, step o now rd = (Progressed None, settle rd)).
Proof.
  intros Hok Hl. unfold settle. destruct (Z.eqb_spec (wanted rd) 0) as [E|E].
  - destruct (silent_step rd Hok Hl E) as (rd' & Hs & Hw). rewrite (Hs PollPending). cbn.
    assert (reader_ok rd') by (eapply (step_ok _ allocate Halign); [exact Hok| |exact (Hs PollPending)]; done).
    split_and!; auto; [|lia]. exact (step_live _ _ _ _ Hl (Hs PollPending)).
  - assert (0 <= wanted rd).
    { destruct Hok as [Ht Hst]. unfold wanted. destruct (rd_state rd) as [| | |rv read|]; cbn [state_ok] in Hst;
        unfold LENGTH_PREFIX_LEN; try lia. destruct Hst as [Hr Hf].
      destruct (active_streams (rd_streams rd) !! rv_stream_id rv) as [st|] eqn:Es.
      - destruct (target_range rv read _ st Ht Es (Hf _ eq_refl)) as (Hv & _); [lia|]. rewrite Hv. lia.
      - unfold v5_chunk_target. rewrite Es. done. }
    split_and!; auto; lia.
Qed.

(** One piece at once, or byte by byte. *)
Lemma feed_piece piece : forall rd bytes,
  reader_ok rd -> live rd -> piece <> [] -> Forall is_byte piece -> len piece <= wanted rd ->
  feed (piece ++ bytes) rd = after (step (PollBytes piece) now rd) (feed bytes).
Proof.
  induction piece as [|b piece IH]; intros rd bytes Hok Hl Hne Hb Hw; [done|].
  pose proof (len_cons_pos b piece).
  assert (settle rd = rd) as Hset by (apply settle_spec; [done..|lia]).
  cbn [app feed]. rewrite Hset.
  destruct piece as [|c piece]; [done|].
  destruct (poll_split [b] (c :: piece) rd Hok Hl) as (rd1 & H1 & H2 & H3 & H4); [done..|].
  change ([b] ++ c :: piece) with (b :: c :: piece) in H2.
  apply Forall_cons_1 in Hb as [Hb0 Hb].
  assert (reader_ok rd1) by (eapply (step_ok _ allocate Halign); [exact Hok| |exact H1]; split; [by apply Forall_singleton|done]).
  assert (live rd1) by eauto using step_live.
  change (after (step (PollBytes [b]) now rd) (feed ((c :: piece) ++ bytes))
          = after (step (PollBytes (b :: c :: piece)) now rd) (feed bytes)).
  rewrite H1. cbn [after emitted]. rewrite IH, H2 by done.
  destruct (step (PollBytes (b :: c :: piece)) now rd) as [[m| | |] rd']; try done.
  cbn. now destruct (feed bytes rd').
Qed.

Lemma feed_settle bytes rd : reader_ok rd -> live rd -> feed bytes (settle rd) = feed bytes rd.
Proof.
  intros Hok Hl. destruct (settle_spec rd Hok Hl) as (H1 & H2 & H3 & _).
  assert (settle (settle rd) = settle rd) as Hs by (apply settle_spec; auto).
  destruct bytes; cbn; now rewrite Hs.
Qed.

Lemma reads_feed bytes rd ms out :
  reads bytes rd ms out -> reader_ok rd -> live rd -> Forall is_byte bytes ->
  feed bytes rd = (ms, settle <$> out).
Proof.
  intros H. induction H as [rd|bytes rd ms out _ _ IH|o bytes rd m rd' ms out Hw H _ IH
    |piece bytes rd m rd' ms out Hne Hw H _ IH|piece bytes rd e rd' Hne Hw H];
    intros Hok Hl Hb; [done|auto|..].
  - destruct (settle_spec rd Hok Hl) as (H1 & H2 & _ & _ & H5). rewrite (H5 Hw) in H.
    injection H as <- <-. rewrite <- feed_settle by done. now apply IH.
  - apply Forall_app in Hb as [Hp Hb]. rewrite feed_piece, H by done. cbn.
    assert (reader_ok rd') by (eapply (step_ok _ allocate Halign); [exact Hok| |exact H]; done).
    rewrite IH; eauto using step_live.
  - apply Forall_app in Hb as [Hp Hb]. rewrite feed_piece, H by done. done.
Qed.

(** ** No reader waits for nothing *)
Lemma never_stalls bytes rd : live rd -> bytes <> [] -> (step (PollBytes bytes) now rd).1 <> Stalled.
Proof.
  intros Hl Hne. destruct bytes as [|b bytes]; [done|]. unfold read_message_step_poll, live in *.
  destruct (rd_state rd) as [buf read|n buf read|k bl meta ml read|rv read|rem mark].
  - rewrite (proj2 (Z.eqb_neq read _)) by lia. unfold after_prefix. by repeat case_match; simplify_eq.
  - rewrite (proj2 (Z.eqb_neq read _)) by lia. unfold of_result. by repeat case_match.
  - by repeat case_match.
  - unfold of_result. by repeat case_match.
  - by repeat case_match.
Qed.

(** Every byte sequence has a schedule. *)
Lemma reads_exist bytes : forall rd,
  reader_ok rd -> live rd -> Forall is_byte bytes -> exists ms out, reads bytes rd ms out.
Proof.
  induction bytes as [|b bytes IH]; intros rd Hok Hl Hb; [do 2 eexists; constructor|].
  apply Forall_cons_1 in Hb as [Hb0 Hb].
  destruct (settle_spec rd Hok Hl) as (Hok1 & Hl1 & Hw1 & _ & Hsil).
  assert (exists ms out, reads (b :: bytes) (settle rd) ms out) as (ms & out & Hr).
  { pose proof (never_stalls [b] (settle rd) Hl1 ltac:(done)) as Hns.
    assert (admissible (PollBytes [b]) (settle rd)) as Hadm
      by (split; [by apply Forall_singleton|change (len [b]) with 1; lia]).
    destruct (step (PollBytes [b]) now (settle rd)) as [r rd'] eqn:E.
    destruct (step_ok _ allocate Halign _ _ _ _ _ _ Hok1 Hadm E) as [Hok' Hp].
    destruct r as [m| |e|]; try done.
    - destruct (IH rd') as (ms & out & Hr); eauto using step_live.
      do 2 eexists. eapply (reads_piece [b]); [done|apply Hadm|exact E|exact Hr].
    - do 2 eexists. eapply (reads_failed [b]); [done|apply Hadm|exact E]. }
  unfold settle in *. destruct (Z.eqb_spec (wanted rd) 0) as [E|E]; [|eauto].
  exists (emitted None ++ ms), out. eapply (reads_silent PollPending); [done|apply Hsil, E|exact Hr].
Qed.

Definition at_rest (out : option Reader) : option Reader := settle <$> out.

(** Two schedules of the same bytes, from the same reader and at the same
    clock, produce the same messages in the same order, fail or not together,
    and end in the same reader once it waits for its next byte; so the messages
    do not depend on how the transport cuts the stream into reads. *)
Theorem segmentation_irrelevant bytes rd ms1 out1 ms2 out2 :
  reader_ok rd -> live rd -> Forall is_byte bytes ->
  reads bytes rd ms1 out1 -> reads bytes rd ms2 out2 ->
  ms1 = ms2 /\ at_rest out1 = at_rest out2.
Proof.
  intros Hok Hl Hb H1 H2. apply reads_feed in H1, H2; auto. rewrite H1 in H2.
  injection H2 as -> H. auto.
Qed.
End ReadFeed.

Lemma segmentation_irrelevant_witness :
  let bytes := [24; 0; 0; 1; 5] in
  exists ms out, reads (fun _ => @None unit) (fun _ => 0) 1000 7 bytes (reader_new new) ms out
    /\ forall ms2 out2, reads (fun _ => @None unit) (fun _ => 0) 1000 7 bytes (reader_new new) ms2 out2 ->
       ms = ms2.
Proof.
  intros bytes. assert (reader_ok (reader_new new)) as Hok
    by (split; [apply streaming_new_ok|apply read_state_new_ok]).
  assert (Forall is_byte bytes) as Hb by (apply (bool_decide_eq_true_1 _); reflexivity).
  destruct (reads_exist (fun _ => @None unit) (fun _ => 0) (fun _ => eq_refl) 1000 7 bytes (reader_new new))
    as (ms & out & Hr); [done|done|done|].
  exists ms, out. split; [done|]. intros ms2 out2 H2.
  apply (segmentation_irrelevant (fun _ => @None unit) (fun _ => 0) (fun _ => eq_refl) 1000 7 bytes
    (reader_new new) ms out ms2 out2); done.
Defined.

Section Liveness.
Context {RegistryMessage : Type}.
Context (decode_registry_message : list Z -> option RegistryMessage).
Context (allocate : Z -> Z) (Halign : forall n, allocate n mod PAYLOAD_ALIGNMENT = 0).
Context (max_message_size : Z).

Abbreviation step := (read_message_step_poll decode_registry_message allocate max_message_size).
Abbreviation reader_step := (reader_step decode_registry_message allocate max_message_size).

Lemma reader_step_live rd rd' : reader_step rd rd' -> live rd -> live rd'.
Proof. destruct 1; eauto using step_live, live_new. Qed.

Lemma reader_reachable_live routes rd : star reader_step (reader_new routes) rd -> live rd.
Proof.
  intros H. eapply (star_invariant reader_step live); eauto using reader_step_live, live_new.
Qed.

(** C11: a connection that has not failed never waits for nothing.  A reader
    has not read past what its state waits for ([live]), and it either asks for at least one byte, and then consumes whatever it gets:
    the call produces progress or ends the connection, it never stalls; or it
    asks for none, and then the next call moves it on to a state that does. *)
Theorem reader_never_stuck routes rd now :
  star reader_step (reader_new routes) rd ->
  live rd /\
  ((0 < wanted rd /\ forall bytes, bytes <> [] -> (step (PollBytes bytes) now rd).1 <> Stalled)
  \/ (wanted rd = 0 /\ exists rd', (forall o, step o now rd = (Progressed None, rd')) /\ 0 < wanted rd')).
Proof.
  intros Hr. pose proof (reader_reachable_ok _ _ Halign _ _ _ Hr) as Hok.
  pose proof (reader_reachable_live _ _ Hr) as Hl. split; [done|].
  destruct (Z.eq_dec (wanted rd) 0) as [E|E].
  - right. split; [done|]. now apply silent_step.
  - left. split; [|intros; now apply never_stalls].
    destruct (settle_spec decode_registry_message _ Halign max_message_size now rd Hok Hl) as (_ & _ & Hw & _).
    unfold settle in Hw. now rewrite (proj2 (Z.eqb_neq _ _) E) in Hw.
Qed.
End Liveness.

Lemma reader_never_stuck_witness :
  0 < wanted (reader_new new)
  /\ (read_message_step_poll (fun _ => @None unit) (fun _ => 0) 1000 (PollBytes [1]) 0 (reader_new new)).1 <> Stalled.
Proof.
  split; [reflexivity|].
  destruct (reader_never_stuck (fun _ => @None unit) (fun _ => 0) (fun _ => eq_refl) 1000 new (reader_new new) 0)
    as [_ [[_ H]|[H _]]]; [apply star_refl|apply H; discriminate|discriminate H].
Defined.
