(* ===== verification/ReadRefine.v ===== *)
(** * Frames over the byte stream

    The incremental reader implements a reader of whole frames: fed with the
    bytes of a sequence of frames, it does what [run_frames] does with the
    frames themselves. *)

From S2P Require Import Prelude Types Framing RouteTable Aligned FrameParser Bitmap.
From S2P Require Import Streaming StreamInv StreamTable ReadPipeline ReadInv ReadFeed.
Import Routes Aligned.

(** A frame on the wire: its kind and its body. *)
Definition frame_bytes (f : WireKind * list Z) : list Z := control_bytes f.1 (len f.2) ++ f.2.

Lemma write_at_whole (l b : list Z) n :
  n = length l -> length b = n -> write_at l 0 b = b.
Proof.
  intros -> H. unfold write_at, copy_from_slice. change (Z.to_nat 0) with 0%nat.
  rewrite Nat.add_0_l, H, drop_all, take_0. apply app_nil_r.
Qed.

Lemma take_write_at (l b : list Z) n :
  n = len b -> (length b <= length l)%nat -> take (Z.to_nat n) (write_at l 0 b) = b.
Proof.
  intros -> H. unfold write_at, copy_from_slice, len. change (Z.to_nat 0) with 0%nat.
  rewrite Nat2Z.id, take_0, app_nil_l. apply take_app_length.
Qed.

Section Refine.
Context {RegistryMessage : Type}.
Context (decode_registry_message : list Z -> option RegistryMessage).
Context (allocate : Z -> Z) (Halign : forall n, allocate n mod PAYLOAD_ALIGNMENT = 0).
Context (max_message_size : Z) (now : Z).

Abbreviation step := (read_message_step_poll decode_registry_message allocate max_message_size).
Abbreviation feed := (feed decode_registry_message allocate max_message_size now).
Abbreviation after := (after (RegistryMessage := RegistryMessage)).
Abbreviation StepResult := (StepResult (RegistryMessage := RegistryMessage)).

(** ** Whole frames *)

(** A stream frame whose payload fills its reservation. *)
Definition stream_frame (k : WireKind) (meta payload : list Z) (s : StreamingState)
    : Result (option CompletedV5Stream) * StreamingState :=
  match reserve_v5_stream_payload k (len meta + len payload) meta now s with
  | (Ok (Some r), s) =>
      commit_v5_chunk r now
        (record_v5_chunk_progress r (len payload) now (fill_target r (rv_offset r) payload s))
  | (Ok None, s) => (Ok None, s)
  | (Err e, s) => (Err e, s)
  | (Panic, s) => (Panic, s)
  end.

Definition frame_step (f : WireKind * list Z) (s : StreamingState) (routes : RouteTable)
    : StepResult * (StreamingState * RouteTable) :=
  let '(k, body) := f in
  if max_message_size <? len body then (fail (MessageTooLarge (len body) max_message_size), (s, routes))
  else match stream_meta_len k with
  | None =>
      let '(r, t) := parse_message_from_pooled_buffer_with_routes decode_registry_message
        (mkBuffer (allocate (len body + 4)) (frame_bytes f)) (len body) (Some routes) in
      (of_result (Some <$> r), (s, default routes t))
  | Some meta_len =>
      if len body <? meta_len then (fail (Network InvalidData), (s, routes))
      else match stream_frame k (take (Z.to_nat meta_len) body) (drop (Z.to_nat meta_len) body) s with
      | (Ok None, s) => (Progressed None, (s, routes))
      | (Ok (Some c), s) => (of_result (Some <$> completed_v5_stream_result allocate c), (s, routes))
      | (Err e, s) => (fail e, (s, routes))
      | (Panic, s) => (Panicked, (s, routes))
      end
  end.

Fixpoint run_frames (fs : list (WireKind * list Z)) (s : StreamingState) (routes : RouteTable)
    : list MessageReadResult * option (StreamingState * RouteTable) :=
  match fs with
  | [] => ([], Some (s, routes))
  | f :: fs =>
      match frame_step f s routes with
      | (Progressed m, (s, routes)) =>
          let '(ms, out) := run_frames fs s routes in (emitted m ++ ms, out)
      | _ => ([], None)
      end
  end.

Definition idle (s : StreamingState) (routes : RouteTable) : Reader := mkReader read_state_new s routes.

(** A frame a writer can put on the wire. *)
Definition wire_frame (f : WireKind * list Z) : Prop :=
  0 < len f.2 <= CONTROL_BODY_LEN_MASK /\ Forall is_byte f.2.

Lemma idle_ok s routes : table_ok s -> reader_ok (idle s routes).
Proof. intros H. split; [done|apply read_state_new_ok]. Qed.

(** ** The length prefix *)
Lemma prefix_step k body rest s routes :
  table_ok s -> wire_frame (k, body) ->
  feed (frame_bytes (k, body) ++ rest) (idle s routes)
  = after (let '(r, rs) := after_prefix allocate max_message_size (control_bytes k (len body)) in
           (r, mkReader rs s routes)) (feed (body ++ rest)).
Proof.
  intros Hs [Hlen Hb]. unfold frame_bytes. cbn [fst snd] in *. rewrite <- app_assoc.
  rewrite (feed_piece _ _ Halign); [|now apply idle_ok|done|done| |done].
  - unfold idle, read_message_step_poll at 1. cbn [rd_state]. cbn [read_state_new].
    change (0 =? LENGTH_PREFIX_LEN) with false. cbv iota.
    destruct (control_bytes k (len body)) as [|b bs] eqn:E; [done|].
    rewrite <- E. change (0 + len (control_bytes k (len body)) <? LENGTH_PREFIX_LEN) with false. cbv iota.
    rewrite (write_at_whole _ _ 4) by done. done.
  - apply to_be_bytes_bytes.
Qed.

Lemma discard_feed payload rest s routes :
  table_ok s -> Forall is_byte payload ->
  feed (payload ++ rest) (mkReader (DiscardStreamPayload (len payload) None) s routes)
  = feed rest (idle s routes).
Proof.
  intros Hs. remember (length payload) as n eqn:En. revert payload En.
  induction n as [n IH] using lt_wf_ind. intros payload -> Hb.
  set (rd := mkReader _ s routes).
  assert (reader_ok rd) as Hok by (split; [done|apply len_nonneg]).
  destruct (decide (payload = [])) as [->|Hn].
  { change (feed rest rd = feed rest (idle s routes)).
    rewrite <- (feed_settle _ _ Halign _ _ _ rd Hok) by done. reflexivity. }
  assert (0 < len payload) as Hpos by (destruct payload; [done|apply len_cons_pos]).
  set (m := Z.to_nat (Z.min (len payload) 8192)).
  rewrite <- (take_drop m payload) at 1. rewrite <- app_assoc.
  assert (len (take m payload) = Z.min (len payload) 8192) as Hm
    by (unfold len in *; unfold m; rewrite length_take; lia).
  assert (take m payload <> []) as Hne by (intros E; rewrite E in Hm; change (len []) with 0 in Hm; lia).
  rewrite (feed_piece _ _ Halign); [|done|done|done|by apply Forall_take|unfold wanted, rd; cbn [rd_state]; lia].
  cbn [read_message_step_poll rd rd_state finish_discarding_reservation rd_streams rd_routes].
  rewrite (proj2 (Z.eqb_neq (len payload) 0)) by lia.
  destruct (take m payload) as [|c cs] eqn:Et; [done|]. rewrite <- Et in *.
  assert (len payload - len (take m payload) = len (drop m payload)) as Hd
    by (unfold len; rewrite length_take, length_drop; lia).
  rewrite Hd. destruct (Z.eqb_spec (len (drop m payload)) 0) as [E0|E0].
  - cbn. assert (drop m payload = []) as -> by (apply nil_length_inv; unfold len in E0; lia).
    change (feed ([] ++ rest)) with (feed rest). unfold idle. now destruct (feed rest _).
  - cbn [after emitted]. rewrite (IH (length (drop m payload))); auto using Forall_drop.
    + now destruct (feed rest _).
    + unfold len in Hpos. rewrite length_drop. lia.
Qed.

(** ** One frame *)
Definition on_idle (r : StepResult * (StreamingState * RouteTable)) : StepResult * Reader :=
  (r.1, idle r.2.1 r.2.2).

Lemma body_poll bytes n b s routes :
  bytes <> [] -> len bytes = n ->
  step (PollBytes bytes) now (mkReader (ReadBody n b 0) s routes)
  = let '(r, t) := parse_message_from_pooled_buffer_with_routes decode_registry_message
      (mkBuffer (base b) (write_at (data b) 4 bytes)) n (Some routes) in
    (of_result (Some <$> r), mkReader read_state_new s (default routes t)).
Proof.
  intros Hne <-. destruct bytes as [|c cs]; [done|]. pose proof (len_cons_pos c cs).
  cbn [read_message_step_poll rd_state rd_streams rd_routes].
  rewrite (proj2 (Z.eqb_neq 0 (len (c :: cs)))) by lia.
  rewrite (proj2 (Z.ltb_ge (0 + _) (len (c :: cs)))) by lia. done.
Qed.

Lemma frame_assembled k body n :
  n = len body + 4 ->
  write_at (write_at (replicate (Z.to_nat n) 0) 0 (control_bytes k (len body))) 4 body
  = control_bytes k (len body) ++ body.
Proof.
  intros ->. pose proof (len_nonneg body).
  change 4 with (0 + len (control_bytes k (len body))) at 2.
  rewrite write_at_app; [|lia|unfold len; rewrite length_replicate; cbn; lia].
  apply (write_at_whole _ _ (Z.to_nat (len body + 4)));
    unfold len; rewrite ?length_app, ?length_replicate; cbn; lia.
Qed.

Lemma body_feed k body rest s routes :
  table_ok s -> wire_frame (k, body) -> stream_meta_len k = None ->
  (max_message_size <? len body) = false ->
  feed (frame_bytes (k, body) ++ rest) (idle s routes)
  = after (on_idle (frame_step (k, body) s routes)) (feed rest).
Proof.
  intros Hs Hf Hk Hmax. rewrite prefix_step by done. destruct Hf as [Hlen Hb]. cbn [snd] in *.
  unfold after_prefix. rewrite decode_control_bytes by lia. cbn [body_len kind]. rewrite Hmax, Hk.
  rewrite (proj2 (Z.eqb_neq (len body) 0)) by lia. unfold LENGTH_PREFIX_LEN.
  set (rd := mkReader _ s routes). cbn [after emitted].
  set (buf := write_at _ 0 _) in rd.
  assert (len buf = len body + 4) as Hbuf.
  { unfold buf, len. rewrite write_at_length; unfold len; rewrite ?length_replicate; cbn; lia. }
  assert (reader_ok rd) as Hok by (split; [done|]; cbn; split_and!; auto; lia).
  assert (body <> []) as Hne by (intros ->; change (len []) with 0 in Hlen; lia).
  rewrite (feed_piece _ _ Halign); [|done|cbn; lia|done|done|cbn; lia].
  unfold rd. rewrite body_poll by done. unfold buf. cbn [base data]. rewrite frame_assembled by done.
  unfold frame_step, frame_bytes. rewrite Hmax, Hk. cbn [fst snd].
  destruct (parse_message_from_pooled_buffer_with_routes _ _ _ _) as [r t].
  cbn. destruct r as [m|e|]; cbn; try done. now destruct (feed rest _).
Qed.

Lemma reserve_chunk_len id i n s r s' :
  reserve_v5_chunk id i n s = (Ok r, s') -> rv_len r = n.
Proof.
  unfold reserve_v5_chunk. repeat (case_match; try done); intros [= <- <-]; done.
Qed.

Lemma reserved_len k body_len meta s r s' ml :
  stream_meta_len k = Some ml ->
  reserve_v5_stream_payload k body_len meta now s = (Ok (Some r), s') -> rv_len r = body_len - ml.
Proof.
  intros Hk. unfold reserve_v5_stream_payload. rewrite Hk. destruct (body_len <? ml); [done|].
  assert (forall h c b n s, begin_v5_stream_or_discard h c b n now s = (Ok (Some r), s') -> rv_len r = n) as Hb.
  { intros h c b n s0. unfold begin_v5_stream_or_discard.
    destruct (begin_v5_stream _ _ _ _ _ _) as [[r'|e|] s1] eqn:E; try done; cycle 1.
    { repeat (case_match; try done). }
    intros [= -> ->]. revert E. unfold begin_v5_stream.
    repeat (case_match; try done); eauto using reserve_chunk_len. }
  assert (forall i j n s, reserve_v5_chunk_or_discard i j n s = (Ok (Some r), s') -> rv_len r = n) as Hd.
  { intros i j n s0. unfold reserve_v5_chunk_or_discard.
    destruct (rejected_streams s0 !! i); [now destruct (absorb_chunk _ _ _ _) as [[]]|].
    destruct (reserve_v5_chunk i j n s0) as [[r'|e|] s1] eqn:E; try done.
    intros [= -> ->]. eauto using reserve_chunk_len. }
  destruct k; try done; eauto.
Qed.

Lemma meta_poll k bl meta ml s routes :
  meta <> [] -> len meta = ml -> ml <= 24 ->
  step (PollBytes meta) now (mkReader (ReadStreamMeta k bl (replicate 24 0) ml 0) s routes)
  = let buf := write_at (replicate 24 0) 0 meta in
    match reserve_v5_stream_payload k bl meta now s with
    | (Ok r, s) => (Progressed None, mkReader (stream_payload_state r bl ml) s routes)
    | (Err e, s) => (fail e, mkReader (ReadStreamMeta k bl buf ml ml) s routes)
    | (Panic, s) => (Panicked, mkReader (ReadStreamMeta k bl buf ml ml) s routes)
    end.
Proof.
  intros Hne <- Hml. assert (length meta <= length (replicate 24 0))%nat as Hfit
    by (unfold len in Hml; cbn; lia).
  pose proof (take_write_at (replicate 24 0) meta (len meta) eq_refl Hfit) as Ht.
  destruct meta as [|c cs]; [done|]. cbn [read_message_step_poll rd_state rd_streams rd_routes].
  rewrite (proj2 (Z.ltb_ge (0 + _) _)) by lia. rewrite Ht. done.
Qed.

Lemma payload_poll r payload s routes st :
  table_ok s -> active_streams s !! rv_stream_id r = Some st -> fits r st ->
  payload <> [] -> len payload = rv_len r ->
  step (PollBytes payload) now (mkReader (ReadStreamPayload r 0) s routes)
  = match commit_v5_chunk r now
            (record_v5_chunk_progress r (len payload) now (fill_target r (rv_offset r) payload s)) with
    | (Ok None, s) => (Progressed None, idle s routes)
    | (Ok (Some c), s) => (of_result (Some <$> completed_v5_stream_result allocate c), idle s routes)
    | (Err e, s) => (fail e, idle s routes)
    | (Panic, s) => (Panicked, idle s routes)
    end.
Proof.
  intros Hs E Hf Hne Hlen. destruct payload as [|c cs]; [done|]. pose proof (len_cons_pos c cs).
  cbn [read_message_step_poll rd_state rd_streams rd_routes].
  destruct (target_range r 0 s st Hs E Hf) as (-> & _); [lia|]. rewrite !Z.add_0_r.
  rewrite (proj2 (Z.ltb_ge (0 + _) _)) by lia. done.
Qed.

(** The payload, once its reservation is made or refused. *)
Lemma payload_feed res payload rest body_len meta_len s routes :
  table_ok s -> Forall is_byte payload -> body_len = meta_len + len payload ->
  (forall r, res = Some r -> backed r s /\ rv_len r = len payload) ->
  feed (payload ++ rest) (mkReader (stream_payload_state res body_len meta_len) s routes)
  = after (on_idle
      match (match res with
             | Some r => commit_v5_chunk r now (record_v5_chunk_progress r (len payload) now
                           (fill_target r (rv_offset r) payload s))
             | None => (Ok None, s)
             end) with
      | (Ok None, s) => (Progressed None, (s, routes))
      | (Ok (Some c), s) => (of_result (Some <$> completed_v5_stream_result allocate c), (s, routes))
      | (Err e, s) => (fail e, (s, routes))
      | (Panic, s) => (Panicked, (s, routes))
      end) (feed rest).
Proof.
  intros Hs Hb -> Hres. destruct res as [r|]; cbn [stream_payload_state].
  2: { replace (meta_len + len payload - meta_len) with (len payload) by lia.
       rewrite discard_feed by done. cbn. now destruct (feed rest _). }
  destruct (Hres r eq_refl) as [(st & E & Hf) Hlen].
  pose proof Hf as (k & Hk & Hi & _ & Hrl & _). pose proof (ta_streams _ Hs _ _ E) as [Hok _].
  destruct (settled st k Hok Hk) as (H0 & _).
  assert (0 < rv_len r <= k) as Hpos by (rewrite Hrl; eapply chunk_len_pos; [apply (so_total _ Hok)|lia|done]).
  rewrite (proj2 (Z.eqb_neq (rv_len r) 0)) by lia.
  assert (payload <> []) as Hne by (intros ->; change (len []) with 0 in Hlen; lia).
  set (rd := mkReader _ s routes).
  assert (reader_ok rd) as Hrd.
  { split; [done|]. cbn. split; [lia|]. intros st'. congruence. }
  rewrite (feed_piece _ _ Halign); [|done|done|done|done|].
  - unfold rd. erewrite payload_poll by eauto.
    destruct (commit_v5_chunk _ _ _) as [[[c|]|e|] s']; done.
  - unfold wanted, rd. cbn [rd_state rd_streams].
    destruct (target_range r 0 s st Hs E Hf) as (-> & _); lia.
Qed.

Lemma stream_feed k body rest s routes ml :
  table_ok s -> wire_frame (k, body) -> stream_meta_len k = Some ml -> ml <= len body ->
  (max_message_size <? len body) = false ->
  feed (frame_bytes (k, body) ++ rest) (idle s routes)
  = after (on_idle (frame_step (k, body) s routes)) (feed rest).
Proof.
  intros Hs Hf Hk Hml Hmax. rewrite prefix_step by done. destruct Hf as [Hlen Hb]. cbn [snd] in *.
  unfold after_prefix. rewrite decode_control_bytes by lia. cbn [body_len kind].
  unfold frame_step. rewrite Hmax, Hk.
  rewrite (proj2 (Z.eqb_neq (len body) 0)), (proj2 (Z.ltb_ge (len body) ml)) by lia.
  pose proof (stream_meta_len_pos _ _ Hk) as Hpos. cbn [after emitted].
  set (meta := take (Z.to_nat ml) body). set (payload := drop (Z.to_nat ml) body).
  assert (len meta = ml) as Hm by (unfold meta, len in *; rewrite length_take; lia).
  assert (len body = ml + len payload) as Hp by (unfold payload, len in *; rewrite length_drop; lia).
  assert (meta <> []) as Hne by (intros E; rewrite E in Hm; change (len []) with 0 in Hm; lia).
  assert (Forall is_byte meta /\ Forall is_byte payload) as [Hbm Hbp]
    by (split; [now apply Forall_take|now apply Forall_drop]).
  replace (body ++ rest) with (meta ++ payload ++ rest)
    by (unfold meta, payload; rewrite app_assoc, take_drop; done).
  set (rd := mkReader _ s routes).
  assert (reader_ok rd) as Hrd.
  { split; [done|]. cbn. split_and!; auto; try lia. now apply (Forall_replicate is_byte 24%nat 0). }
  rewrite (feed_piece _ _ Halign); [|done|cbn; lia|done|done|cbn; lia].
  unfold rd. rewrite meta_poll by (done || lia). unfold stream_frame.
  rewrite Hm, <- Hp.
  pose proof (reserve_payload_ok k (len body) meta now s ml Hs Hk Hml Hbm) as Hr.
  destruct (reserve_v5_stream_payload k (len body) meta now s) as [[res|e|] s1] eqn:E; try done.
  destruct Hr as (Hs1 & _ & Hr). cbn [after emitted]. rewrite payload_feed; auto.
  - destruct res; [|cbn; now destruct (feed rest _)]. destruct (commit_v5_chunk _ _ _) as [[[c|]|e|] s2]; cbn; try done;
      [destruct (of_result _); cbn; try done|]; now destruct (feed rest _).
  - intros r ->. split; [auto|]. rewrite (reserved_len _ _ _ _ _ _ _ Hk E). lia.
Qed.

(** One frame's bytes do what the frame does. *)
Lemma frame_feed f rest s routes :
  table_ok s -> wire_frame f ->
  feed (frame_bytes f ++ rest) (idle s routes)
  = after (on_idle (frame_step f s routes)) (feed rest).
Proof.
  destruct f as [k body]. intros Hs Hf. pose proof Hf as [Hlen _]. cbn [snd] in Hlen.
  assert (forall c, c = mkControl k (len body) ->
            decode_control (control_bytes k (len body)) = Some c) as Hc
    by (intros c ->; apply decode_control_bytes; lia).
  destruct (max_message_size <? len body) eqn:Hmax.
  { rewrite prefix_step by done. unfold after_prefix, frame_step. rewrite (Hc _ eq_refl), Hmax.
    cbn [body_len]. rewrite Hmax, (proj2 (Z.eqb_neq (len body) 0)) by lia. done. }
  destruct (stream_meta_len k) as [ml|] eqn:Hk; [|now apply body_feed].
  destruct (Z.ltb_spec (len body) ml); [|eapply stream_feed; eauto].
  rewrite prefix_step by done. unfold after_prefix, frame_step. rewrite (Hc _ eq_refl), Hmax, Hk.
  cbn [body_len kind]. rewrite Hmax, Hk, (proj2 (Z.eqb_neq (len body) 0)), (proj2 (Z.ltb_lt (len body) ml)) by lia.
  done.
Qed.

Lemma frame_step_ok f s routes r s' t :
  table_ok s -> Forall is_byte f.2 -> frame_step f s routes = (r, (s', t)) -> table_ok s'.
Proof.
  destruct f as [k body]. cbn [snd]. intros Hs Hb. unfold frame_step.
  destruct (max_message_size <? len body); [now intros [= _ <- _]|].
  destruct (stream_meta_len k) as [ml|] eqn:Hk.
  2: { destruct (parse_message_from_pooled_buffer_with_routes _ _ _ _). now intros [= _ <- _]. }
  destruct (Z.ltb_spec (len body) ml); [now intros [= _ <- _]|].
  pose proof (stream_meta_len_pos _ _ Hk). unfold stream_frame.
  set (meta := take _ _). set (payload := drop _ _).
  assert (len meta = ml) as Hm by (unfold meta, len in *; rewrite length_take; lia).
  pose proof (len_nonneg payload).
  pose proof (reserve_payload_ok k (len meta + len payload) meta now s ml Hs Hk ltac:(lia) (Forall_take _ _ _ Hb)) as Hr.
  destruct (reserve_v5_stream_payload k _ meta now s) as [[[rv|]|e|] s1] eqn:E;
    try (now intros [= _ <- _]); [|now destruct Hr; intros [= _ <- _]..].
  destruct Hr as (Hs1 & _ & Hr). destruct (Hr rv eq_refl) as (st & Est & Hfit).
  pose proof (reserved_len _ _ _ _ _ _ _ Hk E) as Hl.
  destruct (target_range rv 0 s1 st Hs1 Est Hfit) as (_ & Hr0 & Hr1); [lia|].
  destruct (fill_progress_ok rv (rv_offset rv) payload now s1 Hs1) as [Hs2 Hf2].
  { intros st' Est'. assert (st' = st) as -> by congruence. split; [done|]. lia. }
  pose proof (commit_ok rv now _ Hs2 Hf2) as Hc.
  destruct (commit_v5_chunk _ _ _) as [[[c|]|e|] s2]; destruct Hc as [Hc _]; now intros [= _ <- _].
Qed.

Lemma run_frames_feed fs : forall s routes,
  table_ok s -> Forall wire_frame fs ->
  feed (concat (frame_bytes <$> fs)) (idle s routes)
  = let '(ms, out) := run_frames fs s routes in (ms, (fun p => idle p.1 p.2) <$> out).
Proof.
  induction fs as [|f fs IH]; intros s routes Hs Hf; [done|].
  apply Forall_cons_1 in Hf as [Hf Hfs]. cbn [fmap list_fmap concat run_frames].
  rewrite frame_feed by done.
  destruct (frame_step f s routes) as [[m| | |] [s' t]] eqn:E; try done. cbn [after on_idle fst snd].
  assert (table_ok s') by (eapply frame_step_ok; eauto; apply Hf).
  rewrite IH by done. now destruct (run_frames fs s' t).
Qed.

(** The reader a frame-level outcome stands for. *)
Definition as_reader (out : option (StreamingState * RouteTable)) : option Reader :=
  (fun p => idle p.1 p.2) <$> out.

(** C9: the incremental reader implements the reader of whole frames.  For any
    frames a peer can put on the wire (of any kind, well-formed inside or not)
    and any way the transport cuts their bytes, the messages produced are those
    of [run_frames], in the same order; the connection fails exactly when a
    frame does; and otherwise the reader ends between two frames with the same
    streams and route bindings.  Nothing of one frame leaks into the next. *)
Theorem reader_refines_frames fs s t ms out :
  table_ok s -> Forall wire_frame fs ->
  reads decode_registry_message allocate max_message_size now
    (concat (frame_bytes <$> fs)) (idle s t) ms out ->
  (run_frames fs s t).1 = ms
  /\ at_rest decode_registry_message allocate max_message_size now out = as_reader (run_frames fs s t).2.
Proof.
  intros Hs Hf Hr. apply (reads_feed _ _ Halign) in Hr; [|now apply idle_ok|done|].
  - rewrite run_frames_feed in Hr by done. destruct (run_frames fs s t) as [ms' out'].
    injection Hr as -> Hr. split; [done|]. symmetry. exact Hr.
  - apply Forall_concat, Forall_fmap. revert Hf. apply List.Forall_impl.
    intros f [_ Hf]. apply Forall_app_2; [apply to_be_bytes_bytes|done].
Qed.
End Refine.

(** A pub-sub frame and a frame of a stream nobody opened. *)
Lemma reader_refines_frames_witness :
  let fs := [(KPubSub, replicate 12 0 ++ [8]); (KStreamData, [0; 0; 0; 1; 0; 0; 0; 0; 7])] in
  exists ms out,
    reads (fun _ => @None unit) (fun _ => 0) 1000 0 (concat (frame_bytes <$> fs)) (idle streaming_new new) ms out
    /\ (run_frames (fun _ => @None unit) (fun _ => 0) 1000 0 fs streaming_new new).1 = ms.
Proof.
  intros fs.
  destruct (reads_exist (fun _ => @None unit) (fun _ => 0) (fun _ => eq_refl) 1000 0
    (concat (frame_bytes <$> fs)) (idle streaming_new new)) as (ms & out & Hr);
    [apply idle_ok, streaming_new_ok|done|apply (bool_decide_eq_true_1 _); vm_compute; reflexivity|].
  exists ms, out. split; [done|].
  apply (reader_refines_frames (fun _ => @None unit) (fun _ => 0) (fun _ => eq_refl) 1000 0 fs
    streaming_new new ms out streaming_new_ok); [|done].
  repeat apply List.Forall_cons; try apply List.Forall_nil;
    (split; [vm_compute; split; [done|discriminate]|apply (bool_decide_eq_true_1 _); reflexivity]).
Defined.
