(* ===== verification/StreamDeliver.v ===== *)
(** * Delivery of streamed messages

    A message cut into chunks reaches the receiver whole, whatever the order of
    its chunks and whatever other frames travel between them. *)

From S2P Require Import Prelude Types Framing RouteTable Aligned FrameParser Bitmap.
From S2P Require Import Streaming StreamInv StreamTable ReadPipeline ReadInv ReadFeed ReadRefine.
Import Routes Aligned.

(** ** Frames of other streams leave a stream alone *)
Definition same_at (id : Z) (s s' : StreamingState) : Prop :=
  active_streams s' !! id = active_streams s !! id
  /\ rejected_streams s' !! id = rejected_streams s !! id.

#[export] Instance same_at_equiv id : Equivalence (same_at id).
Proof.
  split; [done|by intros ?? []|]. intros ??? [H1 H2] [H3 H4]. split; congruence.
Qed.

Section Other.
Context (id j : Z) (Hj : j <> id).

Lemma set_active_other f s :
  (forall m, f m !! id = m !! id) -> same_at id s (set_active f s).
Proof using. intros H. split; cbn; auto. Qed.

Lemma insert_other st s : same_at id s (set_active <[j := st]> s).
Proof using Hj. apply set_active_other. intros m. now apply lookup_insert_ne. Qed.

Lemma alter_other f s : same_at id s (set_active (alter f j) s).
Proof using Hj. apply set_active_other. intros m. now apply lookup_alter_ne. Qed.

Lemma delete_other s : same_at id s (set_active (delete j) s).
Proof using Hj. apply set_active_other. intros m. now apply lookup_delete_ne. Qed.

Lemma remove_tombstone_other s : same_at id s (remove_tombstone j s).
Proof using Hj.
  unfold remove_tombstone. destruct (rejected_streams s !! j); [|done].
  split; cbn; [done|]. now apply lookup_delete_ne.
Qed.

Lemma try_insert_other t s : same_at id s (try_insert_tombstone j t s).2.
Proof using Hj.
  unfold try_insert_tombstone. destruct (projected_bitmap_words _ _ s); [|done].
  split; cbn; [done|]. now apply lookup_insert_ne.
Qed.

Lemma reject_other total n s : same_at id s (reject_stream j total n s).2.
Proof using Hj.
  unfold reject_stream. destruct (_ <=? 1); [apply remove_tombstone_other|].
  destruct (projected_bitmap_words _ _ s); [apply try_insert_other|done].
Qed.

Lemma absorb_other i t s : same_at id s (absorb_chunk j i t s).2.
Proof using Hj.
  assert (forall t' w, same_at id s (set_rejected <[j := t']> w s)) as H
    by (intros t' w; split; cbn; [done|now apply lookup_insert_ne]).
  unfold absorb_chunk. destruct (tomb_is_complete _) as [[]| |]; cbn; auto.
  etransitivity; [apply H|apply remove_tombstone_other].
Qed.

Lemma start_other h c schema r now s :
  sh_stream_id h = j -> same_at id s (start_stream_with_correlation_and_kind h c schema r now s).2.
Proof using Hj.
  intros E. unfold start_stream_with_correlation_and_kind. rewrite E.
  repeat (case_match; cbn; [done|]). apply insert_other.
Qed.

Lemma reserve_other i n s : same_at id s (reserve_v5_chunk j i n s).2.
Proof using Hj.
  unfold reserve_v5_chunk. destruct (active_streams s !! j) as [st|]; [|done].
  destruct (n =? 0); [done|]. pose proof (insert_other (with_stride n st) s) as H.
  repeat (case_match; cbn; try exact H). etransitivity; [exact H|apply insert_other].
Qed.

Lemma begin_other h c r n now s :
  sh_stream_id h = j -> same_at id s (begin_v5_stream_or_discard h c r n now s).2.
Proof using Hj.
  intros E. unfold begin_v5_stream_or_discard, begin_v5_stream. rewrite E.
  etransitivity; [apply remove_tombstone_other|]. set (s0 := remove_tombstone j s). clearbody s0.
  destruct (n =? 0); [done|]. destruct (_ <? n); [done|].
  pose proof (start_other h c None r now s0 E) as H.
  destruct (start_stream_with_correlation_and_kind _ _ _ _ _ _) as [[[]|e|] s1]; cbn in H.
  - pose proof (reserve_other 0 n s1) as H1. etransitivity; [exact H|].
    destruct (reserve_v5_chunk _ _ _ _) as [[rv|e|] s2]; cbn in *; try done.
    destruct (is_resource_busy e); [|done]. pose proof (reject_other (sh_total_size h) n s2) as H2.
    destruct (reject_stream _ _ _ _) as [[] s3]; cbn in *; etransitivity; eauto.
  - destruct (is_resource_busy e); [|done]. pose proof (reject_other (sh_total_size h) n s1) as H2.
    destruct (reject_stream _ _ _ _) as [[] s3]; cbn in *; etransitivity; eauto.
  - done.
Qed.

Lemma commit_other r now s : rv_stream_id r = j -> same_at id s (commit_v5_chunk r now s).2.
Proof using Hj.
  intros E. unfold commit_v5_chunk. rewrite E. destruct (active_streams s !! j) as [st|]; [|done].
  destruct (chunk_bit _ _) as [[]|]; [done| |done]. set (st' := set_progress _ _ _ _).
  pose proof (insert_other st' s) as H.
  destruct (all_chunks_received st') as [[]| |]; cbn; try done.
  etransitivity; [exact H|apply delete_other].
Qed.
End Other.

(** The stream a frame belongs to. *)
Definition frame_stream (f : WireKind * list Z) : option Z :=
  (fun _ => field f.2 0 4) <$> stream_meta_len f.1.

Lemma field_take l n a b : (a <= b <= n)%nat -> field (take n l) a b = field l a b.
Proof.
  intros H. unfold field, slice. rewrite !take_drop_commute, take_take. do 3 f_equal. lia.
Qed.

(** Membership in the lists of chunks. *)
Ltac mem :=
  repeat match goal with
  | H : context [_ ∈ _ :: _] |- _ => rewrite elem_of_cons in H
  | H : context [_ ∈ _ ++ _] |- _ => rewrite elem_of_app in H
  | H : context [_ ∈ []] |- _ => rewrite elem_of_nil in H
  end; rewrite ?elem_of_app, ?elem_of_cons, ?elem_of_nil, ?elem_of_app, ?elem_of_cons, ?elem_of_nil;
  subst; tauto.

Section Deliver.
Context {RegistryMessage : Type}.
Context (decode_registry_message : list Z -> option RegistryMessage).
Context (allocate : Z -> Z) (Halign : forall n, allocate n mod PAYLOAD_ALIGNMENT = 0).
Context (max_message_size : Z) (now : Z).

Abbreviation frame_step := (frame_step decode_registry_message allocate max_message_size now).
Abbreviation run_frames := (run_frames decode_registry_message allocate max_message_size now).

Lemma reserve_payload_other id k bl meta s :
  stream_meta_len k <> None -> field meta 0 4 <> id ->
  let '(res, s') := reserve_v5_stream_payload k bl meta now s in
  same_at id s s' /\ forall r, res = Ok (Some r) -> rv_stream_id r = field meta 0 4.
Proof.
  intros Hk Hid. unfold reserve_v5_stream_payload. destruct (stream_meta_len k) as [ml|] eqn:Ek; [|done].
  destruct (bl <? ml); [done|].
  assert (forall i n s res s', reserve_v5_chunk (field meta 0 4) i n s = (res, s') ->
            forall r, res = Ok r -> rv_stream_id r = field meta 0 4) as Hrv.
  { intros i n s0 res s'. unfold reserve_v5_chunk. repeat case_match; intros [= <- <-] r; try done.
    now intros [= <-]. }
  assert (forall h c b, sh_stream_id h = field meta 0 4 ->
    let '(res, s') := begin_v5_stream_or_discard h c b (bl - ml) now s in
    same_at id s s' /\ forall r, res = Ok (Some r) -> rv_stream_id r = field meta 0 4) as Hb.
  { intros h c b E. pose proof (begin_other id _ Hid h c b (bl - ml) now s E) as H.
    destruct (begin_v5_stream_or_discard _ _ _ _ _ _) as [res s'] eqn:Eb. split; [exact H|].
    intros r ->. revert Eb. unfold begin_v5_stream_or_discard.
    destruct (begin_v5_stream _ _ _ _ _ _) as [[r'|e|] s1] eqn:E1; try done; cycle 1.
    { repeat (case_match; try done). }
    intros [= -> ->]. revert E1. unfold begin_v5_stream. rewrite E.
    repeat (case_match; try done); intros; eapply Hrv; eauto. }
  assert (let '(res, s') := reserve_v5_chunk_or_discard (field meta 0 4) (field meta 4 8) (bl - ml) s in
    same_at id s s' /\ forall r, res = Ok (Some r) -> rv_stream_id r = field meta 0 4) as Hd.
  { unfold reserve_v5_chunk_or_discard. destruct (rejected_streams s !! field meta 0 4) as [t|].
    - pose proof (absorb_other id _ Hid (field meta 4 8) t s) as H.
      destruct (absorb_chunk _ _ _ _) as [[]]; (split; [exact H|done]).
    - pose proof (reserve_other id _ Hid (field meta 4 8) (bl - ml) s) as H.
      destruct (reserve_v5_chunk _ _ _ _) as [[r|e|] s'] eqn:E1; (split; [exact H|try done]).
      intros r' [= <-]. eapply Hrv; eauto. }
  destruct k; try done; now apply Hb.
Qed.

Lemma frame_step_other id f s t r s' t' :
  frame_stream f <> Some id -> frame_step f s t = (r, (s', t')) -> same_at id s s'.
Proof.
  destruct f as [k body]. unfold frame_stream. cbn [fst snd]. intros Hid. unfold frame_step.
  destruct (max_message_size <? len body); [now intros [= _ <- _]|].
  destruct (stream_meta_len k) as [ml|] eqn:Hk.
  2: { destruct (parse_message_from_pooled_buffer_with_routes _ _ _ _). now intros [= _ <- _]. }
  destruct (len body <? ml); [now intros [= _ <- _]|]. unfold stream_frame.
  assert (8 <= ml) as Hml by (destruct k; try done; injection Hk as <-; vm_compute; done).
  set (meta := take _ _). set (payload := drop _ _).
  assert (field meta 0 4 = field body 0 4) as Ef by (apply field_take; lia).
  change (Some (field body 0 4) <> Some id) in Hid.
  assert (field meta 0 4 <> id) as Hne by congruence.
  pose proof (reserve_payload_other id k (len meta + len payload) meta s) as Hr.
  rewrite Hk in Hr. specialize (Hr ltac:(done) Hne).
  destruct (reserve_v5_stream_payload k _ meta now s) as [[[rv|]|e|] s1]; destruct Hr as [Hs1 Hrv];
    try (now intros [= _ <- _]).
  specialize (Hrv rv eq_refl). set (s2 := record_v5_chunk_progress _ _ _ _).
  assert (same_at id s1 s2) as Hs2.
  { unfold s2, record_v5_chunk_progress, fill_target. rewrite Hrv.
    etransitivity; apply alter_other; done. }
  pose proof (commit_other id _ Hne rv now s2 Hrv) as Hs3.
  destruct (commit_v5_chunk rv now s2) as [[[c|]|e|] s3]; intros [= _ <- _]; cbn in Hs3;
    (etransitivity; [exact Hs1|]; etransitivity; eauto).
Qed.

(** ** One stream's frames *)

(** The message as its sender cuts it: [k] bytes a chunk. *)
Record Outgoing := mkOutgoing {
  og_stream_id : Z;
  og_correlation_id : Z;
  og_actor_id : Z;
  og_type_hash : Z;
  og_is_response : bool;
  og_message : list Z;
  og_stride : Z;
}.

Definition chunk_count (o : Outgoing) : Z := div_ceil (len (og_message o)) (og_stride o).

Definition chunk (o : Outgoing) (i : Z) : list Z :=
  chunk_of (og_message o) (len (og_message o)) (og_stride o) i.

Definition start_frame (o : Outgoing) : WireKind * list Z :=
  let total := len (og_message o) in
  if og_is_response o
  then (KStreamResponseStart,
        header_fields (OutStreamResponseStart (og_stream_id o) (og_correlation_id o) total)
        ++ chunk o 0)
  else (KStreamStart,
        header_fields (OutStreamStart (og_stream_id o) (og_correlation_id o) total
                         (og_actor_id o) (og_type_hash o)) ++ chunk o 0).

Definition data_frame (o : Outgoing) (i : Z) : WireKind * list Z :=
  (if og_is_response o then KStreamResponseData else KStreamData,
   header_fields (OutStreamData (og_is_response o) (og_stream_id o) i) ++ chunk o i).

(** The fields have their width, the message is cut in at least one chunk, and
    every frame is within the receiver's message limit. *)
Record outgoing_ok (o : Outgoing) : Prop := {
  og_id : u32 (og_stream_id o);
  og_corr : u32 (og_correlation_id o);
  og_actor : u64 (og_actor_id o);
  og_type : u32 (og_type_hash o);
  og_cut : 0 < og_stride o <= len (og_message o);
  og_size : len (og_message o) <= MAX_STREAM_SIZE;
  og_fits : og_stride o + 24 <= max_message_size;
}.

(** The receiver has accepted the stream and received the chunks [got]. *)
Record receiving (o : Outgoing) (got : list Z) (st : InProgressStream) : Prop := {
  rc_stride : is_chunk_stride st = Some (og_stride o);
  rc_carries : carries (og_message o) st;
  rc_bits i : 0 <= i < chunk_count o -> bit (is_received_chunks st) i = bool_decide (i ∈ got);
  rc_actor : is_actor_id st = (if og_is_response o then 0 else og_actor_id o);
  rc_type : is_type_hash st = (if og_is_response o then 0 else og_type_hash o);
  rc_corr : is_correlation_id st = og_correlation_id o;
  rc_response : is_is_response st = og_is_response o;
}.

Definition completed (o : Outgoing) : CompletedV5Stream :=
  mkCompleted (if og_is_response o then 0 else og_actor_id o)
    (if og_is_response o then 0 else og_type_hash o) (og_correlation_id o) (og_is_response o)
    (og_message o).

Definition all_in (o : Outgoing) (got : list Z) : Prop := forall j, 0 <= j < chunk_count o -> j ∈ got.

Lemma chunk_len o i :
  0 < og_stride o -> 0 <= i < chunk_count o ->
  len (chunk o i) = chunk_len_at (len (og_message o)) (og_stride o) i
  /\ 0 < len (chunk o i) <= og_stride o.
Proof.
  intros Hk Hi. pose proof (len_nonneg (og_message o)) as Hm.
  pose proof (chunk_len_pos _ _ Hm Hk i Hi) as Hp.
  assert (len (chunk o i) = chunk_len_at (len (og_message o)) (og_stride o) i) as E; [|lia].
  assert (i * og_stride o < len (og_message o)) by (apply div_ceil_lt_iff; unfold chunk_count in Hi; lia).
  unfold chunk, chunk_of, slice, len in *. rewrite length_take, length_drop.
  unfold chunk_len_at in *. nia.
Qed.

Lemma chunk_lookup o i j :
  0 <= i -> 0 < og_stride o ->
  i * og_stride o <= j < i * og_stride o + chunk_len_at (len (og_message o)) (og_stride o) i ->
  chunk o i !! (Z.to_nat j - Z.to_nat (i * og_stride o))%nat = og_message o !! Z.to_nat j.
Proof.
  intros Hi Hk Hj. unfold chunk, chunk_of, slice. rewrite lookup_take_lt by nia.
  rewrite lookup_drop. f_equal. nia.
Qed.

(** The bytes of chunk [i] in place, and the stream after it. *)
Definition with_chunk (o : Outgoing) (i : Z) (st : InProgressStream) : InProgressStream :=
  received i (is_received_size st + len (chunk o i)) now
    (saturating_add usize_max (is_total_bytes_progressed st) (len (chunk o i)))
    (copy_from_slice (is_buffer st) (Z.to_nat (i * og_stride o)) (chunk o i)) st.

Lemma with_chunk_ok o got i st :
  0 < og_stride o -> stream_ok st -> receiving o got st -> 0 <= i < chunk_count o -> i ∉ got ->
  stream_ok (with_chunk o i st) /\ receiving o (i :: got) (with_chunk o i st).
Proof.
  intros Hk Hok Hrc Hi Hn. pose proof Hrc as [Hs Hc Hb H1 H2 H3 H4].
  destruct Hc as [Hm Hc]. destruct (chunk_len o i Hk Hi) as [Hl Hpos].
  assert (0 <= i < div_ceil (is_total_size st) (og_stride o)) as Hi' by (rewrite <- Hm; exact Hi).
  assert (bit (is_received_chunks st) i = false) as Hbit
    by (rewrite Hb by done; now apply bool_decide_eq_false_2).
  destruct (chunk_range_in st _ i Hok Hs Hi') as [Hr0 Hr1]. rewrite <- Hm, <- Hl in Hr1.
  destruct (StreamInv.settled st _ Hok Hs) as (_ & _ & Hsz & _).
  assert (Z.to_nat (i * og_stride o) + length (chunk o i) <= length (is_buffer st))%nat as Hfit
    by (pose proof (so_buffer _ Hok); unfold len in *; lia).
  assert (len (copy_from_slice (is_buffer st) (Z.to_nat (i * og_stride o)) (chunk o i)) = is_total_size st) as Hbuf
    by (rewrite <- (so_buffer _ Hok); unfold len; now rewrite length_copy_from_slice).
  split.
  - unfold with_chunk. rewrite Hl, Hm. now apply received_ok.
  - split; try done.
    + unfold with_chunk. eapply received_carries; eauto; [now split|..].
      * intros j Hj Hne. rewrite lookup_copy_from_slice by done. rewrite decide_False; [done|].
        intros Hin. apply Hne. rewrite Hl in *. unfold len in Hl, Hpos. symmetry. apply Z.div_unique with (j - i * og_stride o); lia.
      * intros j Hj. rewrite <- Hm in Hj. rewrite lookup_copy_from_slice by done.
        rewrite decide_True by (unfold len in *; lia). apply chunk_lookup; lia.
    + intros j Hj. cbn. rewrite (bit_set _ _ i j Hsz) by (rewrite <- ?Hm; auto; lia). rewrite Hb by done.
      destruct (Z.eqb_spec i j) as [->|E]; [rewrite orb_true_r; symmetry; apply bool_decide_eq_true_2; left|].
      rewrite orb_false_r. apply bool_decide_ext. rewrite elem_of_cons. intuition congruence.
Qed.

(** What a chunk of the stream does once reserved. *)
Definition lands (o : Outgoing) (got : list Z) (i : Z) (s : StreamingState)
    (out : Result (option CompletedV5Stream) * StreamingState) : Prop :=
  table_ok out.2 /\ rejected_streams out.2 = rejected_streams s
  /\ ((all_in o (i :: got) /\ out.1 = Ok (Some (completed o))
       /\ active_streams out.2 !! og_stream_id o = None)
      \/ (~ all_in o (i :: got) /\ out.1 = Ok None
          /\ exists st', active_streams out.2 !! og_stream_id o = Some st'
             /\ receiving o (i :: got) st')).

Lemma chunk_lands o got i s st :
  0 < og_stride o -> table_ok s -> active_streams s !! og_stream_id o = Some st ->
  receiving o got st -> 0 <= i < chunk_count o -> i ∉ got ->
  let r := mkReservation (og_stream_id o) i (i * og_stride o) (len (chunk o i)) in
  lands o got i s (commit_v5_chunk r now
    (record_v5_chunk_progress r (len (chunk o i)) now (fill_target r (i * og_stride o) (chunk o i) s))).
Proof.
  intros Hk Hs E Hrc Hi Hn r. pose proof (ta_streams _ Hs _ _ E) as [Hok Hid].
  destruct (with_chunk_ok o got i st Hk Hok Hrc Hi Hn) as [Hok' Hrc'].
  set (s1 := record_v5_chunk_progress _ _ _ _). set (st2 := with_chunk o i st) in *.
  pose proof Hrc as [Hst [Hm _] Hb _ _ _ _].
  destruct (StreamInv.settled st _ Hok Hst) as (_ & He & Hsz & _).
  assert (exists st1, active_streams s1 !! og_stream_id o = Some st1
    /\ chunk_bit (is_received_chunks st1) i = Some false
    /\ set_progress (is_received_size st1 + rv_len r) now (is_total_bytes_progressed st1)
         (set_received_chunks (set_chunk_bit (is_received_chunks st1) i) st1) = st2)
    as (st1 & E1 & Hbit & Est).
  { eexists. unfold s1. cbn. rewrite !lookup_alter, !decide_True, E by done. split; [done|]. cbn.
    split; [|done]. rewrite (chunk_bit_sized _ _ i Hsz) by (rewrite <- Hm; exact Hi).
    rewrite Hb by done. now rewrite bool_decide_eq_false_2. }
  unfold commit_v5_chunk. cbn [rv_stream_id rv_chunk_index r]. rewrite E1, Hbit, Est.
  assert (set_active <[og_stream_id o := st2]> s1 = set_active <[og_stream_id o := st2]> s) as ->.
  { unfold s1, record_v5_chunk_progress, fill_target, set_active. cbn. f_equal.
    apply map_eq. intros j. rewrite !lookup_insert, !lookup_alter. repeat case_decide; done. }
  assert (table_ok (set_active <[og_stream_id o := st2]> s)) as Hs2
    by (eapply replace_stream_ok; eauto).
  destruct (all_bits_set_spec (is_received_chunks st2) (chunk_count o)) as (b & Eb & Hbs).
  { apply div_ceil_nonneg; [apply len_nonneg|done]. }
  { cbn. apply set_chunk_bit_sized. unfold chunk_count. now rewrite Hm. }
  assert (all_chunks_received st2 = Ok b) as Hall.
  { unfold all_chunks_received. change (is_expected_chunks st2) with (is_expected_chunks st).
    rewrite He. unfold chunk_count in Eb. cbn -[is_received_chunks]. rewrite <- Hm, Eb. done. }
  assert (b = true <-> all_in o (i :: got)) as Hfull.
  { rewrite Hbs. unfold full, all_in. split; intros H j Hj; specialize (H j Hj);
      rewrite (rc_bits _ _ _ Hrc') in * by done; [now apply bool_decide_eq_true in H|now apply bool_decide_eq_true_2]. }
  unfold lands. rewrite Hall. destruct b; cbn [fst snd].
  - split_and!; [now apply delete_stream_ok|done|]. left. split_and!; [now apply Hfull| |cbn; apply lookup_delete_eq].
    destruct Hrc' as [_ Hc' _ -> -> -> ->]. rewrite (complete_carries _ _ Hok' Hc' Hall). done.
  - split_and!; [done|done|]. right. split_and!; [rewrite <- Hfull; done|done|].
    exists st2. split; [cbn; apply lookup_insert_eq|done].
Qed.

Lemma u32_width x : u32 x -> 0 <= x < 256 ^ Z.of_nat 4.
Proof. unfold u32, u32_max. change (256 ^ Z.of_nat 4) with (2 ^ 32). lia. Qed.

Lemma u64_width x : u64 x -> 0 <= x < 256 ^ Z.of_nat 8.
Proof. unfold u64, u64_max. change (256 ^ Z.of_nat 8) with (2 ^ 64). lia. Qed.

Lemma data_frame_meta o i :
  outgoing_ok o -> 0 <= i < chunk_count o ->
  u32 i /\ forall l, field (to_be_bytes 4 (og_stream_id o) ++ to_be_bytes 4 i ++ l) 0 4 = og_stream_id o
  /\ field (to_be_bytes 4 (og_stream_id o) ++ to_be_bytes 4 i ++ l) 4 8 = i.
Proof.
  intros [Hid _ _ _ Hcut Hsz _] Hi.
  assert (u32 i) as Hu.
  { unfold u32. assert (i * og_stride o < len (og_message o))
      by (apply div_ceil_lt_iff; unfold chunk_count in Hi; lia).
    unfold MAX_STREAM_SIZE, u32_max in *. nia. }
  split; [done|]. intros l. split; [now apply (field_to_be 4), u32_width|].
  apply (field_to_be_at 4 i (to_be_bytes 4 (og_stream_id o)) l 4 8); auto using u32_width.
Qed.

(** A chunk's frame. *)
Lemma data_lands o got i s st :
  outgoing_ok o -> table_ok s -> active_streams s !! og_stream_id o = Some st ->
  rejected_streams s !! og_stream_id o = None ->
  receiving o got st -> 0 <= i < chunk_count o -> i ∉ got ->
  lands o got i s (stream_frame now (data_frame o i).1
    (header_fields (OutStreamData (og_is_response o) (og_stream_id o) i)) (chunk o i) s).
Proof.
  intros Ho Hs E Hrj Hrc Hi Hn. pose proof (og_cut _ Ho) as Hk.
  destruct (data_frame_meta o i Ho Hi) as [Hu Hf]. destruct (Hf []) as [Hf1 Hf2].
  rewrite app_nil_r in Hf1, Hf2.
  destruct (chunk_len o i ltac:(lia) Hi) as [Hl Hpos].
  unfold stream_frame, reserve_v5_stream_payload, data_frame. cbn [fst header_fields].
  set (meta := to_be_bytes 4 (og_stream_id o) ++ to_be_bytes 4 i) in *.
  assert (len meta = 8) as Hm by reflexivity. rewrite Hm.
  assert (stream_meta_len (if og_is_response o then KStreamResponseData else KStreamData) = Some 8) as ->
    by now destruct (og_is_response o).
  rewrite (proj2 (Z.ltb_ge (8 + len (chunk o i)) 8)) by lia.
  replace (8 + len (chunk o i) - 8) with (len (chunk o i)) by lia. rewrite Hf1, Hf2.
  destruct (reserve_cases (og_stream_id o) i (len (chunk o i)) s st Hs E) as (k & Hk1 & _ & _ & Hk2 & Hc); [lia..|].
  assert (with_stride (len (chunk o i)) st = st) as Hws
    by (unfold with_stride; now rewrite (rc_stride _ _ _ Hrc)).
  rewrite Hws in *. assert (k = og_stride o) as -> by (pose proof (rc_stride _ _ _ Hrc); congruence).
  pose proof (rc_carries _ _ _ Hrc) as [Hmt _]. rewrite <- Hmt, <- Hl, Z.eqb_refl in Hc.
  rewrite bool_decide_eq_true_2 in Hc by apply Hi.
  rewrite (rc_bits _ _ _ Hrc) in Hc by done. rewrite bool_decide_eq_false_2 in Hc by done. cbn [andb negb] in Hc.
  assert (set_active <[og_stream_id o := st]> s = s) as Hid.
  { unfold set_active. destruct s; cbn in *. now rewrite insert_id. }
  rewrite Hid in Hc. unfold reserve_v5_chunk_or_discard. rewrite Hrj, Hc.
  pose proof (chunk_lands o got i s st ltac:(lia) Hs E Hrc Hi Hn) as Hland. cbv zeta in Hland.
  destruct (og_is_response o); exact Hland.
Qed.

(** ** Admission *)
Definition has_room (o : Outgoing) (s : StreamingState) : Prop :=
  map_len (active_streams s) < max_concurrent_streams s
  /\ inflight_bytes (active_streams s) + len (og_message o) <= MAX_INFLIGHT_STREAM_BYTES.

Definition start_header (o : Outgoing) : StreamHeader :=
  mkStreamHeader (og_stream_id o) (len (og_message o)) (Z.land (len (chunk o 0)) u32_max) 0
    (if og_is_response o then 0 else og_type_hash o) (if og_is_response o then 0 else og_actor_id o).

Definition accepted (o : Outgoing) : InProgressStream :=
  with_stride (og_stride o)
    (new_stream (start_header o) (og_correlation_id o) None (og_is_response o) now).

Lemma first_chunk o : outgoing_ok o -> 0 < chunk_count o /\ len (chunk o 0) = og_stride o.
Proof.
  intros [_ _ _ _ Hcut _ _].
  assert (0 < chunk_count o) as Hc by (apply div_ceil_lt_iff; lia).
  split; [done|]. destruct (chunk_len o 0) as [-> _]; [lia..|]. unfold chunk_len_at. lia.
Qed.

Lemma accepted_receiving o :
  outgoing_ok o -> receiving o [] (accepted o) /\ stream_ok (accepted o).
Proof.
  intros Ho. pose proof Ho as [_ _ _ _ Hcut Hsz _]. split.
  - split; try done; cbn.
    + split; [done|]. cbn. intros k _ j _. now rewrite bit_zero_words.
    + intros i _. rewrite bit_zero_words. symmetry. apply bool_decide_eq_false_2. set_solver.
  - apply with_stride_ok; [lia|]. apply new_stream_ok. cbn. lia.
Qed.

Lemma start_accepts o s :
  outgoing_ok o -> active_streams s !! og_stream_id o = None -> has_room o s ->
  start_stream_with_correlation_and_kind (start_header o) (og_correlation_id o) None
    (og_is_response o) now s
  = (Ok tt, set_active <[og_stream_id o := new_stream (start_header o) (og_correlation_id o) None
              (og_is_response o) now]> s).
Proof.
  intros [_ _ _ _ Hcut Hsz _] E [Hr1 Hr2]. unfold start_stream_with_correlation_and_kind.
  cbn [start_header sh_stream_id sh_total_size].
  rewrite bool_decide_eq_false_2 by (rewrite E; now intros []).
  rewrite (proj2 (Z.ltb_ge MAX_STREAM_SIZE _)) by lia.
  rewrite (proj2 (Z.leb_gt _ _)) by lia.
  rewrite saturating_add_exact by (unfold MAX_INFLIGHT_STREAM_BYTES, MAX_STREAM_SIZE, usize_max, u64_max in *; lia).
  rewrite (proj2 (Z.ltb_ge MAX_INFLIGHT_STREAM_BYTES _)) by lia. done.
Qed.

Lemma begin_accepts o s :
  outgoing_ok o -> table_ok s -> active_streams s !! og_stream_id o = None -> has_room o s ->
  let s' := set_active <[og_stream_id o := accepted o]> (remove_tombstone (og_stream_id o) s) in
  begin_v5_stream_or_discard (start_header o) (og_correlation_id o) (og_is_response o) (og_stride o) now s
  = (Ok (Some (mkReservation (og_stream_id o) 0 0 (og_stride o))), s') /\ table_ok s'.
Proof.
  intros Ho Hs E Hroom. pose proof Ho as [_ _ _ _ Hcut Hsz _].
  pose proof (remove_tombstone_ok (og_stream_id o) s Hs) as Hs0.
  unfold begin_v5_stream_or_discard, begin_v5_stream.
  change (sh_stream_id (start_header o)) with (og_stream_id o).
  change (sh_total_size (start_header o)) with (len (og_message o)).
  set (s0 := remove_tombstone (og_stream_id o) s) in *. cbv zeta.
  assert (active_streams s0 = active_streams s) as Ea by apply active_remove_tombstone.
  assert (max_concurrent_streams s0 = max_concurrent_streams s) as Em
    by (unfold s0, remove_tombstone; now destruct (rejected_streams s !! _)).
  rewrite (proj2 (Z.eqb_neq (og_stride o) 0)), (proj2 (Z.ltb_ge _ (og_stride o))) by lia.
  pose proof (start_stream_ok (start_header o) (og_correlation_id o) None (og_is_response o) now s0 Hs0
    (len_nonneg _)) as Hst.
  rewrite start_accepts in * by (unfold has_room; rewrite ?Ea, ?Em; done).
  destruct Hst as (Hs1 & _). set (st := new_stream _ _ _ _ _) in *.
  set (s1 := set_active _ s0) in *.
  assert (active_streams s1 !! og_stream_id o = Some st) as E1 by (cbn; apply lookup_insert_eq).
  destruct (reserve_cases (og_stream_id o) 0 (og_stride o) s1 st Hs1 E1) as (k & Hk & H0 & _ & [?|[_ ->]] & Hc);
    [lia..|done|].
  destruct (first_chunk o Ho) as [Hcnt Hlen].
  rewrite bool_decide_eq_true_2 in Hc by exact Hcnt.
  assert ((og_stride o =? chunk_len_at (is_total_size st) (og_stride o) 0) = true) as Hl0
    by (apply Z.eqb_eq; unfold chunk_len_at; cbn; lia).
  assert (bit (is_received_chunks (with_stride (og_stride o) st)) 0 = false) as Hb by apply bit_zero_words.
  rewrite Hl0, Hb in Hc. cbn [andb negb] in Hc. rewrite Hc.
  assert (set_active <[og_stream_id o := accepted o]> s1 = set_active <[og_stream_id o := accepted o]> s0) as Hss
    by (unfold s1, set_active; cbn; now rewrite insert_insert_eq).
  fold (accepted o). split; [now rewrite <- Hss|]. rewrite <- Hss.
  eapply replace_stream_ok; eauto; try done. apply (accepted_receiving o Ho).
Qed.

(** The opening frame. *)
Definition start_meta (o : Outgoing) : list Z :=
  if og_is_response o
  then header_fields (OutStreamResponseStart (og_stream_id o) (og_correlation_id o) (len (og_message o)))
  else header_fields (OutStreamStart (og_stream_id o) (og_correlation_id o) (len (og_message o))
                        (og_actor_id o) (og_type_hash o)).

Lemma start_frame_split o :
  start_frame o = (if og_is_response o then KStreamResponseStart else KStreamStart, start_meta o ++ chunk o 0)
  /\ stream_meta_len (start_frame o).1 = Some (len (start_meta o)).
Proof. unfold start_frame, start_meta. now destruct (og_is_response o). Qed.

Lemma start_reserves o s :
  outgoing_ok o ->
  reserve_v5_stream_payload (start_frame o).1 (len (start_meta o) + og_stride o) (start_meta o) now s
  = begin_v5_stream_or_discard (start_header o) (og_correlation_id o) (og_is_response o) (og_stride o) now s.
Proof.
  intros Ho. destruct (first_chunk o Ho) as [_ Hl]. destruct Ho as [H1 H2 H3 H4 H5 H6 H7].
  assert (u32 (len (og_message o))) as Hlen
    by (unfold u32, u32_max, MAX_STREAM_SIZE in *; pose proof (len_nonneg (og_message o)); lia).
  destruct (start_frame_split o) as [_ Hm]. unfold reserve_v5_stream_payload. rewrite Hm.
  rewrite (proj2 (Z.ltb_ge (len (start_meta o) + og_stride o) _)) by lia.
  replace (len (start_meta o) + og_stride o - len (start_meta o)) with (og_stride o) by lia.
  unfold start_frame, start_header, start_meta. rewrite Hl.
  destruct (og_is_response o); cbn [fst header_fields];
    read_u32 0%nat 4%nat (og_stream_id o); read_u32 4%nat 8%nat (og_correlation_id o);
    read_u32 8%nat 12%nat (len (og_message o)); [done|].
  read_u32 20%nat 24%nat (og_type_hash o); read_u64 12%nat 20%nat (og_actor_id o). done.
Qed.

Lemma start_lands o s :
  outgoing_ok o -> table_ok s -> active_streams s !! og_stream_id o = None -> has_room o s ->
  lands o [] 0 (remove_tombstone (og_stream_id o) s)
    (stream_frame now (start_frame o).1 (start_meta o) (chunk o 0) s).
Proof.
  intros Ho Hs E Hroom. destruct (first_chunk o Ho) as [Hc Hl].
  destruct (begin_accepts o s Ho Hs E Hroom) as [Hb Hs']. set (s' := set_active _ _) in *.
  pose proof (chunk_lands o [] 0 s' (accepted o)) as Hland.
  assert (0 < og_stride o) as Hk by (pose proof (og_cut _ Ho); lia).
  assert (active_streams s' !! og_stream_id o = Some (accepted o)) as E' by (cbn; apply lookup_insert_eq).
  specialize (Hland Hk Hs' E' (proj1 (accepted_receiving o Ho)) ltac:(lia) ltac:(set_solver)).
  cbv zeta in Hland. rewrite Hl in Hland. change (0 * og_stride o) with 0 in Hland.
  unfold stream_frame. rewrite Hl, start_reserves, Hb by done. exact Hland.
Qed.

(** ** Frames *)
Lemma stream_frame_step k meta payload s t :
  stream_meta_len k = Some (len meta) -> len meta + len payload <= max_message_size ->
  frame_step (k, meta ++ payload) s t
  = match stream_frame now k meta payload s with
    | (Ok None, s) => (Progressed None, (s, t))
    | (Ok (Some c), s) => (of_result (Some <$> completed_v5_stream_result allocate c), (s, t))
    | (Err e, s) => (fail e, (s, t))
    | (Panic, s) => (Panicked, (s, t))
    end.
Proof.
  intros Hk Hmax. unfold frame_step. rewrite len_app, Hk. pose proof (len_nonneg payload).
  rewrite (proj2 (Z.ltb_ge max_message_size _)), (proj2 (Z.ltb_ge (len meta + len payload) (len meta))) by lia.
  unfold len at 1 2. rewrite Nat2Z.id, take_app_length, drop_app_length. done.
Qed.

(** What the application sees of the message. *)
Definition delivers (o : Outgoing) (msg : MessageReadResult (RegistryMessage := RegistryMessage)) : Prop :=
  exists payload, view payload = og_message o
    /\ msg = if og_is_response o then Response (og_correlation_id o) payload
             else Actor (if og_correlation_id o =? 0 then MActorTell else MActorAsk)
                    (og_correlation_id o) (og_actor_id o) (og_type_hash o) None payload.

Lemma completed_delivers o :
  len (og_message o) <= MAX_STREAM_SIZE ->
  exists msg, completed_v5_stream_result allocate (completed o) = Ok msg /\ delivers o msg.
Proof.
  intros H. unfold completed_v5_stream_result, from_pooled_buffer. pose proof (len_nonneg (og_message o)).
  cbn [completed cs_payload cs_actor_id cs_type_hash cs_is_response cs_correlation_id].
  rewrite from_pooled_buffer_range_Ok; cbn [data base]; auto;
    [|lia|unfold MAX_STREAM_SIZE, usize_max, u64_max in *; lia].
  eexists. split; [reflexivity|]. eexists. split.
  2: { destruct (og_is_response o); reflexivity. }
  unfold view, slice. cbn [buffer data offset view_len]. apply take_ge. unfold len. lia.
Qed.

(** The frames after the first, up to some point: chunks [js] of the stream, in
    any order, between frames of other streams and of no stream. *)
Inductive traffic (o : Outgoing) : list Z -> list (WireKind * list Z) -> Prop :=
  | traffic_nil : traffic o [] []
  | traffic_other f js fs :
      frame_stream f <> Some (og_stream_id o) -> wire_frame f -> traffic o js fs -> traffic o js (f :: fs)
  | traffic_chunk i js fs : traffic o js fs -> traffic o (i :: js) (data_frame o i :: fs).

Record awaiting (o : Outgoing) (got : list Z) (s : StreamingState) : Prop := {
  aw_table : table_ok s;
  aw_rejected : rejected_streams s !! og_stream_id o = None;
  aw_stream : exists st, active_streams s !! og_stream_id o = Some st /\ receiving o got st;
}.

Lemma receiving_ext o got got' st :
  (forall i, i ∈ got <-> i ∈ got') -> receiving o got st -> receiving o got' st.
Proof.
  intros H [H1 H2 H3 H4 H5 H6 H7]. split; auto. intros i Hi. rewrite H3 by done.
  apply bool_decide_ext. auto.
Qed.

Lemma data_step o got i s t :
  outgoing_ok o -> awaiting o got s -> 0 <= i < chunk_count o -> i ∉ got ->
  (all_in o (i :: got) /\ exists msg s', frame_step (data_frame o i) s t = (Progressed (Some msg), (s', t))
     /\ delivers o msg /\ table_ok s' /\ active_streams s' !! og_stream_id o = None)
  \/ (~ all_in o (i :: got) /\ exists s', frame_step (data_frame o i) s t = (Progressed None, (s', t))
     /\ awaiting o (i :: got) s').
Proof.
  intros Ho [Hs Hrj (st & E & Hrc)] Hi Hn. pose proof (og_fits _ Ho) as Hfit.
  pose proof (og_cut _ Ho) as Hcut. destruct (chunk_len o i ltac:(lia) Hi) as [_ Hl].
  pose proof (data_lands o got i s st Ho Hs E Hrj Hrc Hi Hn) as Hland.
  unfold data_frame. rewrite stream_frame_step; [|now destruct (og_is_response o)|cbn [header_fields]; change (len (_ ++ _)) with 8; lia].
  cbn [data_frame fst] in Hland. destruct (stream_frame _ _ _ _ _) as [res s'].
  destruct Hland as (H1 & H2 & [(H3 & H4 & H5)|(H3 & H4 & H5)]); cbn [fst snd] in *; subst res.
  - left. split; [done|]. destruct (completed_delivers o (og_size _ Ho)) as (msg & -> & Hd). eauto 6.
  - right. split; [done|]. exists s'. split; [done|]. split; auto. congruence.
Qed.

Lemma start_step o s t :
  outgoing_ok o -> table_ok s -> active_streams s !! og_stream_id o = None -> has_room o s ->
  ~ all_in o [0] -> exists s', frame_step (start_frame o) s t = (Progressed None, (s', t)) /\ awaiting o [0] s'.
Proof.
  intros Ho Hs E Hroom Hmore. pose proof (start_lands o s Ho Hs E Hroom) as Hland.
  destruct (start_frame_split o) as [Hf Hm]. destruct (first_chunk o Ho) as [_ Hl]. rewrite Hf in *.
  cbn [fst] in *. rewrite stream_frame_step.
  - destruct (stream_frame _ _ _ _ _) as [res s'].
    destruct Hland as (H1 & H2 & [(H3 & H4 & H5)|(H3 & H4 & H5)]); cbn [fst snd] in *; [done|]. subst res.
    exists s'. split; [done|]. split; auto. rewrite H2, remove_tombstone_lookup. now rewrite decide_True.
  - exact Hm.
  - pose proof (stream_meta_len_pos _ _ Hm). pose proof (og_fits _ Ho). lia.
Qed.

Lemma awaiting_same o got s s' :
  table_ok s' -> same_at (og_stream_id o) s s' -> awaiting o got s -> awaiting o got s'.
Proof. intros Ht [H1 H2] [_ H3 H4]. split; rewrite ?H1, ?H2; auto. Qed.

(** The stream survives the traffic, which adds its chunks. *)
Lemma traffic_awaiting o js fs : forall got s t ms s1 t1,
  outgoing_ok o -> traffic o js fs -> awaiting o got s ->
  NoDup (js ++ got) -> (forall i, i ∈ js -> 0 <= i < chunk_count o) -> ~ all_in o (js ++ got) ->
  run_frames fs s t = (ms, Some (s1, t1)) ->
  exists got', awaiting o got' s1 /\ forall i, i ∈ got' <-> i ∈ js ++ got.
Proof.
  intros got s t ms s1 t1 Ho Htr. revert got s t ms.
  induction Htr as [|f js fs Hf Hw Htr IH|i js fs Htr IH]; intros got s t ms Haw Hnd Hrange Hmore Hrun.
  - injection Hrun as _ <- <-. eauto.
  - cbn [run_frames] in Hrun. destruct (frame_step f s t) as [[m| | |] [s2 t2]] eqn:E; try done.
    destruct (run_frames fs s2 t2) as [ms2 out] eqn:E2. injection Hrun as _ ->.
    eapply (IH got s2 t2); eauto. apply (awaiting_same _ _ s); [| |done].
    + eapply frame_step_ok; [apply Haw| |exact E]. apply Hw.
    + eapply frame_step_other; eauto.
  - cbn [run_frames] in Hrun.
    apply list.NoDup_cons in Hnd as [Hi Hnd]. rewrite elem_of_app in Hi.
    destruct (data_step o got i s t Ho Haw) as [(Hall & _)|(_ & s2 & E & Haw2)];
      [apply Hrange; left|tauto| |].
    + destruct Hmore. intros j Hj. specialize (Hall j Hj). mem.
    + rewrite E in Hrun. destruct (run_frames fs s2 t) as [ms2 out] eqn:E2. injection Hrun as _ ->.
      destruct (IH (i :: got) s2 t ms2) as (got' & Hg & Hin); auto.
      * apply list.NoDup_app in Hnd as (N1 & N2 & N3). apply list.NoDup_app.
        split_and!; auto; [|apply list.NoDup_cons; split; [tauto|done]].
        intros x Hx. specialize (N2 x Hx). rewrite elem_of_cons. intros [->|?]; tauto.
      * intros j Hj. apply Hrange. now right.
      * intros Hall. apply Hmore. intros j Hj. specialize (Hall j Hj). mem.
      * exists got'. split; [done|]. intros j. rewrite Hin. mem.
Qed.

Lemma run_frames_app fs1 fs2 : forall s t ms s1 t1,
  run_frames fs1 s t = (ms, Some (s1, t1)) ->
  run_frames (fs1 ++ fs2) s t = let '(ms2, out) := run_frames fs2 s1 t1 in (ms ++ ms2, out).
Proof.
  induction fs1 as [|f fs1 IH]; intros s t ms s1 t1 H; cbn [app run_frames] in *.
  - injection H as <- <- <-. now destruct (run_frames fs2 s t).
  - destruct (frame_step f s t) as [[m| | |] [s2 t2]]; try done.
    destruct (run_frames fs1 s2 t2) as [ms' out] eqn:E. injection H as <- ->.
    rewrite (IH _ _ _ _ _ E). destruct (run_frames fs2 s1 t1). now rewrite app_assoc.
Qed.

Lemma stream_completes o s t js fs last ms s1 t1 :
  outgoing_ok o -> table_ok s -> active_streams s !! og_stream_id o = None -> has_room o s ->
  traffic o js fs -> 0 :: js ++ [last] ≡ₚ seqZ 0 (chunk_count o) ->
  run_frames (start_frame o :: fs) s t = (ms, Some (s1, t1)) ->
  is_Some (active_streams s1 !! og_stream_id o)
  /\ exists msg s2, run_frames (start_frame o :: fs ++ [data_frame o last]) s t = (ms ++ [msg], Some (s2, t1))
     /\ delivers o msg /\ active_streams s2 !! og_stream_id o = None.
Proof.
  intros Ho Hs E Hroom Htr Hperm Hrun.
  assert (forall i, i ∈ 0 :: js ++ [last] <-> 0 <= i < chunk_count o) as Hin
    by (intros i; rewrite Hperm, elem_of_seqZ; lia).
  assert (NoDup (0 :: js ++ [last])) as Hnd by (rewrite Hperm; apply NoDup_seqZ).
  apply list.NoDup_cons in Hnd as [H0 Hnd]. apply list.NoDup_app in Hnd as (Hnd & Hlast & _).
  assert (last ∉ js ++ [0]) as Hfresh.
  { intros [Hl|E0]%elem_of_app; [|apply list_elem_of_singleton in E0; mem].
    apply (Hlast last Hl). mem. }
  assert (~ all_in o (js ++ [0])) as Hmore by (intros Hall; apply Hfresh, Hall, Hin; mem).
  destruct (start_step o s t Ho Hs E Hroom) as (s0 & E0 & Haw).
  { intros Hall. apply Hmore. intros j Hj. specialize (Hall j Hj). mem. }
  pose proof Hrun as Hrun0. cbn [run_frames] in Hrun0. rewrite E0 in Hrun0.
  destruct (run_frames fs s0 t) as [ms0 out] eqn:E1. injection Hrun0 as <- ->.
  destruct (traffic_awaiting o js fs [0] s0 t ms0 s1 t1) as (got & Hgot & Hsame); auto.
  { apply list.NoDup_app. split_and!; auto; [|apply NoDup_singleton].
    intros x Hx [->|[]%elem_of_nil]%elem_of_cons. mem. }
  { intros i Hi. apply Hin. mem. }
  split. { destruct Hgot as [_ _ (st & -> & _)]. eauto. }
  destruct (data_step o got last s1 t1 Ho Hgot) as [(_ & msg & s2 & E2 & Hd & _ & Hgone)|(Hn & _)].
  - apply Hin. mem.
  - now rewrite Hsame.
  - exists msg, s2. split_and!; auto. rewrite app_comm_cons.
    rewrite (run_frames_app _ _ _ _ _ _ _ Hrun). cbn [run_frames]. rewrite E2. done.
  - destruct Hn. intros j Hj%Hin. rewrite elem_of_cons, Hsame. mem.
Qed.

(** ** Bytes *)
Lemma header_fields_bytes f : Forall is_byte (header_fields f).
Proof.
  assert (forall n, Forall is_byte (replicate n 0)) as Hz by (intros n; now apply Forall_replicate).
  destruct f; cbn [header_fields]; repeat apply Forall_app_2; auto using to_be_bytes_bytes.
Qed.

Lemma chunk_bytes o i : Forall is_byte (og_message o) -> Forall is_byte (chunk o i).
Proof. intros H. unfold chunk, chunk_of, slice. now apply Forall_take, Forall_drop. Qed.

Lemma data_frame_wire o i :
  outgoing_ok o -> Forall is_byte (og_message o) -> 0 <= i < chunk_count o -> wire_frame (data_frame o i).
Proof.
  intros Ho Hb Hi. pose proof (og_cut _ Ho). pose proof (og_size _ Ho).
  destruct (chunk_len o i ltac:(lia) Hi) as [_ Hl]. split; cbn [data_frame snd].
  - rewrite len_app, len_header_fields. cbn [header_len].
    change CONTROL_BODY_LEN_MASK with 134217727. unfold STREAM_DATA_HEADER_LEN, MAX_STREAM_SIZE in *. lia.
  - apply Forall_app_2; auto using header_fields_bytes, chunk_bytes.
Qed.

Lemma start_frame_wire o :
  outgoing_ok o -> Forall is_byte (og_message o) -> wire_frame (start_frame o).
Proof.
  intros Ho Hb. pose proof (og_cut _ Ho). pose proof (og_size _ Ho).
  destruct (first_chunk o Ho) as [_ Hl]. destruct (start_frame_split o) as [Hf Hm]. rewrite Hf in *.
  pose proof (stream_meta_len_pos _ _ Hm). split; cbn [snd].
  - rewrite len_app. change CONTROL_BODY_LEN_MASK with 134217727. unfold MAX_STREAM_SIZE in *. lia.
  - apply Forall_app_2; [|now apply chunk_bytes]. unfold start_meta.
    destruct (og_is_response o); apply header_fields_bytes.
Qed.

Lemma traffic_wire o js fs :
  outgoing_ok o -> Forall is_byte (og_message o) -> (forall i, i ∈ js -> 0 <= i < chunk_count o) ->
  traffic o js fs -> Forall wire_frame fs.
Proof.
  intros Ho Hb Hi Htr. induction Htr; constructor; auto.
  - apply data_frame_wire; auto. apply Hi. left.
  - apply IHHtr. intros j Hj. apply Hi. now right.
Qed.

Definition wire (fs : list (WireKind * list Z)) : list Z := concat (frame_bytes <$> fs).

End Deliver.

(** Five bytes in chunks of two, the last chunk early, a pub-sub frame between. *)
Definition example_outgoing : Outgoing := mkOutgoing 7 9 11 22 false [1; 2; 3; 4; 5] 2.
Definition example_traffic : list (WireKind * list Z) :=
  [data_frame example_outgoing 2; (KPubSub, header_fields OutPubSub ++ [8])].

