(* ===== verification/StreamReject.v ===== *)
(** * Streams the receiver refuses

    A stream refused for lack of room is drained, chunk by chunk, without
    ending the connection and without touching any other stream; its tombstone
    goes with its last chunk. *)

From S2P Require Import Prelude Types Framing RouteTable Aligned FrameParser Bitmap.
From S2P Require Import Streaming StreamInv StreamTable ReadPipeline ReadInv ReadFeed ReadRefine StreamDeliver.
Import Routes Aligned.

Section Reject.
Context {RegistryMessage : Type}.
Context (decode_registry_message : list Z -> option RegistryMessage).
Context (allocate : Z -> Z) (Halign : forall n, allocate n mod PAYLOAD_ALIGNMENT = 0).
Context (max_message_size : Z) (now : Z).

Abbreviation frame_step := (frame_step decode_registry_message allocate max_message_size now).
Abbreviation run_frames := (run_frames decode_registry_message allocate max_message_size now).
Abbreviation outgoing_ok := (outgoing_ok max_message_size).

(** The tombstone has seen the chunks [got]. *)
Record draining (o : Outgoing) (got : list Z) (s : StreamingState) : Prop := {
  dr_table : table_ok s;
  dr_active : active_streams s !! og_stream_id o = None;
  dr_tomb : exists t, rejected_streams s !! og_stream_id o = Some t
    /\ tb_total_size t = len (og_message o) /\ tb_chunk_stride t = Some (og_stride o)
    /\ forall i, 0 <= i < chunk_count o -> bit (tb_received_chunks t) i = bool_decide (i ∈ got);
}.

(** Nothing of the stream is left. *)
Definition drained (o : Outgoing) (s : StreamingState) : Prop :=
  table_ok s /\ active_streams s !! og_stream_id o = None /\ rejected_streams s !! og_stream_id o = None.

Lemma absorb_drains o got i s :
  0 < og_stride o -> draining o got s -> 0 <= i < chunk_count o ->
  exists t s', rejected_streams s !! og_stream_id o = Some t
    /\ absorb_chunk (og_stream_id o) i t s = (Ok tt, s')
    /\ active_streams s' = active_streams s
    /\ ((all_in o (i :: got) /\ drained o s') \/ (~ all_in o (i :: got) /\ draining o (i :: got) s')).
Proof.
  intros Hk [Hs Ha (t & E & Htot & Hst & Hb)] Hi.
  destruct (absorb_chunk_ok (og_stream_id o) i t s Hs E) as [Hr Hs'].
  pose proof (ta_tombs _ Hs _ _ E) as [Ht (k & Hk1 & _ & He & Hsz & _)].
  assert (k = og_stride o) as -> by congruence. rewrite Htot in *.
  set (t' := tomb_mark_chunk_received i t).
  destruct (tomb_is_complete_spec t' (og_stride o)) as (b & Eb & Hf); cbn; rewrite ?Htot; auto;
    [lia|now apply set_chunk_bit_sized|].
  cbn in Hf. rewrite Htot in Hf.
  assert (forall j, 0 <= j < chunk_count o ->
            bit (set_chunk_bit (tb_received_chunks t) i) j = bool_decide (j ∈ i :: got)) as Hb'.
  { intros j Hj. rewrite (bit_set _ _ i j Hsz) by (auto; lia). rewrite Hb by done.
    destruct (Z.eqb_spec i j) as [->|Hij]; [rewrite orb_true_r; symmetry; apply bool_decide_eq_true_2; left|].
    rewrite orb_false_r. apply bool_decide_ext. rewrite elem_of_cons. intuition congruence. }
  assert (b = true <-> all_in o (i :: got)) as Hall.
  { rewrite Hf. unfold full, all_in. split; intros H j Hj; specialize (H j Hj);
      rewrite Hb' in * by done; [now apply bool_decide_eq_true in H|now apply bool_decide_eq_true_2]. }
  exists t, (absorb_chunk (og_stream_id o) i t s).2. split; [done|].
  unfold absorb_chunk in *. fold t' in Hr, Hs' |- *. rewrite Eb in *.
  destruct b; cbn [fst snd] in *; (split; [done|]); (split; [now rewrite ?active_remove_tombstone|]).
  - left. split; [now apply Hall|]. split_and!; [done|rewrite active_remove_tombstone; exact Ha|].
    rewrite remove_tombstone_lookup. now rewrite decide_True.
  - right. split; [rewrite <- Hall; done|]. split; auto. exists t'. cbn. rewrite lookup_insert_eq. auto.
Qed.

Lemma data_drains o got i s t :
  outgoing_ok o -> draining o got s -> 0 <= i < chunk_count o ->
  exists s', frame_step (data_frame o i) s t = (Progressed None, (s', t))
    /\ ((all_in o (i :: got) /\ drained o s') \/ (~ all_in o (i :: got) /\ draining o (i :: got) s')).
Proof.
  intros Ho Hd Hi. pose proof (og_fits _ _ Ho) as Hfit. pose proof (og_cut _ _ Ho) as Hcut.
  destruct (chunk_len o i ltac:(lia) Hi) as [_ Hl].
  destruct (absorb_drains o got i s ltac:(lia) Hd Hi) as (tb & s' & E & Eabs & _ & Hcase).
  exists s'. split; [|done]. unfold data_frame.
  rewrite stream_frame_step; [|now destruct (og_is_response o)|
    cbn [header_fields]; change (len (_ ++ _)) with 8; lia].
  destruct (data_frame_meta max_message_size o i Ho Hi) as [Hu Hf]. destruct (Hf []) as [Hf1 Hf2].
  rewrite app_nil_r in Hf1, Hf2.
  unfold stream_frame, reserve_v5_stream_payload. cbn [header_fields].
  set (meta := to_be_bytes 4 (og_stream_id o) ++ to_be_bytes 4 i) in *.
  change (len meta) with 8.
  assert (stream_meta_len (if og_is_response o then KStreamResponseData else KStreamData) = Some 8) as ->
    by now destruct (og_is_response o).
  rewrite (proj2 (Z.ltb_ge (8 + len (chunk o i)) 8)) by lia.
  rewrite Hf1, Hf2. unfold reserve_v5_chunk_or_discard. rewrite E, Eabs.
  now destruct (og_is_response o).
Qed.

(** A stream that finds no room. *)
Lemma start_busy o s :
  outgoing_ok o -> table_ok s -> active_streams s !! og_stream_id o = None -> ~ has_room o s ->
  start_stream_with_correlation_and_kind (start_header o) (og_correlation_id o) None
    (og_is_response o) now s = (Err (Network ResourceBusy), s).
Proof.
  intros Ho Hs E Hroom. pose proof Ho as [_ _ _ _ Hcut Hsz _].
  unfold start_stream_with_correlation_and_kind.
  change (sh_stream_id (start_header o)) with (og_stream_id o).
  change (sh_total_size (start_header o)) with (len (og_message o)).
  rewrite bool_decide_eq_false_2 by (rewrite E; now intros []).
  rewrite (proj2 (Z.ltb_ge MAX_STREAM_SIZE _)) by lia.
  destruct (Z.leb_spec (max_concurrent_streams s) (map_len (active_streams s))); [done|].
  pose proof (ta_inflight _ Hs). rewrite saturating_add_exact
    by (unfold MAX_INFLIGHT_STREAM_BYTES, MAX_STREAM_SIZE, usize_max, u64_max in *; lia).
  destruct (Z.ltb_spec MAX_INFLIGHT_STREAM_BYTES (inflight_bytes (active_streams s) + len (og_message o)));
    [done|]. destruct Hroom. split; lia.
Qed.

Lemma tomb_rejected_bits o i :
  0 < og_stride o -> 0 <= i < chunk_count o ->
  bit (tb_received_chunks (tomb_rejected (len (og_message o)) (og_stride o))) i = bool_decide (i ∈ [0]).
Proof.
  intros Hk Hi. unfold tomb_rejected, establish_stride. cbn [tb_chunk_stride tb_total_size].
  rewrite (proj2 (Z.eqb_neq (og_stride o) 0)) by lia. cbn.
  assert (0 <= chunk_count o) by (apply div_ceil_nonneg; [apply len_nonneg|done]).
  rewrite (bit_set _ (chunk_count o)) by (try apply zero_words_sized; lia). rewrite bit_zero_words. cbn [orb].
  destruct (Z.eqb_spec 0 i) as [<-|Hi0]; symmetry;
    [apply bool_decide_eq_true_2; left|apply bool_decide_eq_false_2].
  rewrite list_elem_of_singleton. congruence.
Qed.

Lemma tomb_rejected_fields total n :
  0 < n -> tb_total_size (tomb_rejected total n) = total /\ tb_chunk_stride (tomb_rejected total n) = Some n.
Proof.
  intros Hn. unfold tomb_rejected, establish_stride. cbn [tb_chunk_stride tb_total_size].
  rewrite (proj2 (Z.eqb_neq n 0)) by lia. done.
Qed.

Lemma start_refused o s t s0 :
  outgoing_ok o -> table_ok s -> active_streams s !! og_stream_id o = None -> ~ has_room o s ->
  1 < chunk_count o -> frame_step (start_frame o) s t = (Progressed None, (s0, t)) ->
  draining o [0] s0 /\ active_streams s0 = active_streams s.
Proof.
  intros Ho Hs E Hroom Hn. pose proof Ho as [H1 H2 H3 H4 Hcut Hsz Hfit].
  destruct (first_chunk _ o Ho) as [_ Hl]. destruct (start_frame_split o) as [Hf Hm].
  pose proof (stream_meta_len_pos _ _ Hm).
  assert (start_frame o = ((start_frame o).1, start_meta o ++ chunk o 0)) as -> by now rewrite Hf.
  rewrite stream_frame_step; [|exact Hm|lia]. unfold stream_frame.
  rewrite Hl, (start_reserves max_message_size) by done.
  unfold begin_v5_stream_or_discard, begin_v5_stream.
  change (sh_stream_id (start_header o)) with (og_stream_id o).
  change (sh_total_size (start_header o)) with (len (og_message o)).
  pose proof (remove_tombstone_ok (og_stream_id o) s Hs) as Hs'.
  set (s' := remove_tombstone (og_stream_id o) s) in *.
  assert (active_streams s' = active_streams s) as Ea by apply active_remove_tombstone.
  assert (max_concurrent_streams s' = max_concurrent_streams s) as Em
    by (unfold s', remove_tombstone; now destruct (rejected_streams s !! _)).
  rewrite (proj2 (Z.eqb_neq (og_stride o) 0)), (proj2 (Z.ltb_ge _ (og_stride o))) by lia.
  rewrite start_busy by (unfold has_room; rewrite ?Ea, ?Em; done).
  change (is_resource_busy (Network ResourceBusy)) with true. cbv iota.
  pose proof (reject_stream_ok (og_stream_id o) (len (og_message o)) (og_stride o) s' Hs'
    ltac:(lia) ltac:(lia)) as Hs2.
  unfold reject_stream in *. change (expected_chunk_count (len (og_message o)) (og_stride o)) with (chunk_count o) in *.
  rewrite (proj2 (Z.leb_gt (chunk_count o) 1)) in * by lia.
  destruct (projected_bitmap_words _ (bitmap_words_for (chunk_count o)) s'); [|done].
  unfold try_insert_tombstone in *. destruct (projected_bitmap_words _ _ s'); [|done]. intros [= <-].
  split; [|exact Ea]. split; [exact Hs2|cbn; now rewrite Ea|].
  exists (tomb_rejected (len (og_message o)) (og_stride o)). cbn [set_rejected rejected_streams].
  rewrite lookup_insert_eq. destruct (tomb_rejected_fields (len (og_message o)) (og_stride o)); [lia|].
  split_and!; auto. intros i Hi. apply tomb_rejected_bits; [lia|done].
Qed.

Lemma draining_same o got s s' :
  table_ok s' -> same_at (og_stream_id o) s s' -> draining o got s -> draining o got s'.
Proof. intros Ht [H1 H2] [_ H3 H4]. split; rewrite ?H1, ?H2; auto. Qed.

Lemma traffic_draining o js fs : forall got s t ms s1 t1,
  outgoing_ok o -> traffic o js fs -> draining o got s ->
  (forall i, i ∈ js -> 0 <= i < chunk_count o) -> ~ all_in o (js ++ got) ->
  run_frames fs s t = (ms, Some (s1, t1)) ->
  exists got', draining o got' s1 /\ forall i, i ∈ got' <-> i ∈ js ++ got.
Proof.
  intros got s t ms s1 t1 Ho Htr. revert got s t ms.
  induction Htr as [|f js fs Hf Hw Htr IH|i js fs Htr IH]; intros got s t ms Hd Hrange Hmore Hrun.
  - injection Hrun as _ <- <-. eauto.
  - cbn [ReadRefine.run_frames] in Hrun. destruct (frame_step f s t) as [[m| | |] [s2 t2]] eqn:E; try done.
    destruct (run_frames fs s2 t2) as [ms2 out] eqn:E2. injection Hrun as _ ->.
    eapply (IH got s2 t2); eauto. apply (draining_same _ _ s); [| |done].
    + eapply frame_step_ok; [apply Hd| |exact E]. apply Hw.
    + eapply frame_step_other; eauto.
  - cbn [ReadRefine.run_frames] in Hrun.
    destruct (data_drains o got i s t Ho Hd) as (s2 & E & Hcase); [apply Hrange; left|].
    rewrite E in Hrun. destruct (run_frames fs s2 t) as [ms2 out] eqn:E2. injection Hrun as _ ->.
    assert (forall j, j ∈ (js ++ i :: got) <-> j ∈ ((i :: js) ++ got)) as Hperm by (intros j; mem).
    destruct Hcase as [[Hall _]|[_ Hd2]].
    + destruct Hmore. intros j Hj. specialize (Hall j Hj). mem.
    + destruct (IH (i :: got) s2 t ms2) as (got' & Hg & Hin); auto.
      * intros j Hj. apply Hrange. now right.
      * intros Hall. apply Hmore. intros j Hj. now apply Hperm, Hall.
      * exists got'. split; [done|]. intros j. now rewrite Hin.
Qed.

(** Pressure stays with the stream that causes it.  When a stream finds no
    room and its opening frame is accepted for draining, the chunks that follow
    are swallowed, in any order and between any other traffic: no chunk of it
    ends the connection or produces a message, no open stream changes when it
    is refused, and once its last chunk has passed nothing of it is left, its
    tombstone included. *)
Theorem refused_stream_drains o s t s0 js fs last ms s1 t1 :
  outgoing_ok o -> table_ok s -> active_streams s !! og_stream_id o = None -> ~ has_room o s ->
  traffic o js fs -> 0 :: js ++ [last] ≡ₚ seqZ 0 (chunk_count o) ->
  frame_step (start_frame o) s t = (Progressed None, (s0, t)) ->
  run_frames fs s0 t = (ms, Some (s1, t1)) ->
  active_streams s0 = active_streams s
  /\ exists s2, frame_step (data_frame o last) s1 t1 = (Progressed None, (s2, t1)) /\ drained o s2.
Proof.
  intros Ho Hs E Hroom Htr Hperm Hstart Hrun.
  assert (forall i, i ∈ 0 :: js ++ [last] <-> 0 <= i < chunk_count o) as Hin
    by (intros i; rewrite Hperm, elem_of_seqZ; lia).
  assert ((last ∉ (js ++ [0])) /\ 0 <= last < chunk_count o) as [Hfresh Hlast].
  { split; [|apply Hin; mem]. assert (NoDup (0 :: js ++ [last])) as Hnd by (rewrite Hperm; apply NoDup_seqZ).
    apply list.NoDup_cons in Hnd as [H0 Hnd]. apply list.NoDup_app in Hnd as (_ & Hl & _).
    intros [Hj|E0]%elem_of_app; [apply (Hl last Hj); mem|apply list_elem_of_singleton in E0; mem]. }
  assert (last <> 0) as Hne by (intros ->; apply Hfresh; mem).
  destruct (start_refused o s t s0) as [Hd Ha]; auto; [lia|]. split; [done|].
  destruct (traffic_draining o js fs [0] s0 t ms s1 t1) as (got & Hg & Hsame); auto.
  { intros i Hi. apply Hin. mem. }
  destruct (data_drains o got last s1 t1 Ho Hg Hlast) as (s2 & E2 & [[_ Hd2]|[Hn _]]); [eauto|].
  destruct Hn. intros j Hj%Hin. rewrite elem_of_cons, Hsame. mem.
Qed.
End Reject.

(** A table already at its limit of streams: none is allowed. *)
Definition full_table : StreamingState := mkStreaming ∅ ∅ 0 0.

Lemma refused_stream_drains_witness :
  let o := example_outgoing in
  let step := frame_step (fun _ => @None unit) (fun _ => 0) 1000 0 in
  exists s0 ms s1 t1 s2,
    step (start_frame o) full_table new = (Progressed None, (s0, new))
    /\ run_frames (fun _ => @None unit) (fun _ => 0) 1000 0 example_traffic s0 new = (ms, Some (s1, t1))
    /\ step (data_frame o 1) s1 t1 = (Progressed None, (s2, t1)) /\ drained o s2.
Proof.
  intros o step.
  assert (outgoing_ok 1000 o) as Ho
    by (split; cbn; unfold u32, u64, u32_max, u64_max, len, MAX_STREAM_SIZE; cbn; lia).
  assert (table_ok full_table) as Hs
    by (split; cbn; intros; rewrite ?lookup_empty, ?map_sum_empty in *; done).
  set (s0 := (step (start_frame o) full_table new).2.1).
  assert (step (start_frame o) full_table new = (Progressed None, (s0, new))) as E0
    by (vm_compute; reflexivity).
  destruct (run_frames (fun _ => @None unit) (fun _ => 0) 1000 0 example_traffic s0 new)
    as [ms [[s1 t1]|]] eqn:E.
  2: { assert (bool_decide (is_Some (run_frames (fun _ => @None unit) (fun _ => 0) 1000 0
         example_traffic s0 new).2) = true) as H by (vm_compute; reflexivity). rewrite E in H. done. }
  destruct (refused_stream_drains (fun _ => @None unit) (fun _ => 0) 1000 0 o full_table new
    s0 [2] example_traffic 1 ms s1 t1) as (_ & s2 & H & Hd); auto.
  - intros [H _]. vm_compute in H. discriminate H.
  - apply traffic_chunk, traffic_other; [|split|constructor].
    + vm_compute. done.
    + vm_compute. split; [done|discriminate].
    + apply (bool_decide_eq_true_1 _); reflexivity.
  - apply Permutation_skip, perm_swap.
  - exists s0, ms, s1, t1, s2. auto.
Defined.
