(* ===== verification/WriterCommands.v ===== *)
(** * The writer's commands and the response queue

    src/src/connection_pool/writer_commands.rs: the commands of the connection
    writer, responses that are framed lazily, the bounded queue of the responses
    the read pipeline produces, and the rotation between the writer's sources. *)

From S2P Require Import Prelude Types Framing Streaming.

Definition MASTER_BUFFER_SIZE : Z := 1024 * 1024.
Definition STREAM_CHUNK_SIZE : Z := MASTER_BUFFER_SIZE.
Definition STREAMING_THRESHOLD : Z := saturating_sub MASTER_BUFFER_SIZE 1024.
Definition RESPONSE_BATCH_BYTE_CAP : Z := saturating_mul usize_max STREAMING_THRESHOLD 8.
Definition STREAMING_RESPONSE_QUEUE_COMMAND_CAP : Z := 256.
Definition STREAMING_RESPONSE_QUEUE_BYTE_CAP : Z := RESPONSE_BATCH_BYTE_CAP.
Definition PENDING_ASK_NACK_CAP : Z := 64.
Definition STREAMING_RESPONSE_QUEUE_HARD_BYTE_CAP : Z :=
  saturating_add usize_max MAX_INFLIGHT_STREAM_BYTES STREAMING_RESPONSE_QUEUE_BYTE_CAP.
Definition MAX_STREAMING_RESPONSE_RETAINED_BYTES : Z :=
  saturating_add usize_max MAX_STREAM_SIZE STREAMING_RESPONSE_QUEUE_BYTE_CAP.

(** ** Responses framed on demand *)
Record BytesStreamingResponse := mkBytesResponse {
  br_stream_id : Z;
  br_correlation_id : Z;
  br_payload : list Z;
  br_payload_len : Z;
  br_retained_bytes : Z;
  br_chunk_size : Z;
  br_chunk_count : Z;
  br_frame_index : Z;
  br_frame_offset : Z;
}.

(** The chunk count both kinds of response compute. *)
Definition response_chunk_count (payload_len chunk_size : Z) : Z :=
  if payload_len =? 0 then 1
  else default usize_max
         (checked_div (saturating_add usize_max payload_len (saturating_sub chunk_size 1)) chunk_size).

Definition bytes_response_new (stream_id correlation_id : Z) (payload : list Z)
    (retained_bytes chunk_size : Z) : BytesStreamingResponse :=
  mkBytesResponse stream_id correlation_id payload (len payload) (Z.max retained_bytes (len payload))
    chunk_size (response_chunk_count (len payload) chunk_size) 0 0.

(** Where frame [i]'s payload starts, and how long it is. *)
Definition frame_payload_start (chunk_size i : Z) : Z :=
  if i =? 0 then 0
  else saturating_add usize_max chunk_size
         (saturating_mul usize_max (saturating_sub i 1) chunk_size).

Definition frame_payload_len (payload_len chunk_size i : Z) : Z :=
  if i =? 0 then Z.min payload_len chunk_size
  else
    let consumed := saturating_add usize_max chunk_size
                      (saturating_mul usize_max (saturating_sub i 1) chunk_size) in
    Z.min (saturating_sub payload_len consumed) chunk_size.

(** [payload_len as u32] and [frame_index as u32] keep the low 32 bits. *)
Definition response_frame_header (stream_id correlation_id payload_len chunk_size i : Z)
    : Result (list Z) :=
  let n := frame_payload_len payload_len chunk_size i in
  expect (if i =? 0
          then try_write_stream_response_start_header stream_id correlation_id
                 (Z.land payload_len u32_max) n
          else try_write_stream_data_header true stream_id (Z.land i u32_max) n).

Definition bytes_frame_header (r : BytesStreamingResponse) (i : Z) : Result (list Z) :=
  response_frame_header (br_stream_id r) (br_correlation_id r) (br_payload_len r) (br_chunk_size r) i.

(** A copy of exactly the visible bytes. *)
Definition normalize_streaming_payload (payload : list Z) : list Z * Z := (payload, len payload).

(** A pooled payload is a [Buf]: its bytes and the position reached. *)
Record PooledPayload := mkPooled { pp_bytes : list Z; pp_pos : Z }.

Definition pp_remaining (p : PooledPayload) : Z := saturating_sub (len (pp_bytes p)) (pp_pos p).
Definition pp_chunk (p : PooledPayload) : list Z := drop (Z.to_nat (pp_pos p)) (pp_bytes p).
Definition pp_advance (n : Z) (p : PooledPayload) : Result PooledPayload :=
  if n <=? pp_remaining p then Ok (mkPooled (pp_bytes p) (pp_pos p + n)) else Panic.

Record PooledStreamingResponse := mkPooledResponse {
  pr_stream_id : Z;
  pr_correlation_id : Z;
  pr_payload_len : Z;
  pr_retained_bytes : Z;
  pr_chunk_size : Z;
  pr_chunk_count : Z;
  pr_prefix : option (list Z);
  pr_prefix_len : Z;
  pr_prefix_sent : Z;
  pr_payload : PooledPayload;
  pr_payload_remaining : Z;
  pr_frame_index : Z;
  pr_frame_offset : Z;
}.

Definition pooled_response_new (stream_id correlation_id payload_len retained_bytes chunk_size : Z)
    (payload : PooledPayload) (prefix : option (list Z)) (expected_payload_len : Z)
    : PooledStreamingResponse :=
  mkPooledResponse stream_id correlation_id payload_len (Z.max retained_bytes payload_len) chunk_size
    (response_chunk_count payload_len chunk_size) prefix
    (match prefix with Some p => len p | None => 0 end) 0 payload expected_payload_len 0 0.

Definition pooled_frame_header (r : PooledStreamingResponse) (i : Z) : Result (list Z) :=
  response_frame_header (pr_stream_id r) (pr_correlation_id r) (pr_payload_len r) (pr_chunk_size r) i.

(** What the writer sees of a reply slot: its ask, the response submitted for
    it, if any, and the one to send if none is or the lease is cancelled. *)
Record LeaseRecord := mkLease {
  lr_correlation_id : Z;
  lr_normal_payload : option (list Z);
  lr_terminal_payload : list Z;
}.

Inductive LeasedResponseStage :=
  | Reserved
  | WritingNormal (normal : BytesStreamingResponse)
  | WritingInline (header payload : list Z)
  | WritingAbort (header : list Z)
  | WritingTerminal (header payload : list Z)
  | Flushing
  | LeaseComplete.

Inductive StreamingCommand :=
  | WriteBytes (data : list Z)
  | Flush
  | VectoredWrite (header payload : list Z)
  | OwnedChunks (chunks : list (list Z))
  | PooledResponse (response : PooledStreamingResponse)
  | BytesResponse (response : BytesStreamingResponse)
  | LeasedResponse (stage : LeasedResponseStage) (record : LeaseRecord)
  | Abort (stream_id reason : Z).

(** The abort header is an array of fixed length. *)
Definition streaming_command_bytes (c : StreamingCommand) : Z :=
  match c with
  | WriteBytes data => len data
  | Flush => 0
  | VectoredWrite header payload => len header + len payload
  | OwnedChunks chunks => foldr Z.add 0 (len <$> chunks)
  | PooledResponse r => pr_retained_bytes r
  | BytesResponse r => br_retained_bytes r
  | LeasedResponse _ _ => 0
  | Abort _ _ => FRAME_HEADER_LEN STREAM_DATA_HEADER_LEN
  end.

Definition is_flush (c : StreamingCommand) : bool := match c with Flush => true | _ => false end.
Definition total_bytes (l : list StreamingCommand) : Z := foldr Z.add 0 (streaming_command_bytes <$> l).
Arguments total_bytes : simpl never.

(** ** The queue of immediate streaming responses *)
Record LocalStreamingQueue := mkQueue {
  lq_queue : list StreamingCommand;
  lq_queued_bytes : Z;
  lq_response_in_flight : bool;
  lq_suspended_response : bool;
  lq_flush_pending : bool;
  lq_response_expects_flush : bool;
  lq_in_flight_bytes : Z;
  lq_wire_blocked : bool;
  lq_response_reserve_bytes : Z;
  lq_response_reserve_commands : Z;
  lq_deferred : option (list StreamingCommand);
  lq_deferred_bytes : Z;
  lq_pending_ask_nacks : list (list Z);
}.

Definition with_response_reserve (max_message_size : Z) : LocalStreamingQueue :=
  mkQueue [] 0 false false false false 0 false
    (Z.min STREAM_CHUNK_SIZE STREAMING_RESPONSE_QUEUE_BYTE_CAP)
    (Z.min (saturating_add usize_max
              (default 1 (checked_div (saturating_add usize_max max_message_size
                                         (saturating_sub STREAM_CHUNK_SIZE 1)) STREAM_CHUNK_SIZE)) 2)
       STREAMING_RESPONSE_QUEUE_COMMAND_CAP)
    None 0 [].

(** ** Setters *)
Definition set_queue queue queued_bytes (q : LocalStreamingQueue) : LocalStreamingQueue :=
  mkQueue queue queued_bytes (lq_response_in_flight q) (lq_suspended_response q) (lq_flush_pending q)
    (lq_response_expects_flush q) (lq_in_flight_bytes q) (lq_wire_blocked q)
    (lq_response_reserve_bytes q) (lq_response_reserve_commands q) (lq_deferred q)
    (lq_deferred_bytes q) (lq_pending_ask_nacks q).

Definition set_deferred deferred deferred_bytes (q : LocalStreamingQueue) : LocalStreamingQueue :=
  mkQueue (lq_queue q) (lq_queued_bytes q) (lq_response_in_flight q) (lq_suspended_response q)
    (lq_flush_pending q) (lq_response_expects_flush q) (lq_in_flight_bytes q) (lq_wire_blocked q)
    (lq_response_reserve_bytes q) (lq_response_reserve_commands q) deferred deferred_bytes
    (lq_pending_ask_nacks q).

Definition set_flight in_flight suspended flush_pending expects_flush in_flight_bytes
    (q : LocalStreamingQueue) : LocalStreamingQueue :=
  mkQueue (lq_queue q) (lq_queued_bytes q) in_flight suspended flush_pending expects_flush
    in_flight_bytes (lq_wire_blocked q) (lq_response_reserve_bytes q)
    (lq_response_reserve_commands q) (lq_deferred q) (lq_deferred_bytes q) (lq_pending_ask_nacks q).

Definition set_nacks nacks (q : LocalStreamingQueue) : LocalStreamingQueue :=
  mkQueue (lq_queue q) (lq_queued_bytes q) (lq_response_in_flight q) (lq_suspended_response q)
    (lq_flush_pending q) (lq_response_expects_flush q) (lq_in_flight_bytes q) (lq_wire_blocked q)
    (lq_response_reserve_bytes q) (lq_response_reserve_commands q) (lq_deferred q)
    (lq_deferred_bytes q) nacks.

Definition set_wire_blocked blocked (q : LocalStreamingQueue) : LocalStreamingQueue :=
  mkQueue (lq_queue q) (lq_queued_bytes q) (lq_response_in_flight q) (lq_suspended_response q)
    (lq_flush_pending q) (lq_response_expects_flush q) (lq_in_flight_bytes q) blocked
    (lq_response_reserve_bytes q) (lq_response_reserve_commands q) (lq_deferred q)
    (lq_deferred_bytes q) (lq_pending_ask_nacks q).

(** ** NACKs owed to the peer *)
Definition has_room_for_ask_nack_occupying (extra : Z) (q : LocalStreamingQueue) : bool :=
  saturating_add usize_max (len (lq_pending_ask_nacks q)) extra <? PENDING_ASK_NACK_CAP.

Definition queue_ask_nack (header : list Z) (q : LocalStreamingQueue)
    : Result unit * LocalStreamingQueue :=
  if has_room_for_ask_nack_occupying 0 q
  then (Ok tt, set_nacks (lq_pending_ask_nacks q ++ [header]) q)
  else (Err (Network AskCapacity), q).

Definition pop_ask_nack (q : LocalStreamingQueue) : option (list Z) * LocalStreamingQueue :=
  match lq_pending_ask_nacks q with
  | [] => (None, q)
  | header :: rest => (Some header, set_nacks rest q)
  end.

Definition has_pending_ask_nacks (q : LocalStreamingQueue) : bool :=
  match lq_pending_ask_nacks q with [] => false | _ => true end.

(** ** Taking commands *)
Definition promote_deferred (q : LocalStreamingQueue) : LocalStreamingQueue :=
  match lq_queue q, lq_deferred q with
  | [], Some deferred => set_queue deferred (total_bytes deferred) (set_deferred None 0 q)
  | _, _ => q
  end.

Definition pop_front (q : LocalStreamingQueue) : option StreamingCommand * LocalStreamingQueue :=
  if lq_response_in_flight q && lq_suspended_response q then (None, q)
  else
    let q := promote_deferred q in
    match lq_queue q with
    | [] => (None, q)
    | command :: rest =>
        if is_flush command && lq_suspended_response q then (None, q)
        else
          let command_bytes := streaming_command_bytes command in
          let q := set_queue rest (saturating_sub (lq_queued_bytes q) command_bytes) q in
          if is_flush command
          then (Some command,
                if lq_flush_pending q then q
                else set_flight (lq_response_in_flight q) (lq_suspended_response q)
                       (lq_flush_pending q) (lq_response_expects_flush q) 0 q)
          else (Some command,
                set_flight true (lq_suspended_response q) (lq_flush_pending q)
                  (match rest with Flush :: _ => true | _ => false end) command_bytes q)
    end.

Definition response_yielded (q : LocalStreamingQueue) : LocalStreamingQueue :=
  if lq_response_in_flight q
  then set_flight true true (lq_flush_pending q) (lq_response_expects_flush q)
         (lq_in_flight_bytes q) q
  else q.

Definition response_finished (q : LocalStreamingQueue) : LocalStreamingQueue :=
  if negb (lq_response_in_flight q) then q
  else if lq_response_expects_flush q
  then set_flight false false true false (lq_in_flight_bytes q) q
  else set_flight false false (lq_flush_pending q) false 0 q.

Definition flush_finished (q : LocalStreamingQueue) : LocalStreamingQueue :=
  if lq_flush_pending q
  then set_flight (lq_response_in_flight q) (lq_suspended_response q) false
         (lq_response_expects_flush q) 0 q
  else q.

Definition has_pending (q : LocalStreamingQueue) : bool :=
  match lq_queue q with [] => bool_decide (is_Some (lq_deferred q)) | _ => true end.

(** ** Admission *)
Definition retained_bytes (q : LocalStreamingQueue) : Z :=
  saturating_add usize_max
    (saturating_add usize_max (lq_queued_bytes q) (lq_in_flight_bytes q)) (lq_deferred_bytes q).

Definition retained_commands (q : LocalStreamingQueue) : Z :=
  saturating_add usize_max
    (saturating_add usize_max (len (lq_queue q))
       (if lq_response_in_flight q || lq_flush_pending q then 1 else 0))
    (match lq_deferred q with Some d => len d | None => 0 end).

Definition can_defer_response (command_count response_bytes : Z) (q : LocalStreamingQueue) : bool :=
  let retained_without_deferred :=
    saturating_add usize_max (lq_queued_bytes q) (lq_in_flight_bytes q) in
  let bounded_footprint :=
    (response_bytes <=? STREAMING_RESPONSE_QUEUE_HARD_BYTE_CAP)
    && (saturating_add usize_max retained_without_deferred response_bytes
        <=? STREAMING_RESPONSE_QUEUE_HARD_BYTE_CAP) in
  bool_decide (lq_deferred q = None)
  && (command_count <=? lq_response_reserve_commands q)
  && (saturating_add usize_max (retained_commands q) command_count
      <=? STREAMING_RESPONSE_QUEUE_COMMAND_CAP)
  && bounded_footprint.

Definition fits_queue (command_count response_bytes : Z) (q : LocalStreamingQueue) : bool :=
  (saturating_add usize_max (retained_commands q) command_count
   <=? STREAMING_RESPONSE_QUEUE_COMMAND_CAP)
  && (saturating_add usize_max (retained_bytes q) response_bytes
      <=? STREAMING_RESPONSE_QUEUE_BYTE_CAP).

Definition admit_single_oversize (command_count response_bytes : Z) (q : LocalStreamingQueue) : bool :=
  bool_decide (lq_queue q = []) && negb (lq_response_in_flight q)
  && bool_decide (lq_deferred q = None) && (retained_bytes q =? 0)
  && (STREAMING_RESPONSE_QUEUE_BYTE_CAP <? response_bytes)
  && (response_bytes <=? STREAMING_RESPONSE_QUEUE_HARD_BYTE_CAP)
  && (command_count <=? STREAMING_RESPONSE_QUEUE_COMMAND_CAP).

Definition can_admit_response (command_count response_bytes : Z) (q : LocalStreamingQueue) : bool :=
  fits_queue command_count response_bytes q
  || admit_single_oversize command_count response_bytes q
  || can_defer_response command_count response_bytes q.

Definition is_full (q : LocalStreamingQueue) : bool :=
  if bool_decide (is_Some (lq_deferred q)) then true
  else if STREAMING_RESPONSE_QUEUE_HARD_BYTE_CAP
          <? saturating_add usize_max (retained_bytes q) MAX_STREAMING_RESPONSE_RETAINED_BYTES
  then true
  else if bool_decide (lq_queue q = []) then false
  else (STREAMING_RESPONSE_QUEUE_COMMAND_CAP
        <? saturating_add usize_max (len (lq_queue q)) (lq_response_reserve_commands q))
       || (STREAMING_RESPONSE_QUEUE_BYTE_CAP <=? lq_queued_bytes q)
       || (STREAMING_RESPONSE_QUEUE_BYTE_CAP
           <? saturating_add usize_max (lq_queued_bytes q) (lq_response_reserve_bytes q)).

Definition try_extend (commands : list StreamingCommand) (q : LocalStreamingQueue)
    : Result unit * LocalStreamingQueue :=
  let added_bytes := total_bytes commands in
  let fits := fits_queue (len commands) added_bytes q in
  let oversize := admit_single_oversize (len commands) added_bytes q in
  let defer := negb fits && negb oversize && can_defer_response (len commands) added_bytes q in
  if negb fits && negb oversize && negb defer then (Err (Network WouldBlock), q)
  else if defer then (Ok tt, set_deferred (Some commands) added_bytes q)
  else (Ok tt, set_queue (lq_queue q ++ commands)
                 (saturating_add usize_max (lq_queued_bytes q) added_bytes) q).

(** ** Rotation between the writer's sources *)
Inductive StreamingLane := LaneResumed | LaneLease | LaneLocal | LaneShared.

Definition lane_index (l : StreamingLane) : Z :=
  match l with LaneResumed => 0 | LaneLease => 1 | LaneLocal => 2 | LaneShared => 3 end.

Definition lane_of (index : Z) : StreamingLane :=
  if index =? 0 then LaneResumed else if index =? 1 then LaneLease
  else if index =? 2 then LaneLocal else LaneShared.

(** The loop over [step]; [ready] is the array of the four sources. *)
Fixpoint choose_from (steps : list Z) (next : Z) (ready : StreamingLane -> bool)
    : option StreamingLane * Z :=
  match steps with
  | [] => (None, next)
  | step :: steps =>
      let index := (next + step) mod 4 in
      if ready (lane_of index) then (Some (lane_of index), (index + 1) mod 4)
      else choose_from steps next ready
  end.

Definition choose (ready : StreamingLane -> bool) (next : Z) : option StreamingLane * Z :=
  choose_from [0; 1; 2; 3] next ready.
