(* ===== verification/WriterQueue.v ===== *)
(** * The response queue stays bounded, and the sources take turns *)

From S2P Require Import Prelude Types Framing Streaming WriterCommands.

(** ** Accounting *)
Definition command_ok (c : StreamingCommand) : Prop := 0 <= streaming_command_bytes c.

Definition deferred_commands (q : LocalStreamingQueue) : list StreamingCommand :=
  default [] (lq_deferred q).

Record queue_ok (q : LocalStreamingQueue) : Prop := {
  qo_commands : Forall command_ok (lq_queue q ++ deferred_commands q);
  qo_queued : lq_queued_bytes q = total_bytes (lq_queue q);
  qo_deferred : lq_deferred_bytes q = total_bytes (deferred_commands q);
  qo_flight : 0 <= lq_in_flight_bytes q;
  qo_bytes : lq_queued_bytes q + lq_in_flight_bytes q + lq_deferred_bytes q
             <= STREAMING_RESPONSE_QUEUE_HARD_BYTE_CAP;
  qo_count : len (lq_queue q) + (if lq_response_in_flight q || lq_flush_pending q then 1 else 0)
             + len (deferred_commands q) <= STREAMING_RESPONSE_QUEUE_COMMAND_CAP;
  qo_nacks : len (lq_pending_ask_nacks q) <= PENDING_ASK_NACK_CAP;
}.

Lemma total_bytes_cons c l : total_bytes (c :: l) = streaming_command_bytes c + total_bytes l.
Proof. done. Qed.

Lemma total_bytes_app l k : total_bytes (l ++ k) = total_bytes l + total_bytes k.
Proof. induction l as [|c l IH]; [done|]. cbn [app]. rewrite !total_bytes_cons, IH. lia. Qed.

Lemma total_bytes_nonneg l : Forall command_ok l -> 0 <= total_bytes l.
Proof.
  induction 1 as [|c l Hc _ IH]; [done|]. rewrite total_bytes_cons. unfold command_ok in Hc. lia.
Qed.

Lemma hard_cap_fits : 0 < STREAMING_RESPONSE_QUEUE_BYTE_CAP <= STREAMING_RESPONSE_QUEUE_HARD_BYTE_CAP
  /\ STREAMING_RESPONSE_QUEUE_HARD_BYTE_CAP = 2 * MAX_STREAM_SIZE + STREAMING_RESPONSE_QUEUE_BYTE_CAP
  /\ 2 * STREAMING_RESPONSE_QUEUE_HARD_BYTE_CAP <= usize_max.
Proof. vm_compute. intuition congruence. Qed.

Lemma queue_bytes_nonneg q :
  queue_ok q -> 0 <= total_bytes (lq_queue q) /\ 0 <= total_bytes (deferred_commands q).
Proof. intros [H _ _ _ _ _ _]. apply Forall_app in H as [H1 H2]. auto using total_bytes_nonneg. Qed.

(** The saturating sums are the sums. *)
Lemma retained_exact q :
  queue_ok q ->
  retained_bytes q = total_bytes (lq_queue q) + lq_in_flight_bytes q + total_bytes (deferred_commands q)
  /\ retained_commands q = len (lq_queue q)
       + (if lq_response_in_flight q || lq_flush_pending q then 1 else 0) + len (deferred_commands q).
Proof.
  intros Hq. destruct (queue_bytes_nonneg q Hq) as [N1 N2]. destruct Hq as [_ H1 H2 H3 H4 H5 _].
  pose proof hard_cap_fits. pose proof (len_nonneg (lq_queue q)). pose proof (len_nonneg (deferred_commands q)).
  assert (STREAMING_RESPONSE_QUEUE_COMMAND_CAP <= usize_max) by (vm_compute; discriminate).
  assert (match lq_deferred q with Some d => len d | None => 0 end = len (deferred_commands q)) as Ed
    by (unfold deferred_commands; now destruct (lq_deferred q)).
  unfold retained_bytes, retained_commands, saturating_add. rewrite Ed, H1, H2.
  destruct (lq_response_in_flight q || lq_flush_pending q); lia.
Qed.

(** ** Every operation keeps the accounting

    Responses are admitted as a command with its flush. *)
Definition extended (commands : list StreamingCommand) (q q' : LocalStreamingQueue) : Prop :=
  try_extend commands q = (Ok tt, q').

Inductive queue_step : LocalStreamingQueue -> LocalStreamingQueue -> Prop :=
  | step_extend c q q' :
      command_ok c -> extended [c; Flush] q q' -> queue_step q q'
  | step_pop q : queue_step q (pop_front q).2
  | step_yielded q : queue_step q (response_yielded q)
  | step_finished q : queue_step q (response_finished q)
  | step_flushed q : queue_step q (flush_finished q)
  | step_nack header q : queue_step q (queue_ask_nack header q).2
  | step_pop_nack q : queue_step q (pop_ask_nack q).2
  | step_wire blocked q : queue_step q (set_wire_blocked blocked q).

Lemma try_extend_cases commands q q' :
  extended commands q q' ->
  (can_defer_response (len commands) (total_bytes commands) q = true
   /\ q' = set_deferred (Some commands) (total_bytes commands) q)
  \/ ((fits_queue (len commands) (total_bytes commands) q = true
       \/ admit_single_oversize (len commands) (total_bytes commands) q = true)
      /\ q' = set_queue (lq_queue q ++ commands)
               (saturating_add usize_max (lq_queued_bytes q) (total_bytes commands)) q).
Proof.
  unfold extended, try_extend.
  destruct (fits_queue _ _ q), (admit_single_oversize _ _ q), (can_defer_response _ _ q); cbn;
    intros [= <-]; auto.
Qed.

Ltac queue_fields :=
  cbn [fst snd set_queue set_deferred set_flight set_nacks set_wire_blocked lq_queue lq_queued_bytes
    lq_in_flight_bytes lq_response_in_flight lq_flush_pending lq_suspended_response
    lq_response_expects_flush lq_deferred lq_deferred_bytes lq_pending_ask_nacks] in *.

Ltac decided :=
  repeat match goal with
  | H : _ && _ = true |- _ => apply andb_true_iff in H as [? ?]
  | H : negb _ = true |- _ => apply negb_true_iff in H
  | H : bool_decide _ = true |- _ => apply bool_decide_eq_true in H
  | H : (_ <=? _) = true |- _ => apply Z.leb_le in H
  | H : (_ <? _) = true |- _ => apply Z.ltb_lt in H
  | H : (_ =? _) = true |- _ => apply Z.eqb_eq in H
  end.

Lemma flight_bit q : 0 <= (if lq_response_in_flight q || lq_flush_pending q then 1 else 0) <= 1.
Proof. destruct (_ || _); lia. Qed.

(** What admission guarantees about the sums. *)
Lemma admitted_bounds commands q :
  queue_ok q -> Forall command_ok commands -> len commands < STREAMING_RESPONSE_QUEUE_COMMAND_CAP ->
  can_admit_response (len commands) (total_bytes commands) q = true ->
  lq_queued_bytes q + total_bytes commands + lq_in_flight_bytes q + lq_deferred_bytes q
    <= STREAMING_RESPONSE_QUEUE_HARD_BYTE_CAP
  /\ len (lq_queue q) + len commands
     + (if lq_response_in_flight q || lq_flush_pending q then 1 else 0)
     + len (deferred_commands q) <= STREAMING_RESPONSE_QUEUE_COMMAND_CAP.
Proof.
  intros Hq Hc Hn Ha. destruct (retained_exact q Hq) as [Eb Ec]. destruct (queue_bytes_nonneg q Hq) as [N1 N2].
  pose proof (total_bytes_nonneg _ Hc) as N3. pose proof (len_nonneg commands) as N4.
  pose proof Hq as [H0 H1 H2 H3 H4 H5 H6]. destruct hard_cap_fits as (Hcap & _ & Hu).
  pose proof (flight_bit q). pose proof (len_nonneg (lq_queue q)). pose proof (len_nonneg (deferred_commands q)).
  assert (STREAMING_RESPONSE_QUEUE_COMMAND_CAP < usize_max) by (vm_compute; done).
  unfold can_admit_response, fits_queue, admit_single_oversize, can_defer_response, saturating_add in Ha.
  repeat apply orb_true_iff in Ha as [Ha|Ha]; decided; rewrite ?Eb, ?Ec in *; [lia| |].
  - assert (lq_queue q = []) as Eq by done. assert (lq_deferred q = None) as Ed by done.
    unfold deferred_commands in *. rewrite Eq, Ed in *. change (len (@nil StreamingCommand)) with 0 in *.
    change (len (default [] (@None (list StreamingCommand)))) with 0 in *. lia.
  - assert (lq_deferred q = None) as Ed by done. unfold deferred_commands in *. rewrite Ed in *.
    change (total_bytes (default [] None)) with 0 in *. lia.
Qed.

Lemma extend_ok commands q q' :
  queue_ok q -> Forall command_ok commands -> len commands < STREAMING_RESPONSE_QUEUE_COMMAND_CAP ->
  extended commands q q' -> queue_ok q'.
Proof.
  intros Hq Hc Hn He.
  assert (can_admit_response (len commands) (total_bytes commands) q = true) as Ha.
  { unfold can_admit_response. apply try_extend_cases in He as [[-> _]|[[->| ->] _]];
      rewrite ?orb_true_r; done. }
  destruct (admitted_bounds commands q Hq Hc Hn Ha) as [E1 E2].
  pose proof Hq as [H0 H1 H2 H3 H4 H5 H6]. apply Forall_app in H0 as [H01 H02].
  destruct (queue_bytes_nonneg q Hq) as [N1 N2]. destruct hard_cap_fits as (Hcap & _ & Hu).
  apply try_extend_cases in He as [[Hd ->]|[_ ->]].
  - unfold can_defer_response in Hd. decided.
    assert (lq_deferred q = None) as En by done.
    assert (deferred_commands q = []) as Ed by (unfold deferred_commands; now rewrite En).
    rewrite Ed in *. change (total_bytes []) with 0 in *. change (len (@nil StreamingCommand)) with 0 in *.
    split; queue_fields; change (deferred_commands _) with commands; auto; try lia. now apply Forall_app_2.
  - split; queue_fields; change (deferred_commands (set_queue _ _ q)) with (deferred_commands q);
      rewrite ?total_bytes_app, ?len_app; unfold saturating_add; auto; try lia.
    rewrite <- app_assoc. repeat apply Forall_app_2; auto.
Qed.

Lemma promote_ok q : queue_ok q -> queue_ok (promote_deferred q).
Proof.
  intros Hq. unfold promote_deferred. destruct (lq_queue q) as [|c l] eqn:Eq; [|done].
  destruct (lq_deferred q) as [d|] eqn:Ed; [|done]. destruct (queue_bytes_nonneg q Hq) as [N1 N2].
  destruct Hq as [H0 H1 H2 H3 H4 H5 H6].
  assert (deferred_commands q = d) as E by (unfold deferred_commands; now rewrite Ed).
  rewrite Eq, E in *. change (total_bytes []) with 0 in *. change (len (@nil StreamingCommand)) with 0 in *.
  split; queue_fields; change (deferred_commands _) with (@nil StreamingCommand); rewrite ?app_nil_r; auto;
    change (len (@nil StreamingCommand)) with 0; lia.
Qed.

Lemma pop_ok q : queue_ok q -> queue_ok (pop_front q).2.
Proof.
  intros Hq0. unfold pop_front. destruct (_ && _); [done|].
  pose proof (promote_ok q Hq0) as Hq. generalize dependent (promote_deferred q). clear q Hq0. intros q Hq.
  destruct (lq_queue q) as [|c l] eqn:Eq; [done|]. destruct (is_flush c && _); [done|].
  pose proof (flight_bit q). destruct Hq as [H0 H1 H2 H3 H4 H5 H6]. rewrite Eq in *.
  apply Forall_app in H0 as [H01 H02]. apply Forall_cons_1 in H01 as [Hc H01]. unfold command_ok in Hc.
  rewrite total_bytes_cons in H1. pose proof (total_bytes_nonneg _ H01).
  assert (saturating_sub (lq_queued_bytes q) (streaming_command_bytes c) = total_bytes l) as Es
    by (unfold saturating_sub; lia).
  assert (len (c :: l) = 1 + len l) as El by (unfold len; cbn; lia).
  destruct (is_flush c); [queue_fields; destruct (lq_flush_pending q)|]; split; queue_fields; rewrite ?Es;
    auto using Forall_app_2; rewrite ?El in *; change (deferred_commands _) with (deferred_commands q) in *;
    try lia; destruct (lq_response_in_flight q), (lq_flush_pending q); cbn [orb] in *; lia.
Qed.

Lemma queue_step_ok q q' : queue_ok q -> queue_step q q' -> queue_ok q'.
Proof.
  intros Hq H. destruct H as [c q q' Hc He|q|q|q|q|header q|q|blocked q].
  - apply (extend_ok [c; Flush] q); [done| |done|done]. apply Forall_cons_2; [exact Hc|].
    apply Forall_singleton. unfold command_ok. cbn. lia.
  - now apply pop_ok.
  - pose proof Hq as [H0 H1 H2 H3 H4 H5 H6]. unfold response_yielded.
    destruct (lq_response_in_flight q) eqn:E; [|done]. split; queue_fields; auto.
  - pose proof Hq as [H0 H1 H2 H3 H4 H5 H6]. unfold response_finished.
    destruct (lq_response_in_flight q) eqn:E; [|done]. cbn [negb].
    destruct (lq_response_expects_flush q); split; queue_fields; auto;
      change (deferred_commands _) with (deferred_commands q) in *; cbn [orb] in *; try lia.
    destruct (lq_flush_pending q); lia.
  - pose proof Hq as [H0 H1 H2 H3 H4 H5 H6]. unfold flush_finished.
    destruct (lq_flush_pending q) eqn:E; [|done]. split; queue_fields; auto;
      change (deferred_commands _) with (deferred_commands q) in *; try lia.
    rewrite orb_true_r in H5. destruct (lq_response_in_flight q); cbn [orb]; lia.
  - pose proof Hq as [H0 H1 H2 H3 H4 H5 H6]. unfold queue_ask_nack, has_room_for_ask_nack_occupying.
    destruct (_ <? _) eqn:E; [|done]. split; queue_fields; auto. rewrite len_app. decided.
    change (len [header]) with 1. unfold saturating_add in E.
    assert (PENDING_ASK_NACK_CAP < usize_max) by (vm_compute; done). lia.
  - pose proof Hq as [H0 H1 H2 H3 H4 H5 H6]. unfold pop_ask_nack.
    destruct (lq_pending_ask_nacks q) as [|h l] eqn:E; [done|]. split; queue_fields; auto.
    unfold len in *. cbn in H6. lia.
  - pose proof Hq as [H0 H1 H2 H3 H4 H5 H6]. split; queue_fields; auto.
Qed.

Lemma with_reserve_ok m : queue_ok (with_response_reserve m).
Proof. split; cbn; try done; vm_compute; discriminate. Qed.

Lemma queue_step_reserve q q' :
  queue_step q q' -> lq_response_reserve_commands q' = lq_response_reserve_commands q.
Proof.
  destruct 1 as [c q q' Hc He|q|q|q|q|header q|q|blocked q]; try done.
  - apply try_extend_cases in He as [[_ ->]|[_ ->]]; done.
  - unfold pop_front, promote_deferred. repeat (case_match; cbn; try done).
  - unfold response_yielded. now destruct (lq_response_in_flight q).
  - unfold response_finished. now destruct (lq_response_in_flight q), (lq_response_expects_flush q).
  - unfold flush_finished. now destruct (lq_flush_pending q).
  - unfold queue_ask_nack. now destruct (has_room_for_ask_nack_occupying _ q).
  - unfold pop_ask_nack. now destruct (lq_pending_ask_nacks q).
Qed.

Lemma queue_reachable m q :
  star queue_step (with_response_reserve m) q ->
  queue_ok q /\ lq_response_reserve_commands q = lq_response_reserve_commands (with_response_reserve m).
Proof.
  intros H. eapply (star_invariant queue_step (fun q => queue_ok q /\ lq_response_reserve_commands q
    = lq_response_reserve_commands (with_response_reserve m))); eauto.
  - intros q1 q2 [H1 H2] Hs. split; [eapply queue_step_ok; eauto|].
    now rewrite (queue_step_reserve _ _ Hs).
  - split; [apply with_reserve_ok|done].
Qed.


(** ** An ask is dispatched only when its answer can be kept *)
Lemma reserve_at_least m :
  0 < m -> 3 <= lq_response_reserve_commands (with_response_reserve m).
Proof.
  intros Hm. cbn [with_response_reserve lq_response_reserve_commands].
  unfold checked_div. change (STREAM_CHUNK_SIZE =? 0) with false. cbn [default from_option].
  change (saturating_sub STREAM_CHUNK_SIZE 1) with 1048575. change STREAM_CHUNK_SIZE with 1048576.
  unfold saturating_add, usize_max, u64_max, STREAMING_RESPONSE_QUEUE_COMMAND_CAP.
  assert (1 <= Z.min 18446744073709551615 (m + 1048575) / 1048576)
    by (apply Z.div_le_lower_bound; lia). unfold default, from_option, id in *. lia.
Qed.

Lemma not_full_admits m q n :
  0 < m -> star queue_step (with_response_reserve m) q -> is_full q = false ->
  0 <= n <= MAX_STREAM_SIZE -> can_defer_response 2 n q = true.
Proof.
  intros Hm [Hq Hres]%queue_reachable Hf Hn. pose proof (reserve_at_least m Hm) as Hr. rewrite <- Hres in Hr.
  destruct (retained_exact q Hq) as [Eb Ec]. destruct (queue_bytes_nonneg q Hq) as [N1 N2].
  pose proof Hq as [_ H1 H2 H3 H4 H5 _]. destruct hard_cap_fits as (Hcap & Hh & Hu).
  unfold is_full in Hf. case_bool_decide as Hd; [done|].
  assert (lq_deferred q = None) as En by (destruct (lq_deferred q); [destruct Hd; eauto|done]).
  assert (deferred_commands q = []) as Ed by (unfold deferred_commands; now rewrite En). rewrite Ed in *.
  change (total_bytes []) with 0 in *. change (len (@nil StreamingCommand)) with 0 in *.
  assert (MAX_STREAMING_RESPONSE_RETAINED_BYTES = MAX_STREAM_SIZE + STREAMING_RESPONSE_QUEUE_BYTE_CAP) as Em
    by (vm_compute; done). rewrite Em in Hf.
  destruct (Z.ltb_spec STREAMING_RESPONSE_QUEUE_HARD_BYTE_CAP (saturating_add usize_max (retained_bytes q)
    (MAX_STREAM_SIZE + STREAMING_RESPONSE_QUEUE_BYTE_CAP))) as [|Hlt]; [done|].
  assert (retained_commands q + 2 <= STREAMING_RESPONSE_QUEUE_COMMAND_CAP) as Hcc.
  { rewrite Ec. pose proof (flight_bit q). case_bool_decide as Hq0.
    - rewrite Hq0. change (len (@nil StreamingCommand)) with 0. unfold STREAMING_RESPONSE_QUEUE_COMMAND_CAP. lia.
    - apply orb_false_iff in Hf as [Hf _]. apply orb_false_iff in Hf as [Hf _]. apply Z.ltb_ge in Hf.
      assert (STREAMING_RESPONSE_QUEUE_COMMAND_CAP < usize_max) by (vm_compute; done).
      unfold saturating_add in Hf. lia. }
  unfold can_defer_response. rewrite bool_decide_eq_true_2 by done.
  assert (STREAMING_RESPONSE_QUEUE_COMMAND_CAP < usize_max) by (vm_compute; done).
  unfold saturating_add in *. assert (0 < MAX_STREAM_SIZE) by (vm_compute; done).
  repeat (apply andb_true_iff; split); try done; apply Z.leb_le; lia.
Qed.

(** The gate the read loop asks before it runs an ask's handler is sound:
    when it says the queue is not full, a response of any size the protocol
    allows, with its flush, is admitted, so an answer that has been computed is
    not dropped for want of room. *)
Theorem ask_answer_kept m q c :
  0 < m -> star queue_step (with_response_reserve m) q -> is_full q = false ->
  0 <= streaming_command_bytes c <= MAX_STREAM_SIZE ->
  can_admit_response 2 (streaming_command_bytes c) q = true
  /\ exists q', try_extend [c; Flush] q = (Ok tt, q').
Proof.
  intros Hm Hr Hf Hn. pose proof (not_full_admits m q _ Hm Hr Hf Hn) as Hd.
  split; [unfold can_admit_response; now rewrite Hd, orb_true_r|].
  assert (total_bytes [c; Flush] = streaming_command_bytes c) as Et
    by (rewrite !total_bytes_cons; change (total_bytes []) with 0; cbn [streaming_command_bytes]; lia).
  unfold try_extend. rewrite Et. change (len [c; Flush]) with 2. rewrite Hd.
  destruct (fits_queue _ _ q), (admit_single_oversize _ _ q); cbn; eauto.
Qed.

(** ** What goes in comes out *)
Inductive QueueOp :=
  | OpExtend (c : StreamingCommand)
  | OpPop | OpYielded | OpFinished | OpFlushed.

(** One operation: what it admitted, what it handed out, the queue after. *)
Definition run_op (op : QueueOp) (q : LocalStreamingQueue)
    : list StreamingCommand * list StreamingCommand * LocalStreamingQueue :=
  match op with
  | OpExtend c =>
      match try_extend [c; Flush] q with
      | (Ok _, q) => ([c; Flush], [], q)
      | (_, q) => ([], [], q)
      end
  | OpPop => let '(c, q) := pop_front q in ([], match c with Some c => [c] | None => [] end, q)
  | OpYielded => ([], [], response_yielded q)
  | OpFinished => ([], [], response_finished q)
  | OpFlushed => ([], [], flush_finished q)
  end.

Fixpoint run_ops (ops : list QueueOp) (q : LocalStreamingQueue)
    : list StreamingCommand * list StreamingCommand * LocalStreamingQueue :=
  match ops with
  | [] => ([], [], q)
  | op :: ops =>
      let '(i1, o1, q) := run_op op q in
      let '(i2, o2, q) := run_ops ops q in
      (i1 ++ i2, o1 ++ o2, q)
  end.

Definition contents (q : LocalStreamingQueue) : list StreamingCommand :=
  lq_queue q ++ deferred_commands q.

Lemma promote_contents q : contents (promote_deferred q) = contents q.
Proof.
  unfold promote_deferred, contents, deferred_commands.
  destruct (lq_queue q) eqn:E; [|now rewrite E]. destruct (lq_deferred q) eqn:Ed; [|now rewrite E, Ed].
  cbn. now rewrite app_nil_r.
Qed.

Lemma pop_contents q c q' :
  pop_front q = (c, q') ->
  contents q = match c with Some c => [c] | None => [] end ++ contents q'.
Proof.
  unfold pop_front. destruct (_ && _); [now intros [= <- <-]|].
  rewrite <- (promote_contents q). generalize (promote_deferred q). clear q. intros q.
  destruct (lq_queue q) as [|x l] eqn:E; [now intros [= <- <-]|].
  destruct (is_flush x && _); [now intros [= <- <-]|].
  destruct (is_flush x); [destruct (lq_flush_pending (set_queue _ _ q))|]; intros [= <- <-];
    unfold contents; rewrite E; done.
Qed.

Lemma extend_contents commands q q' :
  extended commands q q' -> contents q' ≡ₚ contents q ++ commands.
Proof.
  intros [[Hd ->]|[_ ->]]%try_extend_cases; unfold contents, deferred_commands; cbn.
  - unfold can_defer_response in Hd. decided.
    assert (lq_deferred q = None) as -> by done. cbn. now rewrite app_nil_r.
  - rewrite <- !app_assoc. apply Permutation_app_head, Permutation_app_comm.
Qed.

(** No response is lost or duplicated on its way through the queue: over any
    sequence of operations, what was admitted is what was handed out plus what
    the queue still holds; a refusal admits nothing. *)
Theorem responses_not_lost ops q :
  let '(admitted, taken, q') := run_ops ops q in
  contents q ++ admitted ≡ₚ taken ++ contents q'.
Proof.
  revert q. induction ops as [|op ops IH]; intros q; cbn; [now rewrite app_nil_r|].
  destruct (run_op op q) as [[i1 o1] q1] eqn:E. specialize (IH q1).
  destruct (run_ops ops q1) as [[i2 o2] q2].
  assert (contents q ++ i1 ≡ₚ o1 ++ contents q1) as H1.
  { destruct op as [c| | | |]; cbn in E.
    - destruct (try_extend [c; Flush] q) as [[u|e|] q3] eqn:Et.
      + destruct u. injection E as <- <- <-. symmetry. now apply extend_contents.
      + injection E as <- <- <-. unfold try_extend in Et. repeat (case_match; simplify_eq). now rewrite app_nil_r.
      + unfold try_extend in Et. repeat (case_match; simplify_eq).
    - destruct (pop_front q) as [c q3] eqn:Ep. injection E as <- <- <-. rewrite app_nil_r.
      now rewrite (pop_contents _ _ _ Ep).
    - injection E as <- <- <-. rewrite app_nil_r. unfold response_yielded. now destruct (lq_response_in_flight q).
    - injection E as <- <- <-. rewrite app_nil_r. unfold response_finished.
      now destruct (lq_response_in_flight q), (lq_response_expects_flush q).
    - injection E as <- <- <-. rewrite app_nil_r. unfold flush_finished. now destruct (lq_flush_pending q). }
  rewrite !app_assoc, H1, <- !app_assoc. now apply Permutation_app_head.
Qed.

(** ** The deferred response can be overtaken *)
Lemma batch_bytes c : total_bytes [c; Flush] = streaming_command_bytes c.
Proof. rewrite !total_bytes_cons. change (total_bytes []) with 0. cbn [streaming_command_bytes]. lia. Qed.

Lemma extend_fits c q :
  fits_queue 2 (streaming_command_bytes c) q = true ->
  run_op (OpExtend c) q
  = ([c; Flush], [], set_queue (lq_queue q ++ [c; Flush])
      (saturating_add usize_max (lq_queued_bytes q) (streaming_command_bytes c)) q).
Proof.
  intros H. cbn [run_op]. unfold try_extend. rewrite batch_bytes. change (len [c; Flush]) with 2.
  now rewrite H.
Qed.

Lemma extend_defers c q :
  fits_queue 2 (streaming_command_bytes c) q = false ->
  admit_single_oversize 2 (streaming_command_bytes c) q = false ->
  can_defer_response 2 (streaming_command_bytes c) q = true ->
  run_op (OpExtend c) q
  = ([c; Flush], [], set_deferred (Some [c; Flush]) (streaming_command_bytes c) q).
Proof.
  intros H1 H2 H3. cbn [run_op]. unfold try_extend. rewrite batch_bytes. change (len [c; Flush]) with 2.
  now rewrite H1, H2, H3.
Qed.

Lemma fits_intro n q :
  retained_commands q + 2 <= STREAMING_RESPONSE_QUEUE_COMMAND_CAP ->
  retained_bytes q + n <= STREAMING_RESPONSE_QUEUE_BYTE_CAP -> fits_queue 2 n q = true.
Proof.
  intros H1 H2. apply andb_true_iff. unfold saturating_add. split; apply Z.leb_le; lia.
Qed.

Lemma defer_intro n q :
  lq_deferred q = None -> 3 <= lq_response_reserve_commands q -> lq_in_flight_bytes q <> 0 ->
  retained_commands q + 2 <= STREAMING_RESPONSE_QUEUE_COMMAND_CAP ->
  retained_bytes q = lq_queued_bytes q + lq_in_flight_bytes q -> 0 <= n ->
  0 <= lq_queued_bytes q -> 0 <= lq_in_flight_bytes q ->
  STREAMING_RESPONSE_QUEUE_BYTE_CAP < retained_bytes q + n <= STREAMING_RESPONSE_QUEUE_HARD_BYTE_CAP ->
  fits_queue 2 n q = false /\ admit_single_oversize 2 n q = false /\ can_defer_response 2 n q = true.
Proof.
  intros H1 H2 H0 H3 H4 H5 H6 H7 H8. destruct hard_cap_fits as (Hcap & _ & Hu). split_and!.
  - apply andb_false_iff. right. apply Z.leb_gt. unfold saturating_add. lia.
  - apply not_true_iff_false. intros H. unfold admit_single_oversize in H. decided. lia.
  - unfold can_defer_response. rewrite H1. unfold saturating_add in *.
    repeat (apply andb_true_iff; split); try done; apply Z.leb_le; lia.
Qed.

Lemma run_ops_cons op ops q i1 o1 q1 i2 o2 q2 :
  run_op op q = (i1, o1, q1) -> run_ops ops q1 = (i2, o2, q2) ->
  run_ops (op :: ops) q = (i1 ++ i2, o1 ++ o2, q2).
Proof. intros H1 H2. cbn [run_ops]. now rewrite H1, H2. Qed.

(** C39: the queue is not first in, first out across its deferred slot.  While a
    response is deferred, a later and smaller one that fits is still admitted
    to the queue and leaves before it: here the second response is deferred
    behind the first, and the third, admitted once the first has drained but
    before the next command is taken, is handed out first. *)
Theorem deferred_overtaken m c1 c2 c3 :
  0 < m -> is_flush c1 = false -> is_flush c3 = false ->
  0 <= streaming_command_bytes c1 <= STREAMING_RESPONSE_QUEUE_BYTE_CAP ->
  0 <= streaming_command_bytes c2 -> 0 <= streaming_command_bytes c3 ->
  STREAMING_RESPONSE_QUEUE_BYTE_CAP < streaming_command_bytes c1 + streaming_command_bytes c2
    <= STREAMING_RESPONSE_QUEUE_HARD_BYTE_CAP ->
  streaming_command_bytes c2 + streaming_command_bytes c3 <= STREAMING_RESPONSE_QUEUE_BYTE_CAP ->
  exists q, run_ops [OpExtend c1; OpPop; OpExtend c2; OpFinished; OpPop; OpFlushed; OpExtend c3; OpPop]
              (with_response_reserve m)
            = ([c1; Flush; c2; Flush; c3; Flush], [c1; Flush; c3], q)
    /\ contents q = [Flush; c2; Flush].
Proof.
  intros Hm F1 F3 B1 B2 B3 B12 B23. pose proof (reserve_at_least m Hm) as Hr.
  destruct hard_cap_fits as (Hcap & _ & Hu).
  unfold with_response_reserve in *. cbn [lq_response_reserve_commands] in Hr.
  set (rb := Z.min STREAM_CHUNK_SIZE _). set (rc := Z.min (saturating_add _ _ 2) _) in *.
  set (a := streaming_command_bytes c1) in *. set (b := streaming_command_bytes c2) in *.
  set (c := streaming_command_bytes c3) in *. clearbody rb rc.
  set (q0 := mkQueue [] 0 false false false false 0 false rb rc None 0 []).
  set (q1 := mkQueue [c1; Flush] a false false false false 0 false rb rc None 0 []).
  set (q2 := mkQueue [Flush] 0 true false false true a false rb rc None 0 []).
  set (q3 := mkQueue [Flush] 0 true false false true a false rb rc (Some [c2; Flush]) b []).
  set (q4 := mkQueue [Flush] 0 false false true false a false rb rc (Some [c2; Flush]) b []).
  set (q6 := mkQueue [] 0 false false false false 0 false rb rc (Some [c2; Flush]) b []).
  set (q7 := mkQueue [c3; Flush] c false false false false 0 false rb rc (Some [c2; Flush]) b []).
  set (q8 := mkQueue [Flush] 0 true false false true c false rb rc (Some [c2; Flush]) b []).
  assert (0 < a) as Ha by lia.
  assert (run_op (OpExtend c1) q0 = ([c1; Flush], [], q1)) as E1.
  { rewrite extend_fits; [|apply fits_intro; [vm_compute; discriminate|]].
    - unfold set_queue, q0, q1. cbn. unfold saturating_add. now rewrite Z.min_r by lia.
    - unfold retained_bytes, saturating_add, q0. cbn. lia. }
  assert (forall x n q, is_flush x = false -> streaming_command_bytes x = n ->
    run_op OpPop (mkQueue [x; Flush] n false false false false 0 false rb rc q b [])
    = ([], [x], mkQueue [Flush] 0 true false false true n false rb rc q b [])
    /\ run_op OpPop (mkQueue [x; Flush] n false false false false 0 false rb rc q 0 [])
    = ([], [x], mkQueue [Flush] 0 true false false true n false rb rc q 0 [])) as Hpop.
  { intros x n q Fx <-. split; cbn; rewrite Fx; unfold set_flight, set_queue, saturating_sub; cbn;
      now rewrite Z.sub_diag. }
  assert (run_op (OpExtend c2) q2 = ([c2; Flush], [], q3)) as E3.
  { destruct (defer_intro b q2) as (D1 & D2 & D3); auto; try (cbn; lia);
      try (unfold retained_bytes, saturating_add, q2; cbn; lia).
    rewrite (extend_defers c2 q2 D1 D2 D3). done. }
  assert (run_op (OpExtend c3) q6 = ([c3; Flush], [], q7)) as E7.
  { rewrite extend_fits; [|apply fits_intro; [vm_compute; discriminate|]].
    - unfold set_queue, q6, q7. cbn. unfold saturating_add. now rewrite Z.min_r by lia.
    - unfold retained_bytes, saturating_add, q6. cbn. lia. }
  exists q8. split; [|done].
  apply (run_ops_cons _ _ _ _ _ _ [c2; Flush; c3; Flush] [c1; Flush; c3] _ E1).
  apply (run_ops_cons _ _ _ _ [c1] q2 _ [Flush; c3] _ (proj2 (Hpop c1 a None F1 eq_refl))).
  apply (run_ops_cons _ _ _ _ _ _ [c3; Flush] [Flush; c3] _ E3).
  apply (run_ops_cons OpFinished _ q3 [] [] q4 [c3; Flush] [Flush; c3]); [done|].
  apply (run_ops_cons OpPop _ q4 [] [Flush] (set_queue [] 0 q4) [c3; Flush] [c3]); [done|].
  apply (run_ops_cons OpFlushed _ _ [] [] q6 [c3; Flush] [c3]); [done|].
  apply (run_ops_cons _ _ _ _ _ _ [] [c3] _ E7).
  apply (run_ops_cons _ [] _ [] [c3] q8 [] [] _ (proj1 (Hpop c3 c (Some [c2; Flush]) F3 eq_refl))). done.
Qed.

(** Responses of five, four and one mebibyte. *)
Lemma deferred_overtaken_witness :
  let c n := BytesResponse (bytes_response_new 2 1 (replicate (Z.to_nat n) 0) n STREAM_CHUNK_SIZE) in
  exists q, run_ops [OpExtend (c 5242880); OpPop; OpExtend (c 4194304); OpFinished; OpPop; OpFlushed;
                     OpExtend (c 1048576); OpPop] (with_response_reserve 10485760)
            = ([c 5242880; Flush; c 4194304; Flush; c 1048576; Flush], [c 5242880; Flush; c 1048576], q)
    /\ contents q = [Flush; c 4194304; Flush].
Proof.
  intros c. assert (forall n, 0 <= n -> streaming_command_bytes (c n) = n) as Hc.
  { intros n Hn. cbn [c streaming_command_bytes bytes_response_new br_retained_bytes].
    unfold len. rewrite length_replicate. lia. }
  assert (STREAMING_RESPONSE_QUEUE_BYTE_CAP = 8380416) as Eb by (vm_compute; done).
  assert (STREAMING_RESPONSE_QUEUE_HARD_BYTE_CAP = 142598144) as Eh by (vm_compute; done).
  apply (deferred_overtaken 10485760 (c 5242880) (c 4194304) (c 1048576)); rewrite ?Hc, ?Eb, ?Eh by lia;
    try done; lia.
Defined.


Lemma ask_answer_kept_witness :
  let c := BytesResponse (bytes_response_new 2 1 [7; 8; 9] 3 STREAM_CHUNK_SIZE) in
  is_full (with_response_reserve 10485760) = false
  /\ exists q', try_extend [c; Flush] (with_response_reserve 10485760) = (Ok tt, q').
Proof.
  intros c. split; [vm_compute; reflexivity|].
  apply (ask_answer_kept 10485760 (with_response_reserve 10485760) c);
    [reflexivity|apply star_refl|vm_compute; reflexivity|vm_compute; split; discriminate].
Defined.

(** ** The writer's sources take turns *)

(** How many steps the rotation takes to reach a source. *)
Definition distance (next : Z) (l : StreamingLane) : Z := (lane_index l - next) mod 4.

Fixpoint choices (readies : list (StreamingLane -> bool)) (next : Z) : list (option StreamingLane) :=
  match readies with
  | [] => []
  | ready :: readies => let '(lane, next) := choose ready next in lane :: choices readies next
  end.

Lemma lane_index_range l : 0 <= lane_index l < 4.
Proof. destruct l; cbn; lia. Qed.

Lemma lane_cases (P : StreamingLane -> Prop) :
  P LaneResumed -> P LaneLease -> P LaneLocal -> P LaneShared -> forall l, P l.
Proof. intros ???? []; auto. Qed.

Lemma choose_progress ready next l :
  0 <= next < 4 -> ready l = true ->
  (choose ready next).1 = Some l
  \/ (distance (choose ready next).2 l < distance next l /\ 0 <= (choose ready next).2 < 4).
Proof.
  intros Hn Hl. assert (next = 0 \/ next = 1 \/ next = 2 \/ next = 3) as [->|[->|[->| ->]]] by lia;
    destruct l;
    match goal with |- context [choose ready ?n] =>
      let c := eval vm_compute in (choose ready n) in change (choose ready n) with c end;
    destruct (ready LaneResumed) eqn:E0, (ready LaneLease) eqn:E1, (ready LaneLocal) eqn:E2,
      (ready LaneShared) eqn:E3; cbn; try congruence; auto;
    right; (split; [vm_compute; reflexivity|vm_compute; split; [discriminate|reflexivity]]).
Qed.

(** A source of the writer that stays ready is served within four
    selections, wherever the rotation stands and whatever the other sources do:
    none starves. *)
Theorem rotation_serves readies next l :
  0 <= next < 4 -> length readies = 4%nat -> Forall (fun ready => ready l = true) readies ->
  Some l ∈ choices readies next.
Proof.
  intros Hn Hlen Hr.
  assert (distance next l < Z.of_nat (length readies)) as Hd.
  { rewrite Hlen. unfold distance. pose proof (Z.mod_pos_bound (lane_index l - next) 4). lia. }
  clear Hlen. revert next Hn Hd. induction Hr as [|ready readies Hrl _ IH]; intros next Hn Hd.
  - cbn in Hd. unfold distance in Hd. pose proof (Z.mod_pos_bound (lane_index l - next) 4). lia.
  - cbn [choices]. destruct (choose_progress ready next l Hn Hrl) as [E|[Hlt Hn']];
      destruct (choose ready next) as [c next']; cbn [fst snd] in *.
    + subst c. left.
    + right. apply IH; [done|]. cbn [length] in Hd. lia.
Qed.

Lemma rotation_serves_witness :
  Some LaneShared ∈ choices (replicate 4 (fun l => match l with LaneLease => false | _ => true end)) 0.
Proof.
  apply (rotation_serves (replicate 4 (fun l => match l with LaneLease => false | _ => true end)) 0 LaneShared).
  - split; [discriminate|reflexivity].
  - reflexivity.
  - apply Forall_replicate. reflexivity.
Defined.
