(* ===== verification/StreamWriter.v ===== *)
(** * Writing streaming commands

    The frame writers of src/src/connection_pool/stream_writer.rs: one call
    offers the transport one bounded slice of the command at hand and records
    how much of it was accepted. *)

From S2P Require Import Prelude Types Framing Streaming WriterCommands.

Definition STREAM_WRITE_SLICE_BYTES : Z := 64 * 1024.

(** What the transport did with the slices it was offered: it takes at most
    what it is given. *)
Inductive WriteOutcome :=
  | Accepted (n : Z)
  | WriteFailed (kind : ErrorKind).

(** The bytes of the slices that reached the transport. *)
Definition write_vectored_once (o : WriteOutcome) (slices : list (list Z)) : Result (list Z) :=
  let offered := concat slices in
  if len offered =? 0 then Ok []
  else match o with
       | Accepted n => if n =? 0 then Err (Network WriteZero) else Ok (take (Z.to_nat n) offered)
       | WriteFailed kind => Err (Network kind)
       end.

(** [l[a..b]], out of range included. *)
Definition range_of (l : list Z) (a b : Z) : Result (list Z) :=
  if (0 <=? a) && (a <=? b) && (b <=? len l) then Ok (slice l (Z.to_nat a) (Z.to_nat b)) else Panic.

(** ** Responses over owned bytes *)
Definition set_frame (index offset : Z) (r : BytesStreamingResponse) : BytesStreamingResponse :=
  mkBytesResponse (br_stream_id r) (br_correlation_id r) (br_payload r) (br_payload_len r)
    (br_retained_bytes r) (br_chunk_size r) (br_chunk_count r) index offset.

(** The result: what was written, whether the response is complete, whether to
    let another source in. *)
Abbreviation SliceResult := (Result (list Z * bool * bool)).

(** The slices of one call: what is left of the header, then payload. *)
Definition header_offered (header : list Z) (offset budget : Z) : Z :=
  if offset <? len header then Z.min (len header - offset) budget else 0.

Definition bytes_slices (r : BytesStreamingResponse) (header : list Z) (budget : Z)
    : Result (list (list Z)) :=
  let offset := br_frame_offset r in
  let offered := header_offered header offset budget in
  let data_budget := budget - offered in
  h ← (if 0 <? offered then h ← range_of header offset (offset + offered); Ok [h] else Ok []);
  p ← (if 0 <? data_budget then
         let payload_offset :=
           saturating_add usize_max (frame_payload_start (br_chunk_size r) (br_frame_index r))
             (saturating_sub offset (len header)) in
         p ← range_of (br_payload r) payload_offset (payload_offset + data_budget); Ok [p]
       else Ok []);
  Ok (h ++ p).

(** After a write: the frame's progress, and the frame after it once done. *)
Definition bytes_advance (written total_len : Z) (r : BytesStreamingResponse)
    : BytesStreamingResponse * bool :=
  let offset := br_frame_offset r + written in
  if total_len <=? offset then (set_frame (br_frame_index r + 1) 0 r, true)
  else (set_frame (br_frame_index r) offset r, false).

(** The loop passes over frames already complete; [fuel] bounds the frames. *)
Fixpoint write_bytes_loop (fuel : nat) (o : WriteOutcome) (r : BytesStreamingResponse)
    : SliceResult * BytesStreamingResponse :=
  match fuel with
  | O => (Ok ([], true, false), r)
  | S fuel =>
      if br_chunk_count r <=? br_frame_index r then (Ok ([], true, false), r)
      else match bytes_frame_header r (br_frame_index r) with
      | Ok header =>
          let total_len :=
            len header + frame_payload_len (br_payload_len r) (br_chunk_size r) (br_frame_index r) in
          if total_len <=? br_frame_offset r
          then write_bytes_loop fuel o (set_frame (br_frame_index r + 1) 0 r)
          else
            let budget := Z.min STREAM_WRITE_SLICE_BYTES (total_len - br_frame_offset r) in
            match slices ← bytes_slices r header budget; write_vectored_once o slices with
            | Ok written =>
                let '(r, frame_complete) := bytes_advance (len written) total_len r in
                let complete := br_chunk_count r <=? br_frame_index r in
                (Ok (written, complete, frame_complete && negb complete), r)
            | Err e => (Err e, r)
            | Panic => (Panic, r)
            end
      | Err e => (Err e, r)
      | Panic => (Panic, r)
      end
  end.

Definition write_bytes_streaming_command_slice (o : WriteOutcome) (r : BytesStreamingResponse)
    : SliceResult * BytesStreamingResponse :=
  write_bytes_loop (S (Z.to_nat (br_chunk_count r - br_frame_index r))) o r.

(** ** Responses over a pooled payload *)
Definition pset_frame (index offset : Z) (r : PooledStreamingResponse) : PooledStreamingResponse :=
  mkPooledResponse (pr_stream_id r) (pr_correlation_id r) (pr_payload_len r) (pr_retained_bytes r)
    (pr_chunk_size r) (pr_chunk_count r) (pr_prefix r) (pr_prefix_len r) (pr_prefix_sent r)
    (pr_payload r) (pr_payload_remaining r) index offset.

Definition pset_sent (prefix_sent : Z) (payload : PooledPayload) (remaining : Z)
    (r : PooledStreamingResponse) : PooledStreamingResponse :=
  mkPooledResponse (pr_stream_id r) (pr_correlation_id r) (pr_payload_len r) (pr_retained_bytes r)
    (pr_chunk_size r) (pr_chunk_count r) (pr_prefix r) (pr_prefix_len r) prefix_sent
    payload remaining (pr_frame_index r) (pr_frame_offset r).

Definition invalid {A} : Result A := Err (Network InvalidData).

(** The data part: what is left of the prefix, then one run of the payload. *)
Definition pooled_data_slices (r : PooledStreamingResponse) (data_budget : Z)
    : Result (list (list Z)) :=
  '(pre, remaining) ←
    (if pr_prefix_sent r <? pr_prefix_len r then
       match pr_prefix r with
       | None => invalid
       | Some prefix =>
           let take := Z.min data_budget (saturating_sub (pr_prefix_len r) (pr_prefix_sent r)) in
           if 0 <? take
           then s ← range_of prefix (pr_prefix_sent r) (pr_prefix_sent r + take);
                Ok ([s], data_budget - take)
           else Ok ([], data_budget)
       end
     else Ok ([], data_budget));
  if 0 <? remaining then
    if pr_payload_remaining r =? 0 then invalid
    else
      let chunk := pp_chunk (pr_payload r) in
      let n := Z.min (Z.min remaining (pr_payload_remaining r)) (len chunk) in
      if n =? 0 then invalid else Ok (pre ++ [take (Z.to_nat n) chunk])
  else Ok pre.

Definition pooled_slices (r : PooledStreamingResponse) (header : list Z) (budget : Z)
    : Result (list (list Z)) :=
  let offset := pr_frame_offset r in
  let offered := header_offered header offset budget in
  let data_budget := budget - offered in
  h ← (if 0 <? offered then h ← range_of header offset (offset + offered); Ok [h] else Ok []);
  p ← (if 0 <? data_budget then pooled_data_slices r data_budget else Ok []);
  Ok (h ++ p).

(** The accounting of a write: prefix bytes, then payload bytes. *)
Definition pooled_sent (written offered : Z) (r : PooledStreamingResponse)
    : Result PooledStreamingResponse * PooledStreamingResponse :=
  let data_written := saturating_sub written offered in
  let prefix_written :=
    Z.min data_written (saturating_sub (pr_prefix_len r) (pr_prefix_sent r)) in
  let prefix_sent := saturating_add usize_max (pr_prefix_sent r) prefix_written in
  let r := pset_sent prefix_sent (pr_payload r) (pr_payload_remaining r) r in
  let payload_written := saturating_sub data_written prefix_written in
  if pr_payload_remaining r <? payload_written then (invalid, r)
  else if 0 <? payload_written then
    match pp_advance payload_written (pr_payload r) with
    | Ok payload =>
        let r := pset_sent prefix_sent payload (pr_payload_remaining r - payload_written) r in
        (Ok r, r)
    | Err e => (Err e, r)
    | Panic => (Panic, r)
    end
  else (Ok r, r).

Definition pooled_advance (written total_len : Z) (r : PooledStreamingResponse)
    : PooledStreamingResponse * bool :=
  let offset := pr_frame_offset r + written in
  if total_len <=? offset then (pset_frame (pr_frame_index r + 1) 0 r, true)
  else (pset_frame (pr_frame_index r) offset r, false).

Fixpoint write_pooled_loop (fuel : nat) (o : WriteOutcome) (r : PooledStreamingResponse)
    : SliceResult * PooledStreamingResponse :=
  match fuel with
  | O => (Ok ([], true, false), r)
  | S fuel =>
      if pr_chunk_count r <=? pr_frame_index r then (Ok ([], true, false), r)
      else match pooled_frame_header r (pr_frame_index r) with
      | Ok header =>
          let total_len :=
            len header + frame_payload_len (pr_payload_len r) (pr_chunk_size r) (pr_frame_index r) in
          if total_len <=? pr_frame_offset r
          then write_pooled_loop fuel o (pset_frame (pr_frame_index r + 1) 0 r)
          else
            let budget := Z.min STREAM_WRITE_SLICE_BYTES (total_len - pr_frame_offset r) in
            match slices ← pooled_slices r header budget; write_vectored_once o slices with
            | Ok written =>
                match pooled_sent (len written) (header_offered header (pr_frame_offset r) budget) r with
                | (Ok r, _) =>
                    let '(r, frame_complete) := pooled_advance (len written) total_len r in
                    let complete := pr_chunk_count r <=? pr_frame_index r in
                    if complete && (negb (pr_prefix_sent r =? pr_prefix_len r)
                                    || negb (pr_payload_remaining r =? 0))
                    then (invalid, r)
                    else (Ok (written, complete, frame_complete && negb complete), r)
                | (Err e, r) => (Err e, r)
                | (Panic, r) => (Panic, r)
                end
            | Err e => (Err e, r)
            | Panic => (Panic, r)
            end
      | Err e => (Err e, r)
      | Panic => (Panic, r)
      end
  end.

Definition write_pooled_streaming_command_slice (o : WriteOutcome) (r : PooledStreamingResponse)
    : SliceResult * PooledStreamingResponse :=
  write_pooled_loop (S (Z.to_nat (pr_chunk_count r - pr_frame_index r))) o r.

(** ** Fixed headers and inline frames *)

(** What is left of a header and a payload, within the budget. *)
Definition vectored_slices (header payload : list Z) (offset budget : Z) : Result (list (list Z)) :=
  if offset <? len header then
    let header_end := Z.min (offset + budget) (len header) in
    let header_bytes := header_end - offset in
    h ← range_of header offset header_end;
    if header_bytes <? budget
    then p ← range_of payload 0 (budget - header_bytes); Ok [h; p]
    else Ok [h]
  else
    let payload_offset := offset - len header in
    p ← range_of payload payload_offset (payload_offset + budget); Ok [p].

Definition write_inline_lease_slice (o : WriteOutcome) (header payload : list Z) (offset : Z)
    : Result (list Z * bool) * Z :=
  let total_len := saturating_add usize_max (len header) (len payload) in
  if total_len <=? offset then (Ok ([], true), offset)
  else
    let budget := Z.min STREAM_WRITE_SLICE_BYTES (total_len - offset) in
    match slices ← vectored_slices header payload offset budget; write_vectored_once o slices with
    | Ok written =>
        let offset := offset + len written in
        (Ok (written, total_len <=? offset), offset)
    | Err e => (Err e, offset)
    | Panic => (Panic, offset)
    end.

Definition write_fixed_lease_slice (o : WriteOutcome) (bytes : list Z) (offset : Z)
    : Result (list Z * bool) * Z :=
  if len bytes <=? offset then (Ok ([], true), offset)
  else
    let end_ := Z.min (offset + STREAM_WRITE_SLICE_BYTES) (len bytes) in
    match s ← range_of bytes offset end_; write_vectored_once o [s] with
    | Ok written =>
        let offset := offset + len written in
        (Ok (written, len bytes <=? offset), offset)
    | Err e => (Err e, offset)
    | Panic => (Panic, offset)
    end.

(** ** Leased responses *)
Definition lease_stream_chunk_size (max_message_size : Z) : Result Z :=
  let max_chunk := saturating_sub max_message_size STREAM_REQUEST_START_HEADER_LEN in
  if max_chunk =? 0 then Err InvalidConfig else Ok (Z.min STREAM_CHUNK_SIZE max_chunk).

(** The counter's compare-exchange loop as one atomic step. *)
Definition allocate_lease_stream_id (next_stream_id : Z) : Result Z * Z :=
  if next_stream_id =? u32_max then (Err Shutdown, next_stream_id)
  else match checked_add u32_max next_stream_id 2 with
       | Some next => (Ok next_stream_id, next)
       | None => (Err Shutdown, next_stream_id)
       end.

(** What the writer reports to the reply slot. *)
Inductive LeaseNote := NormalOutcome | TerminalOutcome | AbortNote | Finished.

Record LeaseWriter := mkLeaseWriter {
  lw_stage : LeasedResponseStage;
  lw_offset : Z;
  lw_next_stream_id : Z;
  lw_notes : list LeaseNote;
}.

Definition lw_goto (stage : LeasedResponseStage) (offset : Z) (notes : list LeaseNote)
    (w : LeaseWriter) : LeaseWriter :=
  mkLeaseWriter stage offset (lw_next_stream_id w) (lw_notes w ++ notes).

Definition terminal_stage (record : LeaseRecord) : Result LeasedResponseStage :=
  header ← expect (try_write_ask_response_header MResponse (lr_correlation_id record)
                     (len (lr_terminal_payload record)));
  Ok (WritingTerminal header (lr_terminal_payload record)).

(** The choice a reserved slot makes, and the stream counter after it. *)
Definition lease_select (record : LeaseRecord) (cancelled : bool)
    (streaming_threshold max_message_size next_stream_id : Z)
    : Result LeasedResponseStage * Z :=
  if cancelled then (terminal_stage record, next_stream_id)
  else match lr_normal_payload record with
  | None => (terminal_stage record, next_stream_id)
  | Some payload =>
      if (streaming_threshold <? len payload)
         || (saturating_sub max_message_size ASK_RESPONSE_HEADER_LEN <? len payload)
      then
        let chunk_size := lease_stream_chunk_size max_message_size in
        let '(stream_id, next_stream_id) := allocate_lease_stream_id next_stream_id in
        (match chunk_size, stream_id with
         | Ok chunk_size, Ok stream_id =>
             Ok (WritingNormal (bytes_response_new stream_id (lr_correlation_id record) payload
                                  (len payload) chunk_size))
         | _, _ => terminal_stage record
         end, next_stream_id)
      else
        (header ← expect (try_write_ask_response_header MResponse (lr_correlation_id record)
                            (len payload));
         Ok (WritingInline header payload), next_stream_id)
  end.

(** One slice of a leased response.  [cancelled] is what the flag reads before
    the write and [cancelled_after] what it reads after it; [o] is also the
    outcome of a flush. *)
Definition lease_moves (w : LeaseWriter) (stage : Result LeasedResponseStage)
    : SliceResult * LeaseWriter :=
  match stage with
  | Ok stage => (Ok ([], false, false), lw_goto stage 0 [] w)
  | Err e => (Err e, w)
  | Panic => (Panic, w)
  end.

Definition write_lease_normal (o : WriteOutcome) (record : LeaseRecord)
    (cancelled cancelled_after : bool) (normal : BytesStreamingResponse) (w : LeaseWriter)
    : SliceResult * LeaseWriter :=
  let frame_started := negb (br_frame_offset normal =? 0) in
  let final_frame :=
    br_chunk_count normal <=? saturating_add usize_max (br_frame_index normal) 1 in
  let abort := header ← write_stream_abort_header (br_stream_id normal) 0; Ok (WritingAbort header) in
  if cancelled && negb frame_started then
    lease_moves w (if br_frame_index normal =? 0 then terminal_stage record else abort)
  else match write_bytes_streaming_command_slice o normal with
  | (Ok (written, complete, frame_boundary), normal') =>
      let offset := lw_offset w + len written in
      let notes := if (0 <? len written) && final_frame then [NormalOutcome] else [] in
      if complete then
        (Ok (written, false, false),
         lw_goto Flushing offset (notes ++ if len written =? 0 then [NormalOutcome] else []) w)
      else if cancelled_after && frame_boundary && negb final_frame then
        match abort with
        | Ok stage => (Ok (written, false, false), lw_goto stage 0 notes w)
        | Err e => (Err e, w)
        | Panic => (Panic, w)
        end
      else (Ok (written, false, frame_boundary), lw_goto (WritingNormal normal') offset notes w)
  | (Err e, normal') => (Err e, lw_goto (WritingNormal normal') (lw_offset w) [] w)
  | (Panic, normal') => (Panic, lw_goto (WritingNormal normal') (lw_offset w) [] w)
  end.

Definition write_leased_response_command_slice (o : WriteOutcome) (record : LeaseRecord)
    (cancelled cancelled_after : bool) (streaming_threshold max_message_size : Z) (w : LeaseWriter)
    : SliceResult * LeaseWriter :=
  match lw_stage w with
  | Reserved =>
      let '(stage, next_stream_id) :=
        lease_select record cancelled streaming_threshold max_message_size (lw_next_stream_id w) in
      lease_moves (mkLeaseWriter Reserved 0 next_stream_id (lw_notes w)) stage
  | WritingInline header payload =>
      if cancelled && (lw_offset w =? 0) then lease_moves w (terminal_stage record)
      else match write_inline_lease_slice o header payload (lw_offset w) with
      | (Ok (written, complete), offset) =>
          (Ok (written, false, false),
           lw_goto (if complete then Flushing else lw_stage w) offset
             (if (0 <? len written) || complete then [NormalOutcome] else []) w)
      | (Err e, offset) => (Err e, lw_goto (lw_stage w) offset [] w)
      | (Panic, offset) => (Panic, lw_goto (lw_stage w) offset [] w)
      end
  | WritingNormal normal => write_lease_normal o record cancelled cancelled_after normal w
  | WritingAbort header =>
      match write_fixed_lease_slice o header (lw_offset w) with
      | (Ok (written, true), offset) =>
          match terminal_stage record with
          | Ok stage => (Ok (written, false, false), lw_goto stage 0 [AbortNote] w)
          | Err e => (Err e, w)
          | Panic => (Panic, w)
          end
      | (Ok (written, false), offset) => (Ok (written, false, false), lw_goto (lw_stage w) offset [] w)
      | (Err e, offset) => (Err e, lw_goto (lw_stage w) offset [] w)
      | (Panic, offset) => (Panic, lw_goto (lw_stage w) offset [] w)
      end
  | WritingTerminal header payload =>
      match write_inline_lease_slice o header payload (lw_offset w) with
      | (Ok (written, complete), offset) =>
          (Ok (written, false, false),
           lw_goto (if complete then Flushing else lw_stage w) offset
             (if complete then [TerminalOutcome] else []) w)
      | (Err e, offset) => (Err e, lw_goto (lw_stage w) offset [] w)
      | (Panic, offset) => (Panic, lw_goto (lw_stage w) offset [] w)
      end
  | Flushing =>
      match o with
      | Accepted _ => (Ok ([], true, false), lw_goto LeaseComplete (lw_offset w) [Finished] w)
      | WriteFailed kind => (Err (Network kind), w)
      end
  | LeaseComplete => (Ok ([], true, false), lw_goto LeaseComplete (lw_offset w) [Finished] w)
  end.

(** ** Every command *)
Record PendingStreamingCommand := mkPending {
  pc_command : StreamingCommand;
  pc_offset : Z;
  pc_from_shared_queue : bool;
  pc_local_response : bool;
  pc_yield_after_frame : bool;
}.

Definition pending_shared (c : StreamingCommand) := mkPending c 0 true false false.
Definition pending_local (c : StreamingCommand) := mkPending c 0 false false false.
Definition pending_local_response (c : StreamingCommand) := mkPending c 0 false true false.

Definition pc_set (c : StreamingCommand) (offset : Z) (yield : bool)
    (p : PendingStreamingCommand) : PendingStreamingCommand :=
  mkPending c offset (pc_from_shared_queue p) (pc_local_response p) yield.

(** The slices of a list of buffers. *)
Definition MAX_IOV : Z := 64.

Fixpoint chunk_slices (chunks : list (list Z)) (skip remaining count : Z) : list (list Z) :=
  match chunks with
  | [] => []
  | chunk :: chunks =>
      if len chunk <=? skip then chunk_slices chunks (skip - len chunk) remaining count
      else
        let n := Z.min remaining (len chunk - skip) in
        slice chunk (Z.to_nat skip) (Z.to_nat (skip + n))
        :: if (remaining - n =? 0) || (count + 1 =? MAX_IOV) then []
           else chunk_slices chunks 0 (remaining - n) (count + 1)
  end.

(** What a command that is not a response offers, and its whole length. *)
Definition command_slices (c : StreamingCommand) (offset : Z) : Result (list (list Z) * Z) :=
  match c with
  | WriteBytes data =>
      s ← range_of data offset (Z.min (offset + STREAM_WRITE_SLICE_BYTES) (len data));
      Ok ([s], len data)
  | Abort stream_id reason =>
      header ← write_stream_abort_header stream_id reason;
      s ← range_of header offset (Z.min (offset + STREAM_WRITE_SLICE_BYTES) (len header));
      Ok ([s], len header)
  | VectoredWrite header payload =>
      let total_len := len header + len payload in
      s ← vectored_slices header payload offset (Z.min STREAM_WRITE_SLICE_BYTES (total_len - offset));
      Ok (s, total_len)
  | OwnedChunks chunks =>
      let total_len := foldr Z.add 0 (len <$> chunks) in
      Ok (chunk_slices chunks offset (Z.min STREAM_WRITE_SLICE_BYTES (total_len - offset)) 0, total_len)
  | _ => Panic
  end.

Definition plain_len (c : StreamingCommand) : Z :=
  match c with
  | WriteBytes data => len data
  | VectoredWrite header payload => len header + len payload
  | OwnedChunks chunks => foldr Z.add 0 (len <$> chunks)
  | Abort _ _ => FRAME_HEADER_LEN STREAM_DATA_HEADER_LEN
  | _ => 0
  end.

(** Result: the bytes written and whether the command is complete, with the
    command and the stream counter after the call. *)
Definition write_streaming_command_slice_with_context (o : WriteOutcome)
    (cancelled cancelled_after : bool) (streaming_threshold max_message_size next_stream_id : Z)
    (p : PendingStreamingCommand)
    : Result (list Z * bool) * PendingStreamingCommand * Z :=
  let p := pc_set (pc_command p) (pc_offset p) false p in
  let offset := pc_offset p in
  match pc_command p with
  | LeasedResponse stage record =>
      let '(res, w) := write_leased_response_command_slice o record cancelled cancelled_after
                         streaming_threshold max_message_size
                         (mkLeaseWriter stage offset next_stream_id []) in
      let done yield := pc_set (LeasedResponse (lw_stage w) record) (lw_offset w) yield p in
      (match res with
       | Ok (written, complete, yield) => (Ok (written, complete), done yield)
       | Err e => (Err e, done false)
       | Panic => (Panic, done false)
       end, lw_next_stream_id w)
  | BytesResponse r =>
      let '(res, r) := write_bytes_streaming_command_slice o r in
      (match res with
       | Ok (written, complete, yield) =>
           (Ok (written, complete), pc_set (BytesResponse r) (offset + len written) yield p)
       | Err e => (Err e, pc_set (BytesResponse r) offset false p)
       | Panic => (Panic, pc_set (BytesResponse r) offset false p)
       end, next_stream_id)
  | PooledResponse r =>
      let '(res, r) := write_pooled_streaming_command_slice o r in
      (match res with
       | Ok (written, complete, yield) =>
           (Ok (written, complete), pc_set (PooledResponse r) (offset + len written) yield p)
       | Err e => (Err e, pc_set (PooledResponse r) offset false p)
       | Panic => (Panic, pc_set (PooledResponse r) offset false p)
       end, next_stream_id)
  | Flush =>
      (match o with
       | Accepted _ => (Ok ([], true), p)
       | WriteFailed kind => (Err (Network kind), p)
       end, next_stream_id)
  | c =>
      if plain_len c <=? offset then (Ok ([], true), p, next_stream_id)
      else match '(slices, total_len) ← command_slices c offset;
                 written ← write_vectored_once o slices; Ok (written, total_len) with
           | Ok (written, total_len) =>
               (Ok (written, offset + len written =? total_len),
                pc_set c (offset + len written) false p, next_stream_id)
           | Err e => (Err e, p, next_stream_id)
           | Panic => (Panic, p, next_stream_id)
           end
  end.

(** Where a command goes after a slice: away, to the back of the yielded ones,
    or into the slot of the command at hand; a shared one that completes frees
    a place of the shared queue. *)
Definition finish_streaming_command_slice_owned (p : PendingStreamingCommand) (complete : bool)
    (yielded : list PendingStreamingCommand) (pending : option PendingStreamingCommand)
    : list PendingStreamingCommand * option PendingStreamingCommand * bool :=
  if complete then (yielded, pending, pc_from_shared_queue p)
  else if pc_yield_after_frame p && negb (pc_from_shared_queue p)
  then (yielded ++ [p], pending, false)
  else (yielded, Some p, false).
