(* ===== verification/SliceWriter.v ===== *)
(** * Partial writes

    What a writer of slices promises the loop that drives it, whatever the
    transport accepts of each slice, and the responses over owned bytes as such
    a writer. *)

From S2P Require Import Prelude Types Framing Streaming WriterCommands StreamWriter.

(** ** Lists and ranges *)
Lemma len_take {A} (l : list A) n : 0 <= n -> len (take (Z.to_nat n) l) = Z.min n (len l).
Proof. intros H. unfold len. rewrite length_take. lia. Qed.

Lemma len_drop {A} (l : list A) n : 0 <= n -> len (drop (Z.to_nat n) l) = Z.max 0 (len l - n).
Proof. intros H. unfold len. rewrite length_drop. lia. Qed.

Lemma len_0 {A} (l : list A) : len l = 0 -> l = [].
Proof. unfold len. destruct l; [done|cbn; lia]. Qed.

Lemma len_pos {A} (l : list A) : l <> [] -> 0 < len l.
Proof. unfold len. destruct l; [done|cbn; lia]. Qed.

Lemma drop_drop_Z {A} (l : list A) a b :
  0 <= a -> 0 <= b -> drop (Z.to_nat b) (drop (Z.to_nat a) l) = drop (Z.to_nat (a + b)) l.
Proof. intros Ha Hb. rewrite drop_drop. f_equal. lia. Qed.

Lemma range_of_Ok l a b :
  0 <= a <= b -> b <= len l -> range_of l a b = Ok (take (Z.to_nat (b - a)) (drop (Z.to_nat a) l)).
Proof.
  intros H1 H2. unfold range_of. rewrite !(proj2 (Z.leb_le _ _)) by lia. cbn [andb].
  unfold slice. do 2 f_equal. lia.
Qed.

(** A window over the concatenation of two lists. *)
Lemma take_drop_app_l {A} (h p : list A) a n :
  0 <= a -> a + n <= len h ->
  take (Z.to_nat n) (drop (Z.to_nat a) (h ++ p)) = take (Z.to_nat n) (drop (Z.to_nat a) h).
Proof.
  intros Ha Hn. destruct (Z.ltb_spec n 0); [now replace (Z.to_nat n) with 0%nat by lia|].
  unfold len in *. rewrite drop_app_le by lia. rewrite take_app_le; [done|]. rewrite length_drop. lia.
Qed.

Lemma take_drop_app_r {A} (h p : list A) a n :
  len h <= a ->
  take (Z.to_nat n) (drop (Z.to_nat a) (h ++ p)) = take (Z.to_nat n) (drop (Z.to_nat (a - len h)) p).
Proof.
  intros Ha. unfold len in *. rewrite drop_app_ge by lia. do 2 f_equal. lia.
Qed.

Lemma take_drop_app_both {A} (h p : list A) a n :
  0 <= a <= len h -> len h - a <= n ->
  take (Z.to_nat n) (drop (Z.to_nat a) (h ++ p))
  = drop (Z.to_nat a) h ++ take (Z.to_nat (n - (len h - a))) p.
Proof.
  intros Ha Hn. unfold len in *. rewrite drop_app_le by lia. rewrite take_app_ge by (rewrite length_drop; lia).
  rewrite length_drop. do 2 f_equal. lia.
Qed.

(** ** One write *)
Definition refused (o : WriteOutcome) : bool :=
  match o with Accepted n => n =? 0 | WriteFailed _ => true end.

Definition accepts (o : WriteOutcome) : Prop := match o with Accepted n => 0 < n | _ => False end.

(** The transport is offered a run of the text from [offset] on. *)
Definition offers (text : list Z) (offset : Z) (slices : list (list Z)) : Prop :=
  exists b, 0 < b /\ offset + b <= len text
    /\ concat slices = take (Z.to_nat b) (drop (Z.to_nat offset) text).

Lemma offer_accepted text offset slices o :
  0 <= offset -> offers text offset slices -> accepts o ->
  exists w, write_vectored_once o slices = Ok w /\ 0 < len w /\ offset + len w <= len text
    /\ drop (Z.to_nat offset) text = w ++ drop (Z.to_nat (offset + len w)) text.
Proof.
  intros H0 (b & Hb & Hfit & Hc) Ho. destruct o as [n|]; [|done]. cbn in Ho.
  unfold write_vectored_once. rewrite Hc, take_take.
  rewrite len_take, len_drop by lia. rewrite (proj2 (Z.eqb_neq _ 0)), (proj2 (Z.eqb_neq n 0)) by lia.
  set (m := Z.min n b). replace (Z.to_nat n `min` Z.to_nat b)%nat with (Z.to_nat m) by lia.
  assert (len (take (Z.to_nat m) (drop (Z.to_nat offset) text)) = m) as Hm
    by (rewrite len_take, len_drop by lia; lia).
  eexists. split; [reflexivity|]. rewrite Hm. split_and!; [lia..|].
  rewrite <- drop_drop_Z by lia. now rewrite take_drop.
Qed.

Lemma offer_refused text offset slices o :
  0 <= offset -> offers text offset slices -> refused o = true ->
  exists e, write_vectored_once o slices = Err e.
Proof.
  intros H0 (b & Hb & Hfit & Hc) Ho. unfold write_vectored_once. rewrite Hc, len_take, len_drop by lia.
  rewrite (proj2 (Z.eqb_neq _ 0)) by lia. destruct o; cbn in Ho; [rewrite Ho|]; eauto.
Qed.

Lemma write_vectored_concat o l1 l2 :
  concat l1 = concat l2 -> write_vectored_once o l1 = write_vectored_once o l2.
Proof. intros E. unfold write_vectored_once. now rewrite E. Qed.

Lemma write_vectored_len o slices w :
  write_vectored_once o slices = Ok w -> len w <= len (concat slices).
Proof.
  unfold write_vectored_once. pose proof (len_nonneg (concat slices)).
  destruct (_ =? 0); [now intros [= <-]|]. destruct o as [n|]; [|done]. destruct (n =? 0); [done|].
  intros [= <-]. unfold len. rewrite length_take. lia.
Qed.

(** ** The promise *)
Class SliceWriter (W : Type) := {
  sw_slice : WriteOutcome -> W -> Result (list Z * bool) * W;
  sw_remaining : W -> list Z;
  sw_ok : W -> Prop;
}.

(** With nothing left a slice reports completion.  Otherwise a slice the
    transport takes anything of moves a run of the remaining text to it, and
    reports completion exactly with the last byte; one it refuses is an error
    that loses nothing. *)
Class SliceWriterLaws (W : Type) `{SliceWriter W} := {
  sw_done o w : sw_ok w -> sw_remaining w = [] ->
    exists w', sw_slice o w = (Ok ([], true), w') /\ sw_ok w' /\ sw_remaining w' = [];
  sw_accepted o w : sw_ok w -> sw_remaining w <> [] -> accepts o ->
    exists written w', sw_slice o w = (Ok (written, bool_decide (sw_remaining w' = [])), w')
      /\ sw_ok w' /\ written <> [] /\ sw_remaining w = written ++ sw_remaining w';
  sw_refused o w : sw_ok w -> sw_remaining w <> [] -> refused o = true ->
    exists e w', sw_slice o w = (Err e, w') /\ sw_ok w' /\ sw_remaining w' = sw_remaining w;
}.

(** The loop: slices until the command is complete or the transport fails. *)
Section Drive.
Context {W : Type} `{SliceWriterLaws W}.

Fixpoint drive (os : list WriteOutcome) (w : W) : list Z * Result bool * W :=
  match os with
  | [] => ([], Ok false, w)
  | o :: os =>
      match sw_slice o w with
      | (Ok (written, true), w) => (written, Ok true, w)
      | (Ok (written, false), w) =>
          let '(rest, res, w) := drive os w in (written ++ rest, res, w)
      | (Err e, w) => ([], Err e, w)
      | (Panic, w) => ([], Panic, w)
      end
  end.

(** Whatever happens, what was written and what remains is the text; the
    command is never reported complete early, and never panics. *)
Lemma drive_sound os : forall w, sw_ok w -> Forall (fun o => accepts o \/ refused o = true) os ->
  let '(out, res, w') := drive os w in
  sw_ok w' /\ out ++ sw_remaining w' = sw_remaining w
  /\ (res = Ok true -> sw_remaining w' = []) /\ res <> Panic.
Proof.
  induction os as [|o os IH]; intros w Hw Hos; cbn [drive]; [done|].
  apply Forall_cons_1 in Hos as [Ho Hos]. destruct (decide (sw_remaining w = [])) as [E|E].
  - destruct (sw_done o w Hw E) as (w' & -> & H1 & H2). split_and!; auto; cbn; congruence.
  - destruct Ho as [Ho|Ho].
    + destruct (sw_accepted o w Hw E Ho) as (wr & w1 & -> & H1 & _ & H2).
      destruct (bool_decide_reflect (sw_remaining w1 = [])) as [E1|E1].
      * split_and!; auto; done.
      * specialize (IH w1 H1 Hos). destruct (drive os w1) as [[rest res] w2].
        destruct IH as (I1 & I2 & I3 & I4). split_and!; auto. now rewrite <- app_assoc, I2.
    + destruct (sw_refused o w Hw E Ho) as (e & w1 & -> & H1 & H2). split_and!; auto; done.
Qed.

(** A transport that takes something each time is handed the whole text. *)
Lemma drive_complete os : forall w, sw_ok w -> Forall accepts os -> 1 <= len os ->
  len (sw_remaining w) <= len os ->
  exists w', drive os w = (sw_remaining w, Ok true, w') /\ sw_ok w' /\ sw_remaining w' = [].
Proof.
  induction os as [|o os IH]; intros w Hw Hos H1 Hl; [done|]. cbn [drive].
  apply Forall_cons_1 in Hos as [Ho Hos]. destruct (decide (sw_remaining w = [])) as [E|E].
  - destruct (sw_done o w Hw E) as (w' & -> & H2 & H3). rewrite E. eauto.
  - destruct (sw_accepted o w Hw E Ho) as (wr & w1 & -> & H2 & H3 & H4).
    apply len_pos in H3. rewrite H4 in Hl |- *. rewrite len_app in Hl.
    change (len (o :: os)) with (Z.of_nat (S (length os))) in Hl.
    destruct (bool_decide_reflect (sw_remaining w1 = [])) as [E1|E1].
    + rewrite E1, app_nil_r. eauto.
    + apply len_pos in E1. destruct (IH w1 H2 Hos) as (w' & -> & H5 & H6); [unfold len in *; lia..|]. eauto.
Qed.
End Drive.
