(* ===== verification/ResponseWriter.v ===== *)
(** * Responses as slice writers

    The frames of a response cut lazily by the writer, and that any schedule of
    partial writes puts exactly those frames on the wire. *)

From S2P Require Import Prelude Types Framing FrameParser Streaming WriterCommands StreamWriter SliceWriter.

(** ** The text of a response *)
Definition frame_header_len (i : Z) : Z :=
  if i =? 0 then FRAME_HEADER_LEN STREAM_RESPONSE_START_HEADER_LEN
  else FRAME_HEADER_LEN STREAM_DATA_HEADER_LEN.

Definition frame_payload (r : BytesStreamingResponse) (i : Z) : list Z :=
  take (Z.to_nat (frame_payload_len (br_payload_len r) (br_chunk_size r) i))
    (drop (Z.to_nat (frame_payload_start (br_chunk_size r) i)) (br_payload r)).

Definition frame_text (r : BytesStreamingResponse) (i : Z) : list Z :=
  match bytes_frame_header r i with Ok h => h ++ frame_payload r i | _ => [] end.

(** The frames from [i] on, [n] of them. *)
Definition texts (r : BytesStreamingResponse) (i n : Z) : list Z :=
  concat (frame_text r <$> seqZ i n).

Definition bytes_remaining (r : BytesStreamingResponse) : list Z :=
  drop (Z.to_nat (br_frame_offset r))
    (texts r (br_frame_index r) (br_chunk_count r - br_frame_index r)).

Record bytes_ok (r : BytesStreamingResponse) : Prop := {
  bo_len : br_payload_len r = len (br_payload r);
  bo_size : len (br_payload r) <= u32_max;
  bo_chunk : 0 < br_chunk_size r <= CONTROL_BODY_LEN_MASK - 12;
  bo_count : br_chunk_count r = response_chunk_count (br_payload_len r) (br_chunk_size r);
  bo_index : 0 <= br_frame_index r <= br_chunk_count r;
  bo_offset : 0 <= br_frame_offset r;
  bo_inside : br_frame_index r < br_chunk_count r ->
    br_frame_offset r < frame_header_len (br_frame_index r)
      + frame_payload_len (br_payload_len r) (br_chunk_size r) (br_frame_index r);
  bo_end : br_frame_index r = br_chunk_count r -> br_frame_offset r = 0;
}.

(** ** The frames partition the payload *)
Section Cut.
Context (l k : Z) (Hl : 0 <= l <= u32_max) (Hk : 0 < k <= CONTROL_BODY_LEN_MASK - 12).

Lemma chunk_count_spec :
  response_chunk_count l k = if l =? 0 then 1 else div_ceil l k.
Proof using Hl Hk.
  unfold response_chunk_count. destruct (Z.eqb_spec l 0); [done|].
  change CONTROL_BODY_LEN_MASK with 134217727 in Hk. unfold checked_div.
  rewrite (proj2 (Z.eqb_neq k 0)) by lia. unfold saturating_sub. rewrite Z.max_r by lia.
  rewrite saturating_add_exact by (unfold u32_max, usize_max, u64_max in *; lia). cbn.
  pose proof (div_ceil_spec l k ltac:(lia) ltac:(lia)). symmetry.
  apply Z.div_unique with (l + (k - 1) - k * div_ceil l k); lia.
Qed.

Lemma chunk_count_pos : 1 <= response_chunk_count l k.
Proof using Hl Hk.
  rewrite chunk_count_spec. destruct (Z.eqb_spec l 0); [lia|].
  pose proof (div_ceil_lt_iff l k 0). lia.
Qed.

Lemma frame_inside i :
  0 <= i < response_chunk_count l k ->
  frame_payload_start k i = i * k
  /\ frame_payload_len l k i = Z.min (l - i * k) k /\ 0 <= i * k <= l.
Proof using Hl Hk.
  rewrite chunk_count_spec. intros Hi.
  assert (0 <= i * k <= l) as Hr.
  { destruct (Z.eqb_spec l 0); [nia|]. assert (i * k < l) by (apply div_ceil_lt_iff; lia). nia. }
  assert (i <> 0 -> saturating_add usize_max k (saturating_mul usize_max (saturating_sub i 1) k) = i * k) as Hc.
  { intros E. unfold saturating_mul, saturating_add, saturating_sub, u32_max, usize_max, u64_max in *.
    rewrite Z.max_r, (Z.min_r _ ((i - 1) * k)) by nia. nia. }
  unfold frame_payload_start, frame_payload_len, saturating_sub in *.
  destruct (Z.eqb_spec i 0) as [->|E]; [lia|]. rewrite Hc by done. lia.
Qed.
End Cut.

Section Frame.
Context (r : BytesStreamingResponse) (Hr : bytes_ok r).

Lemma header_written i :
  0 <= i < br_chunk_count r ->
  exists h, bytes_frame_header r i = Ok h /\ len h = frame_header_len i.
Proof using Hr.
  intros Hi. pose proof Hr as [H1 H2 H3 H4 _ _ _ _]. rewrite H1 in *.
  pose proof (len_nonneg (br_payload r)). rewrite H4 in Hi.
  destruct (frame_inside (len (br_payload r)) (br_chunk_size r) ltac:(lia) H3 i Hi) as (_ & Hn & Hr0).
  unfold bytes_frame_header, response_frame_header. rewrite H1, Hn. unfold frame_header_len.
  destruct (i =? 0); [rewrite stream_response_start_layout|rewrite stream_data_layout];
    try (unfold STREAM_RESPONSE_START_HEADER_LEN, STREAM_DATA_HEADER_LEN; lia);
    (eexists; split; [reflexivity|]; reflexivity).
Qed.

Lemma len_frame_payload i :
  0 <= i < br_chunk_count r ->
  len (frame_payload r i) = frame_payload_len (br_payload_len r) (br_chunk_size r) i.
Proof using Hr.
  intros Hi. pose proof Hr as [H1 H2 H3 H4 _ _ _ _]. rewrite H1, ?H4 in *.
  pose proof (len_nonneg (br_payload r)).
  destruct (frame_inside (len (br_payload r)) (br_chunk_size r) ltac:(lia) H3 i Hi) as (Hs & Hn & Hr0).
  unfold frame_payload. rewrite H1, Hs, Hn. rewrite len_take, len_drop by lia. lia.
Qed.

(** A run of a frame's payload is a run of the response's. *)
Lemma frame_window i a n :
  0 <= i < br_chunk_count r -> 0 <= a -> 0 <= n ->
  a + n <= frame_payload_len (br_payload_len r) (br_chunk_size r) i ->
  take (Z.to_nat n) (drop (Z.to_nat (i * br_chunk_size r + a)) (br_payload r))
  = take (Z.to_nat n) (drop (Z.to_nat a) (frame_payload r i)).
Proof using Hr.
  intros Hi Ha Hn Han. pose proof Hr as [H1 H2 H3 H4 _ _ _ _]. rewrite H1, ?H4 in *.
  pose proof (len_nonneg (br_payload r)).
  destruct (frame_inside (len (br_payload r)) (br_chunk_size r) ltac:(lia) H3 i Hi) as (Hs & _ & Hr0).
  unfold frame_payload. rewrite H1, Hs, skipn_firstn_comm, drop_drop_Z, take_take by lia. f_equal. lia.
Qed.

Lemma frame_text_split i :
  0 <= i < br_chunk_count r ->
  exists h, bytes_frame_header r i = Ok h /\ len h = frame_header_len i
    /\ frame_text r i = h ++ frame_payload r i
    /\ len (frame_text r i) = len h + frame_payload_len (br_payload_len r) (br_chunk_size r) i.
Proof using Hr.
  intros Hi. destruct (header_written i Hi) as (h & E & Hh). exists h. unfold frame_text. rewrite E.
  split_and!; auto. now rewrite len_app, len_frame_payload.
Qed.
End Frame.

Lemma texts_cons r i n : 0 < n -> texts r i n = frame_text r i ++ texts r (i + 1) (n - 1).
Proof. intros H. unfold texts. now rewrite seqZ_cons by lia. Qed.

Lemma frame_header_len_pos i : 0 < frame_header_len i.
Proof. unfold frame_header_len. now destruct (i =? 0). Qed.

Lemma frame_total_pos r i :
  bytes_ok r -> 0 <= i < br_chunk_count r ->
  0 < frame_header_len i + frame_payload_len (br_payload_len r) (br_chunk_size r) i.
Proof.
  intros Hr Hi. pose proof (frame_header_len_pos i). rewrite <- (len_frame_payload r Hr i Hi).
  pose proof (len_nonneg (frame_payload r i)). lia.
Qed.

Lemma texts_nil r (Hr : bytes_ok r) i :
  0 <= i <= br_chunk_count r ->
  i = br_chunk_count r <-> texts r i (br_chunk_count r - i) = [].
Proof.
  intros Hi. split; [intros ->; now rewrite Z.sub_diag|].
  intros E. destruct (decide (i = br_chunk_count r)); [done|]. exfalso.
  rewrite texts_cons in E by lia. apply app_nil in E as [E _].
  destruct (frame_text_split r Hr i ltac:(lia)) as (h & _ & Hh & _ & Hlen).
  pose proof (frame_total_pos r i Hr ltac:(lia)). rewrite E in Hlen. change (len []) with 0 in Hlen. lia.
Qed.

(** The two parts of a slice: what is left of the header, then data. *)
Lemma frame_slices h fp off b :
  0 <= off -> 0 < b -> off + b <= len h + len fp ->
  0 <= header_offered h off b <= b
  /\ saturating_sub off (len h) + (b - header_offered h off b) <= len fp
  /\ exists hs,
    (if 0 <? header_offered h off b
     then h' ← range_of h off (off + header_offered h off b); Ok [h'] else Ok []) = Ok hs
    /\ forall ds,
      concat ds = take (Z.to_nat (b - header_offered h off b)) (drop (Z.to_nat (saturating_sub off (len h))) fp) ->
      concat (hs ++ ds) = take (Z.to_nat b) (drop (Z.to_nat off) (h ++ fp)).
Proof.
  intros H0 Hb Hfit. pose proof (len_nonneg h). pose proof (len_nonneg fp). unfold header_offered, saturating_sub.
  destruct (Z.ltb_spec off (len h)) as [Hoff|Hoff].
  - split_and!; [lia..|]. rewrite (proj2 (Z.ltb_lt 0 _)) by lia. rewrite range_of_Ok by lia. cbn [mbind Result_bind].
    eexists. split; [reflexivity|]. intros ds Hds. rewrite concat_app, Hds. cbn [concat]. rewrite app_nil_r.
    rewrite (Z.max_l 0 (off - len h)), drop_0 by lia. destruct (Z.leb_spec (len h - off) b).
    + rewrite take_drop_app_both by lia. rewrite Z.min_l by lia. f_equal.
      apply take_ge. unfold len in *. rewrite length_drop. lia.
    + rewrite take_drop_app_l by lia. rewrite Z.min_r, Z.sub_diag, take_0, app_nil_r by lia. f_equal. lia.
  - split_and!; [lia..|]. rewrite (proj2 (Z.ltb_ge 0 0)) by lia. eexists. split; [reflexivity|].
    intros ds Hds. cbn [app]. rewrite Hds, take_drop_app_r by lia. do 3 f_equal; lia.
Qed.

(** ** A slice of a response over owned bytes *)
Section Slice.
Context (r : BytesStreamingResponse) (Hr : bytes_ok r) (Hmore : br_frame_index r < br_chunk_count r).
Abbreviation i := (br_frame_index r).
Abbreviation total := (len (frame_text r i)).
Abbreviation budget := (Z.min STREAM_WRITE_SLICE_BYTES (total - br_frame_offset r)).

Lemma bytes_slices_offer h :
  bytes_frame_header r i = Ok h ->
  exists slices, bytes_slices r h budget = Ok slices
    /\ concat slices = take (Z.to_nat budget) (drop (Z.to_nat (br_frame_offset r)) (frame_text r i)).
Proof using Hr Hmore.
  intros E. pose proof Hr as [H1 H2 H3 H4 H5 H6 H7 _]. specialize (H7 Hmore).
  destruct (frame_text_split r Hr i ltac:(lia)) as (h' & E' & Hh & Ht & Hlen).
  assert (h' = h) as -> by congruence. rewrite <- Hh in H7.
  assert (0 < budget) as Hb by (unfold STREAM_WRITE_SLICE_BYTES; lia).
  assert (br_frame_offset r + budget <= total) as Hin by lia.
  pose proof (len_nonneg (br_payload r)).
  destruct (frame_inside (len (br_payload r)) (br_chunk_size r) ltac:(lia) H3 i ltac:(rewrite <- H1; lia))
    as (Hs & Hn & Hrange).
  set (b := budget) in *. clearbody b. set (off := br_frame_offset r) in *.
  destruct (frame_slices h (frame_payload r i) off b) as (Hofr & Hdata & hs & Ehs & Hcat); [lia..| |].
  { rewrite len_frame_payload by (auto; lia). lia. }
  rewrite len_frame_payload, H1 in Hdata by (auto; lia).
  unfold bytes_slices. fold off. rewrite Ehs, Hs. cbn [mbind Result_bind].
  rewrite (saturating_add_exact usize_max) by (unfold u32_max, usize_max, u64_max, saturating_sub in *; lia).
  destruct (Z.ltb_spec 0 (b - header_offered h off b)) as [Hd|Hd].
  - rewrite range_of_Ok by (unfold saturating_sub in *; lia). cbn [mbind Result_bind]. eexists. split; [reflexivity|].
    rewrite Ht. apply Hcat. cbn [concat]. rewrite app_nil_r.
    rewrite <- frame_window by (rewrite ?H1; auto; unfold saturating_sub in *; lia). f_equal. lia.
  - cbn [mbind Result_bind]. eexists. split; [reflexivity|].
    rewrite Ht. apply Hcat. now replace (b - header_offered h off b) with 0 by lia.
Qed.

(** The loop goes round once. *)
Lemma bytes_slice_once o :
  exists h slices, bytes_frame_header r i = Ok h /\ bytes_slices r h budget = Ok slices
    /\ concat slices = take (Z.to_nat budget) (drop (Z.to_nat (br_frame_offset r)) (frame_text r i))
    /\ offers (frame_text r i) (br_frame_offset r) slices
    /\ write_bytes_streaming_command_slice o r
       = match write_vectored_once o slices with
         | Ok written =>
             let '(r', frame_complete) := bytes_advance (len written) total r in
             let complete := br_chunk_count r' <=? br_frame_index r' in
             (Ok (written, complete, frame_complete && negb complete), r')
         | Err e => (Err e, r)
         | Panic => (Panic, r)
         end.
Proof using Hr Hmore.
  pose proof Hr as [_ _ _ _ H5 H6 H7 _]. specialize (H7 Hmore).
  destruct (frame_text_split r Hr i ltac:(lia)) as (h & E & Hh & _ & Hlen).
  destruct (bytes_slices_offer h E) as (slices & Es & Ho). exists h, slices. split_and!; auto.
  { exists budget. split_and!; auto; unfold STREAM_WRITE_SLICE_BYTES; lia. }
  unfold write_bytes_streaming_command_slice. cbn [write_bytes_loop].
  rewrite (proj2 (Z.leb_gt (br_chunk_count r) i)) by lia. rewrite E, <- Hlen.
  rewrite (proj2 (Z.leb_gt total _)) by lia. rewrite Es. cbn [mbind Result_bind].
  now destruct (write_vectored_once o slices).
Qed.

(** What is left after a run of the frame at hand. *)
Lemma bytes_remaining_run w :
  drop (Z.to_nat (br_frame_offset r)) (frame_text r i)
    = w ++ drop (Z.to_nat (br_frame_offset r + len w)) (frame_text r i) ->
  bytes_remaining r = w ++ drop (Z.to_nat (br_frame_offset r + len w)) (frame_text r i)
                        ++ texts r (i + 1) (br_chunk_count r - i - 1).
Proof using Hr Hmore.
  intros Hd. pose proof Hr as [_ _ _ _ H5 H6 H7 _]. specialize (H7 Hmore).
  destruct (frame_text_split r Hr i ltac:(lia)) as (h & _ & Hh & _ & Hlen).
  unfold bytes_remaining. rewrite texts_cons by lia.
  rewrite drop_app_le by (unfold len in *; lia). now rewrite Hd, <- app_assoc.
Qed.

Lemma bytes_advance_ok w :
  0 < len w -> br_frame_offset r + len w <= total ->
  drop (Z.to_nat (br_frame_offset r)) (frame_text r i)
    = w ++ drop (Z.to_nat (br_frame_offset r + len w)) (frame_text r i) ->
  let '(r', boundary) := bytes_advance (len w) total r in
  bytes_ok r' /\ bytes_remaining r = w ++ bytes_remaining r'
  /\ (boundary = true <-> br_frame_offset r' = 0)
  /\ (br_chunk_count r' <=? br_frame_index r') = bool_decide (bytes_remaining r' = []).
Proof using Hr Hmore.
  intros Hw Hfit Hd. pose proof Hr as [H1 H2 H3 H4 H5 H6 H7 H8]. specialize (H7 Hmore).
  destruct (frame_text_split r Hr i ltac:(lia)) as (h & _ & Hh & _ & Hlen).
  rewrite (bytes_remaining_run w Hd). unfold bytes_advance.
  set (off := br_frame_offset r) in *. set (n := br_chunk_count r) in *.
  destruct (Z.leb_spec total (off + len w)) as [Hc|Hc]; cbn [fst snd].
  - assert (bytes_ok (set_frame (i + 1) 0 r)) as Hok.
    { split; cbn; fold n; auto; try lia. intros Hi. apply frame_total_pos; auto. fold n. lia. }
    split_and!; [done| |done|].
    + rewrite drop_ge by (unfold len in *; lia). cbn [app]. f_equal. unfold bytes_remaining. cbn. fold n. now replace (n - i - 1) with (n - (i + 1)) by lia.
    + pose proof (texts_nil r Hr (i + 1) ltac:(fold n; lia)) as Hnil. fold n in Hnil.
      change (bytes_remaining (set_frame (i + 1) 0 r)) with (texts r (i + 1) (n - (i + 1))).
      cbn. fold n. destruct (Z.leb_spec n (i + 1)); symmetry;
        [apply bool_decide_eq_true_2|apply bool_decide_eq_false_2]; rewrite <- Hnil; lia.
  - assert (bytes_remaining (set_frame i (off + len w) r)
      = drop (Z.to_nat (off + len w)) (frame_text r i) ++ texts r (i + 1) (n - i - 1)) as Hrem'.
    { unfold bytes_remaining. cbn. fold n. change (texts (set_frame _ _ _)) with (texts r). rewrite texts_cons by lia.
      rewrite drop_app_le by (unfold len in *; lia). done. }
    split_and!.
    + split; cbn; fold n; auto; try lia.
    + now rewrite Hrem'.
    + cbn. split; [done|lia].
    + cbn. fold n. rewrite (proj2 (Z.leb_gt n i)) by lia. symmetry. apply bool_decide_eq_false_2.
      rewrite Hrem'. intros E. apply (f_equal len) in E. rewrite len_app, len_drop in E by lia.
      pose proof (len_nonneg (texts r (i + 1) (n - i - 1))). change (len []) with 0 in E. lia.
Qed.
End Slice.

Lemma bytes_remaining_nil r : bytes_ok r -> br_frame_index r = br_chunk_count r <-> bytes_remaining r = [].
Proof.
  intros Hr. pose proof Hr as [_ _ _ _ H5 H6 H7 H8]. split.
  - intros E. unfold bytes_remaining. rewrite E, Z.sub_diag. apply drop_nil.
  - intros E. destruct (decide (br_frame_index r = br_chunk_count r)) as [|Hn]; [done|]. exfalso.
    specialize (H7 ltac:(lia)). unfold bytes_remaining in E. rewrite texts_cons in E by lia.
    destruct (frame_text_split r Hr (br_frame_index r) ltac:(lia)) as (h & _ & Hh & _ & Hlen).
    apply (f_equal len) in E. rewrite len_drop, len_app in E by lia. change (len []) with 0 in E.
    pose proof (len_nonneg (texts r (br_frame_index r + 1) (br_chunk_count r - br_frame_index r - 1))). lia.
Qed.

(** The slice in full: the response yields only between frames. *)
Lemma bytes_slice_accepted o r :
  bytes_ok r -> bytes_remaining r <> [] -> accepts o ->
  exists w r' y,
    write_bytes_streaming_command_slice o r = (Ok (w, bool_decide (bytes_remaining r' = []), y), r')
    /\ bytes_ok r' /\ 0 < len w /\ bytes_remaining r = w ++ bytes_remaining r'
    /\ (y = true <-> br_frame_offset r' = 0 /\ bytes_remaining r' <> []).
Proof.
  intros Hr Hn Ho. rewrite <- bytes_remaining_nil in Hn by done. pose proof (bo_index _ Hr).
  assert (br_frame_index r < br_chunk_count r) as Hmore by lia.
  destruct (bytes_slice_once r Hr Hmore o) as (h & slices & _ & _ & _ & Hoff & ->).
  destruct (offer_accepted _ _ _ o (bo_offset _ Hr) Hoff Ho) as (w & -> & Hw & Hfit & Hd).
  pose proof (bytes_advance_ok r Hr Hmore w Hw Hfit Hd) as Ha.
  destruct (bytes_advance _ _ _) as [r' boundary]. destruct Ha as (H1 & H2 & H3 & ->).
  eexists w, r', _. split_and!; eauto. rewrite andb_true_iff, H3, negb_true_iff, bool_decide_eq_false. done.
Qed.

(** The same slice, seen from the frame at hand. *)
Lemma bytes_slice_frame o r :
  bytes_ok r -> br_frame_index r < br_chunk_count r -> accepts o ->
  let text := frame_text r (br_frame_index r) in
  exists w, 0 < len w
    /\ drop (Z.to_nat (br_frame_offset r)) text = w ++ drop (Z.to_nat (br_frame_offset r + len w)) text
    /\ bytes_ok (write_bytes_streaming_command_slice o r).2
    /\ ((br_frame_offset r + len w < len text
         /\ write_bytes_streaming_command_slice o r
            = (Ok (w, false, false), set_frame (br_frame_index r) (br_frame_offset r + len w) r))
        \/ (br_frame_offset r + len w = len text
            /\ let last := br_chunk_count r <=? br_frame_index r + 1 in
               write_bytes_streaming_command_slice o r
               = (Ok (w, last, negb last), set_frame (br_frame_index r + 1) 0 r))).
Proof.
  intros Hr Hmore Ho text. destruct (bytes_slice_once r Hr Hmore o) as (h & slices & _ & _ & _ & Hoff & ->).
  destruct (offer_accepted _ _ _ o (bo_offset _ Hr) Hoff Ho) as (w & -> & Hw & Hfit & Hd). fold text in Hfit, Hd |- *.
  exists w. split; [done|]. split; [done|].
  pose proof (bytes_advance_ok r Hr Hmore w Hw Hfit Hd) as Ha. fold text in Ha. unfold bytes_advance in *.
  destruct (Z.leb_spec (len text) (br_frame_offset r + len w)) as [E|E]; destruct Ha as (Ha & _); (split; [exact Ha|]).
  - right. split; [lia|]. done.
  - left. split; [lia|]. cbn. rewrite (proj2 (Z.leb_gt _ _)) by lia. done.
Qed.

Lemma bytes_slice_refused o r :
  bytes_ok r -> bytes_remaining r <> [] -> refused o = true ->
  exists e, write_bytes_streaming_command_slice o r = (Err e, r).
Proof.
  intros Hr Hn Ho. rewrite <- bytes_remaining_nil in Hn by done. pose proof (bo_index _ Hr).
  destruct (bytes_slice_once r Hr ltac:(lia) o) as (h & slices & _ & _ & _ & Hoff & ->).
  destruct (offer_refused _ _ _ o (bo_offset _ Hr) Hoff Ho) as (e & ->). eauto.
Qed.

Lemma bytes_slice_done o r :
  bytes_ok r -> bytes_remaining r = [] ->
  write_bytes_streaming_command_slice o r = (Ok ([], true, false), r).
Proof.
  intros Hr E. rewrite <- bytes_remaining_nil in E by done.
  unfold write_bytes_streaming_command_slice. cbn [write_bytes_loop].
  now rewrite (proj2 (Z.leb_le _ _)) by lia.
Qed.

#[export] Instance bytes_writer : SliceWriter BytesStreamingResponse := {
  sw_slice o r := let '(res, r) := write_bytes_streaming_command_slice o r in (fst <$> res, r);
  sw_remaining := bytes_remaining;
  sw_ok := bytes_ok;
}.

#[export] Instance bytes_writer_laws : SliceWriterLaws BytesStreamingResponse.
Proof.
  split; cbn [sw_slice sw_remaining sw_ok bytes_writer]; intros o r Hr E.
  - rewrite bytes_slice_done by done. eauto.
  - intros Ho. destruct (bytes_slice_accepted o r Hr E Ho) as (w & r' & y & -> & H1 & H2 & H3 & _).
    exists w, r'. split_and!; auto. now intros ->.
  - intros Ho. destruct (bytes_slice_refused o r Hr E Ho) as (e & ->). eauto.
Qed.

(** ** Responses over a pooled payload

    The prefix and the payload as one message, from which the same frames are
    cut. *)
Definition pooled_start (r : PooledStreamingResponse) : Z :=
  pp_pos (pr_payload r) + pr_payload_remaining r - (pr_payload_len r - pr_prefix_len r).

Definition pooled_message (r : PooledStreamingResponse) : list Z :=
  default [] (pr_prefix r)
  ++ take (Z.to_nat (pr_payload_len r - pr_prefix_len r))
       (drop (Z.to_nat (pooled_start r)) (pp_bytes (pr_payload r))).

Definition as_bytes (r : PooledStreamingResponse) : BytesStreamingResponse :=
  mkBytesResponse (pr_stream_id r) (pr_correlation_id r) (pooled_message r) (pr_payload_len r)
    (pr_retained_bytes r) (pr_chunk_size r) (pr_chunk_count r) (pr_frame_index r) (pr_frame_offset r).

(** How much of the message the frames before the offset have taken. *)
Definition consumed (r : PooledStreamingResponse) : Z :=
  Z.min (pr_payload_len r)
    (pr_frame_index r * pr_chunk_size r
     + saturating_sub (pr_frame_offset r) (frame_header_len (pr_frame_index r))).

(** The two cursors agree with the frame position. *)
Record pooled_ok (r : PooledStreamingResponse) : Prop := {
  po_bytes : bytes_ok (as_bytes r);
  po_prefix : pr_prefix_len r = len (default [] (pr_prefix r));
  po_start : 0 <= pooled_start r;
  po_remaining : 0 <= pr_payload_remaining r;
  po_enough : pp_pos (pr_payload r) + pr_payload_remaining r <= len (pp_bytes (pr_payload r));
  po_sent : pr_prefix_sent r = Z.min (consumed r) (pr_prefix_len r);
  po_paid : pr_payload_len r - pr_prefix_len r - pr_payload_remaining r
            = Z.max 0 (consumed r - pr_prefix_len r);
}.

(** Nothing is left once the last frame is out. *)
Lemma pooled_complete r :
  pooled_ok r -> pr_chunk_count r <= pr_frame_index r ->
  pr_prefix_sent r = pr_prefix_len r /\ pr_payload_remaining r = 0.
Proof.
  intros [[H1 H2 H3 H4 H5 _ _ H8] Hp Hs Hn He Hsent Hpaid] Hc. cbn in *. specialize (H8 ltac:(lia)).
  pose proof (len_nonneg (pooled_message r)). pose proof (len_nonneg (default [] (pr_prefix r))).
  rewrite (chunk_count_spec (pr_payload_len r) (pr_chunk_size r)) in H4 by lia.
  assert (pr_payload_len r <= pr_frame_index r * pr_chunk_size r).
  { destruct (Z.eqb_spec (pr_payload_len r) 0); [nia|].
    pose proof (div_ceil_spec (pr_payload_len r) (pr_chunk_size r) ltac:(lia) ltac:(lia)). nia. }
  pose proof (frame_header_len_pos (pr_frame_index r)).
  assert (consumed r = pr_payload_len r) as Ec by (unfold consumed, saturating_sub; lia).
  assert (pr_prefix_len r <= pr_payload_len r) by lia. lia.
Qed.

Section Pooled.
Context (r : PooledStreamingResponse) (Hr : pooled_ok r).
Context (Hmore : pr_frame_index r < pr_chunk_count r).

(** Facts of the position, in one place. *)
Lemma pooled_position :
  pr_payload_len r = len (pooled_message r)
  /\ 0 <= pr_prefix_len r <= pr_payload_len r
  /\ consumed r = pr_frame_index r * pr_chunk_size r
                  + saturating_sub (pr_frame_offset r) (frame_header_len (pr_frame_index r))
  /\ 0 <= pr_frame_index r * pr_chunk_size r <= pr_payload_len r
  /\ frame_payload_len (pr_payload_len r) (pr_chunk_size r) (pr_frame_index r)
     = Z.min (pr_payload_len r - pr_frame_index r * pr_chunk_size r) (pr_chunk_size r)
  /\ 0 <= pr_frame_offset r < frame_header_len (pr_frame_index r)
       + frame_payload_len (pr_payload_len r) (pr_chunk_size r) (pr_frame_index r).
Proof using Hr Hmore.
  destruct Hr as [[H1 H2 H3 H4 H5 H6 H7 H8] Hp Hs Hn He _ Hpaid]. cbn in *. specialize (H7 Hmore).
  pose proof (len_nonneg (pooled_message r)). pose proof (len_nonneg (default [] (pr_prefix r))).
  destruct (frame_inside (pr_payload_len r) (pr_chunk_size r) ltac:(lia) H3 (pr_frame_index r) ltac:(lia))
    as (_ & Hf & Hrange). rewrite Hf in *. unfold consumed, saturating_sub in *.
  split_and!; try lia.
Qed.

Lemma payload_window a n :
  0 <= a -> 0 <= n -> a + n <= pr_payload_len r - pr_prefix_len r ->
  take (Z.to_nat n) (drop (Z.to_nat (pooled_start r + a)) (pp_bytes (pr_payload r)))
  = take (Z.to_nat n) (drop (Z.to_nat (pr_prefix_len r + a)) (pooled_message r)).
Proof using Hr.
  intros Ha Hn Han. destruct Hr as [_ Hp Hs _ _ _ _]. unfold pooled_message.
  pose proof (len_nonneg (default [] (pr_prefix r))).
  rewrite take_drop_app_r by lia. rewrite skipn_firstn_comm, drop_drop_Z, take_take by lia.
  f_equal; [lia|]. f_equal. lia.
Qed.

(** The data part is the message from where it has been taken. *)
Lemma pooled_data_offer db :
  0 < db -> consumed r + db <= pr_payload_len r ->
  exists slices, pooled_data_slices r db = Ok slices
    /\ concat slices = take (Z.to_nat db) (drop (Z.to_nat (consumed r)) (pooled_message r)).
Proof using Hr Hmore.
  intros Hdb Hfit. destruct pooled_position as (Hlen & Hpre & Hc & Hc0 & _ & Hoff).
  pose proof Hr as [_ Hp Hs Hn He Hsent Hpaid]. set (c := consumed r) in *.
  assert (0 <= c) by (unfold saturating_sub in Hc; lia). clearbody c.
  assert (pp_pos (pr_payload r) = pooled_start r + Z.max 0 (c - pr_prefix_len r)) as Hpos
    by (unfold pooled_start; lia).
  assert (forall n, 0 < n -> Z.max c (pr_prefix_len r) + n <= pr_payload_len r ->
    (pr_payload_remaining r =? 0) = false
    /\ Z.min (Z.min n (pr_payload_remaining r)) (len (pp_chunk (pr_payload r))) = n
    /\ take (Z.to_nat n) (pp_chunk (pr_payload r))
       = take (Z.to_nat n) (drop (Z.to_nat (Z.max c (pr_prefix_len r))) (pooled_message r))) as Hpay.
  { intros n H1 H2. unfold pp_chunk. rewrite len_drop by lia. split_and!; [apply Z.eqb_neq; lia|lia|].
    rewrite Hpos, payload_window by lia. do 3 f_equal. lia. }
  unfold pooled_data_slices. rewrite Hsent. destruct (Z.ltb_spec (Z.min c (pr_prefix_len r)) (pr_prefix_len r)) as [E|E].
  - rewrite (Z.min_l c) by lia. unfold saturating_sub. rewrite (Z.max_r 0 (pr_prefix_len r - c)) by lia.
    destruct (pr_prefix r) as [p|] eqn:Ep; [|change (len (default [] None)) with 0 in Hp; lia]. cbn in Hp.
    assert (exists m, pooled_message r = p ++ m) as [m Hmsg] by (unfold pooled_message; rewrite Ep; cbn; eauto).
    set (t := Z.min db (pr_prefix_len r - c)). rewrite (proj2 (Z.ltb_lt 0 t)) by lia.
    rewrite range_of_Ok by lia. cbn [mbind Result_bind].
    destruct (Z.ltb_spec 0 (db - t)) as [Hr1|Hr1].
    + destruct (Hpay (db - t)) as (-> & -> & Htk); [lia..|].
      rewrite (proj2 (Z.eqb_neq (db - t) 0)) by lia. eexists. split; [reflexivity|].
      cbn [concat app]. rewrite app_nil_r, Htk, Hmsg, Z.max_r by lia.
      rewrite (take_drop_app_both _ _ c), take_drop_app_r by lia. f_equal.
      * apply take_ge. unfold len in *. rewrite length_drop. lia.
      * rewrite Hp, Z.sub_diag, drop_0. f_equal. lia.
    + eexists. split; [reflexivity|]. cbn [concat]. rewrite app_nil_r, Hmsg.
      rewrite take_drop_app_l by lia. f_equal. lia.
  - cbn [mbind Result_bind]. rewrite (proj2 (Z.ltb_lt 0 db)) by lia.
    destruct (Hpay db) as (-> & -> & Htk); [lia..|]. rewrite (proj2 (Z.eqb_neq db 0)) by lia.
    eexists. split; [reflexivity|]. cbn [concat app]. rewrite app_nil_r, Htk. do 3 f_equal. lia.
Qed.

Abbreviation i := (pr_frame_index r).
Abbreviation text := (frame_text (as_bytes r) i).
Abbreviation budget := (Z.min STREAM_WRITE_SLICE_BYTES (len text - pr_frame_offset r)).

Lemma pooled_slices_offer h :
  bytes_frame_header (as_bytes r) i = Ok h ->
  exists slices, pooled_slices r h budget = Ok slices
    /\ concat slices = take (Z.to_nat budget) (drop (Z.to_nat (pr_frame_offset r)) text).
Proof using Hr Hmore.
  intros E. destruct pooled_position as (Hlen & Hpre & Hc & Hc0 & Hn & Hoff).
  pose proof (po_bytes _ Hr) as Hb. pose proof (bo_index _ Hb) as Hi. cbn in Hi.
  destruct (frame_text_split (as_bytes r) Hb i ltac:(cbn; lia)) as (h' & E' & Hh & Ht & Htot).
  assert (h' = h) as -> by congruence. cbn in Htot.
  pose proof (len_frame_payload (as_bytes r) Hb i ltac:(cbn; lia)) as Hfp. cbn in Hfp.
  assert (0 < budget) as Hbp by (unfold STREAM_WRITE_SLICE_BYTES; lia).
  assert (pr_frame_offset r + budget <= len text) as Hin by lia.
  set (b := budget) in *. clearbody b. set (off := pr_frame_offset r) in *.
  destruct (frame_slices h (frame_payload (as_bytes r) i) off b) as (Hofr & Hdata & hs & Ehs & Hcat); [lia..|].
  rewrite Hfp in Hdata. rewrite <- Hh in *. unfold pooled_slices. fold off. rewrite Ehs. cbn [mbind Result_bind].
  destruct (Z.ltb_spec 0 (b - header_offered h off b)) as [Hd|Hd].
  - destruct (pooled_data_offer (b - header_offered h off b)) as (ds & -> & Hds); [lia..|].
    cbn [mbind Result_bind]. eexists. split; [reflexivity|].
    rewrite Ht. apply Hcat. rewrite Hds, Hc.
    apply (frame_window (as_bytes r) Hb); cbn; unfold saturating_sub in *; lia.
  - cbn [mbind Result_bind]. eexists. split; [reflexivity|].
    rewrite Ht. apply Hcat. now replace (b - header_offered h off b) with 0 by lia.
Qed.

(** The cursors move by the data written. *)
Lemma pooled_sent_ok written offered :
  let d := saturating_sub written offered in
  consumed r + d <= pr_payload_len r ->
  exists s p m, pooled_sent written offered r = (Ok (pset_sent s p m r), pset_sent s p m r)
    /\ s = Z.min (consumed r + d) (pr_prefix_len r)
    /\ pp_bytes p = pp_bytes (pr_payload r)
    /\ pp_pos p + m = pp_pos (pr_payload r) + pr_payload_remaining r /\ 0 <= m
    /\ pr_payload_len r - pr_prefix_len r - m = Z.max 0 (consumed r + d - pr_prefix_len r).
Proof using Hr Hmore.
  intros d Hfit. destruct pooled_position as (Hlen & Hpre & Hc & Hc0 & _ & Hoff).
  pose proof Hr as [[H1 H2 _ _ _ _ _ _] Hp Hs Hn He Hsent Hpaid]. cbn in H1, H2. set (c := consumed r) in *.
  assert (0 <= c) by (unfold saturating_sub in Hc; lia). assert (0 <= d) by (unfold d, saturating_sub; lia). clearbody c.
  unfold pooled_sent. fold d. clearbody d. rewrite Hsent.
  set (pw := Z.min d (saturating_sub (pr_prefix_len r) (Z.min c (pr_prefix_len r)))).
  assert (pw = Z.min (c + d) (pr_prefix_len r) - Z.min c (pr_prefix_len r)) as Hpw
    by (unfold pw, saturating_sub; lia). clearbody pw.
  rewrite saturating_add_exact by (unfold u32_max, usize_max, u64_max in *; lia).
  replace (Z.min c (pr_prefix_len r) + pw) with (Z.min (c + d) (pr_prefix_len r)) by lia.
  cbn [pset_sent pr_payload_remaining pr_payload].
  assert (saturating_sub d pw = Z.max 0 (c + d - pr_prefix_len r) - Z.max 0 (c - pr_prefix_len r)) as Hq
    by (unfold saturating_sub; lia). set (q := saturating_sub d pw) in *. clearbody q.
  rewrite (proj2 (Z.ltb_ge (pr_payload_remaining r) q)) by lia.
  destruct (Z.ltb_spec 0 q) as [Hq0|Hq0].
  - unfold pp_advance, pp_remaining. rewrite (proj2 (Z.leb_le q _)) by (unfold saturating_sub; lia).
    eexists _, _, _. split; [reflexivity|]. cbn. split_and!; [done|done|lia..].
  - eexists _, _, _. split; [reflexivity|]. split_and!; [done|done|lia..].
Qed.

Lemma as_bytes_sent s p m :
  pp_bytes p = pp_bytes (pr_payload r) -> pp_pos p + m = pp_pos (pr_payload r) + pr_payload_remaining r ->
  as_bytes (pset_sent s p m r) = as_bytes r.
Proof using. intros H1 H2. unfold as_bytes, pooled_message, pooled_start. cbn. now rewrite H1, H2. Qed.

(** The position after a run of the frame at hand. *)
Lemma pooled_moves h n :
  len h = frame_header_len i -> 0 < n <= budget ->
  let d := saturating_sub n (header_offered h (pr_frame_offset r) budget) in
  consumed r + d <= pr_payload_len r
  /\ forall s p m, consumed (pooled_advance n (len text) (pset_sent s p m r)).1 = consumed r + d.
Proof using Hr Hmore.
  intros Hh Hn d. destruct pooled_position as (Hlen & Hpre & Hc & Hc0 & Hfl & Hoff).
  pose proof Hr as [Hb _ _ _ _ _ _]. pose proof Hb as [_ _ Hk _ Hi _ _ _]. cbn in Hi, Hk.
  destruct (frame_text_split (as_bytes r) Hb i ltac:(cbn; lia)) as (h' & _ & Hh' & _ & Htot). cbn in Htot.
  assert (frame_header_len i + Z.max 0 (pr_frame_offset r - frame_header_len i) + d
    = Z.max (frame_header_len i) (pr_frame_offset r + n)) as Hd.
  { unfold d, header_offered, saturating_sub. rewrite Hh. destruct (Z.ltb_spec (pr_frame_offset r) (frame_header_len i)); lia. }
  assert (0 <= d) by (unfold d, saturating_sub; lia). clearbody d. unfold saturating_sub in Hc.
  split; [lia|]. intros s p m. unfold pooled_advance. cbn [pset_sent pr_frame_offset pr_frame_index].
  destruct (Z.leb_spec (len text) (pr_frame_offset r + n)) as [E|E]; cbn [fst];
    unfold consumed, pset_frame, pset_sent; cbn; unfold saturating_sub.
  - pose proof (frame_header_len_pos (i + 1)). rewrite (Z.max_l 0 (0 - _)) by lia. nia.
  - lia.
Qed.

Lemma pooled_ok_advance s p m n :
  s = Z.min (consumed (pooled_advance n (len text) (pset_sent s p m r)).1) (pr_prefix_len r) ->
  pp_bytes p = pp_bytes (pr_payload r) ->
  pp_pos p + m = pp_pos (pr_payload r) + pr_payload_remaining r -> 0 <= m ->
  pr_payload_len r - pr_prefix_len r - m
    = Z.max 0 (consumed (pooled_advance n (len text) (pset_sent s p m r)).1 - pr_prefix_len r) ->
  bytes_ok (bytes_advance n (len text) (as_bytes r)).1 ->
  let '(r', boundary) := pooled_advance n (len text) (pset_sent s p m r) in
  bytes_advance n (len text) (as_bytes r) = (as_bytes r', boundary) /\ pooled_ok r'.
Proof using Hr.
  intros Hs Hp Hm H0 Hpaid Hb. destruct Hr as [_ H2 H3 H4 H5 _ _].
  assert (bytes_advance n (len text) (as_bytes r) = (as_bytes (pooled_advance n (len text) (pset_sent s p m r)).1,
    (pooled_advance n (len text) (pset_sent s p m r)).2)) as E.
  { rewrite <- (as_bytes_sent s p m) by done. unfold bytes_advance, pooled_advance. cbn. now destruct (_ <=? _). }
  rewrite E in Hb. destruct (pooled_advance _ _ _) as [r' boundary] eqn:Ea. cbn in *. split; [done|].
  unfold pooled_advance in Ea. cbn in Ea. unfold pooled_start in *.
  destruct (_ <=? _); injection Ea as <- <-; split; cbn in *; auto; unfold pooled_start; cbn; rewrite ?Hp; lia.
Qed.

(** A slice of a pooled response is the slice of the response over the whole
    message. *)
Lemma pooled_slice_once o :
  accepts o \/ refused o = true ->
  exists r', pooled_ok r'
    /\ let '(res, b) := write_bytes_streaming_command_slice o (as_bytes r) in
       as_bytes r' = b /\ write_pooled_streaming_command_slice o r = (res, r').
Proof using Hr Hmore.
  intros Ho. pose proof (po_bytes _ Hr) as Hb. pose proof (bo_index _ Hb) as Hi. cbn in Hi.
  destruct pooled_position as (_ & _ & _ & _ & _ & Hoff).
  destruct (frame_text_split (as_bytes r) Hb i ltac:(cbn; lia)) as (h & Eh & Hh & _ & Htot). cbn in Htot.
  destruct (bytes_slice_once (as_bytes r) Hb Hmore o) as (h' & bs & Eh' & _ & Hcat & Hof & ->).
  assert (h' = h) as -> by (cbn in *; congruence). clear Eh'.
  destruct (pooled_slices_offer h Eh) as (ps & Eps & Hcatp). cbn [as_bytes br_frame_index br_frame_offset] in *.
  assert (write_pooled_streaming_command_slice o r = match write_vectored_once o bs with
    | Ok written =>
        match pooled_sent (len written) (header_offered h (pr_frame_offset r) budget) r with
        | (Ok r1, _) =>
            let '(r1, frame_complete) := pooled_advance (len written) (len text) r1 in
            let complete := pr_chunk_count r1 <=? pr_frame_index r1 in
            if complete && (negb (pr_prefix_sent r1 =? pr_prefix_len r1) || negb (pr_payload_remaining r1 =? 0))
            then (invalid, r1) else (Ok (written, complete, frame_complete && negb complete), r1)
        | (Err e, r1) => (Err e, r1) | (Panic, r1) => (Panic, r1)
        end
    | Err e => (Err e, r) | Panic => (Panic, r) end) as ->.
  { unfold write_pooled_streaming_command_slice. cbn [write_pooled_loop].
    rewrite (proj2 (Z.leb_gt (pr_chunk_count r) i)) by lia. change (pooled_frame_header r i) with (bytes_frame_header (as_bytes r) i).
    rewrite Eh, <- Htot, (proj2 (Z.leb_gt (len text) _)) by lia. rewrite Eps. cbn [mbind Result_bind].
    rewrite (write_vectored_concat o ps bs) by congruence. now destruct (write_vectored_once o bs). }
  destruct Ho as [Ho|Ho].
  2: { destruct (offer_refused _ _ _ o (bo_offset _ Hb) Hof Ho) as (e & ->). eauto. }
  destruct (offer_accepted _ _ _ o (bo_offset _ Hb) Hof Ho) as (w & Ew & Hw & Hfit & Hd). rewrite Ew.
  assert (0 < budget) by (unfold STREAM_WRITE_SLICE_BYTES; lia).
  pose proof (write_vectored_len _ _ _ Ew) as Hwl. rewrite Hcat, len_take, len_drop in Hwl by lia.
  destruct (pooled_moves h (len w) Hh ltac:(lia)) as [Hle Hcons].
  destruct (pooled_sent_ok (len w) _ Hle) as (s & p & m & -> & Hs & Hp & Hpm & Hm & Hpaid).
  rewrite <- (Hcons s p m) in Hs, Hpaid.
  pose proof (bytes_advance_ok (as_bytes r) Hb Hmore w Hw Hfit Hd) as Hadv. cbn [as_bytes br_frame_index] in Hadv.
  pose proof (pooled_ok_advance s p m (len w) Hs Hp Hpm Hm Hpaid) as Hpa.
  destruct (bytes_advance _ _ _) as [b boundary]. destruct Hadv as (Hb' & _). specialize (Hpa Hb').
  destruct (pooled_advance _ _ _) as [r' bd]. destruct Hpa as [[= -> ->] Hok]. exists r'. split; [done|]. split; [done|].
  pose proof (pooled_complete r' Hok) as Hdone. cbn [as_bytes br_chunk_count br_frame_index].
  destruct (Z.leb_spec (pr_chunk_count r') (pr_frame_index r')); [|done].
  destruct Hdone as [-> ->]; [done|]. now rewrite !Z.eqb_refl.
Qed.
End Pooled.

Lemma pooled_slice_done o r :
  pooled_ok r -> bytes_remaining (as_bytes r) = [] ->
  write_pooled_streaming_command_slice o r = (Ok ([], true, false), r).
Proof.
  intros Hr E. rewrite <- bytes_remaining_nil in E by apply Hr. cbn in E.
  unfold write_pooled_streaming_command_slice. cbn [write_pooled_loop].
  now rewrite (proj2 (Z.leb_le _ _)) by lia.
Qed.

(** A pooled response behaves as the one over the whole message. *)
Lemma pooled_slice_bytes o r :
  pooled_ok r -> accepts o \/ refused o = true ->
  exists r', pooled_ok r'
    /\ let '(res, b) := write_bytes_streaming_command_slice o (as_bytes r) in
       as_bytes r' = b /\ write_pooled_streaming_command_slice o r = (res, r').
Proof.
  intros Hr Ho. destruct (decide (bytes_remaining (as_bytes r) = [])) as [E|E].
  - exists r. split; [done|]. rewrite bytes_slice_done by (auto; apply Hr). split; [done|]. now apply pooled_slice_done.
  - rewrite <- bytes_remaining_nil in E by apply Hr. pose proof (bo_index _ (po_bytes _ Hr)).
    apply pooled_slice_once; auto. cbn in *. lia.
Qed.

#[export] Instance pooled_writer : SliceWriter PooledStreamingResponse := {
  sw_slice o r := let '(res, r) := write_pooled_streaming_command_slice o r in (fst <$> res, r);
  sw_remaining r := bytes_remaining (as_bytes r);
  sw_ok := pooled_ok;
}.

#[export] Instance pooled_writer_laws : SliceWriterLaws PooledStreamingResponse.
Proof.
  split; cbn [sw_slice sw_remaining sw_ok pooled_writer]; intros o r Hr E.
  - rewrite pooled_slice_done by done. eauto.
  - intros Ho. destruct (pooled_slice_bytes o r Hr (or_introl Ho)) as (r' & Hok & Hs).
    destruct (bytes_slice_accepted o (as_bytes r) (po_bytes _ Hr) E Ho) as (w & b & y & Eb & H1 & H2 & H3 & _).
    rewrite Eb in Hs. destruct Hs as [Hs ->]. exists w, r'. rewrite Hs. split_and!; auto. now intros ->.
  - intros Ho. destruct (pooled_slice_bytes o r Hr (or_intror Ho)) as (r' & Hok & Hs).
    destruct (bytes_slice_refused o (as_bytes r) (po_bytes _ Hr) E Ho) as (e & Eb).
    rewrite Eb in Hs. destruct Hs as [Hs ->]. exists e, r'. now rewrite Hs.
Qed.

(** ** Fresh responses *)
Lemma bytes_response_new_ok sid cid payload retained k :
  len payload <= u32_max -> 0 < k <= CONTROL_BODY_LEN_MASK - 12 ->
  bytes_ok (bytes_response_new sid cid payload retained k).
Proof.
  intros Hl Hk. pose proof (len_nonneg payload).
  pose proof (chunk_count_pos (len payload) k ltac:(lia) Hk).
  pose proof (frame_inside (len payload) k ltac:(lia) Hk 0 ltac:(lia)) as (_ & Hf & _).
  split; cbn -[frame_header_len frame_payload_len]; auto; try lia. intros _. rewrite Hf. pose proof (frame_header_len_pos 0). lia.
Qed.

Definition pooled_new_ok (payload_len k : Z) (payload : PooledPayload) (prefix : option (list Z))
    (expected : Z) : Prop :=
  payload_len <= u32_max /\ 0 < k <= CONTROL_BODY_LEN_MASK - 12 /\ 0 <= pp_pos payload <= len (pp_bytes payload)
  /\ 0 <= expected <= pp_remaining payload
  /\ payload_len = len (default [] prefix) + expected.

Lemma pooled_response_new_ok sid cid payload_len retained k payload prefix expected :
  pooled_new_ok payload_len k payload prefix expected ->
  let r := pooled_response_new sid cid payload_len retained k payload prefix expected in
  pooled_ok r
  /\ as_bytes r = bytes_response_new sid cid
       (default [] prefix ++ take (Z.to_nat expected) (pp_chunk payload)) (Z.max retained payload_len) k.
Proof.
  intros (Hl & Hk & Hp & He & Hsum) r. pose proof (len_nonneg (default [] prefix)).
  unfold pp_remaining, saturating_sub in He.
  assert (pr_prefix_len r = len (default [] prefix)) as Hpl by (unfold r; now destruct prefix).
  assert (pooled_start r = pp_pos payload) as Hst by (unfold pooled_start; rewrite Hpl; cbn; lia).
  assert (pooled_message r = default [] prefix ++ take (Z.to_nat expected) (pp_chunk payload)) as Hm.
  { unfold pooled_message. rewrite Hst, Hpl. cbn. do 2 f_equal. lia. }
  assert (len (pooled_message r) = payload_len) as Hml.
  { rewrite Hm, len_app. unfold pp_chunk. rewrite len_take, len_drop by lia. lia. }
  assert (as_bytes r = bytes_response_new sid cid (pooled_message r) (Z.max retained payload_len) k) as Hab.
  { unfold as_bytes, bytes_response_new. rewrite Hml. unfold r at 1 2 3 4 5 6 7 8 9. cbn. f_equal; lia. }
  split; [|now rewrite Hab, Hm].
  pose proof (frame_header_len_pos 0).
  assert (consumed r = 0) as Hc by (unfold consumed, saturating_sub; cbn -[frame_header_len]; lia).
  split; rewrite ?Hc, ?Hpl, ?Hst; auto; cbn; try lia. rewrite Hab. apply bytes_response_new_ok; [lia|done].
Qed.
