(* ===== verification/CommandWriter.v ===== *)
(** * Every command as a slice writer

    A command in the writer's hands, whatever its kind, reaches the transport as
    exactly its text, however the transport cuts the writes. *)

From S2P Require Import Prelude Types Framing Streaming WriterCommands StreamWriter SliceWriter ResponseWriter.

(** ** Plain commands *)
Definition plain_text (c : StreamingCommand) : list Z :=
  match c with
  | WriteBytes data => data
  | VectoredWrite header payload => header ++ payload
  | OwnedChunks chunks => concat chunks
  | Abort stream_id reason =>
      control_bytes KStreamAbort 8 ++ to_be_bytes 4 stream_id ++ to_be_bytes 4 reason
  | _ => []
  end.

Definition is_plain (c : StreamingCommand) : bool :=
  match c with WriteBytes _ | VectoredWrite _ _ | OwnedChunks _ | Abort _ _ => true | _ => false end.

Lemma len_concat {A} (l : list (list A)) : len (concat l) = foldr Z.add 0 (len <$> l).
Proof. induction l as [|x l IH]; [done|]. cbn. now rewrite len_app, IH. Qed.

Lemma plain_len_text c : is_plain c = true -> plain_len c = len (plain_text c).
Proof.
  destruct c; try done; intros _; cbn [plain_len plain_text]; [now rewrite len_app|now rewrite len_concat].
Qed.

Lemma vectored_offer header payload offset b :
  0 <= offset -> 0 < b -> offset + b <= len (header ++ payload) ->
  exists slices, vectored_slices header payload offset b = Ok slices
    /\ concat slices = take (Z.to_nat b) (drop (Z.to_nat offset) (header ++ payload)).
Proof.
  intros H0 Hb Hfit. rewrite len_app in Hfit. pose proof (len_nonneg payload). unfold vectored_slices.
  destruct (Z.ltb_spec offset (len header)) as [Hh|Hh].
  - rewrite (range_of_Ok header) by lia. cbn [mbind Result_bind].
    destruct (Z.ltb_spec (Z.min (offset + b) (len header) - offset) b) as [Hm|Hm].
    + rewrite Z.min_r by lia. rewrite range_of_Ok by lia. eexists. split; [reflexivity|].
      cbn [concat]. rewrite app_nil_r, take_drop_app_both by lia. f_equal.
      * apply take_ge. unfold len in *. rewrite length_drop. lia.
      * rewrite drop_0. f_equal. lia.
    + eexists. split; [reflexivity|]. cbn [concat]. rewrite app_nil_r, take_drop_app_l by lia. f_equal. lia.
  - rewrite range_of_Ok by lia. eexists. split; [reflexivity|].
    cbn [concat]. rewrite app_nil_r, take_drop_app_r by lia. f_equal. lia.
Qed.

(** At most [MAX_IOV] buffers are offered: a run of the text, not always the
    whole budget. *)
Lemma chunk_slices_offer chunks : forall skip remaining count,
  0 <= skip -> 0 < remaining -> skip + remaining <= len (concat chunks) ->
  exists b, 0 < b <= remaining
    /\ concat (chunk_slices chunks skip remaining count) = take (Z.to_nat b) (drop (Z.to_nat skip) (concat chunks)).
Proof.
  induction chunks as [|c chunks IH]; intros skip remaining count H0 Hr Hfit; [change (len (concat [])) with 0 in Hfit; lia|].
  cbn [chunk_slices concat] in *. rewrite len_app in Hfit. pose proof (len_nonneg (concat chunks)).
  destruct (Z.leb_spec (len c) skip) as [E|E].
  - destruct (IH (skip - len c) remaining count) as (b & Hb & ->); [lia..|]. exists b. split; [done|].
    now rewrite take_drop_app_r by lia.
  - set (n := Z.min remaining (len c - skip)). assert (0 < n) as Hn by lia.
    assert (slice c (Z.to_nat skip) (Z.to_nat (skip + n)) = take (Z.to_nat n) (drop (Z.to_nat skip) c)) as ->
      by (unfold slice; f_equal; lia).
    destruct (Z.eqb_spec (remaining - n) 0) as [E1|E1]; cbn [orb concat].
    { exists n. split; [lia|]. now rewrite app_nil_r, take_drop_app_l by lia. }
    destruct (_ =? MAX_IOV); cbn [concat].
    { exists n. split; [lia|]. now rewrite app_nil_r, take_drop_app_l by lia. }
    destruct (IH 0 (remaining - n) (count + 1)) as (b & Hb & ->); [lia..|]. exists (n + b). split; [lia|].
    rewrite drop_0, (take_drop_app_both c) by lia. f_equal; [|f_equal; lia].
    apply take_ge. unfold len in *. rewrite length_drop. lia.
Qed.

Lemma command_offer c offset :
  is_plain c = true -> 0 <= offset < len (plain_text c) ->
  exists slices, command_slices c offset = Ok (slices, len (plain_text c))
    /\ offers (plain_text c) offset slices.
Proof.
  intros Hc Ho. assert (0 < STREAM_WRITE_SLICE_BYTES) as Hs by done.
  assert (forall text, 0 <= offset < len text ->
    exists s, range_of text offset (Z.min (offset + STREAM_WRITE_SLICE_BYTES) (len text)) = Ok s
      /\ offers text offset [s]) as Hrange.
  { intros text H. rewrite range_of_Ok by lia. eexists. split; [reflexivity|].
    exists (Z.min (offset + STREAM_WRITE_SLICE_BYTES) (len text) - offset). cbn [concat].
    rewrite app_nil_r. split_and!; [lia..|done]. }
  destruct c; try done; cbn [command_slices plain_text] in *.
  - destruct (Hrange data Ho) as (s & -> & H). eauto.
  - destruct (vectored_offer header payload offset (Z.min STREAM_WRITE_SLICE_BYTES (len header + len payload - offset)))
      as (s & -> & H); [rewrite ?len_app in *; lia..|]. cbn [mbind Result_bind]. exists s. rewrite len_app. split; [done|].
    eexists. split_and!; [| |exact H]; rewrite ?len_app in *; lia.
  - rewrite <- len_concat. eexists. split; [reflexivity|].
    destruct (chunk_slices_offer chunks offset (Z.min STREAM_WRITE_SLICE_BYTES (len (concat chunks) - offset)) 0)
      as (b & Hb & Hcat); [lia..|]. exists b. split_and!; [lia..|exact Hcat].
  - rewrite stream_abort_layout. cbn [mbind Result_bind]. destruct (Hrange _ Ho) as (s & -> & H). eauto.
Qed.

(** ** Commands in progress *)
Definition command_remaining (p : PendingStreamingCommand) : list Z :=
  match pc_command p with
  | BytesResponse r => bytes_remaining r
  | PooledResponse r => bytes_remaining (as_bytes r)
  | c => drop (Z.to_nat (pc_offset p)) (plain_text c)
  end.

Definition command_ok (p : PendingStreamingCommand) : Prop :=
  match pc_command p with
  | BytesResponse r => bytes_ok r
  | PooledResponse r => pooled_ok r
  | c => is_plain c = true /\ 0 <= pc_offset p <= len (plain_text c)
  end.

(** The text of a command nothing of which has been written. *)
Definition command_text (c : StreamingCommand) : list Z := command_remaining (pending_local c).

Section Commands.
Context (cancelled cancelled_after : bool) (streaming_threshold max_message_size next_stream_id : Z).

Abbreviation slice_call o p :=
  (write_streaming_command_slice_with_context o cancelled cancelled_after
     streaming_threshold max_message_size next_stream_id p).

#[local] Instance command_writer : SliceWriter PendingStreamingCommand := {
  sw_slice o p := (slice_call o p).1;
  sw_remaining := command_remaining;
  sw_ok := command_ok;
}.

Definition plain_after (o : WriteOutcome) (p : PendingStreamingCommand) (slices : list (list Z))
    : Result (list Z * bool) * PendingStreamingCommand :=
  let q := pc_set (pc_command p) (pc_offset p) false p in
  match write_vectored_once o slices with
  | Ok w => (Ok (w, pc_offset p + len w =? len (plain_text (pc_command p))),
             pc_set (pc_command p) (pc_offset p + len w) false q)
  | Err e => (Err e, q)
  | Panic => (Panic, q)
  end.

Lemma plain_slice o p :
  is_plain (pc_command p) = true -> 0 <= pc_offset p <= len (plain_text (pc_command p)) ->
  (pc_offset p = len (plain_text (pc_command p))
   /\ (slice_call o p).1 = (Ok ([], true), pc_set (pc_command p) (pc_offset p) false p))
  \/ (pc_offset p < len (plain_text (pc_command p))
      /\ exists slices, offers (plain_text (pc_command p)) (pc_offset p) slices
         /\ (slice_call o p).1 = plain_after o p slices).
Proof using.
  intros Hc Ho. pose proof (plain_len_text _ Hc) as Hl.
  destruct (decide (pc_offset p = len (plain_text (pc_command p)))) as [E|E]; [left|right]; (split; [lia|]).
  - unfold write_streaming_command_slice_with_context. cbn [pc_set pc_command pc_offset].
    destruct (pc_command p); try done; rewrite (proj2 (Z.leb_le (plain_len _) _)) by lia; done.
  - destruct (command_offer (pc_command p) (pc_offset p) Hc ltac:(lia)) as (slices & Es & Hoff). exists slices.
    split; [done|]. unfold write_streaming_command_slice_with_context, plain_after. cbn [pc_set pc_command pc_offset].
    destruct (pc_command p); try done; rewrite (proj2 (Z.leb_gt (plain_len _) _)) by lia; rewrite Es;
      cbn [mbind Result_bind]; now destruct (write_vectored_once o slices).
Qed.

(** What the laws say of one call. *)
Definition obeys (o : WriteOutcome) (p : PendingStreamingCommand) : Prop :=
  (command_remaining p = [] -> exists p', (slice_call o p).1 = (Ok ([], true), p')
     /\ command_ok p' /\ command_remaining p' = [])
  /\ (command_remaining p <> [] -> accepts o -> exists w p',
        (slice_call o p).1 = (Ok (w, bool_decide (command_remaining p' = [])), p')
        /\ command_ok p' /\ w <> [] /\ command_remaining p = w ++ command_remaining p')
  /\ (command_remaining p <> [] -> refused o = true -> exists e p',
        (slice_call o p).1 = (Err e, p') /\ command_ok p' /\ command_remaining p' = command_remaining p).

(** A response obeys because its own writer does. *)
Lemma response_obeys {R} `{SliceWriterLaws R} (wrap : R -> StreamingCommand) o p r :
  (forall p r, pc_command p = wrap r -> command_remaining p = sw_remaining r /\ (command_ok p <-> sw_ok r)) ->
  (exists p', (slice_call o p).1 = ((sw_slice o r).1, p') /\ pc_command p' = wrap (sw_slice o r).2) ->
  pc_command p = wrap r -> command_ok p -> obeys o p.
Proof using.
  intros Hw (p' & Es & Ec) E Hok. destruct (Hw p r E) as [Hrem Hiff]. apply Hiff in Hok.
  destruct (Hw _ _ Ec) as [Hrem' Hiff']. unfold obeys. rewrite Hrem. split_and!.
  - intros Hn. destruct (sw_done o r Hok Hn) as (r' & Er & H1 & H2). rewrite Er in *. exists p'.
    rewrite Es, Hrem', Hiff'. done.
  - intros Hn Ho. destruct (sw_accepted o r Hok Hn Ho) as (w & r' & Er & H1 & H2 & H3). rewrite Er in *.
    exists w, p'. rewrite Es, Hrem', Hiff'. done.
  - intros Hn Ho. destruct (sw_refused o r Hok Hn Ho) as (e & r' & Er & H1 & H2). rewrite Er in *.
    exists e, p'. rewrite Es, Hrem', Hiff'. done.
Qed.

Lemma plain_obeys o p : is_plain (pc_command p) = true -> command_ok p -> obeys o p.
Proof using.
  intros Hc Hok.
  assert (0 <= pc_offset p <= len (plain_text (pc_command p))) as Ho
    by (unfold command_ok in Hok; destruct (pc_command p); try discriminate Hc; tauto).
  assert (forall q, pc_command q = pc_command p -> command_remaining q = drop (Z.to_nat (pc_offset q)) (plain_text (pc_command p))
    /\ (0 <= pc_offset q <= len (plain_text (pc_command p)) -> command_ok q)) as Hq.
  { intros q E. unfold command_remaining, command_ok. rewrite E. destruct (pc_command p); done. }
  destruct (Hq p eq_refl) as [Hrem _].
  destruct (plain_slice o p Hc Ho) as [[E Es]|[E (slices & Hoff & Es)]];
    unfold obeys, plain_after in *; set (text := plain_text (pc_command p)) in *; rewrite Es, Hrem.
  - rewrite drop_ge by (unfold len in *; lia). split_and!; try done. intros _. eexists. split; [reflexivity|].
    destruct (Hq (pc_set (pc_command p) (pc_offset p) false p) eq_refl) as [-> H]. split; [now apply H|].
    apply drop_ge. cbn. unfold len in *. lia.
  - assert (drop (Z.to_nat (pc_offset p)) text <> []) as Hn.
    { intros Hd. apply (f_equal len) in Hd. rewrite len_drop in Hd by lia. change (len []) with 0 in Hd. lia. }
    split_and!; [done| |]; intros _ Hx.
    + destruct (offer_accepted text (pc_offset p) slices o ltac:(lia) Hoff Hx) as (w & -> & Hw & Hfit & Hd).
      exists w. eexists. destruct (Hq (pc_set (pc_command p) (pc_offset p + len w) false
        (pc_set (pc_command p) (pc_offset p) false p)) eq_refl) as [-> H]. cbn [pc_set pc_offset] in *.
      split; [do 3 f_equal|].
      * rewrite (bool_decide_ext _ (pc_offset p + len w = len text)).
        { destruct (Z.eqb_spec (pc_offset p + len w) (len text)); symmetry;
            [now apply bool_decide_eq_true_2|now apply bool_decide_eq_false_2]. }
        cbn [pc_set pc_offset]. split; intros Hy.
        { apply (f_equal len) in Hy. rewrite len_drop in Hy by lia. change (len []) with 0 in Hy. lia. }
        apply drop_ge. unfold len in *. lia.
      * split_and!; [apply H; lia|now intros ->|done].
    + destruct (offer_refused text (pc_offset p) slices o ltac:(lia) Hoff Hx) as (e & ->). eexists _, _. split; [reflexivity|].
      destruct (Hq (pc_set (pc_command p) (pc_offset p) false p) eq_refl) as [-> H]. split; [now apply H|done].
Qed.

Lemma command_obeys o p : command_ok p -> obeys o p.
Proof using.
  intros Hok. destruct (is_plain (pc_command p)) eqn:Hc; [now apply plain_obeys|].
  destruct (pc_command p) as [| | | |r|r| |] eqn:E; try done; try (unfold command_ok in Hok; rewrite E in Hok; now destruct Hok).
  - apply (response_obeys PooledResponse o p r); auto.
    { intros q x Ex. unfold command_remaining, command_ok. now rewrite Ex. }
    unfold write_streaming_command_slice_with_context. cbn [pc_set pc_command pc_offset]. rewrite E.
    cbn [sw_slice pooled_writer].
    destruct (write_pooled_streaming_command_slice o r) as [[[[w c] y]|e|] r']; eauto.
  - apply (response_obeys BytesResponse o p r); auto.
    { intros q x Ex. unfold command_remaining, command_ok. now rewrite Ex. }
    unfold write_streaming_command_slice_with_context. cbn [pc_set pc_command pc_offset]. rewrite E.
    cbn [sw_slice bytes_writer].
    destruct (write_bytes_streaming_command_slice o r) as [[[[w c] y]|e|] r']; eauto.
Qed.

#[local] Instance command_writer_laws : SliceWriterLaws PendingStreamingCommand.
Proof using.
  split; cbn [sw_slice sw_remaining sw_ok command_writer]; intros o p Hok.
  - apply (command_obeys o p Hok).
  - apply (command_obeys o p Hok).
  - apply (command_obeys o p Hok).
Qed.

Definition drive_command (os : list WriteOutcome) (p : PendingStreamingCommand)
    : list Z * Result bool * PendingStreamingCommand := drive os p.

(** C36: however the transport cuts the writes, a command reaches it as exactly
    its text.  Over any sequence of slices, each of which the transport takes
    some of or refuses, what went out followed by what is left is what was left
    at the start; completion is reported only when nothing is left; no slice
    panics; and a transport that takes at least a byte of each slice is handed
    the whole text, with completion reported. *)
Theorem command_written_whole os p :
  command_ok p -> Forall (fun o => accepts o \/ refused o = true) os ->
  (let '(out, res, p') := drive_command os p in
   command_ok p' /\ out ++ command_remaining p' = command_remaining p
   /\ (res = Ok true -> command_remaining p' = []) /\ res <> Panic)
  /\ (Forall accepts os -> 1 <= len os -> len (command_remaining p) <= len os ->
      exists p', drive_command os p = (command_remaining p, Ok true, p') /\ command_remaining p' = []).
Proof using.
  intros Hok Hos. split; [exact (drive_sound os p Hok Hos)|]. intros Ha H1 Hl.
  destruct (@drive_complete _ command_writer _ os p Hok Ha H1 Hl) as (p' & Hd & _ & Hr). eauto.
Qed.
End Commands.

(** A response of five bytes in chunks of two, to a transport that takes seven
    bytes at a time. *)
Definition example_response : BytesStreamingResponse := bytes_response_new 4 9 [1; 2; 3; 4; 5] 5 2.

Lemma command_written_whole_witness :
  exists p', drive_command false false 0 0 0 (replicate 50 (Accepted 7)) (pending_local (BytesResponse example_response))
             = (command_text (BytesResponse example_response), Ok true, p')
    /\ len (command_text (BytesResponse example_response)) = 45.
Proof.
  assert (command_ok (pending_local (BytesResponse example_response))) as Hok
    by (apply bytes_response_new_ok; [|split]; vm_compute; (congruence || reflexivity)).
  destruct (command_written_whole false false 0 0 0 (replicate 50 (Accepted 7)) _ Hok) as [_ H].
  - apply Forall_replicate. left. reflexivity.
  - destruct H as (p' & H & _); [apply Forall_replicate; reflexivity|vm_compute; congruence|vm_compute; congruence|].
    exists p'. split; [exact H|reflexivity].
Defined.
