(* ===== verification/OrdinaryWriter.v ===== *)
(** * Ordinary writes

    Writes that are not streaming commands (src/src/connection_pool/stream_writer.rs):
    a pending one keeps its position across turns.  Also the watchdog of the
    bounded attempts, and the batch of inline responses
    (src/src/connection_pool/constants.rs). *)

From S2P Require Import Prelude Types Framing Streaming WriterCommands StreamWriter SliceWriter.

(** ** The watchdog; durations in milliseconds *)
Definition STREAM_WRITE_STUCK_TEARDOWN : Z := 30000.
Definition STREAM_FLUSH_STUCK_TEARDOWN : Z := 120000.

Inductive SliceAttemptOutcome := Continue | TearDown (stuck_for : Z).

(** The two clocks: since when writes, and flushes, have made no progress. *)
Record WedgeClocks := mkClocks { write_wedged_since : option Z; flush_wedged_since : option Z }.

Definition record_slice_attempt (command_is_flush attempt_completed : bool) (now : Z) (c : WedgeClocks)
    : SliceAttemptOutcome * WedgeClocks :=
  let '(wedged_since, budget) :=
    if command_is_flush then (flush_wedged_since c, STREAM_FLUSH_STUCK_TEARDOWN)
    else (write_wedged_since c, STREAM_WRITE_STUCK_TEARDOWN) in
  let set w := if command_is_flush then mkClocks (write_wedged_since c) w
               else mkClocks w (flush_wedged_since c) in
  if attempt_completed then (Continue, set None)
  else
    let started := default now wedged_since in
    let stuck_for := saturating_sub now started in
    (if budget <=? stuck_for then TearDown stuck_for else Continue, set (Some started)).

(** ** Pending ordinary writes *)
Inductive OrdinaryWriteProgress :=
  | OComplete (written : list Z)
  | OPartial (written : list Z)
  | OFailed.

(** [Buf] is any [bytes::Buf]: the runs it will yield. *)
Inductive PendingOrdinaryWrite :=
  | HeaderInline (header : list Z) (header_len : Z) (payload : list Z) (header_off payload_off : Z)
  | HeaderInlineAligned (header : list Z) (header_len : Z) (payload : list Z) (header_off payload_off : Z)
  | Chunks (chunks : list (list Z)) (offset : Z)
  | BufWrite (runs : list (list Z))
  | AskNack (header : list Z) (offset : Z).

(** [Buf::chunk] is not empty while bytes remain; [Buf::advance] moves past [n]
    of them. *)
Fixpoint buf_chunk (runs : list (list Z)) : list Z :=
  match runs with
  | [] => []
  | [] :: runs => buf_chunk runs
  | run :: _ => run
  end.

Fixpoint buf_advance (n : Z) (runs : list (list Z)) : list (list Z) :=
  match runs with
  | [] => []
  | run :: runs =>
      if len run <=? n then buf_advance (n - len run) runs
      else drop (Z.to_nat n) run :: runs
  end.

(** [None]: the transport is not ready. *)
Definition poll_vectored (poll : option WriteOutcome) (slices : list (list Z))
    : option OrdinaryWriteProgress :=
  if len (concat slices) =? 0 then Some (OComplete [])
  else match poll with
       | None => None
       | Some (Accepted n) => Some (if n =? 0 then OFailed else OPartial (take (Z.to_nat n) (concat slices)))
       | Some (WriteFailed _) => Some OFailed
       end.

Definition advance_header_payload_offset (header_len header_off payload_off n : Z) : Z * Z :=
  if header_off <? header_len then
    let remain := header_len - header_off in
    if n <? remain then (header_off + n, payload_off) else (header_len, payload_off + (n - remain))
  else (header_off, payload_off + n).

(** The bytes from an offset on, none beyond the end. *)
Definition rest_of (l : list Z) (off : Z) : list Z :=
  if off <? len l then drop (Z.to_nat off) l else [].

Definition header_payload_slices (header payload : list Z) (header_off payload_off : Z) : list (list Z) :=
  match rest_of header header_off, rest_of payload payload_off with
  | [], p => [p]
  | h, [] => [h]
  | h, p => [h; p]
  end.

Definition poll_header_payload (poll : option WriteOutcome) (header payload : list Z)
    (header_off payload_off : Z) : option OrdinaryWriteProgress * (Z * Z) :=
  let header_len := len header in
  if (header_len <=? header_off) && (len payload <=? payload_off)
  then (Some (OComplete []), (header_off, payload_off))
  else match poll_vectored poll (header_payload_slices header payload header_off payload_off) with
  | None => (None, (header_off, payload_off))
  | Some (OPartial w) | Some (OComplete w) =>
      let '(header_off, payload_off) :=
        advance_header_payload_offset header_len header_off payload_off (len w) in
      (Some (if (header_len <=? header_off) && (len payload <=? payload_off)
             then OComplete w else OPartial w), (header_off, payload_off))
  | Some OFailed => (Some OFailed, (header_off, payload_off))
  end.

(** The first chunk not wholly written, and the position in it. *)
Fixpoint skip_written_chunks (chunks : list (list Z)) (offset : Z) : list (list Z) * Z :=
  match chunks with
  | [] => ([], offset)
  | chunk :: rest => if len chunk <=? offset then skip_written_chunks rest (offset - len chunk) else (chunks, offset)
  end.

Definition poll_fixed (poll : option WriteOutcome) (slices : list (list Z)) (offset total : Z)
    : option OrdinaryWriteProgress * Z :=
  match poll_vectored poll slices with
  | None => (None, offset)
  | Some (OPartial w) | Some (OComplete w) =>
      (Some (if total <=? offset + len w then OComplete w else OPartial w), offset + len w)
  | Some OFailed => (Some OFailed, offset)
  end.

Definition total_len (chunks : list (list Z)) : Z := foldr Z.add 0 (len <$> chunks).

(** One poll; [Panic] where [header[..header_len]] is out of range. *)
Definition poll_pending_ordinary (poll : option WriteOutcome) (w : PendingOrdinaryWrite)
    : Result (option OrdinaryWriteProgress) * PendingOrdinaryWrite :=
  match w with
  | HeaderInline header header_len payload header_off payload_off =>
      match range_of header 0 header_len with
      | Ok h => let '(res, (ho, po)) := poll_header_payload poll h payload header_off payload_off in
                (Ok res, HeaderInline header header_len payload ho po)
      | Err e => (Err e, w)
      | Panic => (Panic, w)
      end
  | HeaderInlineAligned header header_len payload header_off payload_off =>
      match range_of header 0 header_len with
      | Ok h => let '(res, (ho, po)) := poll_header_payload poll h payload header_off payload_off in
                (Ok res, HeaderInlineAligned header header_len payload ho po)
      | Err e => (Err e, w)
      | Panic => (Panic, w)
      end
  | Chunks chunks offset =>
      if total_len chunks <=? offset then (Ok (Some (OComplete [])), w)
      else match skip_written_chunks chunks offset with
      | ([], _) => (Ok (Some (OComplete [])), w)
      | (first :: rest, chunk_off) =>
          let '(res, offset) :=
            poll_fixed poll (drop (Z.to_nat chunk_off) first :: rest) offset (total_len chunks) in
          (Ok res, Chunks chunks offset)
      end
  | BufWrite runs =>
      if len (concat runs) =? 0 then (Ok (Some (OComplete [])), w)
      else match poll_vectored poll [buf_chunk runs] with
      | None => (Ok None, w)
      | Some (OPartial b) | Some (OComplete b) =>
          let runs := buf_advance (len b) runs in
          (Ok (Some (if len (concat runs) =? 0 then OComplete b else OPartial b)), BufWrite runs)
      | Some OFailed => (Ok (Some OFailed), w)
      end
  | AskNack header offset =>
      if len header <=? offset then (Ok (Some (OComplete [])), w)
      else
        let '(res, offset) := poll_fixed poll [drop (Z.to_nat offset) header] offset (len header) in
        (Ok res, AskNack header offset)
  end.

(** [Pending] is no progress. *)
Definition poll_pending_ordinary_nowait (poll : option WriteOutcome) (w : PendingOrdinaryWrite)
    : Result OrdinaryWriteProgress * PendingOrdinaryWrite :=
  let '(res, w) := poll_pending_ordinary poll w in ((fun p => default (OPartial []) p) <$> res, w).

(** ** The bounded attempt

    [attempt] is the outcome of the write, or [None] when its time ran out. *)
Inductive BoundedWrite := Wrote (written : list Z) | NotWritten (progress : OrdinaryWriteProgress).

Definition bounded_write (attempt : option WriteOutcome) (now : Z) (slices : list (list Z)) (c : WedgeClocks)
    : BoundedWrite * WedgeClocks :=
  match attempt with
  | Some o =>
      match write_vectored_once o slices with
      | Ok w => (Wrote w, (record_slice_attempt false true now c).2)
      | _ => (NotWritten OFailed, c)
      end
  | None =>
      match record_slice_attempt false false now c with
      | (TearDown _, c) => (NotWritten OFailed, c)
      | (Continue, c) => (NotWritten (OPartial []), c)
      end
  end.

Definition write_header_payload_once (attempt : option WriteOutcome) (now : Z) (header payload : list Z)
    (header_off payload_off : Z) (c : WedgeClocks)
    : OrdinaryWriteProgress * (Z * Z) * WedgeClocks :=
  let header_len := len header in
  if (header_len <=? header_off) && (len payload <=? payload_off)
  then (OComplete [], (header_off, payload_off), c)
  else match bounded_write attempt now (header_payload_slices header payload header_off payload_off) c with
  | (Wrote w, c) =>
      let '(header_off, payload_off) :=
        advance_header_payload_offset header_len header_off payload_off (len w) in
      (if (header_len <=? header_off) && (len payload <=? payload_off) then OComplete w else OPartial w,
       (header_off, payload_off), c)
  | (NotWritten p, c) => (p, (header_off, payload_off), c)
  end.

Definition write_chunks_once (attempt : option WriteOutcome) (now : Z) (chunks : list (list Z)) (offset : Z)
    (c : WedgeClocks) : OrdinaryWriteProgress * Z * WedgeClocks :=
  if total_len chunks <=? offset then (OComplete [], offset, c)
  else match skip_written_chunks chunks offset with
  | ([], _) => (OComplete [], offset, c)
  | (first :: rest, chunk_off) =>
      match bounded_write attempt now (drop (Z.to_nat chunk_off) first :: rest) c with
      | (Wrote w, c) =>
          (if total_len chunks <=? offset + len w then OComplete w else OPartial w, offset + len w, c)
      | (NotWritten p, c) => (p, offset, c)
      end
  end.

Definition write_generic_buf_once (attempt : option WriteOutcome) (now : Z) (runs : list (list Z))
    (c : WedgeClocks) : OrdinaryWriteProgress * list (list Z) * WedgeClocks :=
  if len (concat runs) =? 0 then (OComplete [], runs, c)
  else match bounded_write attempt now [buf_chunk runs] c with
  | (Wrote w, c) =>
      let runs := buf_advance (len w) runs in
      (if len (concat runs) =? 0 then OComplete w else OPartial w, runs, c)
  | (NotWritten p, c) => (p, runs, c)
  end.

Definition write_pending_ordinary_bounded (attempt : option WriteOutcome) (now : Z)
    (w : PendingOrdinaryWrite) (c : WedgeClocks)
    : Result OrdinaryWriteProgress * PendingOrdinaryWrite * WedgeClocks :=
  match w with
  | HeaderInline header header_len payload header_off payload_off =>
      match range_of header 0 header_len with
      | Ok h =>
          let '(res, (ho, po), c) := write_header_payload_once attempt now h payload header_off payload_off c in
          (Ok res, HeaderInline header header_len payload ho po, c)
      | Err e => (Err e, w, c)
      | Panic => (Panic, w, c)
      end
  | HeaderInlineAligned header header_len payload header_off payload_off =>
      match range_of header 0 header_len with
      | Ok h =>
          let '(res, (ho, po), c) := write_header_payload_once attempt now h payload header_off payload_off c in
          (Ok res, HeaderInlineAligned header header_len payload ho po, c)
      | Err e => (Err e, w, c)
      | Panic => (Panic, w, c)
      end
  | Chunks chunks offset =>
      let '(res, offset, c) := write_chunks_once attempt now chunks offset c in
      (Ok res, Chunks chunks offset, c)
  | BufWrite runs =>
      let '(res, runs, c) := write_generic_buf_once attempt now runs c in (Ok res, BufWrite runs, c)
  | AskNack header offset =>
      let '(res, (ho, _), c) := write_header_payload_once attempt now header [] offset 0 c in
      (Ok res, AskNack header ho, c)
  end.

(** ** The batch of inline responses *)
Record ResponseBatch := mkBatch {
  rb_correlation_ids : list Z;
  rb_payloads : list (list Z);
  rb_total_bytes : Z;
}.

Definition batch_new : ResponseBatch := mkBatch [] [] 0.

(** A compacted payload is a copy of the same bytes. *)
Definition push_bytes (correlation_id : Z) (payload : list Z) (b : ResponseBatch) : ResponseBatch :=
  mkBatch (rb_correlation_ids b ++ [correlation_id]) (rb_payloads b ++ [payload])
    (rb_total_bytes b + len payload).

Fixpoint wire_chunks (ids : list Z) (payloads : list (list Z)) : Result (list (list Z)) :=
  match ids, payloads with
  | id :: ids, payload :: payloads =>
      header ← try_write_ask_response_header MResponse id (len payload);
      rest ← wire_chunks ids payloads;
      Ok (header :: payload :: rest)
  | _, _ => Ok []
  end.

Definition take_wire_chunks (b : ResponseBatch) : Result (list (list Z)) * ResponseBatch :=
  match wire_chunks (rb_correlation_ids b) (rb_payloads b) with
  | Ok chunks => (Ok chunks, mkBatch [] [] 0)
  | Err e => (Err e, mkBatch [] [] (rb_total_bytes b))
  | Panic => (Panic, mkBatch [] [] (rb_total_bytes b))
  end.

(** Parked when there is something to send and no ordinary write is pending. *)
Definition park_ask_response_batch (pending : option PendingOrdinaryWrite) (b : ResponseBatch)
    : Result bool * option PendingOrdinaryWrite * ResponseBatch :=
  if bool_decide (rb_payloads b = []) || bool_decide (is_Some pending) then (Ok false, pending, b)
  else match take_wire_chunks b with
  | (Ok chunks, b) => (Ok true, Some (Chunks chunks 0), b)
  | (Err e, b) => (Err e, pending, b)
  | (Panic, b) => (Panic, pending, b)
  end.

Definition park_ask_response_batch_if_over_byte_cap (pending : option PendingOrdinaryWrite)
    (b : ResponseBatch) : Result bool * option PendingOrdinaryWrite * ResponseBatch :=
  if rb_total_bytes b <? RESPONSE_BATCH_BYTE_CAP then (Ok false, pending, b)
  else park_ask_response_batch pending b.
