(* ===== verification/OrdinaryInv.v ===== *)
(** * Ordinary writes as slice writers

    A pending ordinary write loses and repeats nothing, whichever of the two
    routines resumes it. *)

From S2P Require Import Prelude Types Framing Streaming WriterCommands StreamWriter SliceWriter OrdinaryWriter.

Definition ordinary_remaining (w : PendingOrdinaryWrite) : list Z :=
  match w with
  | HeaderInline header header_len payload ho po | HeaderInlineAligned header header_len payload ho po =>
      drop (Z.to_nat ho) (take (Z.to_nat header_len) header) ++ drop (Z.to_nat po) payload
  | Chunks chunks offset => drop (Z.to_nat offset) (concat chunks)
  | BufWrite runs => concat runs
  | AskNack header offset => drop (Z.to_nat offset) header
  end.

Definition ordinary_ok (w : PendingOrdinaryWrite) : Prop :=
  match w with
  | HeaderInline header header_len payload ho po | HeaderInlineAligned header header_len payload ho po =>
      0 <= header_len <= len header /\ 0 <= ho /\ 0 <= po
  | Chunks _ offset | AskNack _ offset => 0 <= offset
  | BufWrite _ => True
  end.

(** ** Pieces *)
Lemma rest_of_drop l off : 0 <= off -> rest_of l off = drop (Z.to_nat off) l.
Proof.
  intros H. unfold rest_of. destruct (Z.ltb_spec off (len l)); [done|].
  symmetry. apply drop_ge. unfold len in *. lia.
Qed.

Lemma drop_nil_iff {A} (l : list A) off : 0 <= off -> drop (Z.to_nat off) l = [] <-> len l <= off.
Proof.
  intros H. split.
  - intros E. apply (f_equal len) in E. rewrite len_drop in E by done. change (len []) with 0 in E. lia.
  - intros Hl. apply drop_ge. unfold len in *. lia.
Qed.

Lemma concat_header_payload h p ho po :
  0 <= ho -> 0 <= po ->
  concat (header_payload_slices h p ho po) = drop (Z.to_nat ho) h ++ drop (Z.to_nat po) p.
Proof.
  intros H1 H2. unfold header_payload_slices. rewrite !rest_of_drop by done.
  destruct (drop (Z.to_nat ho) h), (drop (Z.to_nat po) p); cbn; now rewrite ?app_nil_r.
Qed.

Lemma advance_run (h p w rest : list Z) ho po :
  0 <= ho -> 0 <= po -> drop (Z.to_nat ho) h ++ drop (Z.to_nat po) p = w ++ rest ->
  let '(ho', po') := advance_header_payload_offset (len h) ho po (len w) in
  0 <= ho' /\ 0 <= po' /\ drop (Z.to_nat ho') h ++ drop (Z.to_nat po') p = rest.
Proof.
  intros H1 H2 E. pose proof (len_nonneg w). pose proof (len_nonneg h).
  apply (f_equal (drop (length w))) in E. rewrite drop_app_length in E. rewrite <- E. clear E.
  replace (length w) with (Z.to_nat (len w)) by (unfold len; lia).
  unfold advance_header_payload_offset. destruct (Z.ltb_spec ho (len h)) as [Hh|Hh].
  - destruct (Z.ltb_spec (len w) (len h - ho)) as [Hw|Hw]; cbn; (split_and!; [lia..|]).
    + rewrite drop_app_le by (rewrite length_drop; unfold len in *; lia). now rewrite drop_drop_Z by lia.
    + rewrite drop_app_ge by (rewrite length_drop; unfold len in *; lia).
      rewrite (drop_ge h) by (unfold len; lia). cbn [app]. rewrite drop_drop. f_equal. rewrite length_drop. unfold len in *. lia.
  - cbn. split_and!; [lia..|]. rewrite (drop_ge h) by (unfold len in *; lia). cbn [app].
    now rewrite drop_drop_Z by lia.
Qed.

Lemma skip_written chunks : forall offset,
  0 <= offset -> offset < len (concat chunks) ->
  exists first rest o, skip_written_chunks chunks offset = (first :: rest, o) /\ 0 <= o
    /\ concat (drop (Z.to_nat o) first :: rest) = drop (Z.to_nat offset) (concat chunks).
Proof.
  induction chunks as [|c chunks IH]; intros off H0 Hlt; [change (len (concat [])) with 0 in Hlt; lia|].
  cbn [skip_written_chunks concat] in *. rewrite len_app in Hlt. pose proof (len_nonneg c).
  destruct (Z.leb_spec (len c) off) as [E|E].
  - destruct (IH (off - len c)) as (f & r & o & -> & Ho & Hc); [lia..|]. exists f, r, o. split_and!; auto.
    rewrite Hc, drop_app_ge by (unfold len in *; lia). f_equal. unfold len in *. lia.
  - exists c, chunks, off. split_and!; auto. cbn. rewrite drop_app_le by (unfold len in *; lia). done.
Qed.

Lemma total_len_concat chunks : total_len chunks = len (concat chunks).
Proof. unfold total_len. induction chunks as [|c l IH]; [done|]. cbn. now rewrite len_app, IH. Qed.

Lemma buf_chunk_prefix runs : exists rest, concat runs = buf_chunk runs ++ rest
  /\ (concat runs <> [] -> buf_chunk runs <> []).
Proof.
  induction runs as [|[|x run] runs IH]; cbn; [now exists []|exact IH|].
  exists (concat runs). done.
Qed.

Lemma buf_advance_concat runs : forall n, 0 <= n -> concat (buf_advance n runs) = drop (Z.to_nat n) (concat runs).
Proof.
  induction runs as [|run runs IH]; intros n Hn; cbn; [now rewrite drop_nil|].
  destruct (Z.leb_spec (len run) n) as [E|E].
  - rewrite IH by lia. rewrite drop_app_ge by (unfold len in *; lia). f_equal. unfold len in *. lia.
  - cbn. now rewrite drop_app_le by (unfold len in *; lia).
Qed.

(** ** The poll, as the single write *)
Lemma poll_vectored_write o slices :
  0 < len (concat slices) ->
  poll_vectored (Some o) slices
  = Some (match write_vectored_once o slices with Ok w => OPartial w | _ => OFailed end).
Proof.
  intros H. unfold poll_vectored, write_vectored_once. rewrite (proj2 (Z.eqb_neq _ 0)) by lia.
  destruct o as [n|]; [|done]. now destruct (n =? 0).
Qed.

(** What a poll of a write with bytes left does: one write of a run of them. *)
Definition polls_to (o : WriteOutcome) (slices : list (list Z)) (w : PendingOrdinaryWrite) : Prop :=
  match write_vectored_once o slices with
  | Ok b => exists w', poll_pending_ordinary (Some o) w
              = (Ok (Some (if bool_decide (ordinary_remaining w' = []) then OComplete b else OPartial b)), w')
            /\ ordinary_ok w' /\ ordinary_remaining w = b ++ ordinary_remaining w'
  | _ => poll_pending_ordinary (Some o) w = (Ok (Some OFailed), w)
  end.

Lemma written_prefix o slices text b :
  offers text 0 slices -> write_vectored_once o slices = Ok b ->
  text = b ++ drop (Z.to_nat (len b)) text /\ len b <= len text.
Proof.
  intros (n & Hn & Hfit & Hc). unfold write_vectored_once. rewrite Hc, drop_0.
  rewrite len_take by lia. destruct (_ =? 0); [intros [= <-]; split; [done|apply len_nonneg]|].
  destruct o as [m|]; [|done]. destruct (m =? 0); [done|]. intros [= <-].
  rewrite take_take. set (k := (Z.to_nat m `min` Z.to_nat n)%nat).
  unfold len. rewrite Nat2Z.id, length_take. split; [|lia].
  replace (k `min` length text)%nat with k by (unfold len in *; lia). now rewrite take_drop.
Qed.

(** Offering everything that is left. *)
Lemma offers_all text slices : text <> [] -> concat slices = text -> offers text 0 slices.
Proof.
  intros Hn E. apply len_pos in Hn. exists (len text). split_and!; [lia..|].
  rewrite E, drop_0, take_ge; [done|]. unfold len. lia.
Qed.

Lemma header_payload_done (h p : list Z) ho po :
  0 <= ho -> 0 <= po ->
  (len h <=? ho) && (len p <=? po) = bool_decide (drop (Z.to_nat ho) h ++ drop (Z.to_nat po) p = []).
Proof.
  intros H1 H2. rewrite (bool_decide_ext _ (len h <= ho /\ len p <= po)).
  - destruct (Z.leb_spec (len h) ho), (Z.leb_spec (len p) po); symmetry;
      first [apply bool_decide_eq_true_2; lia | apply bool_decide_eq_false_2; lia].
  - rewrite app_nil, !drop_nil_iff by done. done.
Qed.

Lemma poll_header_payload_spec o h p ho po :
  0 <= ho -> 0 <= po -> drop (Z.to_nat ho) h ++ drop (Z.to_nat po) p <> [] ->
  let slices := header_payload_slices h p ho po in
  match write_vectored_once o slices with
  | Ok b => exists ho' po', 0 <= ho' /\ 0 <= po'
      /\ drop (Z.to_nat ho) h ++ drop (Z.to_nat po) p = b ++ drop (Z.to_nat ho') h ++ drop (Z.to_nat po') p
      /\ (advance_header_payload_offset (len h) ho po (len b) = (ho', po'))
      /\ poll_header_payload (Some o) h p ho po
         = (Some (if bool_decide (drop (Z.to_nat ho') h ++ drop (Z.to_nat po') p = []) then OComplete b else OPartial b),
            (ho', po'))
  | _ => poll_header_payload (Some o) h p ho po = (Some OFailed, (ho, po))
  end.
Proof.
  intros H1 H2 Hn slices. pose proof (concat_header_payload h p ho po H1 H2) as Hc. fold slices in Hc.
  assert (0 < len (concat slices)) as Hpos by (rewrite Hc; now apply len_pos).
  unfold poll_header_payload. rewrite header_payload_done by done. rewrite bool_decide_eq_false_2 by done.
  fold slices. rewrite poll_vectored_write by done.
  destruct (write_vectored_once o slices) as [b|e|] eqn:E; try done.
  destruct (written_prefix o slices _ b (offers_all _ slices Hn Hc) E) as [Hb _].
  pose proof (advance_run h p b _ ho po H1 H2 Hb) as Ha.
  destruct (advance_header_payload_offset (len h) ho po (len b)) as [ho' po']. destruct Ha as (H3 & H4 & H5).
  exists ho', po'. rewrite header_payload_done by done. rewrite H5 at 1. split_and!; auto.
Qed.

Lemma poll_fixed_spec o slices text off :
  0 <= off < len text -> concat slices = drop (Z.to_nat off) text ->
  match write_vectored_once o slices with
  | Ok b => drop (Z.to_nat off) text = b ++ drop (Z.to_nat (off + len b)) text
      /\ poll_fixed (Some o) slices off (len text)
         = (Some (if bool_decide (drop (Z.to_nat (off + len b)) text = []) then OComplete b else OPartial b), off + len b)
  | _ => poll_fixed (Some o) slices off (len text) = (Some OFailed, off)
  end.
Proof.
  intros H0 Hc. assert (drop (Z.to_nat off) text <> []) as Hn by (rewrite drop_nil_iff; lia).
  unfold poll_fixed. rewrite poll_vectored_write by (rewrite Hc; now apply len_pos).
  destruct (write_vectored_once o slices) as [b|e|] eqn:E; try done.
  destruct (written_prefix o slices _ b (offers_all _ slices Hn Hc) E) as [Hb _]. pose proof (len_nonneg b).
  rewrite drop_drop_Z in Hb by lia. split; [done|]. do 3 f_equal.
  rewrite (bool_decide_ext _ (len text <= off + len b)) by (rewrite drop_nil_iff; [done|lia]).
  destruct (Z.leb_spec (len text) (off + len b)); [now rewrite bool_decide_eq_true_2|now rewrite bool_decide_eq_false_2 by lia].
Qed.

Lemma buf_polls o runs :
  concat runs <> [] ->
  exists slices, offers (concat runs) 0 slices /\ polls_to o slices (BufWrite runs).
Proof.
  intros Hn. unfold polls_to.
  destruct (buf_chunk_prefix runs) as (rest & Hc & Hne). specialize (Hne Hn).
  exists [buf_chunk runs]. assert (offers (concat runs) 0 [buf_chunk runs]) as Hof.
  { exists (len (buf_chunk runs)). apply len_pos in Hne. split_and!; [lia|rewrite Hc, len_app; pose proof (len_nonneg rest); lia|].
    cbn. rewrite app_nil_r, Hc, drop_0. unfold len. now rewrite Nat2Z.id, take_app_length. }
  split; [done|]. cbn [poll_pending_ordinary]. apply len_pos in Hn. rewrite (proj2 (Z.eqb_neq _ 0)) by lia.
  rewrite poll_vectored_write by (cbn; rewrite app_nil_r; now apply len_pos).
  destruct (write_vectored_once o _) as [b|e|] eqn:E; try done.
  destruct (written_prefix _ _ _ _ Hof E) as [Hb _]. pose proof (len_nonneg b).
  exists (BufWrite (buf_advance (len b) runs)). cbn [ordinary_remaining ordinary_ok]. rewrite buf_advance_concat by done.
  split_and!; auto. do 3 f_equal.
  destruct (Z.eqb_spec (len (drop (Z.to_nat (len b)) (concat runs))) 0) as [E0|E0];
    [now rewrite bool_decide_eq_true_2 by now apply len_0|rewrite bool_decide_eq_false_2; [done|intros E1; apply E0; now rewrite E1]].
Qed.

Lemma ordinary_polls o w :
  ordinary_ok w -> ordinary_remaining w <> [] ->
  exists slices, offers (ordinary_remaining w) 0 slices /\ polls_to o slices w.
Proof.
  intros Hok Hn. unfold polls_to. destruct w as [h hl p ho po|h hl p ho po|chunks off|runs|h off]; cbn in Hok.
  1,2: destruct Hok as (Hl & H1 & H2); cbn in Hn; set (h' := take (Z.to_nat hl) h) in *;
    exists (header_payload_slices h' p ho po); (split; [apply offers_all, concat_header_payload; done|]);
    pose proof (poll_header_payload_spec o h' p ho po H1 H2 Hn) as Hs; cbv zeta in Hs; cbn [poll_pending_ordinary];
    rewrite range_of_Ok by lia; rewrite Z.sub_0_r, drop_0; fold h';
    (destruct (write_vectored_once o _) as [b|e|]; [|now rewrite Hs..]);
    destruct Hs as (ho' & po' & H3 & H4 & H5 & _ & ->);
    first [exists (HeaderInline h hl p ho' po'); done | exists (HeaderInlineAligned h hl p ho' po'); done].
  - cbn in Hn. rewrite drop_nil_iff in Hn by done.
    destruct (skip_written chunks off Hok ltac:(lia)) as (f & r & co & Es & Hco & Hc).
    exists (drop (Z.to_nat co) f :: r). split; [apply offers_all; [cbn; rewrite drop_nil_iff; lia|done]|].
    cbn [poll_pending_ordinary]. rewrite total_len_concat, (proj2 (Z.leb_gt (len (concat chunks)) off)), Es by lia.
    pose proof (poll_fixed_spec o _ (concat chunks) off ltac:(lia) Hc) as Hs.
    destruct (write_vectored_once o _) as [b|e|]; [|now rewrite Hs..]. destruct Hs as [H1 ->].
    exists (Chunks chunks (off + len b)). pose proof (len_nonneg b). cbn. split_and!; [done|lia|done].
  - now apply buf_polls.
  - cbn in Hn. rewrite drop_nil_iff in Hn by done.
    exists [drop (Z.to_nat off) h]. split; [apply offers_all; [cbn; rewrite drop_nil_iff; lia|apply app_nil_r]|].
    cbn [poll_pending_ordinary]. rewrite (proj2 (Z.leb_gt (len h) off)) by lia.
    pose proof (poll_fixed_spec o [drop (Z.to_nat off) h] h off ltac:(lia) (app_nil_r _)) as Hs.
    destruct (write_vectored_once o _) as [b|e|]; [|now rewrite Hs..]. destruct Hs as [H1 ->].
    exists (AskNack h (off + len b)). pose proof (len_nonneg b). cbn. split_and!; [done|lia|done].
Qed.

Lemma ordinary_done p w :
  ordinary_ok w -> ordinary_remaining w = [] -> poll_pending_ordinary p w = (Ok (Some (OComplete [])), w).
Proof.
  intros Hok Hn. destruct w as [h hl q ho po|h hl q ho po|chunks off|runs|h off]; cbn in Hok, Hn; cbn [poll_pending_ordinary].
  1,2: destruct Hok as (Hl & H1 & H2); rewrite range_of_Ok by lia; rewrite Z.sub_0_r, drop_0; unfold poll_header_payload;
    rewrite header_payload_done by done; now rewrite bool_decide_eq_true_2 by done.
  - rewrite drop_nil_iff in Hn by done. now rewrite total_len_concat, (proj2 (Z.leb_le _ _)) by lia.
  - now rewrite Hn.
  - rewrite drop_nil_iff in Hn by done. now rewrite (proj2 (Z.leb_le _ _)) by lia.
Qed.

(** ** The laws *)
#[export] Instance ordinary_writer : SliceWriter PendingOrdinaryWrite := {
  sw_slice o w :=
    let '(res, w) := poll_pending_ordinary (Some o) w in
    (match res with
     | Ok (Some (OComplete b)) => Ok (b, true)
     | Ok (Some (OPartial b)) => Ok (b, false)
     | Ok (Some OFailed) => Err (Network WriteZero)
     | Ok None => Ok ([], false)
     | Err e => Err e
     | Panic => Panic
     end, w);
  sw_remaining := ordinary_remaining;
  sw_ok := ordinary_ok;
}.

#[export] Instance ordinary_writer_laws : SliceWriterLaws PendingOrdinaryWrite.
Proof.
  split; cbn [sw_slice sw_remaining sw_ok ordinary_writer]; intros o w Hok E.
  - rewrite ordinary_done by done. eauto.
  - intros Ho. destruct (ordinary_polls o w Hok E) as (slices & Hof & Hp). unfold polls_to in Hp.
    destruct (offer_accepted _ _ _ o (Z.le_refl 0) Hof Ho) as (b & Eb & Hb & _). rewrite Eb in Hp.
    destruct Hp as (w' & -> & H1 & H2). exists b, w'. split_and!; auto; [|now intros ->].
    now destruct (bool_decide (ordinary_remaining w' = [])).
  - intros Ho. destruct (ordinary_polls o w Hok E) as (slices & Hof & Hp). unfold polls_to in Hp.
    destruct (offer_refused _ _ _ o (Z.le_refl 0) Hof Ho) as (e & Eb). rewrite Eb in Hp. rewrite Hp. eauto.
Qed.

(** ** The two routines *)
Lemma bounded_write_some o now slices c :
  0 < len (concat slices) ->
  exists c', bounded_write (Some o) now slices c
             = (match write_vectored_once o slices with Ok w => Wrote w | _ => NotWritten OFailed end, c').
Proof. intros H. cbn. destruct (write_vectored_once o slices); eauto. Qed.

Lemma header_payload_once_poll o now h p ho po c :
  0 <= ho -> 0 <= po ->
  exists c', let '(res, off) := poll_header_payload (Some o) h p ho po in
    exists r, res = Some r /\ write_header_payload_once (Some o) now h p ho po c = (r, off, c').
Proof.
  intros H1 H2. unfold poll_header_payload, write_header_payload_once.
  destruct ((len h <=? ho) && (len p <=? po)) eqn:E; [eauto|].
  rewrite header_payload_done in E by done. apply bool_decide_eq_false in E. apply len_pos in E.
  rewrite <- (concat_header_payload h p) in E by done. rewrite poll_vectored_write by done.
  destruct (bounded_write_some o now _ c E) as (c' & ->). exists c'.
  destruct (write_vectored_once o _) as [b|e|]; [|eauto..].
  destruct (advance_header_payload_offset _ _ _ _) as [ho' po']. eauto.
Qed.

(** The ask NACK goes through the header routine. *)
Lemma nack_once_poll o now h off c :
  0 <= off ->
  exists r off' c',
    write_header_payload_once (Some o) now h [] off 0 c = (r, off', c')
    /\ poll_pending_ordinary (Some o) (AskNack h off) = (Ok (Some r), AskNack h off'.1).
Proof.
  intros H0. destruct (header_payload_once_poll o now h [] off 0 c H0 (Z.le_refl 0)) as (c' & Hp).
  cbn [poll_pending_ordinary]. destruct (Z.leb_spec (len h) off) as [E|E].
  - unfold poll_header_payload, write_header_payload_once in *. rewrite (proj2 (Z.leb_le (len h) off)) in * by lia.
    cbn in *. eauto 6.
  - assert (drop (Z.to_nat off) h ++ drop (Z.to_nat 0) [] <> []) as Hn
      by (cbn; rewrite app_nil_r, drop_nil_iff; lia).
    pose proof (poll_header_payload_spec o h [] off 0 H0 (Z.le_refl 0) Hn) as Hs. cbv zeta in Hs.
    pose proof (poll_fixed_spec o [drop (Z.to_nat off) h] h off ltac:(lia) (app_nil_r _)) as Hf.
    assert (write_vectored_once o (header_payload_slices h [] off 0) = write_vectored_once o [drop (Z.to_nat off) h]) as Ew.
    { apply write_vectored_concat. now rewrite concat_header_payload by lia. }
    rewrite Ew in Hs. destruct (write_vectored_once o [drop (Z.to_nat off) h]) as [b|e|].
    + destruct Hs as (ho' & po' & H1 & H2 & H3 & Ha & Es). rewrite Es in Hp. destruct Hp as (r & [= <-] & ->).
      destruct Hf as [Hb ->]. eexists _, _, _. split; [reflexivity|]. cbn [fst].
      pose proof (len_nonneg b).
      assert (len b <= len h - off) as Hle.
      { apply (f_equal len) in Hb. rewrite len_app, !len_drop in Hb by lia. lia. }
      unfold advance_header_payload_offset in Ha. rewrite (proj2 (Z.ltb_lt off (len h))) in Ha by lia.
      assert (ho' = off + len b) as -> by (destruct (Z.ltb_spec (len b) (len h - off)); injection Ha as <- _; lia).
      rewrite drop_nil, app_nil_r. done.
    + rewrite Hs in Hp. destruct Hp as (r & [= <-] & ->). rewrite Hf. eauto 6.
    + rewrite Hs in Hp. destruct Hp as (r & [= <-] & ->). rewrite Hf. eauto 6.
Qed.

Lemma chunks_once_poll o now chunks off c :
  0 <= off ->
  exists r off' c', write_chunks_once (Some o) now chunks off c = (r, off', c')
    /\ poll_pending_ordinary (Some o) (Chunks chunks off) = (Ok (Some r), Chunks chunks off').
Proof.
  intros H0. cbn [poll_pending_ordinary]. unfold write_chunks_once. rewrite total_len_concat.
  destruct (Z.leb_spec (len (concat chunks)) off) as [E|E]; [eauto 6|].
  destruct (skip_written chunks off H0 E) as (f & r & co & -> & Hco & Hc).
  assert (0 < len (concat (drop (Z.to_nat co) f :: r))) as Hpos by (rewrite Hc; apply len_pos; rewrite drop_nil_iff; lia).
  unfold poll_fixed. rewrite poll_vectored_write by done.
  destruct (bounded_write_some o now _ c Hpos) as (c' & ->). destruct (write_vectored_once o _); eauto 6.
Qed.

Lemma buf_once_poll o now runs c :
  exists r runs' c', write_generic_buf_once (Some o) now runs c = (r, runs', c')
    /\ poll_pending_ordinary (Some o) (BufWrite runs) = (Ok (Some r), BufWrite runs').
Proof.
  cbn [poll_pending_ordinary]. unfold write_generic_buf_once.
  destruct (Z.eqb_spec (len (concat runs)) 0) as [E|E]; [eauto 6|].
  assert (concat runs <> []) as Hn by (intros E0; apply E; now rewrite E0).
  destruct (buf_chunk_prefix runs) as (_ & _ & Hne). specialize (Hne Hn).
  assert (0 < len (concat [buf_chunk runs])) as Hpos by (cbn; rewrite app_nil_r; now apply len_pos).
  rewrite poll_vectored_write by done. destruct (bounded_write_some o now _ c Hpos) as (c' & ->).
  destruct (write_vectored_once o _); eauto 6.
Qed.

(** The routine that waits for the transport and the one that polls it are
    interchangeable.  From the same position, a bounded attempt that meets the
    transport's answer reports the same progress and leaves the same pending
    write as a poll that meets it; one that runs out of time leaves the write
    as it was and reports no progress, or failure once writes have been stuck
    for the teardown budget. *)
Theorem bounded_like_poll w now c :
  ordinary_ok w ->
  (forall o, exists r w' c', write_pending_ordinary_bounded (Some o) now w c = (Ok r, w', c')
     /\ poll_pending_ordinary (Some o) w = (Ok (Some r), w'))
  /\ (ordinary_remaining w <> [] ->
      write_pending_ordinary_bounded None now w c
      = (Ok (match (record_slice_attempt false false now c).1 with TearDown _ => OFailed | Continue => OPartial [] end),
         w, (record_slice_attempt false false now c).2)).
Proof.
  intros Hok. split.
  - intros o. destruct w as [h hl p ho po|h hl p ho po|chunks off|runs|h off]; cbn in Hok; cbn [write_pending_ordinary_bounded].
    1,2: destruct Hok as (Hl & H1 & H2); cbn [poll_pending_ordinary]; rewrite range_of_Ok by lia;
      (destruct (header_payload_once_poll o now (take (Z.to_nat (hl - 0)) (drop (Z.to_nat 0) h)) p ho po c H1 H2) as (c' & Hp));
      (destruct (poll_header_payload _ _ _ _ _) as [res [ho' po']]); destruct Hp as (r & -> & ->); eauto 6.
    + destruct (chunks_once_poll o now chunks off c Hok) as (r & off' & c' & -> & ->). eauto 6.
    + destruct (buf_once_poll o now runs c) as (r & runs' & c' & -> & ->). eauto 6.
    + destruct (nack_once_poll o now h off c Hok) as (r & [ho' po'] & c' & -> & ->). eauto 6.
  - intros Hn. assert (forall slices, bounded_write None now slices c
      = (NotWritten (match (record_slice_attempt false false now c).1 with TearDown _ => OFailed | Continue => OPartial [] end),
         (record_slice_attempt false false now c).2)) as Hb
      by (intros slices; unfold bounded_write; now destruct (record_slice_attempt false false now c) as [[] ?]).
    destruct w as [h hl p ho po|h hl p ho po|chunks off|runs|h off]; cbn in Hok, Hn; cbn [write_pending_ordinary_bounded].
    1,2: destruct Hok as (Hl & H1 & H2); rewrite range_of_Ok by lia; rewrite Z.sub_0_r, drop_0;
      unfold write_header_payload_once; rewrite header_payload_done, bool_decide_eq_false_2 by done; now rewrite Hb.
    + rewrite drop_nil_iff in Hn by done. unfold write_chunks_once.
      rewrite total_len_concat, (proj2 (Z.leb_gt (len (concat chunks)) off)) by lia.
      destruct (skip_written chunks off Hok ltac:(lia)) as (f & r & co & -> & _). now rewrite Hb.
    + unfold write_generic_buf_once. apply len_pos in Hn. rewrite (proj2 (Z.eqb_neq _ 0)) by lia. now rewrite Hb.
    + rewrite drop_nil_iff in Hn by done. unfold write_header_payload_once.
      rewrite (proj2 (Z.leb_gt (len h) off)) by lia. cbn [andb]. now rewrite Hb.
Qed.

Lemma bounded_like_poll_witness :
  exists r w' c',
    write_pending_ordinary_bounded (Some (Accepted 3)) 5 (Chunks [[1; 2]; [3; 4]] 0) (mkClocks None None) = (Ok r, w', c')
    /\ poll_pending_ordinary (Some (Accepted 3)) (Chunks [[1; 2]; [3; 4]] 0) = (Ok (Some r), w').
Proof.
  destruct (bounded_like_poll (Chunks [[1; 2]; [3; 4]] 0) 5 (mkClocks None None)) as [H _]; [cbn; lia|].
  apply (H (Accepted 3)).
Defined.
