(* ===== verification/OrdinaryBatch.v ===== *)
(** * A batch of ordinary commands

    The part of a writer turn that takes queued payloads to the transport
    (src/src/connection_pool/stream_writer.rs, [io_task]): payloads of the same
    shape are gathered and written together, a payload of another shape first
    pushes out what was gathered, and a partial write stops the batch and leaves
    the rest of it for later turns. *)

From S2P Require Import Prelude Types Framing Streaming WriterCommands StreamWriter SliceWriter OrdinaryWriter.

Definition OWNER_BATCH_SIZE : Z := 64.

Inductive WritePayload :=
  | PSingle (data : list Z)
  | PTrustedFrame (data : list Z)
  | PHeaderPayload (header payload : list Z)
  | PHeaderInline (header : list Z) (header_len : Z) (payload : list Z)
  | PHeaderInlineAligned (header : list Z) (header_len : Z) (payload : list Z)
  | PHeaderInline32 (header payload : list Z)
  | PHeaderPooled (header : list Z) (prefix : option (list Z)) (payload : PooledPayload)
  | PHeaderInlinePooled (header : list Z) (header_len : Z) (prefix : option (list Z)) (prefix_len : Z)
      (payload : PooledPayload)
  | PDirectAskInline (header payload : list Z)
  | PBuf (runs : list (list Z)) (expected_len : Z).

Inductive WriteCommand :=
  | Payload (p : WritePayload)
  | ImmediatePayload (p : WritePayload)
  | AskPayload (p : WritePayload).

Definition payload_of (c : WriteCommand) : WritePayload :=
  match c with Payload p | ImmediatePayload p | AskPayload p => p end.

Definition requeue_write_command (is_immediate_payload is_ask_payload : bool) (p : WritePayload) : WriteCommand :=
  if is_immediate_payload then ImmediatePayload p else if is_ask_payload then AskPayload p else Payload p.

(** The command again, as a partial write of what precedes it puts it back. *)
Definition requeued (c : WriteCommand) : WriteCommand :=
  requeue_write_command (match c with ImmediatePayload _ => true | _ => false end)
    (match c with AskPayload _ => true | _ => false end) (payload_of c).

(** What has been gathered, what is pending, what is left over; the transport's
    answers still to come, and what went out. *)
Record Batch := mkBatchState {
  b_chunks : list (list Z);
  b_inline32_headers : list (list Z);
  b_inline32_payloads : list (list Z);
  b_direct_headers : list (list Z);
  b_direct_payloads : list (list Z);
  b_pending : option PendingOrdinaryWrite;
  b_leftover : list WriteCommand;
  b_clocks : WedgeClocks;
  b_attempts : list (option WriteOutcome);
  b_total : Z;
  b_out : list Z;
}.

Definition set_gathered chunks ih ip dh dp (b : Batch) : Batch :=
  mkBatchState chunks ih ip dh dp (b_pending b) (b_leftover b) (b_clocks b) (b_attempts b) (b_total b) (b_out b).

Definition set_stopped pending leftover (b : Batch) : Batch :=
  mkBatchState (b_chunks b) (b_inline32_headers b) (b_inline32_payloads b) (b_direct_headers b)
    (b_direct_payloads b) pending leftover (b_clocks b) (b_attempts b) (b_total b) (b_out b).

(** The next answer of the transport; with none left, time runs out. *)
Definition next_attempt (b : Batch) : option WriteOutcome := default None (head (b_attempts b)).

Definition wrote (written : list Z) (c : WedgeClocks) (b : Batch) : Batch :=
  mkBatchState (b_chunks b) (b_inline32_headers b) (b_inline32_payloads b) (b_direct_headers b)
    (b_direct_payloads b) (b_pending b) (b_leftover b) c (tail (b_attempts b)) (b_total b + len written)
    (b_out b ++ written).

Definition progress_bytes (p : OrdinaryWriteProgress) : list Z :=
  match p with OComplete w | OPartial w => w | OFailed => [] end.

(** [for idx in 0..headers.len().min(payloads.len())]. *)
Definition fixed_header_chunks (headers payloads : list (list Z)) : list (list Z) :=
  concat (zip_with (fun h p => [h; p]) headers payloads).

Definition take_ordinary_kind_switch_chunks (b : Batch) : list (list Z) * Batch :=
  (b_chunks b ++ fixed_header_chunks (b_inline32_headers b) (b_inline32_payloads b)
   ++ fixed_header_chunks (b_direct_headers b) (b_direct_payloads b),
   set_gathered [] [] [] [] [] b).

Definition nonempty (l : list Z) : list (list Z) := match l with [] => [] | _ => [l] end.

Definition chunks_for_header_pooled (header : list Z) (prefix : option (list Z)) (payload : PooledPayload)
    : list (list Z) :=
  nonempty header ++ (match prefix with Some p => nonempty p | None => [] end) ++ nonempty (pp_chunk payload).

Definition chunks_for_header_inline_pooled (header : list Z) (header_len : Z) (prefix : option (list Z))
    (prefix_len : Z) (payload : PooledPayload) : Result (list (list Z)) :=
  h ← (if 0 <? header_len then h ← range_of header 0 header_len; Ok [h] else Ok []);
  p ← (match prefix with
       | Some p => if 0 <? prefix_len then p ← range_of p 0 prefix_len; Ok [p] else Ok []
       | None => Ok []
       end);
  Ok (h ++ p ++ nonempty (pp_chunk payload)).

(** ** Control: go on, leave the batch, leave the writer, or panic *)
Inductive Flow := Next (b : Batch) | Break (b : Batch) | Return (b : Batch) | Crash.

Definition seq_flow (f : Flow) (k : Batch -> Flow) : Flow :=
  match f with Next b => k b | Break b => Break b | Return b => Return b | Crash => Crash end.

Section Batch.
Context (now : Z).

(** A write of gathered chunks; [rest] are the commands to keep if it stops. *)
Definition write_gathered (chunks : list (list Z)) (rest : list WriteCommand) (b : Batch) : Flow :=
  let '(progress, offset, c) := write_chunks_once (next_attempt b) now chunks 0 (b_clocks b) in
  let b := wrote (progress_bytes progress) c b in
  match progress with
  | OComplete _ => Next b
  | OPartial _ => Break (set_stopped (Some (Chunks chunks offset)) (b_leftover b ++ rest) b)
  | OFailed => Return b
  end.

(** Push out what was gathered, if anything. *)
Definition switch_kind (rest : list WriteCommand) (b : Batch) : Flow :=
  let '(flush, b) := take_ordinary_kind_switch_chunks b in
  match flush with [] => Next b | _ => write_gathered flush rest b end.

Definition write_header_inline (mk : Z -> Z -> PendingOrdinaryWrite) (header : list Z) (header_len : Z)
    (payload : list Z) (rest : list WriteCommand) (b : Batch) : Flow :=
  match range_of header 0 header_len with
  | Ok h =>
      let '(progress, (ho, po), c) :=
        write_header_payload_once (next_attempt b) now h payload 0 0 (b_clocks b) in
      let b := wrote (progress_bytes progress) c b in
      match progress with
      | OComplete _ => Next b
      | OPartial _ => Break (set_stopped (Some (mk ho po)) (b_leftover b ++ rest) b)
      | OFailed => Return b
      end
  | _ => Crash
  end.

Definition write_buf (runs : list (list Z)) (rest : list WriteCommand) (b : Batch) : Flow :=
  let '(progress, runs, c) := write_generic_buf_once (next_attempt b) now runs (b_clocks b) in
  let b := wrote (progress_bytes progress) c b in
  match progress with
  | OComplete _ => Next b
  | OPartial _ => Break (set_stopped (Some (BufWrite runs)) (b_leftover b ++ rest) b)
  | OFailed => Return b
  end.

(** Fixed headers gathered so far go out before a payload of another shape. *)
Definition flush_fixed (p : WritePayload) (keep : list WriteCommand) (b : Batch) : Flow :=
  match p, b_direct_headers b, b_inline32_headers b with
  | PDirectAskInline _ _, _, _ | _, [], [] => Next b
  | _, _, _ =>
      let flush := fixed_header_chunks (b_inline32_headers b) (b_inline32_payloads b)
                   ++ fixed_header_chunks (b_direct_headers b) (b_direct_payloads b) in
      write_gathered flush keep (set_gathered (b_chunks b) [] [] [] [] b)
  end.

(** Chunks and other fixed headers go out before a direct ask is gathered. *)
Definition before_direct_ask (keep : list WriteCommand) (b : Batch) : Flow :=
  seq_flow (match b_chunks b with
            | [] => Next b
            | chunks => write_gathered chunks keep
                (set_gathered [] (b_inline32_headers b) (b_inline32_payloads b) (b_direct_headers b) (b_direct_payloads b) b)
            end) (fun b =>
    match b_inline32_headers b with
    | [] => Next b
    | headers => write_gathered (fixed_header_chunks headers (b_inline32_payloads b)) keep
        (set_gathered (b_chunks b) [] [] (b_direct_headers b) (b_direct_payloads b) b)
    end).

(** [self] is the command, [rest] those after it. *)
Definition write_payload (self : WriteCommand) (rest : list WriteCommand) (b : Batch) : Flow :=
  match payload_of self with
  | PSingle data | PTrustedFrame data =>
      Next (set_gathered (b_chunks b ++ [data]) (b_inline32_headers b) (b_inline32_payloads b)
              (b_direct_headers b) (b_direct_payloads b) b)
  | PHeaderPayload header payload =>
      Next (set_gathered (b_chunks b ++ [header; payload]) (b_inline32_headers b) (b_inline32_payloads b)
              (b_direct_headers b) (b_direct_payloads b) b)
  | PHeaderInline header header_len payload =>
      seq_flow (switch_kind (requeued self :: rest) b)
        (write_header_inline (HeaderInline header header_len payload) header header_len payload rest)
  | PHeaderInlineAligned header header_len payload =>
      seq_flow (switch_kind (requeued self :: rest) b)
        (write_header_inline (HeaderInlineAligned header header_len payload) header header_len payload rest)
  | PHeaderInline32 header payload =>
      let chunks := b_chunks b ++ fixed_header_chunks (b_direct_headers b) (b_direct_payloads b) in
      let b := set_gathered [] (b_inline32_headers b) (b_inline32_payloads b) [] [] b in
      seq_flow (match chunks with [] => Next b | _ => write_gathered chunks (requeued self :: rest) b end) (fun b =>
        let headers := b_inline32_headers b ++ [header] in
        let payloads := b_inline32_payloads b ++ [payload] in
        if len headers =? OWNER_BATCH_SIZE
        then write_gathered (fixed_header_chunks headers payloads) rest
               (set_gathered (b_chunks b) [] [] (b_direct_headers b) (b_direct_payloads b) b)
        else Next (set_gathered (b_chunks b) headers payloads (b_direct_headers b) (b_direct_payloads b) b))
  | PHeaderPooled header prefix payload =>
      seq_flow (switch_kind (requeued self :: rest) b)
        (write_gathered (chunks_for_header_pooled header prefix payload) rest)
  | PHeaderInlinePooled header header_len prefix prefix_len payload =>
      seq_flow (switch_kind (requeued self :: rest) b) (fun b =>
        match chunks_for_header_inline_pooled header header_len prefix prefix_len payload with
        | Ok chunks => write_gathered chunks rest b
        | _ => Crash
        end)
  | PBuf runs _ => seq_flow (switch_kind (requeued self :: rest) b) (write_buf runs rest)
  | PDirectAskInline header payload =>
      seq_flow (before_direct_ask (requeued self :: rest) b) (fun b =>
        let headers := b_direct_headers b ++ [header] in
        let payloads := b_direct_payloads b ++ [payload] in
        if len headers =? OWNER_BATCH_SIZE
        then write_gathered (fixed_header_chunks headers payloads) rest
               (set_gathered (b_chunks b) (b_inline32_headers b) (b_inline32_payloads b) [] [] b)
        else Next (set_gathered (b_chunks b) (b_inline32_headers b) (b_inline32_payloads b) headers payloads b))
  end.

(** An immediate payload that moved bytes is flushed at once; the answer of a
    flush that finishes, even with an error, does not matter. *)
Definition bounded_stream_flush (b : Batch) : Flow :=
  let attempt := next_attempt b in
  let '(outcome, c) := record_slice_attempt true (bool_decide (is_Some attempt)) now (b_clocks b) in
  let total := match attempt with Some _ => 0 | None => b_total b end in
  let b := mkBatchState (b_chunks b) (b_inline32_headers b) (b_inline32_payloads b) (b_direct_headers b)
             (b_direct_payloads b) (b_pending b) (b_leftover b) c (tail (b_attempts b)) total (b_out b) in
  match outcome with TearDown _ => Return b | Continue => Next b end.

Definition flush_immediate (self : WriteCommand) (b : Batch) : Flow :=
  match self with
  | ImmediatePayload _ => if 0 <? b_total b then bounded_stream_flush b else Next b
  | _ => Next b
  end.

Fixpoint write_batch (cs : list WriteCommand) (b : Batch) : Flow :=
  match cs with
  | [] => Next b
  | self :: rest =>
      seq_flow (seq_flow (flush_fixed (payload_of self) (requeued self :: rest) b) (write_payload self rest))
        (fun b => seq_flow (flush_immediate self b) (write_batch rest))
  end.

(** The end of the batch: what is still gathered goes out, whether or not the
    batch was left early. *)
Definition finish_batch (b : Batch) : Flow :=
  match b_inline32_headers b, b_direct_headers b, b_chunks b with
  | [], [], [] => Next b
  | _, _, _ =>
      let '(flush, b) := take_ordinary_kind_switch_chunks b in
      match write_gathered flush [] b with Break b => Next b | f => f end
  end.

Definition ordinary_batch (cs : list WriteCommand) (b : Batch) : Flow :=
  match write_batch cs b with
  | Next b | Break b => finish_batch b
  | f => f
  end.
End Batch.
