(* ===== verification/OrdinaryOrder.v ===== *)
(** * Ordinary commands leave in order

    However the transport cuts the writes, the commands of a batch reach it in
    the order they were taken, each once and whole. *)

From S2P Require Import Prelude Types Framing Streaming WriterCommands StreamWriter SliceWriter.
From S2P Require Import OrdinaryWriter OrdinaryInv OrdinaryBatch.

(** ** Texts *)
Definition payload_text (p : WritePayload) : list Z :=
  match p with
  | PSingle data | PTrustedFrame data => data
  | PHeaderPayload header payload | PHeaderInline32 header payload | PDirectAskInline header payload => header ++ payload
  | PHeaderInline header header_len payload | PHeaderInlineAligned header header_len payload =>
      take (Z.to_nat header_len) header ++ payload
  | PHeaderPooled header prefix payload => header ++ default [] prefix ++ pp_chunk payload
  | PHeaderInlinePooled header header_len prefix prefix_len payload =>
      take (Z.to_nat header_len) header ++ take (Z.to_nat prefix_len) (default [] prefix) ++ pp_chunk payload
  | PBuf runs _ => concat runs
  end.

(** Lengths within their arrays. *)
Definition payload_ok (p : WritePayload) : Prop :=
  match p with
  | PHeaderInline header header_len _ | PHeaderInlineAligned header header_len _ => 0 <= header_len <= len header
  | PHeaderInlinePooled header header_len prefix prefix_len _ =>
      0 <= header_len <= len header
      /\ match prefix with Some p => 0 <= prefix_len <= len p | None => True end
  | _ => True
  end.

Definition command_texts (cs : list WriteCommand) : list Z := concat (payload_text ∘ payload_of <$> cs).

Definition gathered (b : Batch) : list Z :=
  concat (b_chunks b) ++ concat (fixed_header_chunks (b_inline32_headers b) (b_inline32_payloads b))
  ++ concat (fixed_header_chunks (b_direct_headers b) (b_direct_payloads b)).

Arguments gathered : simpl never.

(** While the batch runs: nothing pending, nothing left over, headers and
    payloads in step, and at most one shape gathered. *)
Record running (b : Batch) : Prop := {
  ru_pending : b_pending b = None;
  ru_leftover : b_leftover b = [];
  ru_inline32 : length (b_inline32_headers b) = length (b_inline32_payloads b);
  ru_direct : length (b_direct_headers b) = length (b_direct_payloads b);
  ru_single : b_chunks b <> [] -> b_inline32_headers b = [] /\ b_direct_headers b = [];
  ru_fixed : b_inline32_headers b <> [] -> b_direct_headers b = [];
}.

Definition nothing_gathered (b : Batch) : Prop :=
  b_chunks b = [] /\ b_inline32_headers b = [] /\ b_inline32_payloads b = []
  /\ b_direct_headers b = [] /\ b_direct_payloads b = [].

(** Stopped at a partial write: it owns the transport, and what follows it is
    left over. *)
Record stopped (b : Batch) (all : list Z) : Prop := {
  st_gathered : nothing_gathered b;
  st_pending : exists w, b_pending b = Some w /\ ordinary_ok w
    /\ all = b_out b ++ ordinary_remaining w ++ command_texts (b_leftover b);
}.

(** [done] is what must be out or gathered to go on, [all] the whole text. *)
Definition flow_ok (done all : list Z) (f : Flow) : Prop :=
  match f with
  | Next b => running b /\ b_out b ++ gathered b = done
  | Break b => stopped b all
  | Return b => exists rest, all = b_out b ++ rest
  | Crash => False
  end.

Lemma seq_flow_ok done done' all f k :
  flow_ok done all f -> (forall b, running b -> b_out b ++ gathered b = done -> flow_ok done' all (k b)) ->
  flow_ok done' all (seq_flow f k).
Proof. destruct f as [b|b|b|]; cbn; intros H Hk; auto. destruct H. auto. Qed.

Lemma requeued_self c : requeued c = c.
Proof. now destruct c. Qed.

Lemma concat_fixed_snoc hs ps h p :
  length hs = length ps ->
  concat (fixed_header_chunks (hs ++ [h]) (ps ++ [p])) = concat (fixed_header_chunks hs ps) ++ h ++ p.
Proof.
  intros E. unfold fixed_header_chunks. rewrite zip_with_app by done. rewrite !concat_app. cbn.
  now rewrite !app_nil_r.
Qed.

(** ** One write *)
Lemma bounded_write_spec attempt now slices c text :
  text <> [] -> offers text 0 slices ->
  match (bounded_write attempt now slices c).1 with
  | Wrote w => text = w ++ drop (Z.to_nat (len w)) text
  | NotWritten (OPartial w) => w = []
  | NotWritten (OComplete _) => False
  | NotWritten OFailed => True
  end.
Proof.
  intros Hn Hof. unfold bounded_write. destruct attempt as [o|].
  - destruct (write_vectored_once o slices) as [w|e|] eqn:E; cbn; auto. now apply (written_prefix o slices text w Hof).
  - now destruct (record_slice_attempt false false now c) as [[] ?].
Qed.

Lemma chunks_once_spec attempt now chunks c :
  let '(progress, off, _) := write_chunks_once attempt now chunks 0 c in
  match progress with
  | OComplete w => w = concat chunks
  | OPartial w => 0 <= off /\ concat chunks = w ++ drop (Z.to_nat off) (concat chunks)
  | OFailed => True
  end.
Proof.
  unfold write_chunks_once. rewrite total_len_concat. pose proof (len_nonneg (concat chunks)).
  destruct (Z.leb_spec (len (concat chunks)) 0) as [E|E].
  { symmetry. apply len_0. lia. }
  destruct (skip_written chunks 0 (Z.le_refl 0) E) as (f & r & o & -> & _ & Hc). rewrite drop_0 in Hc.
  assert (concat chunks <> []) as Hn by (intros E0; rewrite E0 in E; done).
  pose proof (bounded_write_spec attempt now (drop (Z.to_nat o) f :: r) c _ Hn (offers_all _ _ Hn Hc)) as Hw.
  destruct (bounded_write _ _ _ _) as [[w|p] c']; cbn in Hw.
  - pose proof (len_nonneg w). destruct (Z.leb_spec (len (concat chunks)) (0 + len w)) as [E1|E1].
    + rewrite Hw, drop_ge by (unfold len in *; lia). now rewrite app_nil_r.
    + split; [lia|]. exact Hw.
  - destruct p; [done| |done]. rewrite Hw. now rewrite drop_0.
Qed.

Lemma header_once_spec attempt now h p c :
  let '(progress, (ho, po), _) := write_header_payload_once attempt now h p 0 0 c in
  match progress with
  | OComplete w => w = h ++ p
  | OPartial w => 0 <= ho /\ 0 <= po /\ h ++ p = w ++ drop (Z.to_nat ho) h ++ drop (Z.to_nat po) p
  | OFailed => True
  end.
Proof.
  unfold write_header_payload_once. rewrite header_payload_done by lia. rewrite !drop_0.
  destruct (bool_decide_reflect (h ++ p = [])) as [E|E]; [done|].
  assert (concat (header_payload_slices h p 0 0) = h ++ p) as Hc by (now rewrite concat_header_payload by lia).
  pose proof (bounded_write_spec attempt now _ c _ E (offers_all _ _ E Hc)) as Hw.
  destruct (bounded_write _ _ _ _) as [[w|q] c']; cbn in Hw.
  - pose proof (advance_run h p w _ 0 0 (Z.le_refl 0) (Z.le_refl 0) Hw) as Ha.
    destruct (advance_header_payload_offset _ _ _ _) as [ho po]. destruct Ha as (H1 & H2 & H3).
    rewrite header_payload_done by done.
    destruct (bool_decide_reflect (drop (Z.to_nat ho) h ++ drop (Z.to_nat po) p = [])) as [E1|E1].
    + rewrite Hw, <- H3, E1. symmetry. apply app_nil_r.
    + rewrite H3. done.
  - destruct q; [done| |done]. rewrite Hw. now rewrite !drop_0.
Qed.

Lemma buf_once_spec attempt now runs c :
  let '(progress, runs', _) := write_generic_buf_once attempt now runs c in
  match progress with
  | OComplete w => w = concat runs
  | OPartial w => concat runs = w ++ concat runs'
  | OFailed => True
  end.
Proof.
  unfold write_generic_buf_once. destruct (Z.eqb_spec (len (concat runs)) 0) as [E|E].
  { symmetry. now apply len_0. }
  assert (concat runs <> []) as Hn by (intros E0; apply E; now rewrite E0).
  destruct (buf_chunk_prefix runs) as (rest & Hc & Hne). specialize (Hne Hn).
  assert (offers (concat runs) 0 [buf_chunk runs]) as Hof.
  { exists (len (buf_chunk runs)). apply len_pos in Hne. split_and!; [lia|rewrite Hc, len_app; pose proof (len_nonneg rest); lia|].
    cbn. rewrite app_nil_r, Hc, drop_0. unfold len. now rewrite Nat2Z.id, take_app_length. }
  pose proof (bounded_write_spec attempt now _ c _ Hn Hof) as Hw.
  destruct (bounded_write _ _ _ _) as [[w|q] c']; cbn in Hw.
  - pose proof (len_nonneg w). rewrite buf_advance_concat by done.
    destruct (Z.eqb_spec (len (drop (Z.to_nat (len w)) (concat runs))) 0) as [E1|E1]; [|done].
    apply len_0 in E1. rewrite Hw, E1. symmetry. apply app_nil_r.
  - destruct q; [done| |done]. now rewrite Hw.
Qed.

Section Order.
Context (now : Z).

Lemma gathered_nothing b : nothing_gathered b -> gathered b = [].
Proof using. intros (H1 & H2 & H3 & H4 & H5). unfold gathered. now rewrite H1, H2, H3, H4, H5. Qed.

(** The batch after a write, at rest. *)
Lemma idle_running b :
  nothing_gathered b -> b_pending b = None -> b_leftover b = [] -> running b.
Proof using. intros (H1 & H2 & H3 & H4 & H5) Hp Hl. split; auto; rewrite ?H1, ?H2, ?H3, ?H4, ?H5; done. Qed.

Lemma write_gathered_ok chunks keep b all :
  nothing_gathered b -> b_pending b = None -> b_leftover b = [] ->
  all = b_out b ++ concat chunks ++ command_texts keep ->
  flow_ok (b_out b ++ concat chunks) all (write_gathered now chunks keep b).
Proof using.
  intros Hg Hp Hl ->. unfold write_gathered. pose proof (chunks_once_spec (next_attempt b) now chunks (b_clocks b)) as Hw.
  destruct (write_chunks_once _ _ _ _ _) as [[progress off] c]. destruct progress as [w|w|]; cbn in *.
  - split; [now apply idle_running|]. rewrite gathered_nothing by done. cbn. now rewrite app_nil_r, Hw.
  - destruct Hw as [H0 Hw]. split; [done|]. eexists. split; [reflexivity|]. split; [done|].
    cbn. rewrite Hl. cbn. rewrite <- app_assoc. f_equal. rewrite Hw at 1. now rewrite <- app_assoc.
  - exists (concat chunks ++ command_texts keep). now rewrite app_nil_r.
Qed.

Lemma running_payloads b :
  running b ->
  (b_inline32_headers b = [] -> b_inline32_payloads b = []) /\ (b_direct_headers b = [] -> b_direct_payloads b = []).
Proof using.
  intros Hr. split; intros E; [pose proof (ru_inline32 _ Hr) as H|pose proof (ru_direct _ Hr) as H]; rewrite E in H; cbn in H;
    now apply nil_length_inv.
Qed.

(** Everything gathered goes out. *)
Lemma switch_kind_ok rest b all :
  running b -> all = b_out b ++ gathered b ++ command_texts rest ->
  flow_ok (b_out b ++ gathered b) all (switch_kind now rest b)
  /\ forall b', switch_kind now rest b = Next b' -> nothing_gathered b'.
Proof using.
  intros Hr ->. unfold switch_kind. cbn [take_ordinary_kind_switch_chunks].
  set (flush := b_chunks b ++ _ ++ _). assert (concat flush = gathered b) as Hf.
  { unfold flush, gathered. now rewrite !concat_app. }
  clearbody flush. destruct flush as [|x l] eqn:E.
  - split; [|now intros b' [= <-]]. split; [now apply idle_running; try apply Hr|].
    cbn in Hf. rewrite <- Hf. now rewrite gathered_nothing.
  - rewrite <- E in *. clear E x l. pose proof (write_gathered_ok flush rest (set_gathered [] [] [] [] [] b)
      (b_out b ++ gathered b ++ command_texts rest)) as Hw. rewrite Hf in Hw. cbn in Hw.
    split; [apply Hw; try done; apply Hr|]. intros b'. unfold write_gathered.
    destruct (write_chunks_once _ _ _ _ _) as [[[w|w|] off] c]; try done. now intros [= <-].
Qed.

Lemma write_header_inline_ok mk header hl payload rest b :
  nothing_gathered b -> b_pending b = None -> b_leftover b = [] -> 0 <= hl <= len header ->
  (forall ho po, mk ho po = HeaderInline header hl payload ho po \/ mk ho po = HeaderInlineAligned header hl payload ho po) ->
  let text := take (Z.to_nat hl) header ++ payload in
  flow_ok (b_out b ++ text) (b_out b ++ text ++ command_texts rest) (write_header_inline now mk header hl payload rest b).
Proof using.
  intros Hg Hp Hl Hh Hmk text. unfold write_header_inline. rewrite range_of_Ok by lia. rewrite Z.sub_0_r, drop_0.
  pose proof (header_once_spec (next_attempt b) now (take (Z.to_nat hl) header) payload (b_clocks b)) as Hw. fold text in Hw.
  destruct (write_header_payload_once _ _ _ _ _ _ _) as [[progress [ho po]] c]. destruct progress as [w|w|]; cbn in *.
  - split; [now apply idle_running|]. rewrite gathered_nothing by done. now rewrite app_nil_r, Hw.
  - destruct Hw as (H1 & H2 & Hw). split; [done|]. exists (mk ho po). split; [reflexivity|]. rewrite Hl. cbn.
    destruct (Hmk ho po) as [->| ->]; (split; [done|]); cbn; rewrite <- app_assoc; f_equal; rewrite Hw at 1;
      now rewrite <- !app_assoc.
  - exists (text ++ command_texts rest). now rewrite app_nil_r.
Qed.

Lemma write_buf_ok runs rest b :
  nothing_gathered b -> b_pending b = None -> b_leftover b = [] ->
  flow_ok (b_out b ++ concat runs) (b_out b ++ concat runs ++ command_texts rest) (write_buf now runs rest b).
Proof using.
  intros Hg Hp Hl. unfold write_buf. pose proof (buf_once_spec (next_attempt b) now runs (b_clocks b)) as Hw.
  destruct (write_generic_buf_once _ _ _ _) as [[progress runs'] c]. destruct progress as [w|w|]; cbn in *.
  - split; [now apply idle_running|]. rewrite gathered_nothing by done. now rewrite app_nil_r, Hw.
  - split; [done|]. exists (BufWrite runs'). split; [reflexivity|]. split; [done|]. rewrite Hl. cbn.
    rewrite <- app_assoc. f_equal. now rewrite Hw, <- app_assoc.
  - exists (concat runs ++ command_texts rest). now rewrite app_nil_r.
Qed.

(** After a switch, the payload itself. *)
Lemma switched_ok self rest b k text :
  running b ->
  (forall b', nothing_gathered b' -> b_pending b' = None -> b_leftover b' = [] ->
     flow_ok (b_out b' ++ text) (b_out b' ++ text ++ command_texts rest) (k b')) ->
  payload_text (payload_of self) = text ->
  flow_ok (b_out b ++ gathered b ++ text) (b_out b ++ gathered b ++ text ++ command_texts rest)
    (seq_flow (switch_kind now (requeued self :: rest) b) k).
Proof using.
  intros Hr Hk Ht. rewrite requeued_self.
  assert (command_texts (self :: rest) = text ++ command_texts rest) as Hself by (unfold command_texts; cbn; now rewrite Ht).
  destruct (switch_kind_ok (self :: rest) b _ Hr eq_refl) as [Hs Hn]. rewrite Hself in Hs.
  destruct (switch_kind now (self :: rest) b) as [b'|b'|b'|]; cbn [seq_flow]; auto.
  destruct Hs as [Hr' Hout]. specialize (Hn b' eq_refl). rewrite (gathered_nothing b' Hn), app_nil_r in Hout.
  specialize (Hk b' Hn (ru_pending _ Hr') (ru_leftover _ Hr')). rewrite Hout, <- !app_assoc in Hk. exact Hk.
Qed.

Definition is_direct (p : WritePayload) : bool := match p with PDirectAskInline _ _ => true | _ => false end.

Definition no_fixed (b : Batch) : Prop := b_inline32_headers b = [] /\ b_direct_headers b = [].

Lemma running_gathered_fixed b :
  running b -> ~ no_fixed b ->
  b_chunks b = [] /\ gathered b = concat (fixed_header_chunks (b_inline32_headers b) (b_inline32_payloads b)
    ++ fixed_header_chunks (b_direct_headers b) (b_direct_payloads b)).
Proof using.
  intros Hr Hn. assert (b_chunks b = []) as E.
  { destruct (decide (b_chunks b = [])) as [|E]; [done|]. now destruct Hn; apply (ru_single _ Hr). }
  split; [done|]. unfold gathered. now rewrite E, concat_app.
Qed.

Lemma flush_fixed_ok p keep b all :
  running b -> all = b_out b ++ gathered b ++ command_texts keep ->
  flow_ok (b_out b ++ gathered b) all (flush_fixed now p keep b)
  /\ (is_direct p = false -> forall b', flush_fixed now p keep b = Next b' -> no_fixed b').
Proof using.
  intros Hr ->. destruct (decide (is_direct p = true \/ no_fixed b)) as [H|H].
  - assert (flush_fixed now p keep b = Next b) as ->.
    { unfold flush_fixed. destruct H as [H|[H1 H2]]; [now destruct p|]. rewrite H1, H2. now destruct p. }
    split; [done|]. intros Hp b' [= <-]. destruct H; [congruence|done].
  - assert (~ no_fixed b) as Hn by tauto. destruct (running_gathered_fixed b Hr Hn) as [Hc Hg].
    set (flush := _ ++ _) in Hg. assert (flush_fixed now p keep b = write_gathered now flush keep (set_gathered (b_chunks b) [] [] [] [] b)) as ->.
    { unfold flush_fixed, no_fixed, flush in *. clear flush Hg. destruct p; try (destruct H; now left);
        destruct (b_direct_headers b), (b_inline32_headers b); try done; now destruct Hn. }
    rewrite Hg. split.
    + apply (write_gathered_ok flush keep (set_gathered (b_chunks b) [] [] [] [] b)); try apply Hr; [|done].
      rewrite Hc. done.
    + intros _ b'. unfold write_gathered. destruct (write_chunks_once _ _ _ _ _) as [[[w|w|] off] c]; try done.
      now intros [= <-].
Qed.

(** Fixed headers join those gathered, or go out with them. *)
Lemma gather_inline32_ok header payload rest b :
  running b -> nothing_gathered b ->
  flow_ok (b_out b ++ header ++ payload) (b_out b ++ (header ++ payload) ++ command_texts rest)
    (let headers := b_inline32_headers b ++ [header] in
     let payloads := b_inline32_payloads b ++ [payload] in
     if len headers =? OWNER_BATCH_SIZE
     then write_gathered now (fixed_header_chunks headers payloads) rest
            (set_gathered (b_chunks b) [] [] (b_direct_headers b) (b_direct_payloads b) b)
     else Next (set_gathered (b_chunks b) headers payloads (b_direct_headers b) (b_direct_payloads b) b)).
Proof using.
  intros Hr (H1 & H2 & H3 & H4 & H5). rewrite H1, H2, H3, H4, H5. cbn -[OWNER_BATCH_SIZE]. split.
  - split; try apply Hr; done.
  - unfold gathered. cbn. now rewrite !app_nil_r.
Qed.

Lemma gather_direct_ok header payload rest b :
  running b -> b_chunks b = [] -> b_inline32_headers b = [] ->
  flow_ok (b_out b ++ gathered b ++ header ++ payload) (b_out b ++ gathered b ++ (header ++ payload) ++ command_texts rest)
    (let headers := b_direct_headers b ++ [header] in
     let payloads := b_direct_payloads b ++ [payload] in
     if len headers =? OWNER_BATCH_SIZE
     then write_gathered now (fixed_header_chunks headers payloads) rest
            (set_gathered (b_chunks b) (b_inline32_headers b) (b_inline32_payloads b) [] [] b)
     else Next (set_gathered (b_chunks b) (b_inline32_headers b) (b_inline32_payloads b) headers payloads b)).
Proof using.
  intros Hr H1 H2. pose proof (proj1 (running_payloads b Hr) H2) as H3. cbv zeta. rewrite H1, H2, H3.
  assert (gathered b = concat (fixed_header_chunks (b_direct_headers b) (b_direct_payloads b))) as Hg
    by (unfold gathered; rewrite H1, H2, H3; done).
  pose proof (concat_fixed_snoc _ _ header payload (ru_direct _ Hr)) as Hs. rewrite <- Hg in Hs.
  destruct (len _ =? OWNER_BATCH_SIZE).
  - pose proof (write_gathered_ok (fixed_header_chunks (b_direct_headers b ++ [header]) (b_direct_payloads b ++ [payload])) rest
      (set_gathered [] [] [] [] [] b) (b_out b ++ gathered b ++ (header ++ payload) ++ command_texts rest)) as Hw.
    rewrite Hs in Hw. apply Hw; try apply Hr; [done|]. cbn. now rewrite <- !app_assoc.
  - split.
    + split; cbn; try apply Hr; try done. rewrite !length_app, (ru_direct _ Hr). done.
    + change (b_out b ++ concat (fixed_header_chunks (b_direct_headers b ++ [header]) (b_direct_payloads b ++ [payload]))
        = b_out b ++ gathered b ++ header ++ payload). now rewrite Hs.
Qed.

Lemma nonempty_concat l : concat (nonempty l) = l.
Proof using. destruct l; [done|]. cbn. now rewrite app_nil_r. Qed.

Lemma header_pooled_text header prefix payload :
  concat (chunks_for_header_pooled header prefix payload) = payload_text (PHeaderPooled header prefix payload).
Proof using.
  unfold chunks_for_header_pooled. rewrite !concat_app, !nonempty_concat. now destruct prefix; rewrite ?nonempty_concat.
Qed.

Lemma header_inline_pooled_text header hl prefix pl payload :
  payload_ok (PHeaderInlinePooled header hl prefix pl payload) ->
  exists chunks, chunks_for_header_inline_pooled header hl prefix pl payload = Ok chunks
    /\ concat chunks = payload_text (PHeaderInlinePooled header hl prefix pl payload).
Proof using.
  intros [Hh Hp]. unfold chunks_for_header_inline_pooled. cbn [payload_text].
  assert (exists hs, (if 0 <? hl then h ← range_of header 0 hl; Ok [h] else Ok []) = Ok hs
    /\ concat hs = take (Z.to_nat hl) header) as (hs & -> & Hhs).
  { destruct (Z.ltb_spec 0 hl); [rewrite range_of_Ok by lia; rewrite Z.sub_0_r, drop_0; eexists; split; [done|apply app_nil_r]|].
    replace hl with 0 by lia. now exists []. }
  assert (exists ps, match prefix with
    | Some p => if 0 <? pl then p ← range_of p 0 pl; Ok [p] else Ok [] | None => Ok [] end = Ok ps
    /\ concat ps = take (Z.to_nat pl) (default [] prefix)) as (ps & -> & Hps).
  { destruct prefix as [p|]; [|exists []; cbn; now rewrite take_nil].
    destruct (Z.ltb_spec 0 pl); [rewrite range_of_Ok by lia; rewrite Z.sub_0_r, drop_0; eexists; split; [done|apply app_nil_r]|].
    replace pl with 0 by lia. now exists []. }
  cbn [mbind Result_bind]. eexists. split; [reflexivity|]. now rewrite !concat_app, Hhs, Hps, nonempty_concat.
Qed.

(** A write that goes on leaves what was not part of it as it was. *)
Lemma write_gathered_next chunks keep b b' :
  write_gathered now chunks keep b = Next b' ->
  b_chunks b' = b_chunks b /\ b_inline32_headers b' = b_inline32_headers b
  /\ b_inline32_payloads b' = b_inline32_payloads b /\ b_direct_headers b' = b_direct_headers b
  /\ b_direct_payloads b' = b_direct_payloads b.
Proof using.
  unfold write_gathered. destruct (write_chunks_once _ _ _ _ _) as [[[w|w|] off] c]; try done. now intros [= <-].
Qed.

Lemma before_direct_ok keep b :
  running b ->
  flow_ok (b_out b ++ gathered b) (b_out b ++ gathered b ++ command_texts keep) (before_direct_ask now keep b)
  /\ forall b', before_direct_ask now keep b = Next b' -> b_chunks b' = [] /\ b_inline32_headers b' = [].
Proof using.
  intros Hr. destruct (running_payloads b Hr) as [Hip Hdp]. unfold before_direct_ask.
  destruct (b_chunks b) as [|x l] eqn:Ec; cbn [seq_flow].
  - destruct (b_inline32_headers b) as [|y m] eqn:Ei; [split; [done|]; now intros b' [= <-]|]. rewrite <- Ei.
    assert (b_direct_headers b = []) as Ed by (apply (ru_fixed _ Hr); now rewrite Ei). specialize (Hdp Ed).
    assert (gathered b = concat (fixed_header_chunks (b_inline32_headers b) (b_inline32_payloads b))) as Hg
      by (unfold gathered; rewrite Ec, Ed, Hdp; cbn; now rewrite !app_nil_r).
    rewrite Hg. split.
    + rewrite Ec, Ed, Hdp. apply (write_gathered_ok _ keep (set_gathered [] [] [] [] [] b)); try apply Hr; done.
    + intros b' E. apply write_gathered_next in E as (-> & -> & _). now cbn.
  - destruct (ru_single _ Hr ltac:(now rewrite Ec)) as [Ei Ed]. specialize (Hip Ei). specialize (Hdp Ed).
    assert (gathered b = concat (x :: l)) as Hg
      by (unfold gathered; rewrite Ec, Ei, Ed, Hip, Hdp; cbn; now rewrite !app_nil_r).
    rewrite Ei, Hip, Ed, Hdp, Hg.
    pose proof (write_gathered_ok (x :: l) keep (set_gathered [] [] [] [] [] b) _ ltac:(done)
      (ru_pending _ Hr) (ru_leftover _ Hr) eq_refl) as Hw. cbn [set_gathered b_out] in Hw.
    destruct (write_gathered now (x :: l) keep _) as [b1|b1|b1|] eqn:E; cbn [seq_flow]; [|split; [exact Hw|done]..].
    apply write_gathered_next in E as (E1 & E2 & _). rewrite E2. cbn. split; [exact Hw|].
    intros b' [= <-]. now rewrite E1, E2.
Qed.

Lemma gather_chunks_ok l rest b :
  running b -> no_fixed b ->
  flow_ok (b_out b ++ gathered b ++ concat l) (b_out b ++ gathered b ++ concat l ++ command_texts rest)
    (Next (set_gathered (b_chunks b ++ l) (b_inline32_headers b) (b_inline32_payloads b) (b_direct_headers b)
       (b_direct_payloads b) b)).
Proof using.
  intros Hr [E1 E2]. destruct (running_payloads b Hr) as [E3 E4]. split; [split; cbn; try apply Hr; auto|].
  unfold gathered. cbn. rewrite E1, E2, (E3 E1), (E4 E2), concat_app. cbn. now rewrite !app_nil_r.
Qed.

Lemma write_inline32_ok header payload self rest b :
  running b -> no_fixed b -> payload_of self = PHeaderInline32 header payload ->
  flow_ok (b_out b ++ gathered b ++ header ++ payload)
    (b_out b ++ gathered b ++ (header ++ payload) ++ command_texts rest) (write_payload now self rest b).
Proof using.
  intros Hr [E1 E2] Ep. destruct (running_payloads b Hr) as [E3 E4]. specialize (E3 E1). specialize (E4 E2).
  assert (gathered b = concat (b_chunks b)) as Hg by (unfold gathered; rewrite E1, E2, E3, E4; cbn; now rewrite !app_nil_r).
  assert (command_texts (self :: rest) = (header ++ payload) ++ command_texts rest) as Hself
    by (unfold command_texts; cbn; now rewrite Ep).
  unfold write_payload. rewrite Ep, requeued_self, E1, E2, E3, E4, Hg. cbn [fixed_header_chunks zip_with concat].
  cbv zeta. rewrite app_nil_r. set (b0 := set_gathered [] [] [] [] [] b).
  destruct (b_chunks b) as [|x l] eqn:Ec.
  - apply (gather_inline32_ok header payload rest b0); [|done]. apply idle_running; [done|apply Hr..].
  - pose proof (write_gathered_ok (x :: l) (self :: rest) b0 _ ltac:(done) (ru_pending _ Hr) (ru_leftover _ Hr) eq_refl) as Hw.
    rewrite Hself in Hw. destruct (write_gathered now (x :: l) (self :: rest) b0) as [b1|b1|b1|] eqn:E; cbn [seq_flow]; auto.
    apply write_gathered_next in E as (F1 & F2 & F3 & F4 & F5). destruct Hw as [Hr1 Hout].
    assert (nothing_gathered b1) as Hn by done. rewrite (gathered_nothing b1 Hn), app_nil_r in Hout.
    rewrite !(app_assoc (b_out b)). change (b_out b) with (b_out b0). rewrite <- Hout. now apply gather_inline32_ok.
Qed.

Lemma write_direct_ok header payload self rest b :
  running b -> payload_of self = PDirectAskInline header payload ->
  flow_ok (b_out b ++ gathered b ++ header ++ payload)
    (b_out b ++ gathered b ++ (header ++ payload) ++ command_texts rest) (write_payload now self rest b).
Proof using.
  intros Hr Ep. assert (command_texts (self :: rest) = (header ++ payload) ++ command_texts rest) as Hself
    by (unfold command_texts; cbn; now rewrite Ep).
  unfold write_payload. rewrite Ep, requeued_self. destruct (before_direct_ok (self :: rest) b Hr) as [Hb Hn].
  rewrite Hself in Hb. destruct (before_direct_ask now (self :: rest) b) as [b'|b'|b'|]; cbn [seq_flow]; auto.
  destruct Hb as [Hr' Hout], (Hn b' eq_refl) as [H1 H2]. rewrite !(app_assoc (b_out b)), <- Hout, <- !(app_assoc (b_out b')).
  now apply gather_direct_ok.
Qed.

Lemma write_payload_ok self rest b :
  running b -> payload_ok (payload_of self) -> (is_direct (payload_of self) = false -> no_fixed b) ->
  flow_ok (b_out b ++ gathered b ++ payload_text (payload_of self))
    (b_out b ++ gathered b ++ payload_text (payload_of self) ++ command_texts rest) (write_payload now self rest b).
Proof using.
  intros Hr Hok Hnf. pose proof (switched_ok self rest b) as Hsw.
  destruct (payload_of self) as [d|d|h p|h hl p|h hl p|h p|h pre p|h hl pre pl p|h p|runs el] eqn:Ep;
    cbn [is_direct] in *; try specialize (Hnf eq_refl).
  - pose proof (gather_chunks_ok [d] rest b Hr Hnf) as H. unfold write_payload. rewrite Ep. cbn in H. now rewrite app_nil_r in H.
  - pose proof (gather_chunks_ok [d] rest b Hr Hnf) as H. unfold write_payload. rewrite Ep. cbn in H. now rewrite app_nil_r in H.
  - pose proof (gather_chunks_ok [h; p] rest b Hr Hnf) as H. unfold write_payload. rewrite Ep. cbn in H. now rewrite app_nil_r in H.
  - unfold write_payload. rewrite Ep. apply Hsw; auto. intros. apply write_header_inline_ok; auto.
  - unfold write_payload. rewrite Ep. apply Hsw; auto. intros. apply write_header_inline_ok; auto.
  - now apply write_inline32_ok.
  - unfold write_payload. rewrite Ep. apply Hsw; auto. intros b' H1 H2 H3. rewrite <- header_pooled_text.
    now apply write_gathered_ok.
  - unfold write_payload. rewrite Ep. apply Hsw; auto. intros b' H1 H2 H3.
    destruct (header_inline_pooled_text h hl pre pl p Hok) as (chunks & -> & <-). now apply write_gathered_ok.
  - now apply write_direct_ok.
  - unfold write_payload. rewrite Ep. apply Hsw; auto. intros. now apply write_buf_ok.
Qed.

Lemma flush_immediate_ok self b all :
  running b -> (exists rest, all = b_out b ++ rest) ->
  flow_ok (b_out b ++ gathered b) all (flush_immediate now self b).
Proof using.
  intros Hr Hp. unfold flush_immediate, bounded_stream_flush. destruct self as [p|p|]; [done| |done].
  destruct (0 <? b_total b); [|done]. destruct (record_slice_attempt _ _ _ _) as [[|] c]; cbn; [|done].
  split; [|done]. now destruct Hr.
Qed.

Lemma write_batch_ok cs : forall b,
  running b -> Forall (payload_ok ∘ payload_of) cs ->
  flow_ok (b_out b ++ gathered b ++ command_texts cs) (b_out b ++ gathered b ++ command_texts cs) (write_batch now cs b).
Proof using.
  induction cs as [|self rest IH]; intros b Hr Hok; cbn [write_batch].
  - split; [done|]. unfold command_texts. cbn. now rewrite app_nil_r.
  - apply list.Forall_cons in Hok as [Hself Hok]. set (all := b_out b ++ _).
    assert (command_texts (self :: rest) = payload_text (payload_of self) ++ command_texts rest) as Ht by done.
    destruct (flush_fixed_ok (payload_of self) (self :: rest) b all Hr eq_refl) as [Hf Hn].
    rewrite requeued_self. destruct (flush_fixed now _ (self :: rest) b) as [b1|b1|b1|]; cbn [seq_flow]; auto.
    destruct Hf as [Hr1 Ho1]. pose proof (write_payload_ok self rest b1 Hr1 Hself ltac:(auto)) as Hw.
    rewrite <- Ht, !(app_assoc (b_out b1)), Ho1, <- !(app_assoc (b_out b)) in Hw. fold all in Hw.
    destruct (write_payload now self rest b1) as [b2|b2|b2|]; cbn [seq_flow]; auto. destruct Hw as [Hr2 Ho2].
    assert (b_out b2 ++ gathered b2 ++ command_texts rest = all) as Hall.
    { rewrite app_assoc, Ho2. unfold all. now rewrite Ht, <- !app_assoc. }
    eapply seq_flow_ok; [apply flush_immediate_ok; eauto|]. cbn. intros b3 Hr3 Ho3. rewrite <- Hall, app_assoc, <- Ho3, <- app_assoc.
    auto.
Qed.

(** What the end of a batch leaves: all of the text out, owned by the parked
    write, or left over, in that order. *)
Definition settled (all : list Z) (f : Flow) : Prop :=
  match f with
  | Next b => nothing_gathered b /\ (b_pending b = None -> b_leftover b = [])
      /\ (forall w, b_pending b = Some w -> ordinary_ok w)
      /\ all = b_out b ++ default [] (ordinary_remaining <$> b_pending b) ++ command_texts (b_leftover b)
  | Return b => exists rest, all = b_out b ++ rest
  | Break _ | Crash => False
  end.

Lemma stopped_settled b all : stopped b all -> settled all (Next b).
Proof using.
  intros [Hg (w & Hp & Hok & ->)]. split; [done|]. rewrite Hp. split; [done|]. split; [|done]. now intros w' [= <-].
Qed.

Lemma finish_nothing b : nothing_gathered b -> finish_batch now b = Next b.
Proof using. intros (H1 & H2 & _ & H4 & _). unfold finish_batch. now rewrite H1, H2, H4. Qed.

Lemma finish_batch_ok b : running b -> settled (b_out b ++ gathered b) (finish_batch now b).
Proof using.
  intros Hr. destruct (running_payloads b Hr) as [Hip Hdp].
  destruct (decide (b_chunks b = [] /\ no_fixed b)) as [(H1 & H2 & H3)|Hn].
  - assert (nothing_gathered b) as Hn by (repeat split; auto). rewrite finish_nothing by done.
    split; [done|]. rewrite (ru_pending _ Hr), (ru_leftover _ Hr), gathered_nothing by done. now split.
  - assert (finish_batch now b = match write_gathered now (take_ordinary_kind_switch_chunks b).1 []
        (take_ordinary_kind_switch_chunks b).2 with Break b => Next b | f => f end) as ->.
    { unfold finish_batch, no_fixed in *. destruct (b_inline32_headers b), (b_direct_headers b), (b_chunks b); try done.
      now destruct Hn. }
    cbn [take_ordinary_kind_switch_chunks fst snd].
    set (flush := b_chunks b ++ _ ++ _). assert (concat flush = gathered b) as Hf by (unfold flush, gathered; now rewrite !concat_app).
    pose proof (write_gathered_ok flush [] (set_gathered [] [] [] [] [] b) _ ltac:(done) (ru_pending _ Hr) (ru_leftover _ Hr) eq_refl) as Hw.
    rewrite Hf in Hw. unfold command_texts in Hw. cbn [fmap list_fmap concat] in Hw. rewrite app_nil_r in Hw.
    destruct (write_gathered now flush [] _) as [b'|b'|b'|] eqn:E; [|now apply stopped_settled|done..].
    apply write_gathered_next in E as (F1 & F2 & F3 & F4 & F5). assert (nothing_gathered b') as Hn' by done.
    destruct Hw as [Hr' Ho]. split; [done|]. rewrite (ru_pending _ Hr'), (ru_leftover _ Hr').
    rewrite (gathered_nothing b' Hn'), app_nil_r in Ho. cbn. rewrite Ho, app_nil_r. now split.
Qed.

(** C37: Ordinary commands leave in order, each once and whole, however the
    transport cuts, delays or refuses the writes.  From a batch with nothing
    gathered and nothing parked, [ordinary_batch] never panics and never loses
    track of a command: the bytes already on the wire, then those the parked
    write still owes, then the commands left over are exactly the commands'
    texts in the order they were taken; and when the connection is given up
    instead, what reached the wire is a prefix of that text. *)
Theorem ordinary_order_kept cs b :
  nothing_gathered b -> b_pending b = None -> b_leftover b = [] -> Forall (payload_ok ∘ payload_of) cs ->
  settled (b_out b ++ command_texts cs) (ordinary_batch now cs b).
Proof using.
  intros Hg Hp Hl Hok. assert (running b) as Hr by now apply idle_running.
  pose proof (write_batch_ok cs b Hr Hok) as Hb. rewrite (gathered_nothing b Hg), app_nil_l in Hb.
  unfold ordinary_batch. destruct (write_batch now cs b) as [b'|b'|b'|]; [|..|done|done].
  - destruct Hb as [Hr' <-]. now apply finish_batch_ok.
  - pose proof (st_gathered _ _ Hb). rewrite finish_nothing by done. now apply stopped_settled.
Qed.
End Order.

Definition example_batch : Batch :=
  mkBatchState [] [] [] [] [] None [] (mkClocks None None) [Some (Accepted 5); Some (Accepted 2)] 0 [].

Definition example_commands : list WriteCommand :=
  [Payload (PHeaderPayload [1; 2] [3]); AskPayload (PDirectAskInline [4; 5] [6]);
   ImmediatePayload (PHeaderInline [7; 8; 9; 0] 3 [10; 11])].

(** The gathered chunks leave whole, the direct ask is cut, the inline frame
    is left over. *)
Lemma ordinary_order_kept_witness :
  settled (concat [[1; 2; 3]; [4; 5; 6]; [7; 8; 9; 10; 11]]) (ordinary_batch 0 example_commands example_batch)
  /\ exists b w, ordinary_batch 0 example_commands example_batch = Next b
     /\ b_out b = [1; 2; 3; 4; 5] /\ b_pending b = Some w /\ ordinary_remaining w = [6]
     /\ b_leftover b = [ImmediatePayload (PHeaderInline [7; 8; 9; 0] 3 [10; 11])].
Proof.
  split; [|eexists _, _; repeat split; vm_compute; reflexivity].
  refine (ordinary_order_kept 0 example_commands example_batch _ _ _ _); [repeat split|reflexivity|reflexivity|].
  repeat constructor; vm_compute; congruence.
Defined.
