(* ===== verification/WireFrames.v ===== *)
(** * The frames of a response

    What the lazily framed responses put on the wire is a sequence of whole
    frames: those a receiver reassembles. *)

From S2P Require Import Prelude Types Framing RouteTable Aligned FrameParser Bitmap.
From S2P Require Import Streaming StreamInv StreamTable ReadPipeline ReadInv ReadFeed ReadRefine StreamDeliver.
From S2P Require Import WriterCommands StreamWriter SliceWriter ResponseWriter.

(** ** Framed bytes *)
Definition framed (l : list Z) : Prop := exists fs, Forall wire_frame fs /\ l = wire fs.

Lemma wire_app fs gs : wire (fs ++ gs) = wire fs ++ wire gs.
Proof. unfold wire. now rewrite fmap_app, concat_app. Qed.

Lemma framed_nil : framed [].
Proof. now exists []. Qed.

Lemma framed_app l k : framed l -> framed k -> framed (l ++ k).
Proof.
  intros (fs & Hf & ->) (gs & Hg & ->). exists (fs ++ gs). rewrite wire_app. split; [now apply Forall_app_2|done].
Qed.

Lemma framed_one f : wire_frame f -> framed (frame_bytes f).
Proof. intros H. exists [f]. split; [now apply Forall_singleton|]. cbn. now rewrite app_nil_r. Qed.

(** A frame as its writer lays it out. *)
Lemma control_frame k fields payload p :
  p = len fields + len payload ->
  control_bytes k p ++ fields ++ payload = frame_bytes (k, fields ++ payload).
Proof. intros ->. unfold frame_bytes. cbn [fst snd]. now rewrite len_app. Qed.

(** ** Frames of a response *)
Definition response_frame (r : BytesStreamingResponse) (i : Z) : WireKind * list Z :=
  if i =? 0
  then (KStreamResponseStart,
        header_fields (OutStreamResponseStart (br_stream_id r) (br_correlation_id r) (br_payload_len r))
        ++ frame_payload r 0)
  else (KStreamResponseData,
        header_fields (OutStreamData true (br_stream_id r) i) ++ frame_payload r i).

Lemma land_u32 x : 0 <= x <= u32_max -> Z.land x u32_max = x.
Proof.
  intros H. change u32_max with (Z.ones 32). rewrite Z.land_ones by lia. apply Z.mod_small. unfold u32_max in H. lia.
Qed.

Section Frames.
Context (r : BytesStreamingResponse) (Hr : bytes_ok r) (Hb : Forall is_byte (br_payload r)).

Lemma index_u32 i : 0 <= i < br_chunk_count r -> 0 <= i <= u32_max.
Proof using Hr.
  intros Hi. destruct Hr as [H1 H2 H3 H4 _ _ _ _]. pose proof (len_nonneg (br_payload r)).
  rewrite H4, H1 in Hi. destruct (frame_inside (len (br_payload r)) (br_chunk_size r) ltac:(lia) H3 i Hi) as (_ & _ & Hx). nia.
Qed.

Lemma frame_text_frame i :
  0 <= i < br_chunk_count r ->
  frame_text r i = frame_bytes (response_frame r i) /\ wire_frame (response_frame r i).
Proof using Hr Hb.
  intros Hi. pose proof (index_u32 i Hi) as Hu. pose proof (len_frame_payload r Hr i Hi) as Hl.
  pose proof Hr as [H1 H2 H3 H4 _ _ _ _]. pose proof (len_nonneg (br_payload r)).
  assert (len (frame_payload r i) <= br_chunk_size r) as Hle.
  { rewrite Hl. unfold frame_payload_len. destruct (i =? 0); lia. }
  pose proof (len_nonneg (frame_payload r i)) as Hnn.
  assert (Forall is_byte (frame_payload r i)) as Hfb by (unfold frame_payload; now apply Forall_take, Forall_drop).
  unfold frame_text, bytes_frame_header, response_frame_header, response_frame, wire_frame. rewrite <- Hl.
  rewrite !land_u32 by lia. destruct (Z.eqb_spec i 0) as [->|E].
  - rewrite stream_response_start_layout by (unfold STREAM_RESPONSE_START_HEADER_LEN; lia). cbn [expect]. split.
    + rewrite <- app_assoc. apply control_frame. reflexivity.
    + cbn [snd]. rewrite len_app, len_header_fields. cbn [header_len]. unfold STREAM_RESPONSE_START_HEADER_LEN.
      split; [lia|]. apply Forall_app_2; auto using header_fields_bytes.
  - rewrite stream_data_layout by (unfold STREAM_DATA_HEADER_LEN; lia). cbn [expect]. split.
    + rewrite <- app_assoc. apply control_frame. reflexivity.
    + cbn [snd]. rewrite len_app, len_header_fields. cbn [header_len]. unfold STREAM_DATA_HEADER_LEN.
      split; [lia|]. apply Forall_app_2; auto using header_fields_bytes.
Qed.

(** The whole response, as frames. *)
Definition response_frames : list (WireKind * list Z) := response_frame r <$> seqZ 0 (br_chunk_count r).

Lemma texts_wire i n :
  0 <= i -> 0 <= n -> i + n <= br_chunk_count r ->
  texts r i n = wire (response_frame r <$> seqZ i n) /\ Forall wire_frame (response_frame r <$> seqZ i n).
Proof using Hr Hb.
  intros Hi Hn Hle. unfold texts, wire. split.
  - f_equal. rewrite <- list_fmap_compose. apply list_fmap_ext. intros j x Hx.
    apply list_elem_of_lookup_2, elem_of_seqZ in Hx. apply frame_text_frame. lia.
  - apply Forall_fmap, list.Forall_forall. intros x Hx%elem_of_seqZ. apply frame_text_frame. lia.
Qed.

Lemma frame_framed i : 0 <= i < br_chunk_count r -> framed (frame_text r i).
Proof using Hr Hb. intros Hi. destruct (frame_text_frame i Hi) as [-> Hw]. now apply framed_one. Qed.
End Frames.
