(* ===== verification/LeaseInv.v ===== *)
(** * Leased responses

    The writer's state machine for a reply slot: whatever the transport accepts
    and whenever the lease is cancelled, the peer receives whole frames, and the
    ask is answered exactly once. *)

From S2P Require Import Prelude Types Framing FrameParser ReadRefine StreamDeliver.
From S2P Require Import WriterCommands StreamWriter SliceWriter ResponseWriter CommandWriter WireFrames.

(** ** The frames a lease can send *)
Definition reply_frame (cid : Z) (payload : list Z) : WireKind * list Z :=
  (KResponse, header_fields (OutResponse cid) ++ payload).

Definition abort_frame (sid : Z) : WireKind * list Z :=
  (KStreamAbort, to_be_bytes 4 sid ++ to_be_bytes 4 0).

Lemma reply_header cid payload :
  ASK_RESPONSE_HEADER_LEN + len payload <= CONTROL_BODY_LEN_MASK -> Forall is_byte payload ->
  exists h, expect (try_write_ask_response_header MResponse cid (len payload)) = Ok h
    /\ h ++ payload = frame_bytes (reply_frame cid payload) /\ wire_frame (reply_frame cid payload).
Proof.
  intros Hl Hb. pose proof (len_nonneg payload). rewrite response_layout by done. eexists. split; [reflexivity|]. split.
  - rewrite <- app_assoc. apply control_frame. reflexivity.
  - split; cbn [reply_frame snd].
    + rewrite len_app, len_header_fields. cbn [header_len]. unfold ASK_RESPONSE_HEADER_LEN in *. lia.
    + apply Forall_app_2; auto using header_fields_bytes.
Qed.

Lemma abort_header sid :
  exists h, write_stream_abort_header sid 0 = Ok h /\ h = frame_bytes (abort_frame sid) /\ wire_frame (abort_frame sid).
Proof.
  rewrite stream_abort_layout. eexists. split; [reflexivity|]. split; [reflexivity|]. split; [done|].
  apply Forall_app_2; apply to_be_bytes_bytes.
Qed.

(** ** Runs of a fixed text *)
Definition writes_run (text : list Z) (off : Z) (o : WriteOutcome) (out : Result (list Z * bool) * Z) : Prop :=
  (off = len text -> out = (Ok ([], true), off))
  /\ (off < len text -> accepts o -> exists w, out = (Ok (w, bool_decide (off + len w = len text)), off + len w)
        /\ 0 < len w /\ off + len w <= len text
        /\ drop (Z.to_nat off) text = w ++ drop (Z.to_nat (off + len w)) text)
  /\ (off < len text -> refused o = true -> exists e, out = (Err e, off)).

Lemma offered_run text off o slices :
  0 <= off < len text -> offers text off slices ->
  writes_run text off o
    (match write_vectored_once o slices with
     | Ok w => (Ok (w, len text <=? off + len w), off + len w)
     | Err e => (Err e, off)
     | Panic => (Panic, off)
     end).
Proof.
  intros H0 Hof. split_and!; [lia|intros _ Ho..].
  - destruct (offer_accepted text off slices o ltac:(lia) Hof Ho) as (w & -> & Hw & Hfit & Hd).
    exists w. split_and!; auto. do 3 f_equal. destruct (Z.leb_spec (len text) (off + len w)); symmetry;
      [apply bool_decide_eq_true_2|apply bool_decide_eq_false_2]; lia.
  - destruct (offer_refused text off slices o ltac:(lia) Hof Ho) as (e & ->). eauto.
Qed.

Lemma inline_run o h p off :
  0 <= off <= len (h ++ p) -> len (h ++ p) <= usize_max ->
  writes_run (h ++ p) off o (write_inline_lease_slice o h p off).
Proof.
  intros H0 Hu. unfold write_inline_lease_slice. rewrite len_app in *.
  rewrite saturating_add_exact by lia. destruct (Z.leb_spec (len h + len p) off) as [E|E].
  - split_and!; rewrite ?len_app; [done|lia..].
  - destruct (vectored_offer h p off (Z.min STREAM_WRITE_SLICE_BYTES (len h + len p - off))) as (s & -> & Hs);
      [lia|unfold STREAM_WRITE_SLICE_BYTES; lia|rewrite len_app; lia|]. cbn [mbind Result_bind].
    rewrite <- len_app. pose proof (offered_run (h ++ p) off o s) as Hrun. rewrite len_app in Hrun at 1.
    assert (offers (h ++ p) off s) as Hof.
    { eexists. split_and!; [| |exact Hs]; rewrite ?len_app; unfold STREAM_WRITE_SLICE_BYTES; lia. }
    specialize (Hrun ltac:(lia) Hof). now destruct (write_vectored_once o s).
Qed.

Lemma fixed_run o text off :
  0 <= off <= len text -> writes_run text off o (write_fixed_lease_slice o text off).
Proof.
  intros H0. unfold write_fixed_lease_slice. destruct (Z.leb_spec (len text) off) as [E|E].
  - split_and!; [done|lia..].
  - assert (0 < STREAM_WRITE_SLICE_BYTES) by done. rewrite range_of_Ok by lia. cbn [mbind Result_bind].
    apply offered_run; [lia|]. eexists. split_and!; [| |cbn; now rewrite app_nil_r]; lia.
Qed.

Lemma run_cases text off o out :
  writes_run text off o out -> accepts o \/ refused o = true -> 0 <= off <= len text ->
  (exists w, out = (Ok (w, false), off + len w) /\ 0 < len w /\ off + len w < len text
     /\ drop (Z.to_nat off) text = w ++ drop (Z.to_nat (off + len w)) text)
  \/ (exists w off', out = (Ok (w, true), off') /\ w = drop (Z.to_nat off) text /\ off' = len text)
  \/ (refused o = true /\ exists e, out = (Err e, off)).
Proof.
  intros (Hend & Hacc & Href) Ho H0. destruct (decide (off = len text)) as [E|E].
  { right. left. rewrite Hend by done. exists [], off. split_and!; auto.
    rewrite drop_ge; [done|]. unfold len in *. lia. }
  destruct Ho as [Ho|Ho]; [|right; right; split; [done|apply Href; auto; lia]].
  destruct Hacc as (w & -> & Hw & Hfit & Hd); [lia|done|]. destruct (decide (off + len w = len text)) as [E1|E1].
  - right. left. exists w, (off + len w). rewrite bool_decide_eq_true_2 by done. split_and!; auto.
    rewrite Hd, (drop_ge text) by (unfold len in *; lia). now rewrite app_nil_r.
  - left. exists w. rewrite bool_decide_eq_false_2 by done. split_and!; auto. lia.
Qed.

(** ** The unit at hand: the frame being written and the position in it *)
Definition lease_text (stage : LeasedResponseStage) : list Z :=
  match stage with
  | WritingNormal r => frame_text r (br_frame_index r)
  | WritingInline h p | WritingTerminal h p => h ++ p
  | WritingAbort h => h
  | _ => []
  end.

Definition lease_pos (stage : LeasedResponseStage) (offset : Z) : Z :=
  match stage with
  | WritingNormal r => br_frame_offset r
  | WritingInline _ _ | WritingTerminal _ _ | WritingAbort _ => offset
  | _ => 0
  end.

Record lease_ok (record : LeaseRecord) : Prop := {
  le_terminal : Forall is_byte (lr_terminal_payload record)
    /\ ASK_RESPONSE_HEADER_LEN + len (lr_terminal_payload record) <= CONTROL_BODY_LEN_MASK;
  le_normal p : lr_normal_payload record = Some p -> Forall is_byte p /\ len p <= u32_max;
}.

Definition terminal_frame (record : LeaseRecord) : WireKind * list Z :=
  reply_frame (lr_correlation_id record) (lr_terminal_payload record).

(** The stream of a lease: its response, cut. *)
Definition lease_stream (record : LeaseRecord) (r : BytesStreamingResponse) : Prop :=
  bytes_ok r /\ lr_normal_payload record = Some (br_payload r)
  /\ br_correlation_id r = lr_correlation_id record.

(** The frames of an aborted stream: some of the response, not all of it. *)
Definition aborted (record : LeaseRecord) (sid : Z) (fs : list (WireKind * list Z)) : Prop :=
  exists r k, lease_stream record r /\ br_stream_id r = sid /\ 0 < k < br_chunk_count r
    /\ fs = response_frame r <$> seqZ 0 k.

(** What the peer has been sent once nothing more will be. *)
Inductive answered (record : LeaseRecord) : list (WireKind * list Z) -> Prop :=
  | answered_inline p :
      lr_normal_payload record = Some p ->
      answered record [reply_frame (lr_correlation_id record) p]
  | answered_stream r :
      lease_stream record r -> answered record (response_frames r)
  | answered_terminal : answered record [terminal_frame record]
  | answered_aborted sid fs :
      aborted record sid fs ->
      answered record (fs ++ [abort_frame sid; terminal_frame record]).

(** What each stage has sent in full ([fs]), and what it is sending. *)
Definition lease_inv (record : LeaseRecord) (fs : list (WireKind * list Z)) (w : LeaseWriter) : Prop :=
  0 <= lw_offset w /\
  match lw_stage w with
  | Reserved => fs = []
  | WritingNormal r =>
      lease_stream record r /\ br_frame_index r < br_chunk_count r /\ br_frame_offset r <= lw_offset w
      /\ fs = response_frame r <$> seqZ 0 (br_frame_index r)
  | WritingInline h p =>
      fs = [] /\ lr_normal_payload record = Some p /\ lw_offset w <= len (h ++ p)
      /\ h ++ p = frame_bytes (reply_frame (lr_correlation_id record) p)
      /\ wire_frame (reply_frame (lr_correlation_id record) p)
  | WritingAbort h =>
      exists sid, aborted record sid fs /\ lw_offset w <= len h /\ h = frame_bytes (abort_frame sid)
  | WritingTerminal h p =>
      (fs = [] \/ exists sid gs, aborted record sid gs /\ fs = gs ++ [abort_frame sid])
      /\ lw_offset w <= len (h ++ p) /\ h ++ p = frame_bytes (terminal_frame record)
  | Flushing | LeaseComplete => answered record fs
  end.

(** One slice: further into the frame at hand, to its end, or, before its first
    byte, to another frame in its place. *)
Definition unit_moves (text : list Z) (pos : Z) (wr text' : list Z) (pos' : Z) : Prop :=
  (text' = text /\ pos' = pos + len wr /\ pos' < len text
   /\ drop (Z.to_nat pos) text = wr ++ drop (Z.to_nat pos') text)
  \/ (wr = drop (Z.to_nat pos) text /\ pos' = 0)
  \/ (wr = [] /\ pos = 0 /\ pos' = 0).

Abbreviation text_of w := (lease_text (lw_stage w)).
Abbreviation pos_of w := (lease_pos (lw_stage w) (lw_offset w)).

(** A frame joins the history when its end is reached. *)
Definition lease_next (fs : list (WireKind * list Z)) (w : LeaseWriter) (wr : list Z)
    (fs' : list (WireKind * list Z)) (w' : LeaseWriter) : Prop :=
  unit_moves (text_of w) (pos_of w) wr (text_of w') (pos_of w')
  /\ wire fs' ++ take (Z.to_nat (pos_of w')) (text_of w')
     = (wire fs ++ take (Z.to_nat (pos_of w)) (text_of w)) ++ wr.

Lemma next_within fs w wr w' :
  0 <= pos_of w -> text_of w' = text_of w -> pos_of w' = pos_of w + len wr -> pos_of w' < len (text_of w) ->
  drop (Z.to_nat (pos_of w)) (text_of w) = wr ++ drop (Z.to_nat (pos_of w')) (text_of w) ->
  lease_next fs w wr fs w'.
Proof.
  intros H0 Ht Hp Hl Hd. split; [left; split_and!; auto|]. rewrite <- app_assoc. f_equal. rewrite Ht.
  pose proof (len_nonneg wr).
  rewrite <- (take_drop (Z.to_nat (pos_of w)) (text_of w)) at 1. rewrite Hd.
  rewrite take_app_ge by (rewrite length_take; lia). f_equal.
  rewrite length_take, take_app_le by (unfold len in *; lia). apply take_ge. unfold len in *. lia.
Qed.

Lemma next_boundary fs w wr f w' :
  wr = drop (Z.to_nat (pos_of w)) (text_of w) -> pos_of w' = 0 -> text_of w = frame_bytes f ->
  lease_next fs w wr (fs ++ [f]) w'.
Proof.
  intros -> Hp Ht. split; [right; left; auto|]. rewrite Hp, take_0, app_nil_r, wire_app, <- app_assoc.
  rewrite take_drop, Ht. unfold wire at 2. cbn. now rewrite app_nil_r.
Qed.

Lemma next_switch fs w w' : pos_of w = 0 -> pos_of w' = 0 -> lease_next fs w [] fs w'.
Proof.
  intros Hp Hp'. split; [right; right; auto|]. now rewrite Hp, Hp', !take_0, !app_nil_r.
Qed.

(** ** Each stage *)
Section Steps.
Context (record : LeaseRecord) (Hrec : lease_ok record).
Context (streaming_threshold max_message_size : Z) (Hmax : max_message_size <= CONTROL_BODY_LEN_MASK).

Definition slice_ok (fs : list (WireKind * list Z)) (w : LeaseWriter) (out : SliceResult * LeaseWriter) : Prop :=
  let '(res, w') := out in
  match res with
  | Ok (wr, complete, y) =>
      exists fs', lease_inv record fs' w' /\ lease_next fs w wr fs' w'
        /\ (complete = true -> lw_stage w' = LeaseComplete) /\ (y = true -> pos_of w' = 0)
  | Err _ => lease_inv record fs w' /\ text_of w' = text_of w /\ pos_of w' = pos_of w
  | Panic => False
  end.

Lemma terminal_ready :
  exists h, terminal_stage record = Ok (WritingTerminal h (lr_terminal_payload record))
    /\ h ++ lr_terminal_payload record = frame_bytes (terminal_frame record).
Proof using Hrec.
  destruct (le_terminal _ Hrec) as [Hb Hl]. unfold terminal_stage.
  destruct (reply_header (lr_correlation_id record) _ Hl Hb) as (h & -> & Hh & _). eauto.
Qed.

Lemma terminal_wire : wire_frame (terminal_frame record).
Proof using Hrec.
  destruct (le_terminal _ Hrec) as [Hb Hl]. now destruct (reply_header (lr_correlation_id record) _ Hl Hb) as (h & _ & _ & H).
Qed.

(** Into the terminal stage, from before the first byte of a frame. *)
Lemma to_terminal fs w :
  pos_of w = 0 -> (fs = [] \/ exists sid gs, aborted record sid gs /\ fs = gs ++ [abort_frame sid]) ->
  slice_ok fs w (lease_moves w (terminal_stage record)).
Proof using Hrec.
  intros Hp Hfs. destruct terminal_ready as (h & -> & Hh). cbn. exists fs.
  split_and!; [|now apply next_switch|done..]. split; [done|]. cbn. split_and!; auto using len_nonneg.
Qed.

Lemma stream_bytes r : lease_stream record r -> Forall is_byte (br_payload r).
Proof using Hrec. intros (_ & E & _). now apply (le_normal _ Hrec). Qed.

(** The chunk size a lease cuts with fits every frame. *)
Lemma lease_chunk k :
  lease_stream_chunk_size max_message_size = Ok k -> 0 < k <= CONTROL_BODY_LEN_MASK - 12.
Proof using Hmax.
  unfold lease_stream_chunk_size, saturating_sub. destruct (Z.eqb_spec (Z.max 0 (max_message_size - STREAM_REQUEST_START_HEADER_LEN)) 0); [done|].
  intros [= <-]. change CONTROL_BODY_LEN_MASK with 134217727 in *.
  unfold STREAM_CHUNK_SIZE, MASTER_BUFFER_SIZE, STREAM_REQUEST_START_HEADER_LEN in *. lia.
Qed.

Lemma to_normal sid p k n w :
  lw_stage w = Reserved -> lr_normal_payload record = Some p -> lease_stream_chunk_size max_message_size = Ok k ->
  slice_ok [] w (lease_moves (mkLeaseWriter Reserved 0 n (lw_notes w))
    (Ok (WritingNormal (bytes_response_new sid (lr_correlation_id record) p (len p) k)))).
Proof using Hrec Hmax.
  intros Ew Ep Ek. apply lease_chunk in Ek. destruct (le_normal _ Hrec p Ep) as [Hb Hlen]. pose proof (len_nonneg p).
  set (r := bytes_response_new _ _ _ _ _). assert (bytes_ok r) as Hr by now apply bytes_response_new_ok.
  pose proof (chunk_count_pos (len p) k ltac:(lia) Ek). cbn [lease_moves slice_ok].
  exists []. split_and!; [|apply next_switch; [now rewrite Ew|done]|done..].
  split; [done|]. cbn [lw_goto lw_stage lw_offset]. split_and!; [now split|cbn; lia|cbn; lia|done].
Qed.

Lemma reserved_step cancelled w next stage :
  lw_stage w = Reserved ->
  lease_select record cancelled streaming_threshold max_message_size (lw_next_stream_id w) = (stage, next) ->
  slice_ok [] w (lease_moves (mkLeaseWriter Reserved 0 next (lw_notes w)) stage).
Proof using Hrec Hmax.
  intros Ew Esel.
  assert (forall s n, s = terminal_stage record -> slice_ok [] w (lease_moves (mkLeaseWriter Reserved 0 n (lw_notes w)) s)) as Hterm.
  { intros s n ->. pose proof (to_terminal [] (mkLeaseWriter Reserved 0 n (lw_notes w)) eq_refl (or_introl eq_refl)) as H.
    destruct (lease_moves _ _) as [res w']. destruct res as [[[wr c] y]|e|]; cbn in H |- *; [|rewrite Ew; exact H|exact H].
    unfold lease_next in H |- *. rewrite Ew. exact H. }
  revert Esel. unfold lease_select. destruct cancelled; [intros [= <- <-]; auto|].
  destruct (lr_normal_payload record) as [p|] eqn:Ep; [|intros [= <- <-]; auto].
  destruct (le_normal _ Hrec p Ep) as [Hb Hlen]. pose proof (len_nonneg p).
  destruct (Z.ltb_spec streaming_threshold (len p)); cbn [orb];
    [|destruct (Z.ltb_spec (saturating_sub max_message_size ASK_RESPONSE_HEADER_LEN) (len p))].
  1,2: destruct (allocate_lease_stream_id (lw_next_stream_id w)) as [[sid|e|] n];
    intros [= <- <-]; try (destruct (lease_stream_chunk_size max_message_size); apply Hterm; reflexivity);
    (destruct (lease_stream_chunk_size max_message_size) as [k|e|] eqn:Ek; [now apply to_normal|apply Hterm; reflexivity..]).
  intros [= <- <-].
  assert (ASK_RESPONSE_HEADER_LEN + len p <= CONTROL_BODY_LEN_MASK) as Hfit.
  { unfold saturating_sub in *. change CONTROL_BODY_LEN_MASK with 134217727 in *. unfold ASK_RESPONSE_HEADER_LEN in *. lia. }
  destruct (reply_header (lr_correlation_id record) p Hfit Hb) as (h & -> & Hh & Hw). cbn.
  exists []. split_and!; [|apply next_switch; [now rewrite Ew|done]|done..].
  split; [done|]. cbn. split_and!; auto using len_nonneg.
Qed.

(** Further into the frame at hand, with the stage unchanged. *)
Lemma stay_step fs w off wr notes :
  lease_inv record fs w -> (forall o, lease_pos (lw_stage w) o = o) -> 0 <= off <= len (text_of w) ->
  (forall o n, 0 <= o <= len (text_of w) -> lease_inv record fs (lw_goto (lw_stage w) o n w)) ->
  off = lw_offset w + len wr -> off < len (text_of w) ->
  drop (Z.to_nat (lw_offset w)) (text_of w) = wr ++ drop (Z.to_nat off) (text_of w) ->
  slice_ok fs w (Ok (wr, false, false), lw_goto (lw_stage w) off notes w).
Proof using.
  intros Hi Hp Ho Hstay E Hlt Hd. exists fs. split_and!; [now apply Hstay| |done..].
  apply next_within; cbn [lw_goto lw_stage lw_offset]; rewrite ?Hp; auto. apply Hi.
Qed.

Lemma fail_step fs w e :
  lease_inv record fs w -> (forall o n, 0 <= o <= len (text_of w) -> lease_inv record fs (lw_goto (lw_stage w) o n w)) ->
  lw_offset w <= len (text_of w) ->
  slice_ok fs w (Err e, lw_goto (lw_stage w) (lw_offset w) [] w).
Proof using. intros Hi Hstay Ho. split_and!; [|done..]. apply Hstay. split; [apply Hi|done]. Qed.

Lemma len_frame_bytes f : len (frame_bytes f) = 4 + len f.2.
Proof using. unfold frame_bytes. rewrite len_app. reflexivity. Qed.

Lemma wire_frame_usize f : wire_frame f -> len (frame_bytes f) <= usize_max.
Proof using.
  intros [Hl _]. rewrite len_frame_bytes. change CONTROL_BODY_LEN_MASK with 134217727 in Hl. unfold usize_max, u64_max. lia.
Qed.

Lemma inline_step fs w o h p cancelled :
  accepts o \/ refused o = true -> lease_inv record fs w -> lw_stage w = WritingInline h p ->
  slice_ok fs w
    (if cancelled && (lw_offset w =? 0) then lease_moves w (terminal_stage record)
     else match write_inline_lease_slice o h p (lw_offset w) with
     | (Ok (wr, complete), off) =>
         (Ok (wr, false, false), lw_goto (if complete then Flushing else lw_stage w) off
            (if (0 <? len wr) || complete then [NormalOutcome] else []) w)
     | (Err e, off) => (Err e, lw_goto (lw_stage w) off [] w)
     | (Panic, off) => (Panic, lw_goto (lw_stage w) off [] w)
     end).
Proof using Hrec.
  intros Ho Hi Ew. pose proof Hi as [H0 Hs]. rewrite Ew in Hs. destruct Hs as (Hfs & Hp & Hl & Hh & Hwf).
  destruct (cancelled && (lw_offset w =? 0)) eqn:Ec.
  { apply to_terminal; [|auto]. rewrite Ew. cbn. apply andb_prop in Ec as [_ Ec]. now apply Z.eqb_eq in Ec. }
  pose proof (wire_frame_usize _ Hwf) as Hu. rewrite <- Hh in Hu.
  assert (forall off n, 0 <= off <= len (text_of w) -> lease_inv record fs (lw_goto (lw_stage w) off n w)) as Hstay.
  { intros off n Hoff. rewrite Ew in *. split; [cbn; lia|]. cbn. split_and!; auto. apply Hoff. }
  destruct (run_cases _ _ _ _ (inline_run o h p _ (conj H0 Hl) Hu) Ho (conj H0 Hl))
    as [(wr & -> & _ & Hlt & Hd)|[(wr & off & -> & Hd & Hoff)|(_ & e & ->)]].
  - apply stay_step; auto; rewrite ?Ew; cbn; pose proof (len_nonneg wr); try lia; done.
  - exists (fs ++ [reply_frame (lr_correlation_id record) p]). split_and!; [| |done..].
    + split; [cbn; pose proof (len_nonneg (h ++ p)); lia|]. cbn. rewrite Hfs. now apply answered_inline.
    + apply next_boundary; [rewrite Ew; exact Hd|done|rewrite Ew; exact Hh].
  - apply fail_step; auto. now rewrite Ew.
Qed.

Lemma terminal_step fs w o h p :
  accepts o \/ refused o = true -> lease_inv record fs w -> lw_stage w = WritingTerminal h p ->
  slice_ok fs w
    (match write_inline_lease_slice o h p (lw_offset w) with
     | (Ok (wr, complete), off) =>
         (Ok (wr, false, false), lw_goto (if complete then Flushing else lw_stage w) off
            (if complete then [TerminalOutcome] else []) w)
     | (Err e, off) => (Err e, lw_goto (lw_stage w) off [] w)
     | (Panic, off) => (Panic, lw_goto (lw_stage w) off [] w)
     end).
Proof using Hrec.
  intros Ho Hi Ew. pose proof Hi as [H0 Hs]. rewrite Ew in Hs. destruct Hs as (Hfs & Hl & Hh).
  pose proof (wire_frame_usize _ terminal_wire) as Hu. rewrite <- Hh in Hu.
  assert (forall off n, 0 <= off <= len (text_of w) -> lease_inv record fs (lw_goto (lw_stage w) off n w)) as Hstay.
  { intros off n Hoff. rewrite Ew in *. split; [cbn; lia|]. cbn. split_and!; auto. apply Hoff. }
  destruct (run_cases _ _ _ _ (inline_run o h p _ (conj H0 Hl) Hu) Ho (conj H0 Hl))
    as [(wr & -> & _ & Hlt & Hd)|[(wr & off & -> & Hd & Hoff)|(_ & e & ->)]].
  - apply stay_step; auto; rewrite ?Ew; cbn; pose proof (len_nonneg wr); try lia; done.
  - exists (fs ++ [terminal_frame record]). split_and!; [| |done..].
    + split; [cbn; pose proof (len_nonneg (h ++ p)); lia|]. cbn.
      destruct Hfs as [->|(sid & gs & Hab & ->)]; [apply answered_terminal|]. rewrite <- app_assoc. now apply answered_aborted.
    + apply next_boundary; [rewrite Ew; exact Hd|done|rewrite Ew; exact Hh].
  - apply fail_step; auto. now rewrite Ew.
Qed.

Lemma abort_step fs w o h :
  accepts o \/ refused o = true -> lease_inv record fs w -> lw_stage w = WritingAbort h ->
  slice_ok fs w
    (match write_fixed_lease_slice o h (lw_offset w) with
     | (Ok (wr, true), off) =>
         match terminal_stage record with
         | Ok stage => (Ok (wr, false, false), lw_goto stage 0 [AbortNote] w)
         | Err e => (Err e, w)
         | Panic => (Panic, w)
         end
     | (Ok (wr, false), off) => (Ok (wr, false, false), lw_goto (lw_stage w) off [] w)
     | (Err e, off) => (Err e, lw_goto (lw_stage w) off [] w)
     | (Panic, off) => (Panic, lw_goto (lw_stage w) off [] w)
     end).
Proof using Hrec.
  intros Ho Hi Ew. pose proof Hi as [H0 Hs]. rewrite Ew in Hs. destruct Hs as (sid & Hab & Hl & Hh).
  assert (forall off n, 0 <= off <= len (text_of w) -> lease_inv record fs (lw_goto (lw_stage w) off n w)) as Hstay.
  { intros off n Hoff. rewrite Ew in *. split; [cbn; lia|]. cbn. exists sid. split_and!; auto. apply Hoff. }
  destruct (run_cases _ _ _ _ (fixed_run o h _ (conj H0 Hl)) Ho (conj H0 Hl))
    as [(wr & -> & _ & Hlt & Hd)|[(wr & off & -> & Hd & Hoff)|(_ & e & ->)]].
  - apply stay_step; auto; rewrite ?Ew; cbn; pose proof (len_nonneg wr); try lia; done.
  - destruct terminal_ready as (ht & -> & Hht). exists (fs ++ [abort_frame sid]). split_and!; [| |done..].
    + split; [done|]. cbn. split_and!; auto using len_nonneg. right. eauto.
    + apply next_boundary; [rewrite Ew; exact Hd|done|rewrite Ew; exact Hh].
  - apply fail_step; auto. now rewrite Ew.
Qed.

Lemma stream_set_frame r i off :
  lease_stream record r -> bytes_ok (set_frame i off r) -> lease_stream record (set_frame i off r).
Proof using. intros (_ & H1 & H2) Hok. now split. Qed.

Lemma frames_snoc r i :
  0 <= i -> (response_frame r <$> seqZ 0 i) ++ [response_frame r i] = response_frame r <$> seqZ 0 (i + 1).
Proof using. intros Hi. rewrite (seqZ_app 0 i 1) by lia. now rewrite fmap_app. Qed.

(** From a frame boundary of the stream to its abort. *)
Lemma to_abort fs w r offs notes wr fs0 :
  lease_stream record r -> 0 < br_frame_index r < br_chunk_count r ->
  fs = response_frame r <$> seqZ 0 (br_frame_index r) ->
  (forall w', pos_of w' = 0 -> lease_next fs0 w wr fs w') ->
  match (header ← write_stream_abort_header (br_stream_id r) 0; Ok (WritingAbort header)) with
  | Ok stage => slice_ok fs0 w (Ok (wr, false, false), mkLeaseWriter stage 0 offs notes)
  | _ => False
  end.
Proof using.
  intros Hst Hi Hfs Hn. destruct (abort_header (br_stream_id r)) as (h & -> & Hh & _). cbn.
  exists fs. split_and!; [|now apply Hn|done..]. split; [done|]. cbn. exists (br_stream_id r).
  split_and!; auto using len_nonneg. exists r, (br_frame_index r). split_and!; auto; lia.
Qed.

Lemma normal_step fs w o r cancelled cancelled_after :
  accepts o \/ refused o = true -> lease_inv record fs w -> lw_stage w = WritingNormal r ->
  slice_ok fs w (write_lease_normal o record cancelled cancelled_after r w).
Proof using Hrec.
  intros Ho Hi Ew. pose proof Hi as [H0 Hs]. rewrite Ew in Hs. destruct Hs as (Hst & Hmore & Hoff & Hfs).
  pose proof Hst as [Hr _]. pose proof Hr as [Hr1 Hr2 Hr3 Hr4 Hr5 Hr6 _ _].
  assert (Forall is_byte (br_payload r)) as Hb by now apply stream_bytes.
  destruct (frame_text_frame r Hr Hb (br_frame_index r) ltac:(lia)) as [Hft Hfw].
  pose proof (index_u32 r Hr (br_frame_index r) ltac:(lia)) as Hidx.
  assert (forall w', pos_of w' = 0 -> lease_next fs w (drop (Z.to_nat (br_frame_offset r)) (frame_text r (br_frame_index r)))
    (response_frame r <$> seqZ 0 (br_frame_index r + 1)) w') as Hbound.
  { intros w' Hw'. rewrite <- frames_snoc, <- Hfs by lia. apply next_boundary; rewrite ?Ew; auto. }
  unfold write_lease_normal. rewrite saturating_add_exact by (unfold u32_max, usize_max, u64_max in *; lia).
  destruct (cancelled && negb (negb (br_frame_offset r =? 0))) eqn:Ec.
  { apply andb_prop in Ec as [_ Ec]. rewrite negb_involutive in Ec. apply Z.eqb_eq in Ec.
    assert (pos_of w = 0) as Hp by (rewrite Ew; exact Ec).
    destruct (Z.eqb_spec (br_frame_index r) 0) as [E0|E0].
    - apply to_terminal; auto. left. rewrite Hfs, E0. done.
    - pose proof (to_abort fs w r (lw_next_stream_id w) (lw_notes w ++ []) [] fs Hst ltac:(lia) Hfs) as Hab.
      destruct (header ← _; _) as [stage|e|]; cbn [lease_moves]; [|destruct Hab; intros w' Hw'; now apply next_switch..].
      apply Hab. intros w' Hw'. now apply next_switch. }
  destruct Ho as [Ho|Ho].
  2: { assert (bytes_remaining r <> []) as Hne by (rewrite <- bytes_remaining_nil by done; lia).
    destruct (bytes_slice_refused o r Hr Hne Ho) as (e & ->). split_and!; cbn; rewrite ?Ew; auto.
    split; [done|]. cbn. split_and!; auto. }
  destruct (bytes_slice_frame o r Hr Hmore Ho) as (wr & Hw & Hd & Hok & [[Hlt E]|[Heq E]]); rewrite E in Hok |- *; cbn [snd] in Hok.
  - rewrite andb_false_r. cbn [andb]. eexists fs. split_and!; [| |done..].
    + split; [cbn; lia|]. cbn. split_and!; [now apply stream_set_frame|done|lia|done].
    + apply next_within; rewrite ?Ew; cbn; auto.
  - assert (wr = drop (Z.to_nat (br_frame_offset r)) (frame_text r (br_frame_index r))) as Ewr.
    { rewrite Hd, (drop_ge (frame_text _ _)) by (unfold len in *; lia). now rewrite app_nil_r. }
    set (r' := set_frame (br_frame_index r + 1) 0 r) in *. assert (lease_stream record r') as Hst' by now apply stream_set_frame.
    rewrite <- Ewr in Hbound. destruct (Z.leb_spec (br_chunk_count r) (br_frame_index r + 1)) as [Hlast|Hlast].
    + eexists. split_and!; [|apply Hbound; done|done..]. split; [cbn; lia|]. cbn.
      replace (br_frame_index r + 1) with (br_chunk_count r) by lia. now apply answered_stream.
    + cbn [negb]. rewrite andb_true_r. destruct cancelled_after; cbn [andb].
      * pose proof (to_abort _ w r' (lw_next_stream_id w) (lw_notes w ++ if (0 <? len wr) && false then [NormalOutcome] else []) wr fs
          Hst' ltac:(cbn; lia) eq_refl Hbound) as Hab. change (br_stream_id r') with (br_stream_id r) in Hab.
        now destruct (header ← _; _) as [stage|e|].
      * eexists. split_and!; [|apply Hbound; done|done..]. split; [cbn; lia|]. cbn. split_and!; auto; lia.
Qed.

(** ** Any slice *)
Abbreviation slice_of o c1 c2 w :=
  (write_leased_response_command_slice o record c1 c2 streaming_threshold max_message_size w).

Lemma lease_step fs w o c1 c2 :
  accepts o \/ refused o = true -> lease_inv record fs w -> slice_ok fs w (slice_of o c1 c2 w).
Proof using Hrec Hmax.
  intros Ho Hi. unfold write_leased_response_command_slice. destruct (lw_stage w) as [|r|h p|h|h p| |] eqn:Ew.
  - destruct (lease_select _ _ _ _ _) as [stage next] eqn:Es. pose proof Hi as [_ Hf]. rewrite Ew in Hf. subst fs.
    eapply reserved_step; eauto.
  - now apply normal_step.
  - rewrite <- Ew. now apply inline_step.
  - rewrite <- Ew. now apply abort_step.
  - rewrite <- Ew. now apply terminal_step.
  - pose proof Hi as [H0 Hf]. rewrite Ew in Hf. destruct o as [n|k].
    + exists fs. split_and!; [now split|apply next_switch; now rewrite ?Ew|done..].
    + split_and!; auto.
  - pose proof Hi as [H0 Hf]. rewrite Ew in Hf. exists fs.
    split_and!; [now split|apply next_switch; now rewrite ?Ew|done..].
Qed.

(** ** Progress *)
Definition lease_rank (w : LeaseWriter) : nat :=
  match lw_stage w with
  | Reserved => 5 | WritingNormal _ | WritingInline _ _ => 4 | WritingAbort _ => 3
  | WritingTerminal _ _ => 2 | Flushing => 1 | LeaseComplete => 0
  end.

Definition lease_left (w : LeaseWriter) : list Z :=
  match lw_stage w with
  | WritingNormal r => bytes_remaining r
  | stage => drop (Z.to_nat (lease_pos stage (lw_offset w))) (lease_text stage)
  end.

Definition lease_closer (w' w : LeaseWriter) : Prop :=
  (lease_rank w' < lease_rank w)%nat
  \/ lease_rank w' = lease_rank w /\ (length (lease_left w') < length (lease_left w))%nat.

Definition closer_slice (w : LeaseWriter) (out : SliceResult * LeaseWriter) : Prop :=
  exists wr y w', out = (Ok (wr, false, y), w') /\ lease_closer w' w.

Lemma not_both o : accepts o -> refused o = true -> False.
Proof using. destruct o as [n|]; [|done]. cbn. intros H E%Z.eqb_eq. lia. Qed.

(** A stage that writes a fixed text gets closer to the next. *)
Lemma run_closer w text o out :
  writes_run text (lw_offset w) o out -> accepts o -> 0 <= lw_offset w <= len text ->
  exists wr off, out = (Ok (wr, true), off)
    \/ (out = (Ok (wr, false), off)
        /\ (length (drop (Z.to_nat off) text) < length (drop (Z.to_nat (lw_offset w)) text))%nat).
Proof using.
  intros Hrun Ho H0. destruct (run_cases _ _ _ _ Hrun (or_introl Ho) H0) as [(wr & -> & Hw & Hlt & _)|[(wr & off & -> & _)|(H & _)]].
  - exists wr, (lw_offset w + len wr). right. split; [done|]. rewrite !length_drop. unfold len in *. lia.
  - eauto.
  - destruct (not_both o Ho H).
Qed.

Lemma select_stage c1 next stage n :
  lease_select record c1 streaming_threshold max_message_size next = (stage, n) ->
  exists st, stage = Ok st
    /\ match st with WritingNormal _ | WritingInline _ _ | WritingTerminal _ _ => True | _ => False end.
Proof using Hrec Hmax.
  unfold lease_select. destruct terminal_ready as (h & -> & _).
  destruct c1; [intros [= <- <-]; by eexists|]. destruct (lr_normal_payload record) as [p|] eqn:Ep; [|intros [= <- <-]; by eexists].
  destruct (_ || _) eqn:El.
  - destruct (allocate_lease_stream_id next) as [[sid|e|] m]; intros [= <- <-]; destruct (lease_stream_chunk_size _); by eexists.
  - apply orb_false_elim in El as [_ El]. apply Z.ltb_ge in El. destruct (le_normal _ Hrec p Ep) as [Hb _].
    destruct (reply_header (lr_correlation_id record) p) as (h' & -> & _); [|done|intros [= <- <-]; by eexists].
    unfold saturating_sub in El. change CONTROL_BODY_LEN_MASK with 134217727 in *. unfold ASK_RESPONSE_HEADER_LEN in *. lia.
Qed.

Lemma normal_closer fs w o r c1 c2 :
  accepts o -> lease_inv record fs w -> lw_stage w = WritingNormal r ->
  closer_slice w (write_lease_normal o record c1 c2 r w).
Proof using Hrec.
  intros Ho Hi Ew. pose proof Hi as [H0 Hs]. rewrite Ew in Hs. destruct Hs as ((Hr & _) & Hmore & _).
  unfold write_lease_normal, closer_slice, lease_closer.
  assert (lease_rank w = 4%nat) as Hrank by (unfold lease_rank; now rewrite Ew).
  destruct terminal_ready as (ht & -> & _). destruct (abort_header (br_stream_id r)) as (ha & -> & _). cbn [mbind Result_bind].
  destruct (c1 && _).
  { destruct (br_frame_index r =? 0); cbn; (eexists [], false, _; split; [reflexivity|left; rewrite Hrank; cbn; lia]). }
  assert (bytes_remaining r <> []) as Hne by (rewrite <- bytes_remaining_nil by done; pose proof (bo_index _ Hr); lia).
  destruct (bytes_slice_accepted o r Hr Hne Ho) as (wr & r' & y & -> & _ & Hw & Hrem & _).
  destruct (bool_decide _); [eexists _, _, _; split; [reflexivity|left; rewrite Hrank; cbn; lia]|].
  destruct (c2 && y && _); (eexists _, _, _; split; [reflexivity|]); [left; rewrite Hrank; cbn; lia|].
  right. rewrite Hrank. split; [done|]. unfold lease_left. rewrite Ew. cbn. rewrite Hrem, length_app. unfold len in Hw. lia.
Qed.

(** A slice the transport takes anything of gets closer to the end. *)
Lemma lease_progress fs w o c1 c2 :
  accepts o -> lease_inv record fs w -> lw_stage w <> LeaseComplete ->
  (lw_stage w = Flushing /\ exists w', slice_of o c1 c2 w = (Ok ([], true, false), w'))
  \/ closer_slice w (slice_of o c1 c2 w).
Proof using Hrec Hmax.
  intros Ho Hi Hn. unfold write_leased_response_command_slice. pose proof Hi as [H0 Hs].
  destruct terminal_ready as (ht & Et & _). pose proof (wire_frame_usize _ terminal_wire) as Hut.
  destruct (lw_stage w) as [|r|h p|h|h p| |] eqn:Ew; [..|done].
  - right. destruct (lease_select _ _ _ _ _) as [stage next] eqn:Es.
    destruct (select_stage _ _ _ _ Es) as (st & -> & Hst). eexists [], false, _. split; [reflexivity|].
    left. unfold lease_rank. rewrite Ew. cbn. destruct st; try done; lia.
  - right. eapply normal_closer; eauto.
  - right. destruct Hs as (_ & _ & Hl & Hh & Hwf). apply wire_frame_usize in Hwf. rewrite <- Hh in Hwf.
    destruct (c1 && _).
    { rewrite Et. eexists [], false, _. split; [reflexivity|]. left. unfold lease_rank. rewrite Ew. cbn. lia. }
    destruct (run_closer w _ _ _ (inline_run o h p _ (conj H0 Hl) Hwf) Ho (conj H0 Hl)) as (wr & off & [->|[-> Hlt]]);
      (eexists _, _, _; split; [reflexivity|]); unfold lease_closer, lease_rank, lease_left; rewrite Ew; cbn; [left; lia|right; lia].
  - right. destruct Hs as (sid & _ & Hl & Hh).
    destruct (run_closer w _ _ _ (fixed_run o h _ (conj H0 Hl)) Ho (conj H0 Hl)) as (wr & off & [->|[-> Hlt]]); rewrite ?Et;
      (eexists _, _, _; split; [reflexivity|]); unfold lease_closer, lease_rank, lease_left; rewrite Ew; cbn; [left; lia|right; lia].
  - right. destruct Hs as (_ & Hl & Hh). rewrite <- Hh in Hut.
    destruct (run_closer w _ _ _ (inline_run o h p _ (conj H0 Hl) Hut) Ho (conj H0 Hl)) as (wr & off & [->|[-> Hlt]]);
      (eexists _, _, _; split; [reflexivity|]); unfold lease_closer, lease_rank, lease_left; rewrite Ew; cbn; [left; lia|right; lia].
  - left. destruct o as [m|]; [|done]. eauto.
Qed.

(** ** The lease driven to its end *)

(** One slice: the transport's answer, and what the cancellation flag reads
    before and after the write. *)
Definition Slice : Type := WriteOutcome * bool * bool.

Fixpoint lease_drive (slices : list Slice) (w : LeaseWriter) : list Z * Result bool * LeaseWriter :=
  match slices with
  | [] => ([], Ok false, w)
  | (o, c1, c2) :: slices =>
      match slice_of o c1 c2 w with
      | (Ok (wr, true, _), w) => (wr, Ok true, w)
      | (Ok (wr, false, _), w) => let '(rest, res, w) := lease_drive slices w in (wr ++ rest, res, w)
      | (Err e, w) => ([], Err e, w)
      | (Panic, w) => ([], Panic, w)
      end
  end.

(** What has been sent: whole frames, and the part written of the one at hand. *)
Definition sent (fs : list (WireKind * list Z)) (w : LeaseWriter) : list Z :=
  wire fs ++ take (Z.to_nat (pos_of w)) (text_of w).

Lemma lease_drive_inv slices : forall fs w,
  lease_inv record fs w -> Forall (fun s => accepts s.1.1 \/ refused s.1.1 = true) slices ->
  let '(out, res, w') := lease_drive slices w in
  res <> Panic /\ exists fs', lease_inv record fs' w' /\ sent fs' w' = sent fs w ++ out
    /\ (res = Ok true -> lw_stage w' = LeaseComplete).
Proof using Hrec Hmax.
  induction slices as [|[[o c1] c2] slices IH]; intros fs w Hi Hs; cbn [lease_drive].
  { split; [done|]. exists fs. now rewrite app_nil_r. }
  apply Forall_cons_1 in Hs as [Ho Hs]. cbn in Ho. pose proof (lease_step fs w o c1 c2 Ho Hi) as Hok.
  destruct (slice_of o c1 c2 w) as [[[[wr complete] y]|e|] w']; [..|done].
  - destruct Hok as (fs' & Hi' & (_ & Hsent) & Hc & _). destruct complete.
    + split; [done|]. exists fs'. split_and!; auto.
    + specialize (IH fs' w' Hi' Hs). destruct (lease_drive slices w') as [[rest res] w2].
      destruct IH as (Hp & fs2 & H1 & H2 & H3). split; [done|]. exists fs2. split_and!; auto.
      rewrite H2. unfold sent at 1. rewrite Hsent. now rewrite <- app_assoc.
  - split; [done|]. destruct Hok as (H1 & H2 & H3). exists fs. unfold sent. now rewrite H2, H3, app_nil_r.
Qed.

(** C34: an ask whose reply is leased is answered exactly once.  Over any
    sequence of slices, each accepted in part or refused by the transport, and
    whenever the lease is cancelled, no slice panics; what has been written is a
    run of whole frames followed by a part of one more; and when the lease is
    complete the frames are one of: the reply in one frame, the reply as a
    whole stream, the terminal reply in its place, or some but not all of the
    stream's frames, its abort and the terminal reply. *)
Theorem lease_answers_once slices next :
  Forall (fun s => accepts s.1.1 \/ refused s.1.1 = true) slices ->
  let '(out, res, w) := lease_drive slices (mkLeaseWriter Reserved 0 next []) in
  res <> Panic
  /\ exists fs, (exists part, out = wire fs ++ part) /\ lease_inv record fs w
     /\ (res = Ok true -> out = wire fs /\ answered record fs).
Proof using Hrec Hmax.
  intros Hs. pose proof (lease_drive_inv slices [] (mkLeaseWriter Reserved 0 next []) (conj (Z.le_refl 0) eq_refl) Hs) as H.
  destruct (lease_drive _ _) as [[out res] w]. destruct H as (Hp & fs & Hi & Hsent & Hc). split; [done|].
  assert (out = sent fs w) as -> by (rewrite Hsent; reflexivity).
  exists fs. split_and!; [unfold sent; eauto|done|].
  intros Hres. specialize (Hc Hres). destruct Hi as [_ Hi]. unfold sent. rewrite Hc in *. cbn.
  split; [apply app_nil_r|done].
Qed.

(** C35: a leased reply completes.  From any state the writer can reach, if the
    transport takes at least a byte of every slice then finitely many slices
    complete the lease, whenever it is cancelled. *)
Theorem lease_completes fs w (sched : nat -> Slice) :
  lease_inv record fs w -> (forall n, accepts (sched n).1.1) ->
  exists n out w', lease_drive (sched <$> seq 0 n) w = (out, Ok true, w') /\ lw_stage w' = LeaseComplete.
Proof using Hrec Hmax.
  intros Hi Hs. assert (forall k m fs w i, (lease_rank w <= k)%nat -> (length (lease_left w) <= m)%nat ->
    lease_inv record fs w -> exists n out w', lease_drive (sched <$> seq i n) w = (out, Ok true, w')) as Hmain.
  - induction k as [k IHk] using lt_wf_ind. induction m as [m IHm] using lt_wf_ind. clear fs w Hi.
    intros fs w i Hk Hm Hi. destruct (sched i) as [[o c1] c2] eqn:Es.
    pose proof (Hs i) as Ho. rewrite Es in Ho. cbn in Ho.
    assert (forall n, sched <$> seq i (S n) = (o, c1, c2) :: (sched <$> seq (S i) n)) as Hseq by (intros n; cbn; now rewrite Es).
    pose proof (lease_step fs w o c1 c2 (or_introl Ho) Hi) as Hok.
    destruct (decide (lease_rank w = 0%nat)) as [E0|E0].
    { exists 1%nat. rewrite Hseq. cbn [lease_drive]. unfold lease_rank in E0.
      unfold write_leased_response_command_slice. destruct (lw_stage w); try done. eauto. }
    destruct (lease_progress fs w o c1 c2 Ho Hi) as [[_ (w' & E)]|(wr & y & w' & E & Hcl)].
    { intros E. unfold lease_rank in E0. now rewrite E in E0. }
    { exists 1%nat. rewrite Hseq. cbn [lease_drive]. rewrite E. eauto. }
    rewrite E in Hok. destruct Hok as (fs' & Hi' & _).
    assert (exists n out w2, lease_drive (sched <$> seq (S i) n) w' = (out, Ok true, w2)) as (n & out & w2 & Hd).
    { destruct Hcl as [Hr|[Hr Hl]]; [eapply (IHk (lease_rank w')); eauto; lia|].
      eapply (IHm (length (lease_left w'))); eauto; lia. }
    exists (S n). rewrite Hseq. cbn [lease_drive]. rewrite E, Hd. eauto.
  - destruct (Hmain _ _ fs w 0%nat (le_n _) (le_n _) Hi) as (n & out & w' & Hd). exists n, out, w'. split; [done|].
    assert (Forall (fun s => accepts s.1.1 \/ refused s.1.1 = true) (sched <$> seq 0 n)) as Hall
      by (apply Forall_fmap, List.Forall_forall; intros x _; left; apply Hs).
    pose proof (lease_drive_inv _ fs w Hi Hall) as H. rewrite Hd in H. destruct H as (_ & fs' & _ & _ & Hc). now apply Hc.
Qed.
End Steps.

(** A reply of five bytes streamed two at a time, cancelled after the first
    frame. *)
Definition example_record : LeaseRecord := mkLease 9 (Some [1; 2; 3; 4; 5]) [7].
Definition example_slices : list Slice :=
  [(Accepted 7, false, false); (Accepted 7, false, false); (Accepted 7, false, false);
   (Accepted 7, false, true); (Accepted 50, true, true); (Accepted 50, true, true);
   (Accepted 50, true, true); (Accepted 50, true, true); (Accepted 50, true, true)].

Lemma example_record_ok : lease_ok example_record.
Proof.
  split; cbn.
  - split; [apply Forall_singleton; split; vm_compute; congruence|vm_compute; congruence].
  - intros p [= <-]. split; [|vm_compute; congruence].
    repeat (apply Forall_cons_2; [split; vm_compute; congruence|]). apply Forall_nil_2.
Qed.

Lemma lease_answers_once_witness :
  exists out w fs, lease_drive example_record 2 26 example_slices (mkLeaseWriter Reserved 0 1 []) = (out, Ok true, w)
    /\ out = wire fs /\ answered example_record fs.
Proof.
  pose proof (lease_answers_once example_record example_record_ok 2 26 ltac:(vm_compute; congruence)
    example_slices 1) as H.
  destruct (lease_drive _ _ _ _ _) as [[out res] w] eqn:E. vm_compute in E.
  injection E as <- <- <-. destruct H as (_ & fs & _ & _ & H).
  - repeat (apply Forall_cons_2; [left; reflexivity|]). apply Forall_nil_2.
  - destruct (H eq_refl) as [H1 H2]. eexists _, _, fs. split; [vm_compute; reflexivity|]. split; [exact H1|exact H2].
Defined.

Lemma lease_completes_witness :
  exists n out w',
    lease_drive example_record 2 26 ((fun k => (Accepted 3, Nat.ltb 4 k, Nat.ltb 4 k)) <$> seq 0 n)
      (mkLeaseWriter Reserved 0 1 []) = (out, Ok true, w') /\ lw_stage w' = LeaseComplete.
Proof.
  apply (lease_completes example_record example_record_ok 2 26 ltac:(vm_compute; congruence) [] _
    (fun k => (Accepted 3, Nat.ltb 4 k, Nat.ltb 4 k))).
  - split; reflexivity || (vm_compute; congruence).
  - intros n. reflexivity.
Defined.
