(* ===== verification/ActorConflict.v ===== *)
(** * Actor locations and the resolution of conflicting announcements

    [RemoteActorLocation] (src/src/remote_actor_location.rs), the changes nodes
    gossip about actors, the tombstones of removed ones, and the rules by which
    a node decides between two accounts of the same actor (src/src/registry.rs). *)

From S2P Require Import Prelude Types VectorClock.

(** A [String] or [&str] is its bytes. *)
Abbreviation Name := (list Z).

(** ** Priorities (src/src/priority.rs) *)
Inductive RegistrationPriority := Normal | Immediate.

Definition should_trigger_immediate_gossip (p : RegistrationPriority) : bool :=
  match p with Immediate => true | Normal => false end.

(** ** Locations *)
Record RemoteActorLocation := mkLocation {
  l_address : list Z;
  l_peer_id : PeerId;
  l_node_id : PublicKey;
  l_vector_clock : Clocks;
  l_wall_clock_time : Z;
  l_priority : RegistrationPriority;
  l_local_registration_time : Z;
  l_metadata : list Z;
}.

(** [PeerId::to_node_id]: the same 32 bytes.  [VerifyingKey::from_bytes] decides
    which bytes are a key; the conversion panics on others. *)
Definition node_of (p : PeerId) : PublicKey := mkPublicKey (peer_bytes p).
Definition to_node_id (valid_key : list Z -> bool) (p : PeerId) : Result PublicKey :=
  if valid_key (peer_bytes p) then Ok (node_of p) else Panic.
Definition to_peer_id (valid_key : list Z -> bool) (n : PublicKey) : Result PeerId :=
  if valid_key (inner n) then Ok (mkPeerId (inner n)) else Panic.

Inductive RegistryChange :=
  | ActorAdded (name : Name) (location : RemoteActorLocation) (priority : RegistrationPriority)
  | ActorRemoved (name : Name) (vector_clock : Clocks) (removing_node_id : PublicKey)
      (priority : RegistrationPriority).

Definition as_regular_gossip_change (c : RegistryChange) : RegistryChange :=
  match c with
  | ActorAdded name location _ => ActorAdded name location Normal
  | ActorRemoved name clock node _ => ActorRemoved name clock node Normal
  end.

(** ** Orders of the standard library *)
Fixpoint list_cmp {A} (cmp : A -> A -> comparison) (a b : list A) : comparison :=
  match a, b with
  | [], [] => Eq
  | [], _ :: _ => Lt
  | _ :: _, [] => Gt
  | x :: a', y :: b' => match cmp x y with Eq => list_cmp cmp a' b' | c => c end
  end.

Definition bytes_cmp : list Z -> list Z -> comparison := list_cmp Z.compare.
Definition node_cmp (a b : PublicKey) : comparison := bytes_cmp (inner a) (inner b).
Definition entry_cmp (a b : PublicKey * Z) : comparison :=
  match node_cmp a.1 b.1 with Eq => Z.compare a.2 b.2 | c => c end.

(** ** Who wins when neither account is causally later *)
Definition stable_concurrent_location_wins (candidate existing : RemoteActorLocation) : bool :=
  match Z.compare (l_wall_clock_time candidate) (l_wall_clock_time existing) with
  | Gt => true
  | Lt => false
  | Eq =>
  match node_cmp (l_node_id candidate) (l_node_id existing) with
  | Gt => true
  | Lt => false
  | Eq =>
  match bytes_cmp (l_address candidate) (l_address existing) with
  | Gt => true
  | Lt => false
  | Eq =>
  match bytes_cmp (l_metadata candidate) (l_metadata existing) with
  | Gt => true
  | Lt => false
  | Eq => l_local_registration_time existing <? l_local_registration_time candidate
  end end end end.

Definition stable_concurrent_removal_wins (removing_node_id : PublicKey) (removal_clock : Clocks)
    (existing : RemoteActorLocation) : bool :=
  match list_cmp entry_cmp (to_vec removal_clock) (to_vec (l_vector_clock existing)) with
  | Gt => true
  | Lt => false
  | Eq => match node_cmp removing_node_id (l_node_id existing) with Gt => true | _ => false end
  end.

(** ** Tombstones *)
Inductive TombstoneKind := PeerDeath | ExplicitUnregister | Unknown.

#[global] Instance TombstoneKind_eq_dec : EqDecision TombstoneKind.
Proof. solve_decision. Defined.

Record RemovedActorTombstone := mkTombstone {
  t_vector_clock : Clocks;
  t_removed_at : Z;
  t_kind : TombstoneKind;
  t_owner_node_id : option PublicKey;
}.

Definition tombstone_kind_for_removal (owner_node_id removing_node_id : PublicKey) : TombstoneKind :=
  if decide (owner_node_id = removing_node_id) then ExplicitUnregister else PeerDeath.

Definition merge_tombstone_kind (existing : option TombstoneKind) (new : TombstoneKind) : TombstoneKind :=
  match existing, new with
  | Some ExplicitUnregister, _ | _, ExplicitUnregister => ExplicitUnregister
  | Some PeerDeath, _ | _, PeerDeath => PeerDeath
  | _, _ => Unknown
  end.

Definition owner_recovery_wins_tombstone (location : RemoteActorLocation) (sender_peer_id : PeerId)
    (tombstone : RemovedActorTombstone) (owner_restart_authenticated : bool) : bool :=
  if negb (bool_decide (l_peer_id location = sender_peer_id)) then false
  else
    let owner_clock := get (l_vector_clock location) (l_node_id location) in
    let tombstone_owner_clock := get (t_vector_clock tombstone) (l_node_id location) in
    if tombstone_owner_clock <? owner_clock then true
    else if owner_clock =? tombstone_owner_clock then bool_decide (t_kind tombstone = PeerDeath)
    else owner_restart_authenticated && bool_decide (t_kind tombstone = PeerDeath).

(** ** The decisions of [current_actor_upsert_plan] and [current_actor_removal_plan]
    against a known location and against a tombstone *)
Definition upsert_wins (location existing : RemoteActorLocation) : bool :=
  match compare (l_vector_clock location) (l_vector_clock existing) with
  | After => true
  | Concurrent | Equal => stable_concurrent_location_wins location existing
  | Before => false
  end.

Definition passes_tombstone (location : RemoteActorLocation) (sender_peer_id : PeerId)
    (tombstone : RemovedActorTombstone) (owner_restart_authenticated : bool) : bool :=
  match compare (l_vector_clock location) (t_vector_clock tombstone) with
  | After => true
  | _ => owner_recovery_wins_tombstone location sender_peer_id tombstone owner_restart_authenticated
  end.

Definition removal_wins (removing_node_id : PublicKey) (clock : Clocks) (existing : RemoteActorLocation) : bool :=
  match compare clock (l_vector_clock existing) with
  | After => true
  | Concurrent => stable_concurrent_removal_wins removing_node_id clock existing
  | _ => false
  end.

(** The clock of a tombstone after a further removal; none if it is not news. *)
Definition tombstone_clock (clock : Clocks) (existing : option Clocks) : option Clocks :=
  match existing with
  | None => Some clock
  | Some old =>
      match compare clock old with
      | Before | Equal => None
      | After => Some clock
      | Concurrent => merge old clock
      end
  end.
