(* ===== verification/ActorDirectory.v ===== *)
(** * The actor directory of a registry

    [ActorState] and the parts of [GossipState] it is kept with
    (src/src/registry.rs): the actors a node hosts and knows of, the tombstones
    of removed ones, the admission accounts, the sessions of its peers, and the
    operations that change them. *)

From S2P Require Import Prelude Types Framing VectorClock ActorConflict.

(** ** What a registry is created with

    Its identity and limits, and the functions of other crates it calls: the
    text of an address and its parser, the length of a change encoded by rkyv,
    and which 32 bytes Ed25519 takes for a key. *)
Record Node := mkNode {
  self_peer_id : PeerId;
  max_message_size : Z;
  max_known_actors : Z;
  max_known_actors_per_peer : Z;
  actor_ttl : Z;
  vector_clock_retention_period : Z;
  parse_addr : list Z -> option SocketAddr;
  addr_to_string : SocketAddr -> list Z;
  encoded_len : Name -> RemoteActorLocation -> Result Z;
  valid_key : list Z -> bool;
}.

(** ** State *)
Record PeerInfo := mkPeerInfo {
  pi_node_id : option PublicKey;
  last_sequence : Z;
  accept_lower_sequence_from : option SocketAddr;
  current_session_source : option SocketAddr;
  current_session_connection : option Z;
  current_session_epoch : Z;
  session_restart_confirmed : bool;
}.

Record Admission := mkAdmission {
  admissions_by_peer : gmap PeerId (gset Name);
  admission_peer_by_name : gmap Name PeerId;
  compact_admission_bytes : Z;
  compact_charge_by_name : gmap Name Z;
}.

Record Directory := mkDirectory {
  local_actors : gmap Name RemoteActorLocation;
  known_actors : gmap Name RemoteActorLocation;
  removed_actors : gmap Name RemovedActorTombstone;
  routing_revision : Z;
  pubsub_routing_revision : Z;
  pending_changes : list RegistryChange;
  urgent_changes : list RegistryChange;
  peers : gmap SocketAddr PeerInfo;
  peer_to_actors : gmap SocketAddr (gset Name);
  admission : Admission;
  session_epoch_counter : Z;
  shutdown : bool;
}.

Definition admission_new : Admission := mkAdmission ∅ ∅ 0 ∅.

(** The epoch counter starts at 1: 0 stands for "no session was ever armed". *)
Definition directory_new : Directory := mkDirectory ∅ ∅ ∅ 0 0 [] [] ∅ ∅ admission_new 1 false.

Definition set_actors local known removed (d : Directory) : Directory :=
  mkDirectory local known removed (routing_revision d) (pubsub_routing_revision d) (pending_changes d)
    (urgent_changes d) (peers d) (peer_to_actors d) (admission d) (session_epoch_counter d) (shutdown d).
Definition set_local f (d : Directory) := set_actors (f (local_actors d)) (known_actors d) (removed_actors d) d.
Definition set_known f (d : Directory) := set_actors (local_actors d) (f (known_actors d)) (removed_actors d) d.
Definition set_removed f (d : Directory) := set_actors (local_actors d) (known_actors d) (f (removed_actors d)) d.

Definition set_gossip pending urgent peers peer_to_actors admission epochs (d : Directory) : Directory :=
  mkDirectory (local_actors d) (known_actors d) (removed_actors d) (routing_revision d)
    (pubsub_routing_revision d) pending urgent peers peer_to_actors admission epochs (shutdown d).
Definition set_admission f (d : Directory) :=
  set_gossip (pending_changes d) (urgent_changes d) (peers d) (peer_to_actors d) (f (admission d))
    (session_epoch_counter d) d.
Definition set_peer_to_actors f (d : Directory) :=
  set_gossip (pending_changes d) (urgent_changes d) (peers d) (f (peer_to_actors d)) (admission d)
    (session_epoch_counter d) d.
Definition set_peer (addr : SocketAddr) (info : PeerInfo) (epochs : Z) (d : Directory) :=
  set_gossip (pending_changes d) (urgent_changes d) (<[addr := info]> (peers d)) (peer_to_actors d)
    (admission d) epochs d.
Definition push_pending (c : RegistryChange) (d : Directory) :=
  set_gossip (pending_changes d ++ [c]) (urgent_changes d) (peers d) (peer_to_actors d) (admission d)
    (session_epoch_counter d) d.
Definition push_urgent (c : RegistryChange) (d : Directory) :=
  set_gossip (pending_changes d) (urgent_changes d ++ [c]) (peers d) (peer_to_actors d) (admission d)
    (session_epoch_counter d) d.

(** ** Routing revisions *)
Fixpoint strip_prefix (prefix name : list Z) : option (list Z) :=
  match prefix, name with
  | [], _ => Some name
  | x :: prefix, y :: name => if x =? y then strip_prefix prefix name else None
  | _ :: _, [] => None
  end.

(** The bytes of [icanact/pubsub/interest/v1]. *)
Definition INTEREST_PREFIX : list Z :=
  [105; 99; 97; 110; 97; 99; 116; 47; 112; 117; 98; 115; 117; 98; 47; 105; 110; 116; 101; 114; 101; 115; 116;
   47; 118; 49].

Definition is_interest_actor_name (name : Name) : bool :=
  match strip_prefix INTEREST_PREFIX name with
  | Some (x :: _) => x =? 47
  | _ => false
  end.

Definition mark_routing_changed_with_pubsub (pubsub_changed : bool) (d : Directory) : Directory :=
  mkDirectory (local_actors d) (known_actors d) (removed_actors d)
    (wrapping_add u64_max (routing_revision d) 1)
    (if pubsub_changed then wrapping_add u64_max (pubsub_routing_revision d) 1 else pubsub_routing_revision d)
    (pending_changes d) (urgent_changes d) (peers d) (peer_to_actors d) (admission d)
    (session_epoch_counter d) (shutdown d).

Definition mark_routing_changed_for_actor (name : Name) : Directory -> Directory :=
  mark_routing_changed_with_pubsub (is_interest_actor_name name).

(** ** Admission accounts *)
Definition actor_admission_count (a : Admission) (peer : PeerId) : Z :=
  Z.of_nat (size (default ∅ (admissions_by_peer a !! peer))).

(** Take a name from a peer's set; an empty set goes. *)
Definition forget_admission (peer : PeerId) (name : Name) (m : gmap PeerId (gset Name)) : gmap PeerId (gset Name) :=
  match m !! peer with
  | Some names =>
      let names := names ∖ {[name]} in
      if decide (names = ∅) then delete peer m else <[peer := names]> m
  | None => m
  end.

(** The sets once a name's previous peer, if another, has lost it. *)
Definition without_previous (peer : PeerId) (name : Name) (a : Admission) : gmap PeerId (gset Name) :=
  match admission_peer_by_name a !! name with
  | Some previous =>
      if decide (previous = peer) then admissions_by_peer a
      else forget_admission previous name (admissions_by_peer a)
  | None => admissions_by_peer a
  end.

Definition record_actor_admission (peer : PeerId) (name : Name) (a : Admission) : Admission :=
  let by_peer := without_previous peer name a in
  mkAdmission (<[peer := {[name]} ∪ default ∅ (by_peer !! peer)]> by_peer)
    (<[name := peer]> (admission_peer_by_name a)) (compact_admission_bytes a) (compact_charge_by_name a).

Definition release_compact_snapshot (name : Name) (a : Admission) : Admission :=
  match compact_charge_by_name a !! name with
  | Some charge =>
      mkAdmission (admissions_by_peer a) (admission_peer_by_name a)
        (saturating_sub (compact_admission_bytes a) charge) (delete name (compact_charge_by_name a))
  | None => a
  end.

Definition release_actor_admission (name : Name) (a : Admission) : Admission :=
  match admission_peer_by_name a !! name with
  | None => a
  | Some peer =>
      release_compact_snapshot name
        (mkAdmission (forget_admission peer name (admissions_by_peer a)) (delete name (admission_peer_by_name a))
           (compact_admission_bytes a) (compact_charge_by_name a))
  end.

Definition compact_record_charge (name : Name) (location : RemoteActorLocation) : Z :=
  saturating_add usize_max
    (saturating_add usize_max
       (saturating_add usize_max
          (saturating_add usize_max (len name) (len (l_address location)))
          (len (l_metadata location)))
       (saturating_mul usize_max (map_len (l_vector_clock location)) 48))
    64.

Definition try_charge_compact_snapshot (name : Name) (location : RemoteActorLocation) (max_message_size : Z)
    (a : Admission) : Result bool * Admission :=
  let charge := compact_record_charge name location in
  match compact_charge_by_name a !! name with
  | Some old =>
      (Ok false,
       if old =? charge then a
       else mkAdmission (admissions_by_peer a) (admission_peer_by_name a)
              (saturating_add usize_max (saturating_sub (compact_admission_bytes a) old) charge)
              (<[name := charge]> (compact_charge_by_name a)))
  | None =>
      let new_total := saturating_add usize_max (compact_admission_bytes a) charge in
      match reject_oversize_for_inline_send GOSSIP_HEADER_LEN new_total max_message_size with
      | Ok _ =>
          (Ok true, mkAdmission (admissions_by_peer a) (admission_peer_by_name a) new_total
                      (<[name := charge]> (compact_charge_by_name a)))
      | _ => (Err (MessageTooLarge new_total max_message_size), a)
      end
  end.

(** ** Advertised addresses *)
Definition is_unspecified (ip : IpAddr) : bool := match ip with IpV4 b | IpV6 b => b =? 0 end.
Definition is_multicast (ip : IpAddr) : bool :=
  match ip with
  | IpV4 b => Z.shiftr b 28 =? 14
  | IpV6 b => Z.shiftr b 120 =? 255
  end.
Definition is_loopback (ip : IpAddr) : bool :=
  match ip with
  | IpV4 b => Z.shiftr b 24 =? 127
  | IpV6 b => b =? 1
  end.
Definition is_link_local (ip : IpAddr) : bool :=
  match ip with
  | IpV4 b => Z.shiftr b 16 =? 43518
  | IpV6 b => Z.shiftr b 118 =? 1018
  end.

Definition addr_port (a : SocketAddr) : Z :=
  match a with SocketAddrV4 _ port | SocketAddrV6 _ port _ _ => port end.
Definition addr_new (ip : IpAddr) (port : Z) : SocketAddr :=
  match ip with IpV4 b => SocketAddrV4 b port | IpV6 b => SocketAddrV6 b port 0 0 end.

Definition advertised_ip_unusable (advertised_ip sender_ip : IpAddr) : bool :=
  if is_unspecified advertised_ip || is_multicast advertised_ip then true
  else if is_loopback advertised_ip && negb (is_loopback sender_ip) then true
  else is_link_local advertised_ip && negb (is_link_local sender_ip).

Definition resolve_remote_actor_addr (actor_addr sender_addr : SocketAddr) (owner_is_sender : bool) : SocketAddr :=
  if negb owner_is_sender || negb (advertised_ip_unusable (addr_ip actor_addr) (addr_ip sender_addr))
  then actor_addr
  else addr_new (addr_ip sender_addr) (addr_port actor_addr).

Definition resolve_owned_actor_addr (actor_addr repair_addr : SocketAddr) : SocketAddr :=
  addr_new (addr_ip repair_addr) (addr_port actor_addr).

Definition learnable_dial_route (addr sender_addr : SocketAddr) : bool :=
  negb (addr_port addr =? 0) && negb (advertised_ip_unusable (addr_ip addr) (addr_ip sender_addr)).

Definition with_address (address : list Z) (l : RemoteActorLocation) : RemoteActorLocation :=
  mkLocation address (l_peer_id l) (l_node_id l) (l_vector_clock l) (l_wall_clock_time l) (l_priority l)
    (l_local_registration_time l) (l_metadata l).
Definition with_clock (clock : Clocks) (l : RemoteActorLocation) : RemoteActorLocation :=
  mkLocation (l_address l) (l_peer_id l) (l_node_id l) clock (l_wall_clock_time l) (l_priority l)
    (l_local_registration_time l) (l_metadata l).

(** A clock after one committed update of its cell. *)
Definition incremented (n : PublicKey) (c : Clocks) : Clocks := default c (increment n c).
Definition merged (other c : Clocks) : Clocks := default c (merge other c).

Section Directory.
Context (node : Node).
#[local] Abbreviation self_node_id := (node_of (self_peer_id node)).

Definition canonical_wire_addr (address : list Z) : SocketAddr :=
  default (SocketAddrV4 0 0) (parse_addr node address).

Definition gossip_payload_fits (payload_len max_message_size : Z) : bool :=
  match reject_oversize_for_inline_send GOSSIP_HEADER_LEN payload_len max_message_size with
  | Ok _ => true
  | _ => false
  end.

Definition ensure_solo_change_fits (name : Name) (location : RemoteActorLocation) : Result unit :=
  n ← encoded_len node name location;
  if gossip_payload_fits n (max_message_size node) then Ok tt
  else reject_oversize_for_inline_send GOSSIP_HEADER_LEN n (max_message_size node).

(** ** Plans *)
Definition current_actor_upsert_plan (name : Name) (location : RemoteActorLocation) (sender_peer_id : PeerId)
    (owner_restart_authenticated : bool) (d : Directory) : option (bool * bool) :=
  if decide (l_peer_id location = self_peer_id node) then None
  else if decide (is_Some (local_actors d !! name)) then None
  else
    let plan clear_tombstone :=
      match known_actors d !! name with
      | Some existing => if upsert_wins location existing then Some (clear_tombstone, true) else None
      | None => Some (clear_tombstone, false)
      end in
    match removed_actors d !! name with
    | Some tombstone =>
        if passes_tombstone location sender_peer_id tombstone owner_restart_authenticated then plan true else None
    | None => plan false
    end.

Definition current_actor_removal_plan (name : Name) (vector_clock : Clocks) (removing_node_id : PublicKey)
    (d : Directory) : option (Clocks * bool) :=
  if decide (is_Some (local_actors d !! name)) then None
  else match known_actors d !! name with
  | Some existing => if removal_wins removing_node_id vector_clock existing then Some (vector_clock, false) else None
  | None =>
      clock ← tombstone_clock vector_clock (t_vector_clock <$> removed_actors d !! name);
      Some (clock, true)
  end.

(** ** Local actors *)
Definition enqueue_change (priority : RegistrationPriority) (change : RegistryChange) (d : Directory) : Directory :=
  if should_trigger_immediate_gossip priority
  then push_pending (as_regular_gossip_change change) (push_urgent change d)
  else push_pending change d.

(** Drop a known actor; the revision moves and its admission is released. *)
Definition drop_known (name : Name) (d : Directory) : Directory :=
  set_admission (release_actor_admission name)
    (mark_routing_changed_for_actor name (set_known (delete name) d)).

Definition register_actor_with_priority (name : Name) (location : RemoteActorLocation)
    (priority : RegistrationPriority) (now : Z) (d : Directory) : Result unit * Directory :=
  if shutdown d then (Err Shutdown, d)
  else
    let location := mkLocation (l_address location) (l_peer_id location) (l_node_id location)
      (l_vector_clock location) now priority (l_local_registration_time location) (l_metadata location) in
    let d :=
      match known_actors d !! name with
      | Some loc =>
          if decide (l_node_id loc = self_node_id \/ l_address loc = l_address location)
          then drop_known name d else d
      | None => d
      end in
    if decide (is_Some (local_actors d !! name) \/ is_Some (known_actors d !! name))
    then (Err ActorAlreadyExists, d)
    else
      let clock :=
        match removed_actors d !! name with
        | Some tombstone => merged (t_vector_clock tombstone) (l_vector_clock location)
        | None => l_vector_clock location
        end in
      let location := with_clock (incremented (l_node_id location) clock) location in
      match ensure_solo_change_fits name location with
      | Ok _ =>
          match try_charge_compact_snapshot name location (max_message_size node) (admission d) with
          | (Ok _, a) =>
              let d := set_admission (fun _ => a) d in
              let d := mark_routing_changed_for_actor name (set_local <[name := location]> d) in
              let d := set_removed (delete name) d in
              (Ok tt, enqueue_change priority (ActorAdded name location priority) d)
          | (Err e, _) => (Err e, d)
          | (Panic, _) => (Panic, d)
          end
      | Err e => (Err e, d)
      | Panic => (Panic, d)
      end.

Definition register_actor_replacing_known (name : Name) (location : RemoteActorLocation) (now : Z) (d : Directory)
    : Result unit * Directory :=
  match known_actors d !! name with
  | Some known =>
      register_actor_with_priority name
        (with_clock (merged (l_vector_clock known) (l_vector_clock location)) location) Normal now
        (drop_known name d)
  | None => register_actor_with_priority name location Normal now d
  end.

Definition unregister_actor (name : Name) (now : Z) (d : Directory)
    : Result (option RemoteActorLocation) * Directory :=
  if shutdown d then (Err Shutdown, d)
  else
    let removed := local_actors d !! name in
    let d :=
      match removed with
      | Some _ => mark_routing_changed_for_actor name (set_local (delete name) d)
      | None => d
      end in
    let d :=
      match known_actors d !! name with
      | Some loc => if decide (l_node_id loc = self_node_id) then drop_known name d else d
      | None => d
      end in
    match removed with
    | None => (Ok None, d)
    | Some location =>
        let d := set_admission (release_compact_snapshot name) d in
        let removal_clock := incremented self_node_id (l_vector_clock location) in
        let d := set_removed
          <[name := mkTombstone removal_clock now ExplicitUnregister (Some self_node_id)]> d in
        (Ok (Some location),
         enqueue_change (l_priority location)
           (ActorRemoved name removal_clock self_node_id (l_priority location)) d)
    end.

(** [owner_connected]: the pool has a live connection to the actor's peer. *)
Definition lookup_actor (name : Name) (now : Z) (owner_connected : RemoteActorLocation -> bool) (d : Directory)
    : option RemoteActorLocation :=
  match local_actors d !! name with
  | Some location => Some location
  | None =>
      match known_actors d !! name with
      | Some location =>
          if (saturating_sub now (l_wall_clock_time location) <? actor_ttl node) || owner_connected location
          then Some location else None
      | None => None
      end
  end.

(** ** Sessions of peers *)

(** What the pool publishes for a peer: the instance of its current
    connection with its session source, and which instances are still alive. *)
Record PoolView := mkPoolView {
  pool_current : option (Z * SocketAddr);
  pool_alive : Z -> bool;
}.

Definition session_epoch_still_current (d : Directory) (peer_addr : SocketAddr) (expected_epoch : Z) : bool :=
  match peers d !! peer_addr with
  | Some info => current_session_epoch info =? expected_epoch
  | None => false
  end.

Definition arm_sequence_reset_for_new_session (peer_addr : SocketAddr) (node_id : PublicKey)
    (session_source : SocketAddr) (view : PoolView) (connection_instance : Z) (d : Directory) : Directory :=
  match peers d !! peer_addr with
  | Some info =>
      if negb (bool_decide (pi_node_id info = Some node_id)) then d
      else
        let superseded :=
          match pool_current view with
          | Some (current, _) => negb (current =? connection_instance)
          | None => false
          end in
        if superseded then d
        else set_peer peer_addr
               (mkPeerInfo (pi_node_id info) (last_sequence info) (Some session_source) (Some session_source)
                  (Some connection_instance) (session_epoch_counter d) false)
               (wrapping_add u64_max (session_epoch_counter d) 1) d
  | None => d
  end.

(** The verdict, and the entry with the next epoch when the session healed. *)
Definition peer_info_is_from_current_session (view : PoolView) (session_source : option SocketAddr)
    (info : PeerInfo) (epochs : Z) : bool * PeerInfo * Z :=
  match current_session_source info with
  | None => (true, info, epochs)
  | Some armed_source =>
      let pool_shows_different_connection :=
        match pool_current view with
        | None => false
        | Some (current, _) =>
            negb (match current_session_connection info with
                  | Some armed => pool_alive view armed && (armed =? current)
                  | None => false
                  end)
        end in
      let from_armed_source := bool_decide (session_source = Some armed_source) in
      if negb pool_shows_different_connection then (from_armed_source, info, epochs)
      else if from_armed_source then (false, info, epochs)
      else
        let from_current_published_successor :=
          match pool_current view with
          | Some (_, source) => bool_decide (session_source = Some source)
          | None => false
          end in
        if negb from_current_published_successor then (false, info, epochs)
        else (true,
              mkPeerInfo (pi_node_id info) (last_sequence info) None None None epochs false,
              wrapping_add u64_max epochs 1)
  end.

(** ** Deltas *)
Record RegistryDelta := mkDelta { changes : list RegistryChange; sender_peer_id : PeerId }.

(** What a delta did besides: names applied at immediate priority and in all,
    and the changes refused for want of room. *)
Record DeltaLog := mkDeltaLog {
  applied_immediate : list Name;
  names_changed : list Name;
  sender_actors : gset Name;
  rejected_by_peer_cap : Z;
  rejected_by_global_cap : Z;
  rejected_oversize : Z;
}.

Definition resolve_location (owned : bool) (repair_addr : option SocketAddr) (sender : PeerId)
    (location : RemoteActorLocation) : SocketAddr * RemoteActorLocation :=
  let owner_is_sender := bool_decide (l_peer_id location = sender) in
  let wire_addr := canonical_wire_addr (l_address location) in
  let resolved :=
    match repair_addr with
    | Some repair_addr =>
        if owned && owner_is_sender then resolve_owned_actor_addr wire_addr repair_addr
        else resolve_remote_actor_addr wire_addr repair_addr owner_is_sender
    | None => wire_addr
    end in
  (resolved, with_address (addr_to_string node resolved) location).

Definition delta_add (sender : PeerId) (repair_addr : option SocketAddr) (restarted : bool) (name : Name)
    (location : RemoteActorLocation) (priority : RegistrationPriority) (acc : DeltaLog * Directory)
    : DeltaLog * Directory :=
  let '(log, d) := acc in
  let location := (resolve_location false repair_addr sender location).2 in
  match current_actor_upsert_plan name location sender restarted d with
  | None => (log, d)
  | Some (clear_tombstone, is_update) =>
      let a := admission d in
      if negb (bool_decide (admission_peer_by_name a !! name = Some sender))
         && (max_known_actors_per_peer node <=? actor_admission_count a sender)
      then (mkDeltaLog (applied_immediate log) (names_changed log) (sender_actors log)
              (rejected_by_peer_cap log + 1) (rejected_by_global_cap log) (rejected_oversize log), d)
      else if negb is_update && (max_known_actors node <=? map_len (known_actors d))
      then (mkDeltaLog (applied_immediate log) (names_changed log) (sender_actors log)
              (rejected_by_peer_cap log) (rejected_by_global_cap log + 1) (rejected_oversize log), d)
      else
        let oversize :=
          (mkDeltaLog (applied_immediate log) (names_changed log) (sender_actors log)
             (rejected_by_peer_cap log) (rejected_by_global_cap log) (rejected_oversize log + 1), d) in
        match ensure_solo_change_fits name location with
        | Ok _ =>
            match try_charge_compact_snapshot name location (max_message_size node) a with
            | (Ok _, a) =>
                let d := set_admission (fun _ => a) d in
                let d := if clear_tombstone then set_removed (delete name) d else d in
                let d := set_known <[name := location]> d in
                let d := set_admission (record_actor_admission sender name) d in
                (mkDeltaLog
                   (if should_trigger_immediate_gossip priority then applied_immediate log ++ [name]
                    else applied_immediate log)
                   (names_changed log ++ [name]) ({[name]} ∪ sender_actors log)
                   (rejected_by_peer_cap log) (rejected_by_global_cap log) (rejected_oversize log), d)
            | _ => oversize
            end
        | _ => oversize
        end
  end.

(** The kind and owner of the tombstone a removal leaves. *)
Definition removal_tombstone (name : Name) (removing_node_id : PublicKey) (d : Directory)
    : TombstoneKind * option PublicKey :=
  let owner_node_id := l_node_id <$> known_actors d !! name in
  let existing_kind := t_kind <$> removed_actors d !! name in
  let existing_owner_node_id := removed_actors d !! name ≫= t_owner_node_id in
  let kind :=
    match owner_node_id with
    | Some owner => merge_tombstone_kind existing_kind (tombstone_kind_for_removal owner removing_node_id)
    | None =>
        let inferred_kind :=
          match existing_owner_node_id with
          | Some owner =>
              if decide (owner = removing_node_id) then ExplicitUnregister else default Unknown existing_kind
          | None => default Unknown existing_kind
          end in
        merge_tombstone_kind existing_kind inferred_kind
    end in
  let tombstone_owner_node_id :=
    match owner_node_id, existing_owner_node_id, kind with
    | Some owner, _, _ => Some owner
    | None, Some owner, _ => Some owner
    | None, None, ExplicitUnregister => Some removing_node_id
    | None, None, _ => None
    end in
  (kind, tombstone_owner_node_id).

Definition delta_remove (now : Z) (name : Name) (vector_clock : Clocks) (removing_node_id : PublicKey)
    (priority : RegistrationPriority) (acc : DeltaLog * Directory) : DeltaLog * Directory :=
  let '(log, d) := acc in
  let '(kind, owner) := removal_tombstone name removing_node_id d in
  match current_actor_removal_plan name vector_clock removing_node_id d with
  | None => (log, d)
  | Some (removal_clock, tombstone_only) =>
      let forwarded := as_regular_gossip_change (ActorRemoved name removal_clock removing_node_id priority) in
      let tombstone := mkTombstone removal_clock now kind owner in
      if tombstone_only then (log, push_pending forwarded (set_removed <[name := tombstone]> d))
      else match known_actors d !! name with
      | None => (log, d)
      | Some _ =>
          let d := set_known (delete name) d in
          let d := set_admission (release_actor_admission name) d in
          let d := set_removed <[name := tombstone]> d in
          (mkDeltaLog (applied_immediate log) (names_changed log ++ [name]) (sender_actors log ∖ {[name]})
             (rejected_by_peer_cap log) (rejected_by_global_cap log) (rejected_oversize log),
           push_pending forwarded d)
      end
  end.

Definition delta_change (sender : PeerId) (repair_addr : option SocketAddr) (restarted : bool) (now : Z)
    (acc : DeltaLog * Directory) (change : RegistryChange) : DeltaLog * Directory :=
  match change with
  | ActorAdded name location priority => delta_add sender repair_addr restarted name location priority acc
  | ActorRemoved name clock removing priority => delta_remove now name clock removing priority acc
  end.

Definition log_new (sender_actors : gset Name) : DeltaLog := mkDeltaLog [] [] sender_actors 0 0 0.

(** [bookkeeping_addr]: the pool's configured address of the sender. *)
Definition apply_delta_from (delta : RegistryDelta) (bookkeeping_addr verified_sender_addr : option SocketAddr)
    (session_guard : option (SocketAddr * Z)) (now : Z) (d : Directory) : DeltaLog * Directory :=
  let sender := sender_peer_id delta in
  let repair_addr := match verified_sender_addr with Some a => Some a | None => bookkeeping_addr end in
  let stale :=
    match session_guard with
    | Some (addr, epoch) => negb (session_epoch_still_current d addr epoch)
    | None => false
    end in
  if stale then (log_new ∅, d)
  else
    let restarted :=
      match session_guard with
      | Some (addr, _) => match peers d !! addr with Some info => session_restart_confirmed info | None => false end
      | None => false
      end in
    let tracked := default ∅ (bookkeeping_addr ≫= fun addr => peer_to_actors d !! addr) in
    let '(log, d) := foldl (delta_change sender repair_addr restarted now) (log_new tracked, d) (changes delta) in
    let d :=
      match bookkeeping_addr with
      | Some addr => set_peer_to_actors <[addr := sender_actors log]> d
      | None => d
      end in
    (log, match names_changed log with
          | [] => d
          | names => mark_routing_changed_with_pubsub (existsb is_interest_actor_name names) d
          end).

(** ** Full syncs

    [ownership] is the committed address claim the message came with, if any,
    and whether it is still current and admitted (src/src/registry_owner.rs and
    the watermarks of [GossipState]). *)
Definition commit_refused (ownership : option bool) : bool :=
  match ownership with Some admitted => negb admitted | None => false end.

Inductive SyncGate :=
  | GateRefused
  | GateReplay
  | GateOpen (captured_epoch : option Z) (restarted : bool).

(** The first critical section: session and sequence. *)
Definition full_sync_gate (ownership : option bool) (sender_addr : SocketAddr) (session_source : option SocketAddr)
    (sequence : Z) (view : PoolView) (d : Directory) : SyncGate * Directory :=
  if commit_refused ownership then (GateRefused, d)
  else match peers d !! sender_addr with
  | None => (GateOpen None false, d)
  | Some info =>
      let '(from_current_session, info, epochs) :=
        peer_info_is_from_current_session view session_source info (session_epoch_counter d) in
      if negb from_current_session then (GateRefused, set_peer sender_addr info epochs d)
      else if sequence <? last_sequence info then
        let armed_for_this_connection :=
          match accept_lower_sequence_from info, session_source with
          | Some armed, Some verified => bool_decide (armed = verified)
          | _, _ => false
          end in
        if negb armed_for_this_connection then (GateReplay, set_peer sender_addr info epochs d)
        else
          let info := mkPeerInfo (pi_node_id info) sequence None (current_session_source info)
                        (current_session_connection info) (current_session_epoch info) true in
          (GateOpen (Some (current_session_epoch info)) true, set_peer sender_addr info epochs d)
      else
        let info := mkPeerInfo (pi_node_id info) (Z.max (last_sequence info) sequence) None
                      (current_session_source info) (current_session_connection info)
                      (current_session_epoch info) (session_restart_confirmed info) in
        (GateOpen (Some (current_session_epoch info)) (session_restart_confirmed info),
         set_peer sender_addr info epochs d)
  end.

(** A candidate: its name, its resolved location, and the address when it was
    reported by the owner itself. *)
Definition sync_candidates (owned : bool) (repair_addr : SocketAddr) (sender : PeerId)
    (actors : gmap Name RemoteActorLocation) : list (Name * RemoteActorLocation * option SocketAddr) :=
  omap (fun '(name, location) =>
    if decide (l_peer_id location = self_peer_id node) then None
    else
      let '(resolved, location) := resolve_location owned (Some repair_addr) sender location in
      Some (name, location, if decide (l_peer_id location = sender) then Some resolved else None))
    (map_to_list actors).

Definition updates_to_apply (owned : bool) (repair_addr : SocketAddr) (sender : PeerId)
    (remote_local remote_known : gmap Name RemoteActorLocation)
    : list (Name * RemoteActorLocation * option SocketAddr) :=
  sort_by (fun a b => bytes_le a.1.1 b.1.1)
    (sync_candidates owned repair_addr sender remote_local ++ sync_candidates owned repair_addr sender remote_known).

Record SyncLog := mkSyncLog {
  peer_actors : gset Name;
  routes_to_configure : list (PeerId * SocketAddr);
  actors_changed : bool;
  pubsub_actors_changed : bool;
}.

Definition sync_update (sender : PeerId) (repair_addr : SocketAddr) (restarted : bool)
    (acc : SyncLog * Directory) (update : Name * RemoteActorLocation * option SocketAddr) : SyncLog * Directory :=
  let '(log, d) := acc in
  let '(name, location, addr) := update in
  let a := admission d in
  let known_exists := bool_decide (is_Some (known_actors d !! name)) in
  let listed :=
    (if known_exists
     then mkSyncLog ({[name]} ∪ peer_actors log) (routes_to_configure log) (actors_changed log)
            (pubsub_actors_changed log)
     else log, d) in
  if negb (bool_decide (admission_peer_by_name a !! name = Some sender))
     && (max_known_actors_per_peer node <=? actor_admission_count a sender) then (log, d)
  else if negb known_exists && (max_known_actors node <=? map_len (known_actors d)) then (log, d)
  else match current_actor_upsert_plan name location sender restarted d with
  | None => listed
  | Some (clear_tombstone, is_update) =>
      match ensure_solo_change_fits name location with
      | Ok _ =>
          match try_charge_compact_snapshot name location (max_message_size node) a with
          | (Ok _, a) =>
              let d := set_admission (fun _ => a) d in
              let d := if clear_tombstone then set_removed (delete name) d else d in
              let d := set_known <[name := location]> d in
              let d := set_admission (record_actor_admission sender name) d in
              let route :=
                match addr with
                | Some addr => if learnable_dial_route addr repair_addr then [(l_peer_id location, addr)] else []
                | None => []
                end in
              (mkSyncLog ({[name]} ∪ peer_actors log) (routes_to_configure log ++ route) true
                 (pubsub_actors_changed log || is_interest_actor_name name), d)
          | _ => listed
          end
      | _ => listed
      end
  end.

(** An actor the sender no longer lists goes if it is still the sender's. *)
Definition prune_omitted (sender : PeerId) (acc : SyncLog * Directory) (name : Name) : SyncLog * Directory :=
  let '(log, d) := acc in
  if decide (is_Some (local_actors d !! name)) then (log, d)
  else match known_actors d !! name with
  | Some existing =>
      if decide (l_peer_id existing = sender)
      then (mkSyncLog (peer_actors log) (routes_to_configure log) (actors_changed log)
              (pubsub_actors_changed log || is_interest_actor_name name),
            set_admission (release_actor_admission name) (set_known (delete name) d))
      else (log, d)
  | None => (log, d)
  end.

(** The second critical section.  The first component is whether the message
    was of the current session. *)
Definition full_sync_apply (ownership : option bool) (remote_local remote_known : gmap Name RemoteActorLocation)
    (sender : PeerId) (sender_addr : SocketAddr) (verified_sender_addr : option SocketAddr)
    (captured_epoch : option Z) (restarted : bool) (d : Directory) : bool * SyncLog * Directory :=
  let repair_addr := default sender_addr verified_sender_addr in
  let updates := updates_to_apply (bool_decide (is_Some ownership)) repair_addr sender remote_local remote_known in
  let log := mkSyncLog ∅ [] false false in
  if commit_refused ownership then (false, log, d)
  else
    let stale :=
      match captured_epoch with
      | Some epoch => negb (session_epoch_still_current d sender_addr epoch)
      | None => false
      end in
    if stale then (true, log, d)
    else
      let '(log, d) := foldl (sync_update sender repair_addr restarted) (log, d) updates in
      let removed_now := default ∅ (peer_to_actors d !! sender_addr) ∖ peer_actors log in
      let d := set_peer_to_actors <[sender_addr := peer_actors log]> d in
      let '(log, d) := foldl (prune_omitted sender) (log, d) (elements removed_now) in
      (true, log,
       if actors_changed log || pubsub_actors_changed log
       then mark_routing_changed_with_pubsub (pubsub_actors_changed log) d else d).

(** Both sections with nothing in between. *)
Definition merge_full_sync_from_guarded (ownership : option bool)
    (remote_local remote_known : gmap Name RemoteActorLocation) (sender : PeerId) (sender_addr : SocketAddr)
    (verified_sender_addr session_source : option SocketAddr) (sequence : Z) (view : PoolView) (d : Directory)
    : bool * SyncLog * Directory :=
  let session_source := match session_source with Some s => Some s | None => verified_sender_addr end in
  match full_sync_gate ownership sender_addr session_source sequence view d with
  | (GateRefused, d) => (false, mkSyncLog ∅ [] false false, d)
  | (GateReplay, d) => (true, mkSyncLog ∅ [] false false, d)
  | (GateOpen epoch restarted, d) =>
      full_sync_apply ownership remote_local remote_known sender sender_addr verified_sender_addr epoch restarted d
  end.

(** ** Expiry and dead peers *)

(** [PartialEq] of locations; clocks compare by [clock_eq]. *)
Definition location_eq (a b : RemoteActorLocation) : bool :=
  bool_decide (l_address a = l_address b) && bool_decide (l_peer_id a = l_peer_id b)
  && bool_decide (l_node_id a = l_node_id b) && clock_eq (l_vector_clock a) (l_vector_clock b)
  && (l_wall_clock_time a =? l_wall_clock_time b)
  && Bool.eqb (should_trigger_immediate_gossip (l_priority a)) (should_trigger_immediate_gossip (l_priority b))
  && (l_local_registration_time a =? l_local_registration_time b) && bool_decide (l_metadata a = l_metadata b).

Definition actor_stale (now : Z) (owner_connected : RemoteActorLocation -> bool) (l : RemoteActorLocation) : bool :=
  (actor_ttl node <=? saturating_sub now (l_wall_clock_time l)) && negb (owner_connected l).

(** The candidates are scanned first; each is checked again when it goes. *)
Definition expire_actor (now : Z) (owner_connected : RemoteActorLocation -> bool) (d : Directory)
    (candidate : Name * RemoteActorLocation) : Directory :=
  match known_actors d !! candidate.1 with
  | Some current =>
      if location_eq current candidate.2 && actor_stale now owner_connected current
      then set_admission (release_actor_admission candidate.1) (set_known (delete candidate.1) d)
      else d
  | None => d
  end.

Definition cleanup_stale_actors (now : Z) (owner_connected : RemoteActorLocation -> bool) (d : Directory)
    : Directory :=
  let to_remove := filter (fun '(_, l) => actor_stale now owner_connected l = true) (map_to_list (known_actors d)) in
  let d := foldl (expire_actor now owner_connected) d to_remove in
  set_removed
    (filter (fun '(_, t) => saturating_sub now (t_removed_at t) < vector_clock_retention_period node)) d.

Definition actor_location_belongs_to_peer (location : RemoteActorLocation) (peer_addr : SocketAddr)
    (peer_info : option PeerInfo) : Result bool :=
  match peer_info ≫= pi_node_id with
  | Some node_id =>
      if decide (l_node_id location = node_id) then Ok true
      else n ← to_node_id (valid_key node) (l_peer_id location); Ok (bool_decide (n = node_id))
  | None => Ok (bool_decide (parse_addr node (l_address location) = Some peer_addr))
  end.

Definition reap_actor (peer_addr : SocketAddr) (peer_info : option PeerInfo) (now : Z) (d : Directory) (name : Name)
    : Result Directory :=
  match known_actors d !! name with
  | None => Ok d
  | Some location =>
      belongs ← actor_location_belongs_to_peer location peer_addr peer_info;
      if negb belongs then Ok d
      else
        let d := set_admission (release_actor_admission name) (set_known (delete name) d) in
        let removal_clock := incremented self_node_id (l_vector_clock location) in
        let d := set_removed
          <[name := mkTombstone removal_clock now PeerDeath (Some (l_node_id location))]> d in
        Ok (enqueue_change (l_priority location)
              (ActorRemoved name removal_clock self_node_id (l_priority location)) d)
  end.

Fixpoint reap_actors (peer_addr : SocketAddr) (peer_info : option PeerInfo) (now : Z) (names : list Name)
    (d : Directory) : Result Directory :=
  match names with
  | [] => Ok d
  | name :: names =>
      d ← reap_actor peer_addr peer_info now d name;
      reap_actors peer_addr peer_info now names d
  end.

(** The actors of one reserved candidate ([reap_reserved_candidates]). *)
Definition reap_peer_actors (peer_addr : SocketAddr) (now : Z) (d : Directory) : Result Directory :=
  match peer_to_actors d !! peer_addr with
  | None => Ok d
  | Some names =>
      d ← reap_actors peer_addr (peers d !! peer_addr) now (elements names) d;
      Ok (set_peer_to_actors (delete peer_addr) d)
  end.

(** ** Addresses that change hands and evicted peers *)

(** The actors a displaced identity had routed through the address: all lose
    their admission, and those still located there leave the directory.  The
    locations are compared before any of them goes. *)
Definition displaced_location (peer_addr : SocketAddr) (old_node_id : PublicKey)
    (old_connection_addr : option SocketAddr) (location : RemoteActorLocation) : Result bool :=
  same ← (if decide (l_node_id location = old_node_id) then Ok true
          else n ← to_node_id (valid_key node) (l_peer_id location); Ok (bool_decide (n = old_node_id)));
  Ok (same && match parse_addr node (l_address location) with
              | Some addr => bool_decide (addr = peer_addr) || bool_decide (Some addr = old_connection_addr)
              | None => false
              end).

Fixpoint displace_actors (peer_addr : SocketAddr) (old_node_id : PublicKey) (old_connection_addr : option SocketAddr)
    (names : list Name) (d : Directory) : Result Directory :=
  match names with
  | [] => Ok d
  | name :: names =>
      match known_actors d !! name with
      | None => displace_actors peer_addr old_node_id old_connection_addr names d
      | Some location =>
          displaced ← displaced_location peer_addr old_node_id old_connection_addr location;
          displace_actors peer_addr old_node_id old_connection_addr names
            (if (displaced : bool) then set_known (delete name) d else d)
      end
  end.

Definition rekey_address (peer_addr : SocketAddr) (new_node_id : PublicKey) (old_connection_addr : option SocketAddr)
    (d : Directory) : Result Directory :=
  match peers d !! peer_addr with
  | None => Ok d
  | Some info =>
      let names := elements (default ∅ (peer_to_actors d !! peer_addr)) in
      let d := set_peer peer_addr
        (mkPeerInfo (Some new_node_id) 0 None None None (session_epoch_counter d) false)
        (wrapping_add u64_max (session_epoch_counter d) 1) d in
      let d := set_peer_to_actors (delete peer_addr) d in
      let d := set_admission (fun a => foldl (fun a name => release_actor_admission name a) a names) d in
      match pi_node_id info with
      | Some old_node_id => displace_actors peer_addr old_node_id old_connection_addr names d
      | None => Ok d
      end
  end.

Definition evict_actor (peer : option PeerId) (d : Directory) (name : Name) : Directory :=
  match peer with
  | None => d
  | Some peer =>
      let removed := bool_decide (l_peer_id <$> known_actors d !! name = Some peer) in
      let admitted_by_evicted := bool_decide (admission_peer_by_name (admission d) !! name = Some peer) in
      let d := if removed then set_known (delete name) d else d in
      if removed || admitted_by_evicted then set_admission (release_actor_admission name) d else d
  end.

Definition evict_peer (addr : SocketAddr) (d : Directory) : Result Directory :=
  let node_id := peers d !! addr ≫= pi_node_id in
  peer ← (match node_id with Some n => p ← to_peer_id (valid_key node) n; Ok (Some p) | None => Ok None end);
  let names := elements (default ∅ (peer_to_actors d !! addr)) in
  let d := set_gossip (pending_changes d) (urgent_changes d) (delete addr (peers d)) (delete addr (peer_to_actors d))
             (admission d) (session_epoch_counter d) d in
  Ok (foldl (evict_actor peer) d names).
End Directory.
