(* ===== verification/ActorAdmission.v ===== *)
(** * The admission accounts of the actor directory are exact

    Which peer answers for a name, which names a peer answers for, and the
    bytes charged for the records a full sync has to carry. *)

From S2P Require Import Prelude Types Framing VectorClock ActorConflict ActorDirectory.

(** The smallest and the largest charge of one record under a message limit. *)
Definition RECORD_CHARGE_MIN : Z := 64.
Definition record_charge_max (max_message_size : Z) : Z := 64 + 2 * max_message_size.

Record admission_ok (limit per_peer : Z) (a : Admission) : Prop := {
  ad_inverse : forall p n, n ∈ default ∅ (admissions_by_peer a !! p) <-> admission_peer_by_name a !! n = Some p;
  ad_nonempty : forall p, admissions_by_peer a !! p <> Some ∅;
  ad_per_peer : forall p, actor_admission_count a p <= per_peer;
  ad_bytes : compact_admission_bytes a = map_sum id (compact_charge_by_name a);
  ad_charge : forall n c, compact_charge_by_name a !! n = Some c -> RECORD_CHARGE_MIN <= c <= record_charge_max limit;
  ad_room : RECORD_CHARGE_MIN * map_len (compact_charge_by_name a) <= limit;
}.

(** ** Who answers for a name *)
Lemma forget_lookup p q n m m' :
  n ∈ default ∅ (forget_admission p m m' !! q) <-> n ∈ default ∅ (m' !! q) /\ ~ (p = q /\ n = m).
Proof.
  unfold forget_admission. destruct (m' !! p) as [names|] eqn:E.
  - destruct (decide (names ∖ {[m]} = ∅)) as [He|He]; destruct (decide (p = q)) as [<-|Hq].
    + rewrite lookup_delete_eq, E. cbn. set_solver.
    + rewrite lookup_delete_ne by done. tauto.
    + rewrite lookup_insert_eq, E. cbn. set_solver.
    + rewrite lookup_insert_ne by done. tauto.
  - split; [|tauto]. intros H. split; [done|]. intros [<- _]. rewrite E in H. set_solver.
Qed.

Lemma forget_nonempty p m m' :
  (forall q, m' !! q <> Some ∅) -> forall q, forget_admission p m m' !! q <> Some (∅ : gset Name).
Proof.
  intros H q. unfold forget_admission. destruct (m' !! p) as [names|] eqn:E; [|apply H].
  destruct (decide (names ∖ {[m]} = ∅)); destruct (decide (p = q)) as [<-|Hq];
    rewrite ?lookup_delete_eq, ?lookup_insert_eq, ?lookup_delete_ne, ?lookup_insert_ne by done; try done; try apply H.
  congruence.
Qed.

Lemma count_le (m m' : gmap PeerId (gset Name)) p :
  (forall n, n ∈ default ∅ (m !! p) -> n ∈ default ∅ (m' !! p)) ->
  Z.of_nat (size (default ∅ (m !! p))) <= Z.of_nat (size (default ∅ (m' !! p))).
Proof. intros H. apply Nat2Z.inj_le, subseteq_size. set_solver. Qed.

Lemma release_compact_lookup name n a :
  compact_charge_by_name (release_compact_snapshot name a) !! n
  = if decide (n = name) then None else compact_charge_by_name a !! n.
Proof.
  unfold release_compact_snapshot. destruct (compact_charge_by_name a !! name) as [c|] eqn:E; cbn;
    destruct (decide (n = name)) as [->|Hn]; rewrite ?lookup_delete_eq, ?lookup_delete_ne by done; done.
Qed.

Lemma release_admission_lookup name n a :
  admission_peer_by_name (release_actor_admission name a) !! n
  = if decide (n = name) then None else admission_peer_by_name a !! n.
Proof.
  unfold release_actor_admission. destruct (admission_peer_by_name a !! name) as [p|] eqn:E.
  - assert (forall x, admission_peer_by_name (release_compact_snapshot name x) = admission_peer_by_name x) as ->
      by (intros x; unfold release_compact_snapshot; now case_match).
    cbn. destruct (decide (n = name)) as [->|Hn]; now rewrite ?lookup_delete_eq, ?lookup_delete_ne by done.
  - now destruct (decide (n = name)) as [->|].
Qed.

Lemma release_admission_charge name n a :
  compact_charge_by_name (release_actor_admission name a) !! n
  = if decide (n = name /\ is_Some (admission_peer_by_name a !! name)) then None else compact_charge_by_name a !! n.
Proof.
  unfold release_actor_admission. destruct (admission_peer_by_name a !! name) as [p|] eqn:E.
  - rewrite release_compact_lookup. cbn. repeat case_decide; try done; exfalso; naive_solver.
  - case_decide as H; [|done]. destruct H as [_ [x Hx]]. done.
Qed.

Section Admission.
Context (limit per_peer : Z) (Hlimit : 0 <= limit <= u32_max) (Hper : 0 <= per_peer).
#[local] Abbreviation ok := (admission_ok limit per_peer).

Lemma admission_new_ok : ok admission_new.
Proof using All.
  split; unfold actor_admission_count; cbn -[Z.mul Z.of_nat]; intros; rewrite ?lookup_empty in *; cbn; try done; try lia.
  unfold map_len. rewrite map_size_empty. lia.
Qed.

(** ** Sums of charges *)
Lemma charges_bounded (m : gmap Name Z) :
  (forall n c, m !! n = Some c -> RECORD_CHARGE_MIN <= c <= record_charge_max limit) ->
  RECORD_CHARGE_MIN * map_len m <= map_sum id m <= record_charge_max limit * map_len m.
Proof using Hlimit.
  unfold RECORD_CHARGE_MIN, record_charge_max. induction m as [|n c m Hn IH] using map_ind; intros Hm.
  - rewrite map_sum_empty. unfold map_len. rewrite map_size_empty. lia.
  - rewrite map_sum_insert, map_len_insert_fresh by done. pose proof (Hm n c (lookup_insert_eq m n c)).
    assert (forall n c, m !! n = Some c -> 64 <= c <= 64 + 2 * limit) as Hm'.
    { intros n' c' E. apply (Hm n'). rewrite lookup_insert_ne; [done|congruence]. }
    specialize (IH Hm'). unfold id at 1 3. nia.
Qed.

Lemma bytes_bounded a : ok a -> 0 <= compact_admission_bytes a <= 2 ^ 62.
Proof using Hlimit.
  intros Ha. rewrite (ad_bytes _ _ _ Ha). pose proof (charges_bounded _ (ad_charge _ _ _ Ha)) as Hb.
  pose proof (ad_room _ _ _ Ha) as Hr. unfold RECORD_CHARGE_MIN, record_charge_max, u32_max, map_len in *. nia.
Qed.

Lemma release_compact_ok name a : ok a -> ok (release_compact_snapshot name a).
Proof using Hlimit.
  intros Ha. unfold release_compact_snapshot. destruct (compact_charge_by_name a !! name) as [c|] eqn:E; [|done].
  pose proof (ad_charge _ _ _ Ha name c E) as Hc. unfold RECORD_CHARGE_MIN in Hc. split; cbn; try apply Ha.
  - rewrite (ad_bytes _ _ _ Ha), (map_sum_delete id _ name c E). unfold saturating_sub. change (id c) with c.
    enough (0 <= map_sum id (delete name (compact_charge_by_name a))) by lia.
    apply map_sum_nonneg. intros i x Hx. apply lookup_delete_Some in Hx as [_ Hx].
    apply (ad_charge _ _ _ Ha) in Hx. unfold RECORD_CHARGE_MIN, id in *. lia.
  - intros n x [_ Hx]%lookup_delete_Some. now apply (ad_charge _ _ _ Ha n).
  - rewrite map_len_delete_present by eauto. pose proof (ad_room _ _ _ Ha). unfold RECORD_CHARGE_MIN in *. lia.
Qed.

Lemma release_admission_ok name a : ok a -> ok (release_actor_admission name a).
Proof using Hlimit.
  intros Ha. unfold release_actor_admission. destruct (admission_peer_by_name a !! name) as [p|] eqn:E; [|done].
  apply release_compact_ok. split; cbn; try apply Ha.
  - intros q n. rewrite forget_lookup, (ad_inverse _ _ _ Ha). destruct (decide (n = name)) as [->|Hn].
    + rewrite lookup_delete_eq, E. split; [|done]. intros [[= <-] H]. tauto.
    + rewrite lookup_delete_ne by done. tauto.
  - apply forget_nonempty, Ha.
  - intros q. pose proof (ad_per_peer _ _ _ Ha q). unfold actor_admission_count in *. cbn. etrans; [|eassumption].
    apply count_le. intros n. rewrite forget_lookup. tauto.
Qed.

(** ** Charging a record *)
Lemma compact_record_charge_bounds name l n :
  len name + len (l_address l) + len (l_metadata l) + 40 * map_len (l_vector_clock l) <= n -> n <= limit ->
  RECORD_CHARGE_MIN <= compact_record_charge name l <= record_charge_max limit.
Proof using Hlimit.
  intros Hn Hl. unfold compact_record_charge, saturating_add, saturating_mul, RECORD_CHARGE_MIN, record_charge_max.
  pose proof (len_nonneg name). pose proof (len_nonneg (l_address l)). pose proof (len_nonneg (l_metadata l)).
  assert (0 <= map_len (l_vector_clock l)) by (unfold map_len; lia). unfold_widths. lia.
Qed.

Lemma try_charge_lookup name l m a r a' :
  try_charge_compact_snapshot name l m a = (r, a') ->
  admission_peer_by_name a' = admission_peer_by_name a /\ admissions_by_peer a' = admissions_by_peer a
  /\ (forall b, r = Ok b -> forall n, is_Some (compact_charge_by_name a' !! n) <-> n = name \/ is_Some (compact_charge_by_name a !! n))
  /\ ((forall b, r <> Ok b) -> a' = a).
Proof using.
  clear Hlimit Hper limit per_peer.
  unfold try_charge_compact_snapshot, reject_oversize_for_inline_send. intros H.
  assert (forall c n, is_Some (<[name := c]> (compact_charge_by_name a) !! n) <-> n = name \/ is_Some (compact_charge_by_name a !! n)) as Hi.
  { intros c n. destruct (decide (n = name)) as [->|Hn]; [rewrite lookup_insert_eq; naive_solver|].
    rewrite lookup_insert_ne by done. naive_solver. }
  destruct (compact_charge_by_name a !! name) as [old|] eqn:E.
  - destruct (Z.eqb_spec old (compact_record_charge name l)) as [He|He]; injection H as <- <-; cbn;
      (split; [done|]; split; [done|]; split; [|intros Hr; now destruct (Hr false)]); intros _ _ n; [|apply Hi].
    split; [now right|]. intros [->|Hn]; [eauto|done].
  - destruct (m <? _); injection H as <- <-; cbn; (split; [done|]; split; [done|]; split).
    + intros b [=].
    + done.
    + intros _ _ n. apply Hi.
    + intros Hr. now destruct (Hr true).
Qed.

Lemma try_charge_ok name l a r a' :
  ok a -> RECORD_CHARGE_MIN <= compact_record_charge name l <= record_charge_max limit ->
  try_charge_compact_snapshot name l limit a = (r, a') -> ok a'.
Proof using Hlimit.
  intros Ha Hc H. pose proof (bytes_bounded a Ha) as Hb. unfold try_charge_compact_snapshot, reject_oversize_for_inline_send in H.
  set (c := compact_record_charge name l) in *. clearbody c.
  assert (c <= 2 ^ 62) as Hc2 by (unfold record_charge_max, u32_max in *; lia).
  destruct (compact_charge_by_name a !! name) as [old|] eqn:E.
  - pose proof (ad_charge _ _ _ Ha name old E) as Ho. unfold RECORD_CHARGE_MIN in Ho.
    destruct (Z.eqb_spec old c) as [He|He]; injection H as <- <-; [done|]. split; cbn; try apply Ha.
    + rewrite (map_sum_replace id _ name old c E), <- (ad_bytes _ _ _ Ha).
      assert (old <= compact_admission_bytes a) as Hle.
      { rewrite (ad_bytes _ _ _ Ha), (map_sum_delete id _ name old E). change (id old) with old.
        enough (0 <= map_sum id (delete name (compact_charge_by_name a))) by lia. apply map_sum_nonneg.
        intros i x [_ Hx]%lookup_delete_Some. apply (ad_charge _ _ _ Ha) in Hx. unfold RECORD_CHARGE_MIN, id in *. lia. }
      unfold saturating_add, saturating_sub, id, usize_max, u64_max. lia.
    + intros n x Hx. destruct (decide (n = name)) as [->|Hn];
        [rewrite lookup_insert_eq in Hx; now injection Hx as <-|rewrite lookup_insert_ne in Hx by done; now apply (ad_charge _ _ _ Ha n)].
    + rewrite map_len_replace by eauto. apply Ha.
  - destruct (Z.ltb_spec limit (saturating_add usize_max GOSSIP_HEADER_LEN (saturating_add usize_max (compact_admission_bytes a) c)));
      injection H as <- <-; [done|].
    assert (compact_admission_bytes a + c <= limit) as Hfit
      by (unfold saturating_add, usize_max, u64_max, GOSSIP_HEADER_LEN, u32_max in *; lia).
    split; cbn; try apply Ha.
    + rewrite map_sum_insert, <- (ad_bytes _ _ _ Ha) by done. unfold saturating_add, id, usize_max, u64_max, u32_max in *. lia.
    + intros n x Hx. destruct (decide (n = name)) as [->|Hn];
        [rewrite lookup_insert_eq in Hx; now injection Hx as <-|rewrite lookup_insert_ne in Hx by done; now apply (ad_charge _ _ _ Ha n)].
    + rewrite map_len_insert_fresh by done. rewrite (ad_bytes _ _ _ Ha) in Hfit.
      pose proof (charges_bounded _ (ad_charge _ _ _ Ha)). unfold RECORD_CHARGE_MIN in *. lia.
Qed.

(** ** Recording who answers *)
Lemma record_lookup p name n a :
  admission_peer_by_name (record_actor_admission p name a) !! n
  = if decide (n = name) then Some p else admission_peer_by_name a !! n.
Proof using.
  clear. cbn. destruct (decide (n = name)) as [->|Hn]; now rewrite ?lookup_insert_eq, ?lookup_insert_ne by done.
Qed.

Lemma without_previous_lookup p name a q n :
  ok a -> n ∈ default ∅ (without_previous p name a !! q) <-> admission_peer_by_name a !! n = Some q /\ (n = name -> q = p).
Proof using.
  clear Hlimit Hper. intros Ha. unfold without_previous. destruct (admission_peer_by_name a !! name) as [prev|] eqn:E.
  - destruct (decide (prev = p)) as [->|Hne].
    + rewrite (ad_inverse _ _ _ Ha). naive_solver congruence.
    + rewrite forget_lookup, (ad_inverse _ _ _ Ha). split; intros [H1 H2]; (split; [done|]).
      * intros ->. rewrite E in H1. injection H1 as <-. tauto.
      * intros [<- ->]. now apply Hne, H2.
  - rewrite (ad_inverse _ _ _ Ha). naive_solver congruence.
Qed.

Lemma record_ok p name a :
  ok a -> (admission_peer_by_name a !! name = Some p \/ actor_admission_count a p < per_peer) ->
  ok (record_actor_admission p name a).
Proof using.
  clear Hlimit Hper. intros Ha Hp. pose proof (fun q n => without_previous_lookup p name a q n Ha) as Hby.
  split; unfold actor_admission_count; cbn; try apply Ha.
  - intros q n. destruct (decide (q = p)) as [->|Hq]; rewrite ?lookup_insert_eq, ?lookup_insert_ne by done; cbn;
      rewrite ?elem_of_union, ?elem_of_singleton, Hby; destruct (decide (n = name)) as [->|Hn];
      rewrite ?lookup_insert_eq, ?lookup_insert_ne by done; naive_solver congruence.
  - intros q. destruct (decide (q = p)) as [->|Hq]; [rewrite lookup_insert_eq|rewrite lookup_insert_ne by done].
    + intros H. injection H as H. set_solver.
    + unfold without_previous. repeat case_match; try apply Ha. now apply forget_nonempty, Ha.
  - intros q. pose proof (ad_per_peer _ _ _ Ha q) as Hq. unfold actor_admission_count in *.
    assert (forall q n, n ∈ default ∅ (without_previous p name a !! q) -> n ∈ default ∅ (admissions_by_peer a !! q)) as Hsub.
    { intros r n Hn%Hby. now apply (ad_inverse _ _ _ Ha). }
    pose proof (count_le _ _ q (Hsub q)) as Hle.
    destruct (decide (q = p)) as [->|Hne]; [rewrite lookup_insert_eq; cbn|rewrite lookup_insert_ne by done; lia].
    destruct Hp as [Hp|Hp].
    + assert ({[name]} ∪ default ∅ (without_previous p name a !! p) ⊆ default ∅ (admissions_by_peer a !! p)) as H.
      { apply (ad_inverse _ _ _ Ha) in Hp. set_solver. }
      apply subseteq_size in H. lia.
    + pose proof (size_union_alt {[name]} (default ∅ (without_previous p name a !! p))) as Hs.
      assert (size (default ∅ (without_previous p name a !! p) ∖ {[name]}) <= size (default ∅ (without_previous p name a !! p)))%nat
        by (apply subseteq_size; set_solver).
      rewrite size_singleton in Hs. lia.
Qed.
End Admission.
