(* ===== verification/ActorDirectoryInv.v ===== *)
(** * The actor directory keeps its invariant

    Every operation on the directory keeps hosted and known actors apart, the
    admission accounts exact and the tables within their limits. *)

From S2P Require Import Prelude Types Framing VectorClock ActorConflict ActorDirectory ActorAdmission.

(** The parts of the state the invariant is about. *)
Record tables_ok (node : Node) (local known : gmap Name RemoteActorLocation) (a : Admission) : Prop := {
  tb_admission : admission_ok (max_message_size node) (max_known_actors_per_peer node) a;
  tb_disjoint : forall n, is_Some (local !! n) -> known !! n = None;
  tb_admitted : forall n, is_Some (admission_peer_by_name a !! n) -> is_Some (known !! n);
  tb_local_charged : forall n, is_Some (local !! n) -> is_Some (compact_charge_by_name a !! n);
  tb_charged : forall n, is_Some (compact_charge_by_name a !! n) ->
    is_Some (local !! n) \/ is_Some (admission_peer_by_name a !! n);
  tb_known : map_len known <= max_known_actors node;
}.

Definition directory_ok (node : Node) (d : Directory) : Prop :=
  tables_ok node (local_actors d) (known_actors d) (admission d).

(** What the configuration and the encoder give: limits are not negative, a
    message length fits 32 bits, and an encoded change holds the name, address
    and metadata it carries and 40 bytes for each entry of its clock. *)
Record node_ok (node : Node) : Prop := {
  nd_message : 0 <= max_message_size node <= u32_max;
  nd_known : 0 <= max_known_actors node;
  nd_per_peer : 0 <= max_known_actors_per_peer node;
  nd_encoded : forall name l n, encoded_len node name l = Ok n ->
    len name + len (l_address l) + len (l_metadata l) + 40 * map_len (l_vector_clock l) <= n;
}.

Section Invariant.
Context (node : Node) (Hnode : node_ok node).

Lemma directory_new_ok : directory_ok node directory_new.
Proof using Hnode.
  split; cbn; try (intros n [x Hx]; now rewrite lookup_empty in Hx).
  - apply admission_new_ok; apply Hnode.
  - unfold map_len. rewrite map_size_empty. apply Hnode.
Qed.

Lemma solo_fits name l :
  ensure_solo_change_fits node name l = Ok tt ->
  RECORD_CHARGE_MIN <= compact_record_charge name l <= record_charge_max (max_message_size node).
Proof using Hnode.
  unfold ensure_solo_change_fits, gossip_payload_fits, reject_oversize_for_inline_send. intros H.
  destruct (encoded_len node name l) as [n|e|] eqn:E; cbn in H; try done.
  apply (nd_encoded _ Hnode) in E. apply (compact_record_charge_bounds _ (nd_message _ Hnode) name l n E).
  pose proof (nd_message _ Hnode). unfold saturating_add, GOSSIP_HEADER_LEN in H. unfold_widths.
  destruct (Z.ltb_spec (max_message_size node) (Z.min 18446744073709551615 (12 + n))); cbn in H; [done|lia].
Qed.

(** ** The moves operations are made of *)
Lemma release_tables local known a n :
  tables_ok node local known a -> tables_ok node local known (release_actor_admission n a).
Proof using Hnode.
  intros H. split; try apply H.
  - apply release_admission_ok; apply Hnode || apply H.
  - intros m. rewrite release_admission_lookup. case_decide; [now intros []|apply H].
  - intros m Hm. rewrite release_admission_charge. case_decide as Hd; [|now apply H].
    destruct Hd as [-> Hd%(tb_admitted _ _ _ _ H)]. rewrite (tb_disjoint _ _ _ _ H n Hm) in Hd. now destruct Hd.
  - intros m. rewrite release_admission_charge, release_admission_lookup. case_decide as Hd; [now intros []|].
    intros Hm. destruct (tb_charged _ _ _ _ H m Hm) as [Hl|Hl]; [now left|]. right. case_decide; [|done].
    subst m. destruct Hd. now split.
Qed.

Lemma forget_tables local known a n :
  tables_ok node local known a -> admission_peer_by_name a !! n = None -> tables_ok node local (delete n known) a.
Proof using.
  intros H Hn. split; try apply H.
  - intros m Hm. apply lookup_delete_None. right. now apply (tb_disjoint _ _ _ _ H).
  - intros m Hm. rewrite lookup_delete_ne; [now apply (tb_admitted _ _ _ _ H)|]. intros <-. rewrite Hn in Hm. now destruct Hm.
  - etrans; [|apply H]. unfold map_len. enough (size (delete n known) <= size known)%nat by lia.
    apply map_subseteq_size, delete_subseteq.
Qed.

Lemma drop_tables local known a n :
  tables_ok node local known a -> tables_ok node local (delete n known) (release_actor_admission n a).
Proof using Hnode.
  intros H. apply forget_tables; [now apply release_tables|]. rewrite release_admission_lookup. now case_decide.
Qed.

(** A name is admitted for a peer, as an update or as a new entry. *)
Lemma admit_tables local known a a' n l p b :
  tables_ok node local known a -> local !! n = None -> ensure_solo_change_fits node n l = Ok tt ->
  try_charge_compact_snapshot n l (max_message_size node) a = (Ok b, a') ->
  (admission_peer_by_name a !! n = Some p \/ actor_admission_count a p < max_known_actors_per_peer node) ->
  (is_Some (known !! n) \/ map_len known < max_known_actors node) ->
  tables_ok node local (<[n := l]> known) (record_actor_admission p n a').
Proof using Hnode.
  intros H Hl Hs Hc Hp Hk. destruct (try_charge_lookup _ _ _ _ _ _ Hc) as (Hn & Hb & Hch & _). specialize (Hch b eq_refl).
  split.
  - apply record_ok.
    + apply (try_charge_ok _ _ (nd_message _ Hnode) n l a (Ok b)); auto; [apply H|now apply solo_fits].
    + unfold actor_admission_count in *. now rewrite Hn, Hb.
  - intros m Hm. rewrite lookup_insert_ne; [now apply (tb_disjoint _ _ _ _ H)|]. intros <-. rewrite Hl in Hm. now destruct Hm.
  - intros m. rewrite record_lookup, Hn. case_decide as Hd; [subst m; intros _; rewrite lookup_insert_eq; eauto|].
    rewrite lookup_insert_ne by done. apply H.
  - intros m Hm. cbn. apply Hch. right. now apply (tb_local_charged _ _ _ _ H).
  - intros m. rewrite record_lookup, Hn. cbn. rewrite Hch. case_decide; [eauto|]. intros [->|Hm]; [done|]. now apply H.
  - destruct Hk as [Hk|Hk].
    + rewrite map_len_replace by done. apply H.
    + destruct (known !! n) eqn:E; [rewrite map_len_replace by eauto; lia|rewrite map_len_insert_fresh by done; lia].
Qed.

Lemma host_tables local known a a' n l b :
  tables_ok node local known a -> known !! n = None -> ensure_solo_change_fits node n l = Ok tt ->
  try_charge_compact_snapshot n l (max_message_size node) a = (Ok b, a') ->
  tables_ok node (<[n := l]> local) known a'.
Proof using Hnode.
  intros H Hk Hs Hc. destruct (try_charge_lookup _ _ _ _ _ _ Hc) as (Hn & Hb & Hch & _). specialize (Hch b eq_refl).
  split.
  - apply (try_charge_ok _ _ (nd_message _ Hnode) n l a (Ok b)); auto; [apply H|now apply solo_fits].
  - intros m Hm. destruct (decide (m = n)) as [->|Hd]; [done|]. rewrite lookup_insert_ne in Hm by done. now apply H.
  - intros m. rewrite Hn. apply H.
  - intros m Hm. apply Hch. destruct (decide (m = n)) as [->|Hd]; [now left|]. rewrite lookup_insert_ne in Hm by done.
    right. now apply H.
  - intros m Hm. rewrite Hn. destruct (decide (m = n)) as [->|Hd]; [rewrite lookup_insert_eq; eauto|].
    rewrite lookup_insert_ne by done. apply Hch in Hm as [->|Hm]; [done|]. now apply H.
  - apply H.
Qed.

Lemma unhost_tables local known a n :
  tables_ok node local known a -> is_Some (local !! n) ->
  tables_ok node (delete n local) known (release_compact_snapshot n a).
Proof using Hnode.
  intros H Hl. assert (admission_peer_by_name (release_compact_snapshot n a) = admission_peer_by_name a) as Hn
    by (unfold release_compact_snapshot; now case_match).
  split; rewrite ?Hn; try apply H.
  - apply release_compact_ok; apply Hnode || apply H.
  - intros m [x Hm]. apply lookup_delete_Some in Hm as [_ Hm]. apply H. eauto.
  - intros m [x Hm]. apply lookup_delete_Some in Hm as [Hne Hm]. rewrite release_compact_lookup.
    case_decide; [congruence|]. apply H. eauto.
  - intros m. rewrite release_compact_lookup. case_decide as Hd; [now intros []|]. rewrite lookup_delete_ne by congruence. apply H.
Qed.

(** ** Operations *)
Lemma enqueue_tables p c d : directory_ok node d -> directory_ok node (enqueue_change p c d).
Proof using. unfold enqueue_change. now destruct p. Qed.

Lemma drop_known_ok n d : directory_ok node d -> directory_ok node (drop_known n d).
Proof using Hnode. intros H. exact (drop_tables _ _ _ n H). Qed.

Lemma register_ok n l p now d : directory_ok node d -> directory_ok node (register_actor_with_priority node n l p now d).2.
Proof using Hnode.
  intros H. unfold register_actor_with_priority. destruct (shutdown d); [done|]. cbv zeta.
  set (d0 := match known_actors d !! n with Some _ => _ | None => _ end).
  assert (directory_ok node d0) as H0 by (subst d0; repeat case_match; auto using drop_known_ok). clearbody d0. clear d H.
  case_decide as Hd; [done|]. set (l' := with_clock _ _). clearbody l'.
  destruct (ensure_solo_change_fits node n l') as [[]|e|] eqn:Es; [|done..].
  destruct (try_charge_compact_snapshot n l' _ (admission d0)) as [[b|e|] a'] eqn:Ec; [|done..].
  apply enqueue_tables. refine (host_tables _ _ _ _ _ _ b H0 _ Es Ec).
  destruct (known_actors d0 !! n) eqn:Ek; [|done]. destruct Hd. right. eauto.
Qed.

Lemma replace_ok n l now d : directory_ok node d -> directory_ok node (register_actor_replacing_known node n l now d).2.
Proof using Hnode. intros H. unfold register_actor_replacing_known. case_match; auto using register_ok, drop_known_ok. Qed.

Lemma unregister_ok n now d : directory_ok node d -> directory_ok node (unregister_actor node n now d).2.
Proof using Hnode.
  intros H. unfold unregister_actor. destruct (shutdown d); [done|].
  destruct (local_actors d !! n) as [l|] eqn:El.
  - cbn. rewrite (tb_disjoint _ _ _ _ H n) by eauto. cbn. apply enqueue_tables, (unhost_tables _ _ _ n H). eauto.
  - cbn. repeat case_match; cbn; auto using drop_known_ok.
Qed.

(** The common end of an accepted announcement. *)
Lemma admit_ok d n l p clear b a' :
  directory_ok node d -> local_actors d !! n = None -> ensure_solo_change_fits node n l = Ok tt ->
  try_charge_compact_snapshot n l (max_message_size node) (admission d) = (Ok b, a') ->
  negb (bool_decide (admission_peer_by_name (admission d) !! n = Some p))
    && (max_known_actors_per_peer node <=? actor_admission_count (admission d) p) = false ->
  (is_Some (known_actors d !! n) \/ map_len (known_actors d) < max_known_actors node) ->
  directory_ok node
    (set_admission (record_actor_admission p n)
      (set_known <[n := l]> (if clear : bool then set_removed (delete n) (set_admission (fun _ => a') d)
                             else set_admission (fun _ => a') d))).
Proof using Hnode.
  intros H Hl Hs Hc Hp Hk. apply andb_false_iff in Hp.
  assert (admission_peer_by_name (admission d) !! n = Some p
    \/ actor_admission_count (admission d) p < max_known_actors_per_peer node) as Hp'.
  { destruct Hp as [Hp|Hp]; [left|right; now apply Z.leb_gt]. now apply negb_false_iff, bool_decide_eq_true in Hp. }
  pose proof (admit_tables _ _ _ _ _ _ p b H Hl Hs Hc Hp' Hk) as Ht. now destruct clear.
Qed.

Lemma upsert_plan_cases n l sender restarted d clear upd :
  current_actor_upsert_plan node n l sender restarted d = Some (clear, upd) ->
  local_actors d !! n = None /\ upd = bool_decide (is_Some (known_actors d !! n)).
Proof using.
  clear Hnode. unfold current_actor_upsert_plan. case_decide; [done|]. case_decide as Hl; [done|].
  apply eq_None_not_Some in Hl. intros Hplan. split; [done|].
  destruct (known_actors d !! n) as [e|]; repeat case_match; simplify_eq; symmetry;
    apply bool_decide_eq_true || apply bool_decide_eq_false; (eauto || now intros []).
Qed.

Lemma delta_add_ok sender repair restarted n l p log d :
  directory_ok node d -> directory_ok node (delta_add node sender repair restarted n l p (log, d)).2.
Proof using Hnode.
  intros H. unfold delta_add. set (l' := (resolve_location _ _ _ _ _).2). clearbody l'. cbv zeta.
  destruct (current_actor_upsert_plan _ _ _ _ _ _) as [[clear upd]|] eqn:Ep; [|done].
  apply upsert_plan_cases in Ep as [Hl ->].
  destruct (negb (bool_decide (_ = Some sender)) && _) eqn:Ea; [done|].
  destruct (negb (bool_decide (is_Some _)) && _) eqn:Ek; [done|].
  destruct (ensure_solo_change_fits node n l') as [[]|e|] eqn:Es; [|done..].
  destruct (try_charge_compact_snapshot n l' _ (admission d)) as [[b|e|] a'] eqn:Ec; [|done..].
  apply (admit_ok d n l' sender clear b a'); auto. apply andb_false_iff in Ek as [Ek|Ek].
  - left. now apply negb_false_iff, bool_decide_eq_true in Ek.
  - right. now apply Z.leb_gt in Ek.
Qed.

Lemma delta_remove_ok now n c r p log d :
  directory_ok node d -> directory_ok node (delta_remove now n c r p (log, d)).2.
Proof using Hnode.
  intros H. unfold delta_remove. destruct (removal_tombstone n r d) as [kind owner].
  destruct (current_actor_removal_plan n c r d) as [[clock []]|]; [done| |done].
  destruct (known_actors d !! n) eqn:E; [|done]. exact (drop_tables _ _ _ n H).
Qed.

Lemma delta_loop_ok sender repair restarted now cs : forall acc,
  directory_ok node acc.2 -> directory_ok node (foldl (delta_change node sender repair restarted now) acc cs).2.
Proof using Hnode.
  induction cs as [|c cs IH]; intros [log d] H; [done|]. cbn [foldl]. apply IH.
  destruct c; [now apply delta_add_ok|now apply delta_remove_ok].
Qed.

Lemma apply_delta_ok delta bk v guard now d :
  directory_ok node d -> directory_ok node (apply_delta_from node delta bk v guard now d).2.
Proof using Hnode.
  intros H. unfold apply_delta_from. destruct (match guard with Some _ => _ | None => _ end); [done|]. cbv zeta.
  pose proof (delta_loop_ok (sender_peer_id delta) (match v with Some a => Some a | None => bk end)
    (match guard with Some (addr, _) => match peers d !! addr with Some info => session_restart_confirmed info | None => false end | None => false end)
    now (changes delta) (log_new (default ∅ (bk ≫= fun addr => peer_to_actors d !! addr)), d) H) as Hl.
  destruct (foldl _ _ (changes delta)) as [log d']. cbn in Hl |- *. now destruct bk, (names_changed log).
Qed.

Lemma sync_update_ok sender repair restarted log d u :
  directory_ok node d -> directory_ok node (sync_update node sender repair restarted (log, d) u).2.
Proof using Hnode.
  intros H. destruct u as [[n l] addr]. unfold sync_update. cbv zeta.
  destruct (negb (bool_decide (_ = Some sender)) && _) eqn:Ea; [done|].
  destruct (negb (bool_decide (is_Some _)) && _) eqn:Ek; [done|].
  destruct (current_actor_upsert_plan _ _ _ _ _ _) as [[clear upd]|] eqn:Ep; [|done].
  apply upsert_plan_cases in Ep as [Hl _].
  destruct (ensure_solo_change_fits node n l) as [[]|e|] eqn:Es; [|done..].
  destruct (try_charge_compact_snapshot n l _ (admission d)) as [[b|e|] a'] eqn:Ec; [|done..].
  apply (admit_ok d n l sender clear b a'); auto. apply andb_false_iff in Ek as [Ek|Ek].
  - left. now apply negb_false_iff, bool_decide_eq_true in Ek.
  - right. now apply Z.leb_gt in Ek.
Qed.

Lemma prune_omitted_ok sender log d n : directory_ok node d -> directory_ok node (prune_omitted sender (log, d) n).2.
Proof using Hnode.
  intros H. unfold prune_omitted. repeat case_match; try done. exact (drop_tables _ _ _ n H).
Qed.

Lemma foldl_acc_ok {A B} (f : A * Directory -> B -> A * Directory) (l : list B) :
  (forall a d b, directory_ok node d -> directory_ok node (f (a, d) b).2) ->
  forall acc, directory_ok node acc.2 -> directory_ok node (foldl f acc l).2.
Proof using. intros Hf. induction l as [|b l IH]; intros [a d] H; [done|]. cbn. apply IH. now apply Hf. Qed.

Lemma sync_apply_ok o rl rk sender addr v epoch restarted d :
  directory_ok node d -> directory_ok node (full_sync_apply node o rl rk sender addr v epoch restarted d).2.
Proof using Hnode.
  intros H. unfold full_sync_apply. cbv zeta. destruct (commit_refused o); [done|].
  destruct (match epoch with Some _ => _ | None => _ end); [done|].
  pose proof (foldl_acc_ok (sync_update node sender (default addr v) restarted)
    (updates_to_apply node (bool_decide (is_Some o)) (default addr v) sender rl rk)
    (fun a d b => sync_update_ok _ _ _ a d b) (mkSyncLog ∅ [] false false, d) H) as H1.
  destruct (foldl (sync_update _ _ _ _) _ _) as [log1 d1]. cbn in H1.
  pose proof (foldl_acc_ok (prune_omitted sender) (elements (default ∅ (peer_to_actors d1 !! addr) ∖ peer_actors log1))
    (fun a d b => prune_omitted_ok sender a d b) (log1, set_peer_to_actors <[addr := peer_actors log1]> d1) H1) as H2.
  destruct (foldl (prune_omitted _) _ _) as [log2 d2]. cbn in H2 |- *. now destruct (actors_changed log2 || _).
Qed.

Lemma sync_gate_ok o addr src sq view d : directory_ok node d -> directory_ok node (full_sync_gate o addr src sq view d).2.
Proof using. intros H. unfold full_sync_gate. repeat case_match; done. Qed.

Lemma arm_ok addr n src view conn d :
  directory_ok node d -> directory_ok node (arm_sequence_reset_for_new_session addr n src view conn d).
Proof using. intros H. unfold arm_sequence_reset_for_new_session. repeat case_match; done. Qed.

Lemma expire_ok now connected d : directory_ok node d -> directory_ok node (cleanup_stale_actors node now connected d).
Proof using Hnode.
  intros H. unfold cleanup_stale_actors. cbv zeta. set (l := filter _ (map_to_list _)). clearbody l.
  change (directory_ok node (foldl (expire_actor node now connected) d l)).
  revert d H. induction l as [|c l IH]; intros d H; [done|]. cbn. apply IH. unfold expire_actor.
  repeat case_match; try done. exact (drop_tables _ _ _ _ H).
Qed.

Lemma reap_ok addr now d d' : directory_ok node d -> reap_peer_actors node addr now d = Ok d' -> directory_ok node d'.
Proof using Hnode.
  intros H. unfold reap_peer_actors. destruct (peer_to_actors d !! addr) as [names|]; [|now intros [= <-]].
  generalize (peers d !! addr). intros info. revert d H. induction (elements names) as [|n l IH]; intros d H E; cbn in E.
  - now injection E as <-.
  - destruct (reap_actor node addr info now d n) as [d1|e|] eqn:E1; cbn in E; try done. apply IH in E; [done|].
    unfold reap_actor in E1. destruct (known_actors d !! n); [|now injection E1 as <-].
    destruct (actor_location_belongs_to_peer _ _ _ _) as [[]|e|]; cbn in E1; try done; injection E1 as <-; [|done].
    apply enqueue_tables. exact (drop_tables _ _ _ n H).
Qed.

Lemma displace_ok addr old conn l : forall d d', (forall n, n ∈ l -> admission_peer_by_name (admission d) !! n = None) ->
  directory_ok node d -> displace_actors node addr old conn l d = Ok d' -> directory_ok node d'.
Proof using.
  clear Hnode. induction l as [|n l IH]; intros d d' Hn H E; cbn in E; [now injection E as <-|].
  destruct (known_actors d !! n) as [loc|]; [|apply (IH d); auto; intros m Hm; apply Hn; now right].
  destruct (displaced_location _ _ _ _ _) as [b|e|]; cbn in E; try done. apply IH in E; [done| |].
  - intros m Hm. destruct b; apply Hn; now right.
  - destruct b; [|done]. apply (forget_tables _ _ _ n H), Hn. left.
Qed.

Lemma release_all_tables l : forall local known a,
  tables_ok node local known a ->
  let a' := foldl (fun a n => release_actor_admission n a) a l in
  tables_ok node local known a' /\ forall n, n ∈ l \/ admission_peer_by_name a !! n = None -> admission_peer_by_name a' !! n = None.
Proof using Hnode.
  induction l as [|m l IH]; intros local known a H; cbn.
  - split; [done|]. intros n [Hn|Hn]; [now apply not_elem_of_nil in Hn|done].
  - destruct (IH local known (release_actor_admission m a) (release_tables _ _ _ m H)) as [H1 H2]. split; [done|].
    intros n Hn. apply H2. rewrite release_admission_lookup. destruct Hn as [[->|Hn]%elem_of_cons|Hn]; [right; now case_decide|now left|].
    right. now case_decide.
Qed.

Lemma rekey_ok addr new conn d d' : directory_ok node d -> rekey_address node addr new conn d = Ok d' -> directory_ok node d'.
Proof using Hnode.
  intros H. unfold rekey_address. destruct (peers d !! addr) as [info|]; [|now intros [= <-]]. cbv zeta.
  destruct (release_all_tables (elements (default ∅ (peer_to_actors d !! addr))) _ _ _ H) as [H1 H2].
  destruct (pi_node_id info) as [old|]; [|now intros [= <-]]. apply displace_ok; [|done]. intros n Hn. apply H2. now left.
Qed.

Lemma evict_ok addr d d' : directory_ok node d -> evict_peer node addr d = Ok d' -> directory_ok node d'.
Proof using Hnode.
  intros H. unfold evict_peer. destruct (match peers d !! addr ≫= pi_node_id with Some _ => _ | None => _ end) as [peer|e|]; try done.
  cbn. intros [= <-]. set (d0 := set_gossip _ _ _ _ _ _ _). assert (directory_ok node d0) as H0 by done. clearbody d0.
  generalize (elements (default ∅ (peer_to_actors d !! addr))). clear d H. intros l. revert d0 H0.
  induction l as [|n l IH]; intros d H; [done|]. cbn. apply IH. unfold evict_actor. destruct peer as [p|]; [|done].
  destruct (bool_decide (_ <$> _ = _)) eqn:E1; cbn; [exact (drop_tables _ _ _ n H)|].
  destruct (bool_decide (admission_peer_by_name (admission d) !! n = Some p)); [exact (release_tables _ _ _ n H)|done].
Qed.
End Invariant.

(** ** Runs of operations

    A full sync is two critical sections; anything may happen in between. *)
Inductive DirectoryOp :=
  | OpRegister (name : Name) (l : RemoteActorLocation) (p : RegistrationPriority) (now : Z)
  | OpReplace (name : Name) (l : RemoteActorLocation) (now : Z)
  | OpUnregister (name : Name) (now : Z)
  | OpDelta (delta : RegistryDelta) (bookkeeping verified : option SocketAddr) (guard : option (SocketAddr * Z)) (now : Z)
  | OpArm (addr : SocketAddr) (n : PublicKey) (source : SocketAddr) (view : PoolView) (instance : Z)
  | OpSyncGate (ownership : option bool) (addr : SocketAddr) (source : option SocketAddr) (sequence : Z) (view : PoolView)
  | OpSyncApply (ownership : option bool) (rl rk : gmap Name RemoteActorLocation) (sender : PeerId) (addr : SocketAddr)
      (verified : option SocketAddr) (epoch : option Z) (restarted : bool)
  | OpExpire (now : Z) (connected : RemoteActorLocation -> bool)
  | OpReap (addr : SocketAddr) (now : Z)
  | OpRekey (addr : SocketAddr) (n : PublicKey) (connection : option SocketAddr)
  | OpEvict (addr : SocketAddr).

Definition run_op (node : Node) (op : DirectoryOp) (d : Directory) : Result Directory :=
  match op with
  | OpRegister n l p now => Ok (register_actor_with_priority node n l p now d).2
  | OpReplace n l now => Ok (register_actor_replacing_known node n l now d).2
  | OpUnregister n now => Ok (unregister_actor node n now d).2
  | OpDelta delta bk v guard now => Ok (apply_delta_from node delta bk v guard now d).2
  | OpArm addr n source view instance => Ok (arm_sequence_reset_for_new_session addr n source view instance d)
  | OpSyncGate o addr source sequence view => Ok (full_sync_gate o addr source sequence view d).2
  | OpSyncApply o rl rk sender addr v epoch restarted =>
      Ok (full_sync_apply node o rl rk sender addr v epoch restarted d).2
  | OpExpire now connected => Ok (cleanup_stale_actors node now connected d)
  | OpReap addr now => reap_peer_actors node addr now d
  | OpRekey addr n connection => rekey_address node addr n connection d
  | OpEvict addr => evict_peer node addr d
  end.

Fixpoint run_ops (node : Node) (ops : list DirectoryOp) (d : Directory) : Result Directory :=
  match ops with
  | [] => Ok d
  | op :: ops => d ← run_op node op d; run_ops node ops d
  end.

Lemma run_op_ok node op d d' : node_ok node -> directory_ok node d -> run_op node op d = Ok d' -> directory_ok node d'.
Proof.
  intros Hn H E. destruct op; cbn in E; try injection E as <-;
    eauto using register_ok, replace_ok, unregister_ok, apply_delta_ok, arm_ok, sync_gate_ok, sync_apply_ok, expire_ok,
      reap_ok, rekey_ok, evict_ok.
Qed.

Lemma run_ops_ok node ops : forall d d',
  node_ok node -> directory_ok node d -> run_ops node ops d = Ok d' -> directory_ok node d'.
Proof.
  induction ops as [|op ops IH]; intros d d' Hn H E; cbn in E; [now injection E as <-|].
  destruct (run_op node op d) as [d1|e|] eqn:E1; cbn in E; try done. eauto using run_op_ok.
Qed.

(** C13: the actor directory stays within its limits and its accounts are
    exact, in every state that registrations, deltas, full syncs, sessions,
    expiry, reaping, changes of ownership and evictions can lead to, in any
    order.  No name is both hosted and known; the known actors, and those
    admitted for any one peer, stay within their caps; the two admission
    indexes agree and name only known actors; the charged bytes are the sum of
    the charges, every hosted actor is charged, and the records charged are at
    most a 64th of the message limit. *)
Theorem directory_bounded node ops d :
  node_ok node -> run_ops node ops directory_new = Ok d ->
  (forall n, is_Some (local_actors d !! n) -> known_actors d !! n = None)
  /\ map_len (known_actors d) <= max_known_actors node
  /\ (forall p, actor_admission_count (admission d) p <= max_known_actors_per_peer node)
  /\ (forall p n, n ∈ default ∅ (admissions_by_peer (admission d) !! p) <-> admission_peer_by_name (admission d) !! n = Some p)
  /\ (forall n, is_Some (admission_peer_by_name (admission d) !! n) -> is_Some (known_actors d !! n))
  /\ compact_admission_bytes (admission d) = map_sum id (compact_charge_by_name (admission d))
  /\ (forall n, is_Some (local_actors d !! n) -> is_Some (compact_charge_by_name (admission d) !! n))
  /\ 64 * map_len (compact_charge_by_name (admission d)) <= max_message_size node.
Proof.
  intros Hn E. pose proof (run_ops_ok node ops _ _ Hn (directory_new_ok node Hn) E) as H.
  pose proof (tb_admission _ _ _ _ H) as Ha. split_and!; try apply H; try apply Ha.
Qed.

(** ** A small scenario *)
Definition example_len (name : Name) (l : RemoteActorLocation) : Result Z :=
  Ok (len name + len (l_address l) + len (l_metadata l) + 40 * map_len (l_vector_clock l)).

(** An address is written as its port. *)
Definition example_node (self : Z) : Node :=
  mkNode (mkPeerId [self]) 4096 2 1 100 100
    (fun s => match s with [p] => Some (SocketAddrV4 0 p) | _ => None end) (fun a => [addr_port a])
    example_len (fun k => match k with [b] => b <? 10 | _ => false end).

Lemma example_node_ok self : node_ok (example_node self).
Proof. split; cbn; try (unfold u32_max; lia). intros name l n [= <-]. lia. Qed.

Definition example_location (peer clock time : Z) : RemoteActorLocation :=
  mkLocation [80] (mkPeerId [peer]) (mkPublicKey [peer]) {[mkPublicKey [peer] := clock]} time Normal time [].

Definition example_ops : list DirectoryOp :=
  [OpRegister [1] (example_location 1 0 0) Immediate 5;
   OpDelta (mkDelta [ActorAdded [2] (example_location 2 1 6) Normal; ActorAdded [3] (example_location 2 1 6) Normal;
                     ActorAdded [1] (example_location 2 1 6) Normal] (mkPeerId [2]))
     (Some (SocketAddrV4 0 80)) None None 6;
   OpSyncApply None {[ [4] := example_location 3 2 6 ]} ∅ (mkPeerId [3]) (SocketAddrV4 3 3) None None false;
   OpUnregister [1] 8; OpReap (SocketAddrV4 0 80) 9].

(** The second actor of peer 2 is over its cap, its claim to a hosted name is
    ignored, and its one actor goes with it. *)
Lemma directory_bounded_witness :
  exists d, run_ops (example_node 1) example_ops directory_new = Ok d
    /\ known_actors d = {[ [4] := example_location 3 2 6 ]} /\ map_len (known_actors d) <= 2
    /\ (t_kind <$> removed_actors d !! [1]) = Some ExplicitUnregister /\ 64 * map_len (compact_charge_by_name (admission d)) <= 4096.
Proof.
  destruct (run_ops (example_node 1) example_ops directory_new) as [d|e|] eqn:E; [|vm_compute in E; discriminate..].
  exists d. split; [reflexivity|].
  destruct (directory_bounded (example_node 1) example_ops d (example_node_ok 1) E) as (_ & H2 & _ & _ & _ & _ & _ & H8).
  split; [vm_compute in E; injection E as <-; vm_compute; reflexivity|].
  split; [exact H2|]. split; [vm_compute in E; injection E as <-; vm_compute; reflexivity|exact H8].
Defined.
