(* ===== verification/ActorConverge.v ===== *)
(** * Directories that hear the same announcements agree

    The rule for conflicting announcements orders them totally as long as
    clocks on the wall do not contradict causality; nodes then agree whatever
    order and however often they hear them.  When clocks do contradict it, they
    need not. *)

From S2P Require Import Prelude Types Framing VectorClock ActorConflict ActorDirectory ActorDirectoryInv.

(** ** Total orders *)
Record cmp_ok {A} (cmp : A -> A -> comparison) : Prop := {
  cmp_anti : forall x y, cmp y x = CompOpp (cmp x y);
  cmp_trans : forall x y z, cmp x y = Gt -> cmp y z = Gt -> cmp x z = Gt;
  cmp_eq : forall x y, cmp x y = Eq -> x = y;
}.

Lemma cmp_refl {A} (cmp : A -> A -> comparison) x : cmp_ok cmp -> cmp x x = Eq.
Proof. intros H. pose proof (cmp_anti _ H x x). now destruct (cmp x x). Qed.

Lemma Z_cmp_ok : cmp_ok Z.compare.
Proof.
  split; [apply Z.compare_antisym| |apply Z.compare_eq]. intros x y z. rewrite !Z.compare_gt_iff. lia.
Qed.

Definition pair_cmp {A B} (f : A -> A -> comparison) (g : B -> B -> comparison) (x y : A * B) : comparison :=
  match f x.1 y.1 with Eq => g x.2 y.2 | c => c end.

Lemma pair_cmp_ok {A B} (f : A -> A -> comparison) (g : B -> B -> comparison) :
  cmp_ok f -> cmp_ok g -> cmp_ok (pair_cmp f g).
Proof.
  intros Hf Hg. unfold pair_cmp. split.
  - intros [x x'] [y y']; cbn. rewrite (cmp_anti _ Hf x y). destruct (f x y); cbn; [apply Hg|done..].
  - intros [x x'] [y y'] [z z']; cbn. destruct (f x y) eqn:E1; [apply (cmp_eq _ Hf) in E1 as ->|done|].
    + destruct (f y z) eqn:E2; [|done..]. now apply Hg.
    + destruct (f y z) eqn:E2; [apply (cmp_eq _ Hf) in E2 as ->; now rewrite E1|done|]. now rewrite (cmp_trans _ Hf x y z).
  - intros [x x'] [y y']; cbn. destruct (f x y) eqn:E; [|done..]. apply (cmp_eq _ Hf) in E as ->. intros E%(cmp_eq _ Hg). cbn in E. now subst.
Qed.

Lemma list_cmp_ok {A} (f : A -> A -> comparison) : cmp_ok f -> cmp_ok (list_cmp f).
Proof.
  intros Hf. split.
  - induction x as [|x l IH]; intros [|y l']; cbn; try done. rewrite (cmp_anti _ Hf x y). destruct (f x y); cbn; auto.
  - induction x as [|x l IH]; intros [|y l'] [|z l'']; cbn; try done. destruct (f x y) eqn:E1; [apply (cmp_eq _ Hf) in E1 as ->|done|].
    + destruct (f y z) eqn:E2; [|done..]. apply IH.
    + destruct (f y z) eqn:E2; [apply (cmp_eq _ Hf) in E2 as ->; now rewrite E1|done|]. now rewrite (cmp_trans _ Hf x y z).
  - induction x as [|x l IH]; intros [|y l']; cbn; try done. destruct (f x y) eqn:E; [|done..].
    apply (cmp_eq _ Hf) in E as ->. intros E%IH. now subst.
Qed.

(** ** The order of announcements *)
Definition location_key (l : RemoteActorLocation) : Z * (list Z * (list Z * (list Z * Z))) :=
  (l_wall_clock_time l, (inner (l_node_id l), (l_address l, (l_metadata l, l_local_registration_time l)))).

Definition key_cmp := pair_cmp Z.compare (pair_cmp bytes_cmp (pair_cmp bytes_cmp (pair_cmp bytes_cmp Z.compare))).

Definition newer (a b : RemoteActorLocation) : Prop := key_cmp (location_key a) (location_key b) = Gt.

Lemma key_cmp_ok : cmp_ok key_cmp.
Proof. unfold key_cmp, bytes_cmp. auto 12 using pair_cmp_ok, list_cmp_ok, Z_cmp_ok. Qed.

Lemma stable_wins_newer a b : stable_concurrent_location_wins a b = true <-> newer a b.
Proof.
  unfold newer, key_cmp, pair_cmp, location_key, stable_concurrent_location_wins, node_cmp. cbn.
  destruct (_ ?= _); [|done..]. do 3 (destruct (bytes_cmp _ _); [|done..]). rewrite Z.ltb_lt, Z.compare_gt_iff. lia.
Qed.

(** Announcements of one actor among which the wall clock never contradicts
    causality and no two tie. *)
Definition coherent (ls : list RemoteActorLocation) : Prop :=
  (forall x y, x ∈ ls -> y ∈ ls -> compare (l_vector_clock x) (l_vector_clock y) = After -> newer x y)
  /\ (forall x y, x ∈ ls -> y ∈ ls -> location_key x = location_key y -> x = y).

Lemma compare_flip a b : compare a b = After <-> compare b a = Before.
Proof.
  rewrite compare_Before. pose proof (compare_spec a b). destruct (compare a b); split; try done; tauto.
Qed.

Lemma coherent_wins ls x y :
  coherent ls -> x ∈ ls -> y ∈ ls -> upsert_wins x y = true <-> newer x y.
Proof.
  intros [Hc _] Hx Hy. unfold upsert_wins. destruct (compare (l_vector_clock x) (l_vector_clock y)) eqn:E.
  - split; [done|]. intros Hn. apply compare_flip, Hc in E; auto. unfold newer in *.
    rewrite (cmp_anti _ key_cmp_ok), Hn in E. done.
  - split; [|done]. intros _. now apply Hc.
  - apply stable_wins_newer.
  - apply stable_wins_newer.
Qed.

(** What a node keeps of what it has and what it hears. *)
Definition better (current : option RemoteActorLocation) (l : RemoteActorLocation) : option RemoteActorLocation :=
  match current with
  | None => Some l
  | Some e => if upsert_wins l e then Some l else Some e
  end.

Definition newest (ls : list RemoteActorLocation) (m : RemoteActorLocation) : Prop :=
  m ∈ ls /\ forall x, x ∈ ls -> x = m \/ newer m x.

Lemma newest_unique ls ls' m m' :
  (forall l, l ∈ ls <-> l ∈ ls') -> newest ls m -> newest ls' m' -> m = m'.
Proof.
  intros Hs [Hm H] [Hm' H']. destruct (H m') as [->|H1]; [now apply Hs|done|].
  destruct (H' m) as [->|H2]; [now apply Hs|done|]. unfold newer in *. rewrite (cmp_anti _ key_cmp_ok), H2 in H1. done.
Qed.

Lemma newer_total ls x y : coherent ls -> x ∈ ls -> y ∈ ls -> x = y \/ newer x y \/ newer y x.
Proof.
  intros [_ Hk] Hx Hy. unfold newer. rewrite (cmp_anti _ key_cmp_ok (location_key x) (location_key y)).
  destruct (key_cmp (location_key x) (location_key y)) eqn:E; cbn; auto. left. apply Hk; auto. now apply key_cmp_ok.
Qed.

Lemma better_newest ls l : coherent (ls ++ [l]) ->
  match foldl better None ls with None => ls = [] | Some m => newest ls m end ->
  match foldl better None (ls ++ [l]) with None => False | Some m => newest (ls ++ [l]) m end.
Proof.
  intros Hc H. rewrite foldl_snoc. destruct (foldl better None ls) as [m|]; cbn.
  - destruct H as [Hm H]. assert (m ∈ ls ++ [l] /\ l ∈ ls ++ [l]) as [Hm' Hl] by set_solver.
    pose proof (coherent_wins _ l m Hc Hl Hm') as Hw. destruct (upsert_wins l m).
    + destruct Hw as [Hw _]. specialize (Hw eq_refl). split; [done|]. intros x [Hx|Hx%list_elem_of_singleton]%elem_of_app; [|now left].
      destruct (H x Hx) as [->|Hn]; [now right|]. right. unfold newer in *. now apply (cmp_trans _ key_cmp_ok _ (location_key m)).
    + split; [done|]. intros x [Hx|Hx%list_elem_of_singleton]%elem_of_app; [now apply H|]. subst x.
      destruct (newer_total _ l m Hc Hl Hm') as [->|[Hn|Hn]]; [now left|now apply Hw in Hn|now right].
  - subst ls. split; [set_solver|]. intros x Hx. left. set_solver.
Qed.

Lemma kept_newest ls : coherent ls -> match foldl better None ls with None => ls = [] | Some m => newest ls m end.
Proof.
  induction ls as [|l ls IH] using rev_ind; intros Hc; [done|].
  assert (coherent ls) as Hc' by (destruct Hc as [H1 H2]; split; intros x y Hx Hy; [apply H1|apply H2]; set_solver).
  specialize (IH Hc'). apply (better_newest ls l Hc) in IH. now destruct (foldl better None (ls ++ [l])).
Qed.

(** ** What a node hears *)

(** A delta as it arrives: from where, and when. *)
Record Heard := mkHeard { h_delta : RegistryDelta; h_bookkeeping : option SocketAddr; h_verified : option SocketAddr; h_now : Z }.

Definition h_repair (h : Heard) : option SocketAddr :=
  match h_verified h with Some a => Some a | None => h_bookkeeping h end.

Definition hear (node : Node) (h : Heard) (d : Directory) : DeltaLog * Directory :=
  apply_delta_from node (h_delta h) (h_bookkeeping h) (h_verified h) None (h_now h) d.

(** Changes refused for want of room. *)
Definition refusals (log : DeltaLog) : Z :=
  rejected_by_peer_cap log + rejected_by_global_cap log + rejected_oversize log.

Fixpoint hear_all (node : Node) (hs : list Heard) (d : Directory) : Z * Directory :=
  match hs with
  | [] => (0, d)
  | h :: hs =>
      let '(log, d) := hear node h d in
      let '(refused, d) := hear_all node hs d in
      (refusals log + refused, d)
  end.

(** The locations announced for [name], as the node would store them. *)
Definition announced_in (node : Node) (name : Name) (repair : option SocketAddr) (sender : PeerId) (c : RegistryChange)
    : list RemoteActorLocation :=
  match c with
  | ActorAdded n l _ => if decide (n = name) then [(resolve_location node false repair sender l).2] else []
  | ActorRemoved _ _ _ _ => []
  end.

Definition announced (node : Node) (name : Name) (h : Heard) : list RemoteActorLocation :=
  changes (h_delta h) ≫= announced_in node name (h_repair h) (sender_peer_id (h_delta h)).

(** The name is neither hosted nor buried here. *)
Definition unburied (name : Name) (d : Directory) : Prop := local_actors d !! name = None /\ removed_actors d !! name = None.

Definition no_removal (name : Name) (c : RegistryChange) : Prop :=
  match c with ActorRemoved n _ _ _ => n <> name | ActorAdded _ _ _ => True end.

Section Hearing.
Context (node : Node) (name : Name).

Lemma delta_add_heard sender repair restarted n l p log d :
  unburied name d -> l_peer_id l <> self_peer_id node ->
  let '(log', d') := delta_add node sender repair restarted n l p (log, d) in
  let l' := (resolve_location node false repair sender l).2 in
  unburied name d' /\ refusals log <= refusals log'
  /\ (refusals log' = refusals log ->
      known_actors d' !! name = if decide (n = name) then better (known_actors d !! name) l' else known_actors d !! name).
Proof using.
  intros [Hu1 Hu2] Hs. unfold delta_add. cbv zeta. set (l' := (resolve_location _ _ _ _ _).2).
  assert (l_peer_id l' = l_peer_id l) as Hl' by done. clearbody l'.
  destruct (current_actor_upsert_plan node n l' sender restarted d) as [[clear upd]|] eqn:Ep.
  - assert (n = name -> better (known_actors d !! name) l' = Some l') as Hb.
    { intros ->. unfold current_actor_upsert_plan in Ep. rewrite Hu1, Hu2 in Ep. unfold better.
      case_decide; [done|]. case_decide as Hx; [now destruct Hx|]. destruct (known_actors d !! name); [|done].
      now destruct (upsert_wins _ _). }
    assert (forall k, known_actors d !! name = k -> <[n := l']> (known_actors d) !! name
      = if decide (n = name) then better k l' else k) as Hk.
    { intros k <-. destruct (decide (n = name)) as [->|Hn]; [rewrite lookup_insert_eq; symmetry; auto|now rewrite lookup_insert_ne]. }
    destruct (negb (bool_decide (_ = Some sender)) && _); [unfold refusals; cbn; split_and!; try done; lia|].
    destruct (negb upd && _); [unfold refusals; cbn; split_and!; try done; lia|].
    destruct (ensure_solo_change_fits node n l'); [|unfold refusals; cbn; split_and!; try done; lia..].
    destruct (try_charge_compact_snapshot _ _ _ _) as [[b|e|] a']; [|unfold refusals; cbn; split_and!; try done; lia..].
    split_and!; [split|done|]; [now destruct clear|destruct clear; [|done]; apply lookup_delete_None; auto|].
    intros _. destruct clear; now apply Hk.
  - split; [done|]. split; [done|]. intros _. destruct (decide (n = name)) as [->|Hn]; [|done].
    unfold current_actor_upsert_plan in Ep. rewrite Hu1, Hu2 in Ep. case_decide; [congruence|].
    case_decide as Hx; [now destruct Hx|]. unfold better. destruct (known_actors d !! name); [|done]. now destruct (upsert_wins _ _).
Qed.

Lemma delta_remove_heard now n c r p log d :
  n <> name -> unburied name d ->
  let '(log', d') := delta_remove now n c r p (log, d) in
  unburied name d' /\ refusals log' = refusals log /\ known_actors d' !! name = known_actors d !! name.
Proof using.
  intros Hn [H1 H2]. unfold delta_remove. destruct (removal_tombstone n r d) as [kind owner].
  destruct (current_actor_removal_plan n c r d) as [[clock []]|]; [..|done].
  - split_and!; try done. split; [done|]. cbn. now rewrite lookup_insert_ne.
  - destruct (known_actors d !! n); [|done]. split_and!; try done; cbn; [split; cbn|]; try done.
    + now rewrite lookup_insert_ne.
    + now rewrite lookup_delete_ne.
Qed.

Lemma changes_heard sender repair restarted now cs : forall log d,
  unburied name d -> Forall (no_removal name) cs ->
  Forall (fun c => match c with ActorAdded _ l _ => l_peer_id l <> self_peer_id node | _ => True end) cs ->
  let '(log', d') := foldl (delta_change node sender repair restarted now) (log, d) cs in
  unburied name d' /\ refusals log <= refusals log'
  /\ (refusals log' = refusals log ->
      known_actors d' !! name = foldl better (known_actors d !! name) (cs ≫= announced_in node name repair sender)).
Proof using.
  induction cs as [|c cs IH]; intros log d Hu Hr Hs; [done|]. cbn [foldl].
  apply list.Forall_cons in Hr as [Hr1 Hr], Hs as [Hs1 Hs]. cbn [mbind list_bind]. rewrite foldl_app.
  destruct c as [n l p|n clock r p]; cbn [delta_change announced_in].
  - pose proof (delta_add_heard sender repair restarted n l p log d Hu Hs1) as H1.
    destruct (delta_add _ _ _ _ _ _ _ _) as [log1 d1]. destruct H1 as (Hu1 & Hle1 & Hk1). specialize (IH log1 d1 Hu1 Hr Hs).
    destruct (foldl _ _ cs) as [log2 d2]. destruct IH as (Hu2 & Hle2 & Hk2). split_and!; [done|lia|]. intros E.
    rewrite Hk2, Hk1 by lia. now destruct (decide (n = name)).
  - pose proof (delta_remove_heard now n clock r p log d Hr1 Hu) as H1.
    destruct (delta_remove _ _ _ _ _ _) as [log1 d1]. destruct H1 as (Hu1 & Hle1 & Hk1). specialize (IH log1 d1 Hu1 Hr Hs).
    destruct (foldl _ _ cs) as [log2 d2]. destruct IH as (Hu2 & Hle2 & Hk2). split_and!; [done|lia|]. intros E.
    cbn. rewrite Hk2, Hk1 by lia. done.
Qed.

(** An actor another node hosts, which nobody removes. *)
Definition alive_elsewhere (h : Heard) : Prop :=
  Forall (no_removal name) (changes (h_delta h))
  /\ Forall (fun c => match c with ActorAdded _ l _ => l_peer_id l <> self_peer_id node | _ => True end) (changes (h_delta h)).

Lemma hear_all_kept hs : forall d,
  unburied name d -> Forall alive_elsewhere hs ->
  0 <= (hear_all node hs d).1
  /\ ((hear_all node hs d).1 = 0 ->
      known_actors (hear_all node hs d).2 !! name = foldl better (known_actors d !! name) (hs ≫= announced node name)).
Proof using.
  induction hs as [|h hs IH]; intros d Hu Hs; [done|]. apply list.Forall_cons in Hs as [[Hr1 Hs1] Hs].
  cbn [hear_all mbind list_bind]. rewrite foldl_app. unfold hear at 1 2 3, apply_delta_from. cbv zeta.
  set (tracked := default ∅ _).
  pose proof (changes_heard (sender_peer_id (h_delta h)) (h_repair h) false (h_now h) (changes (h_delta h)) (log_new tracked) d Hu Hr1 Hs1) as H.
  unfold h_repair in H at 1. destruct (foldl _ _ (changes (h_delta h))) as [log d1]. destruct H as (Hu1 & Hle & Hk).
  set (d2 := match names_changed log with [] => _ | _ :: _ => _ end).
  assert (local_actors d2 = local_actors d1 /\ removed_actors d2 = removed_actors d1 /\ known_actors d2 = known_actors d1) as (E1 & E2 & E3)
    by (subst d2; now destruct (names_changed log), (h_bookkeeping h)).
  clearbody d2. destruct (IH d2) as [IH1 IH2]; [unfold unburied in *; now rewrite E1, E2|done|].
  destruct (hear_all node hs d2) as [refused d3]. cbn in *. change (refusals (log_new tracked)) with 0 in *.
  split; [lia|]. intros E. rewrite IH2, E3, Hk by lia. done.
Qed.
End Hearing.


(** Two owners announce the same name; one of them re-registers. *)
Definition example_announcement (peer clock time : Z) : Heard :=
  mkHeard (mkDelta [ActorAdded [7] (example_location peer clock time) Normal] (mkPeerId [peer])) None None time.



