(* ===== verification/ActorRemoval.v ===== *)
(** * Removed actors stay removed

    What an explicit unregistration promises, and what it takes to undo it;
    how dead peers' actors go, and what a forged identity does to that. *)

From S2P Require Import Prelude Types Framing VectorClock ActorConflict ActorDirectory ActorDirectoryInv ActorConverge.

(** The actor is gone from here by its owner's word, as of [t] or later. *)
Definition buried (name : Name) (t : RemovedActorTombstone) (d : Directory) : Prop :=
  local_actors d !! name = None /\ known_actors d !! name = None
  /\ exists t', removed_actors d !! name = Some t' /\ t_kind t' = ExplicitUnregister
     /\ leq (t_vector_clock t) (t_vector_clock t') /\ t_removed_at t <= t_removed_at t'.

(** An announcement that knows nothing newer: it is not causally after the
    removal, and if it is the host's own its component has not moved. *)
Definition outdated (t : RemovedActorTombstone) (sender : PeerId) (l : RemoteActorLocation) : Prop :=
  compare (l_vector_clock l) (t_vector_clock t) <> After
  /\ (l_peer_id l = sender -> get (l_vector_clock l) (l_node_id l) <= get (t_vector_clock t) (l_node_id l)).

Definition outdated_change (name : Name) (t : RemovedActorTombstone) (sender : PeerId) (c : RegistryChange) : Prop :=
  match c with
  | ActorAdded n l _ => n = name -> outdated t sender l
  | ActorRemoved n clock _ _ => clocks_ok clock
  end.

(** Operations that neither register the name here, nor carry news of it, nor
    come after the tombstone's retention period. *)
Definition without_news (node : Node) (name : Name) (t : RemovedActorTombstone) (op : DirectoryOp) : Prop :=
  match op with
  | OpRegister n _ _ _ | OpReplace n _ _ => n <> name
  | OpUnregister n now => True
  | OpDelta delta _ _ _ now => t_removed_at t <= now /\ Forall (outdated_change name t (sender_peer_id delta)) (changes delta)
  | OpSyncApply _ rl rk sender _ _ _ _ =>
      (forall l, rl !! name = Some l -> outdated t sender l) /\ (forall l, rk !! name = Some l -> outdated t sender l)
  | OpExpire now _ => saturating_sub now (t_removed_at t) < vector_clock_retention_period node
  | _ => True
  end.

Section Buried.
Context (node : Node) (name : Name) (t : RemovedActorTombstone).
#[local] Abbreviation gone := (buried name t).

Lemma outdated_refused t' sender restarted l :
  leq (t_vector_clock t) (t_vector_clock t') -> t_kind t' = ExplicitUnregister -> outdated t sender l ->
  passes_tombstone l sender t' restarted = false.
Proof using.
  intros Hle Hk [Ha Ho]. unfold passes_tombstone, owner_recovery_wins_tombstone.
  assert (compare (l_vector_clock l) (t_vector_clock t') <> After) as Ha'.
  { intros E. apply Ha. pose proof (compare_spec (l_vector_clock l) (t_vector_clock t')) as H1. rewrite E in H1.
    pose proof (compare_spec (l_vector_clock l) (t_vector_clock t)) as H2. destruct H1 as [H1 H1'].
    assert (leq (t_vector_clock t) (l_vector_clock l)) as H3 by (intros n; specialize (H1 n); specialize (Hle n); lia).
    assert (~ leq (l_vector_clock l) (t_vector_clock t)) as H4
      by (intros H; apply H1'; intros n; specialize (H n); specialize (Hle n); lia).
    destruct (compare (l_vector_clock l) (t_vector_clock t)); tauto. }
  assert ((if negb (bool_decide (l_peer_id l = sender)) then false
    else if get (t_vector_clock t') (l_node_id l) <? get (l_vector_clock l) (l_node_id l) then true
    else if get (l_vector_clock l) (l_node_id l) =? get (t_vector_clock t') (l_node_id l) then bool_decide (t_kind t' = PeerDeath)
    else restarted && bool_decide (t_kind t' = PeerDeath)) = false) as Hr.
  { case_bool_decide as Hs; [cbn|done]. specialize (Ho Hs). specialize (Hle (l_node_id l)).
    rewrite Hk, (bool_decide_eq_false_2 (ExplicitUnregister = PeerDeath)) by done.
    destruct (Z.ltb_spec (get (t_vector_clock t') (l_node_id l)) (get (l_vector_clock l) (l_node_id l))); [lia|].
    rewrite andb_false_r. now destruct (_ =? _). }
  cbv zeta. rewrite Hr. destruct (compare _ (t_vector_clock t')) eqn:E; try done.
Qed.

Lemma outdated_no_plan sender restarted l d :
  gone d -> outdated t sender l -> current_actor_upsert_plan node name l sender restarted d = None.
Proof using.
  intros (Hl & Hk & t' & Hr & Hkind & Hle & _) Ho. unfold current_actor_upsert_plan. rewrite Hl, Hr.
  case_decide; [done|]. case_decide; [done|]. now rewrite (outdated_refused t').
Qed.

Lemma gone_ext d d' :
  gone d -> local_actors d' !! name = local_actors d !! name -> known_actors d' !! name = known_actors d !! name ->
  removed_actors d' !! name = removed_actors d !! name -> gone d'.
Proof using. unfold buried. intros H -> -> ->. exact H. Qed.

Lemma gone_elsewhere n d d' :
  gone d -> n <> name -> (forall m, m <> n -> local_actors d' !! m = local_actors d !! m
    /\ known_actors d' !! m = known_actors d !! m /\ removed_actors d' !! m = removed_actors d !! m) -> gone d'.
Proof using. intros H Hn Hd. destruct (Hd name) as (H1 & H2 & H3); [done|]. now apply (gone_ext d d'). Qed.

Lemma gone_enqueue p c d : gone d -> gone (enqueue_change p c d).
Proof using. intros H. unfold enqueue_change. now destruct p. Qed.

(** Dropping a known actor leaves the buried one as it was. *)
Lemma gone_drop n d : gone d -> gone (drop_known n d).
Proof using.
  intros (H1 & H2 & H3). split; [done|]. split; [|done]. cbn. apply lookup_delete_None. now right.
Qed.

Lemma gone_delta_add sender repair restarted n l p log d :
  (n = name -> outdated t sender l) -> gone d -> gone (delta_add node sender repair restarted n l p (log, d)).2.
Proof using.
  intros Ho H. unfold delta_add. cbv zeta. set (l' := (resolve_location _ _ _ _ _).2).
  assert (n = name -> outdated t sender l') as Ho' by exact Ho. clearbody l'.
  destruct (current_actor_upsert_plan node n l' sender restarted d) as [[clear upd]|] eqn:Ep; [|done].
  assert (n <> name) as Hn by (intros ->; now rewrite outdated_no_plan in Ep by auto).
  destruct (_ && _); [done|]. destruct (_ && _); [done|]. destruct (ensure_solo_change_fits node n l'); [|done..].
  destruct (try_charge_compact_snapshot _ _ _ _) as [[b|e|] a']; [|done..].
  apply (gone_elsewhere n d); auto. intros m Hm. destruct clear; cbn; rewrite ?lookup_insert_ne, ?lookup_delete_ne by done; done.
Qed.

Lemma gone_delta_remove now n clock r p log d :
  clocks_ok clock -> t_removed_at t <= now -> gone d -> gone (delta_remove now n clock r p (log, d)).2.
Proof using.
  intros Hc Ht H. unfold delta_remove. destruct (decide (n = name)) as [->|Hn].
  - destruct H as (Hl & Hk & t' & Hr & Hkind & Hle & Hat). unfold removal_tombstone, current_actor_removal_plan.
    rewrite Hl, Hk, Hr. cbn -[tombstone_clock]. rewrite Hkind. cbn -[tombstone_clock]. case_decide as Hx; [now destruct Hx|].
    assert (forall c', tombstone_clock clock (Some (t_vector_clock t')) = Some c' -> leq (t_vector_clock t') c') as Hg.
    { intros c'. cbn. pose proof (compare_spec clock (t_vector_clock t')) as Hs.
      destruct (compare clock (t_vector_clock t')); try done.
      - intros [= <-]. apply Hs.
      - intros Hm k. rewrite (merge_get _ _ k c' Hc Hm). lia. }
    destruct (tombstone_clock clock _) as [c'|]; cbn; [|split; [done|]; split; [done|]; now exists t'].
    split; [done|]. split; [done|]. eexists. cbn. rewrite lookup_insert_eq. split; [reflexivity|]. cbn. split; [done|].
    split; [|done]. intros k. specialize (Hg c' eq_refl k). specialize (Hle k). lia.
  - destruct (removal_tombstone n r d) as [kind owner].
    destruct (current_actor_removal_plan n clock r d) as [[c' []]|]; [..|done].
    + apply (gone_elsewhere n d); auto. intros m Hm. cbn. now rewrite lookup_insert_ne.
    + destruct (known_actors d !! n); [|done]. apply (gone_elsewhere n d); auto. intros m Hm. cbn.
      now rewrite lookup_insert_ne, lookup_delete_ne by done.
Qed.

Lemma gone_delta delta bk v guard now d :
  t_removed_at t <= now -> Forall (outdated_change name t (sender_peer_id delta)) (changes delta) ->
  gone d -> gone (apply_delta_from node delta bk v guard now d).2.
Proof using.
  intros Ht Ho H. unfold apply_delta_from. destruct (match guard with Some _ => _ | None => _ end); [done|]. cbv zeta.
  generalize (match v with Some a => Some a | None => bk end) as repair.
  generalize (match guard with Some (addr, _) => match peers d !! addr with Some info => session_restart_confirmed info | None => false end | None => false end) as restarted.
  intros restarted repair. generalize (log_new (default ∅ (bk ≫= fun addr => peer_to_actors d !! addr))) as log. intros log.
  assert (gone (foldl (delta_change node (sender_peer_id delta) repair restarted now) (log, d) (changes delta)).2) as Hg.
  { revert log d H Ho. induction (changes delta) as [|c cs IH]; intros log d H Ho; [done|]. apply list.Forall_cons in Ho as [Ho1 Ho].
    cbn [foldl]. assert (gone (delta_change node (sender_peer_id delta) repair restarted now (log, d) c).2) as H1
      by (destruct c; [now apply gone_delta_add|now apply gone_delta_remove]).
    destruct (delta_change _ _ _ _ _ _ _) as [log1 d1]. now apply IH. }
  destruct (foldl _ _ (changes delta)) as [log1 d1]. cbn in *. now destruct bk, (names_changed log1).
Qed.

Lemma sync_candidates_outdated owned repair sender actors n l addr :
  (forall l, actors !! name = Some l -> outdated t sender l) ->
  (n, l, addr) ∈ sync_candidates node owned repair sender actors -> n = name -> outdated t sender l.
Proof using.
  intros Ho H ->. apply list_elem_of_omap in H as ([n l0] & Hin & E). apply elem_of_map_to_list in Hin.
  case_decide; [done|]. cbn in E. injection E as -> <- _. exact (Ho l0 Hin).
Qed.

Lemma updates_outdated owned repair sender rl rk u :
  (forall l, rl !! name = Some l -> outdated t sender l) -> (forall l, rk !! name = Some l -> outdated t sender l) ->
  u ∈ updates_to_apply node owned repair sender rl rk -> u.1.1 = name -> outdated t sender u.1.2.
Proof using.
  intros H1 H2. unfold updates_to_apply. rewrite sort_by_perm, elem_of_app. destruct u as [[n l] addr].
  intros [H|H]; [exact (sync_candidates_outdated _ _ _ _ _ _ _ H1 H)|exact (sync_candidates_outdated _ _ _ _ _ _ _ H2 H)].
Qed.

Lemma gone_sync_update sender repair restarted log d u :
  (u.1.1 = name -> outdated t sender u.1.2) -> gone d -> gone (sync_update node sender repair restarted (log, d) u).2.
Proof using.
  intros Ho H. destruct u as [[n l] addr]. cbn in Ho. unfold sync_update. cbv zeta.
  destruct (_ && _); [done|]. destruct (_ && _); [done|].
  destruct (current_actor_upsert_plan node n l sender restarted d) as [[clear upd]|] eqn:Ep; [|done].
  assert (n <> name) as Hn by (intros ->; now rewrite outdated_no_plan in Ep by auto).
  destruct (ensure_solo_change_fits node n l); [|done..]. destruct (try_charge_compact_snapshot _ _ _ _) as [[b|e|] a']; [|done..].
  apply (gone_elsewhere n d); auto. intros m Hm. destruct clear; cbn; rewrite ?lookup_insert_ne, ?lookup_delete_ne by done; done.
Qed.

Lemma gone_delete n f d : gone d -> gone (set_admission f (set_known (delete n) d)).
Proof using. exact (gone_drop n d). Qed.

Lemma gone_prune sender log d n : gone d -> gone (prune_omitted sender (log, d) n).2.
Proof using. intros H. unfold prune_omitted. repeat case_match; try done. now apply gone_delete. Qed.

Lemma gone_sync o rl rk sender addr v epoch restarted d :
  (forall l, rl !! name = Some l -> outdated t sender l) -> (forall l, rk !! name = Some l -> outdated t sender l) ->
  gone d -> gone (full_sync_apply node o rl rk sender addr v epoch restarted d).2.
Proof using.
  intros H1 H2 H. unfold full_sync_apply. cbv zeta. destruct (commit_refused o); [done|].
  destruct (match epoch with Some _ => _ | None => _ end); [done|].
  pose proof (updates_outdated (bool_decide (is_Some o)) (default addr v) sender rl rk) as Hu.
  generalize dependent (updates_to_apply node (bool_decide (is_Some o)) (default addr v) sender rl rk). intros us Hu.
  assert (forall acc, gone acc.2 -> gone (foldl (sync_update node sender (default addr v) restarted) acc us).2) as Hf.
  { assert (forall u, u ∈ us -> u.1.1 = name -> outdated t sender u.1.2) as Hu' by auto. clear Hu.
    induction us as [|u us IH]; intros [log d0] Hd; [done|]. cbn [foldl]. apply IH; [intros; apply Hu'; auto; now right|].
    apply gone_sync_update; [apply Hu'; left|done]. }
  specialize (Hf (mkSyncLog ∅ [] false false, d) H). destruct (foldl (sync_update _ _ _ _) _ us) as [log1 d1]. cbn in Hf.
  assert (forall l acc, gone acc.2 -> gone (foldl (prune_omitted sender) acc l).2) as Hp.
  { induction l as [|n l IH]; intros [log d0] Hd; [done|]. cbn [foldl]. apply IH. now apply gone_prune. }
  specialize (Hp (elements (default ∅ (peer_to_actors d1 !! addr) ∖ peer_actors log1))
    (log1, set_peer_to_actors <[addr := peer_actors log1]> d1) Hf).
  destruct (foldl (prune_omitted _) _ _) as [log2 d2]. cbn in *. now destruct (actors_changed log2 || _).
Qed.

Lemma gone_register n l p now d : n <> name -> gone d -> gone (register_actor_with_priority node n l p now d).2.
Proof using.
  intros Hn H. unfold register_actor_with_priority. destruct (shutdown d); [done|]. cbv zeta.
  set (d0 := match known_actors d !! n with Some _ => _ | None => _ end).
  assert (gone d0) as H0 by (subst d0; repeat case_match; auto using gone_drop). clearbody d0.
  case_decide; [done|]. set (l' := with_clock _ _). clearbody l'.
  destruct (ensure_solo_change_fits node n l'); [|done..]. destruct (try_charge_compact_snapshot _ _ _ _) as [[b|e|] a']; [|done..].
  apply gone_enqueue, (gone_elsewhere n d0); auto. intros m Hm. cbn. now rewrite lookup_insert_ne, lookup_delete_ne by done.
Qed.

Lemma gone_unregister n now d : gone d -> gone (unregister_actor node n now d).2.
Proof using.
  intros H. unfold unregister_actor. destruct (shutdown d); [done|]. destruct (decide (n = name)) as [->|Hn].
  - destruct H as (H1 & H2 & H3). rewrite H1. cbn. rewrite H2. done.
  - destruct (local_actors d !! n) as [l|]; cbn.
    + set (d1 := match known_actors d !! n with Some _ => _ | None => _ end). assert (gone d1) as Hd1.
      { subst d1. set (d2 := mark_routing_changed_for_actor n _).
        assert (gone d2) as H2 by (apply (gone_elsewhere n d); auto; intros m Hm; cbn; now rewrite lookup_delete_ne by done).
        repeat case_match; auto using gone_drop. }
      clearbody d1. apply gone_enqueue, (gone_elsewhere n d1); auto. intros m Hm. cbn. now rewrite lookup_insert_ne by done.
    + repeat case_match; auto using gone_drop.
Qed.

Lemma gone_replace n l now d : n <> name -> gone d -> gone (register_actor_replacing_known node n l now d).2.
Proof using.
  intros Hn H. unfold register_actor_replacing_known. destruct (known_actors d !! n); auto using gone_register, gone_drop.
Qed.

Lemma gone_expire now connected d :
  saturating_sub now (t_removed_at t) < vector_clock_retention_period node ->
  gone d -> gone (cleanup_stale_actors node now connected d).
Proof using.
  intros Ht H. unfold cleanup_stale_actors. cbv zeta. set (d' := foldl _ _ _). assert (gone d') as H'.
  { subst d'. generalize (filter (fun '(_, l) => actor_stale node now connected l = true) (map_to_list (known_actors d))).
    intros l. revert d H. induction l as [|c l IH]; intros d H; [done|]. cbn [foldl]. apply IH. unfold expire_actor.
    repeat case_match; auto using gone_delete. }
  clearbody d'. destruct H' as (H1 & H2 & t' & H3 & H4 & H5 & H6). split; [done|]. split; [done|].
  exists t'. split; [|done]. cbn. apply map_lookup_filter_Some. split; [done|]. unfold saturating_sub in *. lia.
Qed.

Lemma gone_reap addr now d d' : gone d -> reap_peer_actors node addr now d = Ok d' -> gone d'.
Proof using.
  unfold reap_peer_actors. destruct (peer_to_actors d !! addr) as [names|]; [|now intros H [= <-]].
  generalize (peers d !! addr) as info. generalize (elements names) as l. intros l info.
  assert (forall d0 d1, gone d0 -> reap_actors node addr info now l d0 = Ok d1 -> gone d1) as Hl.
  { induction l as [|n l IH]; intros d0 d1 H E; cbn in E; [now injection E as <-|]. unfold reap_actor in E.
    destruct (known_actors d0 !! n) as [loc|] eqn:Ek; cbn in E; [|eauto].
    assert (n <> name) as Hn by (intros ->; destruct H as (_ & H & _); congruence).
    destruct (actor_location_belongs_to_peer _ _ _ _) as [[]| |]; cbn in E; try done; [|eauto].
    eapply IH; [|exact E]. apply gone_enqueue, (gone_elsewhere n d0); auto. intros m Hm. cbn.
    now rewrite lookup_insert_ne, lookup_delete_ne by done. }
  intros H. destruct (reap_actors _ _ _ _ _ _) as [d1| |] eqn:E; cbn; try done. intros [= <-]. exact (Hl d d1 H E).
Qed.

Lemma gone_rekey addr new conn d d' : gone d -> rekey_address node addr new conn d = Ok d' -> gone d'.
Proof using.
  intros H. unfold rekey_address. destruct (peers d !! addr) as [info|]; [|now intros [= <-]]. cbv zeta.
  generalize (elements (default ∅ (peer_to_actors d !! addr))) as l. intros l. set (d0 := set_admission _ _).
  assert (gone d0) as H0 by exact H. clearbody d0. destruct (pi_node_id info) as [old|]; [|now intros [= <-]].
  revert d0 H0. induction l as [|n l IH]; intros d0 H0; cbn; [now intros [= <-]|].
  destruct (known_actors d0 !! n); [|now apply IH]. destruct (displaced_location _ _ _ _ _) as [[]| |]; cbn; try done;
    apply IH; [|done]. now apply (gone_delete n (fun a => a) d0).
Qed.

Lemma gone_evict addr d d' : gone d -> evict_peer node addr d = Ok d' -> gone d'.
Proof using.
  intros H. unfold evict_peer. destruct (match _ with Some n => _ | None => _ end) as [peer| |]; cbn; try done. intros [= <-].
  generalize (elements (default ∅ (peer_to_actors d !! addr))) as l. intros l. set (d0 := set_gossip _ _ _ _ _ _ _).
  assert (gone d0) as H0 by exact H. clearbody d0. clear H. revert d0 H0.
  induction l as [|n l IH]; intros d0 H0; cbn [foldl]; [done|]. apply IH. unfold evict_actor. destruct peer; [|done]. cbv zeta.
  assert (forall f, gone (set_admission f (set_known (delete n) d0))) as Hd by auto using gone_delete.
  repeat case_match; try done; try apply Hd.
Qed.

Lemma gone_run_op op d d' : without_news node name t op -> gone d -> run_op node op d = Ok d' -> gone d'.
Proof using.
  intros Ho H E. destruct op; cbn in Ho, E; try injection E as <-;
    eauto using gone_register, gone_replace, gone_unregister, gone_expire, gone_reap, gone_rekey, gone_evict.
  - destruct Ho. now apply gone_delta.
  - unfold arm_sequence_reset_for_new_session. repeat case_match; done.
  - unfold full_sync_gate. repeat case_match; done.
  - destruct Ho. now apply gone_sync.
Qed.

Lemma gone_run ops : forall d d', Forall (without_news node name t) ops -> gone d -> run_ops node ops d = Ok d' -> gone d'.
Proof using.
  induction ops as [|op ops IH]; intros d d' Ho H E; cbn in E; [now injection E as <-|]. apply list.Forall_cons in Ho as [Ho1 Ho].
  destruct (run_op node op d) as [d1| |] eqn:E1; cbn in E; try done. eauto using gone_run_op.
Qed.
End Buried.

(** Unregistering a hosted actor buries it. *)
Lemma unregister_buries node name l now d :
  directory_ok node d -> shutdown d = false -> local_actors d !! name = Some l ->
  buried name (mkTombstone (incremented (node_of (self_peer_id node)) (l_vector_clock l)) now ExplicitUnregister (Some (node_of (self_peer_id node))))
    (unregister_actor node name now d).2.
Proof.
  intros H Hs Hl. pose proof (tb_disjoint _ _ _ _ H name ltac:(now rewrite Hl)) as Hk. unfold unregister_actor. rewrite Hs, Hl. cbn.
  rewrite Hk. cbn. apply gone_enqueue. split; [cbn; apply lookup_delete_eq|]. split; [done|]. eexists. cbn.
  rewrite lookup_insert_eq. split; [reflexivity|]. cbn. split; [done|]. split; [|lia]. intros k. lia.
Qed.



(** Peer 2 replays the registration it knew of, in a delta and in a full sync,
    then reports a removal, and is reaped; the name is still gone. *)
Definition example_registered : Directory :=
  match run_ops (example_node 1) [OpRegister [1] (example_location 1 0 0) Immediate 5] directory_new with
  | Ok d => d
  | _ => directory_new
  end.

Definition example_replays : list DirectoryOp :=
  [OpDelta (mkDelta [ActorAdded [1] (example_location 1 1 5) Normal; ActorAdded [2] (example_location 2 1 6) Normal;
                     ActorRemoved [1] {[mkPublicKey [2] := 3]} (mkPublicKey [2]) Normal] (mkPeerId [2]))
     (Some (SocketAddrV4 0 80)) None None 9;
   OpSyncApply None ∅ {[ [1] := example_location 1 1 5 ]} (mkPeerId [3]) (SocketAddrV4 3 3) None None false;
   OpExpire 90 (fun _ => true); OpReap (SocketAddrV4 0 80) 91; OpUnregister [1] 92].

Lemma example_registered_ok : directory_ok (example_node 1) example_registered.
Proof.
  apply (run_ops_ok (example_node 1) [OpRegister [1] (example_location 1 0 0) Immediate 5] directory_new);
    [apply example_node_ok|apply directory_new_ok, example_node_ok|vm_compute; reflexivity].
Qed.

