(* ===== verification/ActorReap.v ===== *)
(** * Dead peers

    What reaping a dead peer does to the actors that were reached through it,
    and what a forged identity among them does to the reaping. *)

From S2P Require Import Prelude Types Framing VectorClock ActorConflict ActorDirectory ActorDirectoryInv.

(** What the reap finds in the directory under a name. *)
Definition reap_verdict (node : Node) (addr : SocketAddr) (info : option PeerInfo) (d : Directory) (n : Name)
    : option (RemoteActorLocation * Result bool) :=
  l ← known_actors d !! n; Some (l, actor_location_belongs_to_peer node l addr info).

Definition reaped_tombstone (node : Node) (now : Z) (l : RemoteActorLocation) : RemovedActorTombstone :=
  mkTombstone (incremented (node_of (self_peer_id node)) (l_vector_clock l)) now PeerDeath (Some (l_node_id l)).

(** The entry of [n] after a reap that found the verdict [v]. *)
Definition reaped_entry (node : Node) (now : Z) (v : option (RemoteActorLocation * Result bool)) (d d' : Directory) (n : Name) : Prop :=
  match v with
  | Some (l, Ok true) => known_actors d' !! n = None /\ removed_actors d' !! n = Some (reaped_tombstone node now l)
  | _ => known_actors d' !! n = known_actors d !! n /\ removed_actors d' !! n = removed_actors d !! n
  end.

(** What a reap leaves alone: the hosted actors, and the revision that tells
    subscribers that routing changed. *)
Definition reap_frame (d d' : Directory) : Prop :=
  local_actors d' = local_actors d /\ routing_revision d' = routing_revision d /\ peers d' = peers d.

Lemma reap_frame_trans d1 d2 d3 : reap_frame d1 d2 -> reap_frame d2 d3 -> reap_frame d1 d3.
Proof. unfold reap_frame. intros (-> & -> & ->) (-> & -> & ->). done. Qed.

Section Reap.
Context (node : Node) (addr : SocketAddr) (info : option PeerInfo) (now : Z).
#[local] Abbreviation verdict := (reap_verdict node addr info).

Lemma belongs_no_err l e : actor_location_belongs_to_peer node l addr info <> Err e.
Proof using.
  unfold actor_location_belongs_to_peer, to_node_id. destruct (info ≫= pi_node_id); [|done]. case_decide; [done|].
  now destruct (valid_key _ _).
Qed.

(** One actor: it panics, or only its own entry moves. *)
Lemma reap_actor_spec d n :
  match reap_actor node addr info now d n with
  | Ok d' => reaped_entry node now (verdict d n) d d' n /\ reap_frame d d' /\ (forall l, verdict d n <> Some (l, Panic))
             /\ forall m, m <> n -> known_actors d' !! m = known_actors d !! m /\ removed_actors d' !! m = removed_actors d !! m
  | Err _ => False
  | Panic => exists l, verdict d n = Some (l, Panic)
  end.
Proof using.
  unfold reap_actor, reap_verdict. destruct (known_actors d !! n) as [l|] eqn:Ek; cbn; [|now rewrite Ek].
  destruct (actor_location_belongs_to_peer node l addr info) as [[]|e|] eqn:Eb; cbn; [| |now apply belongs_no_err in Eb|eauto].
  2: { now rewrite Ek. }
  unfold enqueue_change. destruct (l_priority l); cbn; (split; [split; [apply lookup_delete_eq|apply lookup_insert_eq]|]);
    (split; [done|]; split; [done|]; intros m Hm; now rewrite lookup_delete_ne, lookup_insert_ne by done).
Qed.

Lemma reap_actors_spec names : forall d, NoDup names ->
  match reap_actors node addr info now names d with
  | Ok d' => reap_frame d d' /\ (forall n l, n ∈ names -> verdict d n <> Some (l, Panic))
             /\ (forall n, n ∈ names -> reaped_entry node now (verdict d n) d d' n)
             /\ forall m, m ∉ names -> known_actors d' !! m = known_actors d !! m /\ removed_actors d' !! m = removed_actors d !! m
  | Err _ => False
  | Panic => exists n l, n ∈ names /\ verdict d n = Some (l, Panic)
  end.
Proof using.
  induction names as [|n names IH]; intros d Hd; cbn.
  { split; [done|]. split; [intros n l H; now apply not_elem_of_nil in H|].
    split; [intros n H; now apply not_elem_of_nil in H|done]. }
  apply list.NoDup_cons in Hd as [Hn Hd]. pose proof (reap_actor_spec d n) as H1.
  destruct (reap_actor node addr info now d n) as [d1|e|]; cbn; [|done|].
  2: { destruct H1 as [l H1]. exists n, l. split; [left|done]. }
  destruct H1 as (He & Hf & Hp & Ho). specialize (IH d1 Hd).
  assert (forall m, m <> n -> verdict d1 m = verdict d m) as Hv
    by (intros m Hm; unfold reap_verdict; now rewrite (proj1 (Ho m Hm))).
  assert (forall m, m ∈ names -> m <> n) as Hne by (intros m Hm ->; contradiction).
  destruct (reap_actors node addr info now names d1) as [d2|e|]; [|done|].
  2: { destruct IH as (m & l & Hm & E). exists m, l. split; [now right|]. rewrite <- Hv; auto. }
  destruct IH as (If & Ip & Ie & Io). split; [eauto using reap_frame_trans|]. split_and!.
  - intros m l [->|Hm]%elem_of_cons; [apply Hp|]. rewrite <- Hv by auto. now apply Ip.
  - intros m [->|Hm]%elem_of_cons.
    + destruct (Io n Hn) as [E1 E2]. unfold reaped_entry in *. now rewrite E1, E2.
    + specialize (Ie m Hm). destruct (Ho m (Hne m Hm)) as [E1 E2]. rewrite Hv in Ie by auto.
      unfold reaped_entry in *. now rewrite E1, E2 in Ie.
  - intros m Hm. apply not_elem_of_cons in Hm as [Hm1 Hm2]. destruct (Io m Hm2), (Ho m Hm1). split; congruence.
Qed.
End Reap.


(** Peer 2 announces one actor. *)
Definition example_announced (l : RemoteActorLocation) : Directory :=
  let d := set_peer (SocketAddrV4 0 80) (mkPeerInfo (Some (mkPublicKey [2])) 0 None None None 0 false) 1 directory_new in
  match run_ops (example_node 1)
    [OpDelta (mkDelta [ActorAdded [2] l Normal] (mkPeerId [2])) (Some (SocketAddrV4 0 80)) None None 6] d with
  | Ok d => d
  | _ => d
  end.

(** An identity that is no key, with the node id of a third node. *)
Definition forged_location : RemoteActorLocation :=
  mkLocation [80] (mkPeerId [99]) (mkPublicKey [3]) {[mkPublicKey [3] := 1]} 6 Normal 6 [].

