(* ===== verification/Correlation.v ===== *)
(** * The correlation tracker

    [CorrelationTracker] of src/src/connection_pool/correlation.rs: 8192 slots in
    which asks wait for their answers, without locks on the way of an answer.
    Every operation is a sequence of atomic actions on one slot, interleaved with
    those of any other task; a task is its program counter.  Atomics are
    sequentially consistent here: every access to a slot's [id] and [response]
    made under the transient state [SLOT_WRITING] is ordered by the acquire and
    release operations on the state. *)

From S2P Require Import Prelude Types.

Definition PENDING_RESPONSES_SIZE : Z := 8192.
Definition PENDING_RESPONSES_MASK : Z := PENDING_RESPONSES_SIZE - 1.

Inductive SlotState := SLOT_EMPTY | SLOT_WAITING | SLOT_WRITING | SLOT_READY.

#[global] Instance SlotState_eq_dec : EqDecision SlotState.
Proof. solve_decision. Defined.

Inductive CorrelationOutcome :=
  | Response (bytes : list Z)
  | Attributed (bytes : list Z) (peer : PeerId)
  | Nack (reason : AskNackReason).

#[global] Instance CorrelationOutcome_eq_dec : EqDecision CorrelationOutcome.
Proof. solve_decision. Defined.

Definition into_result (o : CorrelationOutcome) : Result (list Z) :=
  match o with
  | Response bytes | Attributed bytes _ => Ok bytes
  | Nack reason => Err (AskNacked reason)
  end.

Definition into_attributed_result (o : CorrelationOutcome) : Result (PeerId * list Z) :=
  match o with
  | Attributed bytes peer => Ok (peer, bytes)
  | Response _ => Err AuthenticationFailed
  | Nack reason => Err (AskNacked reason)
  end.

(** Tasks, which are also what a waker wakes. *)
#[global] Abbreviation Tid := Z.

(** [PendingResponseSlot].  An uninitialised response is [None]. *)
Record Slot := mkSlot {
  state : SlotState;
  s_id : Z;
  response : option CorrelationOutcome;
  waker : option Tid;
  register_lock : bool;
}.

Definition new_slot : Slot := mkSlot SLOT_EMPTY 0 None None false.

Definition set_state st (sl : Slot) := mkSlot st (s_id sl) (response sl) (waker sl) (register_lock sl).
Definition set_id i (sl : Slot) := mkSlot (state sl) i (response sl) (waker sl) (register_lock sl).
Definition set_response r (sl : Slot) := mkSlot (state sl) (s_id sl) r (waker sl) (register_lock sl).
Definition set_waker w (sl : Slot) := mkSlot (state sl) (s_id sl) (response sl) w (register_lock sl).
Definition set_lock l (sl : Slot) := mkSlot (state sl) (s_id sl) (response sl) (waker sl) l.

(** The slots not in [pending] are as [CorrelationTracker::new] made them. *)
Record CorrelationTracker := mkTracker {
  next_id : Z;
  pending : gmap Z Slot;
}.

Definition tracker_new : CorrelationTracker := mkTracker 1 ∅.
Definition slot_index (correlation_id : Z) : Z := Z.land correlation_id PENDING_RESPONSES_MASK.
Definition slot (tr : CorrelationTracker) (s : Z) : Slot := default new_slot (pending tr !! s).

(** ** Program counters *)
Inductive Ret :=
  | Allocated (id : Z)
  | NoFreeSlots
  | Completed (id : Z) (published : bool)
  | Cancelled
  | Waited (id : Z) (r : Result CorrelationOutcome).

(** The three places where a waiter tries to take the answer: before and after
    it registered its waker, and after its deadline. *)
Inductive Attempt := BeforeRegister | AfterRegister | AfterDeadline.

Inductive Pc :=
  (* allocate *)
  | AllocNext (sweeps : Z)
  | AllocClaim (sweeps : Z) (id : Z)
  | AllocGate (id : Z)
  | AllocWake (id : Z)
  | AllocStoreId (id : Z)
  | AllocUngate (id : Z)
  | AllocPublish (id : Z)
  (* complete, complete_attributed, complete_nack; [None] is an absent response *)
  | CompleteClaim (id : Z) (o : option CorrelationOutcome)
  | CompleteVerify (id : Z) (o : option CorrelationOutcome)
  | CompleteUnclaim (id : Z)
  | CompleteEmpty (id : Z)
  | CompleteWrite (id : Z) (o : CorrelationOutcome)
  | CompleteReady (id : Z)
  | CompleteWake (id : Z) (published : bool)
  (* cancel, and what the caller returns after it *)
  | CancelLoad (id : Z) (r : Ret)
  | CancelCas (ready : bool) (id : Z) (r : Ret)
  | CancelVerify (ready : bool) (id : Z) (r : Ret)
  | CancelRestore (ready : bool) (id : Z) (r : Ret)
  | CancelDrop (id : Z) (r : Ret)
  | CancelEmpty (id : Z) (r : Ret)
  | CancelWake (id : Z) (r : Ret)
  (* cancel_all, at a slot *)
  | AllLoad (s : Z)
  | AllCasWaiting (s : Z)
  | AllCasReady (s : Z)
  | AllDrop (s : Z)
  | AllEmpty (s : Z)
  | AllWake (s : Z)
  (* wait_for_response ([timed]) and wait_for_response_no_timeout_outcome *)
  | Take (timed : bool) (a : Attempt) (id : Z)
  | TakeVerify (id : Z)
  | TakeRestore (id : Z)
  | TakeWake (id : Z)
  | TakeRead (id : Z)
  | TakeRelease (id : Z) (o : CorrelationOutcome)
  | LoadState (timed : bool) (a : Attempt) (id : Z)
  | RegGate (timed : bool) (id : Z)
  | RegCheck (timed : bool) (id : Z)
  | RegFail (id : Z)
  | RegStore (timed : bool) (id : Z)
  | RegUnlock (timed : bool) (id : Z)
  | Parked (timed : bool) (id : Z)
  | DeadlineCas (id : Z)
  | DeadlineVerify (id : Z)
  | DeadlineRestore (id : Z)
  | DeadlineEmpty (id : Z)
  | Done (r : Ret)
  (* an uninitialised response was read or dropped *)
  | Undefined.

(** What happens to answers, and which tasks are woken. *)
Inductive Event :=
  | Published (id : Z) (o : CorrelationOutcome)
  | Taken (id : Z) (o : CorrelationOutcome)
  | Dropped (id : Z) (o : CorrelationOutcome)
  | Woken (t : Tid).

#[global] Instance Event_eq_dec : EqDecision Event.
Proof. solve_decision. Defined.

(** ** One atomic action

    [wake] takes the waker out and wakes its task.  A compare-and-swap of the
    state is [cas]. *)
Definition wake (sl : Slot) : list Event := match waker sl with Some t => [Woken t] | None => [] end.

Definition cas (old new : SlotState) (sl : Slot) : option Slot :=
  if decide (state sl = old) then Some (set_state new sl) else None.

(** What a parked waiter does next: it is polled, its deadline passes, or its
    future is dropped, and with it the guard of the slot. *)
Inductive Choice := Poll | Expire | DropFuture.

Definition exec_alloc (sl : Slot) (pc : Pc) : option (Slot * Pc * list Event) :=
  match pc with
  | AllocClaim sweeps id =>
      match cas SLOT_EMPTY SLOT_WRITING sl with
      | Some sl => Some (sl, AllocGate id, [])
      | None => Some (sl, AllocNext sweeps, [])
      end
  | AllocGate id => if register_lock sl then None else Some (set_lock true sl, AllocWake id, [])
  | AllocWake id => Some (set_waker None sl, AllocStoreId id, wake sl)
  | AllocStoreId id => Some (set_id id sl, AllocUngate id, [])
  | AllocUngate id => Some (set_lock false sl, AllocPublish id, [])
  | AllocPublish id => Some (set_state SLOT_WAITING sl, Done (Allocated id), [])
  | _ => None
  end.

Definition exec_complete (sl : Slot) (pc : Pc) : option (Slot * Pc * list Event) :=
  match pc with
  | CompleteClaim id o =>
      match cas SLOT_WAITING SLOT_WRITING sl with
      | Some sl => Some (sl, CompleteVerify id o, [])
      | None => Some (sl, Done (Completed id false), [])
      end
  | CompleteVerify id o =>
      if decide (s_id sl = id)
      then Some (sl, match o with Some o => CompleteWrite id o | None => CompleteEmpty id end, [])
      else Some (sl, CompleteUnclaim id, [])
  | CompleteUnclaim id => Some (set_state SLOT_WAITING sl, Done (Completed id false), [])
  | CompleteEmpty id => Some (set_state SLOT_EMPTY sl, CompleteWake id false, [])
  | CompleteWrite id o => Some (set_response (Some o) sl, CompleteReady id, [Published id o])
  | CompleteReady id => Some (set_state SLOT_READY sl, CompleteWake id true, [])
  | CompleteWake id published => Some (set_waker None sl, Done (Completed id published), wake sl)
  | _ => None
  end.

(** Dropping the response of the slot's request. *)
Definition drop_response (sl : Slot) (pc : Pc) : Slot * Pc * list Event :=
  match response sl with
  | Some o => (set_response None sl, pc, [Dropped (s_id sl) o])
  | None => (sl, Undefined, [])
  end.

Definition exec_cancel (sl : Slot) (pc : Pc) : option (Slot * Pc * list Event) :=
  match pc with
  | CancelLoad id r =>
      match state sl with
      | SLOT_WAITING => Some (sl, CancelCas false id r, [])
      | SLOT_READY => Some (sl, CancelCas true id r, [])
      | SLOT_WRITING => Some (sl, CancelLoad id r, [])
      | SLOT_EMPTY => Some (sl, Done r, [])
      end
  | CancelCas ready id r =>
      match cas (if ready then SLOT_READY else SLOT_WAITING) SLOT_WRITING sl with
      | Some sl => Some (sl, CancelVerify ready id r, [])
      | None => Some (sl, CancelLoad id r, [])
      end
  | CancelVerify ready id r =>
      if decide (s_id sl = id) then Some (sl, if ready then CancelDrop id r else CancelEmpty id r, [])
      else Some (sl, CancelRestore ready id r, [])
  | CancelRestore ready id r => Some (set_state (if ready then SLOT_READY else SLOT_WAITING) sl, Done r, [])
  | CancelDrop id r => Some (drop_response sl (CancelEmpty id r))
  | CancelEmpty id r => Some (set_state SLOT_EMPTY sl, CancelWake id r, [])
  | CancelWake id r => Some (set_waker None sl, Done r, wake sl)
  | _ => None
  end.

Definition all_next (s : Z) : Pc := if s + 1 <? PENDING_RESPONSES_SIZE then AllLoad (s + 1) else Done Cancelled.

Definition exec_cancel_all (sl : Slot) (pc : Pc) : option (Slot * Pc * list Event) :=
  match pc with
  | AllLoad s =>
      match state sl with
      | SLOT_WAITING => Some (sl, AllCasWaiting s, [])
      | SLOT_READY => Some (sl, AllCasReady s, [])
      | SLOT_WRITING => Some (sl, AllLoad s, [])
      | SLOT_EMPTY => Some (sl, all_next s, [])
      end
  | AllCasWaiting s =>
      match cas SLOT_WAITING SLOT_EMPTY sl with
      | Some sl => Some (sl, AllWake s, [])
      | None => Some (sl, AllLoad s, [])
      end
  | AllCasReady s =>
      match cas SLOT_READY SLOT_WRITING sl with
      | Some sl => Some (sl, AllDrop s, [])
      | None => Some (sl, AllLoad s, [])
      end
  | AllDrop s => Some (drop_response sl (AllEmpty s))
  | AllEmpty s => Some (set_state SLOT_EMPTY sl, AllWake s, [])
  | AllWake s => Some (set_waker None sl, all_next s, wake sl)
  | _ => None
  end.

Definition dropped (id : Z) : Pc := Done (Waited id (Err ConnectionDropped)).
Definition timed_out (id : Z) : Pc := Done (Waited id (Err Timeout)).

(** [try_take_ready]. *)
Definition exec_take (sl : Slot) (pc : Pc) : option (Slot * Pc * list Event) :=
  match pc with
  | Take timed a id =>
      match cas SLOT_READY SLOT_WRITING sl with
      | Some sl => Some (sl, TakeVerify id, [])
      | None => Some (sl, LoadState timed a id, [])
      end
  | TakeVerify id => if decide (s_id sl = id) then Some (sl, TakeRead id, []) else Some (sl, TakeRestore id, [])
  | TakeRestore id => Some (set_state SLOT_READY sl, TakeWake id, [])
  | TakeWake id => Some (set_waker None sl, dropped id, wake sl)
  | TakeRead id =>
      match response sl with
      | Some o => Some (set_response None sl, TakeRelease id o, [Taken id o])
      | None => Some (sl, Undefined, [])
      end
  | TakeRelease id o => Some (set_state SLOT_EMPTY sl, Done (Waited id (Ok o)), [])
  | _ => None
  end.

Definition exec_wait (c : Choice) (t : Tid) (sl : Slot) (pc : Pc) : option (Slot * Pc * list Event) :=
  match pc with
  | LoadState timed a id =>
      match a, state sl with
      | _, SLOT_EMPTY => Some (sl, dropped id, [])
      | BeforeRegister, _ => Some (sl, RegGate timed id, [])
      | AfterRegister, _ => Some (sl, Parked timed id, [])
      | AfterDeadline, SLOT_WRITING => Some (sl, Take false BeforeRegister id, [])
      | AfterDeadline, _ => Some (sl, timed_out id, [])
      end
  | RegGate timed id => if register_lock sl then None else Some (set_lock true sl, RegCheck timed id, [])
  | RegCheck timed id => Some (sl, if decide (s_id sl = id) then RegStore timed id else RegFail id, [])
  | RegFail id => Some (set_lock false sl, dropped id, [])
  | RegStore timed id => Some (set_waker (Some t) sl, RegUnlock timed id, [])
  | RegUnlock timed id => Some (set_lock false sl, Take timed AfterRegister id, [])
  | Parked timed id =>
      match c with
      | Poll => Some (sl, Take timed BeforeRegister id, [])
      | Expire => if timed then Some (sl, DeadlineCas id, []) else None
      | DropFuture => Some (sl, CancelLoad id Cancelled, [])
      end
  | DeadlineCas id =>
      match cas SLOT_WAITING SLOT_WRITING sl with
      | Some sl => Some (sl, DeadlineVerify id, [])
      | None => Some (sl, Take true AfterDeadline id, [])
      end
  | DeadlineVerify id => Some (sl, if decide (s_id sl = id) then DeadlineEmpty id else DeadlineRestore id, [])
  | DeadlineRestore id => Some (set_state SLOT_WAITING sl, Take true AfterDeadline id, [])
  | DeadlineEmpty id => Some (set_state SLOT_EMPTY sl, timed_out id, [])
  | _ => None
  end.

(** The slot a task is about to act on. *)
Definition pc_slot (pc : Pc) : Z :=
  match pc with
  | AllLoad s | AllCasWaiting s | AllCasReady s | AllDrop s | AllEmpty s | AllWake s => s
  | AllocClaim _ id | AllocGate id | AllocWake id | AllocStoreId id | AllocUngate id | AllocPublish id
  | CompleteClaim id _ | CompleteVerify id _ | CompleteUnclaim id | CompleteEmpty id | CompleteWrite id _
  | CompleteReady id | CompleteWake id _ | CancelLoad id _ | CancelCas _ id _ | CancelVerify _ id _
  | CancelRestore _ id _ | CancelDrop id _ | CancelEmpty id _ | CancelWake id _ | Take _ _ id | TakeVerify id
  | TakeRestore id | TakeWake id | TakeRead id | TakeRelease id _ | LoadState _ _ id | RegGate _ id
  | RegCheck _ id | RegFail id | RegStore _ id | RegUnlock _ id | Parked _ id | DeadlineCas id
  | DeadlineVerify id | DeadlineRestore id | DeadlineEmpty id => slot_index id
  | AllocNext _ | Done _ | Undefined => 0
  end.

Definition exec_slot (c : Choice) (t : Tid) (sl : Slot) (pc : Pc) : option (Slot * Pc * list Event) :=
  match pc with
  | AllocClaim _ _ | AllocGate _ | AllocWake _ | AllocStoreId _ | AllocUngate _ | AllocPublish _ => exec_alloc sl pc
  | CompleteClaim _ _ | CompleteVerify _ _ | CompleteUnclaim _ | CompleteEmpty _ | CompleteWrite _ _
  | CompleteReady _ | CompleteWake _ _ => exec_complete sl pc
  | CancelLoad _ _ | CancelCas _ _ _ | CancelVerify _ _ _ | CancelRestore _ _ _ | CancelDrop _ _ | CancelEmpty _ _
  | CancelWake _ _ => exec_cancel sl pc
  | AllLoad _ | AllCasWaiting _ | AllCasReady _ | AllDrop _ | AllEmpty _ | AllWake _ => exec_cancel_all sl pc
  | Take _ _ _ | TakeVerify _ | TakeRestore _ | TakeWake _ | TakeRead _ | TakeRelease _ _ => exec_take sl pc
  | AllocNext _ | Done _ | Undefined => None
  | _ => exec_wait c t sl pc
  end.

Definition exec (c : Choice) (t : Tid) (tr : CorrelationTracker) (pc : Pc)
    : option (CorrelationTracker * Pc * list Event) :=
  match pc with
  | AllocNext sweeps =>
      if sweeps <=? 0 then Some (tr, Done NoFreeSlots, [])
      else
        let id := next_id tr in
        Some (mkTracker (wrapping_add u32_max id 1) (pending tr),
              if id =? 0 then AllocNext (sweeps - 1) else AllocClaim (sweeps - 1) id, [])
  | _ =>
      match exec_slot c t (slot tr (pc_slot pc)) pc with
      | Some (sl, pc', es) => Some (mkTracker (next_id tr) (<[pc_slot pc := sl]> (pending tr)), pc', es)
      | None => None
      end
  end.

(** ** Where the operations start *)
Definition allocate : Pc := AllocNext PENDING_RESPONSES_SIZE.
Definition complete_attributed (id : Z) (response : option (list Z)) (completed_by : option PeerId) : Pc :=
  CompleteClaim id
    (match response with
     | Some bytes => Some (match completed_by with Some peer => Attributed bytes peer | None => Response bytes end)
     | None => None
     end).
Definition complete (id : Z) (response : option (list Z)) : Pc := complete_attributed id response None.
Definition complete_nack (id : Z) (reason : AskNackReason) : Pc := CompleteClaim id (Some (Nack reason)).
Definition cancel (id : Z) : Pc := CancelLoad id Cancelled.
Definition cancel_all : Pc := AllLoad 0.
Definition wait_for_response (id : Z) (timeout : Z) : Pc :=
  if timeout =? 0 then CancelLoad id (Waited id (Err Timeout)) else Take true BeforeRegister id.
Definition wait_for_response_no_timeout_outcome (id : Z) : Pc := Take false BeforeRegister id.

Inductive Call :=
  | CallAllocate
  | CallComplete (id : Z) (response : option (list Z)) (completed_by : option PeerId)
  | CallNack (id : Z) (reason : AskNackReason)
  | CallCancel (id : Z)
  | CallCancelAll
  | CallWait (id timeout : Z)
  | CallWaitNoTimeout (id : Z).

Definition start (c : Call) : Pc :=
  match c with
  | CallAllocate => allocate
  | CallComplete id response completed_by => complete_attributed id response completed_by
  | CallNack id reason => complete_nack id reason
  | CallCancel id => cancel id
  | CallCancelAll => cancel_all
  | CallWait id timeout => wait_for_response id timeout
  | CallWaitNoTimeout id => wait_for_response_no_timeout_outcome id
  end.

(** ** Tasks side by side

    Any number of tasks, each in an operation of its own, in any interleaving
    of their actions.  [log] is what happened to answers, latest first. *)
Record Sys := mkSys {
  tracker : CorrelationTracker;
  tasks : gmap Tid Pc;
  log : list Event;
}.

Definition sys_new : Sys := mkSys tracker_new ∅ [].

Definition run_task (t : Tid) (c : Choice) (y : Sys) : option Sys :=
  match tasks y !! t with
  | Some pc =>
      match exec c t (tracker y) pc with
      | Some (tr, pc', es) => Some (mkSys tr (<[t := pc']> (tasks y)) (es ++ log y))
      | None => None
      end
  | None => None
  end.

Definition spawn (t : Tid) (c : Call) (y : Sys) : Sys := mkSys (tracker y) (<[t := start c]> (tasks y)) (log y).

Inductive sys_step (y : Sys) : Sys -> Prop :=
  | step_spawn t c : tasks y !! t = None -> sys_step y (spawn t c y)
  | step_task t c y' : run_task t c y = Some y' -> sys_step y y'.
