(* ===== verification/CorrelationInv.v ===== *)
(** * Answers reach the ask they belong to, once

    The invariant of the correlation tracker under every interleaving: who owns
    a slot in its transient state, when its response is initialised, and what
    became of every published answer. *)

From S2P Require Import Prelude Types Correlation.

(** What a task that moved a slot to [SLOT_WRITING] may rely on until it moves
    it on: whether the response is initialised, and the slot's id when the task
    has checked or stored it. *)
Definition claim_of (pc : Pc) : option (bool * option Z) :=
  match pc with
  | AllocGate _ | AllocWake _ | AllocStoreId _ => Some (false, None)
  | AllocUngate id | AllocPublish id => Some (false, Some id)
  | CompleteVerify _ _ | CompleteUnclaim _ => Some (false, None)
  | CompleteEmpty id | CompleteWrite id _ => Some (false, Some id)
  | CompleteReady id => Some (true, Some id)
  | CancelVerify ready _ _ | CancelRestore ready _ _ => Some (ready, None)
  | CancelDrop id _ => Some (true, Some id)
  | CancelEmpty id _ => Some (false, Some id)
  | AllDrop _ => Some (true, None)
  | AllEmpty _ => Some (false, None)
  | TakeVerify _ | TakeRestore _ => Some (true, None)
  | TakeRead id => Some (true, Some id)
  | TakeRelease id _ => Some (false, Some id)
  | DeadlineVerify _ | DeadlineRestore _ => Some (false, None)
  | DeadlineEmpty id => Some (false, Some id)
  | _ => None
  end.

Definition initialised (sl : Slot) : bool := match response sl with Some _ => true | None => false end.

Definition claim_holds (sl : Slot) (h : bool * option Z) : Prop :=
  state sl = SLOT_WRITING /\ initialised sl = h.1 /\ match h.2 with Some id => s_id sl = id | None => True end.

(** Outside the transient state a response is there exactly when it is ready;
    and it is the response of an id of this slot. *)
Definition slot_ok (s : Z) (sl : Slot) : Prop :=
  (state sl <> SLOT_WRITING -> initialised sl = bool_decide (state sl = SLOT_READY))
  /\ (initialised sl = true -> slot_index (s_id sl) = s).

(** Answers an event adds to and takes from the published ones. *)
Definition published (id : Z) (o : CorrelationOutcome) (e : Event) : Z := if decide (e = Published id o) then 1 else 0.
Definition consumed (id : Z) (o : CorrelationOutcome) (e : Event) : Z :=
  if decide (e = Taken id o \/ e = Dropped id o) then 1 else 0.

Fixpoint count (f : Event -> Z) (es : list Event) : Z :=
  match es with [] => 0 | e :: es => f e + count f es end.

Lemma count_app f a b : count f (a ++ b) = count f a + count f b.
Proof. induction a as [|e a IH]; cbn; [done|]. rewrite IH. lia. Qed.

Definition in_slot (sl : Slot) (id : Z) (o : CorrelationOutcome) : Z :=
  if decide (s_id sl = id /\ response sl = Some o) then 1 else 0.

(** A task that took or returns an answer has logged it. *)
Definition ret_receipt (r : Ret) (es : list Event) : Prop :=
  match r with Waited id (Ok o) => Taken id o ∈ es | _ => True end.

Definition receipt (pc : Pc) (es : list Event) : Prop :=
  match pc with
  | TakeRelease id o => Taken id o ∈ es
  | Done r | CancelLoad _ r | CancelCas _ _ r | CancelVerify _ _ r | CancelRestore _ _ r | CancelDrop _ r
  | CancelEmpty _ r | CancelWake _ r => ret_receipt r es
  | _ => True
  end.

Lemma ret_receipt_app r es old : ret_receipt r old -> ret_receipt r (es ++ old).
Proof. destruct r as [| | | |id []]; cbn; try done. rewrite elem_of_app. auto. Qed.

Lemma ret_receipt_cons r e old : ret_receipt r old -> ret_receipt r (e :: old).
Proof. exact (ret_receipt_app r [e] old). Qed.

Lemma receipt_app pc es old : receipt pc old -> receipt pc (es ++ old).
Proof. destruct pc; cbn; auto using ret_receipt_app. rewrite elem_of_app. auto. Qed.

(** The effect of one action on its slot. *)
Record action_ok (s : Z) (sl : Slot) (pc : Pc) (sl' : Slot) (pc' : Pc) (es : list Event) : Prop := {
  ac_slot : slot_ok s sl';
  ac_claim : forall h, claim_of pc' = Some h -> pc_slot pc' = s /\ claim_holds sl' h;
  ac_release : claim_of pc' = None -> claim_of pc <> None -> state sl' <> SLOT_WRITING;
  ac_frame : claim_of pc = None -> state sl = SLOT_WRITING ->
    claim_of pc' = None /\ state sl' = SLOT_WRITING /\ s_id sl' = s_id sl /\ response sl' = response sl;
  ac_acquire : claim_of pc = None -> claim_of pc' = None -> state sl <> SLOT_WRITING -> state sl' <> SLOT_WRITING;
  ac_defined : pc' <> Undefined;
  ac_receipt : forall old, receipt pc old -> receipt pc' (es ++ old);
  ac_count : forall id o, slot_index id = s ->
    count (published id o) es + in_slot sl id o = count (consumed id o) es + in_slot sl' id o;
  ac_events : forall id o, slot_index id <> s -> count (published id o) es = 0 /\ count (consumed id o) es = 0;
}.

Lemma count_wake f sl : (forall t, f (Woken t) = 0) -> count f (wake sl) = 0.
Proof. intros H. unfold wake. destruct (waker sl); cbn; [now rewrite H|done]. Qed.

Lemma count_wake_published id o sl : count (published id o) (wake sl) = 0.
Proof. now apply count_wake. Qed.

Lemma count_wake_consumed id o sl : count (consumed id o) (wake sl) = 0.
Proof. apply count_wake. intros t. unfold consumed. case_decide as H; [destruct H; discriminate|done]. Qed.

(** Only the state and the waker move; the response is there as the state says. *)
Lemma action_frame s sl pc sl' pc' es :
  slot_ok s sl -> response sl' = response sl -> s_id sl' = s_id sl -> (es = [] \/ es = wake sl) ->
  (state sl' = SLOT_WRITING \/ initialised sl = bool_decide (state sl' = SLOT_READY)) ->
  (forall h, claim_of pc' = Some h -> pc_slot pc' = s /\ claim_holds sl' h) ->
  (claim_of pc' = None -> claim_of pc <> None -> state sl' <> SLOT_WRITING) ->
  (claim_of pc = None -> state sl = SLOT_WRITING -> claim_of pc' = None /\ state sl' = SLOT_WRITING) ->
  (claim_of pc = None -> claim_of pc' = None -> state sl <> SLOT_WRITING -> state sl' <> SLOT_WRITING) ->
  pc' <> Undefined -> (forall old, receipt pc old -> receipt pc' old) ->
  action_ok s sl pc sl' pc' es.
Proof.
  intros [H1 H2] Er Ei Ee Hst Hc Hr Hf Hq Hu Hre.
  assert (forall f, (forall t, f (Woken t) = 0) -> count f es = 0) as Hz
    by (intros f Hf0; destruct Ee as [->| ->]; [done|now apply count_wake]).
  assert (forall id o, count (published id o) es = 0 /\ count (consumed id o) es = 0) as He.
  { intros id o. split; apply Hz; [done|]. intros t. unfold consumed. case_decide as Hd; [now destruct Hd|done]. }
  split; auto.
  - split; unfold initialised in *; rewrite Er, ?Ei; [|done]. intros Hn. destruct Hst; [done|auto].
  - intros C E. destruct (Hf C E). auto.
  - intros old Ho. apply receipt_app. auto.
  - intros id o _. destruct (He id o) as [-> ->]. unfold in_slot. now rewrite Er, Ei.
Qed.

(** A task that owns no slot looks at one. *)
Lemma action_idle s sl pc sl' pc' es :
  slot_ok s sl -> response sl' = response sl -> s_id sl' = s_id sl -> state sl' = state sl -> (es = [] \/ es = wake sl) ->
  claim_of pc = None -> claim_of pc' = None -> pc' <> Undefined -> (forall old, receipt pc old -> receipt pc' old) ->
  action_ok s sl pc sl' pc' es.
Proof.
  intros Hok Er Ei Es He C C' Hu Hr. apply action_frame; auto; try (intros; split; congruence); try (intros; congruence).
  destruct Hok as [H1 _]. rewrite Es. destruct (decide (state sl = SLOT_WRITING)); auto.
Qed.

(** A compare-and-swap takes the slot. *)
Lemma action_acquire s sl pc pc' b :
  slot_ok s sl -> state sl <> SLOT_WRITING -> b = bool_decide (state sl = SLOT_READY) -> pc_slot pc' = s ->
  claim_of pc = None -> claim_of pc' = Some (b, None) -> pc' <> Undefined -> (forall old, receipt pc old -> receipt pc' old) ->
  action_ok s sl pc (set_state SLOT_WRITING sl) pc' [].
Proof.
  intros Hok Hw -> Hs C C' Hu Hr. apply action_frame; auto; try (intros; congruence).
  intros h E. rewrite C' in E. injection E as <-. split; [done|]. split; [done|]. split; [|done]. now apply Hok.
Qed.

#[local] Ltac solve_fields :=
  unfold slot_ok, claim_holds, initialised in *; cbn in *; intros; destruct_and?; simplify_eq; cbn in *; try done; auto.

#[local] Ltac solve_action :=
  constructor; unfold slot_ok, claim_holds, initialised, published, consumed, in_slot in *; cbn in *;
  intros; destruct_and?; simplify_eq; cbn in *; repeat (case_decide; destruct_and?; destruct_or?; simplify_eq);
  repeat split; intros; try done; try lia; try tauto; try congruence; try (left; done); auto using ret_receipt_cons.

Lemma exec_slot_ok c t s sl pc sl' pc' es :
  exec_slot c t sl pc = Some (sl', pc', es) -> pc_slot pc = s -> slot_ok s sl -> pc <> Undefined ->
  (forall h, claim_of pc = Some h -> claim_holds sl h) -> action_ok s sl pc sl' pc' es.
Proof.
  intros E Hs Hok Hu Hc.
  destruct pc; cbn in E, Hs; try discriminate; unfold cas, drop_response in E; subst s;
    try specialize (Hc _ eq_refl); unfold claim_holds in Hc; cbn in Hc; destruct_and?;
    repeat case_match; simplify_eq; unfold all_next, dropped, timed_out in *; repeat case_match.
  all: try solve [apply action_idle; auto; try done
    | eapply action_acquire; [exact Hok|rewrite e; done| |reflexivity|reflexivity|reflexivity|done|done]; rewrite e; reflexivity
    | apply action_frame; solve_fields].
  all: first [destruct sl as [st i x w l]|destruct sl' as [st i x w l]]; solve_action.
Qed.

(** ** All tasks *)
Record sys_ok (y : Sys) : Prop := {
  sy_slot : forall s, slot_ok s (slot (tracker y) s);
  sy_claim : forall t pc h, tasks y !! t = Some pc -> claim_of pc = Some h -> claim_holds (slot (tracker y) (pc_slot pc)) h;
  sy_unique : forall t1 t2 pc1 pc2, tasks y !! t1 = Some pc1 -> tasks y !! t2 = Some pc2 ->
    claim_of pc1 <> None -> claim_of pc2 <> None -> pc_slot pc1 = pc_slot pc2 -> t1 = t2;
  sy_owner : forall s, state (slot (tracker y) s) = SLOT_WRITING ->
    exists t pc, tasks y !! t = Some pc /\ claim_of pc <> None /\ pc_slot pc = s;
  sy_defined : forall t, tasks y !! t <> Some Undefined;
  sy_receipt : forall t pc, tasks y !! t = Some pc -> receipt pc (log y);
  sy_count : forall id o, count (published id o) (log y)
    = count (consumed id o) (log y) + in_slot (slot (tracker y) (slot_index id)) id o;
}.

Lemma sys_new_ok : sys_ok sys_new.
Proof.
  split.
  - intros s. split; done.
  - done.
  - done.
  - done.
  - done.
  - done.
  - intros id o. unfold in_slot. case_decide as H; [now destruct H|done].
Qed.

(** A task that holds no slot after the step and whose slot is as before. *)
Lemma quiet_step y t pc' tr es :
  sys_ok y -> (forall s, slot tr s = slot (tracker y) s) -> claim_of pc' = None -> pc' <> Undefined ->
  (forall pc, tasks y !! t = Some pc -> claim_of pc = None) -> receipt pc' (log y) -> es = [] ->
  sys_ok (mkSys tr (<[t := pc']> (tasks y)) (es ++ log y)).
Proof.
  intros H Hs Hc Hd Ho Hr ->. split; cbn.
  - intros s. rewrite Hs. apply H.
  - intros t0 pc h Ht Eh. apply lookup_insert_Some in Ht as [[<- <-]|[_ Ht]]; [congruence|]. rewrite Hs. eapply sy_claim; eauto.
  - intros t1 t2 pc1 pc2 H1 H2 C1 C2. apply lookup_insert_Some in H1 as [[<- <-]|[_ H1]]; [done|].
    apply lookup_insert_Some in H2 as [[<- <-]|[_ H2]]; [done|]. eapply sy_unique; eauto.
  - intros s E. rewrite Hs in E. destruct (sy_owner _ H s E) as (t0 & pc & Ht & C & Ep). exists t0, pc. split; [|done].
    rewrite lookup_insert_ne; [done|]. intros ->. apply C. now apply Ho.
  - intros t0 E. apply lookup_insert_Some in E as [[_ E]|[_ E]]; [done|]. now apply (sy_defined _ H t0).
  - intros t0 pc E. apply lookup_insert_Some in E as [[<- <-]|[_ E]]; [done|]. eapply sy_receipt; eauto.
  - intros id o. rewrite Hs. apply H.
Qed.

Lemma slot_insert tr s sl s' n : slot (mkTracker n (<[s := sl]> (pending tr))) s' = if decide (s' = s) then sl else slot tr s'.
Proof. unfold slot. cbn. case_decide as H; [subst; now rewrite lookup_insert_eq|now rewrite lookup_insert_ne by done]. Qed.

(** ** A task acts on its slot *)
Section Busy.
Context (y : Sys) (t : Tid) (pc : Pc) (s : Z) (sl' : Slot) (pc' : Pc) (es : list Event) (n : Z).
Context (H : sys_ok y) (Ht : tasks y !! t = Some pc) (Hs : pc_slot pc = s).
Context (Ha : action_ok s (slot (tracker y) s) pc sl' pc' es).

Lemma busy_other t0 pc0 h :
  t0 <> t -> tasks y !! t0 = Some pc0 -> claim_of pc0 = Some h -> pc_slot pc0 = s ->
  claim_of pc' = None /\ claim_holds (slot (tracker y) s) h /\ claim_holds sl' h.
Proof using All.
  intros Hne H0 C0 E0. pose proof (sy_claim _ H t0 pc0 h H0 C0) as Hh. rewrite E0 in Hh.
  assert (claim_of pc = None) as Cp.
  { destruct (claim_of pc) eqn:C; [|done]. destruct Hne. eapply sy_unique; eauto; congruence. }
  destruct (ac_frame _ _ _ _ _ _ Ha Cp (proj1 Hh)) as (F0 & F1 & F2 & F3). split; [done|]. split; [done|].
  unfold claim_holds, initialised in *. now rewrite F1, F2, F3.
Qed.

Lemma busy_claim t0 pc0 h :
  <[t := pc']> (tasks y) !! t0 = Some pc0 -> claim_of pc0 = Some h ->
  claim_holds (if decide (pc_slot pc0 = s) then sl' else slot (tracker y) (pc_slot pc0)) h.
Proof using All.
  intros H0 C. apply lookup_insert_Some in H0 as [[<- <-]|[Hne H0]].
  - destruct (ac_claim _ _ _ _ _ _ Ha h C) as [E Hh]. now rewrite decide_True by done.
  - case_decide as E; [|eapply sy_claim; eauto]. eapply busy_other; eauto.
Qed.

Lemma busy_unique t1 t2 pc1 pc2 :
  <[t := pc']> (tasks y) !! t1 = Some pc1 -> <[t := pc']> (tasks y) !! t2 = Some pc2 ->
  claim_of pc1 <> None -> claim_of pc2 <> None -> pc_slot pc1 = pc_slot pc2 -> t1 = t2.
Proof using All.
  assert (forall t0 pc0, t0 <> t -> tasks y !! t0 = Some pc0 -> claim_of pc0 <> None -> pc_slot pc0 = pc_slot pc' ->
    claim_of pc' <> None -> False) as Hx.
  { intros t0 pc0 Hne H0 C0 E0 C'. destruct (claim_of pc') as [h|] eqn:Eh; [|done].
    destruct (ac_claim _ _ _ _ _ _ Ha h Eh) as [Es _]. destruct (claim_of pc0) as [h0|] eqn:E0'; [|done].
    destruct (busy_other t0 pc0 h0) as [Hn _]; congruence. }
  intros H1 H2 C1 C2 E.
  apply lookup_insert_Some in H1 as [[<- <-]|[N1 H1]]; apply lookup_insert_Some in H2 as [[<- <-]|[N2 H2]]; try done.
  - exfalso. eapply (Hx t2 pc2); eauto.
  - exfalso. eapply (Hx t1 pc1); eauto.
  - eapply sy_unique; eauto.
Qed.

Lemma busy_owner s0 :
  state (if decide (s0 = s) then sl' else slot (tracker y) s0) = SLOT_WRITING ->
  exists t0 pc0, <[t := pc']> (tasks y) !! t0 = Some pc0 /\ claim_of pc0 <> None /\ pc_slot pc0 = s0.
Proof using All.
  assert (forall s0, (s0 = s -> claim_of pc = None) -> state (slot (tracker y) s0) = SLOT_WRITING ->
    exists t0 pc0, <[t := pc']> (tasks y) !! t0 = Some pc0 /\ claim_of pc0 <> None /\ pc_slot pc0 = s0) as Hold.
  { intros s1 Hn E. destruct (sy_owner _ H s1 E) as (t0 & pc0 & H0 & C0 & E0). exists t0, pc0. split; [|done].
    rewrite lookup_insert_ne; [done|]. intros ->. rewrite Ht in H0. injection H0 as ->. apply C0, Hn. congruence. }
  case_decide as Es; [subst s0|apply Hold; done]. destruct (claim_of pc') as [h|] eqn:Eh.
  - intros _. exists t, pc'. rewrite lookup_insert_eq. split; [done|]. split; [congruence|]. eapply ac_claim; eauto.
  - intros E. destruct (decide (claim_of pc = None)) as [Cp|Cp]; [|now apply (ac_release _ _ _ _ _ _ Ha) in E].
    destruct (decide (state (slot (tracker y) s) = SLOT_WRITING)) as [Ew|Ew]; [now apply Hold|].
    now apply (ac_acquire _ _ _ _ _ _ Ha) in E.
Qed.

Lemma busy_step : sys_ok (mkSys (mkTracker n (<[s := sl']> (pending (tracker y)))) (<[t := pc']> (tasks y)) (es ++ log y)).
Proof using All.
  split; cbn.
  - intros s0. rewrite slot_insert. case_decide as E; [subst s0; apply Ha|apply H].
  - intros t0 pc0 h. rewrite slot_insert. apply busy_claim.
  - apply busy_unique.
  - intros s0. rewrite slot_insert. apply busy_owner.
  - intros t0 E. apply lookup_insert_Some in E as [[_ E]|[_ E]]; [now apply (ac_defined _ _ _ _ _ _ Ha)|].
    now apply (sy_defined _ H t0).
  - intros t0 pc0 E. apply lookup_insert_Some in E as [[<- <-]|[_ E]].
    + apply (ac_receipt _ _ _ _ _ _ Ha). eapply sy_receipt; eauto.
    + apply receipt_app. eapply sy_receipt; eauto.
  - intros id o. rewrite slot_insert, !count_app. pose proof (sy_count _ H id o) as Hc. case_decide as E.
    + pose proof (ac_count _ _ _ _ _ _ Ha id o E). rewrite E in Hc. lia.
    + pose proof (ac_events _ _ _ _ _ _ Ha id o E). lia.
Qed.
End Busy.

Lemma start_quiet c : claim_of (start c) = None /\ start c <> Undefined /\ receipt (start c) [].
Proof. destruct c; cbn; unfold wait_for_response; repeat case_match; done. Qed.

Lemma sys_step_ok y y' : sys_ok y -> sys_step y y' -> sys_ok y'.
Proof.
  intros H [t c Hn|t c y0 E].
  - destruct (start_quiet c) as (Hc & Hu & Hr). apply (quiet_step y t (start c) (tracker y) []); auto; [congruence|].
    pose proof (receipt_app (start c) (log y) [] Hr) as Hr'. now rewrite app_nil_r in Hr'.
  - unfold run_task in E. destruct (tasks y !! t) as [pc|] eqn:Ht; [|done].
    destruct (exec c t (tracker y) pc) as [[[tr pc'] es]|] eqn:Ex; [|done]. injection E as <-.
    assert ((exists k, pc = AllocNext k) \/ exists sl, exec_slot c t (slot (tracker y) (pc_slot pc)) pc = Some (sl, pc', es)
      /\ tr = mkTracker (next_id (tracker y)) (<[pc_slot pc := sl]> (pending (tracker y)))) as [[k ->]|(sl & Es & ->)].
    { destruct pc; [left; eauto|..]; right; unfold exec in Ex;
        destruct (exec_slot _ _ _ _) as [[[sl q] e]|]; try done; injection Ex as <- <- <-; eauto. }
    + assert (forall pc, tasks y !! t = Some pc -> claim_of pc = None) as Hq by (intros pc0 E0; now simplify_eq).
      cbn in Ex. destruct (k <=? 0); injection Ex as <- <- <-; apply quiet_step; auto; try done; now case_match.
    + eapply busy_step; eauto. eapply exec_slot_ok; eauto; [apply H|intros ->; now apply (sy_defined _ H t)|].
      intros h Hh. eapply sy_claim; eauto.
Qed.

Lemma count_positive f es : (forall e, 0 <= f e) -> 0 < count f es <-> exists e, e ∈ es /\ 0 < f e.
Proof.
  intros Hf. induction es as [|e es IH]; cbn.
  - split; [lia|]. intros (e & He & _). now apply not_elem_of_nil in He.
  - assert (0 <= count f es) as Hc by (clear IH; induction es as [|e0 es IH]; cbn; [lia|specialize (Hf e0); lia]).
    specialize (Hf e). split.
    + intros H. destruct (decide (0 < f e)); [exists e; split; [left|done]|].
      destruct (proj1 IH) as (e0 & H0 & H1); [lia|]. exists e0. split; [now right|done].
    + intros (e0 & [->|H0]%elem_of_cons & H1); [lia|]. pose proof (proj2 IH ltac:(eauto)). lia.
Qed.

Lemma reachable_ok y : star sys_step sys_new y -> sys_ok y.
Proof.
  assert (forall a b, star sys_step a b -> sys_ok a -> sys_ok b) as Hs.
  { induction 1; eauto using sys_step_ok. }
  intros H. eapply Hs; eauto using sys_new_ok.
Qed.

(** ** Executable schedules *)

(** A schedule: a task starts, makes one action, or runs until it is done,
    parked or blocked. *)
Inductive Act := Start (t : Tid) (c : Call) | Run (t : Tid) | Finish (t : Tid).

Definition resting (pc : Pc) : bool := match pc with Done _ | Parked _ _ => true | _ => false end.

Fixpoint finish (fuel : nat) (t : Tid) (y : Sys) : option Sys :=
  match fuel with
  | O => Some y
  | S fuel =>
      match tasks y !! t with
      | Some pc => if resting pc then Some y else match run_task t Poll y with Some y => finish fuel t y | None => Some y end
      | None => None
      end
  end.

Definition act (a : Act) (y : Sys) : option Sys :=
  match a with
  | Start t c => if decide (tasks y !! t = None) then Some (spawn t c y) else None
  | Run t => run_task t Poll y
  | Finish t => finish 20 t y
  end.

Fixpoint play (acts : list Act) (y : Sys) : option Sys :=
  match acts with
  | [] => Some y
  | a :: acts => match act a y with Some y => play acts y | None => None end
  end.

Lemma finish_star fuel t : forall y y', finish fuel t y = Some y' -> star sys_step y y'.
Proof.
  induction fuel as [|fuel IH]; intros y y' E; cbn in E; [injection E as <-; apply star_refl|].
  destruct (tasks y !! t) as [pc|]; [|done]. destruct (resting pc); [injection E as <-; apply star_refl|].
  destruct (run_task t Poll y) as [y1|] eqn:E1; [|injection E as <-; apply star_refl].
  eapply star_step; [eapply step_task; exact E1|auto].
Qed.

Lemma play_star acts : forall y y', play acts y = Some y' -> star sys_step y y'.
Proof.
  induction acts as [|a acts IH]; intros y y' E; cbn in E; [injection E as <-; apply star_refl|].
  destruct (act a y) as [y1|] eqn:E1; [|done]. destruct a as [t c|t|t]; cbn [act] in E1.
  - destruct (decide (tasks y !! t = None)) as [Hn|Hn]; [|done]. injection E1 as <-.
    eapply star_step; [exact (step_spawn y t c Hn)|auto].
  - eapply star_step; [eapply step_task; exact E1|auto].
  - eapply star_trans; [eapply finish_star; exact E1|auto].
Qed.

Definition ends_as (P : Sys -> Prop) `{forall y, Decision (P y)} (acts : list Act) : bool :=
  match play acts sys_new with Some y => bool_decide (P y) | None => false end.

Lemma ends_as_reachable P `{forall y, Decision (P y)} acts : ends_as P acts = true -> exists y, star sys_step sys_new y /\ P y.
Proof.
  unfold ends_as. destruct (play acts sys_new) as [y|] eqn:E; [|done]. intros Hb%bool_decide_eq_true.
  exists y. split; [now apply (play_star acts)|done].
Qed.

#[global] Instance Result_eq_dec {A} `{EqDecision A} : EqDecision (Result A).
Proof. solve_decision. Defined.

#[global] Instance Ret_eq_dec : EqDecision Ret.
Proof. solve_decision. Defined.

#[global] Instance Attempt_eq_dec : EqDecision Attempt.
Proof. solve_decision. Defined.

#[global] Instance Pc_eq_dec : EqDecision Pc.
Proof. solve_decision. Defined.

#[global] Instance Slot_eq_dec : EqDecision Slot.
Proof. solve_decision. Defined.

(** C17: the correlation tracker is memory safe and answers are not mixed up,
    under every interleaving of any allocations, completions, NACKs,
    cancellations, connection drops and waits, with ids that share a slot.
    No task ever reads or drops a response that is not there; at most one task
    owns a slot in its transient state; each answer published for an id was
    taken by a waiter of that id, or dropped by a cancellation, or is still in
    the id's slot, each at most once; and a waiter returns an answer only if it
    was published for its own id. *)
Theorem answers_exact y :
  star sys_step sys_new y ->
  (forall t, tasks y !! t <> Some Undefined)
  /\ (forall t1 t2 pc1 pc2, tasks y !! t1 = Some pc1 -> tasks y !! t2 = Some pc2 -> claim_of pc1 <> None ->
        claim_of pc2 <> None -> pc_slot pc1 = pc_slot pc2 -> t1 = t2)
  /\ (forall id o, count (published id o) (log y)
        = count (consumed id o) (log y) + in_slot (slot (tracker y) (slot_index id)) id o)
  /\ (forall t id o, tasks y !! t = Some (Done (Waited id (Ok o))) -> Taken id o ∈ log y /\ Published id o ∈ log y).
Proof.
  intros Hr. pose proof (reachable_ok y Hr) as H. split; [apply H|]. split; [apply H|]. split; [apply H|].
  intros t id o Ht. pose proof (sy_receipt _ H t _ Ht) as Hk. cbn in Hk. split; [done|].
  assert (0 < count (consumed id o) (log y)) as Hc.
  { apply count_positive; [intros e; unfold consumed; case_decide; lia|]. exists (Taken id o). split; [done|].
    unfold consumed. rewrite decide_True by auto. lia. }
  assert (0 < count (published id o) (log y)) as Hp.
  { pose proof (sy_count _ H id o) as He. unfold in_slot in He. case_decide; lia. }
  apply count_positive in Hp as (e & He & Hpos); [|intros e; unfold published; case_decide; lia].
  unfold published in Hpos. case_decide as Ee; [now subst|lia].
Qed.

(** An ask is refused by the peer: its waiter gets the NACK. *)
Lemma answers_exact_witness :
  exists y, star sys_step sys_new y /\ tasks y !! 3 = Some (Done (Waited 1 (Ok (Nack HandlerError))))
    /\ Taken 1 (Nack HandlerError) ∈ log y.
Proof.
  destruct (ends_as_reachable (fun y => tasks y !! 3 = Some (Done (Waited 1 (Ok (Nack HandlerError)))))
    [Start 1 CallAllocate; Finish 1; Start 2 (CallNack 1 HandlerError); Finish 2; Start 3 (CallWaitNoTimeout 1); Finish 3])
    as (y & Hr & Ht); [vm_compute; reflexivity|].
  exists y. split; [exact Hr|]. split; [exact Ht|]. destruct (answers_exact y Hr) as (_ & _ & _ & H). exact (proj1 (H 3 1 _ Ht)).
Defined.
