(* ===== verification/CorrelationRace.v ===== *)
(** * Concrete runs of the correlation tracker

    Two runs in which the cancellation of a finished ask costs another one its
    answer. *)

From S2P Require Import Prelude Types Correlation CorrelationInv.

(** Task 1 asks first: its ask is refused by the peer and it holds the guard of
    its slot still.  8192 more asks start and wait; the last shares the slot. *)
Definition old_ask : list Act :=
  [Start 1 CallAllocate; Finish 1; Start 10001 (CallNack 1 HandlerError); Finish 10001;
   Start 10002 (CallWaitNoTimeout 1); Finish 10002].

Definition later_asks : list Act := flat_map (fun t => [Start t CallAllocate; Finish t]) (seqZ 2 8192).

Definition crowded : list Act := old_ask ++ later_asks.

(** The answer for ask 8193 is published, and its waiter polls while the guard
    of ask 1 is dropped. *)
Definition missed_wakeup : list Act :=
  crowded ++ [Start 20001 (CallComplete 8193 (Some [7]) None); Finish 20001;
   Start 20002 (CallCancel 1); Run 20002; Run 20002;
   Start 20003 (CallWaitNoTimeout 8193); Finish 20003; Finish 20002].

(** The answer for ask 8193 arrives while the guard of ask 1 is dropped. *)
Definition refused_answer : list Act :=
  crowded ++ [Start 20003 (CallWaitNoTimeout 8193); Finish 20003;
   Start 20002 (CallCancel 1); Run 20002; Run 20002;
   Start 20001 (CallComplete 8193 (Some [7]) None); Finish 20001; Finish 20002].

(** Every task but [t] has returned, and nothing has woken [t]. *)
Definition only_waits (t : Tid) (y : Sys) : Prop :=
  map_Forall (fun t0 pc => t0 = t \/ match pc with Done _ => True | _ => False end) (tasks y)
  /\ Forall (fun e => e <> Woken t) (log y).

#[global] Instance done_dec pc : Decision (match pc with Done _ => True | _ => False end).
Proof. destruct pc; apply _. Defined.

#[global] Instance only_waits_dec t y : Decision (only_waits t y).
Proof. unfold only_waits. apply _. Defined.

(** C18: cancelling a finished ask can cost another ask its answer.  An id and
    one 8192 later share a slot, and the guard of a refused ask cancels it after
    its slot was reused; while that cancellation holds the slot to compare the
    ids, an answer for the other ask finds it neither waiting nor ready.
    There is a run in which the other ask's answer is published and never
    taken: its waiter polled meanwhile and is parked, and nothing wakes it; and
    a run in which the answer is refused and lost, though the ask waits for it. *)
Theorem stale_cancel_costs_answer :
  (exists y, star sys_step sys_new y /\ only_waits 20003 y /\ tasks y !! 20003 = Some (Parked false 8193)
     /\ slot (tracker y) 1 = mkSlot SLOT_READY 8193 (Some (Response [7])) (Some 20003) false)
  /\ (exists y, star sys_step sys_new y /\ only_waits 20003 y /\ tasks y !! 20003 = Some (Parked false 8193)
     /\ tasks y !! 20001 = Some (Done (Completed 8193 false)) /\ s_id (slot (tracker y) 1) = 8193
     /\ state (slot (tracker y) 1) = SLOT_WAITING).
Proof.
  split.
  - apply (ends_as_reachable _ missed_wakeup). vm_compute. reflexivity.
  - apply (ends_as_reachable _ refused_answer). vm_compute. reflexivity.
Qed.
