(* ===== verification/ReplySlots.v ===== *)
(** * The slots of leased replies

    [ReplySlots] and [ReplySlotRecord] of
    src/src/connection_pool/reply_slots.rs: 64 slots from which an ask's handler
    reserves the right to reply later, shared without locks by the handlers, the
    writer and the task that closes the connection.  Every operation is a
    sequence of atomic actions, interleaved with those of any other task.  A
    compare-and-swap loop that does nothing between its attempts is one action,
    its successful exchange; a loop that waits for another task spins.  Records
    are shared by reference ([Arc]) and named by the order of their creation;
    the slots outlive their records. *)

From S2P Require Import Prelude Types.

Definition REPLY_SLOT_CAP : Z := 64.

Inductive RecordState := STATE_RESERVED | STATE_COMPLETION_CLOSED | STATE_COMPLETE.
Inductive PublicationState := PUBLICATION_OPEN | PUBLICATION_CLOSED | PUBLICATION_WRITING.

#[global] Instance RecordState_eq_dec : EqDecision RecordState.
Proof. solve_decision. Defined.

#[global] Instance PublicationState_eq_dec : EqDecision PublicationState.
Proof. solve_decision. Defined.

(** A reference to a record, with the fields that never change. *)
Record RecordRef := mkRef {
  ref_id : Z;
  ref_index : Z;
  ref_generation : Z;
  ref_max_reply_bytes : Z;
}.

#[global] Instance RecordRef_eq_dec : EqDecision RecordRef.
Proof. solve_decision. Defined.

(** The record itself. *)
Record ReplySlotRecord := mkRecord {
  rc_ref : RecordRef;
  rc_terminal : option (list Z);
  rc_normal : option (list Z);
  rc_published : bool;
  rc_cancelled : bool;
  rc_activated : bool;
  rc_state : RecordState;
  rc_publication : PublicationState;
  rc_resources : bool;
  rc_recycled : bool;
}.

(** [reservation_state] is its closed bit and the count of publishers. *)
Record ReplySlots := mkSlots {
  records : gmap Z ReplySlotRecord;
  next_record : Z;
  ready : list RecordRef;
  free : list Z;
  generations : gmap Z Z;
  table : gmap Z RecordRef;
  closed : bool;
  reservation_closed : bool;
  publishers : Z;
}.

Definition slots_new : ReplySlots := mkSlots ∅ 0 [] (seqZ 0 REPLY_SLOT_CAP) ∅ ∅ false false 0.

(** ** Updates *)
Definition set_record (r : RecordRef) (f : ReplySlotRecord -> ReplySlotRecord) (S : ReplySlots) : ReplySlots :=
  mkSlots (alter f (ref_id r) (records S)) (next_record S) (ready S) (free S) (generations S) (table S) (closed S)
    (reservation_closed S) (publishers S).
Definition set_ready q (S : ReplySlots) : ReplySlots :=
  mkSlots (records S) (next_record S) q (free S) (generations S) (table S) (closed S) (reservation_closed S) (publishers S).
Definition set_free q (S : ReplySlots) : ReplySlots :=
  mkSlots (records S) (next_record S) (ready S) q (generations S) (table S) (closed S) (reservation_closed S) (publishers S).
Definition set_generations g (S : ReplySlots) : ReplySlots :=
  mkSlots (records S) (next_record S) (ready S) (free S) g (table S) (closed S) (reservation_closed S) (publishers S).
Definition set_table t (S : ReplySlots) : ReplySlots :=
  mkSlots (records S) (next_record S) (ready S) (free S) (generations S) t (closed S) (reservation_closed S) (publishers S).
Definition set_fence c n (S : ReplySlots) : ReplySlots :=
  mkSlots (records S) (next_record S) (ready S) (free S) (generations S) (table S) (closed S) c n.
Definition set_closed (S : ReplySlots) : ReplySlots :=
  mkSlots (records S) (next_record S) (ready S) (free S) (generations S) (table S) true (reservation_closed S) (publishers S).

Definition rc_set_normal p c := mkRecord (rc_ref c) (rc_terminal c) p
  (rc_published c) (rc_cancelled c) (rc_activated c) (rc_state c) (rc_publication c) (rc_resources c) (rc_recycled c).
Definition rc_set_terminal p c := mkRecord (rc_ref c) p (rc_normal c)
  (rc_published c) (rc_cancelled c) (rc_activated c) (rc_state c) (rc_publication c) (rc_resources c) (rc_recycled c).
Definition rc_set_published c := mkRecord (rc_ref c) (rc_terminal c) (rc_normal c)
  true (rc_cancelled c) (rc_activated c) (rc_state c) (rc_publication c) (rc_resources c) (rc_recycled c).
Definition rc_set_cancelled c := mkRecord (rc_ref c) (rc_terminal c) (rc_normal c)
  (rc_published c) true (rc_activated c) (rc_state c) (rc_publication c) (rc_resources c) (rc_recycled c).
Definition rc_set_activated c := mkRecord (rc_ref c) (rc_terminal c) (rc_normal c)
  (rc_published c) (rc_cancelled c) true (rc_state c) (rc_publication c) (rc_resources c) (rc_recycled c).
Definition rc_set_state s c := mkRecord (rc_ref c) (rc_terminal c) (rc_normal c)
  (rc_published c) (rc_cancelled c) (rc_activated c) s (rc_publication c) (rc_resources c) (rc_recycled c).
Definition rc_set_publication p c := mkRecord (rc_ref c) (rc_terminal c) (rc_normal c)
  (rc_published c) (rc_cancelled c) (rc_activated c) (rc_state c) p (rc_resources c) (rc_recycled c).
Definition rc_take_resources c := mkRecord (rc_ref c) (rc_terminal c) (rc_normal c)
  (rc_published c) (rc_cancelled c) (rc_activated c) (rc_state c) (rc_publication c) false (rc_recycled c).
Definition rc_set_recycled c := mkRecord (rc_ref c) (rc_terminal c) (rc_normal c)
  (rc_published c) (rc_cancelled c) (rc_activated c) (rc_state c) (rc_publication c) (rc_resources c) true.

Definition record_new (r : RecordRef) (terminal : list Z) : ReplySlotRecord :=
  mkRecord r (Some terminal) None false false false STATE_RESERVED PUBLICATION_OPEN true false.

(** ** Program counters *)
Inductive SlotRet :=
  | Reserved (r : RecordRef)
  | NotReserved (e : GossipError)
  | PublishReturned (r : RecordRef) (res : Result unit)
  | Returned
  | SlotsClosed.

(** How a record is brought to its end: [complete], [complete_discarded] or
    [complete_closed]. *)
Inductive Ending := Completed_ | Discarded | ClosedDown.

(** What a task goes on with after it ended a record: it returns, drains the
    ready queue, sweeps the table, or calls [finish]. *)
Inductive Kont := KReturn (x : SlotRet) | KDrain | KSweep (i : Z) | KFinish (i g : Z).

Inductive SlotPc :=
  (* try_reserve; the maximal length and the terminal payload are its arguments *)
  | ReserveBegin (n : Z) (p : list Z)
  | ReservePop (n : Z) (p : list Z)
  | ReserveGeneration (n : Z) (p : list Z) (i : Z)
  | ReserveUnpop (i : Z)
  | ReserveEndError
  | ReserveStore (n : Z) (p : list Z) (i g : Z)
  | ReserveEnd (r : RecordRef)
  | ReserveCheck (r : RecordRef)
  (* publish *)
  | PublishStart (r : RecordRef) (p : list Z)
  | PublishCas (r : RecordRef) (p : list Z)
  | PublishRecheck (r : RecordRef) (p : list Z)
  | PublishSwap (r : RecordRef) (p : list Z)
  | PublishStore (r : RecordRef) (p : list Z)
  | PublishReopen (r : RecordRef) (res : Result unit)
  (* cancel and activate *)
  | CancelSwap (r : RecordRef)
  | ActivateSwap (r : RecordRef)
  | ActivateBegin (r : RecordRef)
  | ActivateCheck (r : RecordRef)
  | ActivatePush (r : RecordRef)
  | ActivateEndClosed (r : RecordRef)
  | ActivateEnd (r : RecordRef) (pushed : bool)
  (* the writer takes a ready record and finishes it *)
  | WriterPop
  | WriterHolds (r : RecordRef)
  (* finish, discard and remove_closed of the slots *)
  | RemoveLoad (e : Ending) (i g : Z) (k : Kont)
  | RemoveCas (e : Ending) (r : RecordRef) (k : Kont)
  (* complete, complete_discarded and complete_closed of a record *)
  | ClosePublication (r : RecordRef) (k : Kont)
  | RecycleSwap (e : Ending) (r : RecordRef) (k : Kont)
  | RecycleDetach (e : Ending) (r : RecordRef) (k : Kont)
  | RecycleNormal (e : Ending) (r : RecordRef) (k : Kont)
  | RecycleTerminal (e : Ending) (r : RecordRef) (k : Kont)
  | RecycleResources (e : Ending) (r : RecordRef) (k : Kont)
  | RecycleClosed (e : Ending) (r : RecordRef) (k : Kont)
  | RecycleTable (e : Ending) (r : RecordRef) (k : Kont)
  | RecyclePush (e : Ending) (r : RecordRef) (k : Kont)
  | EndState (e : Ending) (r : RecordRef) (k : Kont)
  (* close_and_reclaim *)
  | CloseFence
  | CloseFlag
  | CloseSpin
  | CloseDrain
  | CloseSweep (i : Z)
  | Returns (x : SlotRet).

(** ** One atomic action *)
Definition resume (k : Kont) : SlotPc :=
  match k with
  | KReturn x => Returns x
  | KDrain => CloseDrain
  | KSweep i => CloseSweep i
  | KFinish i g => RemoveLoad Completed_ i g (KReturn Returned)
  end.

(** The first action of ending a record. *)
Definition end_record (e : Ending) (r : RecordRef) (k : Kont) : SlotPc :=
  match e with ClosedDown => ClosePublication r k | _ => RecycleSwap e r k end.

Definition end_state (e : Ending) : RecordState :=
  match e with ClosedDown => STATE_COMPLETION_CLOSED | _ => STATE_COMPLETE end.

(** [ArrayQueue::push]: a full queue refuses. *)
Definition push {A} (x : A) (q : list A) : option (list A) :=
  if len q <? REPLY_SLOT_CAP then Some (q ++ [x]) else None.

Section Exec.
Context (addr : SocketAddr).

Definition exec_reserve (S : ReplySlots) (pc : SlotPc) : option (ReplySlots * SlotPc) :=
  match pc with
  | ReserveBegin n p =>
      if reservation_closed S then Some (S, Returns (NotReserved (ConnectionClosed addr)))
      else Some (set_fence false (publishers S + 1) S, ReservePop n p)
  | ReservePop n p =>
      match free S with
      | i :: q => Some (set_free q S, ReserveGeneration n p i)
      | [] => Some (S, ReserveEndError)
      end
  | ReserveGeneration n p i =>
      match checked_add u64_max (default 0 (generations S !! i)) 1 with
      | Some g => Some (set_generations (<[i := g]> (generations S)) S, ReserveStore n p i g)
      | None => Some (S, ReserveUnpop i)
      end
  | ReserveUnpop i => Some (match push i (free S) with Some q => set_free q S | None => S end, ReserveEndError)
  | ReserveEndError =>
      Some (set_fence (reservation_closed S) (publishers S - 1) S, Returns (NotReserved (Network WouldBlock)))
  | ReserveStore n p i g =>
      let r := mkRef (next_record S) i g n in
      Some (mkSlots (<[ref_id r := record_new r p]> (records S)) (next_record S + 1) (ready S) (free S) (generations S)
              (<[i := r]> (table S)) (closed S) (reservation_closed S) (publishers S), ReserveEnd r)
  | ReserveEnd r => Some (set_fence (reservation_closed S) (publishers S - 1) S, ReserveCheck r)
  | ReserveCheck r =>
      Some (S, if closed S
               then RemoveLoad ClosedDown (ref_index r) (ref_generation r) (KReturn (NotReserved (ConnectionClosed addr)))
               else Returns (Reserved r))
  | _ => None
  end.

Definition exec_publish (S : ReplySlots) (pc : SlotPc) : option (ReplySlots * SlotPc) :=
  match pc with
  | PublishStart r p =>
      c ← records S !! ref_id r;
      Some (S, if rc_cancelled c then Returns (PublishReturned r (Err (Network BrokenPipe)))
               else if ref_max_reply_bytes r <? len p
               then Returns (PublishReturned r (Err (MessageTooLarge (len p) (ref_max_reply_bytes r))))
               else PublishCas r p)
  | PublishCas r p =>
      c ← records S !! ref_id r;
      match rc_publication c with
      | PUBLICATION_CLOSED => Some (S, Returns (PublishReturned r (Err (ConnectionClosed addr))))
      | PUBLICATION_OPEN => Some (set_record r (rc_set_publication PUBLICATION_WRITING) S, PublishRecheck r p)
      | PUBLICATION_WRITING => Some (S, PublishCas r p)
      end
  | PublishRecheck r p =>
      c ← records S !! ref_id r;
      Some (S, if rc_cancelled c then PublishReopen r (Err (Network BrokenPipe)) else PublishSwap r p)
  | PublishSwap r p =>
      c ← records S !! ref_id r;
      Some (set_record r rc_set_published S,
            if rc_published c then PublishReopen r (Err (Network AlreadyExists)) else PublishStore r p)
  | PublishStore r p => Some (set_record r (rc_set_normal (Some p)) S, PublishReopen r (Ok tt))
  | PublishReopen r res =>
      Some (set_record r (rc_set_publication PUBLICATION_OPEN) S, Returns (PublishReturned r res))
  | _ => None
  end.

(** The notifications of the writer are not modelled: it may look at any time. *)
Definition exec_activate (S : ReplySlots) (pc : SlotPc) : option (ReplySlots * SlotPc) :=
  match pc with
  | CancelSwap r => Some (set_record r rc_set_cancelled S, ActivateSwap r)
  | ActivateSwap r =>
      c ← records S !! ref_id r;
      Some (set_record r rc_set_activated S, if rc_activated c then Returns Returned else ActivateBegin r)
  | ActivateBegin r =>
      if reservation_closed S
      then Some (S, RemoveLoad ClosedDown (ref_index r) (ref_generation r) (KReturn Returned))
      else Some (set_fence false (publishers S + 1) S, ActivateCheck r)
  | ActivateCheck r => Some (S, if closed S then ActivateEndClosed r else ActivatePush r)
  | ActivateEndClosed r =>
      Some (set_fence (reservation_closed S) (publishers S - 1) S,
            RemoveLoad ClosedDown (ref_index r) (ref_generation r) (KReturn Returned))
  | ActivatePush r =>
      match push r (ready S) with
      | Some q => Some (set_ready q S, ActivateEnd r true)
      | None => Some (S, ActivateEnd r false)
      end
  | ActivateEnd r pushed =>
      Some (set_fence (reservation_closed S) (publishers S - 1) S,
            if (pushed : bool) then Returns Returned
            else end_record ClosedDown r (KFinish (ref_index r) (ref_generation r)))
  | WriterPop =>
      match ready S with
      | r :: q => Some (set_ready q S, WriterHolds r)
      | [] => Some (S, Returns Returned)
      end
  | WriterHolds r =>
      Some (S, RemoveLoad Completed_ (ref_index r) (ref_generation r) (KReturn Returned))
  | _ => None
  end.

Definition exec_end (S : ReplySlots) (pc : SlotPc) : option (ReplySlots * SlotPc) :=
  match pc with
  | RemoveLoad e i g k =>
      match table S !! i with
      | None => Some (S, resume k)
      | Some r => Some (S, if ref_generation r =? g then RemoveCas e r k else resume k)
      end
  | RemoveCas e r k =>
      Some (if decide (table S !! ref_index r = Some r) then set_table (delete (ref_index r) (table S)) S else S,
            end_record e r k)
  | ClosePublication r k =>
      c ← records S !! ref_id r;
      match rc_publication c with
      | PUBLICATION_OPEN => Some (set_record r (rc_set_publication PUBLICATION_CLOSED) S, RecycleSwap ClosedDown r k)
      | PUBLICATION_CLOSED => Some (S, RecycleSwap ClosedDown r k)
      | PUBLICATION_WRITING => Some (S, ClosePublication r k)
      end
  | RecycleSwap e r k =>
      c ← records S !! ref_id r;
      Some (set_record r rc_set_recycled S, if rc_recycled c then EndState e r k else RecycleDetach e r k)
  | RecycleDetach e r k =>
      Some (if decide (table S !! ref_index r = Some r) then set_table (delete (ref_index r) (table S)) S else S,
            RecycleNormal e r k)
  | RecycleNormal e r k => Some (set_record r (rc_set_normal None) S, RecycleTerminal e r k)
  | RecycleTerminal e r k => Some (set_record r (rc_set_terminal None) S, RecycleResources e r k)
  | RecycleResources e r k => Some (set_record r rc_take_resources S, RecycleClosed e r k)
  | RecycleClosed e r k => Some (S, if closed S then EndState e r k else RecycleTable e r k)
  | RecycleTable e r k =>
      match table S !! ref_index r with
      | None => Some (S, RecyclePush e r k)
      | Some r' => Some (S, if ref_generation r' =? ref_generation r then EndState e r k else RecyclePush e r k)
      end
  | RecyclePush e r k =>
      Some (match push (ref_index r) (free S) with Some q => set_free q S | None => S end, EndState e r k)
  | EndState e r k =>
      c ← records S !! ref_id r;
      Some (if decide (rc_state c = STATE_RESERVED) then set_record r (rc_set_state (end_state e)) S else S, resume k)
  | _ => None
  end.

Definition exec_close (S : ReplySlots) (pc : SlotPc) : option (ReplySlots * SlotPc) :=
  match pc with
  | CloseFence =>
      Some (set_fence true (publishers S) S, if reservation_closed S then Returns Returned else CloseFlag)
  | CloseFlag => Some (set_closed S, CloseSpin)
  | CloseSpin => Some (S, if publishers S =? 0 then CloseDrain else CloseSpin)
  | CloseDrain =>
      match ready S with
      | r :: q =>
          Some (set_ready q S, RemoveLoad ClosedDown (ref_index r) (ref_generation r) KDrain)
      | [] => Some (S, CloseSweep 0)
      end
  | CloseSweep i =>
      if i <? REPLY_SLOT_CAP then
        match table S !! i with
        | Some r => Some (set_table (delete i (table S)) S, end_record ClosedDown r (KSweep (i + 1)))
        | None => Some (S, CloseSweep (i + 1))
        end
      else Some (S, Returns SlotsClosed)
  | _ => None
  end.

Definition slots_exec (S : ReplySlots) (pc : SlotPc) : option (ReplySlots * SlotPc) :=
  match pc with
  | ReserveBegin _ _ | ReservePop _ _ | ReserveGeneration _ _ _ | ReserveUnpop _ | ReserveEndError
  | ReserveStore _ _ _ _ | ReserveEnd _ | ReserveCheck _ => exec_reserve S pc
  | PublishStart _ _ | PublishCas _ _ | PublishRecheck _ _ | PublishSwap _ _ | PublishStore _ _
  | PublishReopen _ _ => exec_publish S pc
  | CancelSwap _ | ActivateSwap _ | ActivateBegin _ | ActivateCheck _ | ActivateEndClosed _ | ActivatePush _
  | ActivateEnd _ _ | WriterPop | WriterHolds _ => exec_activate S pc
  | CloseFence | CloseFlag | CloseSpin | CloseDrain | CloseSweep _ => exec_close S pc
  | Returns _ => None
  | _ => exec_end S pc
  end.
End Exec.

(** ** Tasks side by side

    Handlers reserve, publish, cancel, activate and discard; the writer takes and
    finishes ready records; the connection's task closes the slots.  A task names
    a record only when it exists. *)
Inductive SlotCall :=
  | CallReserve (max_reply_bytes : Z) (terminal : list Z)
  | CallPublish (r : RecordRef) (payload : list Z)
  | CallCancel (r : RecordRef)
  | CallActivate (r : RecordRef)
  | CallDiscard (r : RecordRef)
  | CallWrite
  | CallClose.

Definition call_start (c : SlotCall) : SlotPc :=
  match c with
  | CallReserve n p => ReserveBegin n p
  | CallPublish r p => PublishStart r p
  | CallCancel r => CancelSwap r
  | CallActivate r => ActivateSwap r
  | CallDiscard r => RemoveLoad Discarded (ref_index r) (ref_generation r) (KReturn Returned)
  | CallWrite => WriterPop
  | CallClose => CloseFence
  end.

Definition exists_in (S : ReplySlots) (r : RecordRef) : Prop := rc_ref <$> records S !! ref_id r = Some r.

Definition call_ok (S : ReplySlots) (c : SlotCall) : Prop :=
  match c with
  | CallPublish r _ | CallCancel r | CallActivate r | CallDiscard r => exists_in S r
  | _ => True
  end.

Record SlotSys := mkSlotSys {
  slots : ReplySlots;
  slot_tasks : gmap Z SlotPc;
}.

Definition slot_sys_new : SlotSys := mkSlotSys slots_new ∅.

Definition run_slot_task (addr : SocketAddr) (t : Z) (y : SlotSys) : option SlotSys :=
  match slot_tasks y !! t with
  | Some pc =>
      match slots_exec addr (slots y) pc with
      | Some (s, pc') => Some (mkSlotSys s (<[t := pc']> (slot_tasks y)))
      | None => None
      end
  | None => None
  end.

Inductive slot_step (addr : SocketAddr) (y : SlotSys) : SlotSys -> Prop :=
  | slot_call t c : slot_tasks y !! t = None -> call_ok (slots y) c ->
      slot_step addr y (mkSlotSys (slots y) (<[t := call_start c]> (slot_tasks y)))
  | slot_task t y' : run_slot_task addr t y = Some y' -> slot_step addr y y'.
