(* ===== verification/ReplySlotsInv.v ===== *)
(** * Reply slots are conserved and every lease comes to an end

    The invariant of the reply slots under every interleaving of handlers, the
    writer and the close: where each slot is, who is on duty for a record that
    has not ended, and what the close waits for. *)

From S2P Require Import Prelude Types ReplySlots.

(** ** What a task is in the middle of *)

(** The slot a task has in hand, between taking it from the free queue and
    storing a record in it, or between the end of its record and giving it back. *)
Definition task_index (pc : SlotPc) : option Z :=
  match pc with
  | ReserveGeneration _ _ i | ReserveUnpop i | ReserveStore _ _ i _ => Some i
  | RecycleDetach _ r _ | RecycleNormal _ r _ | RecycleTerminal _ r _ | RecycleResources _ r _ | RecycleClosed _ r _
  | RecycleTable _ r _ | RecyclePush _ r _ => Some (ref_index r)
  | _ => None
  end.

Definition in_fence (pc : SlotPc) : bool :=
  match pc with
  | ReservePop _ _ | ReserveGeneration _ _ _ | ReserveUnpop _ | ReserveEndError | ReserveStore _ _ _ _ | ReserveEnd _
  | ActivateCheck _ | ActivatePush _ | ActivateEndClosed _ | ActivateEnd _ _ => true
  | _ => false
  end.

(** The record a task is bringing to its end. *)
Definition duty (pc : SlotPc) : option RecordRef :=
  match pc with
  | ClosePublication r _ | RecycleSwap _ r _ | RecycleDetach _ r _ | RecycleNormal _ r _ | RecycleTerminal _ r _
  | RecycleResources _ r _ | RecycleClosed _ r _ | RecycleTable _ r _ | RecyclePush _ r _ | EndState _ r _ => Some r
  | _ => None
  end.

(** The record whose resources a task has yet to release. *)
Definition releasing (pc : SlotPc) : option RecordRef :=
  match pc with
  | RecycleDetach _ r _ | RecycleNormal _ r _ | RecycleTerminal _ r _ | RecycleResources _ r _ => Some r
  | _ => None
  end.

(** How far a close has swept, once it has waited for the publishers. *)
Definition swept_k (k : Kont) : option Z :=
  match k with KDrain => Some 0 | KSweep i => Some i | KReturn SlotsClosed => Some REPLY_SLOT_CAP | _ => None end.

Definition swept (pc : SlotPc) : option Z :=
  match pc with
  | CloseDrain => Some 0
  | CloseSweep i => Some i
  | RemoveLoad _ _ _ k | RemoveCas _ _ k | ClosePublication _ k | RecycleSwap _ _ k | RecycleDetach _ _ k
  | RecycleNormal _ _ k | RecycleTerminal _ _ k | RecycleResources _ _ k | RecycleClosed _ _ k | RecycleTable _ _ k
  | RecyclePush _ _ k | EndState _ _ k => swept_k k
  | Returns SlotsClosed => Some REPLY_SLOT_CAP
  | _ => None
  end.

(** The record a task refers to. *)
Definition ref_of (pc : SlotPc) : option RecordRef :=
  match pc with
  | ReserveEnd r | ReserveCheck r | PublishStart r _ | PublishCas r _ | PublishRecheck r _ | PublishSwap r _
  | PublishStore r _ | PublishReopen r _ | CancelSwap r | ActivateSwap r | ActivateBegin r | ActivateCheck r
  | ActivatePush r | ActivateEndClosed r | ActivateEnd r _ | WriterHolds r | RemoveCas _ r _ | ClosePublication r _
  | RecycleSwap _ r _ | RecycleDetach _ r _ | RecycleNormal _ r _ | RecycleTerminal _ r _ | RecycleResources _ r _
  | RecycleClosed _ r _ | RecycleTable _ r _ | RecyclePush _ r _ | EndState _ r _ => Some r
  | _ => None
  end.

(** ** Counting *)
Definition one (P : Prop) `{Decision P} : Z := if decide P then 1 else 0.

Fixpoint occurrences (i : Z) (q : list Z) : Z :=
  match q with [] => 0 | j :: q => one (j = i) + occurrences i q end.

Definition live_at (i : Z) (c : ReplySlotRecord) : Z := one (rc_recycled c = false /\ ref_index (rc_ref c) = i).

(** Where the slot [i] is: in the free queue, in a task's hands, or with a
    record whose resources were not recycled. *)
Definition places (i : Z) (y : SlotSys) : Z :=
  occurrences i (free (slots y)) + map_sum (fun pc => one (task_index pc = Some i)) (slot_tasks y)
  + map_sum (live_at i) (records (slots y)).

(** A task past the exchange that made it the recycler, or that saw it made. *)
Definition past_swap (pc : SlotPc) : option RecordRef :=
  match pc with
  | RecycleDetach _ r _ | RecycleNormal _ r _ | RecycleTerminal _ r _ | RecycleResources _ r _ | RecycleClosed _ r _
  | RecycleTable _ r _ | RecyclePush _ r _ | EndState _ r _ => Some r
  | _ => None
  end.

Definition detaching (pc : SlotPc) : option RecordRef := match pc with RecycleDetach _ r _ => Some r | _ => None end.

(** Some task is at a program counter that [f] maps to [r]. *)
Definition some_task (f : SlotPc -> option RecordRef) (r : RecordRef) (y : SlotSys) : Prop :=
  exists t pc, slot_tasks y !! t = Some pc /\ f pc = Some r.

Record slots_ok (y : SlotSys) : Prop := {
  so_records : forall n c, records (slots y) !! n = Some c ->
    ref_id (rc_ref c) = n /\ n < next_record (slots y) /\ 0 <= ref_index (rc_ref c) < REPLY_SLOT_CAP;
  so_tasks : forall t pc r, slot_tasks y !! t = Some pc -> ref_of pc = Some r -> exists_in (slots y) r;
  so_ready : forall r, r ∈ ready (slots y) -> exists_in (slots y) r;
  so_table : forall i r, table (slots y) !! i = Some r -> exists_in (slots y) r /\ ref_index r = i;
  so_attached : forall n c, records (slots y) !! n = Some c -> table (slots y) !! ref_index (rc_ref c) = Some (rc_ref c) ->
    rc_recycled c = false \/ some_task detaching (rc_ref c) y;
  so_free : forall i, i ∈ free (slots y) -> 0 <= i < REPLY_SLOT_CAP;
  so_hands : forall t pc i, slot_tasks y !! t = Some pc -> task_index pc = Some i -> 0 <= i < REPLY_SLOT_CAP;
  so_places : forall i, 0 <= i < REPLY_SLOT_CAP -> places i y <= 1 /\ (closed (slots y) = false -> places i y = 1);
  so_fence : publishers (slots y) = map_sum (fun pc => one (in_fence pc = true)) (slot_tasks y);
  so_duty : forall n c, records (slots y) !! n = Some c -> rc_state c = STATE_RESERVED ->
    table (slots y) !! ref_index (rc_ref c) = Some (rc_ref c) \/ some_task duty (rc_ref c) y;
  so_resources : forall n c, records (slots y) !! n = Some c -> rc_resources c = true ->
    rc_recycled c = false \/ some_task releasing (rc_ref c) y;
  so_recycled : forall n c, records (slots y) !! n = Some c -> rc_state c <> STATE_RESERVED \/ some_task past_swap (rc_ref c) y ->
    rc_recycled c = true;
  so_swept : forall t pc j, slot_tasks y !! t = Some pc -> swept pc = Some j ->
    reservation_closed (slots y) = true /\ publishers (slots y) = 0 /\ forall i, i < j -> table (slots y) !! i = None;
  so_closing : forall t pc, slot_tasks y !! t = Some pc -> pc = CloseFlag \/ pc = CloseSpin -> reservation_closed (slots y) = true;
}.

Lemma occurrences_app i a b : occurrences i (a ++ b) = occurrences i a + occurrences i b.
Proof. induction a as [|j a IH]; cbn; [done|]. rewrite IH. lia. Qed.

Lemma one_range P `{Decision P} : 0 <= one P <= 1.
Proof. unfold one. case_decide; lia. Qed.

Lemma live_at_range i c : 0 <= live_at i c <= 1.
Proof. apply one_range. Qed.

Lemma live_sum_nonneg i (m : gmap Z ReplySlotRecord) : 0 <= map_sum (live_at i) m.
Proof. apply map_sum_nonneg. intros. apply live_at_range. Qed.

Lemma live_at_eq i c : live_at i c = if rc_recycled c then 0 else one (ref_index (rc_ref c) = i).
Proof. unfold live_at, one. destruct (rc_recycled c); repeat case_decide; destruct_and?; try done. tauto. Qed.

Lemma one_some (a b : Z) (D : Decision (Some a = Some b)) : @one _ D = one (a = b).
Proof. unfold one. repeat case_decide; congruence. Qed.

Lemma one_none (b : Z) (D : Decision (None = Some b)) : @one _ D = 0.
Proof. unfold one. case_decide; congruence. Qed.

Lemma occurrences_nonneg i q : 0 <= occurrences i q.
Proof. induction q as [|j q IH]; cbn; [lia|]. pose proof (one_range (j = i)). lia. Qed.

Lemma occurrences_seq n : forall a i, occurrences i (seqZ a (Z.of_nat n)) = one (a <= i < a + Z.of_nat n).
Proof.
  induction n as [|n IH]; intros a i.
  - rewrite seqZ_nil by lia. cbn. unfold one. rewrite decide_False by lia. done.
  - rewrite seqZ_cons by lia. cbn [occurrences]. replace (Z.pred (Z.of_nat (S n))) with (Z.of_nat n) by lia. rewrite IH.
    unfold one. repeat case_decide; lia.
Qed.

Lemma occurrences_elem j q : j ∈ q -> 1 <= occurrences j q.
Proof.
  induction q as [|k q IH]; [now intros ?%not_elem_of_nil|]. cbn. unfold one.
  intros [->|Hj]%elem_of_cons; [rewrite decide_True by done; pose proof (occurrences_nonneg k q); lia|].
  specialize (IH Hj). case_decide; lia.
Qed.

Lemma occurrences_NoDup q : (forall j, j ∈ q -> occurrences j q <= 1) -> NoDup q.
Proof.
  induction q as [|j q IH]; intros Ho; [constructor|]. constructor.
  - intros Hj%occurrences_elem. specialize (Ho j ltac:(left)). cbn in Ho. unfold one in Ho. rewrite decide_True in Ho by done. lia.
  - apply IH. intros k Hk. specialize (Ho k ltac:(now right)). cbn in Ho. pose proof (one_range (j = k)). lia.
Qed.

Lemma slots_new_ok : slots_ok slot_sys_new.
Proof.
  split; try done.
  - intros r H. now apply not_elem_of_nil in H.
  - intros i Hi. apply elem_of_seqZ in Hi. unfold REPLY_SLOT_CAP in *. lia.
  - intros i Hi. unfold places. cbn [slots slot_tasks slot_sys_new slots_new free records]. rewrite !map_sum_empty.
    pose proof (occurrences_seq 64 0 i) as E. change (Z.of_nat 64) with REPLY_SLOT_CAP in E. rewrite E. unfold one.
    rewrite decide_True by lia. lia.
Qed.

(** ** The effects of an action *)

(** What an action does to the record it is about. *)
Definition touch (pc : SlotPc) : option (RecordRef * (ReplySlotRecord -> ReplySlotRecord)) :=
  match pc with
  | PublishCas r _ => Some (r, fun c =>
      if decide (rc_publication c = PUBLICATION_OPEN) then rc_set_publication PUBLICATION_WRITING c else c)
  | PublishSwap r _ => Some (r, rc_set_published)
  | PublishStore r p => Some (r, rc_set_normal (Some p))
  | PublishReopen r _ => Some (r, rc_set_publication PUBLICATION_OPEN)
  | CancelSwap r => Some (r, rc_set_cancelled)
  | ActivateSwap r => Some (r, rc_set_activated)
  | ClosePublication r _ => Some (r, fun c =>
      if decide (rc_publication c = PUBLICATION_OPEN) then rc_set_publication PUBLICATION_CLOSED c else c)
  | RecycleSwap _ r _ => Some (r, rc_set_recycled)
  | RecycleNormal _ r _ => Some (r, rc_set_normal None)
  | RecycleTerminal _ r _ => Some (r, rc_set_terminal None)
  | RecycleResources _ r _ => Some (r, rc_take_resources)
  | EndState e r _ => Some (r, fun c => if decide (rc_state c = STATE_RESERVED) then rc_set_state (end_state e) c else c)
  | _ => None
  end.

Definition touched (pc : SlotPc) (m : gmap Z ReplySlotRecord) : gmap Z ReplySlotRecord :=
  match touch pc with Some (r, f) => alter f (ref_id r) m | None => m end.

(** The reference of a record a reservation stores. *)
Definition stored (S : ReplySlots) (pc : SlotPc) : option (RecordRef * list Z) :=
  match pc with ReserveStore n p i g => Some (mkRef (next_record S) i g n, p) | _ => None end.

Lemma alter_agree {A} (f g : A -> A) (n : Z) (m : gmap Z A) (c : A) : m !! n = Some c -> f c = g c -> alter f n m = alter g n m.
Proof.
  intros E Ef. apply map_eq. intros k. destruct (decide (k = n)) as [->|Hk].
  - rewrite !lookup_alter_eq, E. cbn. now rewrite Ef.
  - now rewrite !lookup_alter_ne.
Qed.

Lemma alter_same {A} (f : A -> A) (n : Z) (m : gmap Z A) (c : A) : m !! n = Some c -> f c = c -> alter f n m = m.
Proof.
  intros E Ef. rewrite (alter_agree f (fun x => x) n m c E Ef). apply map_eq. intros k.
  destruct (decide (k = n)) as [->|Hk]; [now rewrite lookup_alter_eq, E|now rewrite lookup_alter_ne].
Qed.

Lemma exec_records addr S pc S' pc' :
  slots_exec addr S pc = Some (S', pc') ->
  records S' = match stored S pc with Some (r, p) => <[ref_id r := record_new r p]> (records S) | None => touched pc (records S) end.
Proof.
  intros E. destruct pc; cbn in E; try discriminate; unfold touched; cbn;
    try (destruct (records S !! ref_id r) as [c|] eqn:Er; cbn in E; try discriminate);
    repeat case_match; simplify_eq; cbn; try done;
    first [symmetry; apply (alter_same _ _ _ c Er); now rewrite decide_False by congruence
      | apply (alter_agree _ _ _ _ c Er); now rewrite decide_True by congruence].
Qed.

Lemma exec_next addr S pc S' pc' :
  slots_exec addr S pc = Some (S', pc') -> next_record S' = match stored S pc with Some _ => next_record S + 1 | None => next_record S end.
Proof.
  intros E. destruct pc; cbn in E; try discriminate;
    try (destruct (records S !! ref_id r) as [c|] eqn:Er; cbn in E; try discriminate); repeat case_match; simplify_eq; done.
Qed.

Lemma touch_ref pc r f : touch pc = Some (r, f) -> ref_of pc = Some r /\ forall c, rc_ref (f c) = rc_ref c.
Proof. intros E. destruct pc; cbn in E; try discriminate; simplify_eq; cbn; split; try done; intros c; now case_decide. Qed.

Definition detached (r : RecordRef) (m : gmap Z RecordRef) : gmap Z RecordRef :=
  if decide (m !! ref_index r = Some r) then delete (ref_index r) m else m.

Definition table_after (S : ReplySlots) (pc : SlotPc) : gmap Z RecordRef :=
  match pc with
  | ReserveStore n p i g => <[i := mkRef (next_record S) i g n]> (table S)
  | RemoveCas _ r _ | RecycleDetach _ r _ => detached r (table S)
  | CloseSweep i => if i <? REPLY_SLOT_CAP then delete i (table S) else table S
  | _ => table S
  end.

Lemma exec_table addr S pc S' pc' : slots_exec addr S pc = Some (S', pc') -> table S' = table_after S pc.
Proof.
  intros E. destruct pc; cbn in E; try discriminate; unfold table_after, detached;
    try (destruct (records S !! ref_id r) as [c|] eqn:Er; cbn in E; try discriminate);
    repeat case_match; simplify_eq; try done. now rewrite delete_id.
Qed.

Definition free_after (S : ReplySlots) (pc : SlotPc) : list Z :=
  match pc with
  | ReservePop _ _ => tail (free S)
  | ReserveUnpop i => default (free S) (push i (free S))
  | RecyclePush _ r _ => default (free S) (push (ref_index r) (free S))
  | _ => free S
  end.

Lemma exec_free addr S pc S' pc' : slots_exec addr S pc = Some (S', pc') -> free S' = free_after S pc.
Proof.
  intros E. destruct pc; cbn in E; try discriminate; cbn;
    try (destruct (records S !! ref_id r) as [c|] eqn:Er; cbn in E; try discriminate); repeat case_match; simplify_eq; done.
Qed.

Definition ready_after (S : ReplySlots) (pc : SlotPc) : list RecordRef :=
  match pc with
  | ActivatePush r => default (ready S) (push r (ready S))
  | WriterPop | CloseDrain => tail (ready S)
  | _ => ready S
  end.

Lemma exec_ready addr S pc S' pc' : slots_exec addr S pc = Some (S', pc') -> ready S' = ready_after S pc.
Proof.
  intros E. destruct pc; cbn in E; try discriminate; cbn;
    try (destruct (records S !! ref_id r) as [c|] eqn:Er; cbn in E; try discriminate); repeat case_match; simplify_eq; done.
Qed.

Lemma exec_fence addr S pc S' pc' :
  slots_exec addr S pc = Some (S', pc') ->
  publishers S' = publishers S - one (in_fence pc = true) + one (in_fence pc' = true)
  /\ (in_fence pc = false -> in_fence pc' = true -> reservation_closed S = false)
  /\ reservation_closed S' = match pc with CloseFence => true | _ => reservation_closed S end
  /\ closed S' = match pc with CloseFlag => true | _ => closed S end.
Proof.
  intros E. destruct pc; cbn in E; try discriminate;
    try (destruct (records S !! ref_id r) as [c|] eqn:Er; cbn in E; try discriminate);
    unfold end_record in E; repeat case_match; simplify_eq; try (match goal with |- context [resume ?k] => destruct k end);
    cbn; (split; [|split; [|split]]); try done; try lia; unfold one; repeat case_decide; cbn; try lia; try done.
Qed.

Lemma map_sum_member {A} (f : A -> Z) (m : gmap Z A) k a :
  (forall b, 0 <= f b) -> m !! k = Some a -> f a <= map_sum f m.
Proof.
  intros Hf E. rewrite (map_sum_delete f m k a E). pose proof (map_sum_nonneg f (delete k m) ltac:(auto)). lia.
Qed.

Lemma map_sum_members {A} (f : A -> Z) (m : gmap Z A) k l a b :
  (forall b, 0 <= f b) -> k <> l -> m !! k = Some a -> m !! l = Some b -> f a + f b <= map_sum f m.
Proof.
  intros Hf Hn Ea Eb. rewrite (map_sum_delete f m k a Ea). enough (f b <= map_sum f (delete k m)) by lia.
  apply (map_sum_member f _ l); [done|]. now rewrite lookup_delete_ne.
Qed.

Lemma some_task_insert f r S t pc' m :
  some_task f r (mkSlotSys S (<[t := pc']> m)) <-> f pc' = Some r \/ exists t0 pc0, t0 <> t /\ m !! t0 = Some pc0 /\ f pc0 = Some r.
Proof.
  split.
  - intros (t0 & pc0 & E & F). cbn in E. apply lookup_insert_Some in E as [[<- <-]|[Hn E]]; [now left|].
    right. exists t0, pc0. auto.
  - intros [F|(t0 & pc0 & Hn & E & F)]; [exists t, pc'|exists t0, pc0]; cbn; [now rewrite lookup_insert_eq|].
    now rewrite lookup_insert_ne.
Qed.

Section Step.
Context (addr : SocketAddr) (y : SlotSys) (t : Z) (pc : SlotPc) (S' : ReplySlots) (pc' : SlotPc).
Context (H : slots_ok y) (Ht : slot_tasks y !! t = Some pc) (E : slots_exec addr (slots y) pc = Some (S', pc')).
#[local] Abbreviation old := (slots y).
#[local] Abbreviation y' := (mkSlotSys S' (<[t := pc']> (slot_tasks y))).

Lemma some_task_old f r : some_task f r y -> f pc = Some r \/ exists t0 pc0, t0 <> t /\ slot_tasks y !! t0 = Some pc0 /\ f pc0 = Some r.
Proof using Ht.
  intros (t0 & pc0 & E0 & F). destruct (decide (t0 = t)) as [->|Hn]; [left; congruence|right; eauto].
Qed.

Lemma record_cases n c' : records S' !! n = Some c' ->
  (exists r p, stored old pc = Some (r, p) /\ n = ref_id r /\ c' = record_new r p)
  \/ exists c, records old !! n = Some c /\ rc_ref c' = rc_ref c
       /\ (c' = c /\ (forall f, touch pc = Some (rc_ref c, f) -> False) \/ exists f, touch pc = Some (rc_ref c, f) /\ c' = f c).
Proof using All.
  rewrite (exec_records _ _ _ _ _ E). intros En.
  assert (forall c f, records old !! n = Some c -> touch pc = Some (rc_ref c, f) -> ref_id (rc_ref c) = n) as Hid
    by (intros c f Ec _; apply (so_records _ H n c Ec)).
  destruct (stored old pc) as [[r p]|] eqn:Es.
  - apply lookup_insert_Some in En as [[<- <-]|[_ En]]; [left; eauto|]. right. exists c'. split; [done|]. split; [done|].
    left. split; [done|]. intros f Ef. now destruct pc.
  - right. unfold touched in En. destruct (touch pc) as [[r f]|] eqn:Et; [|exists c'; split; [done|]; split; [done|]; left; split; [done|]; discriminate].
    destruct (touch_ref pc r f Et) as [Hr Hf]. pose proof (so_tasks _ H t pc r Ht Hr) as Hx. unfold exists_in in Hx.
    destruct (decide (n = ref_id r)) as [->|Hn].
    + rewrite lookup_alter_eq in En. destruct (records old !! ref_id r) as [c|]; [|done]. cbn in En, Hx.
      injection En as <-. injection Hx as Hx. exists c. split; [done|]. rewrite Hf, Hx. split; [done|]. right. eauto.
    + rewrite lookup_alter_ne in En by done. exists c'. split; [done|]. split; [done|]. left. split; [done|].
      intros g Eg. injection Eg as -> _. apply Hn. symmetry. eapply Hid; eauto.
Qed.

Lemma refs_grow r : exists_in old r -> exists_in S' r.
Proof using All.
  unfold exists_in. rewrite (exec_records _ _ _ _ _ E). destruct (records old !! ref_id r) as [c|] eqn:Ec; [|done]. intros Hx.
  destruct (stored old pc) as [[r0 p]|] eqn:Es.
  - rewrite lookup_insert_ne; [now rewrite Ec|]. pose proof (so_records _ H _ _ Ec) as Hr. destruct pc; cbn in Es; try done.
    injection Es as <- _. cbn. lia.
  - unfold touched. destruct (touch pc) as [[r0 f]|] eqn:Et; [|now rewrite Ec]. destruct (touch_ref pc r0 f Et) as [_ Hf].
    destruct (decide (ref_id r = ref_id r0)) as [Hn|Hn].
    + rewrite <- Hn, lookup_alter_eq, Ec. cbn. now rewrite Hf.
    + now rewrite lookup_alter_ne, Ec by done.
Qed.

Lemma stored_exists r p : stored old pc = Some (r, p) -> exists_in S' r.
Proof using All. intros Es. unfold exists_in. rewrite (exec_records _ _ _ _ _ E), Es, lookup_insert_eq. done. Qed.

Lemma new_ref r : ref_of pc' = Some r -> exists_in S' r.
Proof using All.
  intros Er. destruct (decide (ref_of pc = Some r)) as [Ho|Ho]; [apply refs_grow; eapply so_tasks; eauto|].
  destruct pc; cbn in E; try discriminate; unfold end_record in E;
    try (destruct (records old !! ref_id _) as [c|] eqn:Ec; cbn in E; try discriminate);
    repeat case_match; simplify_eq; try (match goal with H : ref_of (resume ?k) = _ |- _ => destruct k end); cbn in Er, Ho; simplify_eq.
  - unfold exists_in. cbn. now rewrite lookup_insert_eq.
  - match goal with Hq : ready old = _ |- _ => change (exists_in old r); apply (so_ready _ H); rewrite Hq; left end.
  - eapply so_table; eauto.
  - match goal with Hq : table old !! _ = Some _ |- _ => exact (proj1 (so_table _ H _ _ Hq)) end.
Qed.

(** A slot in a task's hands is not in the table, but for the task's own record. *)
Lemma hands_table i r : task_index pc = Some i -> table old !! i = Some r -> detaching pc = Some r.
Proof using All.
  intros Ei Er. destruct (so_table _ H i r Er) as [Hx Hi]. unfold exists_in in Hx.
  destruct (records old !! ref_id r) as [c|] eqn:Ec; [|done]. cbn in Hx. injection Hx as Hx.
  pose proof (proj1 (so_places _ H i (so_hands _ H t pc i Ht Ei))) as Hp. unfold places in Hp.
  pose proof (occurrences_nonneg i (free old)) as Ho.
  assert (forall q, 0 <= one (task_index q = Some i)) as H1 by (intros q; pose proof (one_range (task_index q = Some i)); lia).
  assert (forall q, 0 <= live_at i q) as H2 by (intros q; apply live_at_range).
  pose proof (map_sum_member _ _ t pc H1 Ht) as Ht1. cbn in Ht1.
  assert (one (task_index pc = Some i) = 1) as E1 by (unfold one; now rewrite decide_True).
  destruct (so_attached _ H _ c Ec) as [Hr|(t0 & pc0 & E0 & D0)]; [now rewrite Hx, Hi| |].
  - pose proof (map_sum_member (live_at i) _ _ c H2 Ec) as Hc.
    assert (live_at i c = 1) by (unfold live_at, one; now rewrite decide_True by (rewrite Hx; auto)). lia.
  - rewrite Hx in D0. destruct (decide (t0 = t)) as [->|Hn]; [congruence|].
    pose proof (map_sum_members _ _ t t0 pc pc0 H1 (not_eq_sym Hn) Ht E0) as Hm. cbn in Hm.
    assert (one (task_index pc0 = Some i) = 1) as E2.
    { unfold one. destruct pc0; cbn in D0; try done. injection D0 as ->. now rewrite decide_True by (cbn; now rewrite Hi). }
    pose proof (live_sum_nonneg i (records old)). lia.
Qed.

(** The free queue has room for a slot that is in a task's hands. *)
Lemma push_room i : task_index pc = Some i -> push i (free old) = Some (free old ++ [i]).
Proof using All.
  intros Ei. assert (forall j, j ∈ i :: free old -> 0 <= j < REPLY_SLOT_CAP) as Hr.
  { intros j [->|Hj]%elem_of_cons; [eapply so_hands; eauto|now apply (so_free _ H)]. }
  assert (NoDup (i :: free old)) as Hn.
  { apply occurrences_NoDup. intros j Hj. pose proof (proj1 (so_places _ H j (Hr j Hj))) as Hp. unfold places in Hp. cbn.
    assert (forall q, 0 <= one (task_index q = Some j)) as H1 by (intros q; pose proof (one_range (task_index q = Some j)); lia).
    pose proof (map_sum_member _ _ t pc H1 Ht) as Ht1. cbn in Ht1.
    pose proof (live_sum_nonneg j (records old)).
    unfold one in *. rewrite Ei in Ht1. repeat case_decide; simplify_eq; lia. }
  unfold push. assert (length (i :: free old) <= length (seqZ 0 REPLY_SLOT_CAP))%nat as Hl.
  { apply submseteq_length, NoDup_submseteq; [done|]. intros j Hj. apply elem_of_seqZ. specialize (Hr j Hj). lia. }
  rewrite length_seqZ in Hl. cbn in Hl. unfold REPLY_SLOT_CAP in *. unfold len.
  destruct (Z.ltb_spec (Z.of_nat (length (free old))) 64); [done|lia].
Qed.

(** The records that hold slot [i], after the action. *)
Lemma live_after i : map_sum (live_at i) (records S') = map_sum (live_at i) (records old)
  + match pc with
    | ReserveStore _ _ j _ => one (j = i)
    | RecycleSwap _ r _ => match records old !! ref_id r with Some c => - live_at i c | None => 0 end
    | _ => 0
    end.
Proof using All.
  rewrite (exec_records _ _ _ _ _ E). destruct (stored old pc) as [[r p]|] eqn:Es.
  - destruct pc; cbn in Es; try done. injection Es as <- <-. cbn. rewrite map_sum_insert.
    + unfold live_at at 1. cbn. unfold one. repeat case_decide; try lia; tauto.
    + destruct (records old !! next_record old) as [c|] eqn:Ec; [|done]. pose proof (so_records _ H _ _ Ec). lia.
  - unfold touched. destruct (touch pc) as [[r f]|] eqn:Et; [|destruct pc; try done; lia].
    destruct (touch_ref pc r f Et) as [Hr _]. pose proof (so_tasks _ H t pc r Ht Hr) as Hx. unfold exists_in in Hx.
    destruct (records old !! ref_id r) as [c|] eqn:Ec; [|done].
    assert (alter f (ref_id r) (records old) = <[ref_id r := f c]> (records old)) as ->.
    { rewrite (alter_agree f (fun _ => f c) _ _ c Ec eq_refl). apply map_eq. intros k. destruct (decide (k = ref_id r)) as [->|Hk].
      - now rewrite lookup_alter_eq, lookup_insert_eq, Ec.
      - now rewrite lookup_alter_ne, lookup_insert_ne by done. }
    rewrite (map_sum_replace _ _ _ c _ Ec). clear E. destruct pc; cbn in Et; try discriminate; injection Et as <- <-; cbn;
      unfold live_at; cbn; repeat (match goal with |- context [rc_ref (if ?d then _ else _)] => destruct d end); cbn; try lia.
    rewrite Ec. unfold one at 3. rewrite decide_False by (intros [Hf _]; discriminate). lia.
Qed.

Lemma tasks_after (f : SlotPc -> Z) : map_sum f (<[t := pc']> (slot_tasks y)) = map_sum f (slot_tasks y) - f pc + f pc'.
Proof using All. now apply map_sum_replace. Qed.

Lemma own_record r c : ref_of pc = Some r -> records old !! ref_id r = Some c -> rc_ref c = r.
Proof using All.
  intros Er Ec. pose proof (so_tasks _ H t pc r Ht Er) as Hx. unfold exists_in in Hx. rewrite Ec in Hx. now injection Hx.
Qed.

Lemma places_after i :
  places i y' = places i y - match pc with RecycleClosed _ r _ => if closed old then one (ref_index r = i) else 0 | _ => 0 end.
Proof using All.
  unfold places. cbn [slots slot_tasks]. rewrite tasks_after, live_after, (exec_free _ _ _ _ _ E).
  pose proof push_room as Hpush. pose proof hands_table as Htab. pose proof own_record as Hown.
  assert (forall k j, one (task_index (resume k) = Some j) = 0) as Hres by (intros [] j; done).
  remember (free old) as fr eqn:Ef. remember (table old) as tb eqn:Etb. remember (records old) as rs eqn:Ers.
  destruct pc; cbn in E; try discriminate; unfold end_record in E; cbn [free_after task_index] in *; rewrite <- ?Ef, <- ?Etb, <- ?Ers in E;
    try (destruct (rs !! ref_id r) as [c|] eqn:Ec; cbn in E; try discriminate; pose proof (Hown r c eq_refl Ec));
    try rewrite <- Ef; try rewrite (Hpush _ eq_refl) in *; unfold default, id; rewrite ?occurrences_app, ?live_at_eq;
    repeat case_match; simplify_eq; cbn [task_index list.tail occurrences]; rewrite ?Hres, ?one_some, ?one_none; try lia.
  match goal with Hq : table old !! _ = Some _ |- _ => pose proof (Htab _ _ eq_refl Hq); discriminate end.
Qed.

Lemma step_places i : 0 <= i < REPLY_SLOT_CAP -> places i y' <= 1 /\ (closed S' = false -> places i y' = 1).
Proof using All.
  intros Hi. rewrite places_after. destruct (so_places _ H i Hi) as [H1 H2].
  destruct (exec_fence _ _ _ _ _ E) as (_ & _ & _ & Hc).
  assert (forall r, 0 <= one (ref_index r = i)) as H3 by (intros r; pose proof (one_range (ref_index r = i)); lia).
  split.
  - destruct pc; try lia. specialize (H3 r). destruct (closed old); lia.
  - intros Hc'. destruct pc; rewrite Hc in Hc'; try (specialize (H2 Hc')); try lia; try discriminate. rewrite Hc'. lia.
Qed.

Lemma step_hands i : task_index pc' = Some i -> 0 <= i < REPLY_SLOT_CAP.
Proof using All.
  intros Ei. destruct (decide (task_index pc = Some i)) as [Eo|Eo]; [eapply so_hands; eauto|].
  destruct pc; cbn in E; try discriminate; unfold end_record in E;
    try (destruct (records old !! ref_id r) as [c|] eqn:Ec; cbn in E; try discriminate);
    repeat case_match; simplify_eq; try (match goal with H : task_index (resume ?k) = _ |- _ => destruct k end);
    cbn in Ei, Eo; simplify_eq; try done.
  - apply (so_free _ H). match goal with Hq : free old = _ |- _ => rewrite Hq; left end.
  - pose proof (so_tasks _ H t _ r Ht eq_refl) as Hx. unfold exists_in in Hx. rewrite Ec in Hx. cbn in Hx. injection Hx as Hx.
    pose proof (so_records _ H _ _ Ec) as Hr. rewrite Hx in Hr. apply Hr.
Qed.

Lemma step_free i : i ∈ free S' -> 0 <= i < REPLY_SLOT_CAP.
Proof using All.
  rewrite (exec_free _ _ _ _ _ E). intros Hi. pose proof push_room as Hpush. pose proof (so_hands _ H t pc) as Hh.
  assert (forall l, i ∈ free old ++ [l] -> task_index pc = Some l -> 0 <= i < REPLY_SLOT_CAP) as Hp.
  { intros l [Hl| ->%list_elem_of_singleton]%elem_of_app Hx; [now apply (so_free _ H)|eauto]. }
  destruct pc; cbn in Hi; try (now apply (so_free _ H)).
  - apply (so_free _ H). destruct (free old); [done|now right].
  - rewrite (Hpush _ eq_refl) in Hi. eapply Hp; eauto.
  - rewrite (Hpush _ eq_refl) in Hi. eapply Hp; eauto.
Qed.

Lemma step_records n c' : records S' !! n = Some c' ->
  ref_id (rc_ref c') = n /\ n < next_record S' /\ 0 <= ref_index (rc_ref c') < REPLY_SLOT_CAP.
Proof using All.
  intros En. rewrite (exec_next _ _ _ _ _ E).
  destruct (record_cases n c' En) as [(r & p & Es & -> & ->)|(c & Ec & Er & _)].
  - rewrite Es. destruct pc; cbn in Es; try done. injection Es as <- <-. cbn. split; [done|]. split; [lia|].
    exact (so_hands _ H t _ _ Ht eq_refl).
  - rewrite Er. pose proof (so_records _ H n c Ec). destruct (stored old pc); lia.
Qed.

Lemma table_cases i r : table S' !! i = Some r ->
  table old !! i = Some r \/ exists n p g, pc = ReserveStore n p i g /\ r = mkRef (next_record old) i g n.
Proof using All.
  rewrite (exec_table _ _ _ _ _ E). unfold table_after, detached.
  assert (forall j, delete j (table old) !! i = Some r -> table old !! i = Some r) as Hd
    by (intros j Hj; now apply lookup_delete_Some in Hj as [_ Hj]).
  destruct pc; intros Hr; repeat case_match; eauto.
  apply lookup_insert_Some in Hr as [[<- <-]|[_ Hr]]; eauto 10.
Qed.

Lemma step_table i r : table S' !! i = Some r -> exists_in S' r /\ ref_index r = i.
Proof using All.
  intros [Hr|(n & p & g & Hp & ->)]%table_cases.
  - destruct (so_table _ H i r Hr). auto using refs_grow.
  - split; [|done]. eapply stored_exists. rewrite Hp. reflexivity.
Qed.

Lemma step_ready r : r ∈ ready S' -> exists_in S' r.
Proof using All.
  assert (r ∈ ready S' -> r ∈ ready old \/ ref_of pc = Some r) as Hr.
  { rewrite (exec_ready _ _ _ _ _ E). destruct pc; cbn; auto; try (destruct (ready old); [auto|intros Hx; left; now right]).
    unfold push. case_match; cbn; auto. rewrite elem_of_app, list_elem_of_singleton. intros [?| ->]; auto. }
  intros Hx. destruct (Hr Hx) as [Ho|Ho]; apply refs_grow; [now apply (so_ready _ H)|eapply so_tasks; eauto].
Qed.

(** Records and tasks after the action, in terms of those before it. *)
Lemma old_id n c r p : records old !! n = Some c -> stored old pc = Some (r, p) -> rc_ref c <> r.
Proof using All.
  intros Ec Es Hx. pose proof (so_records _ H n c Ec) as Hr. rewrite Hx in Hr. clear E. destruct pc; cbn in Es; try done.
  injection Es as <- <-. cbn in Hr. lia.
Qed.

Lemma step_attached n c' : records S' !! n = Some c' -> table S' !! ref_index (rc_ref c') = Some (rc_ref c') ->
  rc_recycled c' = false \/ some_task detaching (rc_ref c') y'.
Proof using All.
  intros En Et. destruct (record_cases n c' En) as [(r & p & Es & -> & ->)|(c & Ec & Er & Hc)]; [now left|].
  rewrite Er in Et |- *. assert (table old !! ref_index (rc_ref c) = Some (rc_ref c)) as Eto.
  { destruct (table_cases _ _ Et) as [Ho|(m & p & g & Hp & Hr)]; [done|]. exfalso. eapply (old_id n c _ p); eauto. now rewrite Hp. }
  destruct (so_attached _ H n c Ec Eto) as [Hr|Hd].
  - destruct Hc as [[-> _]|(f & Ef & ->)]; [now left|]. destruct pc; cbn in Ef; try discriminate; simplify_eq; cbn;
      try (left; repeat case_decide; done). right. apply some_task_insert. left. cbn in E. rewrite <- (proj1 (so_records _ H n c Ec)) in Ec.
    rewrite Ec in E. cbn in E. rewrite Hr in E. now injection E as _ <-.
  - apply some_task_old in Hd as [Hd|Hd]; [|right; apply some_task_insert; auto].
    exfalso. rewrite (exec_table _ _ _ _ _ E) in Et. destruct pc; cbn in Hd; try discriminate. injection Hd as ->.
    unfold table_after, detached in Et. rewrite decide_True in Et by done. now rewrite lookup_delete_eq in Et.
Qed.

(** A task on duty for a record stays on duty until it has ended it. *)
Lemma duty_kept r : duty pc = Some r -> duty pc' = Some r \/ exists e k, pc = EndState e r k.
Proof using All.
  intros Ed. destruct pc; cbn in Ed; try discriminate; injection Ed as ->; cbn in E;
    try (destruct (records old !! ref_id r) as [c|]; cbn in E; try discriminate); repeat case_match; simplify_eq; cbn; eauto.
Qed.

Lemma releasing_kept r : releasing pc = Some r -> releasing pc' = Some r \/ exists e k, pc = RecycleResources e r k.
Proof using All.
  intros Ed. destruct pc; cbn in Ed; try discriminate; injection Ed as ->; cbn in E; repeat case_match; simplify_eq; cbn; eauto.
Qed.

(** A record that leaves the table has a task on duty. *)
Lemma leaves_table i r : table old !! i = Some r -> table S' !! i = Some r \/ duty pc' = Some r.
Proof using All.
  intros Er. rewrite (exec_table _ _ _ _ _ E). unfold table_after.
  assert (forall r0, detached r0 (table old) !! i = Some r \/ r0 = r) as Hd.
  { intros r0. unfold detached. case_decide as Hx; [|auto]. rewrite lookup_delete. case_decide as Hi; [|auto]. right. congruence. }
  pose proof (hands_table i r) as Hh. destruct pc; auto; cbn in E.
  - rewrite lookup_insert_ne; [auto|]. intros ->. specialize (Hh eq_refl Er). discriminate.
  - destruct (Hd r0) as [?| ->]; [auto|right]. injection E as _ <-. now destruct e.
  - destruct (Hd r0) as [?| ->]; [auto|right]. now injection E as _ <-.
  - destruct (i0 <? REPLY_SLOT_CAP); [|auto]. destruct (decide (i0 = i)) as [->|Hn]; [|left; now rewrite lookup_delete_ne].
    right. rewrite Er in E. now injection E as _ <-.
Qed.

Lemma step_duty n c' : records S' !! n = Some c' -> rc_state c' = STATE_RESERVED ->
  table S' !! ref_index (rc_ref c') = Some (rc_ref c') \/ some_task duty (rc_ref c') y'.
Proof using All.
  intros En Hs. destruct (record_cases n c' En) as [(r & p & Es & -> & ->)|(c & Ec & Er & Hc)].
  - left. rewrite (exec_table _ _ _ _ _ E). clear E. destruct pc; cbn in Es; try done. injection Es as <- <-. cbn. apply lookup_insert_eq.
  - rewrite Er. assert (rc_state c = STATE_RESERVED /\ forall e k, pc <> EndState e (rc_ref c) k) as [Hsc Hne].
    { destruct Hc as [[-> Hno]|(f & Ef & ->)].
      - split; [done|]. intros e k ->. eapply Hno. reflexivity.
      - clear E. destruct pc; cbn in Ef; try discriminate; simplify_eq; cbn in Hs; repeat case_decide; try done.
        cbn in Hs. now destruct e. }
    destruct (so_duty _ H n c Ec Hsc) as [Ht0|Hd].
    + destruct (leaves_table _ _ Ht0) as [|Hx]; [auto|right; apply some_task_insert; auto].
    + right. apply some_task_insert. apply some_task_old in Hd as [Hd|Hd]; [|auto].
      destruct (duty_kept _ Hd) as [|(e & k & Hx)]; [auto|]. now apply Hne in Hx.
Qed.

Lemma step_resources n c' : records S' !! n = Some c' -> rc_resources c' = true ->
  rc_recycled c' = false \/ some_task releasing (rc_ref c') y'.
Proof using All.
  intros En Hs. destruct (record_cases n c' En) as [(r & p & Es & -> & ->)|(c & Ec & Er & Hc)]; [now left|].
  rewrite Er. assert (rc_resources c = true) as Hsc.
  { destruct Hc as [[-> _]|(f & Ef & ->)]; [done|]. clear E. destruct pc; cbn in Ef; try discriminate; simplify_eq; cbn in Hs; repeat case_decide; done. }
  destruct (so_resources _ H n c Ec Hsc) as [Hr|Hd].
  - destruct Hc as [[-> _]|(f & Ef & ->)]; [now left|]. destruct pc; cbn in Ef; try discriminate; simplify_eq; cbn;
      try (left; repeat case_decide; done). right. apply some_task_insert. left. cbn in E. rewrite <- (proj1 (so_records _ H n c Ec)) in Ec.
    rewrite Ec in E. cbn in E. rewrite Hr in E. now injection E as _ <-.
  - right. apply some_task_insert. apply some_task_old in Hd as [Hd|Hd]; [|auto].
    destruct (releasing_kept _ Hd) as [|(e & k & Hx)]; [auto|]. exfalso. rewrite Hx in Hc.
    destruct Hc as [[-> Hno]|(f & Ef & ->)]; [eapply Hno; reflexivity|]. cbn in Ef. now simplify_eq.
Qed.

Lemma past_swap_new r : past_swap pc' = Some r -> past_swap pc = Some r \/ exists e k, pc = RecycleSwap e r k.
Proof using All.
  intros Ep. destruct pc; cbn in E; try discriminate; unfold end_record in E;
    try (destruct (records old !! ref_id r0) as [c|]; cbn in E; try discriminate); repeat case_match; simplify_eq; cbn in Ep |- *;
    try (match goal with Hp : past_swap (resume ?k) = _ |- _ => destruct k end); simplify_eq; try discriminate; eauto.
Qed.

Lemma step_recycled n c' : records S' !! n = Some c' -> rc_state c' <> STATE_RESERVED \/ some_task past_swap (rc_ref c') y' ->
  rc_recycled c' = true.
Proof using All.
  intros En Hp. destruct (record_cases n c' En) as [(r & p & Es & -> & ->)|(c & Ec & Er & Hc)].
  - exfalso. destruct Hp as [Hp|Hp]; [done|]. cbn in Hp. apply some_task_insert in Hp as [Hp|(t0 & pc0 & _ & E0 & Hp)].
    + destruct (past_swap_new r Hp) as [Hx|(e & k & Hx)]; clear E; destruct pc; try discriminate.
    + assert (exists_in old r) as Hx by (apply (so_tasks _ H t0 pc0 r E0); destruct pc0; cbn in Hp |- *; done).
      unfold exists_in in Hx. destruct (records old !! ref_id r) as [c|] eqn:Ec; [|done]. cbn in Hx. injection Hx as Hx.
      eapply (old_id _ c r p); eauto.
  - rewrite Er in Hp. assert (rc_recycled c = true -> rc_recycled c' = true) as Hm.
    { intros Hr. destruct Hc as [[-> _]|(f & Ef & ->)]; [done|]. clear E.
      destruct pc; cbn in Ef; try discriminate; simplify_eq; cbn; repeat case_decide; done. }
    destruct Hp as [Hp|Hp].
    + destruct (decide (rc_state c = STATE_RESERVED)) as [Hs|Hs]; [|apply Hm; eapply so_recycled; eauto].
      apply Hm. eapply so_recycled; [eauto..|]. right. exists t, pc. split; [done|].
      destruct Hc as [[-> _]|(f & Ef & ->)]; [done|]. clear E.
      destruct pc; cbn in Ef; try discriminate; simplify_eq; cbn in Hp |- *; repeat case_decide; done.
    + apply some_task_insert in Hp as [Hp|(t0 & pc0 & _ & E0 & Hp)].
      * destruct (past_swap_new _ Hp) as [Hx|(e & k & Hx)].
        -- apply Hm. eapply so_recycled; [eauto..|]. right. exists t, pc. auto.
        -- rewrite Hx in Hc. destruct Hc as [[-> Hno]|(f & Ef & ->)]; [exfalso; eapply Hno; reflexivity|].
           cbn in Ef. now simplify_eq.
      * apply Hm. eapply so_recycled; [eauto..|]. right. exists t0, pc0. auto.
Qed.

Lemma no_publishers : reservation_closed old = true -> publishers old = 0 ->
  publishers S' = 0 /\ reservation_closed S' = true /\ forall i, table old !! i = None -> table S' !! i = None.
Proof using All.
  intros Hc Hp. destruct (exec_fence _ _ _ _ _ E) as (F1 & F2 & F3 & _).
  assert (in_fence pc = false) as Hf.
  { rewrite (so_fence _ H) in Hp. destruct (in_fence pc) eqn:Hi; [|done].
    pose proof (map_sum_member (fun q => one (in_fence q = true)) _ t pc ltac:(intros q; apply one_range) Ht) as Hm. cbn in Hm.
    rewrite Hi in Hm. unfold one in Hm at 1. rewrite decide_True in Hm by done. lia. }
  assert (in_fence pc' = false) as Hf' by (destruct (in_fence pc') eqn:Hi; [specialize (F2 Hf eq_refl); congruence|done]).
  split; [rewrite F1, Hf, Hf'; unfold one; rewrite !decide_False by done; lia|].
  split; [rewrite F3; now destruct pc|].
  intros i Hi. destruct (table S' !! i) as [r|] eqn:Er; [|done].
  destruct (table_cases i r Er) as [|(n & p & g & Hx & _)]; [congruence|]. rewrite Hx in Hf. discriminate.
Qed.

Lemma swept_cases j : swept pc' = Some j ->
  (exists j0, swept pc = Some j0 /\ (j <= j0 \/ j = j0 + 1 /\ table S' !! j0 = None)) \/ pc = CloseSpin /\ publishers old = 0 /\ j = 0.
Proof using All.
  intros Ej. assert (forall k, swept (resume k) = swept_k k) as Hk by (intros [[]| | |]; done).
  destruct pc; cbn in E; try discriminate; unfold end_record in E;
    try (destruct (records old !! ref_id r) as [c|] eqn:Ec; cbn in E; try discriminate);
    repeat case_match; simplify_eq; cbn in Ej |- *; rewrite ?Hk in Ej; try discriminate; simplify_eq;
    try (left; eexists; split; [eassumption||reflexivity|left; lia]).
  - right. split; [done|]. split; [lia|done].
  - left. eexists. split; [reflexivity|]. right. split; [done|]. apply lookup_delete_eq.
  - left. eexists. split; [reflexivity|]. right. done.
Qed.

Lemma step_swept j : swept pc' = Some j -> reservation_closed S' = true /\ publishers S' = 0 /\ forall i, i < j -> table S' !! i = None.
Proof using All.
  intros [(j0 & Hj & Hc)|(Hpc & Hp & ->)]%swept_cases.
  - destruct (so_swept _ H t pc j0 Ht Hj) as (H1 & H2 & H3). destruct (no_publishers H1 H2) as (N1 & N2 & N3).
    split; [done|]. split; [done|]. intros i Hi. destruct Hc as [Hc|[-> Hc]]; [apply N3, H3; lia|].
    destruct (decide (i = j0)) as [->|Hx]; [done|]. apply N3, H3. lia.
  - pose proof (so_closing _ H t pc Ht (or_intror Hpc)) as H1. destruct (no_publishers H1 Hp) as (N1 & N2 & N3).
    split; [done|]. split; [done|]. intros i Hi. destruct (table S' !! i) as [r|] eqn:Er; [|done].
    destruct (step_table i r Er) as [Hx Hix]. unfold exists_in in Hx. destruct (records S' !! ref_id r) as [c|] eqn:Ec; [|done].
    cbn in Hx. injection Hx as Hx. pose proof (step_records _ c Ec) as Hr. rewrite Hx in Hr. lia.
Qed.

Lemma step_closing : pc' = CloseFlag \/ pc' = CloseSpin -> reservation_closed S' = true.
Proof using All.
  intros Hpc. destruct (exec_fence _ _ _ _ _ E) as (_ & _ & F3 & _). rewrite F3. pose proof (so_closing _ H t pc Ht) as Hc.
  destruct pc; cbn in E; try discriminate; try done; try (apply Hc; auto); unfold end_record in E;
    try (destruct (records old !! ref_id r) as [c|] eqn:Ec; cbn in E; try discriminate);
    repeat case_match; simplify_eq; destruct Hpc as [Hpc|Hpc]; try discriminate;
    match goal with Hx : resume ?k = _ |- _ => destruct k; discriminate end.
Qed.

Lemma slot_step_ok : slots_ok y'.
Proof using All.
  split; cbn [slots slot_tasks].
  - exact step_records.
  - intros t0 pc0 r E0 Er. apply lookup_insert_Some in E0 as [[<- <-]|[_ E0]]; [now apply new_ref|apply refs_grow; eapply so_tasks; eauto].
  - exact step_ready.
  - exact step_table.
  - exact step_attached.
  - exact step_free.
  - intros t0 pc0 i E0 Ei. apply lookup_insert_Some in E0 as [[<- <-]|[_ E0]]; [now apply step_hands|eapply so_hands; eauto].
  - exact step_places.
  - rewrite tasks_after. destruct (exec_fence _ _ _ _ _ E) as (F1 & _). rewrite F1, (so_fence _ H). lia.
  - exact step_duty.
  - exact step_resources.
  - exact step_recycled.
  - intros t0 pc0 j E0 Ej. apply lookup_insert_Some in E0 as [[<- <-]|[_ E0]]; [now apply step_swept|].
    destruct (so_swept _ H t0 pc0 j E0 Ej) as (H1 & H2 & H3). destruct (no_publishers H1 H2) as (N1 & N2 & N3). auto.
  - intros t0 pc0 E0 Hp. apply lookup_insert_Some in E0 as [[<- <-]|[_ E0]]; [now apply step_closing|].
    destruct (exec_fence _ _ _ _ _ E) as (_ & _ & F3 & _). rewrite F3. pose proof (so_closing _ H t0 pc0 E0 Hp). now destruct pc.
Qed.
End Step.

Lemma call_quiet c :
  task_index (call_start c) = None /\ in_fence (call_start c) = false /\ swept (call_start c) = None
  /\ call_start c <> CloseFlag /\ call_start c <> CloseSpin
  /\ detaching (call_start c) = None /\ duty (call_start c) = None /\ releasing (call_start c) = None /\ past_swap (call_start c) = None.
Proof. destruct c; done. Qed.

Lemma call_ref S c r : call_ok S c -> ref_of (call_start c) = Some r -> exists_in S r.
Proof. destruct c; cbn; try discriminate; now intros Hx [= <-]. Qed.

Lemma call_step_ok y t c :
  slots_ok y -> slot_tasks y !! t = None -> call_ok (slots y) c ->
  slots_ok (mkSlotSys (slots y) (<[t := call_start c]> (slot_tasks y))).
Proof.
  intros H Ht Hc. destruct (call_quiet c) as (Q1 & Q2 & Q3 & Q4 & Q5 & Q6 & Q7 & Q8 & Q9).
  assert (forall f r, f (call_start c) = None ->
    some_task f r (mkSlotSys (slots y) (<[t := call_start c]> (slot_tasks y))) <-> some_task f r y) as Hst.
  { intros f r Hf. rewrite some_task_insert. split.
    - intros [Hx|(t0 & pc0 & _ & E0 & F0)]; [congruence|]. now exists t0, pc0.
    - intros (t0 & pc0 & E0 & F0). right. exists t0, pc0. split; [intros ->; congruence|auto]. }
  split; cbn [slots slot_tasks]; try apply H.
  - intros t0 pc0 r E0 Er. apply lookup_insert_Some in E0 as [[<- <-]|[_ E0]]; [eapply call_ref; eauto|eapply so_tasks; eauto].
  - intros n r En Et. rewrite Hst by done. eapply so_attached; eauto.
  - intros t0 pc0 i E0 Ei. apply lookup_insert_Some in E0 as [[<- <-]|[_ E0]]; [congruence|eapply so_hands; eauto].
  - intros i Hi. unfold places. cbn [slots slot_tasks]. rewrite map_sum_insert by done. rewrite Q1, one_none. rewrite Z.add_0_l. now apply H.
  - rewrite map_sum_insert by done. rewrite Q2. unfold one at 1. rewrite decide_False by done. rewrite (so_fence _ H). lia.
  - intros n r En Es. rewrite Hst by done. eapply so_duty; eauto.
  - intros n r En Es. rewrite Hst by done. eapply so_resources; eauto.
  - intros n r En. rewrite Hst by done. eapply so_recycled; eauto.
  - intros t0 pc0 j E0 Ej. apply lookup_insert_Some in E0 as [[<- <-]|[_ E0]]; [congruence|eapply so_swept; eauto].
  - intros t0 pc0 E0 Ej. apply lookup_insert_Some in E0 as [[<- <-]|[_ E0]]; [now destruct Ej|eapply so_closing; eauto].
Qed.

Lemma reachable_slots_ok addr y : star (slot_step addr) slot_sys_new y -> slots_ok y.
Proof.
  assert (forall a b, star (slot_step addr) a b -> slots_ok a -> slots_ok b) as Hs.
  { induction 1 as [|a b c0 Hab Hbc IH]; [auto|]. intros Ha. apply IH. destruct Hab as [t c Hn Hc|t b Hr].
    - now apply call_step_ok.
    - unfold run_slot_task in Hr. destruct (slot_tasks a !! t) as [pc|] eqn:Ht; [|done].
      destruct (slots_exec addr (slots a) pc) as [[S' pc']|] eqn:E; [|done]. injection Hr as <-. eapply slot_step_ok; eauto. }
  intros H. eapply Hs; eauto using slots_new_ok.
Qed.

(** Every task has returned. *)
Definition quiet (y : SlotSys) : Prop := forall t pc, slot_tasks y !! t = Some pc -> exists x, pc = Returns x.

Lemma quiet_no_task f r y : quiet y -> (forall x, f (Returns x) = None) -> ~ some_task f r y.
Proof. intros Hq Hf (t & pc & E & F). destruct (Hq t pc E) as [x ->]. rewrite Hf in F. discriminate. Qed.


(** C20: closing the reply slots leaves no lease behind.  When the close has
    returned and no operation is under way any more, whatever raced with it,
    the table is empty and every record ever reserved has ended and given back
    its permits: no handler waits for ever for a reply that will not be sent. *)
Theorem close_ends_all addr y t :
  star (slot_step addr) slot_sys_new y -> slot_tasks y !! t = Some (Returns SlotsClosed) -> quiet y ->
  table (slots y) = ∅
  /\ forall n c, records (slots y) !! n = Some c -> rc_state c <> STATE_RESERVED /\ rc_resources c = false.
Proof.
  intros Hr Ht Hq. pose proof (reachable_slots_ok addr y Hr) as H.
  destruct (so_swept _ H t _ REPLY_SLOT_CAP Ht eq_refl) as (_ & _ & Hsw).
  assert (forall i, table (slots y) !! i = None) as Hnone.
  { intros i. destruct (table (slots y) !! i) as [r|] eqn:Er; [|done]. destruct (so_table _ H i r Er) as [Hx Hi].
    unfold exists_in in Hx. destruct (records (slots y) !! ref_id r) as [c|] eqn:Ec; [|done]. cbn in Hx. injection Hx as Hx.
    pose proof (so_records _ H _ c Ec) as Hc. rewrite Hx in Hc. rewrite Hsw in Er by lia. done. }
  split; [now apply map_empty|]. intros n c Ec. assert (rc_state c <> STATE_RESERVED) as Hs.
  { intros Hs. destruct (so_duty _ H n c Ec Hs) as [Hx|Hx]; [now rewrite Hnone in Hx|].
    now apply (quiet_no_task duty (rc_ref c) y Hq) in Hx. }
  split; [done|]. destruct (rc_resources c) eqn:Er; [|done].
  destruct (so_resources _ H n c Ec Er) as [Hx|Hx]; [rewrite (so_recycled _ H n c Ec) in Hx by auto; discriminate|].
  now apply (quiet_no_task releasing (rc_ref c) y Hq) in Hx.
Qed.

(** ** Executable schedules *)
Inductive SlotAct := SlotStart (t : Z) (c : SlotCall) | SlotRun (t : Z) (n : nat).

Fixpoint slot_run (addr : SocketAddr) (n : nat) (t : Z) (y : SlotSys) : SlotSys :=
  match n with
  | O => y
  | S n => match run_slot_task addr t y with Some y => slot_run addr n t y | None => y end
  end.

#[global] Instance call_ok_dec S c : Decision (call_ok S c).
Proof. destruct c; cbn; unfold exists_in; apply _. Defined.

Fixpoint slot_play (addr : SocketAddr) (acts : list SlotAct) (y : SlotSys) : option SlotSys :=
  match acts with
  | [] => Some y
  | SlotRun t n :: acts => slot_play addr acts (slot_run addr n t y)
  | SlotStart t c :: acts =>
      if decide (slot_tasks y !! t = None /\ call_ok (slots y) c)
      then slot_play addr acts (mkSlotSys (slots y) (<[t := call_start c]> (slot_tasks y)))
      else None
  end.

Lemma slot_run_star addr n t : forall y, star (slot_step addr) y (slot_run addr n t y).
Proof.
  induction n as [|n IH]; intros y; cbn; [apply star_refl|]. destruct (run_slot_task addr t y) as [y1|] eqn:E; [|apply star_refl].
  eapply star_step; [eapply slot_task; exact E|apply IH].
Qed.

Lemma slot_play_star addr acts : forall y y', slot_play addr acts y = Some y' -> star (slot_step addr) y y'.
Proof.
  induction acts as [|[t c|t n] acts IH]; intros y y' E; cbn in E.
  - injection E as <-. apply star_refl.
  - case_decide as Hd; [|done]. eapply star_step; [exact (slot_call addr y t c (proj1 Hd) (proj2 Hd))|now apply IH].
  - apply (star_trans _ _ (slot_run addr n t y)); [apply slot_run_star|now apply IH].
Qed.

(** Two leases are reserved; the first is published and on its way to the ready
    queue when the connection closes, the second is being discarded. *)
Definition closing_run : list SlotAct :=
  let r0 := mkRef 0 0 1 16 in
  let r1 := mkRef 1 1 1 16 in
  [SlotStart 1 (CallReserve 16 [0]); SlotRun 1 9; SlotStart 2 (CallReserve 16 [0]); SlotRun 2 9;
   SlotStart 3 (CallPublish r0 [1; 2]); SlotRun 3 9; SlotStart 4 (CallActivate r0); SlotRun 4 3;
   SlotStart 5 (CallDiscard r1); SlotRun 5 3; SlotStart 6 CallClose; SlotRun 6 3; SlotRun 4 9; SlotRun 5 4;
   SlotRun 6 300; SlotRun 5 20; SlotStart 7 (CallReserve 16 [0]); SlotRun 7 5].

Definition closing_end : SlotSys := default slot_sys_new (slot_play (SocketAddrV4 0 1) closing_run slot_sys_new).

Lemma closing_end_reachable : star (slot_step (SocketAddrV4 0 1)) slot_sys_new closing_end.
Proof. apply (slot_play_star _ closing_run). vm_compute. reflexivity. Qed.


Lemma close_ends_all_witness :
  table (slots closing_end) = ∅ /\ (rc_state <$> records (slots closing_end) !! 0) = Some STATE_COMPLETION_CLOSED
  /\ exists c, records (slots closing_end) !! 0 = Some c /\ rc_resources c = false.
Proof.
  assert (quiet closing_end) as Hq.
  { assert (Forall (fun p => exists x, p.2 = Returns x) (map_to_list (slot_tasks closing_end))) as Hf
      by (vm_compute; repeat constructor; eauto).
    intros t pc Ht. apply elem_of_map_to_list in Ht. rewrite list.Forall_forall in Hf. exact (Hf _ Ht). }
  destruct (close_ends_all (SocketAddrV4 0 1) closing_end 6 closing_end_reachable ltac:(vm_compute; reflexivity) Hq) as [H1 H2].
  split; [exact H1|]. split; [vm_compute; reflexivity|].
  destruct (records (slots closing_end) !! 0) as [c|] eqn:Ec; [|vm_compute in Ec; discriminate].
  exists c. split; [reflexivity|]. exact (proj2 (H2 0 c Ec)).
Defined.
