(* ===== verification/Concurrent.v ===== *)
(** * Programs of atomic actions, run side by side

    The lock-free code of the repository calls atomic operations on shared maps
    and cells one after the other, and decides by their results what comes next.
    Such code is a [prog]: a result, or an atomic action and what follows each
    result of it.  This file has their composition, a proof rule for a task among
    others that is free to change the shared state as [rely] allows and must
    change it as [guar] promises ([wp]), and the system in which labelled tasks
    are started and interleaved, with the theorem that the rule is sound. *)

From S2P Require Import Prelude.

(** ** Programs *)
Inductive prog (Act : Set -> Set) (A : Type) : Type :=
  | Ret (a : A)
  | Do {X : Set} (act : Act X) (k : X -> prog Act A).

Arguments Ret {_ _} a.
Arguments Do {_ _ _} act k.

Fixpoint prog_bind {Act : Set -> Set} {A B} (f : A -> prog Act B) (p : prog Act A) : prog Act B :=
  match p with
  | Ret a => f a
  | Do act k => Do act (fun x => prog_bind f (k x))
  end.

#[global] Instance prog_mret (Act : Set -> Set) : MRet (prog Act) := fun _ => Ret.
#[global] Instance prog_mbind (Act : Set -> Set) : MBind (prog Act) := fun _ _ => prog_bind.

Definition perform {Act : Set -> Set} {X : Set} (act : Act X) : prog Act X := Do act Ret.

(** [for x in l { f(x) }]. *)
Fixpoint for_each {Act : Set -> Set} {A} (f : A -> prog Act unit) (l : list A) : prog Act unit :=
  match l with
  | [] => Ret tt
  | x :: l => _ ← f x; for_each f l
  end.

(** [Iterator::find_map] over effects: the first element with a result. *)
Fixpoint find_first {Act : Set -> Set} {A B} (f : A -> prog Act (option B)) (l : list A) : prog Act (option B) :=
  match l with
  | [] => Ret None
  | x :: l => r ← f x; match r with Some b => Ret (Some b) | None => find_first f l end
  end.

Section Logic.
Context {State : Type} {Act : Set -> Set} (exec : forall X, Act X -> State -> State * X).

(** ** One task among others *)
Section Wp.
Context (rely guar : State -> State -> Prop) (inv : State -> Prop).

Fixpoint wp {A} (p : prog Act A) (Q : A -> State -> Prop) (s : State) : Prop :=
  match p with
  | Ret a => Q a s
  | Do act k => forall s1, rely s s1 -> inv s1 ->
      guar s1 (exec _ act s1).1 /\ inv (exec _ act s1).1 /\ wp (k (exec _ act s1).2) Q (exec _ act s1).1
  end.

Lemma wp_mono {A} (p : prog Act A) (Q Q' : A -> State -> Prop) s :
  (forall a s, Q a s -> Q' a s) -> wp p Q s -> wp p Q' s.
Proof.
  intros HQ. revert s. induction p as [a|X act k IH]; intros s; cbn; [apply HQ|].
  intros H s1 Hr Hi. destruct (H s1 Hr Hi) as (?&?&?). auto.
Qed.

Lemma wp_bind {A B} (f : A -> prog Act B) (p : prog Act A) (Q : B -> State -> Prop) s :
  wp p (fun a => wp (f a) Q) s -> wp (p ≫= f) Q s.
Proof.
  revert s. induction p as [a|X act k IH]; intros s; cbn; [done|].
  intros H s1 Hr Hi. destruct (H s1 Hr Hi) as (?&?&?). auto.
Qed.

(** What a task relies on keeps its proof. *)
Lemma wp_rely {A} (p : prog Act A) (Q : A -> State -> Prop) s s' :
  Transitive rely -> (forall a s s', rely s s' -> Q a s -> Q a s') -> rely s s' -> wp p Q s -> wp p Q s'.
Proof.
  intros Ht HQ Hr. destruct p as [a|X act k]; cbn; [by apply HQ|]. intros H s1 Hr1. apply H. by etrans.
Qed.

End Wp.

(** ** Tasks side by side

    A task is started under a label, which the state may refuse, and runs the
    label's program; [env] are the changes the tasks do not make. *)
Context {Label Env R : Type} (start : Label -> State -> option State) (body : Label -> prog Act R)
  (env : Env -> State -> option State).

Record Sys := mkSys {
  shared : State;
  tasks : gmap Z (Label * prog Act R);
}.

Inductive SysEvent := Spawn (t : Z) (l : Label) | Run (t : Z) | Outside (e : Env).

(** The next action of a program. *)
Definition run_prog (p : prog Act R) (s : State) : option (State * prog Act R) :=
  match p with
  | Ret _ => None
  | Do act k => Some ((exec _ act s).1, k (exec _ act s).2)
  end.

Definition sys_event (e : SysEvent) (y : Sys) : option Sys :=
  match e with
  | Spawn t l =>
      match tasks y !! t with
      | Some _ => None
      | None => s ← start l (shared y); Some (mkSys s (<[t := (l, body l)]> (tasks y)))
      end
  | Run t =>
      match tasks y !! t with
      | Some x => match run_prog x.2 (shared y) with
                  | Some r => Some (mkSys r.1 (<[t := (x.1, r.2)]> (tasks y)))
                  | None => None
                  end
      | None => None
      end
  | Outside e => s ← env e (shared y); Some (mkSys s (tasks y))
  end.

Definition sys_step (y y' : Sys) : Prop := exists e, sys_event e y = Some y'.

(** A schedule, for concrete runs. *)
Fixpoint play (es : list SysEvent) (y : Sys) : option Sys :=
  match es with
  | [] => Some y
  | e :: es => y' ← sys_event e y; play es y'
  end.

Lemma prog_play_star es y y' : play es y = Some y' -> star sys_step y y'.
Proof.
  revert y. induction es as [|e es IH]; intros y; cbn; [intros [= <-]; constructor|].
  destruct (sys_event e y) as [y1|] eqn:E; cbn; [|done]. intros H. econstructor; [by exists e|]. auto.
Qed.

(** Every task has returned. *)
Definition quiescent (y : Sys) : Prop := forall t l p, tasks y !! t = Some (l, p) -> exists r, p = Ret r.

(** ** Soundness *)
Section Sound.
Context (rely : State -> State -> Prop) (guar : Label -> State -> State -> Prop) (inv : State -> Prop)
  (Q : Label -> R -> State -> Prop).
Context `{!Transitive rely}
  (guar_rely : forall l s s', inv s -> guar l s s' -> rely s s')
  (Q_stable : forall l r s s', rely s s' -> Q l r s -> Q l r s')
  (start_ok : forall l s s', inv s -> start l s = Some s' ->
     rely s s' /\ inv s' /\ wp rely (guar l) inv (body l) (Q l) s')
  (env_ok : forall e s s', inv s -> env e s = Some s' -> rely s s' /\ inv s').

Definition sys_sound (y : Sys) : Prop :=
  inv (shared y) /\ forall t l p, tasks y !! t = Some (l, p) -> wp rely (guar l) inv p (Q l) (shared y).

Lemma tasks_rely y s : sys_sound y -> rely (shared y) s ->
  forall t l p, tasks y !! t = Some (l, p) -> wp rely (guar l) inv p (Q l) s.
Proof using All.
  intros [_ H] Hr t l p Ht. eapply wp_rely; eauto.
Qed.

Context `{!Reflexive rely}.

Lemma sys_event_sound e y y' : sys_sound y -> sys_event e y = Some y' -> sys_sound y' /\ rely (shared y) (shared y').
Proof using All.
  intros Hy. pose proof Hy as [Hi Ht]. destruct e as [t l|t|e]; cbn.
  - destruct (tasks y !! t) eqn:En; [done|]. destruct (start l (shared y)) as [s|] eqn:Es; cbn; [|done].
    intros [= <-]. destruct (start_ok l _ s Hi Es) as (Hr & Hi' & Hw). split; [split; cbn; [done|]|done].
    intros t' l' p'. rewrite lookup_insert. case_decide; [intros [= <- <-]; done|].
    intros. eapply tasks_rely; eauto.
  - destruct (tasks y !! t) as [[l p]|] eqn:En; [|done]. specialize (Ht _ _ _ En). destruct p as [r|X act k]; cbn; [done|].
    intros [= <-]. destruct (Ht (shared y)) as (Hg & Hi' & Hw); [reflexivity|done|].
    split; [split; cbn; [done|]|by eapply guar_rely].
    intros t' l' p'. rewrite lookup_insert. case_decide; [intros [= <- <-]; done|].
    intros. eapply tasks_rely; eauto.
  - destruct (env e (shared y)) as [s|] eqn:Es; cbn; [|done]. intros [= <-].
    destruct (env_ok e _ s Hi Es) as [Hr Hi']. split; [split; cbn; [done|]|done].
    intros. eapply tasks_rely; eauto.
Qed.

(** Reachable states keep the invariant, and a task that runs keeps its promise. *)
Lemma reachable_sound y y' : sys_sound y -> star sys_step y y' -> sys_sound y'.
Proof using All.
  intros H Hs. induction Hs as [|y1 y2 y3 [e He]]; [done|]. apply IHHs. by eapply sys_event_sound.
Qed.

Lemma run_keeps y y' t l p : sys_sound y -> tasks y !! t = Some (l, p) -> sys_event (Run t) y = Some y' ->
  guar l (shared y) (shared y').
Proof using All.
  intros [Hi Ht] En. cbn. rewrite En. specialize (Ht _ _ _ En). destruct p as [r|X act k]; cbn; [done|].
  intros [= <-]. destruct (Ht (shared y)) as (Hg & _); [reflexivity|done|]. done.
Qed.

End Sound.
End Logic.

Arguments mkSys {_ _ _ _} _ _.
Arguments shared {_ _ _ _} _.
Arguments tasks {_ _ _ _} _.
Arguments Spawn {_ _} _ _.
Arguments Run {_ _} _.
Arguments Outside {_ _} _.
