(* ===== verification/ConnectionConflict.v ===== *)
(** * Which of two connections survives

    The tie-break between duplicate connections to one peer
    (src/src/connection_pool/pool_connect.rs and [should_keep_connection] of
    src/src/registry.rs): the lower identity keeps the connection it dialled,
    the higher one the connection it accepted.  A connection is named by the
    instance id of its stream, which the process allocates once per connection
    and in increasing order. *)

From S2P Require Import Prelude Types ActorConflict ActorConverge.

Inductive ConnectionDirection := Inbound | Outbound.

#[global] Instance ConnectionDirection_eq_dec : EqDecision ConnectionDirection.
Proof. solve_decision. Defined.

(** What never changes of a [LockFreeConnection]; [correlation] names the
    tracker it shares.  Every connection of a transport has a stream. *)
Record Connection := mkConnection {
  instance_id : Z;
  c_addr : SocketAddr;
  direction : ConnectionDirection;
  remote_boot_id : option Z;
  embedded_peer_id : option PeerId;
  correlation : Z;
}.

#[global] Instance Connection_eq_dec : EqDecision Connection.
Proof. solve_decision. Defined.

Definition is_outbound (d : ConnectionDirection) : bool := bool_decide (d = Outbound).

(** [should_keep_connection]: the identities are the 32 bytes of the keys that
    authenticated the peers. *)
Definition should_keep_connection (local remote : PeerId) (outbound : bool) : bool :=
  if decide (remote = local) then false
  else match bytes_cmp (peer_bytes local) (peer_bytes remote) with
       | Lt => outbound
       | Gt => negb outbound
       | Eq => false
       end.

Inductive ConnectionConflictDecision :=
  | AcceptIncoming
  | ReplaceExisting
  | RejectIncoming
  | EvictStaleRejectIncoming.

Definition resolve_connection_conflict (existing_usable keep_existing keep_incoming incoming_session_is_newer : bool) :
    ConnectionConflictDecision :=
  if negb existing_usable then if keep_incoming then AcceptIncoming else EvictStaleRejectIncoming
  else if keep_incoming && (negb keep_existing || incoming_session_is_newer) then ReplaceExisting
  else RejectIncoming.

(** The comparison of process incarnations in
    [resolve_authenticated_connection_conflict] and [has_conflicting_remote_boot]. *)
Definition boots_differ (existing incoming : Connection) : bool :=
  match remote_boot_id existing, remote_boot_id incoming with
  | Some a, Some b => bool_decide (a <> b)
  | _, _ => false
  end.

Definition incoming_session_is_newer (incoming existing : Connection) : bool :=
  instance_id existing <? instance_id incoming.

(** ** What the tie-break decides *)

(** An incoming connection has the right to replace a live one. *)
Definition beats (local peer : PeerId) (incoming existing : Connection) : Prop :=
  should_keep_connection local peer (is_outbound (direction incoming)) = true
  /\ boots_differ existing incoming = false
  /\ (should_keep_connection local peer (is_outbound (direction existing)) = false
      \/ instance_id existing < instance_id incoming).

Definition flip (d : ConnectionDirection) : ConnectionDirection :=
  match d with Inbound => Outbound | Outbound => Inbound end.

Lemma bytes_cmp_ok : cmp_ok bytes_cmp.
Proof. apply list_cmp_ok, Z_cmp_ok. Qed.

Lemma keep_one_direction local remote outbound : local <> remote ->
  should_keep_connection local remote (negb outbound) = negb (should_keep_connection local remote outbound).
Proof.
  intros Hne. unfold should_keep_connection. rewrite !decide_False by congruence.
  destruct (bytes_cmp _ _) eqn:E; [|by destruct outbound..].
  apply (cmp_eq _ bytes_cmp_ok) in E. destruct local, remote; cbn in E. congruence.
Qed.

(** Both ends of a connection give it the same verdict: what is outbound at one
    is inbound at the other. *)
Lemma keep_agrees a b outbound : a <> b ->
  should_keep_connection a b outbound = should_keep_connection b a (negb outbound).
Proof.
  intros Hne. unfold should_keep_connection. rewrite !decide_False by congruence.
  rewrite (cmp_anti _ bytes_cmp_ok (peer_bytes a)). destruct (bytes_cmp _ _); cbn; by destruct outbound.
Qed.

(** ** Both ends keep the same connection

    The connections between two nodes, and what becomes of them when each node
    admits them one after the other, in an order of its own. *)
Record Link := mkLink { link_id : Z; dialled_by : PeerId; link_addr : SocketAddr }.

(** How [node] sees a link as its [n]th connection. *)
Definition connection_at (node peer : PeerId) (n : Z) (k : Link) : Connection :=
  mkConnection n (link_addr k) (if decide (dialled_by k = node) then Outbound else Inbound) None (Some peer) 0.

(** One more candidate meets the current session, which is alive. *)
Definition admit_one (node peer : PeerId) (current : option (Z * Link)) (n : Z) (k : Link) : option (Z * Link) :=
  match current with
  | None => Some (n, k)
  | Some (m, e) =>
      let existing := connection_at node peer m e in
      let incoming := connection_at node peer n k in
      match resolve_connection_conflict true
              (should_keep_connection node peer (is_outbound (direction existing)))
              (should_keep_connection node peer (is_outbound (direction incoming)))
              (incoming_session_is_newer incoming existing) with
      | AcceptIncoming | ReplaceExisting => Some (n, k)
      | RejectIncoming | EvictStaleRejectIncoming => Some (m, e)
      end
  end.

Fixpoint admit_all (node peer : PeerId) (current : option (Z * Link)) (n : Z) (ks : list Link) : option (Z * Link) :=
  match ks with
  | [] => current
  | k :: ks => admit_all node peer (admit_one node peer current n k) (n + 1) ks
  end.

(** The link is dialled from the side that keeps its outbound connections. *)
Definition preferred (node peer : PeerId) (k : Link) : bool :=
  should_keep_connection node peer (bool_decide (dialled_by k = node)).

Lemma direction_at node peer n k : is_outbound (direction (connection_at node peer n k)) = bool_decide (dialled_by k = node).
Proof. unfold is_outbound, connection_at. cbn. repeat case_decide; repeat case_bool_decide; congruence. Qed.

Lemma preferred_agrees a b k : a <> b -> dialled_by k = a \/ dialled_by k = b -> preferred a b k = preferred b a k.
Proof.
  intros Hne Hd. unfold preferred. rewrite keep_agrees by done. f_equal.
  repeat case_bool_decide; cbn; destruct Hd; congruence.
Qed.

(** A step keeps the only preferred link once it has it, and takes it when it comes. *)
Lemma admit_preferred node peer k n k' cur :
  (forall m e, cur = Some (m, e) -> preferred node peer e = true -> e = k) ->
  (preferred node peer k' = true -> k' = k) -> preferred node peer k = true ->
  (forall m e, admit_one node peer cur n k' = Some (m, e) -> preferred node peer e = true -> e = k)
  /\ ((k' = k \/ exists m, cur = Some (m, k)) -> exists m, admit_one node peer cur n k' = Some (m, k)).
Proof.
  intros Hcur Hk' Hk. unfold admit_one. destruct cur as [[m e]|].
  2: { split; [intros m e [= <- <-]; auto|intros [->|[m ?]]; [by eexists|done]]. }
  specialize (Hcur m e eq_refl). rewrite !direction_at.
  fold (preferred node peer k') (preferred node peer e). unfold resolve_connection_conflict. cbn.
  destruct (preferred node peer k') eqn:Ek; cbn.
  - specialize (Hk' eq_refl) as ->. destruct (preferred node peer e) eqn:Ee; cbn.
    + specialize (Hcur eq_refl) as ->. destruct (incoming_session_is_newer _ _); split; eauto; intros ?? [= <- <-]; done.
    + split; [intros ?? [= <- <-]; done|by eexists].
  - split; [intros ?? [= <- <-]; done|]. intros [->|[? [= <- <-]]]; [congruence|by eexists].
Qed.

Lemma admit_all_preferred node peer k ks : Forall (fun k' => preferred node peer k' = true -> k' = k) ks ->
  preferred node peer k = true ->
  forall n cur, (forall m e, cur = Some (m, e) -> preferred node peer e = true -> e = k) ->
    k ∈ ks \/ (exists m, cur = Some (m, k)) ->
    exists m, admit_all node peer cur n ks = Some (m, k).
Proof.
  intros Hks Hk. induction Hks as [|k' ks Hk' _ IH]; intros n cur Hcur Hin; cbn [admit_all].
  { destruct Hin as [H%elem_of_nil|H]; done. }
  destruct (admit_preferred node peer k n k' cur Hcur Hk' Hk) as [H1 H2]. apply IH; [done|].
  destruct Hin as [[->|Hin]%elem_of_cons|Hin]; auto.
Qed.

(** C23: both ends keep the same connection.  Two nodes with different identities
    opened any number of connections to each other, of which the side that
    keeps its outbound connections dialled exactly one.  However many there are
    and in whatever order each node admits them, both end with that one as the
    session: the tie-break never makes the two ends drop each other's choice. *)
Theorem both_ends_keep_same a b k ks ks' : a <> b -> ks ≡ₚ ks' ->
  Forall (fun k' => dialled_by k' = a \/ dialled_by k' = b) ks ->
  k ∈ ks -> preferred a b k = true -> Forall (fun k' => preferred a b k' = true -> k' = k) ks ->
  (exists m, admit_all a b None 0 ks = Some (m, k)) /\ (exists m, admit_all b a None 0 ks' = Some (m, k)).
Proof.
  intros Hne Hp Hd Hin Hk Hks. split.
  - apply admit_all_preferred; [done|done|done|by left].
  - assert (forall x, x ∈ ks -> preferred b a x = preferred a b x) as Heq.
    { intros x Hx. symmetry. apply preferred_agrees; [done|]. by apply (proj1 (list.Forall_forall _ _) Hd). }
    apply admit_all_preferred; [|by rewrite Heq|done|left; by rewrite <- Hp].
    apply list.Forall_forall. intros x Hx. rewrite <- Hp in Hx. rewrite Heq by done.
    by apply (proj1 (list.Forall_forall _ _) Hks).
Qed.

Lemma both_ends_keep_same_witness :
  let a := mkPeerId [1] in let b := mkPeerId [2] in
  let x := mkLink 0 a (SocketAddrV4 1 1) in let y := mkLink 1 b (SocketAddrV4 1 2) in
  let z := mkLink 2 b (SocketAddrV4 1 3) in
  (exists m, admit_all a b None 0 [y; x; z] = Some (m, x)) /\ (exists m, admit_all b a None 0 [z; y; x] = Some (m, x)).
Proof.
  intros a b x y z. apply both_ends_keep_same; [done| | |set_solver|reflexivity|].
  - change [z; y; x] with (rev [x; y; z]). rewrite <- (Permutation_rev [x; y; z]). apply perm_swap.
  - apply list.Forall_cons; split; [by right|]. apply list.Forall_cons; split; [by left|]. apply list.Forall_cons; split; [by right|done].
  - repeat constructor; cbn; try done; vm_compute; done.
Defined.
