(* ===== verification/ConnectionPool.v ===== *)
(** * The connection pool

    [ConnectionPool] of src/src/connection_pool/pool_connect.rs and
    pool_index.rs, with the callers of src/src/handle.rs, registry.rs and
    stream_writer.rs that admit, replace and retire connections.  The pool is a
    set of lock-free maps and cells; every operation on one key is atomic, and
    everything else is a program of such operations.  A walk over a map reads it
    at once; what it found is then removed entry by entry, each removal checking
    the entry again.  Left out are the notifications of routing changes, the
    gate of disconnect callbacks, lifecycle events, and the pruning of idle
    sessions, which spares every session in use. *)

From S2P Require Import Prelude Types Concurrent ConnectionConflict.

(** ** The cadence of dials to a peer ([OutboundDialRetry]) *)
Record DialRetry := mkDialRetry {
  consecutive_failures : Z;
  retry_not_before : option Z;
  dial_generation : Z;
}.

Definition dial_retry_new : DialRetry := mkDialRetry 0 None 0.
Definition OUTBOUND_DIAL_RETRY_FLOOR : Z := 1000.

Definition try_claim_attempt (now : Z) (r : DialRetry) : option (Z * DialRetry) :=
  match retry_not_before r with
  | Some deadline => if now <? deadline then None
                     else let g := wrapping_add u64_max (dial_generation r) 1 in
                       Some (g, mkDialRetry (consecutive_failures r) (Some (now + OUTBOUND_DIAL_RETRY_FLOOR)) g)
  | None => let g := wrapping_add u64_max (dial_generation r) 1 in
      Some (g, mkDialRetry (consecutive_failures r) (Some (now + OUTBOUND_DIAL_RETRY_FLOOR)) g)
  end.

Definition record_failure (now attempt : Z) (r : DialRetry) : DialRetry :=
  if negb (dial_generation r =? attempt) then r
  else let n := saturating_add u8_max (consecutive_failures r) 1 in
    mkDialRetry n (Some (now + if n =? 1 then 0 else OUTBOUND_DIAL_RETRY_FLOOR)) (dial_generation r).

Definition record_success (attempt : Z) (r : DialRetry) : DialRetry :=
  if negb (dial_generation r =? attempt) then r
  else mkDialRetry 0 None (wrapping_add u64_max (dial_generation r) 1).

Definition record_neutral (attempt : Z) (r : DialRetry) : DialRetry :=
  if negb (dial_generation r =? attempt) then r
  else mkDialRetry (consecutive_failures r) None (wrapping_add u64_max (dial_generation r) 1).

(** [record_published_connection] and [reset_after_explicit_disconnect]. *)
Definition record_published_connection (r : DialRetry) : DialRetry :=
  mkDialRetry 0 None (wrapping_add u64_max (dial_generation r) 1).

(** ** State *)
Record PeerSession := mkSession {
  route_addr : option SocketAddr;
  required_addr : option SocketAddr;
  required_peer : bool;
  current_connection : option Connection;
  outbound_dial_retry : DialRetry;
}.

Definition session_new : PeerSession := mkSession None None false None dial_retry_new.

(** [live] are the connections whose stream has not exited, [registry_up]
    whether the registry's weak reference still upgrades, [capabilities] and
    [tie_break_evictions] what the pool's users touch of the registry,
    [cancelled] the trackers whose asks were cancelled, [allocated] and
    [exited] the connections that came to be and whose exit was handled. *)
Record Pool := mkPool {
  peer_sessions : gmap PeerId PeerSession;
  connections_by_peer : gmap PeerId Connection;
  connections_by_addr : gmap SocketAddr Connection;
  addr_to_peer_id : gmap SocketAddr PeerId;
  peer_id_to_addr : gmap PeerId SocketAddr;
  counted_instances : gset Z;
  connection_counter : Z;
  routing_revision : Z;
  live : gset Z;
  registry_up : bool;
  capabilities : gset SocketAddr;
  tie_break_evictions : list PeerId;
  cancelled : list Z;
  allocated : gset Z;
  exited : gset Z;
}.

Definition pool_new : Pool := mkPool ∅ ∅ ∅ ∅ ∅ ∅ 0 0 ∅ true ∅ [] [] ∅ ∅.

Definition current (s : Pool) (p : PeerId) : option Connection := peer_sessions s !! p ≫= current_connection.

(** ** Updates *)
Definition set_sessions f s := mkPool (f (peer_sessions s)) (connections_by_peer s) (connections_by_addr s)
  (addr_to_peer_id s) (peer_id_to_addr s) (counted_instances s) (connection_counter s) (routing_revision s) (live s)
  (registry_up s) (capabilities s) (tie_break_evictions s) (cancelled s) (allocated s) (exited s).
Definition set_by_peer f s := mkPool (peer_sessions s) (f (connections_by_peer s)) (connections_by_addr s)
  (addr_to_peer_id s) (peer_id_to_addr s) (counted_instances s) (connection_counter s) (routing_revision s) (live s)
  (registry_up s) (capabilities s) (tie_break_evictions s) (cancelled s) (allocated s) (exited s).
Definition set_by_addr f s := mkPool (peer_sessions s) (connections_by_peer s) (f (connections_by_addr s))
  (addr_to_peer_id s) (peer_id_to_addr s) (counted_instances s) (connection_counter s) (routing_revision s) (live s)
  (registry_up s) (capabilities s) (tie_break_evictions s) (cancelled s) (allocated s) (exited s).
Definition set_routes f s := mkPool (peer_sessions s) (connections_by_peer s) (connections_by_addr s)
  (f (addr_to_peer_id s)) (peer_id_to_addr s) (counted_instances s) (connection_counter s) (routing_revision s) (live s)
  (registry_up s) (capabilities s) (tie_break_evictions s) (cancelled s) (allocated s) (exited s).
Definition set_peer_addrs f s := mkPool (peer_sessions s) (connections_by_peer s) (connections_by_addr s)
  (addr_to_peer_id s) (f (peer_id_to_addr s)) (counted_instances s) (connection_counter s) (routing_revision s) (live s)
  (registry_up s) (capabilities s) (tie_break_evictions s) (cancelled s) (allocated s) (exited s).
Definition set_counted f s := mkPool (peer_sessions s) (connections_by_peer s) (connections_by_addr s)
  (addr_to_peer_id s) (peer_id_to_addr s) (f (counted_instances s)) (connection_counter s) (routing_revision s) (live s)
  (registry_up s) (capabilities s) (tie_break_evictions s) (cancelled s) (allocated s) (exited s).
Definition set_counter f s := mkPool (peer_sessions s) (connections_by_peer s) (connections_by_addr s)
  (addr_to_peer_id s) (peer_id_to_addr s) (counted_instances s) (f (connection_counter s)) (routing_revision s) (live s)
  (registry_up s) (capabilities s) (tie_break_evictions s) (cancelled s) (allocated s) (exited s).
Definition set_revision f s := mkPool (peer_sessions s) (connections_by_peer s) (connections_by_addr s)
  (addr_to_peer_id s) (peer_id_to_addr s) (counted_instances s) (connection_counter s) (f (routing_revision s)) (live s)
  (registry_up s) (capabilities s) (tie_break_evictions s) (cancelled s) (allocated s) (exited s).
Definition set_live f s := mkPool (peer_sessions s) (connections_by_peer s) (connections_by_addr s)
  (addr_to_peer_id s) (peer_id_to_addr s) (counted_instances s) (connection_counter s) (routing_revision s) (f (live s))
  (registry_up s) (capabilities s) (tie_break_evictions s) (cancelled s) (allocated s) (exited s).
Definition set_registry_down s := mkPool (peer_sessions s) (connections_by_peer s) (connections_by_addr s)
  (addr_to_peer_id s) (peer_id_to_addr s) (counted_instances s) (connection_counter s) (routing_revision s) (live s)
  false (capabilities s) (tie_break_evictions s) (cancelled s) (allocated s) (exited s).
Definition set_capabilities f s := mkPool (peer_sessions s) (connections_by_peer s) (connections_by_addr s)
  (addr_to_peer_id s) (peer_id_to_addr s) (counted_instances s) (connection_counter s) (routing_revision s) (live s)
  (registry_up s) (f (capabilities s)) (tie_break_evictions s) (cancelled s) (allocated s) (exited s).
Definition set_evictions f s := mkPool (peer_sessions s) (connections_by_peer s) (connections_by_addr s)
  (addr_to_peer_id s) (peer_id_to_addr s) (counted_instances s) (connection_counter s) (routing_revision s) (live s)
  (registry_up s) (capabilities s) (f (tie_break_evictions s)) (cancelled s) (allocated s) (exited s).
Definition set_cancelled_trackers f s := mkPool (peer_sessions s) (connections_by_peer s) (connections_by_addr s)
  (addr_to_peer_id s) (peer_id_to_addr s) (counted_instances s) (connection_counter s) (routing_revision s) (live s)
  (registry_up s) (capabilities s) (tie_break_evictions s) (f (cancelled s)) (allocated s) (exited s).
Definition set_allocated f s := mkPool (peer_sessions s) (connections_by_peer s) (connections_by_addr s)
  (addr_to_peer_id s) (peer_id_to_addr s) (counted_instances s) (connection_counter s) (routing_revision s) (live s)
  (registry_up s) (capabilities s) (tie_break_evictions s) (cancelled s) (f (allocated s)) (exited s).
Definition set_exited f s := mkPool (peer_sessions s) (connections_by_peer s) (connections_by_addr s)
  (addr_to_peer_id s) (peer_id_to_addr s) (counted_instances s) (connection_counter s) (routing_revision s) (live s)
  (registry_up s) (capabilities s) (tie_break_evictions s) (cancelled s) (allocated s) (f (exited s)).

Definition with_current (c : option Connection) (x : PeerSession) : PeerSession :=
  mkSession (route_addr x) (required_addr x) (required_peer x) c (outbound_dial_retry x).
Definition with_route (a : option SocketAddr) (x : PeerSession) : PeerSession :=
  mkSession a (required_addr x) (required_peer x) (current_connection x) (outbound_dial_retry x).
Definition with_retry (f : DialRetry -> DialRetry) (x : PeerSession) : PeerSession :=
  mkSession (route_addr x) (required_addr x) (required_peer x) (current_connection x) (f (outbound_dial_retry x)).

Definition session_configured_addr (x : PeerSession) : option SocketAddr :=
  match route_addr x with Some a => Some a | None => required_addr x end.

(** ** Atomic actions *)
Inductive Cas := CasOk | CasErr (found : option Connection).

Inductive PoolAct : Set -> Set :=
  (* the peer's session: its current connection, its addresses, its dials *)
  | SessionEnsure (p : PeerId) : PoolAct unit
  | CurrentRead (p : PeerId) : PoolAct (option Connection)
  | CurrentCas (p : PeerId) (expected new : option Connection) : PoolAct Cas
  | CurrentStore (p : PeerId) (c : Connection) : PoolAct unit
  | CurrentTake (p : PeerId) : PoolAct (option Connection)
  | SessionAddr (p : PeerId) : PoolAct (option SocketAddr)
  | SessionRequiredAddr (p : PeerId) : PoolAct (option SocketAddr)
  | SessionRequired (p : PeerId) : PoolAct bool
  | SessionSetRoute (p : PeerId) (a : SocketAddr) : PoolAct unit
  | RetryPublished (p : PeerId) : PoolAct unit
  | SessionPeers : PoolAct (list PeerId)
  | SessionPrunable (p : PeerId) : PoolAct bool
  | SessionPrune (p : PeerId) : PoolAct bool
  (* the maps *)
  | ByPeerRead (p : PeerId) : PoolAct (option Connection)
  | ByPeerInsert (p : PeerId) (c : Connection) : PoolAct unit
  | ByPeerRemoveIf (p : PeerId) (c : Connection) : PoolAct bool
  | ByPeerRemove (p : PeerId) : PoolAct bool
  | ByAddrRead (a : SocketAddr) : PoolAct (option Connection)
  | ByAddrInsert (a : SocketAddr) (c : Connection) : PoolAct unit
  | ByAddrRemoveIf (a : SocketAddr) (c : Connection) : PoolAct bool
  | ByAddrRemoveInstance (a : SocketAddr) (i : Z) : PoolAct (option Connection)
  | ByAddrRemove (a : SocketAddr) : PoolAct (option Connection)
  | ByAddrAll : PoolAct (list SocketAddr)
  | AliasesOf (c : Connection) : PoolAct (list SocketAddr)
  | RouteRead (a : SocketAddr) : PoolAct (option PeerId)
  | RouteInsert (a : SocketAddr) (p : PeerId) : PoolAct unit
  | RouteRemoveRetired (a : SocketAddr) (c : Connection) : PoolAct unit
  | RouteRemove (a : SocketAddr) : PoolAct (option PeerId)
  | RoutesOf (p : PeerId) : PoolAct (list SocketAddr)
  | PeerAddrRead (p : PeerId) : PoolAct (option SocketAddr)
  | PeerAddrInsert (p : PeerId) (a : SocketAddr) : PoolAct unit
  | PeerAddrReverse (a : SocketAddr) : PoolAct (option PeerId)
  | PeerAddrAll : PoolAct (list (PeerId * SocketAddr))
  | PeerAddrRemoveIf (p : PeerId) (a : SocketAddr) : PoolAct unit
  (* accounting *)
  | CountInsert (i : Z) : PoolAct bool
  | CountRemove (i : Z) : PoolAct bool
  | CounterAdd (d : Z) : PoolAct unit
  | MarkRouting : PoolAct unit
  (* connections and the registry *)
  | HasLiveStream (c : Connection) : PoolAct bool
  | SignalExit (c : Connection) : PoolAct unit
  | CancelAll (c : Connection) : PoolAct unit
  | RegistryUpgrade : PoolAct bool
  | ClearCapabilities (a : SocketAddr) : PoolAct unit
  | NoteTieBreakEviction (p : PeerId) : PoolAct unit.

Definition lookup_session (s : Pool) (p : PeerId) : PeerSession := default session_new (peer_sessions s !! p).

Definition remove_if {K A} `{Countable K} (P : A -> bool) (k : K) (m : gmap K A) : gmap K A * option A :=
  match m !! k with
  | Some a => if P a then (delete k m, Some a) else (m, None)
  | None => (m, None)
  end.

(** Another connection is indexed at the address. *)
Definition successor_at (s : Pool) (a : SocketAddr) (retired : Connection) : bool :=
  match connections_by_addr s !! a with Some c => bool_decide (c <> retired) | None => false end.

(** What [prune_idle_peer_sessions] looks at of the session's own fields. *)
Definition prunable (x : PeerSession) : bool := negb (required_peer x) && negb (bool_decide (is_Some (current_connection x))).

Definition pool_exec (X : Set) (act : PoolAct X) (s : Pool) : Pool * X :=
  match act with
  | SessionEnsure p =>
      (set_sessions (fun m => match m !! p with Some _ => m | None => <[p := session_new]> m end) s, tt)
  | CurrentRead p => (s, current s p)
  | CurrentCas p expected new =>
      match peer_sessions s !! p with
      | None => (s, CasErr None)
      | Some x => if decide (current_connection x = expected)
                  then (set_sessions <[p := with_current new x]> s, CasOk)
                  else (s, CasErr (current_connection x))
      end
  | CurrentStore p c => (set_sessions (fun m => <[p := with_current (Some c) (default session_new (m !! p))]> m) s, tt)
  | CurrentTake p =>
      (set_sessions (fun m => <[p := with_current None (default session_new (m !! p))]> m) s, current s p)
  | SessionAddr p => (s, peer_sessions s !! p ≫= session_configured_addr)
  | SessionRequiredAddr p => (s, peer_sessions s !! p ≫= required_addr)
  | SessionRequired p => (s, match peer_sessions s !! p with Some x => required_peer x | None => false end)
  | SessionSetRoute p a => (set_sessions (fun m => <[p := with_route (Some a) (default session_new (m !! p))]> m) s, tt)
  | RetryPublished p => (set_sessions (alter (with_retry record_published_connection) p) s, tt)
  | SessionPeers => (s, (map_to_list (peer_sessions s)).*1)
  | SessionPrunable p => (s, match peer_sessions s !! p with Some x => prunable x | None => false end)
  | SessionPrune p =>
      let '(m, r) := remove_if prunable p (peer_sessions s) in (set_sessions (fun _ => m) s, bool_decide (is_Some r))
  | ByPeerRead p => (s, connections_by_peer s !! p)
  | ByPeerInsert p c => (set_by_peer <[p := c]> s, tt)
  | ByPeerRemoveIf p c =>
      let '(m, r) := remove_if (fun v => bool_decide (v = c)) p (connections_by_peer s) in
      (set_by_peer (fun _ => m) s, bool_decide (is_Some r))
  | ByPeerRemove p => (set_by_peer (delete p) s, bool_decide (is_Some (connections_by_peer s !! p)))
  | ByAddrRead a => (s, connections_by_addr s !! a)
  | ByAddrInsert a c => (set_by_addr <[a := c]> s, tt)
  | ByAddrRemoveIf a c =>
      let '(m, r) := remove_if (fun v => bool_decide (v = c)) a (connections_by_addr s) in
      (set_by_addr (fun _ => m) s, bool_decide (is_Some r))
  | ByAddrRemoveInstance a i =>
      let '(m, r) := remove_if (fun v => instance_id v =? i) a (connections_by_addr s) in (set_by_addr (fun _ => m) s, r)
  | ByAddrRemove a => (set_by_addr (delete a) s, connections_by_addr s !! a)
  | ByAddrAll => (s, (map_to_list (connections_by_addr s)).*1)
  | AliasesOf c => (s, (filter (fun x => x.2 = c) (map_to_list (connections_by_addr s))).*1)
  | RouteRead a => (s, addr_to_peer_id s !! a)
  | RouteInsert a p => (set_routes <[a := p]> s, tt)
  | RouteRemoveRetired a c => (if successor_at s a c then s else set_routes (delete a) s, tt)
  | RouteRemove a => (set_routes (delete a) s, addr_to_peer_id s !! a)
  | RoutesOf p => (s, (filter (fun x => x.2 = p) (map_to_list (addr_to_peer_id s))).*1)
  | PeerAddrRead p => (s, peer_id_to_addr s !! p)
  | PeerAddrInsert p a => (set_peer_addrs <[p := a]> s, tt)
  | PeerAddrReverse a => (s, head (filter (fun x => x.2 = a) (map_to_list (peer_id_to_addr s))).*1)
  | PeerAddrAll => (s, map_to_list (peer_id_to_addr s))
  | PeerAddrRemoveIf p a => (set_peer_addrs (fun m => (remove_if (fun v => bool_decide (v = a)) p m).1) s, tt)
  | CountInsert i => (set_counted (fun m => {[i]} ∪ m) s, bool_decide (i ∉ counted_instances s))
  | CountRemove i => (set_counted (fun m => m ∖ {[i]}) s, bool_decide (i ∈ counted_instances s))
  | CounterAdd d => (set_counter (fun n => n + d) s, tt)
  | MarkRouting => (set_revision (fun n => wrapping_add u64_max n 1) s, tt)
  | HasLiveStream c => (s, bool_decide (instance_id c ∈ live s))
  | SignalExit c => (set_live (fun m => m ∖ {[instance_id c]}) s, tt)
  | CancelAll c => (set_cancelled_trackers (cons (correlation c)) s, tt)
  | RegistryUpgrade => (s, registry_up s)
  | ClearCapabilities a => (set_capabilities (fun m => m ∖ {[a]}) s, tt)
  | NoteTieBreakEviction p => (set_evictions (cons p) s, tt)
  end.

(** ** Operations of the pool *)
Abbreviation Op := (prog PoolAct).

(** [local] is this node's identity. *)
Section Operations.
Context (local : PeerId).

Definition keep (p : PeerId) (outbound : bool) : bool := should_keep_connection local p outbound.

(** [abort_tasks_inner]. *)
Definition abort_tasks_inner (c : Connection) (cancel_correlation : bool) : Op unit :=
  perform (SignalExit c);;
  if cancel_correlation then perform (CancelAll c) else Ret tt.

Definition abort_tasks (c : Connection) : Op unit := abort_tasks_inner c true.
Definition abort_tasks_keep_correlation (c : Connection) : Op unit := abort_tasks_inner c false.

Definition count_in_new_instance (i : Z) : Op unit :=
  fresh ← perform (CountInsert i);
  if (fresh : bool) then perform (CounterAdd 1) else Ret tt.

Definition release_counted_instance (i : Z) : Op unit :=
  counted ← perform (CountRemove i);
  if (counted : bool) then perform (CounterAdd (-1)) else Ret tt.

Definition release_counted_connection (c : Connection) : Op unit := release_counted_instance (instance_id c).

Definition clear_capabilities_for_addr (a : SocketAddr) : Op unit :=
  up ← perform RegistryUpgrade;
  if (up : bool) then perform (ClearCapabilities a) else Ret tt.

Definition address_has_successor (a : SocketAddr) (retired : Connection) : Op bool :=
  found ← perform (ByAddrRead a);
  Ret (match found with Some c => bool_decide (c <> retired) | None => false end).

Definition clear_address_route_if_retired (a : SocketAddr) (retired : Connection) : Op unit :=
  succeeded ← address_has_successor a retired;
  if (succeeded : bool) then Ret tt
  else
    perform (RouteRemoveRetired a retired);;
    succeeded ← address_has_successor a retired;
    if (succeeded : bool) then Ret tt else clear_capabilities_for_addr a.

Definition publish_address_index (a : SocketAddr) (c : Connection) (p : option PeerId) : Op unit :=
  perform (ByAddrInsert a c);;
  match p with Some p => perform (RouteInsert a p) | None => Ret tt end.

(** The removal of every alias of a connection; whether one was there. *)
Fixpoint sweep_aliases (c : Connection) (addrs : list SocketAddr) (changed : bool) : Op bool :=
  match addrs with
  | [] => Ret changed
  | a :: addrs =>
      removed ← perform (ByAddrRemoveIf a c);
      if (removed : bool)
      then clear_address_route_if_retired a c;; sweep_aliases c addrs true
      else sweep_aliases c addrs changed
  end.

Definition mark_if (changed : bool) : Op unit := if changed then perform MarkRouting else Ret tt.

Definition retire_displaced_expected (expected winner : Connection) : Op unit :=
  addrs ← perform (AliasesOf expected);
  changed ← sweep_aliases expected addrs false;
  release_counted_connection expected;;
  (if correlation expected =? correlation winner
   then abort_tasks_keep_correlation expected else abort_tasks expected);;
  mark_if changed.

Definition compare_and_publish_peer_connection (p : PeerId) (expected : option Connection) (c : Connection) : Op Cas :=
  perform (SessionEnsure p);;
  r ← perform (CurrentCas p expected (Some c));
  match r with
  | CasErr found =>
      if decide (found = Some c) then
        perform (RetryPublished p);;
        perform (ByPeerInsert p c);;
        perform MarkRouting;;
        Ret CasOk
      else Ret (CasErr found)
  | CasOk =>
      perform (RetryPublished p);;
      perform (ByPeerInsert p c);;
      perform MarkRouting;;
      match expected with Some e => retire_displaced_expected e c | None => Ret tt end;;
      Ret CasOk
  end.

Definition disconnect_connection_instance (p : PeerId) (target : Connection) : Op bool :=
  r ← perform (CurrentCas p (Some target) None);
  match r with
  | CasErr (Some _) => Ret false
  | _ =>
      let cleared := match r with CasOk => true | CasErr _ => false end in
      mirrored ← perform (ByPeerRemoveIf p target);
      addrs ← perform (AliasesOf target);
      changed ← sweep_aliases target addrs (cleared || mirrored);
      release_counted_connection target;;
      abort_tasks target;;
      mark_if changed;;
      Ret true
  end.

Definition evict_before_replace (p : PeerId) (rival : Connection) : Op (option Connection) :=
  evicted ← disconnect_connection_instance p rival;
  Ret (if (evicted : bool) then None else Some rival).

Definition resolve_authenticated_connection_conflict (existing incoming : Connection)
    (keep_existing keep_incoming newer : bool) : Op ConnectionConflictDecision :=
  l ← perform (HasLiveStream existing);
  if l && boots_differ existing incoming then Ret RejectIncoming
  else
    l ← perform (HasLiveStream existing);
    Ret (resolve_connection_conflict l keep_existing keep_incoming newer).

(** The decision taken again against a rival that won the slot; without the
    registry the candidate gives way. *)
Definition resolve_rival (outbound : bool) (p : PeerId) (c rival : Connection) : Op ConnectionConflictDecision :=
  up ← perform RegistryUpgrade;
  if (up : bool)
  then resolve_authenticated_connection_conflict rival c (keep p (is_outbound (direction rival))) (keep p outbound) false
  else Ret RejectIncoming.

(** What follows a lost compare-and-publish of the retry itself: once more
    against a new rival or an empty slot, if there are retries left. *)
Definition retry_outcome (r : Cas) (again : option (Connection -> Op bool)) (p : PeerId) (c : Connection) : Op bool :=
  match r, again with
  | CasOk, _ => Ret true
  | CasErr _, None => Ret false
  | CasErr (Some rival), Some again => again rival
  | CasErr None, Some _ =>
      r ← compare_and_publish_peer_connection p None c;
      Ret (match r with CasOk => true | CasErr _ => false end)
  end.

(** [resolve_and_act_on_outbound_rival_bounded] and its inbound counterpart,
    which differ in the direction of the candidate. *)
Fixpoint resolve_and_act_on_rival_bounded (nested_retries_remaining : nat) (outbound : bool) (p : PeerId)
    (c rival : Connection) : Op bool :=
  let again := match nested_retries_remaining with
               | O => None
               | S n => Some (resolve_and_act_on_rival_bounded n outbound p c)
               end in
  decision ← resolve_rival outbound p c rival;
  match decision with
  | AcceptIncoming =>
      r ← compare_and_publish_peer_connection p (Some rival) c;
      retry_outcome r again p c
  | ReplaceExisting =>
      expected ← evict_before_replace p rival;
      r ← compare_and_publish_peer_connection p expected c;
      retry_outcome r again p c
  | EvictStaleRejectIncoming => disconnect_connection_instance p rival;; Ret false
  | RejectIncoming => Ret false
  end.

Definition resolve_and_act_on_rival (outbound : bool) (p : PeerId) (c rival : Connection) : Op bool :=
  resolve_and_act_on_rival_bounded 1 outbound p c rival.

(** [publish_outbound_or_reresolve] and [publish_inbound_or_reresolve]. *)
Definition publish_or_reresolve (outbound : bool) (p : PeerId) (c : Connection) (expected : option Connection) : Op bool :=
  r ← compare_and_publish_peer_connection p expected c;
  match r with
  | CasOk => Ret true
  | CasErr (Some rival) => resolve_and_act_on_rival outbound p c rival
  | CasErr None =>
      r ← compare_and_publish_peer_connection p None c;
      match r with
      | CasOk => Ret true
      | CasErr (Some rival) => resolve_and_act_on_rival outbound p c rival
      | CasErr None => Ret false
      end
  end.

Definition publish_outbound_or_reresolve := publish_or_reresolve true.
Definition publish_inbound_or_reresolve := publish_or_reresolve false.

(** ** Looking a connection up *)

Definition get_configured_peer_addr (p : PeerId) : Op (option SocketAddr) :=
  a ← perform (SessionAddr p);
  match a with Some a => Ret (Some a) | None => perform (PeerAddrRead p) end.

Definition set_discovered_peer_addr (p : PeerId) (a : SocketAddr) : Op unit :=
  required ← perform (SessionRequired p);
  if (required : bool) then perform (PeerAddrInsert p a)
  else
    perform (SessionEnsure p);;
    perform (SessionSetRoute p a);;
    perform (PeerAddrInsert p a).

(** The walk of [aliased_connection_by_peer_id] over the peer's addresses: a
    preferred connection ends it, another one is kept as the fallback. *)
Fixpoint walk_aliases (up : bool) (p : PeerId) (addrs : list SocketAddr) (fallback : option Connection) :
    Op (option Connection) :=
  match addrs with
  | [] => Ret fallback
  | a :: addrs =>
      found ← perform (ByAddrRead a);
      match found with
      | None => walk_aliases up p addrs fallback
      | Some c =>
          usable ← perform (HasLiveStream c);
          if negb usable || negb (bool_decide (embedded_peer_id c = Some p)) then walk_aliases up p addrs fallback
          else if negb up || keep p (is_outbound (direction c)) then Ret (Some c)
          else walk_aliases up p addrs (match fallback with None => Some c | f => f end)
      end
  end.

Definition aliased_connection_by_peer_id (p : PeerId) : Op (option Connection) :=
  up ← perform RegistryUpgrade;
  addrs ← perform (RoutesOf p);
  walk_aliases up p addrs None.

(** [a.or_else(|| b)]. *)
Definition or_else {A} (a b : Op (option A)) : Op (option A) :=
  x ← a; match x with Some v => Ret (Some v) | None => b end.

Definition connection_at_configured_addr (p : PeerId) : Op (option Connection) :=
  a ← get_configured_peer_addr p;
  match a with Some a => perform (ByAddrRead a) | None => Ret None end.

(** The pure snapshot a tie-break decides on. *)
Definition peer_current_connection_snapshot (p : PeerId) : Op (option Connection) :=
  or_else (perform (CurrentRead p))
    (or_else (perform (ByPeerRead p)) (or_else (connection_at_configured_addr p) (aliased_connection_by_peer_id p))).

Definition compare_and_clear_current_peer_connection (p : PeerId) (candidate : Connection) : Op bool :=
  r ← perform (CurrentCas p (Some candidate) None);
  match r with
  | CasOk => perform (ByPeerRemoveIf p candidate);; perform MarkRouting;; Ret true
  | CasErr _ => Ret false
  end.

Fixpoint adopt_fallback (attempts : nat) (p : PeerId) (c : Connection) : Op (option Connection) :=
  match attempts with
  | O => Ret None
  | S n =>
      r ← compare_and_publish_peer_connection p None c;
      match r with
      | CasOk => Ret (Some c)
      | CasErr (Some found) =>
          usable ← perform (HasLiveStream found);
          if (usable : bool) then Ret (Some found)
          else compare_and_clear_current_peer_connection p found;; adopt_fallback n p c
      | CasErr None => adopt_fallback n p c
      end
  end.

Definition adopt_fallback_connection (p : PeerId) (c : Connection) : Op (option Connection) := adopt_fallback 3 p c.

Definition get_connection_by_peer_id (p : PeerId) : Op (option Connection) :=
  or_else
    (found ← perform (CurrentRead p);
     match found with
     | None => Ret None
     | Some c =>
         usable ← perform (HasLiveStream c);
         if (usable : bool) then Ret (Some c) else compare_and_clear_current_peer_connection p c;; Ret None
     end)
    (or_else
       (found ← connection_at_configured_addr p;
        match found with
        | None => Ret None
        | Some c =>
            usable ← perform (HasLiveStream c);
            if (usable : bool) then adopt_fallback_connection p c else Ret None
        end)
       (found ← aliased_connection_by_peer_id p;
        match found with None => Ret None | Some c => adopt_fallback_connection p c end)).

Definition has_connection_by_peer_id (p : PeerId) : Op bool :=
  found ← perform (CurrentRead p);
  usable ← match found with Some c => perform (HasLiveStream c) | None => Ret false end;
  if (usable : bool) then Ret true
  else found ← aliased_connection_by_peer_id p; Ret (bool_decide (is_Some found)).

Definition reindex_connection_addr (p : PeerId) (new_addr : SocketAddr) : Op unit :=
  found ← get_connection_by_peer_id p;
  match found with
  | None => Ret tt
  | Some c =>
      owner ← perform (RouteRead new_addr);
      if negb (bool_decide (owner = Some p)) then Ret tt
      else
        connected ← has_connection_by_peer_id p;
        if negb connected then Ret tt
        else
          publish_address_index new_addr c (Some p);;
          set_discovered_peer_addr p new_addr;;
          if decide (c_addr c = new_addr) then Ret tt
          else
            owner ← perform (RouteRead (c_addr c));
            if decide (owner = Some p) then publish_address_index (c_addr c) c None else Ret tt
  end.

(** ** Retiring a connection *)

Definition remove_connection_instance_by_id (a : SocketAddr) (i : Z) : Op (option Connection) :=
  peer ← perform (RouteRead a);
  removed ← perform (ByAddrRemoveInstance a i);
  match removed with
  | None => Ret None
  | Some c =>
      clear_address_route_if_retired a c;;
      addrs ← perform (AliasesOf c);
      sweep_aliases c addrs false;;
      match peer with
      | Some p =>
          r ← perform (CurrentCas p (Some c) None);
          match r with CasOk => perform (ByPeerRemoveIf p c);; Ret tt | CasErr _ => Ret tt end
      | None => Ret tt
      end;;
      release_counted_connection c;;
      abort_tasks c;;
      perform MarkRouting;;
      Ret (Some c)
  end.

(** Retirement at an address, with the release of the count by its id where the
    instance is not indexed there any more. *)
Definition remove_or_release (a : SocketAddr) (i : Z) : Op unit :=
  retired ← remove_connection_instance_by_id a i;
  match retired with Some _ => Ret tt | None => release_counted_instance i end.

Definition filter_instance (i : Z) (found : option Connection) : option Connection :=
  match found with Some c => if instance_id c =? i then Some c else None | None => None end.

Definition remove_connection_instance_for_peer (p : PeerId) (a : SocketAddr) (i : Z) : Op (option Connection) :=
  target ← or_else (found ← perform (ByAddrRead a); Ret (filter_instance i found))
             (found ← perform (CurrentRead p); Ret (filter_instance i found));
  match target with
  | None => release_counted_instance i;; Ret None
  | Some target =>
      done ← disconnect_connection_instance p target;
      if (done : bool) then Ret (Some target) else remove_connection_instance_by_id a i
  end.

Fixpoint forget_aliases (c : Connection) (addrs : list SocketAddr) : Op unit :=
  match addrs with
  | [] => Ret tt
  | a :: addrs =>
      removed ← perform (ByAddrRemoveIf a c);
      (if (removed : bool) then perform (RouteRemove a);; clear_capabilities_for_addr a else Ret tt);;
      forget_aliases c addrs
  end.

Definition retire_lost_cas_matched_instance (c : Connection) (failed : Z) : Op unit :=
  retired ← remove_connection_instance_by_id (c_addr c) failed;
  match retired with
  | Some _ => Ret tt
  | None =>
      addrs ← perform (AliasesOf c);
      forget_aliases c addrs;;
      release_counted_instance failed;;
      abort_tasks c
  end.

Definition clear_current_peer_connection_if_matches (p : PeerId) (c : Connection) : Op unit :=
  r ← perform (CurrentCas p (Some c) None);
  match r with
  | CasOk => perform (ByPeerRemoveIf p c);; perform MarkRouting
  | CasErr _ => Ret tt
  end.

Definition clear_current_peer_connection (p : PeerId) : Op unit :=
  perform (SessionEnsure p);;
  taken ← perform (CurrentTake p);
  removed ← perform (ByPeerRemove p);
  mark_if (bool_decide (is_Some taken) || removed).

Definition add_addr (addrs : list SocketAddr) (a : option SocketAddr) : list SocketAddr :=
  match a with Some a => if decide (a ∈ addrs) then addrs else addrs ++ [a] | None => addrs end.

(** The peer-wide teardown: whatever is the peer's session now. *)
Definition disconnect_connection_by_peer_id (p : PeerId) : Op (option Connection) :=
  found ← peer_current_connection_snapshot p;
  match found with
  | None => Ret None
  | Some c =>
      clear_current_peer_connection p;;
      perform (SessionEnsure p);;
      perform (RetryPublished p);;
      addrs ← perform (RoutesOf p);
      configured ← get_configured_peer_addr p;
      required ← perform (SessionRequiredAddr p);
      for_each (fun a => perform (RouteRemove a);; perform (ByAddrRemove a);; clear_capabilities_for_addr a)
        (add_addr (add_addr (add_addr addrs (Some (c_addr c))) configured) required);;
      release_counted_connection c;;
      abort_tasks c;;
      perform MarkRouting;;
      Ret (Some c)
  end.

Fixpoint remove_aliases (addrs : list SocketAddr) (peers : list PeerId) : Op (list PeerId) :=
  match addrs with
  | [] => Ret peers
  | a :: addrs =>
      perform (ByAddrRemove a);;
      owner ← perform (RouteRemove a);
      clear_capabilities_for_addr a;;
      remove_aliases addrs (match owner with
                            | Some p => if decide (p ∈ peers) then peers else peers ++ [p]
                            | None => peers
                            end)
  end.

(** The address-wide teardown. *)
Definition remove_connection (a : SocketAddr) : Op (option Connection) :=
  removed ← perform (ByAddrRemove a);
  match removed with
  | None => Ret None
  | Some c =>
      addrs ← perform (AliasesOf c);
      owner ← perform (RouteRemove a);
      peers ← remove_aliases addrs (match owner with Some p => [p] | None => [] end);
      for_each (fun p => clear_current_peer_connection_if_matches p c) peers;;
      release_counted_connection c;;
      clear_capabilities_for_addr a;;
      abort_tasks c;;
      perform MarkRouting;;
      Ret (Some c)
  end.

Fixpoint stale_peers (ps : list PeerId) : Op (list PeerId) :=
  match ps with
  | [] => Ret []
  | p :: ps =>
      found ← perform (CurrentRead p);
      stale ← match found with Some c => l ← perform (HasLiveStream c); Ret (negb l) | None => Ret false end;
      rest ← stale_peers ps;
      Ret (if (stale : bool) then p :: rest else rest)
  end.

Fixpoint prune_candidates (ps : list PeerId) : Op (list PeerId) :=
  match ps with
  | [] => Ret []
  | p :: ps =>
      candidate ← perform (SessionPrunable p);
      rest ← prune_candidates ps;
      Ret (if (candidate : bool) then p :: rest else rest)
  end.

Definition reconcile_route (entry : PeerId * SocketAddr) : Op unit :=
  owner ← perform (RouteRead entry.2);
  if match owner with Some q => bool_decide (q <> entry.1) | None => false end
  then perform (PeerAddrRemoveIf entry.1 entry.2) else Ret tt.

Definition reconcile_route_index : Op unit :=
  entries ← perform PeerAddrAll;
  for_each reconcile_route entries.

(** [idle] are the peers whose session has been idle for its time to live and
    is held by the map only.  Any list is allowed: the sweep may then find a
    session idle that another task is about to use, which the reference count
    excludes. *)
Definition prune_idle_peer_sessions (idle : list PeerId) : Op unit :=
  ps ← perform SessionPeers;
  candidates ← prune_candidates (filter (fun p => p ∈ idle) ps);
  for_each (fun p => perform (SessionPrune p);; Ret tt) candidates;;
  reconcile_route_index.

Definition cleanup_stale_connections (idle : list PeerId) : Op unit :=
  ps ← perform SessionPeers;
  stale ← stale_peers ps;
  for_each (fun p => disconnect_connection_by_peer_id p;; Ret tt) stale;;
  prune_idle_peer_sessions idle.

Definition close_all_connections : Op unit :=
  ps ← perform SessionPeers;
  for_each (fun p => disconnect_connection_by_peer_id p;; Ret tt) ps;;
  addrs ← perform ByAddrAll;
  for_each (fun a => remove_connection a;; Ret tt) addrs.

(** The part of [handle_peer_connection_failure] that retires the connection;
    [state_peer] is the identity the gossip state has for the address. *)
Definition retire_failed_connection (observed : SocketAddr) (failed : Z) (state_peer : option PeerId) : Op unit :=
  routed ← perform (RouteRead observed);
  match (match routed with Some p => Some p | None => state_peer end) with
  | None => remove_or_release observed failed
  | Some p =>
      found ← get_connection_by_peer_id p;
      match found with
      | Some c =>
          if negb (instance_id c =? failed) then remove_or_release observed failed
          else
            retired ← disconnect_connection_instance p c;
            if (retired : bool) then Ret tt else retire_lost_cas_matched_instance c failed
      | None => remove_connection_instance_for_peer p observed failed;; Ret tt
      end
  end.

(** The end of a connection's IO task ([ExitGuard]): another current session
    means that this one was superseded. *)
Definition io_task_exit (c : Connection) (peer_addr : SocketAddr) (hint : option PeerId) (known_superseded : bool)
    (state_peer : option PeerId) : Op unit :=
  up ← perform RegistryUpgrade;
  if negb up then (if known_superseded then Ret tt else perform (CancelAll c))
  else
    peer ← match hint with Some p => Ret (Some p) | None => perform (RouteRead peer_addr) end;
    superseded ←
      (if known_superseded then Ret true
       else
         found ← match peer with Some p => get_connection_by_peer_id p | None => perform (ByAddrRead peer_addr) end;
         Ret (match found with Some d => negb (instance_id d =? instance_id c) | None => false end));
    if (superseded : bool) then remove_or_release peer_addr (instance_id c)
    else perform (CancelAll c);; retire_failed_connection peer_addr (instance_id c) state_peer.

(** ** Admitting a connection *)

Definition finish_indexing_accepted_connection (p : PeerId) (peer_state_addr : SocketAddr)
    (ephemeral_addr : option SocketAddr) (c : Connection) : Op bool :=
  let distinct := match ephemeral_addr with
                  | Some a => if decide (a = peer_state_addr) then None else Some a
                  | None => None
                  end in
  set_discovered_peer_addr p peer_state_addr;;
  publish_address_index peer_state_addr c (Some p);;
  match distinct with Some a => publish_address_index a c (Some p) | None => Ret tt end;;
  count_in_new_instance (instance_id c);;
  found ← perform (CurrentRead p);
  if decide (found = Some c) then Ret true
  else
    removed ← remove_connection_instance_by_id peer_state_addr (instance_id c);
    removed ← match removed, distinct with
              | None, Some a => remove_connection_instance_by_id a (instance_id c)
              | _, _ => Ret removed
              end;
    match removed with Some _ => Ret tt | None => release_counted_instance (instance_id c) end;;
    Ret false.

(** The admission of [handle_incoming_connection_tls]. *)
Definition publish_and_index (p : PeerId) (c : Connection) (expected : option Connection)
    (peer_addr peer_state_addr : SocketAddr) : Op bool :=
  published ← publish_inbound_or_reresolve p c expected;
  accepted ← (if (published : bool)
              then finish_indexing_accepted_connection p peer_state_addr
                     (if decide (peer_addr = peer_state_addr) then None else Some peer_addr) c
              else Ret false);
  (if (accepted : bool) then Ret tt else perform (ClearCapabilities peer_addr));;
  Ret accepted.

Definition admit_inbound (p : PeerId) (c : Connection) (peer_addr peer_state_addr : SocketAddr) : Op bool :=
  existing ← peer_current_connection_snapshot p;
  match existing with
  | None => publish_and_index p c None peer_addr peer_state_addr
  | Some e =>
      usable ← perform (HasLiveStream e);
      duplicate ← perform (HasLiveStream e);
      decision ← resolve_authenticated_connection_conflict e c
                   (usable && keep p (is_outbound (direction e))) (keep p false) (incoming_session_is_newer c e);
      match decision with
      | AcceptIncoming =>
          evicted ← disconnect_connection_instance p e;
          accepted ← publish_and_index p c (if (evicted : bool) then None else Some e) peer_addr peer_state_addr;
          (if (accepted : bool) then Ret tt else perform (NoteTieBreakEviction p));;
          Ret accepted
      | EvictStaleRejectIncoming =>
          disconnect_connection_instance p e;;
          perform (ClearCapabilities peer_addr);;
          perform (NoteTieBreakEviction p);;
          Ret false
      | ReplaceExisting =>
          evicted ← disconnect_connection_instance p e;
          accepted ← publish_and_index p c (if (evicted : bool) then None else Some e) peer_addr peer_state_addr;
          perform (NoteTieBreakEviction p);;
          Ret accepted
      | RejectIncoming =>
          (if duplicate && boots_differ e c then Ret tt else perform (NoteTieBreakEviction p));;
          perform (ClearCapabilities peer_addr);;
          Ret false
      end
  end.

Definition unpublish_rejected_outbound_candidate (a : SocketAddr) (c : Connection) (p : PeerId)
    (existing_before : option Connection) : Op unit :=
  removed ← perform (ByAddrRemoveIf a c);
  keep_correlation ← match existing_before with
                     | Some e => l ← perform (HasLiveStream e); Ret (l && (correlation c =? correlation e))
                     | None => Ret false
                     end;
  (if (removed : bool) then
     restore ← match existing_before with
               | Some e => if decide (c_addr e = a)
                           then l ← perform (HasLiveStream e); Ret (if (l : bool) then Some e else None)
                           else Ret None
               | None => Ret None
               end;
     match restore with
     | Some e => publish_address_index a e (Some p)
     | None => clear_address_route_if_retired a c
     end
   else Ret tt);;
  if (keep_correlation : bool) then abort_tasks_keep_correlation c else abort_tasks c.

(** The publication of a dialled connection; [false] is [ConnectionExists]. *)
Definition publish_outbound (p : PeerId) (c : Connection) (existing_before : option Connection) : Op bool :=
  decision ←
    match existing_before with
    | None => Ret AcceptIncoming
    | Some e =>
        up ← perform RegistryUpgrade;
        if (up : bool)
        then resolve_authenticated_connection_conflict e c (keep p (is_outbound (direction e))) (keep p true)
               (incoming_session_is_newer c e)
        else Ret AcceptIncoming
    end;
  published ←
    match decision with
    | AcceptIncoming => publish_outbound_or_reresolve p c existing_before
    | ReplaceExisting =>
        expected ← match existing_before with Some e => evict_before_replace p e | None => Ret None end;
        publish_outbound_or_reresolve p c expected
    | RejectIncoming => Ret false
    | EvictStaleRejectIncoming =>
        match existing_before with Some e => disconnect_connection_instance p e;; Ret tt | None => Ret tt end;;
        Ret false
    end;
  (if (published : bool) then Ret tt else unpublish_rejected_outbound_candidate (c_addr c) c p existing_before);;
  Ret published.

Definition with_identity (p : option PeerId) (c : Connection) : Connection :=
  mkConnection (instance_id c) (c_addr c) (direction c) (remote_boot_id c) p (correlation c).

(** [finalize_new_outbound_connection_with_instance]; [tofu] is the identity of
    the peer's certificate, [identified] whether the identifying message reached
    the stream in time.  The guard undoes the publication when it did not. *)
Definition finalize_new_outbound_connection (tofu : option PeerId) (c : Connection) (identified : bool) : Op bool :=
  let a := c_addr c in
  peer ← or_else (Ret tofu) (or_else (perform (RouteRead a)) (perform (PeerAddrReverse a)));
  match peer with Some p => perform (SessionEnsure p) | None => Ret tt end;;
  let c := with_identity peer c in
  existing_before ← match peer with Some p => peer_current_connection_snapshot p | None => Ret None end;
  publish_address_index a c peer;;
  published ← match peer with Some p => publish_outbound p c existing_before | None => Ret true end;
  if negb published then Ret false
  else
    count_in_new_instance (instance_id c);;
    if identified then Ret true
    else
      match peer with
      | Some p => disconnect_connection_instance p c;; Ret false
      | None =>
          perform (ByAddrRemoveIf a c);;
          release_counted_connection c;;
          abort_tasks c;;
          Ret false
      end.

(** The move of a peer's connection to the address DNS gives now; [connected]
    is the state of the connection found. *)
Definition dns_move (p : PeerId) (old new : SocketAddr) (connected : bool) : Op unit :=
  set_discovered_peer_addr p new;;
  perform (RouteInsert new p);;
  perform MarkRouting;;
  found ← perform (ByAddrRemove old);
  match found with
  | Some c =>
      if connected then
        publish_address_index new c None;;
        perform (SessionEnsure p);;
        perform (CurrentStore p c);;
        perform (RetryPublished p);;
        perform (ByPeerInsert p c);;
        perform MarkRouting
      else clear_current_peer_connection_if_matches p c
  | None => Ret tt
  end;;
  perform (RouteRemove old);;
  Ret tt.

(** ** Tasks *)
Inductive PoolCall :=
  | Accept (p : PeerId) (c : Connection) (peer_addr peer_state_addr : SocketAddr)
  | Dial (tofu : option PeerId) (c : Connection) (identified : bool)
  | Lookup (p : PeerId)
  | Reindex (p : PeerId) (a : SocketAddr)
  | IoExit (c : Connection) (peer_addr : SocketAddr) (hint : option PeerId) (known_superseded : bool)
      (state_peer : option PeerId)
  | AskFault (p : PeerId) (a : SocketAddr) (i : Z)
  | Cleanup (idle : list PeerId)
  | CloseAll
  | DropPeer (p : PeerId)
  | MakeRoom (a : SocketAddr)
  | DnsMove (p : PeerId) (old new : SocketAddr) (connected : bool).

Definition pool_body (l : PoolCall) : Op bool :=
  match l with
  | Accept p c peer_addr peer_state_addr => admit_inbound p c peer_addr peer_state_addr
  | Dial tofu c identified => finalize_new_outbound_connection tofu c identified
  | Lookup p => found ← get_connection_by_peer_id p; Ret (bool_decide (is_Some found))
  | Reindex p a => reindex_connection_addr p a;; Ret true
  | IoExit c a hint known state_peer => io_task_exit c a hint known state_peer;; Ret true
  | AskFault p a i => remove_connection_instance_for_peer p a i;; Ret true
  | Cleanup idle => cleanup_stale_connections idle;; Ret true
  | CloseAll => close_all_connections;; Ret true
  | DropPeer p => disconnect_connection_by_peer_id p;; Ret true
  | MakeRoom a => remove_connection a;; Ret true
  | DnsMove p old new connected => dns_move p old new connected;; Ret true
  end.
End Operations.

(** A new connection has an id of its own and a stream that runs; its IO task
    exits once, and says so first. *)
Definition allocate_connection (d : ConnectionDirection) (c : Connection) (s : Pool) : option Pool :=
  if decide (instance_id c ∈ allocated s \/ direction c <> d) then None
  else Some (set_live (fun m => {[instance_id c]} ∪ m) (set_allocated (fun m => {[instance_id c]} ∪ m) s)).

Definition pool_start (l : PoolCall) (s : Pool) : option Pool :=
  match l with
  | Accept _ c _ _ => allocate_connection Inbound c s
  | Dial _ c _ => allocate_connection Outbound c s
  | IoExit c _ _ _ _ =>
      if decide (instance_id c ∈ allocated s /\ instance_id c ∉ exited s)
      then Some (set_live (fun m => m ∖ {[instance_id c]}) (set_exited (fun m => {[instance_id c]} ∪ m) s))
      else None
  | _ => Some s
  end.

(** What else happens: the registry goes away. *)
Inductive PoolEnv := RegistryGone.

Definition pool_env (e : PoolEnv) (s : Pool) : option Pool := Some (set_registry_down s).

Abbreviation PoolSys := (Sys (State := Pool) (Act := PoolAct) (Label := PoolCall) (R := bool)).

Definition pool_sys_new : PoolSys := mkSys pool_new ∅.

Definition pool_event (local : PeerId) : SysEvent -> PoolSys -> option PoolSys :=
  sys_event (Act := PoolAct) pool_exec pool_start (pool_body local) pool_env.
Definition pool_step (local : PeerId) : PoolSys -> PoolSys -> Prop :=
  sys_step (Act := PoolAct) pool_exec pool_start (pool_body local) pool_env.
Definition pool_play (local : PeerId) : list SysEvent -> PoolSys -> option PoolSys :=
  play (Act := PoolAct) pool_exec pool_start (pool_body local) pool_env.

(** The state after a schedule that can be played. *)
Definition pool_after (local : PeerId) (es : list SysEvent) : PoolSys :=
  default pool_sys_new (pool_play local es pool_sys_new).

Lemma pool_after_reachable local es : star (pool_step local) pool_sys_new (pool_after local es).
Proof.
  unfold pool_after. destruct (pool_play local es pool_sys_new) as [y|] eqn:E; [|constructor].
  by apply (prog_play_star (Act := PoolAct)) in E.
Qed.

Definition runs (t : Z) (n : nat) : list (SysEvent (Label := PoolCall) (Env := PoolEnv)) := repeat (Run t) n.

Lemma some_default {A} (d : A) (o : option A) : match o with Some _ => true | None => false end = true -> o = Some (default d o).
Proof. by destruct o. Qed.
