(* ===== verification/PoolCounter.v ===== *)
(** * The pool's connection counter

    [connection_counter] and the set of counted instances are two shared objects
    that no operation changes together.  Every program of the pool is balanced:
    what it owes the counter after taking or giving back a marker it pays before
    it returns.  So the counter is exact whenever no program is under way. *)

From S2P Require Import Prelude Types Concurrent ConnectionConflict ConnectionPool.

(** What an action changes of the markers it changes more than of the counter. *)
Definition owed {X : Set} (act : PoolAct X) : X -> Z :=
  match act with
  | CountInsert _ => fun fresh => if (fresh : bool) then 1 else 0
  | CountRemove _ => fun counted => if (counted : bool) then -1 else 0
  | CounterAdd d => fun _ => - d
  | _ => fun _ => 0
  end.

(** A program that starts with the debt [d] pays it, and never owes more than one. *)
Fixpoint balanced {A} (p : Op A) (d : Z) : Prop :=
  match p with
  | Ret _ => d = 0
  | Do act k => Z.abs d <= 1 /\ forall x, balanced (k x) (d + owed act x)
  end.

Create HintDb balanced.

Lemma balanced_bind {A B} (f : A -> Op B) (p : Op A) d :
  balanced p d -> (forall a, balanced (f a) 0) -> balanced (p ≫= f) d.
Proof.
  revert d. induction p as [a|X act k IH]; intros d; cbn; [intros -> H; apply H|]. intros [? H] Hf. split; auto.
Qed.

Lemma balanced_ret {A} (a : A) : balanced (Ret a) 0.
Proof. done. Qed.

Lemma balanced_perform {X : Set} (act : PoolAct X) : (forall x, owed act x = 0) -> balanced (perform act) 0.
Proof. intros H. cbn. split; [lia|]. intros x. rewrite H. lia. Qed.

Ltac balance :=
  repeat first
    [ progress intros
    | apply balanced_ret
    | solve [auto with balanced]
    | apply balanced_perform; reflexivity
    | apply balanced_bind
    | case_match ].

Lemma balanced_count_in i : balanced (count_in_new_instance i) 0.
Proof. cbn. split; [lia|]. intros [|]; cbn; [|done]. split; lia. Qed.
Lemma balanced_release i : balanced (release_counted_instance i) 0.
Proof. cbn. split; [lia|]. intros [|]; cbn; [|done]. split; lia. Qed.
#[export] Hint Resolve balanced_count_in balanced_release : balanced.

Lemma balanced_route a c : balanced (clear_address_route_if_retired a c) 0.
Proof. unfold clear_address_route_if_retired, address_has_successor, clear_capabilities_for_addr. balance. Qed.
Lemma balanced_index a c p : balanced (publish_address_index a c p) 0.
Proof. unfold publish_address_index. balance. Qed.
Lemma balanced_abort c b : balanced (abort_tasks_inner c b) 0.
Proof. unfold abort_tasks_inner. balance. Qed.
#[export] Hint Resolve balanced_route balanced_index balanced_abort : balanced.

Lemma balanced_mark b : balanced (mark_if b) 0.
Proof. unfold mark_if. balance. Qed.
Lemma balanced_release_connection c : balanced (release_counted_connection c) 0.
Proof. apply balanced_release. Qed.
Lemma balanced_abort_tasks c : balanced (abort_tasks c) 0.
Proof. apply balanced_abort. Qed.
Lemma balanced_abort_keep c : balanced (abort_tasks_keep_correlation c) 0.
Proof. apply balanced_abort. Qed.
Lemma balanced_clear_capabilities a : balanced (clear_capabilities_for_addr a) 0.
Proof. unfold clear_capabilities_for_addr. balance. Qed.
Lemma balanced_sweep c addrs b : balanced (sweep_aliases c addrs b) 0.
Proof. revert b. induction addrs as [|a addrs IH]; intros b; cbn [sweep_aliases]; balance. Qed.
Lemma balanced_or_else {A} (p q : Op (option A)) : balanced p 0 -> balanced q 0 -> balanced (or_else p q) 0.
Proof. intros. unfold or_else. balance. Qed.
Lemma balanced_for_each {A} (f : A -> Op unit) l : (forall x, balanced (f x) 0) -> balanced (for_each f l) 0.
Proof. intros H. induction l; cbn [for_each]; balance. Qed.
#[export] Hint Resolve balanced_mark balanced_release_connection balanced_abort_tasks balanced_abort_keep
  balanced_clear_capabilities balanced_sweep : balanced.

Section Balance.
Context (local : PeerId).

Lemma balanced_retire e w : balanced (retire_displaced_expected e w) 0.
Proof. unfold retire_displaced_expected. balance. Qed.
Hint Resolve balanced_retire : balanced.
Lemma balanced_publish p e c : balanced (compare_and_publish_peer_connection p e c) 0.
Proof. unfold compare_and_publish_peer_connection. balance. Qed.
Lemma balanced_disconnect p c : balanced (disconnect_connection_instance p c) 0.
Proof. unfold disconnect_connection_instance. balance. Qed.
Hint Resolve balanced_publish balanced_disconnect : balanced.
Lemma balanced_evict p c : balanced (evict_before_replace p c) 0.
Proof. unfold evict_before_replace. balance. Qed.
Lemma balanced_resolve e c ke ki n : balanced (resolve_authenticated_connection_conflict e c ke ki n) 0.
Proof. unfold resolve_authenticated_connection_conflict. balance. Qed.
Hint Resolve balanced_evict balanced_resolve : balanced.
Lemma balanced_rival n o p c r : balanced (resolve_and_act_on_rival_bounded local n o p c r) 0.
Proof.
  revert r. induction n as [|n IH]; intros r; cbn [resolve_and_act_on_rival_bounded]; unfold resolve_rival, retry_outcome; balance.
Qed.
Lemma balanced_reresolve o p c e : balanced (publish_or_reresolve local o p c e) 0.
Proof. unfold publish_or_reresolve, resolve_and_act_on_rival. pose proof balanced_rival. balance. Qed.
Hint Resolve balanced_reresolve : balanced.

Lemma balanced_configured p : balanced (get_configured_peer_addr p) 0.
Proof. unfold get_configured_peer_addr. balance. Qed.
Lemma balanced_set_discovered p a : balanced (set_discovered_peer_addr p a) 0.
Proof. unfold set_discovered_peer_addr. balance. Qed.
Lemma balanced_walk up p addrs f : balanced (walk_aliases local up p addrs f) 0.
Proof. revert f. induction addrs as [|a addrs IH]; intros f; cbn [walk_aliases]; balance. Qed.
Hint Resolve balanced_configured balanced_set_discovered balanced_walk : balanced.
Lemma balanced_aliased p : balanced (aliased_connection_by_peer_id local p) 0.
Proof. unfold aliased_connection_by_peer_id. balance. Qed.
Lemma balanced_configured_connection p : balanced (connection_at_configured_addr p) 0.
Proof. unfold connection_at_configured_addr. balance. Qed.
Hint Resolve balanced_aliased balanced_configured_connection balanced_or_else : balanced.
Lemma balanced_snapshot p : balanced (peer_current_connection_snapshot local p) 0.
Proof. unfold peer_current_connection_snapshot. repeat apply balanced_or_else; balance. Qed.
Lemma balanced_clear p c : balanced (compare_and_clear_current_peer_connection p c) 0.
Proof. unfold compare_and_clear_current_peer_connection. balance. Qed.
Hint Resolve balanced_snapshot balanced_clear : balanced.
Lemma balanced_adopt n p c : balanced (adopt_fallback n p c) 0.
Proof. induction n as [|n IH]; cbn [adopt_fallback]; balance. Qed.
Hint Resolve balanced_adopt : balanced.
Lemma balanced_get p : balanced (get_connection_by_peer_id local p) 0.
Proof. unfold get_connection_by_peer_id, adopt_fallback_connection. repeat apply balanced_or_else; balance. Qed.
Hint Resolve balanced_get : balanced.
Lemma balanced_remove_by_id a i : balanced (remove_connection_instance_by_id a i) 0.
Proof. unfold remove_connection_instance_by_id. balance. Qed.
Hint Resolve balanced_remove_by_id : balanced.
Lemma balanced_remove_or_release a i : balanced (remove_or_release a i) 0.
Proof. unfold remove_or_release. balance. Qed.
Lemma balanced_remove_for_peer p a i : balanced (remove_connection_instance_for_peer p a i) 0.
Proof. unfold remove_connection_instance_for_peer. balance; apply balanced_or_else; balance. Qed.
Lemma balanced_forget c addrs : balanced (forget_aliases c addrs) 0.
Proof. induction addrs as [|a addrs IH]; cbn [forget_aliases]; balance. Qed.
Hint Resolve balanced_remove_or_release balanced_remove_for_peer balanced_forget : balanced.
Lemma balanced_retire_lost c i : balanced (retire_lost_cas_matched_instance c i) 0.
Proof. unfold retire_lost_cas_matched_instance. balance. Qed.
Lemma balanced_clear_if p c : balanced (clear_current_peer_connection_if_matches p c) 0.
Proof. unfold clear_current_peer_connection_if_matches. balance. Qed.
Hint Resolve balanced_retire_lost balanced_clear_if : balanced.
Lemma balanced_drop p : balanced (disconnect_connection_by_peer_id local p) 0.
Proof.
  unfold disconnect_connection_by_peer_id, clear_current_peer_connection. balance. apply balanced_for_each. balance.
Qed.
Lemma balanced_remove_aliases addrs ps : balanced (remove_aliases addrs ps) 0.
Proof. revert ps. induction addrs as [|a addrs IH]; intros ps; cbn [remove_aliases]; balance. Qed.
Hint Resolve balanced_drop balanced_remove_aliases : balanced.
Lemma balanced_remove a : balanced (remove_connection a) 0.
Proof. unfold remove_connection. balance. apply balanced_for_each. balance. Qed.
Lemma balanced_stale ps : balanced (stale_peers ps) 0.
Proof. induction ps as [|p ps IH]; cbn [stale_peers]; balance. Qed.
Hint Resolve balanced_remove balanced_stale : balanced.
Lemma balanced_candidates ps : balanced (prune_candidates ps) 0.
Proof. induction ps as [|p ps IH]; cbn [prune_candidates]; balance. Qed.
Lemma balanced_prune idle : balanced (prune_idle_peer_sessions idle) 0.
Proof.
  unfold prune_idle_peer_sessions, reconcile_route_index, reconcile_route. pose proof balanced_candidates.
  balance; apply balanced_for_each; balance.
Qed.
Hint Resolve balanced_prune : balanced.
Lemma balanced_cleanup idle : balanced (cleanup_stale_connections local idle) 0.
Proof. unfold cleanup_stale_connections. balance; apply balanced_for_each; balance. Qed.
Lemma balanced_close_all : balanced (close_all_connections local) 0.
Proof. unfold close_all_connections. balance; apply balanced_for_each; balance. Qed.
Lemma balanced_exit c a h k sp : balanced (io_task_exit local c a h k sp) 0.
Proof. unfold io_task_exit, retire_failed_connection. balance. Qed.
Lemma balanced_finish p a e c : balanced (finish_indexing_accepted_connection p a e c) 0.
Proof. unfold finish_indexing_accepted_connection. balance. Qed.
Hint Resolve balanced_cleanup balanced_exit balanced_finish : balanced.
Lemma balanced_admit p c a b : balanced (admit_inbound local p c a b) 0.
Proof. unfold admit_inbound, publish_and_index, publish_inbound_or_reresolve. balance. Qed.
Lemma balanced_unpublish a c p e : balanced (unpublish_rejected_outbound_candidate a c p e) 0.
Proof. unfold unpublish_rejected_outbound_candidate. balance. Qed.
Hint Resolve balanced_admit balanced_unpublish : balanced.
Lemma balanced_publish_outbound p c e : balanced (publish_outbound local p c e) 0.
Proof. unfold publish_outbound, publish_outbound_or_reresolve. balance. Qed.
Hint Resolve balanced_publish_outbound : balanced.
Lemma balanced_finalize t c i : balanced (finalize_new_outbound_connection local t c i) 0.
Proof. unfold finalize_new_outbound_connection. cbv zeta. balance; repeat apply balanced_or_else; balance. Qed.
Lemma balanced_reindex p a : balanced (reindex_connection_addr local p a) 0.
Proof. unfold reindex_connection_addr, has_connection_by_peer_id. balance. Qed.
Lemma balanced_dns p a b c : balanced (dns_move p a b c) 0.
Proof. unfold dns_move. balance. Qed.

Lemma balanced_body l : balanced (pool_body local l) 0.
Proof.
  pose proof balanced_finalize. pose proof balanced_reindex. pose proof balanced_dns. pose proof balanced_close_all.
  destruct l; cbn [pool_body]; balance.
Qed.

End Balance.

(** ** All tasks together *)

Definition counted (s : Pool) : Z := Z.of_nat (size (counted_instances s)).

Definition is_under_way {L R} (x : L * Op R) : Z := match x.2 with Ret _ => 0 | Do _ _ => 1 end.

(** The number of operations that have not returned. *)
Definition under_way (y : PoolSys) : Z := map_sum is_under_way (tasks y).

Lemma exec_counted (X : Set) (act : PoolAct X) s s' x : pool_exec X act s = (s', x) ->
  counted s' - connection_counter s' = counted s - connection_counter s + owed act x.
Proof.
  unfold counted. destruct act; cbn; intros E; try (injection E as <- <-; cbn; lia);
    try (repeat case_match; injection E as <- <-; cbn; lia).
  - injection E as <- <-. cbn. case_bool_decide as Hi.
    + rewrite size_union, size_singleton by set_solver. lia.
    + rewrite subseteq_union_1_L by set_solver. lia.
  - injection E as <- <-. cbn. case_bool_decide as Hi.
    + assert ({[i]} ⊆ counted_instances s) as Hs by set_solver. pose proof (subseteq_size _ _ Hs) as Hn.
      rewrite size_difference, size_singleton by done. rewrite size_singleton in Hn. lia.
    + rewrite difference_disjoint_L by set_solver. lia.
Qed.

Lemma map_sum_abs_le {A} (f g : A -> Z) (m : gmap Z A) :
  (forall i a, m !! i = Some a -> Z.abs (f a) <= g a) -> Z.abs (map_sum f m) <= map_sum g m.
Proof.
  induction m as [|i a m Hi IH] using map_ind; intros H; [by rewrite !map_sum_empty|].
  rewrite !map_sum_insert by done. pose proof (H i a (lookup_insert_eq m i a)).
  assert (Z.abs (map_sum f m) <= map_sum g m); [|lia]. apply IH. intros j b Hj. apply (H j). rewrite lookup_insert_ne; congruence.
Qed.

Lemma map_sum_zero {A} (m : gmap Z A) : map_sum (fun _ => 0) m = 0.
Proof. induction m as [|i a m Hi IH] using map_ind; [done|]. by rewrite map_sum_insert, IH. Qed.

(** [debts] has what each task owes. *)
Definition counter_ok (y : PoolSys) : Prop := exists debts : gmap Z (PoolCall * Op bool * Z),
  fst <$> debts = tasks y
  /\ (forall t l p d, debts !! t = Some (l, p, d) -> balanced p d)
  /\ counted (shared y) = connection_counter (shared y) + map_sum snd debts.

Section Counter.
Context (local : PeerId).

Lemma counter_ok_event e y y' :
  counter_ok y -> pool_event local e y = Some y' -> counter_ok y'.
Proof.
  intros (D & HD & Hb & Hc). destruct e as [t l|t|[]]; cbn.
  - destruct (tasks y !! t) eqn:Et; [done|]. destruct (pool_start l (shared y)) as [s|] eqn:Es; cbn; [|done].
    intros [= <-]. assert (D !! t = None) as Hn. { rewrite <- HD, lookup_fmap in Et. by destruct (D !! t). }
    assert (counted s - connection_counter s = counted (shared y) - connection_counter (shared y)) as He.
    { unfold pool_start, allocate_connection in Es. repeat case_match; simplify_eq; done. }
    exists (<[t := (l, pool_body local l, 0)]> D). cbn. rewrite fmap_insert, HD. split_and!; [done| |].
    + intros t' l' p' d. rewrite lookup_insert. case_decide; [intros [= <- <- <-]; apply balanced_body|apply Hb].
    + rewrite map_sum_insert by done. cbn. lia.
  - destruct (tasks y !! t) as [[l p]|] eqn:Et; [|done]. rewrite <- HD, lookup_fmap in Et.
    destruct (D !! t) as [[[l' p'] d]|] eqn:Hd; [|done]. cbn in Et. injection Et as -> ->. pose proof (Hb _ _ _ _ Hd) as Hp.
    destruct p as [r|X act k]; cbn; [done|]. intros [= <-]. destruct (pool_exec X act (shared y)) as [s x] eqn:Ex. cbn.
    exists (<[t := (l, k x, d + owed act x)]> D). cbn. rewrite fmap_insert, HD. split_and!; [done| |].
    + intros t' l' p' d'. rewrite lookup_insert. case_decide; [intros [= <- <- <-]; apply Hp|apply Hb].
    + rewrite (map_sum_replace _ _ _ _ _ Hd). cbn. pose proof (exec_counted _ _ _ _ _ Ex). lia.
  - intros [= <-]. exists D. done.
Qed.

Lemma reachable_counter_ok y : star (pool_step local) pool_sys_new y -> counter_ok y.
Proof.
  intros Hr. refine (star_invariant _ counter_ok _ _ _ Hr _).
  - intros a b Ha [e He]. by eapply counter_ok_event.
  - exists ∅. cbn. split_and!; [done| |done]. intros *. by rewrite lookup_empty.
Qed.

(** C22: the pool's connection counter is exact under every interleaving.  The
    counter and the markers of counted connections are changed by separate
    atomic operations of concurrent accepts, dials, lookups, IO exits, evictions
    and teardowns; still the counter differs from the number of markers by at
    most the number of operations under way, and when none is under way it
    equals it: no admission is counted twice and no retirement subtracts twice. *)
Theorem pool_counter_exact y : star (pool_step local) pool_sys_new y ->
  Z.abs (connection_counter (shared y) - counted (shared y)) <= under_way y
  /\ (quiescent y -> connection_counter (shared y) = counted (shared y)).
Proof.
  intros Hr. destruct (reachable_counter_ok y Hr) as (D & HD & Hb & Hc).
  assert (under_way y = map_sum (fun x => is_under_way x.1) D) as Hu.
  { unfold under_way. rewrite <- HD. clear. induction D as [|i a D Hi IH] using map_ind; [done|].
    rewrite fmap_insert, !map_sum_insert, IH by (done || by rewrite lookup_fmap, Hi). done. }
  assert (Z.abs (map_sum snd D) <= under_way y) as Ha.
  { rewrite Hu. apply map_sum_abs_le. intros t [[l p] d] Ht. apply Hb in Ht. unfold is_under_way. destruct p; cbn in *; lia. }
  split; [lia|]. intros Hq. enough (Z.abs (map_sum is_under_way (tasks y)) <= map_sum (fun _ => 0) (tasks y)) as H.
  { rewrite map_sum_zero in H. unfold under_way in Ha. lia. }
  apply map_sum_abs_le. intros t [l p] Ht. destruct (Hq t l p Ht) as [r ->]. done.
Qed.
End Counter.

(** One accept, complete, and a second one between its marker and the counter. *)
Definition two_accepts : PoolSys :=
  let me := mkPeerId [2] in let you := mkPeerId [1] in let other := mkPeerId [0] in
  let at_port port := SocketAddrV4 1 port in
  let first := mkConnection 1 (at_port 10) Inbound None (Some you) 0 in
  let second := mkConnection 2 (at_port 20) Inbound None (Some other) 1 in
  pool_after me (Spawn 0 (Accept you first (at_port 10) (at_port 10)) :: runs 0 20 ++
                 Spawn 1 (Accept other second (at_port 20) (at_port 20)) :: runs 1 18).

Lemma pool_counter_exact_witness :
  counted (shared two_accepts) = 2 /\ connection_counter (shared two_accepts) = 1 /\ under_way two_accepts = 1
  /\ Z.abs (connection_counter (shared two_accepts) - counted (shared two_accepts)) <= under_way two_accepts.
Proof.
  split_and!; [vm_compute; reflexivity..|].
  apply (pool_counter_exact (mkPeerId [2])). apply pool_after_reachable.
Defined.
