(* ===== verification/PoolSessions.v ===== *)
(** * Who may take a peer's session

    A live session of a peer leaves its slot only for a reason: a candidate that
    wins the tie-break against it, the withdrawal of a candidate by the task that
    brought it, or the end of the registry.  The programs of the pool are shown
    to keep this promise among each other, whatever the interleaving: a decision
    is taken on a snapshot, and what it allows stays allowed, because a
    connection that exited stays so and the tie-break compares only what never
    changes of a connection. *)

From S2P Require Import Prelude Types Concurrent ConnectionConflict ConnectionPool.

(** ** What tasks know and promise *)
Definition known (s : Pool) (c : Connection) : Prop := instance_id c ∈ allocated s.
Definition dead (s : Pool) (c : Connection) : Prop := known s c /\ instance_id c ∉ live s.
Definition gone (s : Pool) : Prop := registry_up s = false.

(** What every task leaves to the others. *)
Record pool_rely (s s' : Pool) : Prop := {
  pr_known : forall c, known s c -> known s' c;
  pr_dead : forall c, dead s c -> dead s' c;
  pr_gone : gone s -> gone s';
}.

(** Every connection the pool refers to was allocated. *)
Record pool_inv (s : Pool) : Prop := {
  pi_current : forall p c, current s p = Some c -> known s c;
  pi_by_peer : forall p c, connections_by_peer s !! p = Some c -> known s c;
  pi_by_addr : forall a c, connections_by_addr s !! a = Some c -> known s c;
}.

#[global] Instance pool_rely_trans : Transitive pool_rely.
Proof. intros x y z [] []. split; auto. Qed.
#[global] Instance pool_rely_refl : Reflexive pool_rely.
Proof. split; auto. Qed.

(** Tasks that end sessions on purpose, or without a tie-break. *)
Definition guarded (l : PoolCall) : bool :=
  match l with
  | Accept _ _ _ _ | Dial _ _ _ | Lookup _ | Reindex _ _ | IoExit _ _ _ _ _ => true
  | AskFault _ _ _ | Cleanup _ | CloseAll | DropPeer _ | MakeRoom _ | DnsMove _ _ _ _ => false
  end.

Section Sessions.
Context (local : PeerId).

(** The task may end the live session [c] of [p]. *)
Definition entitled (l : PoolCall) (p : PeerId) (c : Connection) : Prop :=
  match l with
  | Accept q new _ _ => (p = q /\ beats local p new c) \/ instance_id c = instance_id new
  | Dial _ new _ => beats local p new c \/ instance_id c = instance_id new
  | _ => False
  end.

Definition may_end (l : PoolCall) (s : Pool) (p : PeerId) (c : Connection) : Prop :=
  known s c /\ (dead s c \/ gone s \/ entitled l p c).

(** A live session that leaves its slot. *)
Definition ended (s s' : Pool) (p : PeerId) (c : Connection) : Prop :=
  current s p = Some c /\ instance_id c ∈ live s /\ current s' p <> Some c.

Definition pool_guar (l : PoolCall) (s s' : Pool) : Prop :=
  pool_rely s s' /\ (guarded l = true -> forall p c, ended s s' p c -> gone s \/ entitled l p c).

(** ** Single actions *)
Section Task.
Context (l : PoolCall).

(** When the task may perform the action. *)
Definition tame {X : Set} (act : PoolAct X) (s : Pool) : Prop :=
  match act with
  | ByPeerInsert _ c | ByAddrInsert _ c => known s c
  | CurrentCas p expected new =>
      (forall c, new = Some c -> known s c)
      /\ (forall c, expected = Some c -> new <> Some c -> guarded l = true -> may_end l s p c)
  | CurrentStore _ c => known s c /\ guarded l = false
  | CurrentTake _ => guarded l = false
  | _ => True
  end.

(** What the result tells. *)
Definition learned {X : Set} (act : PoolAct X) (s : Pool) : X -> Prop :=
  match act with
  | CurrentRead _ | ByPeerRead _ | ByAddrRead _ | ByAddrRemove _ | CurrentTake _ =>
      fun found => forall c, found = Some c -> known s c
  | ByAddrRemoveInstance _ i => fun found => forall c, found = Some c -> known s c /\ instance_id c = i
  | CurrentCas _ _ _ => fun r =>
      match r with CasOk => True | CasErr found => forall c, found = Some c -> known s c end
  | HasLiveStream c => fun l => l = false -> known s c -> dead s c
  | RegistryUpgrade => fun up => up = false -> gone s
  | _ => fun _ => True
  end.

End Task.

Lemma known_mono s s' c : pool_rely s s' -> known s c -> known s' c.
Proof. intros H. apply H. Qed.
Lemma dead_mono s s' c : pool_rely s s' -> dead s c -> dead s' c.
Proof. intros H. apply H. Qed.
Lemma gone_mono s s' : pool_rely s s' -> gone s -> gone s'.
Proof. intros H. apply H. Qed.
Lemma may_end_mono l s s' p c : pool_rely s s' -> may_end l s p c -> may_end l s' p c.
Proof. intros H [Hk Hm]. split; [by eapply known_mono|]. destruct Hm as [?|[?|?]]; eauto using dead_mono, gone_mono. Qed.
Lemma tame_mono l {X : Set} (act : PoolAct X) s s' : pool_rely s s' -> tame l act s -> tame l act s'.
Proof.
  intros H. destruct act; cbn; try done; try (by apply known_mono); [|intros []; eauto using known_mono].
  intros [H1 H2]. split; [eauto using known_mono|]. intros c E E' G. eapply may_end_mono; eauto.
Qed.

Lemma rely_same s s' : allocated s' = allocated s -> live s' ⊆ live s -> registry_up s' = registry_up s -> pool_rely s s'.
Proof. intros Ha Hl Hu. split; unfold dead, known, gone; rewrite ?Ha, ?Hu; [auto|set_solver|auto]. Qed.

Lemma inv_same s s' : pool_inv s -> allocated s' = allocated s ->
  (forall p c, current s' p = Some c -> current s p = Some c) ->
  (forall p c, connections_by_peer s' !! p = Some c -> connections_by_peer s !! p = Some c) ->
  (forall a c, connections_by_addr s' !! a = Some c -> connections_by_addr s !! a = Some c) -> pool_inv s'.
Proof. intros [H1 H2 H3] Ha. intros. split; unfold known in *; rewrite Ha; eauto. Qed.

Lemma ended_same l s s' : pool_rely s s' -> (forall p, current s' p = current s p) -> pool_guar l s s'.
Proof. intros Hr Hc. split; [done|]. intros _ p c (H1 & _ & H2). by rewrite Hc in H2. Qed.

Lemma remove_if_sub {K A} `{Countable K} (P : A -> bool) k (m m' : gmap K A) r i a :
  remove_if P k m = (m', r) -> m' !! i = Some a -> m !! i = Some a.
Proof. unfold remove_if. intros E Hi. repeat case_match; simplify_eq; [|done..]. by apply lookup_delete_Some in Hi as []. Qed.

Lemma remove_if_found {K A} `{Countable K} (P : A -> bool) k (m m' : gmap K A) a :
  remove_if P k m = (m', Some a) -> m !! k = Some a /\ P a = true.
Proof. unfold remove_if. intros E. repeat case_match; by simplify_eq. Qed.

(** The session slots after a change of one session. *)
Lemma current_insert s p q x : current (set_sessions <[p := x]> s) q = if decide (p = q) then current_connection x else current s q.
Proof. unfold current. cbn. rewrite lookup_insert. by case_decide. Qed.

(** A change of a session that keeps its connection. *)
Lemma current_keep s f : (forall q, (f (peer_sessions s) !! q : option PeerSession) ≫= current_connection = current s q) ->
  forall q, current (set_sessions f s) q = current s q.
Proof. done. Qed.

Definition touches_current {X : Set} (act : PoolAct X) : bool :=
  match act with CurrentCas _ _ _ | CurrentStore _ _ | CurrentTake _ => true | _ => false end.

Lemma exec_current {X : Set} (act : PoolAct X) s q : touches_current act = false ->
  current (pool_exec X act s).1 q = current s q.
Proof.
  destruct act; cbn; try done; intros _; try (repeat case_match; cbn; done).
  - apply current_keep. intros r. unfold current. destruct (peer_sessions s !! p) eqn:E; [done|].
    rewrite lookup_insert. case_decide; [subst|done]. by rewrite E.
  - apply current_keep. intros r. unfold current. rewrite lookup_insert. case_decide; [subst|done].
    by destruct (peer_sessions s !! r).
  - apply current_keep. intros r. unfold current. destruct (decide (p = r)) as [<-|].
    + rewrite lookup_alter_eq. by destruct (peer_sessions s !! p).
    + by rewrite lookup_alter_ne.
  - unfold remove_if. destruct (peer_sessions s !! p) as [x|] eqn:E; [|by destruct s]. destruct (prunable x) eqn:Hp; [|by destruct s].
    apply current_keep. intros r. unfold current. rewrite lookup_delete. case_decide; [subst|done]. rewrite E. cbn.
    unfold prunable in Hp. destruct (current_connection x); [|done]. by destruct (required_peer x).
Qed.

(** The maps of connections grow only by what is inserted. *)
Lemma exec_by_peer {X : Set} (act : PoolAct X) l s p c : pool_inv s -> tame l act s ->
  connections_by_peer (pool_exec X act s).1 !! p = Some c -> known s c.
Proof.
  intros Hi Ht. destruct act; cbn in *; try (apply (pi_by_peer _ Hi)); try (repeat case_match; apply (pi_by_peer _ Hi)).
  - rewrite lookup_insert. case_decide; [by intros [= <-]|apply (pi_by_peer _ Hi)].
  - destruct (remove_if _ _ _) eqn:E. cbn. intros H. eapply (pi_by_peer _ Hi), remove_if_sub; eauto.
  - rewrite lookup_delete_Some. intros [_ H]. by eapply (pi_by_peer _ Hi).
Qed.

Lemma exec_by_addr {X : Set} (act : PoolAct X) l s a c : pool_inv s -> tame l act s ->
  connections_by_addr (pool_exec X act s).1 !! a = Some c -> known s c.
Proof.
  intros Hi Ht. destruct act; cbn in *; try (apply (pi_by_addr _ Hi)); try (repeat case_match; apply (pi_by_addr _ Hi)).
  - rewrite lookup_insert. case_decide; [by intros [= <-]|apply (pi_by_addr _ Hi)].
  - destruct (remove_if _ _ _) eqn:E. cbn. intros H. eapply (pi_by_addr _ Hi), remove_if_sub; eauto.
  - destruct (remove_if _ _ _) eqn:E. cbn. intros H. eapply (pi_by_addr _ Hi), remove_if_sub; eauto.
  - rewrite lookup_delete_Some. intros [_ H]. by eapply (pi_by_addr _ Hi).
Qed.

Lemma exec_session {X : Set} (act : PoolAct X) l s p c : pool_inv s -> tame l act s ->
  current (pool_exec X act s).1 p = Some c -> known s c.
Proof.
  intros Hi Ht. destruct (touches_current act) eqn:E; [|rewrite exec_current by done; apply Hi].
  destruct act; try done; cbn in *.
  - destruct (peer_sessions s !! p0) eqn:Es; [|apply Hi]. case_decide; cbn; [|apply Hi].
    rewrite current_insert. case_decide; [|apply Hi]. cbn. apply Ht.
  - change (current (set_sessions <[p0 := with_current (Some c0) (default session_new (peer_sessions s !! p0))]> s) p = Some c -> known s c).
    rewrite current_insert. case_decide; [cbn; intros [= <-]; apply Ht|apply Hi].
  - change (current (set_sessions <[p0 := with_current None (default session_new (peer_sessions s !! p0))]> s) p = Some c -> known s c).
    rewrite current_insert. case_decide; [done|apply Hi].
Qed.

Lemma exec_rely {X : Set} (act : PoolAct X) s : pool_rely s (pool_exec X act s).1.
Proof.
  destruct act; cbn; try reflexivity; try (apply rely_same; cbn; done || set_solver);
    repeat case_match; cbn; try reflexivity; apply rely_same; cbn; done || set_solver.
Qed.

Lemma exec_guar {X : Set} (act : PoolAct X) l s : pool_inv s -> tame l act s -> pool_guar l s (pool_exec X act s).1.
Proof.
  intros Hi Ht. destruct (touches_current act) eqn:E; [|apply ended_same; [apply exec_rely|intros; by apply exec_current]].
  split; [apply exec_rely|]. intros Hg p c (H1 & H2 & H3). destruct act; try done; cbn in *; [|destruct Ht; congruence|congruence].
  destruct (peer_sessions s !! p0) as [x|] eqn:Es; [|done]. case_decide as Hx; [|done]. cbn in H3.
  rewrite current_insert in H3. case_decide as Hp; [|done]. subst p0. cbn in H3.
  unfold current in H1. rewrite Es in H1. cbn in H1. destruct Ht as [_ Ht].
  destruct (Ht c) as [Hk [[_ Hd]|[?|?]]]; auto; congruence.
Qed.

Lemma exec_learned {X : Set} (act : PoolAct X) s : pool_inv s -> learned act (pool_exec X act s).1 (pool_exec X act s).2.
Proof.
  intros Hi. destruct act; cbn; try done; eauto using pi_current, pi_by_peer, pi_by_addr.
  - destruct (peer_sessions s !! p) as [x|] eqn:Es; cbn; [|done]. case_decide; cbn; [done|]. intros c Hc.
    apply (pi_current _ Hi p). unfold current. by rewrite Es.
  - intros c Hc. apply (pi_current _ Hi _ _ Hc).
  - destruct (remove_if _ _ _) as [m r] eqn:E. cbn. intros c ->. apply remove_if_found in E as [E ?]. split; [by eapply (pi_by_addr _ Hi)|lia].
  - intros c Hc. apply (pi_by_addr _ Hi _ _ Hc).
  - intros Hl Hk. split; [done|]. by apply bool_decide_eq_false in Hl.
Qed.

Lemma exec_inv {X : Set} (act : PoolAct X) l s : pool_inv s -> tame l act s -> pool_inv (pool_exec X act s).1.
Proof.
  intros Hi Ht. pose proof (exec_rely act s) as Hr.
  split; intros; eapply known_mono; eauto using exec_session, exec_by_peer, exec_by_addr.
Qed.

(** ** Programs *)
Section Programs.
Context (l : PoolCall).

Definition safe {A} (p : Op A) (Q : A -> Pool -> Prop) (s : Pool) : Prop :=
  wp pool_exec pool_rely (pool_guar l) pool_inv p Q s.

(** A program that keeps the promise and tells [post]. *)
Definition tells {A} (p : Op A) (post : A -> Pool -> Prop) (s : Pool) : Prop :=
  forall Q, (forall s' x, pool_rely s s' -> post x s' -> Q x s') -> safe p Q s.

Abbreviation quiet p := (tells p (fun _ _ => True)).

Lemma tells_ret {A} (a : A) (post : A -> Pool -> Prop) s : post a s -> tells (Ret a) post s.
Proof. intros H Q HQ. apply HQ; [reflexivity|done]. Qed.

Lemma tells_perform {X : Set} (act : PoolAct X) s : tame l act s -> tells (perform act) (fun x s => learned act s x) s.
Proof.
  intros Ht Q HQ s1 Hr Hi. pose proof (tame_mono l act s s1 Hr Ht) as Ht1.
  split_and!; [by apply exec_guar|by eapply exec_inv|]. cbn. apply HQ; [|by apply exec_learned].
  etrans; [done|apply exec_rely].
Qed.

Lemma tells_bind {A B} (f : A -> Op B) (p : Op A) (post : A -> Pool -> Prop) (post' : B -> Pool -> Prop) s :
  tells p post s -> (forall x s', pool_rely s s' -> post x s' -> tells (f x) post' s') -> tells (p ≫= f) post' s.
Proof.
  intros Hp Hf Q HQ. apply wp_bind, Hp. intros s' x Hr Hx. apply (Hf x s' Hr Hx). intros s'' y Hr' Hy.
  apply HQ; [by etrans|done].
Qed.

Lemma tells_weaken {A} (p : Op A) (post post' : A -> Pool -> Prop) s :
  tells p post s -> (forall x s', pool_rely s s' -> post x s' -> post' x s') -> tells p post' s.
Proof. intros H Hw Q HQ. apply H. eauto. Qed.

Lemma quiet_ret {A} (a : A) s : quiet (Ret a) s.
Proof. by apply tells_ret. Qed.

Lemma quiet_perform {X : Set} (act : PoolAct X) s : tame l act s -> quiet (perform act) s.
Proof. intros. eapply tells_weaken; [by apply tells_perform|done]. Qed.

Lemma tells_then {A B} (p : Op A) (q : A -> Op B) (post : B -> Pool -> Prop) s :
  quiet p s -> (forall x s', pool_rely s s' -> tells (q x) post s') -> tells (p ≫= q) post s.
Proof. intros Hp Hq. eapply tells_bind; [exact Hp|]. intros. by apply Hq. Qed.

Lemma tells_safe {A} (p : Op A) (post : A -> Pool -> Prop) s : tells p post s -> safe p post s.
Proof. intros H. by apply H. Qed.

End Programs.
End Sessions.

#[global] Opaque tells.

Create HintDb pool.
#[export] Hint Resolve known_mono dead_mono gone_mono may_end_mono quiet_ret : pool.

(** Facts move along with the state. *)
Ltac advance Hr :=
  match type of Hr with pool_rely ?a ?b =>
    repeat match goal with
    | H : known a ?c |- _ => apply (known_mono a b c Hr) in H
    | H : dead a ?c |- _ => apply (dead_mono a b c Hr) in H
    | H : gone a |- _ => apply (gone_mono a b Hr) in H
    | H : may_end ?k ?l a ?p ?c |- _ => apply (may_end_mono k l a b p c Hr) in H
    end; clear Hr
  end.

(** Programs whose steps need nothing but what is at hand. *)
Ltac quietly :=
  repeat first
    [ progress (cbv zeta)
    | match goal with |- forall x s', pool_rely _ s' -> _ => intros ? ? ?Hr; advance Hr end
    | simple apply quiet_ret
    | solve [simple apply quiet_perform; cbn; auto with pool]
    | solve [auto with pool]
    | simple apply tells_then
    | case_match ].
