(* ===== verification/PoolSafety.v ===== *)
(** * The pool's programs keep their promise

    Each operation of the pool, shown to end a live session only where it may
    (the promise of PoolSessions), and the theorem on the whole system. *)

From S2P Require Import Prelude Types Concurrent ConnectionConflict ConnectionPool PoolSessions.

Section Quiet.
Context (local : PeerId) (l : PoolCall).

Abbreviation tells := (tells local l).
Abbreviation quiet p := (tells p (fun _ _ => True)).
Abbreviation may_end := (may_end local l).

(** ** Operations that touch no session *)
Lemma quiet_abort c b s : quiet (abort_tasks_inner c b) s.
Proof. unfold abort_tasks_inner. quietly. Qed.
Lemma quiet_release i s : quiet (release_counted_instance i) s.
Proof. unfold release_counted_instance. quietly. Qed.
Lemma quiet_count i s : quiet (count_in_new_instance i) s.
Proof. unfold count_in_new_instance. quietly. Qed.
Lemma quiet_clear_capabilities a s : quiet (clear_capabilities_for_addr a) s.
Proof. unfold clear_capabilities_for_addr. quietly. Qed.
Hint Resolve quiet_abort quiet_release quiet_count quiet_clear_capabilities : pool.
Lemma quiet_abort_tasks c s : quiet (abort_tasks c) s.
Proof. unfold abort_tasks. quietly. Qed.
Lemma quiet_abort_keep c s : quiet (abort_tasks_keep_correlation c) s.
Proof. unfold abort_tasks_keep_correlation. quietly. Qed.
Lemma quiet_release_connection c s : quiet (release_counted_connection c) s.
Proof. unfold release_counted_connection. quietly. Qed.
Lemma quiet_mark b s : quiet (mark_if b) s.
Proof. unfold mark_if. quietly. Qed.
Lemma quiet_route a c s : quiet (clear_address_route_if_retired a c) s.
Proof. unfold clear_address_route_if_retired, address_has_successor. quietly. Qed.
Lemma quiet_index a c p s : known s c -> quiet (publish_address_index a c p) s.
Proof. intros. unfold publish_address_index. quietly. Qed.
Hint Resolve quiet_abort_tasks quiet_abort_keep quiet_release_connection quiet_mark quiet_route quiet_index : pool.
Lemma quiet_sweep c addrs b s : quiet (sweep_aliases c addrs b) s.
Proof. revert b s. induction addrs as [|a addrs IH]; intros b s; cbn [sweep_aliases]; quietly. Qed.
Hint Resolve quiet_sweep : pool.
Lemma quiet_retire e w s : quiet (retire_displaced_expected e w) s.
Proof. unfold retire_displaced_expected. quietly. Qed.
Hint Resolve quiet_retire : pool.
Lemma quiet_set_discovered p a s : quiet (set_discovered_peer_addr p a) s.
Proof. unfold set_discovered_peer_addr. quietly. Qed.
Lemma quiet_configured p s : quiet (get_configured_peer_addr p) s.
Proof. unfold get_configured_peer_addr. quietly. Qed.
Lemma quiet_forget c addrs s : quiet (forget_aliases c addrs) s.
Proof. revert s. induction addrs as [|a addrs IH]; intros s; cbn [forget_aliases]; quietly. Qed.
Hint Resolve quiet_set_discovered quiet_configured quiet_forget : pool.

(** ** Publication and retirement *)

(** A compare-and-swap that may end what it expects. *)
Definition replaceable (s : Pool) (p : PeerId) (expected : option Connection) : Prop :=
  forall c, expected = Some c -> guarded l = true -> may_end s p c.

Definition found_known {A} (r : A -> option Connection) (x : A) (s : Pool) : Prop := forall c, r x = Some c -> known s c.
Definition cas_found (r : Cas) : option Connection := match r with CasOk => None | CasErr found => found end.

Lemma tells_cas p expected new s : (forall c, new = Some c -> known s c) -> replaceable s p expected ->
  tells (perform (CurrentCas p expected new)) (found_known cas_found) s.
Proof.
  intros Hn He. eapply tells_weaken; [apply tells_perform|].
  - split; [done|]. intros c E _. by apply He.
  - intros [|found] s' _ H c; cbn; [done|apply H].
Qed.

Lemma tells_publish p expected c s : known s c -> replaceable s p expected ->
  tells (compare_and_publish_peer_connection p expected c) (found_known cas_found) s.
Proof.
  intros Hk He. unfold compare_and_publish_peer_connection. apply tells_then; [quietly|].
  intros _ s1 Hr. eapply tells_bind; [apply tells_cas|].
  - intros ? [= <-]. eauto with pool.
  - intros d E G. eauto with pool.
  - intros r s2 Hr2 Hf. advance Hr. advance Hr2. destruct r as [|found]; [|case_decide; [|by apply tells_ret]]; cbn in Hf.
    all: do 3 (apply tells_then; [quietly|intros ? ? Hr; advance Hr]).
    all: try (apply tells_then; [quietly|intros ? ? Hr; advance Hr]). all: by apply tells_ret.
Qed.

Lemma quiet_disconnect p c s : replaceable s p (Some c) -> quiet (disconnect_connection_instance p c) s.
Proof.
  intros He. unfold disconnect_connection_instance. eapply tells_bind; [by apply tells_cas|].
  intros r s1 _ _. destruct r as [|[d|]]; quietly.
Qed.

Lemma replaceable_mono s s' p e : pool_rely s s' -> replaceable s p e -> replaceable s' p e.
Proof. intros Hr H c E G. eauto with pool. Qed.
Lemma replaceable_none s p : replaceable s p None.
Proof. by intros c. Qed.
Lemma replaceable_dead s p c : dead s c -> replaceable s p (Some c).
Proof. intros H d [= <-] _. split; [apply H|by left]. Qed.
Lemma replaceable_may s p c : may_end s p c -> replaceable s p (Some c).
Proof. by intros H d [= <-] _. Qed.
Hint Resolve replaceable_mono replaceable_none replaceable_dead replaceable_may quiet_disconnect : pool.

Lemma quiet_clear p c s : dead s c -> quiet (compare_and_clear_current_peer_connection p c) s.
Proof.
  intros Hd. unfold compare_and_clear_current_peer_connection. eapply tells_bind; [apply tells_cas; [done|eauto with pool]|].
  intros r s1 _ _. quietly.
Qed.
Hint Resolve quiet_clear : pool.

(** ** Reading *)
Definition finds {A} (f : Op (option A)) (P : A -> Pool -> Prop) (s : Pool) : Prop :=
  tells f (fun x s => forall c, x = Some c -> P c s) s.
Abbreviation finds_known f s := (finds f (fun c s => known s c) s).

Lemma finds_read {X : Set} (act : PoolAct X) (f : X -> option Connection) s : tame local l act s ->
  (forall x s, learned act s x -> forall c, f x = Some c -> known s c) ->
  tells (perform act) (fun x s => forall c, f x = Some c -> known s c) s.
Proof. intros Ht Hl. eapply tells_weaken; [by apply tells_perform|]. intros x s1 _. apply Hl. Qed.

Lemma finds_current p s : finds_known (perform (CurrentRead p)) s.
Proof. by apply (finds_read (CurrentRead p) id). Qed.
Lemma finds_by_peer p s : finds_known (perform (ByPeerRead p)) s.
Proof. by apply (finds_read (ByPeerRead p) id). Qed.
Lemma finds_by_addr a s : finds_known (perform (ByAddrRead a)) s.
Proof. by apply (finds_read (ByAddrRead a) id). Qed.

Lemma finds_or_else (f g : Op (option Connection)) s :
  finds_known f s -> (forall s', pool_rely s s' -> finds_known g s') -> finds_known (or_else f g) s.
Proof.
  intros Hf Hg. unfold or_else. eapply tells_bind; [exact Hf|]. intros [c|] s' Hr Hc; [|by apply Hg].
  apply tells_ret. intros d [= <-]. by apply Hc.
Qed.

(** The liveness of a connection at hand. *)
Lemma tells_live c s : known s c -> tells (perform (HasLiveStream c)) (fun b s => b = false -> dead s c) s.
Proof.
  intros Hk. eapply tells_weaken; [by apply tells_perform|]. intros b s' Hr H E. apply H; [done|]. eauto with pool.
Qed.

Lemma finds_walk up p addrs fb s : (forall c, fb = Some c -> known s c) -> finds_known (walk_aliases local up p addrs fb) s.
Proof.
  revert fb s. induction addrs as [|a addrs IH]; intros fb s Hf; cbn [walk_aliases]; [by apply tells_ret|].
  eapply tells_bind; [apply finds_by_addr|]. intros [c|] s1 Hr Hc; [|apply IH; eauto with pool].
  pose proof (Hc c eq_refl) as Hk. apply tells_then; [quietly|]. intros b s2 Hr2.
  case_match; [apply IH; eauto with pool|]. case_match; [apply tells_ret; intros ? [= <-]; eauto with pool|].
  apply IH. intros d Hd. destruct fb; simplify_eq; eauto with pool.
Qed.

Lemma finds_aliased p s : finds_known (aliased_connection_by_peer_id local p) s.
Proof.
  unfold aliased_connection_by_peer_id. do 2 (apply tells_then; [quietly|intros ? ? ?]). by apply finds_walk.
Qed.

Lemma finds_configured p s : finds_known (connection_at_configured_addr p) s.
Proof.
  unfold connection_at_configured_addr. apply tells_then; [quietly|]. intros [a|] s1 _; [apply finds_by_addr|].
  by apply tells_ret.
Qed.

Lemma finds_snapshot p s : finds_known (peer_current_connection_snapshot local p) s.
Proof.
  unfold peer_current_connection_snapshot.
  apply finds_or_else; [apply finds_current|]. intros. apply finds_or_else; [apply finds_by_peer|]. intros.
  apply finds_or_else; [apply finds_configured|]. intros. apply finds_aliased.
Qed.

Lemma finds_adopt n p c s : known s c -> finds_known (adopt_fallback n p c) s.
Proof.
  revert s. induction n as [|n IH]; intros s Hk; cbn [adopt_fallback]; [by apply tells_ret|].
  eapply tells_bind; [apply tells_publish; eauto with pool|]. intros r s1 Hr Hf. advance Hr.
  destruct r as [|[d|]]; [apply tells_ret; by intros ? [= <-]| |by apply IH].
  specialize (Hf d eq_refl). eapply tells_bind; [by apply tells_live|]. intros b s2 Hr Hb. advance Hr.
  destruct b; [apply tells_ret; by intros ? [= <-]|]. apply tells_then; [eauto with pool|].
  intros ? s3 Hr. advance Hr. by apply IH.
Qed.

Lemma finds_connection p s : finds_known (get_connection_by_peer_id local p) s.
Proof.
  unfold get_connection_by_peer_id. apply finds_or_else; [|intros s' _; apply finds_or_else; [|intros s'' _]].
  - eapply tells_bind; [apply finds_current|]. intros [c|] s1 _ Hc; [|by apply tells_ret]. specialize (Hc c eq_refl).
    eapply tells_bind; [by apply tells_live|]. intros b s2 Hr Hb. advance Hr. destruct b; [apply tells_ret; by intros ? [= <-]|].
    apply tells_then; [eauto with pool|]. intros. by apply tells_ret.
  - eapply tells_bind; [apply finds_configured|]. intros [c|] s1 _ Hc; [|by apply tells_ret]. specialize (Hc c eq_refl).
    eapply tells_bind; [by apply tells_live|]. intros b s2 Hr Hb. advance Hr. destruct b; [by apply finds_adopt|by apply tells_ret].
  - eapply tells_bind; [apply finds_aliased|]. intros [c|] s1 _ Hc; [apply finds_adopt; auto|by apply tells_ret].
Qed.

(** ** Deciding *)

(** What a decision says of the connection that was there. *)
Definition justifies (d : ConnectionConflictDecision) (e c : Connection) (keep_existing keep_incoming newer : bool)
    (s : Pool) : Prop :=
  match d with
  | AcceptIncoming | EvictStaleRejectIncoming => dead s e
  | ReplaceExisting =>
      dead s e \/ (boots_differ e c = false /\ keep_incoming = true /\ (keep_existing = false \/ newer = true))
  | RejectIncoming => True
  end.

Lemma tells_resolve e c ke ki n s : known s e ->
  tells (resolve_authenticated_connection_conflict e c ke ki n) (fun d s => justifies d e c ke ki n s) s.
Proof.
  intros Hk. unfold resolve_authenticated_connection_conflict.
  eapply tells_bind; [by apply tells_live|]. intros b s1 Hr Hb. advance Hr.
  case_match eqn:Eb; [by apply tells_ret|]. eapply tells_bind; [by apply tells_live|]. intros b' s2 Hr Hb'.
  assert (dead s2 e \/ boots_differ e c = false) as Hd.
  { destruct b; [right; by destruct (boots_differ e c)|left]. eauto with pool. }
  apply tells_ret. unfold resolve_connection_conflict. destruct b'; cbn; [|destruct ki; cbn; auto].
  destruct ki, ke, n; cbn; try done; destruct Hd; auto.
Qed.

(** [c] is the task's candidate for the peer. *)
Definition candidate (p : PeerId) (c : Connection) (outbound : bool) : Prop :=
  is_outbound (direction c) = outbound /\ forall e, beats local p c e -> entitled local l p e.

Lemma justified_may_end d e c p outbound ke n s : candidate p c outbound -> known s e ->
  (ke = false -> dead s e \/ keep local p (is_outbound (direction e)) = false) ->
  (n = true -> instance_id e < instance_id c) ->
  justifies d e c ke (keep local p outbound) n s -> d <> RejectIncoming -> may_end s p e.
Proof.
  intros [Hd Hc] Hk Hke Hn Hj Hne. split; [done|]. destruct d; [by left| |done|by left].
  destruct Hj as [?|(Hb & Hki & Ho)]; [by left|].
  assert (dead s e \/ beats local p c e) as [?|?]; [|by left|right; right; auto].
  unfold beats. rewrite Hd. unfold keep in *.
  destruct Ho as [Ho|Ho]; [destruct (Hke Ho) as [?|?]; [by left|]|]; right; split_and!; auto.
Qed.

Lemma newer_less c e : incoming_session_is_newer c e = true -> instance_id e < instance_id c.
Proof. unfold incoming_session_is_newer. lia. Qed.

Lemma tells_rival outbound p c e s : candidate p c outbound -> known s e ->
  tells (resolve_rival local outbound p c e) (fun d s => d <> RejectIncoming -> may_end s p e) s.
Proof.
  intros Hc Hk. unfold resolve_rival. apply tells_then; [quietly|]. intros up s1 Hr. advance Hr.
  destruct up; [|by apply tells_ret]. eapply tells_weaken; [by apply tells_resolve|]. intros d s2 Hr Hj. cbn in Hj.
  eapply justified_may_end; eauto with pool. done.
Qed.

Lemma tells_evict p e s : may_end s p e ->
  tells (evict_before_replace p e) (fun x s => replaceable s p x) s.
Proof.
  intros Hm. unfold evict_before_replace. apply tells_then; [eauto with pool|]. intros b s1 Hr. advance Hr.
  apply tells_ret. destruct b; eauto with pool.
Qed.

Lemma quiet_retry r again p c s : known s c -> (forall d, cas_found r = Some d -> known s d) ->
  (forall f, again = Some f -> forall d s', known s' c -> known s' d -> quiet (f d) s') -> quiet (retry_outcome r again p c) s.
Proof.
  intros Hk Hr Ha. unfold retry_outcome. destruct r as [|[d|]], again as [f|]; try simple apply quiet_ret.
  - eapply Ha; eauto.
  - eapply tells_bind; [apply tells_publish; eauto with pool|]. intros. apply quiet_ret.
Qed.

Lemma quiet_rival n outbound p c e s : candidate p c outbound -> known s c -> known s e ->
  quiet (resolve_and_act_on_rival_bounded local n outbound p c e) s.
Proof.
  intros Hc. revert e s. induction n as [|n IH]; intros e s Hk Hke; cbn [resolve_and_act_on_rival_bounded].
  all: eapply tells_bind; [by apply tells_rival|]; intros d s1 Hr Hd; advance Hr.
  all: destruct d; [| |apply quiet_ret|]; specialize (Hd ltac:(done)).
  all: try (apply tells_then; [eauto with pool|intros; apply quiet_ret]).
  1,3: eapply tells_bind; [apply tells_publish; eauto with pool|].
  3,4: eapply tells_bind; [by apply tells_evict|]; intros x s2 Hr Hx; advance Hr;
       eapply tells_bind; [apply tells_publish; eauto with pool|].
  all: intros r s3 Hr Hf; advance Hr; apply quiet_retry; [done|done|]; intros f [= <-]; eauto.
Qed.

Lemma quiet_reresolve outbound p c e s : candidate p c outbound -> known s c -> replaceable s p e ->
  quiet (publish_or_reresolve local outbound p c e) s.
Proof.
  intros Hc Hk He. unfold publish_or_reresolve, resolve_and_act_on_rival.
  eapply tells_bind; [by apply tells_publish|]. intros r s1 Hr Hf. advance Hr. unfold found_known in Hf.
  destruct r as [|[d|]]; [apply quiet_ret|apply quiet_rival; auto|].
  eapply tells_bind; [apply tells_publish; eauto with pool|]. intros r s2 Hr Hf2. advance Hr. unfold found_known in Hf2.
  destruct r as [|[d|]]; [apply quiet_ret|apply quiet_rival; auto|apply quiet_ret].
Qed.

(** ** Retiring *)

(** The task may end whatever session has this instance. *)
Definition disposable (s : Pool) (i : Z) : Prop :=
  guarded l = true -> i ∈ allocated s /\ forall p c, instance_id c = i -> may_end s p c.

Lemma disposable_mono s s' i : pool_rely s s' -> disposable s i -> disposable s' i.
Proof.
  intros Hr H G. destruct (H G) as [Ha Hm]. split; [|eauto with pool].
  apply (pr_known _ _ Hr (mkConnection i (SocketAddrV4 0 0) Inbound None None 0)). done.
Qed.
Lemma disposable_replaceable s p c i : disposable s i -> instance_id c = i -> replaceable s p (Some c).
Proof. intros H Hi d [= <-] G. by apply (H G). Qed.
Hint Resolve disposable_mono disposable_replaceable : pool.

Lemma quiet_clear_if p c s : replaceable s p (Some c) -> quiet (clear_current_peer_connection_if_matches p c) s.
Proof.
  intros H. unfold clear_current_peer_connection_if_matches. eapply tells_bind; [by apply tells_cas|]. intros r s1 _ _. quietly.
Qed.

Lemma quiet_remove_by_id a i s : disposable s i -> quiet (remove_connection_instance_by_id a i) s.
Proof.
  intros Hd. unfold remove_connection_instance_by_id. apply tells_then; [quietly|]. intros peer s1 Hr.
  assert (disposable s1 i) as H1 by eauto with pool. eapply tells_bind; [by apply tells_perform|].
  intros [c|] s2 Hr2 Hc; [|apply quiet_ret]. destruct (Hc c eq_refl) as [_ Hi].
  assert (disposable s2 i) as H2 by eauto with pool. clear Hr Hr2 Hc.
  do 3 (apply tells_then; [quietly|intros ? ? Hr; eapply disposable_mono in H2; [|exact Hr]; clear Hr]).
  apply tells_then; [|intros; quietly]. destruct peer as [p|]; [|apply quiet_ret].
  eapply tells_bind; [apply tells_cas; eauto with pool; done|]. intros r s3 _ _. quietly.
Qed.
Hint Resolve quiet_remove_by_id : pool.

Lemma quiet_remove_or_release a i s : disposable s i -> quiet (remove_or_release a i) s.
Proof. intros Hd. unfold remove_or_release. quietly. Qed.

Lemma finds_instance (f : Op (option Connection)) i s :
  quiet f s -> tells (found ← f; Ret (filter_instance i found)) (fun x _ => forall c, x = Some c -> instance_id c = i) s.
Proof.
  intros Hf. apply tells_then; [done|]. intros x s1 _. apply tells_ret. intros c. unfold filter_instance.
  destruct x as [d|]; [|done]. destruct (instance_id d =? i) eqn:E; [intros [= <-]; lia|done].
Qed.

Lemma quiet_remove_for_peer p a i s : disposable s i -> quiet (remove_connection_instance_for_peer p a i) s.
Proof.
  intros Hd. unfold remove_connection_instance_for_peer.
  eapply (tells_bind _ _ _ _ (fun x _ => forall c, x = Some c -> instance_id c = i)).
  - unfold or_else. eapply tells_bind; [apply finds_instance; quietly|]. intros [c|] s1 Hr Hc; [by apply tells_ret|].
    apply finds_instance. quietly.
  - intros [c|] s1 Hr Hc; [|quietly]. specialize (Hc c eq_refl). eapply disposable_mono in Hd; [|exact Hr].
    apply tells_then; [eauto with pool|]. intros [] s2 Hr2; [apply quiet_ret|eauto with pool].
Qed.

Lemma quiet_retire_lost c i s : disposable s i -> quiet (retire_lost_cas_matched_instance c i) s.
Proof. intros Hd. unfold retire_lost_cas_matched_instance. quietly. Qed.
Hint Resolve quiet_remove_or_release quiet_remove_for_peer quiet_retire_lost : pool.

Lemma quiet_retire_failed a i sp s : disposable s i -> quiet (retire_failed_connection local a i sp) s.
Proof.
  intros Hd. unfold retire_failed_connection. apply tells_then; [quietly|]. intros routed s1 Hr.
  eapply disposable_mono in Hd; [|exact Hr]. clear Hr.
  destruct (match routed with Some p => Some p | None => sp end) as [p|]; [|eauto with pool].
  apply tells_then; [eapply tells_weaken; [apply finds_connection|done]|]. intros [c|] s2 Hr.
  all: eapply disposable_mono in Hd; [|exact Hr]; clear Hr.
  2: quietly.
  destruct (instance_id c =? i) eqn:E; cbn [negb]; [|eauto with pool].
  apply tells_then; [apply quiet_disconnect; eapply disposable_replaceable; eauto; lia|].
  intros [] s3 Hr; [apply quiet_ret|]. eauto with pool.
Qed.

Lemma quiet_exit c a h k sp s : disposable s (instance_id c) -> quiet (io_task_exit local c a h k sp) s.
Proof.
  intros Hd. unfold io_task_exit. apply tells_then; [quietly|]. intros up s1 Hr. eapply disposable_mono in Hd; [|exact Hr].
  clear Hr. case_match; [quietly|]. apply tells_then; [quietly|]. intros peer s2 Hr. eapply disposable_mono in Hd; [|exact Hr].
  clear Hr. apply tells_then.
  - case_match; [quietly|]. apply tells_then; [|intros; apply quiet_ret].
    case_match; [eapply tells_weaken; [apply finds_connection|done]|quietly].
  - intros sup s3 Hr. eapply disposable_mono in Hd; [|exact Hr]. clear Hr. case_match; [eauto with pool|].
    apply tells_then; [quietly|]. intros _ s4 Hr. apply quiet_retire_failed. eauto with pool.
Qed.

(** ** Admitting *)
Ltac keeping H := eapply disposable_mono in H; [|eassumption].

Lemma quiet_finish p a e c s : known s c -> disposable s (instance_id c) ->
  quiet (finish_indexing_accepted_connection p a e c) s.
Proof.
  intros Hk Hd. unfold finish_indexing_accepted_connection. cbv zeta.
  do 5 (apply tells_then; [quietly|intros ? ? Hr; keeping Hd; advance Hr]).
  case_decide; [apply quiet_ret|]. apply tells_then; [eauto with pool|]. intros r s1 Hr. keeping Hd. advance Hr.
  apply tells_then; [repeat case_match; eauto with pool|]. intros r' s2 Hr. quietly.
Qed.

Lemma quiet_publish_and_index p c e a b s : candidate p c false -> known s c -> disposable s (instance_id c) ->
  replaceable s p e -> quiet (publish_and_index local p c e a b) s.
Proof.
  intros Hc Hk Hd He. unfold publish_and_index, publish_inbound_or_reresolve.
  apply tells_then; [by apply quiet_reresolve|]. intros pub s1 Hr. keeping Hd. advance Hr.
  apply tells_then; [destruct pub; [by apply quiet_finish|apply quiet_ret]|]. intros acc s2 Hr. quietly.
Qed.

Lemma quiet_admit p c a b s : candidate p c false -> known s c -> disposable s (instance_id c) ->
  quiet (admit_inbound local p c a b) s.
Proof.
  intros Hc Hk Hd. unfold admit_inbound. eapply tells_bind; [apply finds_snapshot|]. intros [e|] s1 Hr He; keeping Hd; advance Hr.
  2: { apply quiet_publish_and_index; eauto with pool. }
  specialize (He e eq_refl). eapply tells_bind; [by apply tells_live|]. intros u s2 Hr Hu. keeping Hd. advance Hr.
  apply tells_then; [quietly|]. intros dup s3 Hr. keeping Hd.
  assert (u = false -> dead s3 e) as Hu' by eauto with pool. clear Hu. advance Hr.
  eapply tells_bind; [by apply tells_resolve|]. intros d s4 Hr Hj. cbn in Hj.
  assert (u && keep local p (is_outbound (direction e)) = false ->
          dead s4 e \/ keep local p (is_outbound (direction e)) = false) as Hke.
  { destruct u; cbn; eauto with pool. }
  keeping Hd. advance Hr. assert (d <> RejectIncoming -> may_end s4 p e) as Hm.
  { intros. eapply justified_may_end; eauto using newer_less. }
  destruct d; [| |quietly|]; specialize (Hm ltac:(done)); (apply tells_then; [eauto with pool|]);
    intros ev s5 Hr; keeping Hd; advance Hr; [| |quietly].
  all: apply tells_then; [apply quiet_publish_and_index; [done..|destruct ev; eauto with pool]|intros; quietly].
Qed.

Lemma quiet_unpublish a c p e s : (forall d, e = Some d -> known s d) ->
  quiet (unpublish_rejected_outbound_candidate a c p e) s.
Proof.
  intros He. unfold unpublish_rejected_outbound_candidate. apply tells_then; [quietly|]. intros rm s1 Hr1.
  apply tells_then; [quietly|]. intros kc s2 Hr2. apply tells_then; [|intros; quietly].
  destruct rm; [|apply quiet_ret].
  eapply (tells_bind _ _ _ _ (fun x s => forall d, x = Some d -> known s d)).
  - destruct e as [d|]; [|by apply tells_ret]. case_decide; [|by apply tells_ret].
    apply tells_then; [quietly|]. intros b s3 Hr3. apply tells_ret. destruct b; [|done]. intros ? [= <-]. eauto with pool.
  - intros [d|] s3 Hr3 Hd; quietly.
Qed.

Lemma quiet_publish_outbound p c e s : candidate p c true -> known s c -> (forall d, e = Some d -> known s d) ->
  quiet (publish_outbound local p c e) s.
Proof.
  intros Hc Hk He. unfold publish_outbound, publish_outbound_or_reresolve.
  eapply (tells_bind _ _ _ _ (fun d s => d <> RejectIncoming -> replaceable s p e)).
  - destruct e as [e|]; [|apply tells_ret; eauto with pool]. specialize (He e eq_refl).
    eapply tells_bind; [by apply tells_perform|]. intros up s1 Hr Hup. cbn in Hup. advance Hr.
    destruct up; [|apply tells_ret; intros _; apply replaceable_may; split; eauto].
    eapply tells_weaken; [by apply tells_resolve|]. intros d s2 Hr Hj Hd. cbn in Hj. apply replaceable_may.
    eapply justified_may_end; eauto using newer_less with pool.
  - intros d s1 Hr Hd. assert (forall d, e = Some d -> known s1 d) as He1 by eauto with pool. advance Hr.
    apply tells_then.
    + destruct d; [| |apply quiet_ret|]; specialize (Hd ltac:(done)); [by apply quiet_reresolve| |].
      * eapply (tells_bind _ _ _ _ (fun x s => replaceable s p x)).
        { destruct e as [e|]; [|apply tells_ret; eauto with pool]. unfold evict_before_replace.
          apply tells_then; [eauto with pool|]. intros [] s2 Hr; apply tells_ret; eauto with pool. }
        intros x s2 Hr Hx. advance Hr. by apply quiet_reresolve.
      * apply tells_then; [|intros; apply quiet_ret]. destruct e; [|apply quiet_ret].
        apply tells_then; [eauto with pool|intros; apply quiet_ret].
    + intros pub s2 Hr. apply tells_then; [|intros; apply quiet_ret]. destruct pub; [apply quiet_ret|].
      apply quiet_unpublish. eauto with pool.
Qed.

Lemma quiet_finalize tofu c id s : (forall p x, candidate p (with_identity x c) true) -> known s c ->
  disposable s (instance_id c) -> quiet (finalize_new_outbound_connection local tofu c id) s.
Proof.
  intros Hc Hk Hd. unfold finalize_new_outbound_connection. cbv zeta.
  apply tells_then; [unfold or_else; quietly|]. intros peer s1 Hr. keeping Hd. advance Hr.
  apply tells_then; [quietly|]. intros _ s2 Hr. keeping Hd. advance Hr.
  eapply (tells_bind _ _ _ _ (fun x s => forall d, x = Some d -> known s d)).
  { destruct peer; [apply finds_snapshot|by apply tells_ret]. }
  intros e s3 Hr He. keeping Hd. advance Hr. apply tells_then; [by apply quiet_index|]. intros _ s4 Hr. keeping Hd.
  assert (forall d, e = Some d -> known s4 d) as He' by eauto with pool. advance Hr.
  apply tells_then; [destruct peer; [apply quiet_publish_outbound; auto|apply quiet_ret]|]. intros pub s5 Hr. keeping Hd.
  advance Hr. destruct pub; cbn [negb]; [|apply quiet_ret]. apply tells_then; [quietly|]. intros _ s6 Hr. keeping Hd.
  destruct id; [apply quiet_ret|]. destruct peer; [|quietly]. apply tells_then; [|intros; apply quiet_ret].
  apply quiet_disconnect. eapply disposable_replaceable; [exact Hd|done].
Qed.

Lemma quiet_lookup p s : quiet (get_connection_by_peer_id local p) s.
Proof. eapply tells_weaken; [apply finds_connection|done]. Qed.
Lemma quiet_aliased p s : quiet (aliased_connection_by_peer_id local p) s.
Proof. eapply tells_weaken; [apply finds_aliased|done]. Qed.
Hint Resolve quiet_aliased : pool.

Lemma quiet_reindex p a s : quiet (reindex_connection_addr local p a) s.
Proof.
  unfold reindex_connection_addr, has_connection_by_peer_id. eapply tells_bind; [apply finds_connection|].
  intros [c|] s1 _ Hc; [|apply quiet_ret]. specialize (Hc c eq_refl). quietly.
Qed.

(** ** Operations outside the tie-break *)
Section Unguarded.
Hypothesis Hl : guarded l = false.

Lemma replaceable_any s p e : replaceable s p e.
Proof using Hl. intros c _ G. congruence. Qed.
Lemma disposable_any s i : disposable s i.
Proof using Hl. intros G. congruence. Qed.
Hint Resolve replaceable_any disposable_any quiet_clear_if : pool.

Lemma quiet_for_each {A} (f : A -> Op unit) xs : (forall x s, quiet (f x) s) -> forall s, quiet (for_each f xs) s.
Proof using Type. intros H. induction xs as [|x xs IH]; intros s; cbn [for_each]; quietly. Qed.

Lemma quiet_drop p s : quiet (disconnect_connection_by_peer_id local p) s.
Proof using Hl.
  unfold disconnect_connection_by_peer_id, clear_current_peer_connection.
  apply tells_then; [eapply tells_weaken; [apply finds_snapshot|done]|]. intros [c|] s1 _; [|apply quiet_ret].
  quietly. apply quiet_for_each. intros. quietly.
Qed.
Hint Resolve quiet_drop : pool.

Lemma quiet_remove_aliases addrs ps s : quiet (remove_aliases addrs ps) s.
Proof using Type. revert ps s. induction addrs as [|a addrs IH]; intros ps s; cbn [remove_aliases]; quietly. Qed.
Hint Resolve quiet_remove_aliases : pool.

Lemma quiet_remove a s : quiet (remove_connection a) s.
Proof using Hl. unfold remove_connection. quietly. apply quiet_for_each. intros. quietly. Qed.

Lemma quiet_stale ps s : quiet (stale_peers ps) s.
Proof using Type. revert s. induction ps as [|p ps IH]; intros s; cbn [stale_peers]; quietly. Qed.
Hint Resolve quiet_stale : pool.

Lemma quiet_candidates ps s : quiet (prune_candidates ps) s.
Proof using Type. revert s. induction ps as [|p ps IH]; intros s; cbn [prune_candidates]; quietly. Qed.
Hint Resolve quiet_candidates quiet_remove : pool.

Lemma quiet_prune idle s : quiet (prune_idle_peer_sessions idle) s.
Proof using Hl.
  unfold prune_idle_peer_sessions, reconcile_route_index, reconcile_route.
  quietly; apply quiet_for_each; intros; quietly.
Qed.
Hint Resolve quiet_prune : pool.

Lemma quiet_cleanup idle s : quiet (cleanup_stale_connections local idle) s.
Proof using Hl. unfold cleanup_stale_connections. quietly; apply quiet_for_each; intros; quietly. Qed.
Lemma quiet_close_all s : quiet (close_all_connections local) s.
Proof using Hl. unfold close_all_connections. quietly; apply quiet_for_each; intros; quietly. Qed.

Lemma quiet_dns p a b c s : quiet (dns_move p a b c) s.
Proof using Hl.
  unfold dns_move. do 3 (apply tells_then; [quietly|intros ? ? _]). eapply tells_bind; [by apply tells_perform|].
  intros [d|] s1 _ Hd; [|quietly]. specialize (Hd d eq_refl). quietly.
Qed.
End Unguarded.
End Quiet.

(** ** The whole system *)
Section System.
Context (local : PeerId).

Lemma inv_grow s s' : pool_inv s -> pool_rely s s' -> peer_sessions s' = peer_sessions s ->
  connections_by_peer s' = connections_by_peer s -> connections_by_addr s' = connections_by_addr s -> pool_inv s'.
Proof.
  intros Hi Hr E1 E2 E3. split; intros *; unfold current; rewrite ?E1, ?E2, ?E3; intros H; eapply known_mono; try exact Hr.
  - by eapply (pi_current _ Hi).
  - by eapply (pi_by_peer _ Hi).
  - by eapply (pi_by_addr _ Hi).
Qed.

Lemma start_allocates d c s s' : pool_inv s -> allocate_connection d c s = Some s' ->
  pool_rely s s' /\ pool_inv s' /\ known s' c /\ direction c = d.
Proof.
  unfold allocate_connection. intros Hi E. case_decide as Hn; [done|]. injection E as <-.
  assert (pool_rely s (set_live (fun m => {[instance_id c]} ∪ m) (set_allocated (fun m => {[instance_id c]} ∪ m) s))) as Hr.
  { split; unfold dead, known, gone; cbn; [set_solver| |done]. intros e [H1 H2]. split; [set_solver|].
    assert (instance_id e <> instance_id c); [|set_solver]. intros E. rewrite E in H1. tauto. }
  split_and!; [done| |unfold known; cbn; set_solver|destruct (decide (direction c = d)); tauto].
  by eapply inv_grow.
Qed.

Lemma body_safe l s s' : pool_inv s -> pool_start l s = Some s' ->
  pool_rely s s' /\ pool_inv s'
  /\ wp (A := bool) pool_exec pool_rely (pool_guar local l) pool_inv (pool_body local l) (fun _ _ => True) s'.
Proof.
  intros Hi Hs. destruct l; cbn [pool_start] in Hs.
  - destruct (start_allocates _ _ _ _ Hi Hs) as (Hr & Hi' & Hk & Hd). split_and!; [done..|]. apply tells_safe, quiet_admit; [|done|].
    + split; [by rewrite Hd|]. intros e He. left. auto.
    + intros _. split; [done|]. intros p' e He. split; [unfold known; by rewrite He|]. right. right. by right.
  - destruct (start_allocates _ _ _ _ Hi Hs) as (Hr & Hi' & Hk & Hd). split_and!; [done..|]. apply tells_safe, quiet_finalize; [|done|].
    + intros p x. split; [cbn; by rewrite Hd|]. intros e He. by left.
    + intros _. split; [done|]. intros p' e He. split; [unfold known; by rewrite He|]. right. right. by right.
  - injection Hs as <-. split_and!; [reflexivity|done|]. apply tells_safe. apply tells_then; [apply quiet_lookup|intros; apply quiet_ret].
  - injection Hs as <-. split_and!; [reflexivity|done|]. apply tells_safe. apply tells_then; [apply quiet_reindex|intros; apply quiet_ret].
  - case_decide as Hc; [|done]. injection Hs as <-. destruct Hc as [Ha He].
    set (s1 := set_live (fun m => m ∖ {[instance_id c]}) (set_exited (fun m => {[instance_id c]} ∪ m) s)).
    assert (pool_rely s s1) as Hr by (apply rely_same; cbn; [done|set_solver|done]).
    split_and!; [done|by eapply inv_grow|].
    apply tells_safe, tells_then; [apply quiet_exit|intros; apply quiet_ret]. intros _. split; [done|]. intros p e E.
    assert (known s1 e) as Hk by (unfold known; by rewrite E). split; [done|]. left. split; [done|]. rewrite E. cbn. set_solver.
  - injection Hs as <-. split_and!; [reflexivity|done|]. apply tells_safe, tells_then; [|intros; apply quiet_ret].
    apply quiet_remove_for_peer. by apply disposable_any.
  - injection Hs as <-. split_and!; [reflexivity|done|]. apply tells_safe, tells_then; [by apply quiet_cleanup|intros; apply quiet_ret].
  - injection Hs as <-. split_and!; [reflexivity|done|]. apply tells_safe, tells_then; [by apply quiet_close_all|intros; apply quiet_ret].
  - injection Hs as <-. split_and!; [reflexivity|done|]. apply tells_safe, tells_then; [by apply quiet_drop|intros; apply quiet_ret].
  - injection Hs as <-. split_and!; [reflexivity|done|]. apply tells_safe, tells_then; [by apply quiet_remove|intros; apply quiet_ret].
  - injection Hs as <-. split_and!; [reflexivity|done|]. apply tells_safe, tells_then; [by apply quiet_dns|intros; apply quiet_ret].
Qed.

Lemma env_safe e s s' : pool_inv s -> pool_env e s = Some s' -> pool_rely s s' /\ pool_inv s'.
Proof.
  intros Hi [= <-]. split; [split; done|]. destruct Hi. by split.
Qed.

Definition pool_sound : PoolSys -> Prop :=
  sys_sound pool_exec pool_rely (pool_guar local) pool_inv (fun _ _ _ => True).

Lemma reachable_pool_sound y : star (pool_step local) pool_sys_new y -> pool_sound y.
Proof.
  intros Hr. refine (reachable_sound _ _ _ _ _ _ _ _ _ _ _ _ _ _ _ Hr); eauto using body_safe, env_safe.
  - by intros l s s' _ [].
  - split; [split; intros *; unfold current; cbn; by rewrite lookup_empty|]. intros *. cbn. by rewrite lookup_empty.
Qed.

(** The step ended live sessions only for a cause the task had. *)
Definition ended_for_cause (l : PoolCall) (y y' : PoolSys) : Prop :=
  forall p c, ended (shared y) (shared y') p c -> gone (shared y) \/ entitled local l p c.

End System.

(** ** A run: a dialled connection gives way to an accepted one *)
Module Handover.
Definition me : PeerId := mkPeerId [2].
Definition you : PeerId := mkPeerId [1].
Definition at_port (port : Z) : SocketAddr := SocketAddrV4 1 port.
Definition dialled : Connection := mkConnection 1 (at_port 10) Outbound None (Some you) 0.
Definition accepted : Connection := mkConnection 2 (at_port 10) Inbound None (Some you) 0.
Definition accept : PoolCall := Accept you accepted (at_port 99) (at_port 10).

(** The dial is complete; the accept is about to take the slot. *)
Definition before : PoolSys :=
  pool_after me (Spawn 0 (Dial (Some you) dialled true) :: runs 0 16 ++ Spawn 1 accept :: runs 1 5).
Definition after : PoolSys := default before (pool_event me (Run 1) before).
End Handover.

