(* ===== verification/PoolRuns.v ===== *)
(** * Runs in which the pool goes wrong

    Three schedules of the pool's programs.  In one the periodic cleanup, which
    decides on a snapshot and then tears down whatever the peer's session is,
    ends a fresh session.  In the two others a connection stays counted for ever:
    a dialled connection counted after its retirement, and one whose retirement
    lost to a new session both in the slot and at the address. *)

From S2P Require Import Prelude Types Concurrent ConnectionConflict ConnectionPool PoolCounter PoolSessions PoolSafety.

Definition at_port (port : Z) : SocketAddr := SocketAddrV4 1 port.
Definition low : PeerId := mkPeerId [1].
Definition high : PeerId := mkPeerId [2].

(** ** The cleanup ends a fresh session

    The higher node's session has died; the cleanup has seen that, and then the
    peer connects again before it acts. *)
Module Clean.
Definition old : Connection := mkConnection 1 (at_port 10) Inbound None (Some low) 0.
Definition fresh : Connection := mkConnection 2 (at_port 10) Inbound None (Some low) 0.

Definition start : list (SysEvent (Label := PoolCall) (Env := PoolEnv)) :=
  Spawn 0 (Accept low old (at_port 10) (at_port 10)) :: runs 0 20 ++
  Spawn 1 (IoExit old (at_port 10) (Some low) false None) ::
  Spawn 2 (Cleanup []) :: runs 2 3 ++
  Spawn 3 (Accept low fresh (at_port 10) (at_port 10)) :: runs 3 33 ++ runs 2 2.

Definition before : PoolSys := pool_after high start.
Definition after : PoolSys := default before (pool_event high (Run 2) before).
Definition final : PoolSys := pool_after high (start ++ runs 2 20 ++ runs 1 11).
End Clean.

(** C24: the cleanup of stale connections can end a live session.  It collects
    the peers whose session is dead and then disconnects each peer, not the
    session it saw: a peer that reconnected in between loses its new session,
    although its stream is alive and nothing competes with it, and stays without
    a session when everything has come to rest. *)
Theorem cleanup_ends_fresh_session :
  star (pool_step high) pool_sys_new Clean.before
  /\ pool_event high (Run 2) Clean.before = Some Clean.after
  /\ ended (shared Clean.before) (shared Clean.after) low Clean.fresh
  /\ star (pool_step high) pool_sys_new Clean.final /\ under_way Clean.final = 0
  /\ current (shared Clean.final) low = None /\ connections_by_addr (shared Clean.final) = ∅
  /\ instance_id Clean.fresh ∈ allocated (shared Clean.final) ∖ live (shared Clean.final).
Proof.
  split_and!; try apply pool_after_reachable; [apply some_default| | | | |]; vm_compute; try reflexivity; try discriminate.
  split_and!; done || discriminate.
Qed.

(** ** Connections that stay counted *)
Definition refers_to (i : Z) (s : Pool) : bool :=
  existsb (fun x => instance_id x.2 =? i) (map_to_list (connections_by_addr s))
  || existsb (fun x => instance_id x.2 =? i) (map_to_list (connections_by_peer s))
  || existsb (fun x => match current_connection x.2 with Some c => instance_id c =? i | None => false end)
       (map_to_list (peer_sessions s)).

(** Counted, though its exit was handled and the pool does not know it any more. *)
Definition leaked (i : Z) (s : Pool) : bool :=
  bool_decide (i ∈ counted_instances s) && bool_decide (i ∈ exited s) && bool_decide (i ∉ live s) && negb (refers_to i s).

Module Leak.
(** A dialled connection is published, exits and is retired before it is
    counted; then the peer's own connection takes the slot. *)
Definition dialled : Connection := mkConnection 1 (at_port 10) Outbound None (Some low) 0.
Definition accepted : Connection := mkConnection 2 (at_port 10) Inbound None (Some low) 0.
Definition late_count : PoolSys := pool_after high
  (Spawn 0 (Dial (Some low) dialled false) :: runs 0 14 ++
   Spawn 1 (IoExit dialled (at_port 10) (Some low) false None) :: runs 1 35 ++
   Spawn 2 (Accept low accepted (at_port 10) (at_port 10)) :: runs 2 20 ++ runs 0 3).

(** The exit of a connection has found it at its address; then a new dial takes
    the slot and the address. *)
Definition first : Connection := mkConnection 1 (at_port 10) Outbound None (Some high) 0.
Definition second : Connection := mkConnection 2 (at_port 10) Outbound None (Some high) 0.
Definition lost_retirement : PoolSys := pool_after low
  (Spawn 0 (Dial (Some high) first true) :: runs 0 16 ++
   Spawn 1 (IoExit first (at_port 10) (Some high) false None) :: runs 1 22 ++
   Spawn 2 (Dial (Some high) second true) :: runs 2 18 ++ runs 1 3).
End Leak.

(** C25: a connection can stay counted for ever.  In both runs every task has
    returned, the exit of connection 1 was handled and no map of the pool refers
    to it, and yet it is counted: the outbound path counts without checking that
    the connection is still the session, and the removal of an instance for a
    peer does not release the count when neither the slot nor the address holds
    the instance any more. *)
Theorem counts_leak :
  (star (pool_step high) pool_sys_new Leak.late_count /\ under_way Leak.late_count = 0
   /\ leaked 1 (shared Leak.late_count) = true /\ connection_counter (shared Leak.late_count) = 2)
  /\ (star (pool_step low) pool_sys_new Leak.lost_retirement /\ under_way Leak.lost_retirement = 0
      /\ leaked 1 (shared Leak.lost_retirement) = true /\ connection_counter (shared Leak.lost_retirement) = 2).
Proof. split; (split; [apply pool_after_reachable|]); split_and!; vm_compute; reflexivity. Qed.
