(* ===== verification/PubSubFrame.v ===== *)
(** * Pubsub frames

    The wire format of routed pubsub messages and the names of the actors that
    advertise a node's interest in a topic (src/src/pubsub.rs). *)

From S2P Require Import Prelude Types ActorConflict ActorDirectory.

Definition FAST_FRAME_MAGIC : list Z := [80; 83; 70; 49].
Definition FAST_FRAME_HEADER_LEN : Z := 120.
Definition FAST_FRAME_DEST_PEER_LEN : Z := 32.

Inductive PubSubDeliveryMode := AtMostOnce | AtLeastOnceHopAck.

#[global] Instance PubSubDeliveryMode_eq_dec : EqDecision PubSubDeliveryMode.
Proof. solve_decision. Defined.

Definition encode_delivery_mode (mode : PubSubDeliveryMode) : Z :=
  match mode with AtMostOnce => 0 | AtLeastOnceHopAck => 1 end.

Definition decode_delivery_mode (mode : Z) : option PubSubDeliveryMode :=
  match mode with
  | 0 => Some AtMostOnce
  | 1 => Some AtLeastOnceHopAck
  | _ => None
  end.

(** ** Writing a frame *)
Definition fast_frame_len (destination_peers : list PeerId) (payload : list Z) : Z :=
  saturating_add usize_max
    (saturating_add usize_max FAST_FRAME_HEADER_LEN
       (saturating_mul usize_max (len destination_peers) FAST_FRAME_DEST_PEER_LEN))
    (len payload).

Definition written_destinations (destination_peers : list PeerId) : list PeerId :=
  take (Z.to_nat (Z.min (len destination_peers) u16_max)) destination_peers.

Definition write_fast_frame (out : list Z) (topic_key type_hash msg_id : Z) (origin_peer_id source_peer_id : PeerId)
    (hops_remaining : Z) (mode : PubSubDeliveryMode) (publisher_enqueued_ns : Z) (destination_peers : list PeerId)
    (payload : list Z) : list Z :=
  let written := written_destinations destination_peers in
  out ++ FAST_FRAME_MAGIC ++ [1] ++ [encode_delivery_mode mode] ++ [hops_remaining] ++ [0]
      ++ to_be_bytes 8 topic_key ++ to_be_bytes 8 type_hash ++ to_be_bytes 16 msg_id
      ++ peer_bytes origin_peer_id ++ peer_bytes source_peer_id
      ++ to_be_bytes 2 (len written) ++ replicate 6 0 ++ to_be_bytes 8 publisher_enqueued_ns
      ++ concat (map peer_bytes written) ++ payload.

(** ** Reading one *)
Record FastFrameView := mkView {
  topic_key : Z;
  type_hash : Z;
  msg_id : Z;
  origin_peer_id : list Z;
  source_peer_id : list Z;
  hops_remaining : Z;
  mode : PubSubDeliveryMode;
  publisher_enqueued_ns : Z;
  destination_peers : list Z;
  destination_count : Z;
  payload : list Z;
}.

Definition byte_at (frame : list Z) (i : nat) : Z := default 0 (frame !! i).

Definition parse_fast_frame (frame : list Z) : option FastFrameView :=
  if (len frame <? FAST_FRAME_HEADER_LEN) || negb (bool_decide (slice frame 0 4 = FAST_FRAME_MAGIC)) then None
  else if negb (byte_at frame 4 =? 1) then None
  else
    mode ← decode_delivery_mode (byte_at frame 5);
    let destination_count := from_be_bytes (slice frame 104 106) in
    destinations_len ← checked_mul usize_max destination_count FAST_FRAME_DEST_PEER_LEN;
    payload_offset ← checked_add usize_max FAST_FRAME_HEADER_LEN destinations_len;
    if len frame <? payload_offset then None
    else Some {|
      topic_key := from_be_bytes (slice frame 8 16);
      type_hash := from_be_bytes (slice frame 16 24);
      msg_id := from_be_bytes (slice frame 24 40);
      origin_peer_id := slice frame 40 72;
      source_peer_id := slice frame 72 104;
      hops_remaining := byte_at frame 6;
      mode := mode;
      publisher_enqueued_ns := from_be_bytes (slice frame 112 120);
      destination_peers := slice frame 120 (Z.to_nat payload_offset);
      destination_count := destination_count;
      payload := drop (Z.to_nat payload_offset) frame;
    |}.

Definition destination_peer_bytes_at (v : FastFrameView) (index : Z) : option (list Z) :=
  if destination_count v <=? index then None
  else
    start ← checked_mul usize_max index FAST_FRAME_DEST_PEER_LEN;
    stop ← checked_add usize_max start FAST_FRAME_DEST_PEER_LEN;
    Some (slice (destination_peers v) (Z.to_nat start) (Z.to_nat stop)).

(** [0..destination_count]. *)
Definition destination_indices (v : FastFrameView) : list Z := map Z.of_nat (seq 0 (Z.to_nat (destination_count v))).

Section Keys.
(** [VerifyingKey::from_bytes] accepts the bytes. *)
Context (valid_key : list Z -> bool).

Definition peer_from_bytes (bytes : list Z) : option PeerId :=
  if negb (len bytes =? 32) then None else if valid_key bytes then Some (mkPeerId bytes) else None.

Definition destination_peer_at (v : FastFrameView) (index : Z) : option PeerId :=
  bytes ← destination_peer_bytes_at v index;
  peer_from_bytes bytes.

Definition destination_peer_iter (v : FastFrameView) : list PeerId :=
  omap (destination_peer_at v) (destination_indices v).

(** ** Interest names *)
Section Names.
(** [hex::encode] and [hex::decode]. *)
Context (hex_encode : list Z -> list Z) (hex_decode : list Z -> option (list Z)).

Definition hex_digit (d : Z) : Z := if d <? 10 then 48 + d else 87 + d.

(** [{:016x}] of a [u64]. *)
Fixpoint hex_digits (n : nat) (x : Z) : list Z :=
  match n with
  | O => []
  | S k => hex_digit ((x / 16 ^ Z.of_nat k) mod 16) :: hex_digits k x
  end.

Definition interest_name (topic : Z) (peer : PeerId) : Name :=
  INTEREST_PREFIX ++ [47] ++ hex_digits 16 topic ++ [47] ++ hex_encode (peer_bytes peer).

(** [char::to_digit(16)]. *)
Definition digit_value (c : Z) : option Z :=
  if (48 <=? c) && (c <=? 57) then Some (c - 48)
  else if (97 <=? c) && (c <=? 102) then Some (c - 87)
  else if (65 <=? c) && (c <=? 70) then Some (c - 55)
  else None.

(** [u64::from_str_radix(_, 16)]: an optional plus, then digits, no overflow. *)
Fixpoint radix_digits (acc : Z) (s : list Z) : option Z :=
  match s with
  | [] => Some acc
  | c :: s =>
      d ← digit_value c;
      scaled ← checked_mul u64_max acc 16;
      acc ← checked_add u64_max scaled d;
      radix_digits acc s
  end.

Definition from_str_radix_16 (s : list Z) : option Z :=
  match s with
  | [] => None
  | [c] => if (c =? 43) || (c =? 45) then None else radix_digits 0 s
  | c :: rest => radix_digits 0 (if c =? 43 then rest else s)
  end.

(** [split_once('/')]. *)
Fixpoint split_once (sep : Z) (s : list Z) : option (list Z * list Z) :=
  match s with
  | [] => None
  | c :: s => if c =? sep then Some ([], s) else '(a, b) ← split_once sep s; Some (c :: a, b)
  end.

Definition parse_interest_name (name : Name) : option (Z * PeerId) :=
  rest ← strip_prefix INTEREST_PREFIX name;
  rest ← strip_prefix [47] rest;
  '(topic, peer) ← split_once 47 rest;
  topic ← from_str_radix_16 topic;
  bytes ← hex_decode peer;
  peer ← peer_from_bytes bytes;
  Some (topic, peer).
End Names.
End Keys.

(** ** Slices of a concatenation *)
Lemma slice_skip {A} (l r : list A) a b : (length l <= a)%nat -> slice (l ++ r) a b = slice r (a - length l) (b - length l).
Proof. intros H. unfold slice. rewrite drop_app_ge by done. f_equal. lia. Qed.

Lemma slice_here {A} (l r : list A) b : length l = b -> slice (l ++ r) 0 b = l.
Proof. intros <-. unfold slice. rewrite drop_0, Nat.sub_0_r. apply take_app_length. Qed.

Lemma drop_skip {A} (l r : list A) a : (length l <= a)%nat -> drop a (l ++ r) = drop (a - length l) r.
Proof. intros H. by rewrite drop_app_ge. Qed.

(** An identity is the 32 bytes of a key. *)
Definition peer_ok (p : PeerId) : Prop := length (peer_bytes p) = 32%nat.

Lemma length_concat_peers ps : Forall peer_ok ps -> length (concat (map peer_bytes ps)) = (32 * length ps)%nat.
Proof. induction 1 as [|p ps Hp _ IH]; [done|]. cbn. rewrite length_app, IH, Hp. lia. Qed.

Lemma slice_concat_peers ps i p : Forall peer_ok ps -> ps !! i = Some p ->
  slice (concat (map peer_bytes ps)) (32 * i) (32 * i + 32) = peer_bytes p.
Proof.
  intros H. revert i. induction H as [|q ps Hq _ IH]; intros i; [done|]. cbn [map concat]. destruct i as [|i]; cbn [lookup list_lookup].
  - intros [= <-]. by apply slice_here.
  - intros Hi. rewrite slice_skip by (rewrite Hq; lia). rewrite Hq. rewrite <- (IH i Hi). f_equal; lia.
Qed.

Lemma decode_encode_mode m : decode_delivery_mode (encode_delivery_mode m) = Some m.
Proof. by destruct m. Qed.

Section Layout.
Context (topic ty id hops ns : Z) (origin source : PeerId) (m : PubSubDeliveryMode) (ds : list PeerId) (body : list Z).
Context (Ht : 0 <= topic <= u64_max) (Hy : 0 <= ty <= u64_max) (Hi : 0 <= id < 2 ^ 128) (Hn : 0 <= ns <= u64_max).
Context (Ho : peer_ok origin) (Hs : peer_ok source) (Hd : Forall peer_ok ds).

Let frame := write_fast_frame [] topic ty id origin source hops m ns ds body.

(** What the receiver sees. *)
Definition sent_view : FastFrameView := {|
  topic_key := topic; type_hash := ty; msg_id := id; origin_peer_id := peer_bytes origin;
  source_peer_id := peer_bytes source; hops_remaining := hops; mode := m; publisher_enqueued_ns := ns;
  destination_peers := concat (map peer_bytes (written_destinations ds));
  destination_count := len (written_destinations ds); payload := body |}.

Lemma written_ok : Forall peer_ok (written_destinations ds).
Proof using Hd. unfold written_destinations. by apply Forall_take. Qed.

Lemma written_len : len (written_destinations ds) = Z.min (len ds) u16_max.
Proof using Type.
  unfold written_destinations, len. rewrite length_take. unfold u16_max. lia.
Qed.

Lemma frame_length : len frame = 120 + 32 * len (written_destinations ds) + len body.
Proof using Hd Ho Hs.
  unfold frame, write_fast_frame, len. repeat rewrite length_app. autorewrite with remote.
  rewrite length_concat_peers by apply written_ok. rewrite Ho, Hs, length_replicate. cbn [length FAST_FRAME_MAGIC]. lia.
Qed.

Let head := [80; 83; 70; 49; 1; encode_delivery_mode m; hops; 0].

Lemma frame_parts : frame = head ++ to_be_bytes 8 topic ++ to_be_bytes 8 ty ++ to_be_bytes 16 id
  ++ peer_bytes origin ++ peer_bytes source ++ to_be_bytes 2 (len (written_destinations ds)) ++ replicate 6 0
  ++ to_be_bytes 8 ns ++ concat (map peer_bytes (written_destinations ds)) ++ body.
Proof using Type. reflexivity. Qed.

Ltac sizes := autorewrite with remote; rewrite ?Ho, ?Hs, ?length_replicate; change (length head) with 8%nat.
Ltac at_slice :=
  rewrite frame_parts; repeat rewrite slice_skip by (sizes; lia); sizes; cbn [Nat.sub]; apply slice_here; sizes.

Lemma frame_fields :
  slice frame 8 16 = to_be_bytes 8 topic /\ slice frame 16 24 = to_be_bytes 8 ty /\ slice frame 24 40 = to_be_bytes 16 id
  /\ slice frame 40 72 = peer_bytes origin /\ slice frame 72 104 = peer_bytes source
  /\ slice frame 104 106 = to_be_bytes 2 (len (written_destinations ds)) /\ slice frame 112 120 = to_be_bytes 8 ns.
Proof using Ho Hs. split_and!; at_slice; done. Qed.

Lemma frame_tail n : length (concat (map peer_bytes (written_destinations ds))) = n ->
  slice frame 120 (120 + n) = concat (map peer_bytes (written_destinations ds)) /\ drop (120 + n) frame = body.
Proof using Ho Hs.
  intros Hc. split.
  - rewrite frame_parts. repeat rewrite slice_skip by (sizes; lia). sizes. apply slice_here. lia.
  - rewrite frame_parts. repeat rewrite drop_skip by (sizes; lia). sizes. rewrite Hc.
    match goal with |- drop ?k _ = _ => replace k with 0%nat by lia end. apply drop_0.
Qed.

Lemma parse_written_frame : parse_fast_frame frame = Some sent_view.
Proof using All.
  pose proof frame_length as Hl. pose proof written_len as Hw. pose proof (len_nonneg body).
  assert (0 <= len (written_destinations ds) <= u16_max) as Hb by (pose proof (len_nonneg ds); unfold u16_max in *; lia).
  destruct frame_fields as (E1 & E2 & E3 & E4 & E5 & E6 & E7).
  destruct (frame_tail _ (length_concat_peers _ written_ok)) as [E8 E9].
  unfold parse_fast_frame, FAST_FRAME_HEADER_LEN. rewrite (proj2 (Z.ltb_ge _ _)) by lia. cbn [orb].
  rewrite E1, E2, E3, E4, E5, E6, E7, !from_to_be_bytes by (unfold u16_max in *; unfold_widths; cbn; lia).
  change (byte_at frame 4) with 1. change (byte_at frame 5) with (encode_delivery_mode m).
  change (byte_at frame 6) with hops. change (slice frame 0 4) with FAST_FRAME_MAGIC.
  rewrite bool_decide_true, decode_encode_mode by done. cbn [negb Z.eqb mbind option_bind Pos.eqb].
  unfold checked_mul, checked_add, FAST_FRAME_DEST_PEER_LEN.
  rewrite (proj2 (Z.leb_le _ _)) by (unfold u16_max in *; unfold_widths; lia). cbn [mbind option_bind].
  rewrite (proj2 (Z.leb_le _ _)) by (unfold u16_max in *; unfold_widths; lia). cbn [mbind option_bind].
  rewrite (proj2 (Z.ltb_ge _ _)) by lia.
  replace (Z.to_nat (120 + len (written_destinations ds) * 32)) with (120 + 32 * length (written_destinations ds))%nat
    by (unfold len; lia).
  by rewrite E8, E9.
Qed.

Lemma view_destination i p : written_destinations ds !! i = Some p ->
  destination_peer_bytes_at sent_view (Z.of_nat i) = Some (peer_bytes p).
Proof using Hd.
  intros Hp. pose proof (lookup_lt_Some _ _ _ Hp) as Hlt. pose proof written_len as Hw. pose proof (len_nonneg ds).
  unfold destination_peer_bytes_at, sent_view, FAST_FRAME_DEST_PEER_LEN. cbn [destination_count destination_peers].
  unfold len in *. rewrite (proj2 (Z.leb_gt _ _)) by lia. unfold checked_mul, checked_add.
  rewrite (proj2 (Z.leb_le _ _)) by (unfold u16_max in *; unfold_widths; lia). cbn [mbind option_bind].
  rewrite (proj2 (Z.leb_le _ _)) by (unfold u16_max in *; unfold_widths; lia). cbn [mbind option_bind].
  rewrite <- (slice_concat_peers _ i p written_ok Hp). do 2 f_equal; lia.
Qed.

Lemma view_destinations : map (destination_peer_bytes_at sent_view) (destination_indices sent_view)
  = map (fun p => Some (peer_bytes p)) (written_destinations ds).
Proof using Hd.
  apply list_eq. intros i. unfold destination_indices. rewrite !list_lookup_fmap.
  change (destination_count sent_view) with (len (written_destinations ds)). unfold len. rewrite Nat2Z.id.
  destruct (written_destinations ds !! i) as [p|] eqn:E.
  - rewrite lookup_seq_lt by (by eapply lookup_lt_Some). cbn. f_equal. by apply view_destination.
  - rewrite lookup_seq_ge by (by apply lookup_ge_None). done.
Qed.
End Layout.

Lemma omap_through {A B C D} (f : A -> option B) (h : D -> B) (k : B -> option C) xs ys :
  map f xs = map (fun y => Some (h y)) ys -> omap (fun x => f x ≫= k) xs = omap (fun y => k (h y)) ys.
Proof.
  revert ys. induction xs as [|x xs IH]; intros [|y ys]; cbn; try done. intros [= E H]. rewrite E. cbn.
  rewrite (IH _ H). done.
Qed.

Lemma view_peers valid_key topic ty id hops ns origin source m ds body : Forall peer_ok ds ->
  destination_peer_iter valid_key (sent_view topic ty id hops ns origin source m ds body)
  = filter (fun p => valid_key (peer_bytes p) = true) (written_destinations ds).
Proof.
  intros Hd. unfold destination_peer_iter, destination_peer_at.
  rewrite (omap_through _ peer_bytes _ _ _ (view_destinations _ _ _ _ _ _ _ _ _ _ Hd)).
  pose proof (written_ok ds Hd) as Hw. induction Hw as [|p ps Hp Hps IH]; [done|].
  rewrite filter_cons. rewrite <- IH. cbn [omap list_omap]. unfold peer_from_bytes at 1, len. rewrite Hp. cbn [Z.eqb Z.of_nat negb].
  destruct (valid_key (peer_bytes p)) eqn:E; case_decide; try done. by destruct p.
Qed.

(** C32: a pubsub frame is read as it was written.  For every topic, type,
    message id, origin, source, hop count, mode, time stamp, list of
    destinations and payload, the receiver parses the frame to exactly these,
    with the destinations that fit the 16-bit count, and hands on those whose
    bytes are a key.  The length the sender announces is the length of the
    frame if and only if no destination was left out: with more than 65535
    destinations the frame is shorter than announced. *)
Theorem fast_frame_roundtrip valid_key topic ty id hops ns origin source m ds body :
  0 <= topic <= u64_max -> 0 <= ty <= u64_max -> 0 <= id < 2 ^ 128 -> 0 <= ns <= u64_max ->
  peer_ok origin -> peer_ok source -> Forall peer_ok ds -> 120 + 32 * len ds + len body <= usize_max ->
  let frame := write_fast_frame [] topic ty id origin source hops m ns ds body in
  let sent := take (Z.to_nat u16_max) ds in
  exists v, parse_fast_frame frame = Some v
    /\ (topic_key v, type_hash v, msg_id v, publisher_enqueued_ns v) = (topic, ty, id, ns)
    /\ (origin_peer_id v, source_peer_id v) = (peer_bytes origin, peer_bytes source)
    /\ (hops_remaining v, mode v, payload v) = (hops, m, body)
    /\ map (destination_peer_bytes_at v) (destination_indices v) = map (fun p => Some (peer_bytes p)) sent
    /\ destination_peer_iter valid_key v = filter (fun p => valid_key (peer_bytes p) = true) sent
    /\ (fast_frame_len ds body = len frame <-> len ds <= u16_max).
Proof.
  intros Ht Hy Hi Hn Ho Hs Hd Hlen frame sent.
  assert (written_destinations ds = sent) as Hw.
  { unfold written_destinations, sent. destruct (Z.min_spec (len ds) u16_max) as [[? ->]|[? ->]]; [|reflexivity].
    unfold len in *. rewrite !take_ge by lia. reflexivity. }
  clearbody sent.
  exists (sent_view topic ty id hops ns origin source m ds body).
  split; [by apply parse_written_frame|]. do 3 (split; [done|]).
  rewrite view_destinations, view_peers, Hw by done. do 2 (split; [done|]).
  unfold frame. rewrite frame_length, written_len by done. pose proof (len_nonneg ds). pose proof (len_nonneg body).
  unfold fast_frame_len, saturating_add, saturating_mul, FAST_FRAME_HEADER_LEN, FAST_FRAME_DEST_PEER_LEN, u16_max in *.
  rewrite !Z.min_r by (unfold_widths; lia). lia.
Qed.

Lemma fast_frame_roundtrip_witness :
  let a := mkPeerId (replicate 32 7) in let b := mkPeerId (replicate 32 9) in
  exists v, parse_fast_frame (write_fast_frame [] 1 2 3 a b 8 AtMostOnce 4 [b; a] [5; 6]) = Some v
    /\ payload v = [5; 6] /\ destination_peer_iter (fun _ => true) v = [b; a].
Proof.
  intros a b.
  destruct (fast_frame_roundtrip (fun _ => true) 1 2 3 8 4 a b AtMostOnce [b; a] [5; 6]
    ltac:(unfold_widths; lia) ltac:(unfold_widths; lia) ltac:(lia) ltac:(unfold_widths; lia) eq_refl eq_refl
    ltac:(repeat constructor) ltac:(vm_compute; discriminate)) as (v & Hv & _ & _ & Hp & _ & Hd & _).
  exists v. split; [exact Hv|]. split; [congruence|]. rewrite Hd, take_ge by (cbn [length]; unfold u16_max; lia). reflexivity.
Defined.

(** ** Interest names round trip *)
Lemma hex_digit_value d : 0 <= d < 16 -> digit_value (hex_digit d) = Some d /\ hex_digit d <> 47 /\ hex_digit d <> 43.
Proof. intros H. unfold digit_value, hex_digit. cmp_cases; cbn; split_and!; try lia; f_equal; lia. Qed.

Lemma radix_hex_digits n : forall acc x, 0 <= acc -> acc * 16 ^ Z.of_nat n + x mod 16 ^ Z.of_nat n <= u64_max ->
  radix_digits acc (hex_digits n x) = Some (acc * 16 ^ Z.of_nat n + x mod 16 ^ Z.of_nat n).
Proof.
  induction n as [|n IH]; intros acc x Ha Hb; cbn [hex_digits radix_digits].
  { cbn [Z.of_nat]. change (16 ^ 0) with 1. rewrite Z.mod_1_r. f_equal. lia. }
  set (p := 16 ^ Z.of_nat n) in *. assert (0 < p) by (unfold p; lia).
  assert (16 ^ Z.of_nat (S n) = p * 16) as E by (unfold p; rewrite Nat2Z.inj_succ, Z.pow_succ_r by lia; lia).
  rewrite E in *. rewrite Z.rem_mul_r in * by lia. set (d := (x / p) mod 16) in *.
  assert (0 <= d < 16) by (apply Z.mod_pos_bound; lia). assert (0 <= x mod p < p) by (apply Z.mod_pos_bound; lia).
  rewrite (proj1 (hex_digit_value d ltac:(lia))). cbn [mbind option_bind]. unfold checked_mul, checked_add.
  rewrite (proj2 (Z.leb_le (acc * 16) _)) by nia. cbn [mbind option_bind].
  rewrite (proj2 (Z.leb_le (acc * 16 + d) _)) by nia. cbn [mbind option_bind].
  rewrite IH by (fold p; nia). fold p. f_equal. lia.
Qed.

Lemma hex_digits_chars n x : Forall (fun c => c <> 47 /\ c <> 43) (hex_digits n x).
Proof.
  induction n as [|n IH]; constructor; [|done].
  pose proof (hex_digit_value ((x / 16 ^ Z.of_nat n) mod 16) ltac:(apply Z.mod_pos_bound; lia)). tauto.
Qed.

Lemma from_str_hex_digits x : 0 <= x <= u64_max -> from_str_radix_16 (hex_digits 16 x) = Some x.
Proof.
  intros Hx. pose proof (radix_hex_digits 16 0 x ltac:(lia)) as H. rewrite Z.mod_small in H by (unfold_widths; cbn; lia).
  cbn [Z.mul Z.add] in H. specialize (H ltac:(lia)).
  pose proof (hex_digits_chars 16 x) as Hc. destruct (hex_digits 16 x) as [|c [|c' s]] eqn:E; try done.
  apply list.Forall_cons in Hc as [[_ Hc] _]. cbn [from_str_radix_16]. by rewrite (proj2 (Z.eqb_neq c 43)).
Qed.

Lemma split_once_here sep a b : Forall (fun c => c <> sep) a -> split_once sep (a ++ sep :: b) = Some (a, b).
Proof.
  induction 1 as [|c a Hc _ IH]; cbn [split_once app]; [by rewrite Z.eqb_refl|].
  rewrite (proj2 (Z.eqb_neq _ _)) by done. by rewrite IH.
Qed.

Lemma strip_prefix_app p s : strip_prefix p (p ++ s) = Some s.
Proof. induction p as [|x p IH]; [done|]. cbn. by rewrite Z.eqb_refl. Qed.

(** The name a node advertises for a topic is read back as that topic and that
    node, and is recognised as an interest actor's name. *)
Lemma interest_name_roundtrip valid_key hex_encode hex_decode topic peer :
  (forall bytes, hex_decode (hex_encode bytes) = Some bytes) -> 0 <= topic <= u64_max ->
  peer_ok peer -> valid_key (peer_bytes peer) = true ->
  parse_interest_name valid_key hex_decode (interest_name hex_encode topic peer) = Some (topic, peer)
  /\ is_interest_actor_name (interest_name hex_encode topic peer) = true.
Proof.
  intros Hx Ht Hp Hv. unfold parse_interest_name, is_interest_actor_name, interest_name. rewrite strip_prefix_app.
  cbn [mbind option_bind]. split; [|done]. rewrite strip_prefix_app. cbn [mbind option_bind app].
  rewrite split_once_here by (eapply (list.Forall_impl _ _ _ (hex_digits_chars 16 topic)); tauto). cbn [mbind option_bind].
  rewrite from_str_hex_digits, Hx by done. cbn [mbind option_bind]. unfold peer_from_bytes, len. rewrite Hp, Hv. by destruct peer.
Qed.
