(* ===== verification/PubSub.v ===== *)
(** * The pubsub engine

    [RoutedPubSub] of src/src/pubsub.rs: local subscribers with their bounded
    queues, the count of local interest per topic, publication along the routes,
    the filter for messages seen before, and the handling of an incoming frame,
    which delivers it here and passes it on.  One operation is one function on
    the engine's state; [PubSubInterest] takes the operations on interest apart
    where they race. *)

From S2P Require Import Prelude Types Framing ActorConflict ActorDirectory PubSubFrame.

Definition SEEN_MESSAGE_CAPACITY : Z := 16384.
Definition SUBSCRIBER_QUEUE_CAPACITY : Z := 64.

(** ** Subscribers

    An entry is its id; [workers] has the queue of each running worker.  What a
    worker gets depends on how it subscribed. *)
Abbreviation SubscriberKey := (Z * Z)%type.

Inductive Delivered :=
  | DeliveredOwned (payload : list Z)
  | DeliveredBorrowed (payload : list Z) (publisher_enqueued_ns : Z)
  | DeliveredType (topic_key : Z) (payload : list Z).

Record Subscribers := mkSubs {
  subscribers : gmap SubscriberKey (list Z);
  borrowed_subscribers : gmap SubscriberKey (list Z);
  hot_borrowed_subscriber : option (SubscriberKey * Z);
  type_subscribers : gmap Z (list Z);
  workers : gmap Z (list Delivered);
  next_sub_id : Z;
}.

Definition subs_new : Subscribers := mkSubs ∅ ∅ None ∅ ∅ 1.

Inductive SubscriptionKind :=
  | OwnedKind (topic_key type_hash : Z)
  | BorrowedKind (topic_key type_hash : Z)
  | TypeKind (type_hash : Z).

(** The new entry's id and its worker. *)
Definition spawn_subscriber_worker (s : Subscribers) : Subscribers * Z :=
  let id := next_sub_id s in
  (mkSubs (subscribers s) (borrowed_subscribers s) (hot_borrowed_subscriber s) (type_subscribers s)
     (<[id := []]> (workers s)) (wrapping_add u64_max id 1), id).

(** The last reference to a worker is dropped with its entry. *)
Definition drop_worker (id : Z) (s : Subscribers) : Subscribers :=
  mkSubs (subscribers s) (borrowed_subscribers s) (hot_borrowed_subscriber s) (type_subscribers s)
    (delete id (workers s)) (next_sub_id s).

Definition with_owned (m : gmap SubscriberKey (list Z)) (s : Subscribers) : Subscribers :=
  mkSubs m (borrowed_subscribers s) (hot_borrowed_subscriber s) (type_subscribers s) (workers s) (next_sub_id s).

Definition with_borrowed (m : gmap SubscriberKey (list Z)) (s : Subscribers) : Subscribers :=
  mkSubs (subscribers s) m (hot_borrowed_subscriber s) (type_subscribers s) (workers s) (next_sub_id s).

Definition with_type (m : gmap Z (list Z)) (s : Subscribers) : Subscribers :=
  mkSubs (subscribers s) (borrowed_subscribers s) (hot_borrowed_subscriber s) m (workers s) (next_sub_id s).

Definition refresh_hot_borrowed_subscriber (key : SubscriberKey) (entries : list Z) (s : Subscribers) : Subscribers :=
  mkSubs (subscribers s) (borrowed_subscribers s) (match entries with [e] => Some (key, e) | _ => None end)
    (type_subscribers s) (workers s) (next_sub_id s).

(** The parts of the [subscribe] functions under the writers' lock. *)
Definition add_owned_subscriber (key : SubscriberKey) (s : Subscribers) : Subscribers * Z :=
  let '(s, id) := spawn_subscriber_worker s in
  let topic_subs := default [] (subscribers s !! key) ++ [id] in
  (with_owned (<[key := topic_subs]> (subscribers s)) s, id).

Definition add_borrowed_subscriber (key : SubscriberKey) (s : Subscribers) : Subscribers * Z :=
  let '(s, id) := spawn_subscriber_worker s in
  let topic_subs := default [] (borrowed_subscribers s !! key) ++ [id] in
  let s := refresh_hot_borrowed_subscriber key topic_subs s in
  (with_borrowed (<[key := topic_subs]> (borrowed_subscribers s)) s, id).

Definition add_type_subscriber (type_hash : Z) (s : Subscribers) : Subscribers * Z :=
  let '(s, id) := spawn_subscriber_worker s in
  let subs := default [] (type_subscribers s !! type_hash) ++ [id] in
  (with_type (<[type_hash := subs]> (type_subscribers s)) s, id).

(** [iter().position(..)] and [remove(pos)]. *)
Definition take_out (id : Z) (entries : list Z) : option (list Z) :=
  '(pos, _) ← list_find (fun e => e = id) entries;
  Some (delete pos entries).

(** The map without the entry, and without the key when it was the last. *)
Definition put_back {K} `{Countable K} (key : K) (entries : list Z) (m : gmap K (list Z)) : gmap K (list Z) :=
  match entries with [] => delete key m | _ => <[key := entries]> m end.

Definition take_owned_subscriber (key : SubscriberKey) (id : Z) (s : Subscribers) : option Subscribers :=
  existing ← subscribers s !! key;
  topic_subs ← take_out id existing;
  Some (drop_worker id (with_owned (put_back key topic_subs (subscribers s)) s)).

Definition take_borrowed_subscriber (key : SubscriberKey) (id : Z) (s : Subscribers) : option Subscribers :=
  existing ← borrowed_subscribers s !! key;
  topic_subs ← take_out id existing;
  let s := refresh_hot_borrowed_subscriber key topic_subs s in
  Some (drop_worker id (with_borrowed (put_back key topic_subs (borrowed_subscribers s)) s)).

Definition remove_type_subscriber (type_hash id : Z) (s : Subscribers) : option Subscribers :=
  existing ← type_subscribers s !! type_hash;
  subs ← take_out id existing;
  Some (drop_worker id (with_type (put_back type_hash subs (type_subscribers s)) s)).

(** A worker takes the next message of its queue. *)
Definition worker_take (id : Z) (s : Subscribers) : option (Delivered * Subscribers) :=
  match workers s !! id with
  | Some (d :: q) =>
      Some (d, mkSubs (subscribers s) (borrowed_subscribers s) (hot_borrowed_subscriber s) (type_subscribers s)
                 (<[id := q]> (workers s)) (next_sub_id s))
  | _ => None
  end.

(** [try_send] of the worker's channel. *)
Definition enqueue (id : Z) (d : Delivered) (s : Subscribers) : Subscribers * bool :=
  match workers s !! id with
  | Some q =>
      if len q <? SUBSCRIBER_QUEUE_CAPACITY then
        (mkSubs (subscribers s) (borrowed_subscribers s) (hot_borrowed_subscriber s) (type_subscribers s)
           (<[id := q ++ [d]]> (workers s)) (next_sub_id s), true)
      else (s, false)
  | None => (s, false)
  end.

(** ** Local delivery: what was delivered and what was dropped. *)
Fixpoint enqueue_each (d : Delivered) (ids : list Z) (acc : Subscribers * Z * Z) : Subscribers * Z * Z :=
  match ids with
  | [] => acc
  | id :: ids =>
      let '(s, delivered, dropped) := acc in
      let '(s, ok) := enqueue id d s in
      enqueue_each d ids
        (if (ok : bool) then (s, saturating_add u32_max delivered 1, dropped) else (s, delivered, dropped + 1))
  end.

Definition callbacks {K} `{Countable K} (k : K) (m : gmap K (list Z)) : list Z := default [] (m !! k).

Definition deliver_local (topic_key type_hash : Z) (payload : list Z) (s : Subscribers) : Subscribers * Z * Z :=
  let acc := enqueue_each (DeliveredBorrowed payload 0) (callbacks (topic_key, type_hash) (borrowed_subscribers s)) (s, 0, 0) in
  let acc := enqueue_each (DeliveredOwned payload) (callbacks (topic_key, type_hash) (subscribers acc.1.1)) acc in
  enqueue_each (DeliveredType topic_key payload) (callbacks type_hash (type_subscribers acc.1.1)) acc.

Definition deliver_local_borrowed (topic_key type_hash : Z) (payload : list Z) (ns : Z) (s : Subscribers) :
    Subscribers * Z * Z :=
  let slow :=
    let acc := enqueue_each (DeliveredBorrowed payload ns) (callbacks (topic_key, type_hash) (borrowed_subscribers s)) (s, 0, 0) in
    let acc := enqueue_each (DeliveredOwned payload) (callbacks (topic_key, type_hash) (subscribers acc.1.1)) acc in
    enqueue_each (DeliveredType topic_key payload) (callbacks type_hash (type_subscribers acc.1.1)) acc in
  match hot_borrowed_subscriber s with
  | Some (key, entry) =>
      if bool_decide (key = (topic_key, type_hash)) then
        match callbacks (topic_key, type_hash) (subscribers s), callbacks type_hash (type_subscribers s) with
        | [], [] =>
            let '(s, ok) := enqueue entry (DeliveredBorrowed payload ns) s in
            if (ok : bool) then (s, 1, 0) else (s, 0, 1)
        | _, _ => slow
        end
      else slow
  | None => slow
  end.

(** ** Interest of this node *)
Record InterestState := mkInterest {
  local_counts : gmap Z Z;
  generations : gmap Z Z;
  dispatch_in_flight : gset Z;
}.

Definition interest_new : InterestState := mkInterest ∅ ∅ ∅.

Definition count_of (st : InterestState) (topic : Z) : Z := default 0 (local_counts st !! topic).
Definition generation_of (st : InterestState) (topic : Z) : Z := default 0 (generations st !! topic).

(** The new state and whether a dispatch loop is to be started. *)
Definition note_interest (topic : Z) (present : bool) (st : InterestState) : InterestState * bool :=
  let prev := count_of st topic in
  let next := if present then saturating_add usize_max prev 1 else saturating_sub prev 1 in
  let counts := if next =? 0 then delete topic (local_counts st) else <[topic := next]> (local_counts st) in
  let is_transition := (present && (prev =? 0)) || (negb present && (prev =? 1)) in
  let gens := if is_transition then <[topic := saturating_add u64_max (generation_of st topic) 1]> (generations st)
              else generations st in
  if is_transition && bool_decide (topic ∉ dispatch_in_flight st)
  then (mkInterest counts gens ({[topic]} ∪ dispatch_in_flight st), true)
  else (mkInterest counts gens (dispatch_in_flight st), false).

(** The two critical sections of [drive_interest_dispatch]: what it reads before
    the registry call, and whether it is done after it. *)
Definition dispatch_read (topic : Z) (st : InterestState) : bool * Z := (0 <? count_of st topic, generation_of st topic).

Definition dispatch_finish (topic : Z) (want_present : bool) (generation : Z) (st : InterestState) : InterestState * bool :=
  if generation_of st topic =? generation then
    (mkInterest (local_counts st) (if want_present then generations st else delete topic (generations st))
       (dispatch_in_flight st ∖ {[topic]}), true)
  else (st, false).

(** ** Connections

    A connection is known by the peer it leads to and an id of its own; what it
    answers at the time of a call is the [World]: which connection the pool has
    for a peer, whether it is closed, the largest message its writer takes (none
    without a writer), and what its write queue says. *)
Record Conn := mkConn { conn_peer : PeerId; conn_id : Z }.

Record World := {
  lookup_connected_peer : PeerId -> option Conn;
  has_connection_by_peer_id : PeerId -> bool;
  is_closed : Conn -> bool;
  max_message_size : Conn -> option Z;
  enqueue_write : Conn -> Result unit;
  buffer_available : Z -> bool;
}.

(** [try_send_pubsub_payload_pooled]: the bytes handed to the write queue. *)
Definition try_pubsub_frame_pooled (w : World) (conn : Conn) (frame : list Z) (payload_len : Z) : Result (list Z) :=
  match max_message_size w conn with
  | None => header ← try_write_pubsub_frame_prefix payload_len; Err (Network OtherKind)
  | Some max =>
      reject_oversize_for_inline_send PUBSUB_HEADER_LEN payload_len max;;
      header ← try_write_pubsub_frame_prefix payload_len;
      enqueue_write w conn;;
      Ok (header ++ frame)
  end.

(** ** Counters *)
Inductive IngressCounter :=
  | accepted | delivered_local | forwarded_frames | duplicate_drops | ttl_drops | reflection_drops
  | route_miss_drops | decode_drops | queue_full_drops | subscriber_queue_drops.

#[global] Instance IngressCounter_eq_dec : EqDecision IngressCounter.
Proof. solve_decision. Defined.

Inductive PublishCounter :=
  | local_delivered | remote_attempted | remote_enqueued | remote_full | remote_route_miss | remote_transport_errors.

#[global] Instance PublishCounter_eq_dec : EqDecision PublishCounter.
Proof. solve_decision. Defined.

Abbreviation PublishStats := (PublishCounter -> Z).

Definition stats_new : PublishStats := fun _ => 0.
Definition count_stat (c : PublishCounter) (stats : PublishStats) : PublishStats :=
  fun c' => if decide (c' = c) then saturating_add u32_max (stats c') 1 else stats c'.

(** ** The cache of messages seen

    [lru::LruCache]: [get] makes a present key the most recent, [put] of a new
    key adds it and evicts the least recent beyond the capacity. *)
Abbreviation SeenMessageKey := (list Z * Z)%type.

Class LruCache := {
  Lru : Type;
  lru_new : Z -> Lru;
  lru_get : SeenMessageKey -> Lru -> bool * Lru;
  lru_put : SeenMessageKey -> Lru -> Lru;
}.

Class LruLaws `{LruCache} := {
  lru_cap : Lru -> Z;
  lru_keys : Lru -> list SeenMessageKey;
  lru_new_keys cap : lru_keys (lru_new cap) = [];
  lru_new_cap cap : lru_cap (lru_new cap) = cap;
  lru_get_found k c : (lru_get k c).1 = bool_decide (k ∈ lru_keys c);
  lru_get_keys k c : lru_keys (lru_get k c).2
    = if decide (k ∈ lru_keys c) then k :: filter (fun k' => k' <> k) (lru_keys c) else lru_keys c;
  lru_get_cap k c : lru_cap (lru_get k c).2 = lru_cap c;
  lru_put_keys k c : k ∉ lru_keys c -> lru_keys (lru_put k c) = take (Z.to_nat (lru_cap c)) (k :: lru_keys c);
  lru_put_cap k c : lru_cap (lru_put k c) = lru_cap c;
}.

Abbreviation RouteGroups := (gmap PeerId (list PeerId)).
Abbreviation RouteProvider := (Z -> list PeerId -> RouteGroups).

Record HotRouteEntry := mkHot { hot_next_hop : PeerId; hot_destinations : list PeerId; hot_conn : Conn }.

Section Engine.
Context `{LruCache}.

Definition accept_seen_bytes (origin : list Z) (id : Z) (seen : Lru) : Lru * bool :=
  let '(found, seen) := lru_get (origin, id) seen in
  if found then (seen, false) else (lru_put (origin, id) seen, true).

(** ** The engine *)
Record PubSub := mkPubSub {
  subs : Subscribers;
  interest : InterestState;
  dispatches : list Z; (** topics whose dispatch loop was started *)
  route_groups : gmap Z RouteGroups;
  hot_route_groups : option (Z * list HotRouteEntry);
  conns : gmap PeerId Conn;
  seen_messages : Lru;
  counters : IngressCounter -> Z;
  msg_id_epoch : Z;
  next_msg_id : Z;
  route_provider : option RouteProvider;
  route_provider_revision : Z;
  last_revisions : Z * Z * Z; (** of the actors, the connections and the provider *)
  outbox : list (Conn * list Z); (** what the connections' write queues took *)
}.

Definition new_msg_id_epoch (entropy : Z) : Z := Z.max entropy 1.

Definition pubsub_new (entropy : Z) : PubSub :=
  mkPubSub subs_new interest_new [] ∅ None ∅ (lru_new SEEN_MESSAGE_CAPACITY) (fun _ => 0) (new_msg_id_epoch entropy) 1
    None 0 (u64_max, u64_max, u64_max) [].

Definition set_subs x e := mkPubSub x (interest e) (dispatches e) (route_groups e) (hot_route_groups e) (conns e)
  (seen_messages e) (counters e) (msg_id_epoch e) (next_msg_id e) (route_provider e) (route_provider_revision e)
  (last_revisions e) (outbox e).
Definition set_interest x d e := mkPubSub (subs e) x d (route_groups e) (hot_route_groups e) (conns e)
  (seen_messages e) (counters e) (msg_id_epoch e) (next_msg_id e) (route_provider e) (route_provider_revision e)
  (last_revisions e) (outbox e).
Definition set_routes g h c r e := mkPubSub (subs e) (interest e) (dispatches e) g h c
  (seen_messages e) (counters e) (msg_id_epoch e) (next_msg_id e) (route_provider e) (route_provider_revision e)
  r (outbox e).
Definition set_conns c e := mkPubSub (subs e) (interest e) (dispatches e) (route_groups e) (hot_route_groups e) c
  (seen_messages e) (counters e) (msg_id_epoch e) (next_msg_id e) (route_provider e) (route_provider_revision e)
  (last_revisions e) (outbox e).
Definition set_seen x e := mkPubSub (subs e) (interest e) (dispatches e) (route_groups e) (hot_route_groups e) (conns e)
  x (counters e) (msg_id_epoch e) (next_msg_id e) (route_provider e) (route_provider_revision e)
  (last_revisions e) (outbox e).
Definition set_next_msg_id x e := mkPubSub (subs e) (interest e) (dispatches e) (route_groups e) (hot_route_groups e) (conns e)
  (seen_messages e) (counters e) (msg_id_epoch e) x (route_provider e) (route_provider_revision e)
  (last_revisions e) (outbox e).
Definition set_outbox x e := mkPubSub (subs e) (interest e) (dispatches e) (route_groups e) (hot_route_groups e) (conns e)
  (seen_messages e) (counters e) (msg_id_epoch e) (next_msg_id e) (route_provider e) (route_provider_revision e)
  (last_revisions e) x.

(** [fetch_add] of a counter. *)
Definition bump (c : IngressCounter) (n : Z) (e : PubSub) : PubSub :=
  mkPubSub (subs e) (interest e) (dispatches e) (route_groups e) (hot_route_groups e) (conns e) (seen_messages e)
    (fun c' => if decide (c' = c) then wrapping_add u64_max (counters e c') n else counters e c')
    (msg_id_epoch e) (next_msg_id e) (route_provider e) (route_provider_revision e) (last_revisions e) (outbox e).

Definition set_route_provider (provider : RouteProvider) (e : PubSub) : PubSub :=
  mkPubSub (subs e) (interest e) (dispatches e) (route_groups e) (hot_route_groups e) (conns e) (seen_messages e)
    (counters e) (msg_id_epoch e) (next_msg_id e) (Some provider) (wrapping_add u64_max (route_provider_revision e) 1)
    (last_revisions e) (outbox e).

Definition take_msg_id (e : PubSub) : PubSub * Z :=
  (set_next_msg_id (wrapping_add u64_max (next_msg_id e) 1) e, Z.lor (Z.shiftl (msg_id_epoch e) 64) (next_msg_id e)).

(** ** Subscribing *)
Record PubSubSubscription := mkSubscription { kind : SubscriptionKind; sub_id : Z; released : bool }.

Definition note (topic : Z) (present : bool) (e : PubSub) : PubSub :=
  let '(st, spawn) := note_interest topic present (interest e) in
  set_interest st (if spawn then topic :: dispatches e else dispatches e) e.

Definition subscribe_bytes (topic ty : Z) (e : PubSub) : PubSub * PubSubSubscription :=
  let '(s, id) := add_owned_subscriber (topic, ty) (subs e) in
  (note topic true (set_subs s e), mkSubscription (OwnedKind topic ty) id false).

(** [subscribe_borrowed_bytes], with and without metadata. *)
Definition subscribe_borrowed_bytes (topic ty : Z) (e : PubSub) : PubSub * PubSubSubscription :=
  let '(s, id) := add_borrowed_subscriber (topic, ty) (subs e) in
  (note topic true (set_subs s e), mkSubscription (BorrowedKind topic ty) id false).

Definition subscribe_type_bytes (ty : Z) (e : PubSub) : PubSub * PubSubSubscription :=
  let '(s, id) := add_type_subscriber ty (subs e) in
  (set_subs s e, mkSubscription (TypeKind ty) id false).

Definition remove_owned_subscriber (topic ty id : Z) (e : PubSub) : PubSub * bool :=
  match take_owned_subscriber (topic, ty) id (subs e) with
  | Some s => (note topic false (set_subs s e), true)
  | None => (e, false)
  end.

Definition remove_borrowed_subscriber (topic ty id : Z) (e : PubSub) : PubSub * bool :=
  match take_borrowed_subscriber (topic, ty) id (subs e) with
  | Some s => (note topic false (set_subs s e), true)
  | None => (e, false)
  end.

Definition remove_subscription (k : SubscriptionKind) (id : Z) (e : PubSub) : PubSub * bool :=
  match k with
  | OwnedKind topic ty => remove_owned_subscriber topic ty id e
  | BorrowedKind topic ty => remove_borrowed_subscriber topic ty id e
  | TypeKind ty =>
      match remove_type_subscriber ty id (subs e) with
      | Some s => (set_subs s e, true)
      | None => (e, false)
      end
  end.

Definition release (sub : PubSubSubscription) (e : PubSub) : PubSub * PubSubSubscription * bool :=
  if released sub then (e, sub, false)
  else
    let '(e, removed) := remove_subscription (kind sub) (sub_id sub) e in
    (e, mkSubscription (kind sub) (sub_id sub) true, removed).

(** An explicit release, and then the handle is dropped. *)
Definition unsubscribe (sub : PubSubSubscription) (e : PubSub) : PubSub * bool :=
  let '(e, sub, removed) := release sub e in
  ((release sub e).1.1, removed).

(** ** Sending *)
Section Node.
Context (valid_key : list Z -> bool) (local_peer_id : PeerId).

Definition direct_groups (peers : list PeerId) : RouteGroups := foldl (fun m p => <[p := [p]]> m) ∅ peers.

Definition group_destinations (e : PubSub) (topic : Z) (peers : list PeerId) : RouteGroups :=
  match route_provider e with Some provider => provider topic peers | None => direct_groups peers end.

Definition usable (w : World) (o : option Conn) : option Conn :=
  match o with Some conn => if is_closed w conn then None else Some conn | None => None end.

Definition lookup_next_hop_conn (w : World) (next_hop : PeerId) (e : PubSub) : PubSub * Result Conn :=
  match usable w (conns e !! next_hop) with
  | Some conn => (e, Ok conn)
  | None =>
      match usable w (lookup_connected_peer w next_hop) with
      | Some conn => (set_conns (<[next_hop := conn]> (conns e)) e, Ok conn)
      | None => (bump route_miss_drops 1 e, Err ActorNotFound)
      end
  end.

(** What a frame says besides its hops and destinations. *)
Record Message := mkMessage {
  m_topic : Z; m_type : Z; m_id : Z; m_origin : PeerId; m_mode : PubSubDeliveryMode; m_ns : Z; m_payload : list Z;
}.

Definition encode_fast_frame_pooled (w : World) (m : Message) (source : PeerId) (hops : Z) (destinations : list PeerId) :
    option (list Z * Z) :=
  let payload_len := fast_frame_len destinations (m_payload m) in
  if buffer_available w payload_len then
    Some (write_fast_frame [] (m_topic m) (m_type m) (m_id m) (m_origin m) source hops (m_mode m) (m_ns m) destinations
            (m_payload m), payload_len)
  else None.

(** ** Publishing *)
Record PubSubDeliveryPolicy := mkPolicy { hops_limit : Z; policy_mode : PubSubDeliveryMode }.

Inductive PubSubScope :=
  | LocalOnly | AutoExternal | SelectedPeers (peers : list PeerId) | ClusterWide.

Definition validate_delivery_mode (m : PubSubDeliveryMode) : Result unit :=
  match m with AtLeastOnceHopAck => Err InvalidConfig | AtMostOnce => Ok tt end.

Definition publish_frame_to_conn (w : World) (m : Message) (hops : Z) (conn : Conn) (destinations : list PeerId)
    (acc : PubSub * PublishStats) : PubSub * PublishStats :=
  let '(e, stats) := acc in
  let stats := count_stat remote_attempted stats in
  match encode_fast_frame_pooled w m local_peer_id hops destinations with
  | None => (bump queue_full_drops 1 e, count_stat remote_full stats)
  | Some (frame, payload_len) =>
      match try_pubsub_frame_pooled w conn frame payload_len with
      | Ok bytes => (set_outbox (outbox e ++ [(conn, bytes)]) e, count_stat remote_enqueued stats)
      | Err WriteQueueFull => (bump queue_full_drops 1 e, count_stat remote_full stats)
      | _ => (e, count_stat remote_transport_errors stats)
      end
  end.

Definition publish_frame_to_next_hop (w : World) (m : Message) (hops : Z) (acc : PubSub * PublishStats)
    (group : PeerId * list PeerId) : PubSub * PublishStats :=
  let '(e, stats) := acc in
  match lookup_next_hop_conn w group.1 e with
  | (e, Ok conn) => publish_frame_to_conn w m hops conn group.2 (e, stats)
  | (e, _) => (e, count_stat remote_transport_errors stats)
  end.

Definition publish_remote_bytes_inner_with_metadata (w : World) (topic ty : Z) (payload : list Z) (scope : PubSubScope)
    (policy : PubSubDeliveryPolicy) (ns : Z) (e : PubSub) (stats : PublishStats) : PubSub * Result PublishStats :=
  match validate_delivery_mode (policy_mode policy) with
  | Err err => (e, Err err)
  | Panic => (e, Panic)
  | Ok _ =>
      if match scope with LocalOnly => true | _ => false end || (hops_limit policy =? 0) then (e, Ok stats)
      else
        let '(e, id) := take_msg_id e in
        let m := mkMessage topic ty id local_peer_id (policy_mode policy) ns payload in
        match scope with
        | LocalOnly => (e, Ok stats)
        | AutoExternal | ClusterWide =>
            let over_groups :=
              match route_groups e !! topic with
              | None => (e, Ok (count_stat remote_route_miss stats))
              | Some groups =>
                  let '(e, stats) :=
                    foldl (publish_frame_to_next_hop w m (hops_limit policy)) (e, stats) (map_to_list groups) in
                  (e, Ok stats)
              end in
            match hot_route_groups e with
            | Some (hot_topic, entries) =>
                if hot_topic =? topic then
                  let '(e, stats) :=
                    foldl (fun acc entry =>
                             publish_frame_to_conn w m (hops_limit policy) (hot_conn entry) (hot_destinations entry) acc)
                      (e, stats) entries in
                  (e, Ok stats)
                else over_groups
            | None => over_groups
            end
        | SelectedPeers peers =>
            let groups :=
              match route_provider e with
              | Some provider => provider topic peers
              | None => direct_groups (filter (fun p => p <> local_peer_id) peers)
              end in
            let '(e, stats) :=
              foldl (publish_frame_to_next_hop w m (hops_limit policy)) (e, stats) (map_to_list groups) in
            (e, Ok stats)
        end
  end.

Definition publish_bytes (w : World) (topic ty : Z) (payload : list Z) (scope : PubSubScope)
    (policy : PubSubDeliveryPolicy) (e : PubSub) : PubSub * Result PublishStats :=
  match validate_delivery_mode (policy_mode policy) with
  | Err err => (e, Err err)
  | Panic => (e, Panic)
  | Ok _ =>
      let '(s, delivered, dropped) := deliver_local topic ty payload (subs e) in
      let e := bump subscriber_queue_drops dropped (set_subs s e) in
      let stats := fun c => if decide (c = local_delivered) then delivered else 0 in
      publish_remote_bytes_inner_with_metadata w topic ty payload scope policy 0 e stats
  end.

(** [publish_remote_bytes], with and without metadata. *)
Definition publish_remote_bytes_with_metadata (w : World) (topic ty : Z) (payload : list Z) (scope : PubSubScope)
    (policy : PubSubDeliveryPolicy) (ns : Z) (e : PubSub) : PubSub * Result PublishStats :=
  publish_remote_bytes_inner_with_metadata w topic ty payload scope policy ns e stats_new.

(** ** An incoming frame *)
Definition forward_to (w : World) (m : Message) (hops : Z) (e : PubSub) (group : PeerId * list PeerId) : PubSub :=
  match encode_fast_frame_pooled w m local_peer_id hops group.2 with
  | None => bump queue_full_drops 1 e
  | Some (frame, payload_len) =>
      match lookup_next_hop_conn w group.1 e with
      | (e, Ok conn) =>
          match try_pubsub_frame_pooled w conn frame payload_len with
          | Ok bytes => bump forwarded_frames 1 (set_outbox (outbox e ++ [(conn, bytes)]) e)
          | Err WriteQueueFull => bump queue_full_drops 1 e
          | _ => e
          end
      | (e, _) => e
      end
  end.

(** The loop over the destinations: is this node one, is another? *)
Definition scan_destinations (v : FastFrameView) : option (bool * bool) :=
  foldr (fun i acc =>
           match destination_peer_bytes_at v i, acc with
           | Some peer, Some (here, elsewhere) =>
               if bool_decide (peer = peer_bytes local_peer_id) then Some (true, elsewhere) else Some (here, true)
           | _, _ => None
           end) (Some (false, false)) (destination_indices v).

Definition forward (w : World) (v : FastFrameView) (e : PubSub) : PubSub * Result unit :=
  match peer_from_bytes valid_key (origin_peer_id v) with
  | None => (bump decode_drops 1 e, Err InvalidKeyPair)
  | Some origin =>
      let remaining := filter (fun p => peer_bytes p <> peer_bytes local_peer_id) (destination_peer_iter valid_key v) in
      let m := mkMessage (topic_key v) (type_hash v) (msg_id v) origin (mode v) (publisher_enqueued_ns v) (payload v) in
      let grouped := group_destinations e (topic_key v) remaining in
      (foldl (forward_to w m (saturating_sub (hops_remaining v) 1)) e (map_to_list grouped), Ok tt)
  end.

Definition handle_fast_pubsub_frame (w : World) (source : PeerId) (frame : list Z) (e : PubSub) : PubSub * Result unit :=
  match parse_fast_frame frame with
  | None => (bump decode_drops 1 e, Err InvalidConfig)
  | Some v =>
      if hops_remaining v =? 0 then (bump ttl_drops 1 e, Ok tt)
      else if negb (bool_decide (source_peer_id v = peer_bytes source)) then (bump reflection_drops 1 e, Ok tt)
      else if bool_decide (origin_peer_id v = peer_bytes local_peer_id)
              || bool_decide (source_peer_id v = peer_bytes local_peer_id) then (bump reflection_drops 1 e, Ok tt)
      else
        let '(seen, fresh) := accept_seen_bytes (origin_peer_id v) (msg_id v) (seen_messages e) in
        let e := set_seen seen e in
        if negb fresh then (bump duplicate_drops 1 e, Ok tt)
        else
          let e := bump accepted 1 e in
          match scan_destinations v with
          | None => (bump decode_drops 1 e, Ok tt)
          | Some (should_deliver_local, has_remaining) =>
              let e :=
                if (should_deliver_local : bool) then
                  let '(s, delivered, dropped) :=
                    deliver_local_borrowed (topic_key v) (type_hash v) (payload v) (publisher_enqueued_ns v) (subs e) in
                  bump delivered_local delivered (bump subscriber_queue_drops dropped (set_subs s e))
                else e in
              if (hops_remaining v <=? 1) || negb has_remaining then (e, Ok tt) else forward w v e
          end
  end.

Definition handle_pubsub_frame (w : World) (source : PeerId) (bytes : list Z) (e : PubSub) : PubSub * Result unit :=
  if bool_decide (take 4 bytes = FAST_FRAME_MAGIC) then handle_fast_pubsub_frame w source bytes e
  else (bump decode_drops 1 e, Ok tt).
End Node.
End Engine.
