(* ===== verification/PubSubLocal.v ===== *)
(** * Local delivery of pubsub messages

    Every subscriber of a message gets it once if its queue has room, nobody
    else gets it, and the counts say so, whichever way the engine takes: the one
    hot subscriber it caches or the walk over all of them. *)

From S2P Require Import Prelude Types PubSubFrame PubSub.

(** ** What the subscribers are *)
#[global] Instance SubscriptionKind_eq_dec : EqDecision SubscriptionKind.
Proof. solve_decision. Defined.

Definition entries (s : Subscribers) (k : SubscriptionKind) : list Z :=
  match k with
  | OwnedKind t y => callbacks (t, y) (subscribers s)
  | BorrowedKind t y => callbacks (t, y) (borrowed_subscribers s)
  | TypeKind y => callbacks y (type_subscribers s)
  end.

Definition hot_ok (s : Subscribers) : Prop :=
  forall t y e, hot_borrowed_subscriber s = Some ((t, y), e) -> entries s (BorrowedKind t y) = [e].

Record subs_ok (s : Subscribers) : Prop := {
  so_hot : hot_ok s;
  so_nodup k : NoDup (entries s k);
  so_unique id k k' : id ∈ entries s k -> id ∈ entries s k' -> k = k';
  so_workers id : is_Some (workers s !! id) <-> exists k, id ∈ entries s k;
  so_fresh id k : id ∈ entries s k -> 0 < id < next_sub_id s;
  so_next : 0 < next_sub_id s;
  so_queues id q : workers s !! id = Some q -> len q <= SUBSCRIBER_QUEUE_CAPACITY;
}.

Lemma subs_new_ok : subs_ok subs_new.
Proof.
  split; try done.
  - intros [] ; cbn; unfold callbacks; rewrite lookup_empty; constructor.
  - intros id [] k'; cbn; unfold callbacks; rewrite lookup_empty; intros H%elem_of_nil; done.
  - intros id. cbn. rewrite lookup_empty. split; [intros [? [=]]|]. intros [[] Hk]; cbn in Hk; unfold callbacks in Hk;
      rewrite lookup_empty in Hk; by apply elem_of_nil in Hk.
  - intros id []; cbn; unfold callbacks; rewrite lookup_empty; intros H%elem_of_nil; done.
Qed.

Lemma callbacks_insert {K} `{Countable K} (k k' : K) l m :
  callbacks k' (<[k := l]> m) = if decide (k = k') then l else callbacks k' m.
Proof. unfold callbacks. rewrite lookup_insert. by case_decide. Qed.

Lemma callbacks_put_back {K} `{Countable K} (k k' : K) l m :
  callbacks k' (put_back k l m) = if decide (k = k') then l else callbacks k' m.
Proof. unfold put_back. destruct l; [|apply callbacks_insert]. unfold callbacks. rewrite lookup_delete. by case_decide. Qed.

(** ** Adding and removing an entry *)
Lemma add_ok s s' kd : subs_ok s -> next_sub_id s < u64_max -> hot_ok s' ->
  (forall k, entries s' k = if decide (k = kd) then entries s k ++ [next_sub_id s] else entries s k) ->
  workers s' = <[next_sub_id s := []]> (workers s) -> next_sub_id s' = wrapping_add u64_max (next_sub_id s) 1 ->
  subs_ok s'.
Proof.
  intros [Hh Hn Hu Hw Hf Hx Hq] Hmax Hhot He Ew En. set (id := next_sub_id s) in *.
  assert (next_sub_id s' = id + 1) as Eid by (rewrite En; unfold wrapping_add; rewrite Z.mod_small; lia).
  assert (forall i k, i ∈ entries s' k <-> i ∈ entries s k \/ (i = id /\ k = kd)) as Hin.
  { intros i k. rewrite He. case_decide; [rewrite elem_of_app, list_elem_of_singleton|]; intuition congruence. }
  assert (forall k, id ∉ entries s k) as Hfresh by (intros k Hk; apply Hf in Hk; lia).
  split; [done| | | | | |].
  - intros k. rewrite He. case_decide; [|done]. apply list.NoDup_app. split_and!; [done| |apply NoDup_singleton].
    intros x Hi ->%list_elem_of_singleton. by eapply Hfresh.
  - intros i k k' [H1|[-> ->]]%Hin [H2|[E ->]]%Hin; eauto; try subst; by eapply Hfresh in H1 || by eapply Hfresh in H2.
  - intros i. rewrite Ew, lookup_insert. case_decide as E.
    + subst i. split; [intros _; exists kd; apply Hin; auto|eauto].
    + rewrite Hw. split; intros [k Hk]; exists k; [apply Hin; auto|]. apply Hin in Hk as [?|[? _]]; congruence.
  - intros i k [Hi|[-> _]]%Hin; [apply Hf in Hi|]; lia.
  - lia.
  - intros i q. rewrite Ew, lookup_insert. case_decide; [intros [= <-]; done|apply Hq].
Qed.

Lemma take_out_spec id l l' : take_out id l = Some l' -> NoDup l ->
  id ∈ l /\ NoDup l' /\ forall x, x ∈ l' <-> x ∈ l /\ x <> id.
Proof.
  unfold take_out. destruct (list_find _ l) as [[pos x]|] eqn:E; [|done]. intros [= <-] Hn.
  apply list_find_Some in E as (Hp & -> & _). pose proof (delete_Permutation _ _ _ Hp) as Hperm.
  pose proof Hn as Hn'. rewrite Hperm in Hn'. apply list.NoDup_cons in Hn' as [Hni Hnd].
  split_and!; [by eapply list_elem_of_lookup_2|done|]. intros y.
  assert (y ∈ l <-> y ∈ id :: delete pos l) as -> by (by rewrite <- Hperm). rewrite elem_of_cons.
  split; [intros Hy; split; [auto|congruence]|intros [[->|?] ?]; done].
Qed.

Lemma take_ok s s' kd id l : subs_ok s -> hot_ok s' -> take_out id (entries s kd) = Some l ->
  (forall k, entries s' k = if decide (k = kd) then l else entries s k) ->
  workers s' = delete id (workers s) -> next_sub_id s' = next_sub_id s -> subs_ok s'.
Proof.
  intros [Hh Hn Hu Hw Hf Hx Hq] Hhot Ht He Ew En. destruct (take_out_spec _ _ _ Ht (Hn kd)) as (Hid & Hnd & Hl).
  assert (forall i k, i ∈ entries s' k <-> i ∈ entries s k /\ i <> id) as Hin.
  { intros i k. rewrite He. case_decide as E; [subst; apply Hl|]. split; [intros Hi; split; [done|]|tauto].
    intros ->. by rewrite (Hu _ _ _ Hi Hid) in E. }
  split; [done| | | | | |].
  - intros k. rewrite He. by case_decide.
  - intros i k k' [H1 _]%Hin [H2 _]%Hin. eauto.
  - intros i. rewrite Ew, lookup_delete. case_decide as E.
    + subst i. split; [intros [? [=]]|]. intros [k [_ ?]%Hin]. done.
    + rewrite Hw. split; intros [k Hk]; exists k; [apply Hin; split; [done|congruence]|]. by apply Hin in Hk as [? _].
  - intros i k [Hi _]%Hin. rewrite En. by eapply Hf.
  - lia.
  - intros i q. rewrite Ew. intros [_ Hi]%lookup_delete_Some. by eapply Hq.
Qed.

(** The operations are additions and removals. *)
Lemma add_owned_ok t y s : subs_ok s -> next_sub_id s < u64_max -> subs_ok (add_owned_subscriber (t, y) s).1.
Proof.
  intros Hs Hm. eapply (add_ok s _ (OwnedKind t y)); try done.
  - intros t' y' e. apply Hs.
  - intros []; cbn; rewrite ?callbacks_insert; repeat case_decide; simplify_eq; done.
Qed.

Lemma add_type_ok y s : subs_ok s -> next_sub_id s < u64_max -> subs_ok (add_type_subscriber y s).1.
Proof.
  intros Hs Hm. eapply (add_ok s _ (TypeKind y)); try done.
  - intros t' y' e. apply Hs.
  - intros []; cbn; rewrite ?callbacks_insert; repeat case_decide; simplify_eq; done.
Qed.

Lemma hot_refresh key l s : hot_ok (with_borrowed (put_back key l (borrowed_subscribers s)) (refresh_hot_borrowed_subscriber key l s)).
Proof.
  intros t y e. cbn. rewrite callbacks_put_back. destruct l as [|e' [|]]; try done. intros [= -> ->]. by case_decide.
Qed.

Lemma add_borrowed_ok t y s : subs_ok s -> next_sub_id s < u64_max -> subs_ok (add_borrowed_subscriber (t, y) s).1.
Proof.
  intros Hs Hm. eapply (add_ok s _ (BorrowedKind t y)); try done.
  - intros t' y' e. cbn. rewrite callbacks_insert. destruct (default [] _ ++ _) as [|e' [|]] eqn:E; try done.
    intros [= <- <- <-]. case_decide; done.
  - intros []; cbn; rewrite ?callbacks_insert; repeat case_decide; simplify_eq; done.
Qed.

Lemma take_owned_ok t y id s s' : subs_ok s -> take_owned_subscriber (t, y) id s = Some s' -> subs_ok s'.
Proof.
  intros Hs. unfold take_owned_subscriber. destruct (subscribers s !! (t, y)) as [l|] eqn:El; [|done]. cbn.
  destruct (take_out id l) as [l'|] eqn:Et; [|done]. intros [= <-].
  eapply (take_ok s _ (OwnedKind t y) id l'); try done.
  - intros t' y' e. apply Hs.
  - cbn. unfold callbacks. by rewrite El.
  - intros []; cbn; rewrite ?callbacks_put_back; repeat case_decide; simplify_eq; done.
Qed.

Lemma take_type_ok y id s s' : subs_ok s -> remove_type_subscriber y id s = Some s' -> subs_ok s'.
Proof.
  intros Hs. unfold remove_type_subscriber. destruct (type_subscribers s !! y) as [l|] eqn:El; [|done]. cbn.
  destruct (take_out id l) as [l'|] eqn:Et; [|done]. intros [= <-].
  eapply (take_ok s _ (TypeKind y) id l'); try done.
  - intros t' y' e. apply Hs.
  - cbn. unfold callbacks. by rewrite El.
  - intros []; cbn; rewrite ?callbacks_put_back; repeat case_decide; simplify_eq; done.
Qed.

Lemma take_borrowed_ok t y id s s' : subs_ok s -> take_borrowed_subscriber (t, y) id s = Some s' -> subs_ok s'.
Proof.
  intros Hs. unfold take_borrowed_subscriber. destruct (borrowed_subscribers s !! (t, y)) as [l|] eqn:El; [|done]. cbn.
  destruct (take_out id l) as [l'|] eqn:Et; [|done]. intros [= <-].
  eapply (take_ok s _ (BorrowedKind t y) id l'); try done.
  - apply (hot_refresh (t, y) l' s).
  - cbn. unfold callbacks. by rewrite El.
  - intros []; cbn; rewrite ?callbacks_put_back; repeat case_decide; simplify_eq; done.
Qed.

(** ** Queues *)
Definition with_workers (f : gmap Z (list Delivered) -> gmap Z (list Delivered)) (s : Subscribers) : Subscribers :=
  mkSubs (subscribers s) (borrowed_subscribers s) (hot_borrowed_subscriber s) (type_subscribers s) (f (workers s)) (next_sub_id s).

(** What [try_send] does to a queue. *)
Definition offer (d : Delivered) (q : list Delivered) : list Delivered :=
  if len q <? SUBSCRIBER_QUEUE_CAPACITY then q ++ [d] else q.

Definition room (s : Subscribers) (id : Z) : bool :=
  match workers s !! id with Some q => len q <? SUBSCRIBER_QUEUE_CAPACITY | None => false end.

Lemma alter_as_insert {K A} `{Countable K} (f : A -> A) (m : gmap K A) i x : m !! i = Some x -> alter f i m = <[i := f x]> m.
Proof.
  intros E. apply map_eq. intros j. destruct (decide (i = j)) as [<-|].
  - by rewrite lookup_alter_eq, lookup_insert_eq, E.
  - by rewrite lookup_alter_ne, lookup_insert_ne.
Qed.

Lemma alter_absent {K A} `{Countable K} (f : A -> A) (m : gmap K A) i : m !! i = None -> alter f i m = m.
Proof.
  intros E. apply map_eq. intros j. destruct (decide (i = j)) as [<-|]; [by rewrite lookup_alter_eq, E|by rewrite lookup_alter_ne].
Qed.

Lemma enqueue_spec id d s : enqueue id d s = (with_workers (alter (offer d) id) s, room s id).
Proof.
  unfold enqueue, room, with_workers, offer. destruct (workers s !! id) as [q|] eqn:E.
  - rewrite (alter_as_insert _ _ _ _ E). destruct (len q <? _); [done|]. rewrite insert_id by done. by destruct s.
  - rewrite alter_absent by done. by destruct s.
Qed.

(** ** Delivering to a list of workers, each its own message *)
Fixpoint deliver_to (ts : list (Z * Delivered)) (acc : Subscribers * Z * Z) : Subscribers * Z * Z :=
  match ts with
  | [] => acc
  | (id, d) :: ts =>
      let '(s, delivered, dropped) := acc in
      let '(s, ok) := enqueue id d s in
      deliver_to ts (if (ok : bool) then (s, saturating_add u32_max delivered 1, dropped) else (s, delivered, dropped + 1))
  end.

Definition each (d : Delivered) (ids : list Z) : list (Z * Delivered) := map (fun id => (id, d)) ids.

Lemma enqueue_each_to d ids acc : enqueue_each d ids acc = deliver_to (each d ids) acc.
Proof. revert acc. induction ids as [|id ids IH]; intros [[s n] k]; cbn; [done|]. destruct (enqueue id d s). apply IH. Qed.

Lemma deliver_to_app ts ts' acc : deliver_to (ts ++ ts') acc = deliver_to ts' (deliver_to ts acc).
Proof.
  revert acc. induction ts as [|[id d] ts IH]; intros [[s n] k]; cbn; [done|]. destruct (enqueue id d s). apply IH.
Qed.

Definition offer_to (ts : list (Z * Delivered)) (w : gmap Z (list Delivered)) : gmap Z (list Delivered) :=
  foldl (fun w x => alter (offer x.2) x.1 w) w ts.

Lemma offer_to_lookup ts w id : NoDup ts.*1 ->
  offer_to ts w !! id = match list_find (fun x => x.1 = id) ts with
                        | Some (_, x) => offer x.2 <$> w !! id
                        | None => w !! id
                        end.
Proof.
  revert w. induction ts as [|[i d] ts IH]; intros w Hn; [done|]. cbn in Hn. apply list.NoDup_cons in Hn as [Hi Hn].
  unfold offer_to. cbn [foldl]. fold (offer_to ts (alter (offer (i, d).2) (i, d).1 w)). rewrite IH by done. cbn.
  case_decide as E; [subst i|].
  - assert (list_find (fun x : Z * Delivered => x.1 = id) ts = None) as ->.
    { apply list_find_None, list.Forall_forall. intros x Hx E. cbn in E. apply Hi. rewrite <- E. by apply list_elem_of_fmap_2. }
    cbn. by rewrite lookup_alter_eq.
  - destruct (list_find _ ts) as [[]|]; cbn; by rewrite lookup_alter_ne.
Qed.

(** How many of the targets have room. *)
Definition with_room (s : Subscribers) (ts : list (Z * Delivered)) : Z := len (filter (fun x => room s x.1 = true) ts).

Lemma room_after id d s i : i <> id -> room (with_workers (alter (offer d) id) s) i = room s i.
Proof. intros Hi. unfold room, with_workers. cbn. by rewrite lookup_alter_ne by congruence. Qed.

Lemma with_room_after id d s ts : id ∉ ts.*1 -> with_room (with_workers (alter (offer d) id) s) ts = with_room s ts.
Proof.
  intros Hi. unfold with_room. f_equal. induction ts as [|x ts IH]; [done|]. cbn in Hi.
  apply not_elem_of_cons in Hi as [Hx Hi]. rewrite !filter_cons, IH, room_after by (done || congruence). done.
Qed.

Lemma deliver_to_spec ts s n k : NoDup ts.*1 -> 0 <= n <= u32_max ->
  deliver_to ts (s, n, k)
  = (with_workers (offer_to ts) s, Z.min u32_max (n + with_room s ts), k + (len ts - with_room s ts)).
Proof.
  revert s n k. induction ts as [|[id d] ts IH]; intros s n k Hn Hb; cbn [deliver_to].
  { unfold with_room, with_workers, len. cbn. rewrite Z.min_r by lia. f_equal; [f_equal; [by destruct s|lia]|lia]. }
  cbn in Hn. apply list.NoDup_cons in Hn as [Hi Hn]. rewrite enqueue_spec.
  assert (with_room s ((id, d) :: ts) = (if room s id then 1 else 0) + with_room s ts) as Hc.
  { unfold with_room, len. rewrite filter_cons. cbn [fst]. destruct (room s id); case_decide; try done. cbn [length]. lia. }
  assert (len ((id, d) :: ts) = 1 + len ts) as Hl by (unfold len; cbn [length]; lia).
  assert (0 <= with_room s ts) by apply len_nonneg.
  destruct (room s id) eqn:Er; cbn beta iota; rewrite IH by (done || unfold saturating_add; lia);
    rewrite with_room_after by done; rewrite Hc, Hl; unfold saturating_add; f_equal; try lia; f_equal; try done; lia.
Qed.

(** ** The engine delivers to the subscribers of the message *)
Definition targets (t y : Z) (p : list Z) (ns : Z) (s : Subscribers) : list (Z * Delivered) :=
  each (DeliveredBorrowed p ns) (entries s (BorrowedKind t y)) ++ each (DeliveredOwned p) (entries s (OwnedKind t y))
  ++ each (DeliveredType t p) (entries s (TypeKind y)).

Lemma deliver_to_maps ts acc :
  subscribers (deliver_to ts acc).1.1 = subscribers acc.1.1
  /\ type_subscribers (deliver_to ts acc).1.1 = type_subscribers acc.1.1.
Proof.
  revert acc. induction ts as [|[id d] ts IH]; intros [[s n] k]; [done|]. cbn [deliver_to]. rewrite enqueue_spec.
  rewrite !(proj1 (IH _)), !(proj2 (IH _)). by destruct (room s id).
Qed.

Lemma deliver_local_to t y p s : deliver_local t y p s = deliver_to (targets t y p 0 s) (s, 0, 0).
Proof.
  unfold deliver_local, targets. cbv zeta. rewrite !enqueue_each_to, !deliver_to_app.
  by rewrite !(proj1 (deliver_to_maps _ _)), !(proj2 (deliver_to_maps _ _)).
Qed.

Lemma deliver_local_borrowed_to t y p ns s : hot_ok s ->
  deliver_local_borrowed t y p ns s = deliver_to (targets t y p ns s) (s, 0, 0).
Proof.
  intros Hh. unfold deliver_local_borrowed. cbv zeta.
  assert (forall acc, acc = enqueue_each (DeliveredBorrowed p ns) (callbacks (t, y) (borrowed_subscribers s)) (s, 0, 0) ->
    enqueue_each (DeliveredType t p) (callbacks y (type_subscribers (enqueue_each (DeliveredOwned p)
      (callbacks (t, y) (subscribers acc.1.1)) acc).1.1)) (enqueue_each (DeliveredOwned p) (callbacks (t, y) (subscribers acc.1.1)) acc)
    = deliver_to (targets t y p ns s) (s, 0, 0)) as Hslow.
  { intros acc ->. unfold targets. rewrite !enqueue_each_to, !deliver_to_app.
    by rewrite !(proj1 (deliver_to_maps _ _)), !(proj2 (deliver_to_maps _ _)). }
  destruct (hot_borrowed_subscriber s) as [[key e]|] eqn:Ehot; [|by apply Hslow].
  case_bool_decide; [subst key|by apply Hslow].
  destruct (callbacks (t, y) (subscribers s)) as [|] eqn:Eo; [|by apply Hslow].
  destruct (callbacks y (type_subscribers s)) as [|] eqn:Ey; [|by apply Hslow].
  unfold targets. rewrite (Hh t y e Ehot). cbn [entries]. rewrite Eo, Ey. cbn. destruct (enqueue e _ s) as [s' [|]]; done.
Qed.

Lemma targets_ids t y p ns s :
  (targets t y p ns s).*1 = entries s (BorrowedKind t y) ++ entries s (OwnedKind t y) ++ entries s (TypeKind y).
Proof.
  assert (forall d l, (each d l).*1 = l) as E by (intros d l; unfold each; induction l; cbn; congruence).
  unfold targets. by rewrite !fmap_app, !E.
Qed.

Lemma targets_nodup t y p ns s : subs_ok s -> NoDup (targets t y p ns s).*1.
Proof.
  intros Hs. rewrite targets_ids. apply list.NoDup_app; split_and!; [apply (so_nodup _ Hs)| |].
  - intros id H1 [H2|H2]%elem_of_app; by pose proof (so_unique _ Hs _ _ _ H1 H2).
  - apply list.NoDup_app; split_and!; try apply (so_nodup _ Hs). intros id H1 H2. by pose proof (so_unique _ Hs _ _ _ H1 H2).
Qed.

(** Offering keeps the subscribers in order. *)
Lemma offer_ok ts s : subs_ok s -> NoDup ts.*1 -> subs_ok (with_workers (offer_to ts) s).
Proof.
  intros [Hh Hn Hu Hw Hf Hx Hq] Hnd.
  assert (forall k, entries (with_workers (offer_to ts) s) k = entries s k) as He by (by intros []).
  split.
  - intros t y e. rewrite He. apply Hh.
  - intros k. rewrite He. apply Hn.
  - intros id k k'. rewrite !He. apply Hu.
  - intros id. setoid_rewrite He. rewrite <- Hw. cbn. rewrite offer_to_lookup by done.
    destruct (list_find _ ts) as [[]|]; [|done]. by rewrite fmap_is_Some.
  - intros id k. rewrite He. apply Hf.
  - done.
  - intros id q. cbn. rewrite offer_to_lookup by done. destruct (list_find _ ts) as [[i x]|]; [|apply Hq].
    intros (q' & Hq' & ->)%fmap_Some. apply Hq in Hq'. unfold offer. cmp_cases; [|done]. rewrite len_app. unfold len in *. cbn. lia.
Qed.

Lemma worker_take_ok id d s s' : subs_ok s -> worker_take id s = Some (d, s') -> subs_ok s'.
Proof.
  intros [Hh Hn Hu Hw Hf Hx Hq]. unfold worker_take. destruct (workers s !! id) as [[|d' q]|] eqn:E; try done. intros [= -> <-].
  split; try done.
  - intros i. cbn. rewrite lookup_insert. case_decide as Ei; [subst i|apply Hw].
    split; [intros _; apply Hw; eauto|eauto].
  - intros i q'. cbn. rewrite lookup_insert. case_decide; [|apply Hq]. intros [= <-]. apply Hq in E. unfold len in *. cbn in E. lia.
Qed.

(** ** Runs *)
Inductive subs_step : Subscribers -> Subscribers -> Prop :=
  | step_add_owned t y s : next_sub_id s < u64_max -> subs_step s (add_owned_subscriber (t, y) s).1
  | step_add_borrowed t y s : next_sub_id s < u64_max -> subs_step s (add_borrowed_subscriber (t, y) s).1
  | step_add_type y s : next_sub_id s < u64_max -> subs_step s (add_type_subscriber y s).1
  | step_take_owned t y id s s' : take_owned_subscriber (t, y) id s = Some s' -> subs_step s s'
  | step_take_borrowed t y id s s' : take_borrowed_subscriber (t, y) id s = Some s' -> subs_step s s'
  | step_take_type y id s s' : remove_type_subscriber y id s = Some s' -> subs_step s s'
  | step_worker id d s s' : worker_take id s = Some (d, s') -> subs_step s s'
  | step_publish t y p s : subs_step s (deliver_local t y p s).1.1
  | step_ingress t y p ns s : subs_step s (deliver_local_borrowed t y p ns s).1.1.

Lemma subs_step_ok s s' : subs_ok s -> subs_step s s' -> subs_ok s'.
Proof.
  intros Hs Hst. destruct Hst; eauto using add_owned_ok, add_borrowed_ok, add_type_ok, take_owned_ok, take_borrowed_ok, take_type_ok, worker_take_ok.
  - rewrite deliver_local_to, deliver_to_spec by (done || by apply targets_nodup). cbn. apply offer_ok; [done|by apply targets_nodup].
  - rewrite deliver_local_borrowed_to, deliver_to_spec by (done || apply Hs || by apply targets_nodup). cbn. apply offer_ok; [done|by apply targets_nodup].
Qed.

Lemma reachable_subs_ok s : star subs_step subs_new s -> subs_ok s.
Proof. intros Hr. refine (star_invariant _ _ subs_step_ok _ _ Hr subs_new_ok). Qed.

(** What the subscriber gets of the message. *)
Definition due (t y : Z) (p : list Z) (ns : Z) (s : Subscribers) (id : Z) : option Delivered :=
  if decide (id ∈ entries s (BorrowedKind t y)) then Some (DeliveredBorrowed p ns)
  else if decide (id ∈ entries s (OwnedKind t y)) then Some (DeliveredOwned p)
  else if decide (id ∈ entries s (TypeKind y)) then Some (DeliveredType t p)
  else None.

Lemma find_each d l id : list_find (fun x => x.1 = id) (each d l)
  = if decide (id ∈ l) then list_find (fun x => x.1 = id) (each d l) else None.
Proof.
  case_decide as E; [done|]. apply list_find_None, list.Forall_forall. intros [i x] (j & [= -> ->] & Hj)%list_elem_of_fmap Hx.
  by cbn in Hx; subst.
Qed.

Lemma find_each_Some d l id : id ∈ l -> exists n, list_find (fun x => x.1 = id) (each d l) = Some (n, (id, d)).
Proof.
  intros Hi. destruct (list_find_elem_of (fun x => x.1 = id) (each d l) (id, d)) as [[n x] E].
  - unfold each. apply list_elem_of_fmap. eauto.
  - done.
  - exists n. rewrite E. apply list_find_Some in E as (Hx & Hf & _). apply list_elem_of_lookup_2, list_elem_of_fmap in Hx as (j & -> & _).
    cbn in Hf. by subst.
Qed.

Lemma find_target t y p ns s id :
  (fun x => x.2.2) <$> list_find (fun x => x.1 = id) (targets t y p ns s) = due t y p ns s id.
Proof.
  unfold targets, due. repeat case_decide.
  - destruct (find_each_Some (DeliveredBorrowed p ns) _ _ H) as [n E]. by rewrite (list_find_app_l _ _ _ _ _ E).
  - destruct (find_each_Some (DeliveredOwned p) _ _ H0) as [n E].
    rewrite list_find_app_r by (rewrite find_each; by case_decide). by rewrite (list_find_app_l _ _ _ _ _ E).
  - destruct (find_each_Some (DeliveredType t p) _ _ H1) as [n E].
    rewrite list_find_app_r, list_find_app_r by (rewrite find_each; by case_decide). by rewrite E.
  - rewrite list_find_app_r, list_find_app_r by (rewrite find_each; by case_decide). rewrite find_each. by case_decide.
Qed.

(** C30: local delivery is exact.  In every state that subscribing, releasing,
    delivering and the workers lead to, an incoming message is offered once to
    each subscriber of its topic and type and to each subscriber of its type,
    in the form it asked for, and to nobody else; an offer to a full queue
    changes nothing and is counted as a drop, the others are counted as
    delivered.  The short cut to the one hot subscriber makes no difference to
    the walk over all subscribers that publishing does. *)
Theorem local_delivery_exact t y p ns s : star subs_step subs_new s ->
  (forall s' delivered dropped, deliver_local_borrowed t y p ns s = (s', delivered, dropped) ->
     (forall id, workers s' !! id = match due t y p ns s id with
                                    | Some d => offer d <$> workers s !! id
                                    | None => workers s !! id
                                    end)
     /\ delivered = Z.min u32_max (with_room s (targets t y p ns s))
     /\ dropped = len (targets t y p ns s) - with_room s (targets t y p ns s)
     /\ NoDup (targets t y p ns s).*1 /\ (forall id, id ∈ (targets t y p ns s).*1 <-> is_Some (due t y p ns s id))
     /\ (forall k, entries s' k = entries s k))
  /\ deliver_local_borrowed t y p 0 s = deliver_local t y p s.
Proof.
  intros Hr. pose proof (reachable_subs_ok s Hr) as Hs. pose proof (targets_nodup t y p ns s Hs) as Hn.
  split; [|by rewrite deliver_local_to, deliver_local_borrowed_to by apply Hs]. intros s' delivered dropped.
  rewrite deliver_local_borrowed_to, deliver_to_spec by (done || apply Hs). intros [= <- <- <-]. split_and!; try done.
  - intros id. unfold with_workers. cbn [workers]. rewrite offer_to_lookup by done. rewrite <- find_target. by destruct (list_find _ _) as [[n x]|].
  - intros id. rewrite targets_ids, !elem_of_app. unfold due. repeat case_decide; split; intros; try done; try tauto; by eauto || destruct H2 as [? [=]].
Qed.

(** Two subscribers of topic 1 and type 2, one of type 2. *)
Definition three_subscribers : Subscribers :=
  (add_type_subscriber 2 (add_owned_subscriber (1, 2) (add_borrowed_subscriber (1, 2) subs_new).1).1).1.

Lemma local_delivery_exact_witness :
  star subs_step subs_new three_subscribers
  /\ (deliver_local_borrowed 1 2 [9] 5 three_subscribers).1.2 = 3
  /\ workers (deliver_local_borrowed 1 2 [9] 5 three_subscribers).1.1 !! 1 = Some [DeliveredBorrowed [9] 5].
Proof.
  assert (star subs_step subs_new three_subscribers) as Hr.
  { eapply star_step; [by apply (step_add_borrowed 1 2)|]. eapply star_step; [by apply (step_add_owned 1 2)|].
    apply star_one. by apply step_add_type. }
  destruct (local_delivery_exact 1 2 [9] 5 three_subscribers Hr) as [H _].
  destruct (deliver_local_borrowed 1 2 [9] 5 three_subscribers) as [[s' n] k] eqn:E.
  destruct (H s' n k eq_refl) as (Hw & Hn & _). split; [exact Hr|]. cbn [fst snd]. rewrite Hn, Hw. split; reflexivity.
Defined.
