(* ===== verification/PubSubSeen.v ===== *)
(** * Messages seen before

    A node handles a message once: a second frame with the same origin and
    message id is dropped, as long as the cache of messages seen has not been
    filled with others in between.  The cache is the [lru] crate's, used through
    its laws; a list implements them. *)

From S2P Require Import Prelude Types PubSubFrame PubSub.

(** ** A cache that satisfies the laws: its capacity and the keys, most recent first *)
#[local] Instance list_lru : LruCache := {|
  Lru := Z * list SeenMessageKey;
  lru_new cap := (cap, []);
  lru_get k c := if decide (k ∈ c.2) then (true, (c.1, k :: filter (fun k' => k' <> k) c.2)) else (false, c);
  lru_put k c := (c.1, take (Z.to_nat c.1) (k :: filter (fun k' => k' <> k) c.2));
|}.

Lemma filter_absent (k : SeenMessageKey) (l : list SeenMessageKey) : k ∉ l -> filter (fun k' => k' <> k) l = l.
Proof.
  induction l as [|x l IH]; [done|]. intros [Hx Hl]%not_elem_of_cons. rewrite filter_cons, decide_True by congruence. by rewrite IH.
Qed.

#[local] Instance list_lru_laws : LruLaws.
Proof.
  refine {| lru_cap := (fst : @Lru list_lru -> Z); lru_keys := (snd : @Lru list_lru -> list SeenMessageKey) |}; try done.
  - intros k c. cbn. case_decide; [by rewrite bool_decide_true|by rewrite bool_decide_false].
  - intros k c. cbn. by case_decide.
  - intros k c. cbn. by case_decide.
  - intros k c Hk. cbn. by rewrite filter_absent.
Defined.

Section Seen.
Context `{LruLaws}.

(** The key is in the cache with nothing but keys of [ks] in front of it. *)
Definition within (ks : gset SeenMessageKey) (k : SeenMessageKey) (c : Lru) : Prop :=
  NoDup (lru_keys c) /\ exists front back, lru_keys c = front ++ k :: back /\ forall x, x ∈ front -> x ∈ ks.

Lemma nodup_size (l : list SeenMessageKey) (ks : gset SeenMessageKey) : NoDup l -> (forall x, x ∈ l -> x ∈ ks) -> (length l <= size ks)%nat.
Proof.
  intros Hn Hs. rewrite <- (size_list_to_set (C := gset SeenMessageKey) l) by done. apply subseteq_size. intros x. rewrite elem_of_list_to_set. apply Hs.
Qed.

Lemma filter_other_perm (l : list SeenMessageKey) x : NoDup l -> NoDup (x :: filter (fun y => y <> x) l).
Proof.
  intros Hn. constructor; [|by apply list.NoDup_filter]. rewrite list_elem_of_filter. tauto.
Qed.

(** Touching a key of [ks], or the key itself. *)
Lemma touch_within ks k c x : within ks k c -> k ∉ ks -> Z.of_nat (size ks) < lru_cap c -> x ∈ ks \/ x = k ->
  within ks k (accept_seen_bytes x.1 x.2 c).1 /\ lru_cap (accept_seen_bytes x.1 x.2 c).1 = lru_cap c
  /\ (x = k -> (accept_seen_bytes x.1 x.2 c).2 = false).
Proof.
  intros (Hn & front & back & E & Hf) Hk Hs Hx. unfold accept_seen_bytes. rewrite <- surjective_pairing.
  pose proof (lru_get_found x c) as Hg. pose proof (lru_get_keys x c) as Hkeys. pose proof (lru_get_cap x c) as Hcap.
  destruct (lru_get x c) as [found c'] eqn:Eg. cbn [fst snd] in *. subst found.
  case_bool_decide as Hin; cbn [fst snd].
  - destruct (decide (x ∈ lru_keys c)) as [_|]; [|done]. split_and!; [|done|done]. split; [rewrite Hkeys; by apply filter_other_perm|].
    rewrite Hkeys, E, list.filter_app, filter_cons. destruct (decide (x = k)) as [->|Hxk].
    + exists [], (filter (fun y => y <> k) front ++ filter (fun y => y <> k) back). cbn. rewrite decide_False by tauto.
      split; [done|]. intros ? ?%elem_of_nil. done.
    + rewrite decide_True by congruence. exists (x :: filter (fun y => y <> x) front), (filter (fun y => y <> x) back). split; [done|].
      intros y [->|[_ Hy]%list_elem_of_filter]%elem_of_cons; [|auto]. by destruct Hx.
  - destruct (decide (x ∈ lru_keys c)) as [|_]; [done|]. assert (x <> k) as Hxk by (intros ->; apply Hin; rewrite E; set_solver).
    assert (x ∈ ks) as Hxs by (by destruct Hx). rewrite <- Hkeys in Hin. rewrite lru_put_cap, Hcap. split_and!; [|done|done].
    unfold within. rewrite (lru_put_keys x c' Hin), Hkeys, Hcap. assert (NoDup (x :: lru_keys c)) as Hnx by (constructor; [by rewrite <- Hkeys|done]).
    split; [eapply sublist_NoDup; [exact Hnx|apply sublist_take]|].
    assert (length (x :: front) <= size ks)%nat as Hl.
    { apply nodup_size; [|intros y [->|Hy]%elem_of_cons; auto]. rewrite E in Hnx. change (x :: front ++ k :: back) with ((x :: front) ++ k :: back) in Hnx.
      by apply list.NoDup_app in Hnx as [? _]. }
    rewrite E. exists (x :: front), (take (Z.to_nat (lru_cap c) - length (x :: front) - 1) back). split.
    + change (x :: front ++ k :: back) with ((x :: front) ++ k :: back). rewrite take_app, take_ge by lia. f_equal.
      destruct (Z.to_nat (lru_cap c) - length (x :: front))%nat as [|n] eqn:En; [lia|]. cbn. by rewrite Nat.sub_0_r.
    + intros y [->|Hy]%elem_of_cons; auto.
Qed.

Lemma accept_nodup x c : NoDup (lru_keys c) ->
  NoDup (lru_keys (accept_seen_bytes x.1 x.2 c).1) /\ lru_cap (accept_seen_bytes x.1 x.2 c).1 = lru_cap c.
Proof.
  intros Hn. unfold accept_seen_bytes. rewrite <- surjective_pairing.
  pose proof (lru_get_found x c) as Hg. pose proof (lru_get_keys x c) as Hkeys. pose proof (lru_get_cap x c) as Hcap.
  destruct (lru_get x c) as [found c'] eqn:Eg. cbn [fst snd] in *. subst found. case_bool_decide as Hin; cbn [fst snd].
  - destruct (decide (x ∈ lru_keys c)) as [_|]; [|done]. rewrite Hkeys. split; [by apply filter_other_perm|done].
  - destruct (decide (x ∈ lru_keys c)) as [|_]; [done|]. rewrite <- Hkeys in Hin. rewrite lru_put_cap, (lru_put_keys x c' Hin), Hkeys.
    split; [|done]. eapply sublist_NoDup; [|apply sublist_take]. constructor; [by rewrite <- Hkeys|done].
Qed.

(** After it was touched a key is the most recent, if there is room for one. *)
Lemma touched_within x c : NoDup (lru_keys c) -> 0 < lru_cap c -> within ∅ x (accept_seen_bytes x.1 x.2 c).1.
Proof.
  intros Hn Hc. split; [by apply accept_nodup|]. unfold accept_seen_bytes. rewrite <- surjective_pairing.
  pose proof (lru_get_found x c) as Hg. pose proof (lru_get_keys x c) as Hkeys. pose proof (lru_get_cap x c) as Hcap.
  destruct (lru_get x c) as [found c'] eqn:Eg. cbn [fst snd] in *. subst found. exists [].
  case_bool_decide as Hin; cbn [fst snd].
  - destruct (decide (x ∈ lru_keys c)) as [_|]; [|done]. rewrite Hkeys. eexists. split; [done|]. intros y ?%elem_of_nil. done.
  - destruct (decide (x ∈ lru_keys c)) as [|_]; [done|]. rewrite <- Hkeys in Hin. rewrite (lru_put_keys x c' Hin), Hkeys, Hcap.
    destruct (Z.to_nat (lru_cap c)) as [|n] eqn:En; [lia|]. eexists. split; [done|]. intros y ?%elem_of_nil. done.
Qed.

Lemma within_mono ks ks' k c : within ks k c -> ks ⊆ ks' -> within ks' k c.
Proof. intros (Hn & front & back & E & Hf) Hs. split; [done|]. exists front, back. auto. Qed.

(** ** Frames *)
Context (valid_key : list Z -> bool) (local_peer_id : PeerId).

Definition key_of (bytes : list Z) : option SeenMessageKey :=
  v ← parse_fast_frame bytes; Some (origin_peer_id v, msg_id v).

(** A frame from [source] that a node looks up among the messages seen. *)
Definition eligible (source : PeerId) (bytes : list Z) (k : SeenMessageKey) : Prop :=
  exists v, parse_fast_frame bytes = Some v /\ k = (origin_peer_id v, msg_id v) /\ hops_remaining v <> 0
    /\ source_peer_id v = peer_bytes source /\ origin_peer_id v <> peer_bytes local_peer_id /\ source <> local_peer_id.

Lemma parse_magic bytes v : parse_fast_frame bytes = Some v -> take 4 bytes = FAST_FRAME_MAGIC.
Proof.
  unfold parse_fast_frame. change (slice bytes 0 4) with (take 4 bytes). case_bool_decide; [done|]. by rewrite orb_true_r.
Qed.

Lemma lookup_seen w p e : seen_messages (lookup_next_hop_conn w p e).1 = seen_messages e.
Proof. unfold lookup_next_hop_conn. repeat case_match; done. Qed.

Lemma forward_to_seen w m hops e g : seen_messages (forward_to local_peer_id w m hops e g) = seen_messages e.
Proof.
  unfold forward_to. pose proof (lookup_seen w g.1 e) as Hl. destruct (encode_fast_frame_pooled _ _ _ _ _) as [[frame n]|]; [|done].
  destruct (lookup_next_hop_conn w g.1 e) as [e' r]. cbn in Hl. destruct r; [|done..]. repeat case_match; done.
Qed.

Lemma forward_seen w v e : seen_messages (forward valid_key local_peer_id w v e).1 = seen_messages e.
Proof.
  unfold forward. destruct (peer_from_bytes _ _); [|done]. cbn [fst]. generalize (map_to_list (group_destinations e (topic_key v)
    (filter (fun p => peer_bytes p <> peer_bytes local_peer_id) (destination_peer_iter valid_key v)))).
  intros gs. revert e. induction gs as [|g gs IH]; intros e; cbn [foldl]; [done|]. by rewrite IH, forward_to_seen.
Qed.

(** Handling a frame touches its key at most. *)
Lemma handle_seen w source bytes e :
  seen_messages (handle_pubsub_frame valid_key local_peer_id w source bytes e).1 = seen_messages e
  \/ exists k, key_of bytes = Some k
       /\ seen_messages (handle_pubsub_frame valid_key local_peer_id w source bytes e).1 = (accept_seen_bytes k.1 k.2 (seen_messages e)).1.
Proof.
  unfold handle_pubsub_frame. case_bool_decide; [|by left]. unfold handle_fast_pubsub_frame, key_of.
  destruct (parse_fast_frame bytes) as [v|]; [|by left]. cbn [mbind option_bind].
  destruct (hops_remaining v =? 0); [by left|]. case_bool_decide; [|by left]. cbn [negb]. destruct (_ || _); [by left|].
  right. exists (origin_peer_id v, msg_id v). split; [done|]. cbn [fst snd].
  destruct (accept_seen_bytes _ _ _) as [seen fresh]. cbn [fst]. destruct fresh; cbn [negb]; [|done].
  destruct (scan_destinations _ _) as [[here elsewhere]|]; [|done].
  destruct here; [destruct (deliver_local_borrowed _ _ _ _ _) as [[s n] k]|]; (destruct (_ || _); [done|]); by rewrite forward_seen.
Qed.

Lemma handle_eligible w source bytes k e : eligible source bytes k ->
  exists v, parse_fast_frame bytes = Some v /\ k = (origin_peer_id v, msg_id v)
  /\ seen_messages (handle_pubsub_frame valid_key local_peer_id w source bytes e).1 = (accept_seen_bytes k.1 k.2 (seen_messages e)).1
  /\ ((accept_seen_bytes k.1 k.2 (seen_messages e)).2 = false ->
      handle_pubsub_frame valid_key local_peer_id w source bytes e
      = (bump duplicate_drops 1 (set_seen (accept_seen_bytes k.1 k.2 (seen_messages e)).1 e), Ok tt)).
Proof.
  intros (v & Ev & -> & Hh & Hs & Ho & Hl). exists v. do 2 (split; [done|]). unfold handle_pubsub_frame.
  rewrite bool_decide_true by (by eapply parse_magic). unfold handle_fast_pubsub_frame. rewrite Ev.
  rewrite (proj2 (Z.eqb_neq _ _)) by done. rewrite (bool_decide_true (source_peer_id v = _)) by done. cbn [negb].
  rewrite (bool_decide_false (origin_peer_id v = _)) by done.
  rewrite (bool_decide_false (source_peer_id v = _)) by (rewrite Hs; intros E; apply Hl; destruct source, local_peer_id; cbn in *; congruence).
  cbn [orb fst snd]. destruct (accept_seen_bytes _ _ _) as [seen fresh]. cbn [fst snd]. split; [|by intros ->].
  destruct fresh; cbn [negb]; [|done]. destruct (scan_destinations _ _) as [[here elsewhere]|]; [|done].
  destruct here; [destruct (deliver_local_borrowed _ _ _ _ _) as [[s n] k]|]; (destruct (_ || _); [done|]); by rewrite forward_seen.
Qed.

(** ** Life of a node: frames with their keys, and whatever leaves the cache alone *)
Inductive ingress : list SeenMessageKey -> PubSub -> PubSub -> Prop :=
  | ingress_none e : ingress [] e e
  | ingress_frame w source bytes k ks e e' : key_of bytes = Some k ->
      ingress ks (handle_pubsub_frame valid_key local_peer_id w source bytes e).1 e' -> ingress (k :: ks) e e'
  | ingress_other ks e e1 e' : seen_messages e1 = seen_messages e -> ingress ks e1 e' -> ingress ks e e'.

Definition cache_ok (c : Lru) : Prop := NoDup (lru_keys c) /\ lru_cap c = SEEN_MESSAGE_CAPACITY.

Lemma ingress_cache_ok ks e e' : ingress ks e e' -> cache_ok (seen_messages e) -> cache_ok (seen_messages e').
Proof.
  induction 1 as [|w source bytes k ks e e' Hk _ IH|ks e e1 e' Hs _ IH]; intros [Hn Hc]; [done| |apply IH; by rewrite Hs].
  apply IH. destruct (handle_seen w source bytes e) as [->|(x & _ & ->)]; [done|].
  destruct (accept_nodup x _ Hn) as [H1 H2]. split; [done|by rewrite H2].
Qed.

Lemma ingress_within (ks : list SeenMessageKey) (e e' : PubSub) (others : gset SeenMessageKey) (k : SeenMessageKey) : ingress ks e e' -> k ∉ others -> Z.of_nat (size others) < lru_cap (seen_messages e) ->
  (forall x, x ∈ ks -> x ∈ others \/ x = k) -> within others k (seen_messages e) ->
  within others k (seen_messages e') /\ lru_cap (seen_messages e') = lru_cap (seen_messages e).
Proof.
  intros Hi Hk. induction Hi as [|w source bytes x ks e e' Hx _ IH|ks e e1 e' Hs _ IH]; intros Hc Hks Hw; [done| |].
  - destruct (handle_seen w source bytes e) as [Es|(y & Hy & Es)].
    + rewrite <- Es in *. apply IH; auto. intros z Hz. apply Hks. by right.
    + assert (y = x) as -> by congruence.
      destruct (touch_within others k _ x Hw Hk Hc (Hks x ltac:(by left))) as (H1 & H2 & _). rewrite <- Es in H1, H2.
      rewrite <- H2. apply IH; [by rewrite H2|intros z Hz; apply Hks; by right|done].
  - rewrite <- Hs in *. auto.
Qed.

(** C31: a message is handled once.  A node that has looked up a message among
    those seen refuses every later frame with the same origin and id, whoever
    sends it and whatever it carries: it delivers and forwards nothing and
    counts a duplicate, as long as fewer than 16384 other messages arrived in
    between. *)
Theorem duplicate_refused (entropy : Z) (ks0 ks : list SeenMessageKey) (e e' : PubSub) (w1 w2 : World) (source1 source2 : PeerId)
    (frame1 frame2 : list Z) (k : SeenMessageKey) (others : gset SeenMessageKey) :
  ingress ks0 (pubsub_new entropy) e -> eligible source1 frame1 k ->
  ingress ks (handle_pubsub_frame valid_key local_peer_id w1 source1 frame1 e).1 e' ->
  (forall x, x ∈ ks -> x = k \/ x ∈ others) -> k ∉ others -> Z.of_nat (size others) < SEEN_MESSAGE_CAPACITY ->
  eligible source2 frame2 k ->
  exists seen, handle_pubsub_frame valid_key local_peer_id w2 source2 frame2 e' = (bump duplicate_drops 1 (set_seen seen e'), Ok tt).
Proof.
  intros Hstart He1 Hi Hks Hk Hs He2.
  assert (cache_ok (seen_messages (pubsub_new entropy))) as Hnew.
  { cbn. split; [rewrite lru_new_keys; constructor|apply lru_new_cap]. }
  destruct (ingress_cache_ok _ _ _ Hstart Hnew) as [Hn Hc].
  destruct (handle_eligible w1 source1 frame1 k e He1) as (v1 & _ & _ & Es & _).
  assert (within others k (seen_messages (handle_pubsub_frame valid_key local_peer_id w1 source1 frame1 e).1)) as Hw.
  { rewrite Es. eapply within_mono; [|apply empty_subseteq]. apply touched_within; [done|]. rewrite Hc. done. }
  assert (lru_cap (seen_messages (handle_pubsub_frame valid_key local_peer_id w1 source1 frame1 e).1) = SEEN_MESSAGE_CAPACITY) as Hcap.
  { rewrite Es, (proj2 (accept_nodup k _ Hn)). done. }
  destruct (ingress_within ks _ e' others k Hi Hk ltac:(lia) ltac:(intros x Hx; destruct (Hks x Hx); auto) Hw) as [Hw' Hc'].
  destruct (handle_eligible w2 source2 frame2 k e' He2) as (v2 & _ & _ & _ & Hd). eexists. apply Hd.
  eapply touch_within; [exact Hw'|done|rewrite Hc', Hcap; done|by right|done].
Qed.
End Seen.

(** ** A run: the same message from two neighbours *)
Module Twice.
Definition key (n : Z) : PeerId := mkPeerId (replicate 32 n).
Definition frame (source : PeerId) : list Z := write_fast_frame [] 1 2 3 (key 1) source 8 AtMostOnce 0 [key 9] [5].
Definition quiet_world : World := {|
  lookup_connected_peer _ := None; has_connection_by_peer_id _ := false; is_closed _ := false;
  max_message_size _ := None; enqueue_write _ := Err WriteQueueFull; buffer_available _ := true |}.

Lemma frame_eligible source : peer_ok source -> source <> key 9 -> eligible (key 9) source (frame source) (peer_bytes (key 1), 3).
Proof.
  intros Hp Hs. exists (sent_view 1 2 3 8 0 (key 1) source AtMostOnce [key 9] [5]). split.
  { apply (parse_written_frame 1 2 3 8 0 (key 1) source AtMostOnce [key 9] [5]);
      [unfold_widths; lia..|lia|unfold_widths; lia|reflexivity|exact Hp|repeat constructor]. }
  cbn [sent_view origin_peer_id msg_id hops_remaining source_peer_id].
  split_and!; [reflexivity|discriminate|reflexivity|discriminate|exact Hs].
Qed.
End Twice.

Lemma duplicate_refused_witness :
  let first := (handle_pubsub_frame (fun _ => true) (Twice.key 9) Twice.quiet_world (Twice.key 2) (Twice.frame (Twice.key 2)) (pubsub_new 7)).1 in
  exists seen, handle_pubsub_frame (fun _ => true) (Twice.key 9) Twice.quiet_world (Twice.key 3) (Twice.frame (Twice.key 3)) first
    = (bump duplicate_drops 1 (set_seen seen first), Ok tt).
Proof.
  intros first. apply (duplicate_refused (fun _ => true) (Twice.key 9) 7 [] [] (pubsub_new 7) first Twice.quiet_world Twice.quiet_world (Twice.key 2)
    (Twice.key 3) (Twice.frame (Twice.key 2)) (Twice.frame (Twice.key 3)) (peer_bytes (Twice.key 1), 3) ∅);
    [constructor|by apply Twice.frame_eligible|constructor|intros x ?%elem_of_nil; done|apply not_elem_of_empty|by rewrite size_empty|
     by apply Twice.frame_eligible].
Defined.
