(* ===== verification/PubSubRoutes.v ===== *)
(** * Pubsub routes

    The control plane of the engine: the known interest actors become the routes
    a publication takes, over the connections the pool has.  A pass reads the
    actors and the connections between two readings of their revisions, and
    publishes what it built only if they did not move in between. *)

From S2P Require Import Prelude Types Framing ActorConflict PubSubFrame PubSub PubSubSeen.

Section Routes.
Context `{LruCache}.
Context (valid_key : list Z -> bool) (hex_decode : list Z -> option (list Z)) (local_peer_id : PeerId).

Definition note_name (m : gmap Z (gset PeerId)) (name : Name) : gmap Z (gset PeerId) :=
  match parse_interest_name valid_key hex_decode name with
  | Some (topic, peer) => <[topic := {[peer]} ∪ default ∅ (m !! topic)]> m
  | None => m
  end.

Definition interests (names : list Name) : gmap Z (gset PeerId) := foldl note_name ∅ names.

(** The groups of one topic that can be reached, and the connections to their
    next hops. *)
Definition route_group (w : World) (acc : RouteGroups * gmap PeerId Conn) (group : PeerId * list PeerId) :
    RouteGroups * gmap PeerId Conn :=
  let '(routable, next_conns) := acc in
  let '(next_hop, destinations) := group in
  match usable w (next_conns !! next_hop) with
  | Some _ => (<[next_hop := destinations]> routable, next_conns)
  | None =>
      if negb (has_connection_by_peer_id w next_hop) then (routable, delete next_hop next_conns)
      else
        match lookup_connected_peer w next_hop with
        | Some conn => (<[next_hop := destinations]> routable, <[next_hop := conn]> next_conns)
        | None => (routable, delete next_hop next_conns)
        end
  end.

Definition route_topic (w : World) (e : PubSub) (acc : gmap Z RouteGroups * gmap PeerId Conn) (entry : Z * gset PeerId) :
    gmap Z RouteGroups * gmap PeerId Conn :=
  let '(next_routes, next_conns) := acc in
  let '(topic, peers) := entry in
  match filter (fun p => p <> local_peer_id) (elements peers) with
  | [] => (next_routes, next_conns)
  | peers =>
      let '(routable, next_conns) := foldl (route_group w) (∅, next_conns) (map_to_list (group_destinations e topic peers)) in
      (if bool_decide (routable = ∅) then next_routes else <[topic := routable]> next_routes, next_conns)
  end.

Definition live_next_hops (routes : gmap Z RouteGroups) : gset PeerId :=
  map_fold (fun _ groups acc => dom groups ∪ acc) ∅ routes.

Definition build_routes (w : World) (names : list Name) (e : PubSub) : gmap Z RouteGroups * gmap PeerId Conn :=
  let '(routes, next_conns) := foldl (route_topic w e) (∅, conns e) (map_to_list (interests names)) in
  (routes, filter (fun x => x.1 ∈ live_next_hops routes) next_conns).

(** One hot topic when there is one only, with a connection for every group. *)
Definition refresh_hot_route_groups (routes : gmap Z RouteGroups) (cs : gmap PeerId Conn) : option (Z * list HotRouteEntry) :=
  match map_to_list routes with
  | [(topic, groups)] =>
      es ← mapM (fun g => conn ← cs !! g.1; Some (mkHot g.1 g.2 conn)) (map_to_list groups);
      Some (topic, es)
  | _ => None
  end.

(** A pass of [refresh_control_plane_inner]: [before] and [after] are the
    revisions of the actors and the connections at its ends. *)
Record Pass := mkPass { before : Z * Z; names : list Name; world : World; after : Z * Z }.

Definition up_to_date (p : Pass) (e : PubSub) : bool :=
  bool_decide (last_revisions e = (before p, route_provider_revision e))
  && forallb (fun x => negb (is_closed (world p) x.2)) (map_to_list (conns e))
  && match route_provider e with None => true | Some _ => false end.

Definition refresh_pass (p : Pass) (e : PubSub) : option PubSub :=
  if up_to_date p e then Some e
  else
    let '(routes, cs) := build_routes (world p) (names p) e in
    if bool_decide (after p = before p) then
      Some (set_routes routes (refresh_hot_route_groups routes cs) cs (before p, route_provider_revision e) e)
    else None.

(** The loop over the passes a refresh makes; none is left when it returns. *)
Fixpoint refresh_control_plane (passes : list Pass) (e : PubSub) : option PubSub :=
  match passes with
  | [] => None
  | p :: passes => match refresh_pass p e with Some e => Some e | None => refresh_control_plane passes e end
  end.

(** ** What a pass builds *)

(** The pool's connections lead where they say and are not closed. *)
Record world_ok (w : World) : Prop := {
  wo_peer p c : lookup_connected_peer w p = Some c -> conn_peer c = p;
  wo_live p c : lookup_connected_peer w p = Some c -> is_closed w c = false;
}.

Definition conns_ok (cs : gmap PeerId Conn) : Prop := forall p c, cs !! p = Some c -> conn_peer c = p.

(** A usable connection to the peer is at hand or in the pool. *)
Definition reachable (w : World) (cs : gmap PeerId Conn) (p : PeerId) : Prop :=
  is_Some (usable w (cs !! p)) \/ (has_connection_by_peer_id w p = true /\ is_Some (lookup_connected_peer w p)).

#[global] Instance reachable_dec w cs p : Decision (reachable w cs p).
Proof. unfold reachable. apply _. Defined.

Lemma usable_Some w o c : usable w o = Some c <-> o = Some c /\ is_closed w c = false.
Proof. unfold usable. destruct o as [c'|]; [destruct (is_closed w c') eqn:E|]; split; intros; destruct_and?; simplify_eq; auto. congruence. Qed.

Definition interested (names : list Name) (t : Z) (p : PeerId) : Prop :=
  exists name, name ∈ names /\ parse_interest_name valid_key hex_decode name = Some (t, p).

Lemma interests_elem ns t p : p ∈ default ∅ (interests ns !! t) <-> interested ns t p.
Proof using Type.
  unfold interests. enough (forall m : gmap Z (gset PeerId), p ∈ default ∅ (foldl note_name m ns !! t)
    <-> p ∈ default ∅ (m !! t) \/ interested ns t p) as Hm.
  { rewrite Hm, lookup_empty. cbn. set_solver. }
  induction ns as [|name ns IH]; intros m; cbn [foldl].
  { split; [auto|]. intros [?|(name & ?%elem_of_nil & _)]; done. }
  assert (interested (name :: ns) t p <-> parse_interest_name valid_key hex_decode name = Some (t, p) \/ interested ns t p) as ->.
  { unfold interested. split; [intros (x & [->|?]%elem_of_cons & ?); eauto|].
    intros [?|(x & ? & ?)]; [exists name|exists x]; split; try done; apply elem_of_cons; auto. }
  rewrite IH. unfold note_name. destruct (parse_interest_name _ _ name) as [[t' p']|] eqn:E.
  - rewrite lookup_insert. case_decide as Et; [subst t'|]; cbn; set_unfold; intuition congruence.
  - intuition congruence.
Qed.

Lemma live_next_hops_elem routes p : p ∈ live_next_hops routes <-> exists t g, routes !! t = Some g /\ is_Some (g !! p).
Proof using Type.
  unfold live_next_hops. induction routes as [|t g routes Ht IH] using map_ind.
  { rewrite map_fold_empty. split; [set_solver|]. intros (? & ? & [=] & _). }
  rewrite map_fold_insert_L by (done || (intros; set_solver)). rewrite elem_of_union, IH, elem_of_dom. split.
  - intros [?|(t' & g' & Hg & ?)]; [exists t, g; by rewrite lookup_insert_eq|].
    exists t', g'. rewrite lookup_insert_ne; [done|congruence].
  - intros (t' & g' & [[-> ->]|[_ ?]]%lookup_insert_Some & ?); eauto.
Qed.

Section Pass.
Context (w : World) (Hw : world_ok w).

(** One more group: what it adds and what it keeps. *)
Lemma route_group_spec routable cs h d : conns_ok cs ->
  let '(routable', cs') := route_group w (routable, cs) (h, d) in
  conns_ok cs' /\ (forall p, reachable w cs' p <-> reachable w cs p)
  /\ (forall p c, usable w (cs !! p) = Some c -> cs' !! p = Some c)
  /\ (reachable w cs h -> routable' = <[h := d]> routable /\ is_Some (usable w (cs' !! h)))
  /\ (~ reachable w cs h -> routable' = routable).
Proof using Hw.
  intros Hc. cbn. destruct (usable w (cs !! h)) as [c|] eqn:Eu.
  { split_and!; try done.
    - by intros p c' [? _]%usable_Some.
    - intros Hn. exfalso. apply Hn. left. rewrite Eu. eauto. }
  assert (forall p c, p <> h -> usable w (cs !! p) = Some c -> cs !! p = Some c) as Hkeep.
  { by intros p c _ [? _]%usable_Some. }
  destruct (has_connection_by_peer_id w h) eqn:Eh; cbn [negb].
  - destruct (lookup_connected_peer w h) as [c|] eqn:El.
    + pose proof (wo_peer w Hw _ _ El) as Hp. pose proof (proj2 (usable_Some w (Some c) c) (conj eq_refl (wo_live w Hw _ _ El))) as Hl. split_and!.
      * intros p c'. rewrite lookup_insert. case_decide; [intros [= <-]; congruence|apply Hc].
      * intros p. unfold reachable. rewrite lookup_insert. case_decide; [subst p|done]. rewrite Eh, El. split; eauto.
      * intros p c' Hu. rewrite lookup_insert_ne by congruence. apply Hkeep; congruence.
      * intros _. split; [done|]. rewrite lookup_insert_eq, Hl. eauto.
      * intros Hn. exfalso. apply Hn. right. rewrite El. eauto.
    + split_and!.
      * intros p c' [_ Hp]%lookup_delete_Some. by apply Hc.
      * intros p. unfold reachable. rewrite lookup_delete. case_decide; [subst p|done]. by rewrite Eu.
      * intros p c' Hu. rewrite lookup_delete_ne by congruence. apply Hkeep; congruence.
      * intros [[? Hr]|[_ [? Hr]]]; congruence.
      * done.
  - split_and!.
    + intros p c' [_ Hp]%lookup_delete_Some. by apply Hc.
    + intros p. unfold reachable. rewrite lookup_delete. case_decide; [subst p|done]. by rewrite Eu.
    + intros p c' Hu. rewrite lookup_delete_ne by congruence. apply Hkeep; congruence.
    + intros [[? Hr]|[? _]]; congruence.
    + done.
Qed.

Lemma route_groups_spec gs : forall routable cs, conns_ok cs -> NoDup gs.*1 ->
  let '(routable', cs') := foldl (route_group w) (routable, cs) gs in
  conns_ok cs' /\ (forall p, reachable w cs' p <-> reachable w cs p)
  /\ (forall p c, usable w (cs !! p) = Some c -> cs' !! p = Some c)
  /\ (forall h d, routable' !! h = Some d <-> ((h, d) ∈ gs /\ reachable w cs h) \/ ((h ∉ gs.*1 \/ ~ reachable w cs h) /\ routable !! h = Some d))
  /\ (forall h, h ∈ gs.*1 -> reachable w cs h -> is_Some (usable w (cs' !! h))).
Proof using Hw.
  induction gs as [|[h d] gs IH]; intros routable cs Hc Hn; cbn [foldl].
  { split_and!; try done.
    - by intros p c [? _]%usable_Some.
    - intros h d. split; [intros ?; right; split; [left; apply not_elem_of_nil|done]|].
      intros [[?%elem_of_nil _]|[_ ?]]; done.
    - intros h ?%elem_of_nil. done. }
  cbn in Hn. apply list.NoDup_cons in Hn as [Hh Hn]. pose proof (route_group_spec routable cs h d Hc) as H1.
  destruct (route_group w (routable, cs) (h, d)) as [r1 cs1] eqn:E1. destruct H1 as (Hc1 & Hr1 & Hk1 & Hy & Hno).
  specialize (IH r1 cs1 Hc1 Hn). destruct (foldl _ _ _) as [r2 cs2] eqn:E2. destruct IH as (Hc2 & Hr2 & Hk2 & Hl2 & Hu2).
  split_and!; [done| | | |].
  - intros p. by rewrite Hr2.
  - intros p c Hu. apply Hk2, usable_Some. split; [by apply Hk1|]. by apply usable_Some in Hu as [_ ?].
  - intros x d'. rewrite Hl2, Hr1, elem_of_cons. cbn [fmap list_fmap]. rewrite not_elem_of_cons. cbn [fst].
    destruct (decide (reachable w cs h)) as [Hr|Hr]; [rewrite (proj1 (Hy Hr))|rewrite (Hno Hr)].
    + rewrite lookup_insert. case_decide as E; [subst x|].
      * assert ((h, d') ∉ gs) by (intros Hi; apply Hh; by apply (list_elem_of_fmap_2 fst) in Hi).
        split; [intros [[? _]|[_ [= ->]]]; [done|by left; auto]|intros [[[[= ->]|?] _]|[[[? _]|?] _]]; try done; right; auto].
      * split; [intros [[? ?]|[[?|?] ?]]|intros [[[[= -> ->]|?] ?]|[[[? ?]|?] ?]]]; auto; by right; auto.
    + split; [intros [[? ?]|[[?|?] ?]]|intros [[[[= -> ->]|?] ?]|[[[? ?]|?] ?]]]; auto; try done; right; auto.
      split; [|done]. destruct (decide (x = h)); [subst; auto|auto].
  - intros x [->|Hx]%elem_of_cons Hrx; cbn in *.
    + destruct (Hy Hrx) as [_ [c Hu]]. exists c. apply usable_Some. split; [by apply Hk2|]. by apply usable_Some in Hu as [_ ?].
    + apply Hu2; [done|by apply Hr1].
Qed.

(** ** Direct routes, without a provider *)
Lemma direct_groups_lookup ps p d : direct_groups ps !! p = Some d <-> p ∈ ps /\ d = [p].
Proof using Type.
  enough (forall m : RouteGroups, (foldl (fun m p => <[p := [p]]> m) m ps : RouteGroups) !! p = Some d <-> (p ∈ ps /\ d = [p]) \/ (~ (p ∈ ps) /\ m !! p = Some d)) as Hm.
  { unfold direct_groups. rewrite Hm, lookup_empty. intuition congruence. }
  induction ps as [|q ps IH]; intros m; cbn [foldl].
  { split; [right; split; [apply not_elem_of_nil|done]|]. intros [[?%elem_of_nil _]|[_ ?]]; done. }
  rewrite IH, elem_of_cons, lookup_insert. case_decide as E; [subst q|].
  - split; [intros [?|[? [= <-]]]; [tauto|left; auto]|]. intros [[_ ->]|[? _]]; [|tauto]. destruct (decide (p ∈ ps)); auto.
  - assert (p <> q) by congruence. tauto.
Qed.

Definition direct_routes (cs : gmap PeerId Conn) (peers : gset PeerId) : RouteGroups :=
  direct_groups (filter (fun p => p <> local_peer_id /\ reachable w cs p) (elements peers)).

Definition nonempty (g : RouteGroups) : option RouteGroups := if bool_decide (g = ∅) then None else Some g.

Lemma direct_routes_ext cs cs' peers : (forall p, reachable w cs' p <-> reachable w cs p) -> direct_routes cs' peers = direct_routes cs peers.
Proof using Type. intros Hr. unfold direct_routes. f_equal. apply list_filter_iff. intros p. by rewrite Hr. Qed.

Lemma route_topic_spec e r cs t peers : route_provider e = None -> conns_ok cs -> r !! t = None ->
  let '(r', cs') := route_topic w e (r, cs) (t, peers) in
  conns_ok cs' /\ (forall p, reachable w cs' p <-> reachable w cs p)
  /\ (forall p c, usable w (cs !! p) = Some c -> cs' !! p = Some c)
  /\ r' !! t = nonempty (direct_routes cs peers) /\ (forall t', t' <> t -> r' !! t' = r !! t')
  /\ (forall p, is_Some (direct_routes cs peers !! p) -> is_Some (usable w (cs' !! p))).
Proof using Hw.
  intros He Hc Hr. unfold route_topic. set (ps := filter (fun p => p <> local_peer_id) (elements peers)).
  assert (forall p d, direct_routes cs peers !! p = Some d <-> p ∈ ps /\ reachable w cs p /\ d = [p]) as Hd.
  { intros p d. unfold direct_routes. rewrite direct_groups_lookup. unfold ps. rewrite !list_elem_of_filter. tauto. }
  unfold group_destinations. rewrite He.
  pose proof (route_groups_spec (map_to_list (direct_groups ps)) ∅ cs Hc (NoDup_fst_map_to_list _)) as H1.
  destruct (foldl _ _ _) as [g cs'] eqn:Ef. destruct H1 as (Hc' & Hr' & Hk & Hl & Hu).
  assert (g = direct_routes cs peers) as Hg.
  { apply map_eq. intros p. apply option_eq. intros d. rewrite Hl, Hd, elem_of_map_to_list, direct_groups_lookup, lookup_empty.
    intuition congruence. }
  assert (ps = [] -> direct_routes cs peers = ∅) as Hnil.
  { intros E. apply map_empty. intros p. apply eq_None_not_Some. intros [d [Hp _]%Hd]. rewrite E in Hp. by apply elem_of_nil in Hp. }
  destruct ps as [|q qs] eqn:Eps; [|rewrite Ef].
  - rewrite Hnil by done. split_and!; try done; [by intros p c [? _]%usable_Some|].
    intros p [d Hp]. by rewrite lookup_empty in Hp.
  - split_and!; try done.
    + rewrite Hg. unfold nonempty. case_bool_decide; [done|]. apply lookup_insert_eq.
    + intros t' Ht. case_bool_decide; [done|]. by rewrite lookup_insert_ne by congruence.
    + intros p [d (Hp & Hrp & ->)%Hd]. apply Hu; [|done]. apply list_elem_of_fmap. exists (p, [p]). split; [done|].
      apply elem_of_map_to_list, direct_groups_lookup. done.
Qed.

Lemma route_topics_spec e ts : route_provider e = None -> forall r cs, conns_ok cs -> NoDup ts.*1 -> (forall t, t ∈ ts.*1 -> r !! t = None) ->
  (forall t g p, r !! t = Some g -> is_Some (g !! p) -> is_Some (usable w (cs !! p))) ->
  let '(r', cs') := foldl (route_topic w e) (r, cs) ts in
  conns_ok cs' /\ (forall t peers, (t, peers) ∈ ts -> r' !! t = nonempty (direct_routes cs peers))
  /\ (forall t, t ∉ ts.*1 -> r' !! t = r !! t)
  /\ (forall t g p, r' !! t = Some g -> is_Some (g !! p) -> is_Some (usable w (cs' !! p))).
Proof using Hw.
  intros He. induction ts as [|[t peers] ts IH]; intros r cs Hc Hn Hr Hl; cbn [foldl].
  { split_and!; try done. intros t peers ?%elem_of_nil. done. }
  cbn in Hn. apply list.NoDup_cons in Hn as [Ht Hn].
  pose proof (route_topic_spec e r cs t peers He Hc (Hr t ltac:(cbn; by left))) as H1.
  destruct (route_topic w e (r, cs) (t, peers)) as [r1 cs1] eqn:E1. destruct H1 as (Hc1 & Hr1 & Hk1 & Hg & Ho & Hu).
  specialize (IH r1 cs1 Hc1 Hn). destruct (foldl _ _ _) as [r2 cs2] eqn:E2. destruct IH as (Hc2 & Hin & Hout & Hl2).
  - intros t' Hi. rewrite Ho by (intros ->; done). apply Hr. cbn. by right.
  - intros t' g p. destruct (decide (t' = t)) as [->|Hne].
    + rewrite Hg. unfold nonempty. case_bool_decide; [done|]. intros [= <-]. apply Hu.
    + rewrite Ho by done. intros Hg' Hp. destruct (Hl _ _ _ Hg' Hp) as [c Hc']. exists c. apply usable_Some.
      split; [by apply Hk1|]. by apply usable_Some in Hc' as [_ ?].
  - split_and!; [done| | |done].
    + intros t' peers' [[= -> ->]|Hi]%elem_of_cons; [by rewrite Hout|]. rewrite (Hin _ _ Hi). by rewrite (direct_routes_ext cs cs1).
    + intros t'. cbn. rewrite not_elem_of_cons. intros [? ?]. rewrite Hout, Ho by done. done.
Qed.

Lemma build_routes_spec ns e : route_provider e = None -> conns_ok (conns e) ->
  let '(routes, cs) := build_routes w ns e in
  conns_ok cs
  /\ (forall t, routes !! t = nonempty (direct_routes (conns e) (default ∅ (interests ns !! t))))
  /\ (forall t g p, routes !! t = Some g -> is_Some (g !! p) -> is_Some (usable w (cs !! p))).
Proof using Hw.
  intros He Hc. unfold build_routes.
  pose proof (route_topics_spec e (map_to_list (interests ns)) He ∅ (conns e) Hc (NoDup_fst_map_to_list _)
    (fun t _ => lookup_empty t) ltac:(intros ??? H'; by rewrite lookup_empty in H')) as H1.
  destruct (foldl _ _ _) as [r cs]. destruct H1 as (Hc1 & Hin & Hout & Hl). split_and!.
  - intros p c [Hp _]%map_lookup_filter_Some. by apply Hc1.
  - intros t. destruct (interests ns !! t) as [peers|] eqn:Et; cbn [default].
    + apply Hin. by apply elem_of_map_to_list.
    + rewrite Hout, lookup_empty; [done|]. intros ([t' ps] & -> & Hi)%list_elem_of_fmap. cbn in Et.
      apply elem_of_map_to_list in Hi. congruence.
  - intros t g p Hg Hp. destruct (Hl _ _ _ Hg Hp) as [c Hu]. exists c. apply usable_Some in Hu as [Hu Hcl]. apply usable_Some.
    split; [|done]. apply map_lookup_filter_Some. split; [done|]. apply live_next_hops_elem. eauto.
Qed.

(** ** Publishing along the routes *)
Section Publish.
Context (m : Message) (hops : Z).

(** The connections take the message. *)
Record takes_all : Prop := {
  ta_buffer n : buffer_available w n = true;
  ta_size c : exists max, max_message_size w c = Some max /\ 164 + len (m_payload m) <= max;
  ta_limit : 164 + len (m_payload m) <= CONTROL_BODY_LEN_MASK;
  ta_write c : enqueue_write w c = Ok tt;
}.

Context (Ht : takes_all).

(** The bytes for a destination: the frame's prefix and the frame. *)
Definition bytes_for (p : PeerId) : list Z :=
  control_bytes KPubSub (164 + len (m_payload m)) ++ replicate 12 0
  ++ write_fast_frame [] (m_topic m) (m_type m) (m_id m) (m_origin m) local_peer_id hops (m_mode m) (m_ns m) [p] (m_payload m).

Definition sent_ok (stats : PublishStats) : PublishStats := count_stat remote_enqueued (count_stat remote_attempted stats).

Lemma publish_to_conn_ok c p e stats :
  publish_frame_to_conn local_peer_id w m hops c [p] (e, stats) = (set_outbox (outbox e ++ [(c, bytes_for p)]) e, sent_ok stats).
Proof using Ht.
  destruct Ht as [Hb Hs Hl Hq]. destruct (Hs c) as (max & Emax & Hmax). pose proof (len_nonneg (m_payload m)).
  change CONTROL_BODY_LEN_MASK with 134217727 in Hl.
  assert (fast_frame_len [p] (m_payload m) = 152 + len (m_payload m)) as El.
  { unfold fast_frame_len, saturating_add, saturating_mul, FAST_FRAME_HEADER_LEN, FAST_FRAME_DEST_PEER_LEN.
    change (len [p]) with 1. rewrite !Z.min_r by (unfold_widths; lia). lia. }
  unfold publish_frame_to_conn, encode_fast_frame_pooled, try_pubsub_frame_pooled. rewrite Hb, El, Emax.
  unfold reject_oversize_for_inline_send, saturating_add. change PUBSUB_HEADER_LEN with 12.
  rewrite Z.min_r by (unfold_widths; lia). rewrite (proj2 (Z.ltb_ge _ _)) by lia. cbn [mbind Result_bind].
  rewrite pubsub_layout by (change CONTROL_BODY_LEN_MASK with 134217727; unfold PUBSUB_HEADER_LEN; lia). cbn [mbind Result_bind].
  rewrite Hq. cbn [mbind Result_bind]. unfold bytes_for. replace (12 + (152 + len (m_payload m))) with (164 + len (m_payload m)) by lia.
  by rewrite <- app_assoc.
Qed.

(** All groups, over the connections at hand. *)
Lemma publish_all_ok cs (ps : list PeerId) : (forall p, p ∈ ps -> exists c, usable w (cs !! p) = Some c /\ conn_peer c = p) -> forall e stats,
  conns e = cs ->
  exists sent e', foldl (publish_frame_to_next_hop local_peer_id w m hops) (e, stats) (map (fun p => (p, [p])) ps)
    = (e', Nat.iter (length ps) sent_ok stats)
  /\ foldl (fun acc p => publish_frame_to_conn local_peer_id w m hops (default (mkConn p 0) (cs !! p)) [p] acc) (e, stats) ps
    = (e', Nat.iter (length ps) sent_ok stats)
  /\ outbox e' = outbox e ++ sent /\ map (fun x => conn_peer x.1) sent = ps /\ map snd sent = map bytes_for ps.
Proof using Ht.
  intros Hcs. induction ps as [|p ps IH]; intros e stats He.
  { exists [], e. cbn. by rewrite app_nil_r. }
  destruct (Hcs p ltac:(by left)) as (c & Hu & Hp). destruct (IH ltac:(intros; apply Hcs; by right)
    (set_outbox (outbox e ++ [(c, bytes_for p)]) e) (sent_ok stats) He) as (sent & e' & E1 & E2 & E3 & E4 & E5).
  exists ((c, bytes_for p) :: sent), e'. cbn [map foldl length]. rewrite Nat.iter_succ_r. split_and!.
  - rewrite <- E1. f_equal. unfold publish_frame_to_next_hop, lookup_next_hop_conn. cbn [fst snd]. rewrite He, Hu. apply publish_to_conn_ok.
  - rewrite <- E2. f_equal. apply usable_Some in Hu as [Hu _]. rewrite Hu. cbn [default]. apply publish_to_conn_ok.
  - rewrite E3. cbn. by rewrite <- app_assoc.
  - cbn. by rewrite Hp, E4.
  - cbn. by rewrite E5.
Qed.
End Publish.
End Pass.

Lemma foldl_over_map {A B C} (f : A -> C -> A) (g : B -> C) a l : foldl f a (map g l) = foldl (fun acc x => f acc (g x)) a l.
Proof. revert a. induction l as [|x l IH]; intros a; [done|]. apply IH. Qed.

Lemma mapM_hot (cs : gmap PeerId Conn) gs es : mapM (fun g : PeerId * list PeerId => conn ← cs !! g.1; Some (mkHot g.1 g.2 conn)) gs = Some es ->
  es = map (fun g => mkHot g.1 g.2 (default (mkConn g.1 0) (cs !! g.1))) gs.
Proof.
  revert es. induction gs as [|g gs IH]; intros es; cbn; [by intros [= <-]|].
  destruct (cs !! g.1) as [c|]; [|done]. cbn. destruct (mapM _ gs) as [es'|]; [|done]. cbn. intros [= <-]. by rewrite <- (IH es').
Qed.

(** The hot topic is the only one with routes. *)
Lemma hot_spec routes cs t es : refresh_hot_route_groups routes cs = Some (t, es) ->
  exists g, routes = {[t := g]} /\ es = map (fun x => mkHot x.1 x.2 (default (mkConn x.1 0) (cs !! x.1))) (map_to_list g).
Proof.
  unfold refresh_hot_route_groups. destruct (map_to_list routes) as [|[t' g] [|]] eqn:E; try done.
  destruct (mapM _ _) as [es'|] eqn:Em; [|done]. intros [= <- <-]. exists g. split; [|by apply mapM_hot].
  rewrite <- (list_to_map_to_list routes), E. done.
Qed.

Lemma direct_list w cs peers :
  map_to_list (direct_routes w cs peers) = map (fun p => (p, [p])) (map_to_list (direct_routes w cs peers)).*1.
Proof.
  assert (forall x, x ∈ map_to_list (direct_routes w cs peers) -> x.2 = [x.1]) as Hx.
  { intros [p d] Hi%elem_of_map_to_list. by apply direct_groups_lookup in Hi as [_ ?]. }
  induction (map_to_list _) as [|[p d] l IH]; [done|]. cbn. rewrite <- IH by (intros x Hi; apply Hx; by right).
  f_equal. f_equal. apply (Hx (p, d)). by left.
Qed.

Lemma direct_list_elem w cs peers p : p ∈ (map_to_list (direct_routes w cs peers)).*1 <-> p <> local_peer_id /\ p ∈ peers /\ reachable w cs p.
Proof.
  rewrite list_elem_of_fmap. split.
  - intros ([q d] & -> & Hi%elem_of_map_to_list). apply direct_groups_lookup in Hi as [Hi _].
    apply list_elem_of_filter in Hi as [[? ?] ?%elem_of_elements]. done.
  - intros (? & ? & ?). exists (p, [p]). split; [done|]. apply elem_of_map_to_list, direct_groups_lookup.
    split; [|done]. apply list_elem_of_filter. by rewrite elem_of_elements.
Qed.

End Routes.

(** ** A run: one interested peer *)
Module OnePeer.
#[local] Existing Instance list_lru.
Definition here : PeerId := mkPeerId (replicate 32 9).
Definition there : PeerId := mkPeerId (replicate 32 1).
Definition one_world : World := {|
  lookup_connected_peer p := if decide (p = there) then Some (mkConn p 5) else None;
  has_connection_by_peer_id _ := true; is_closed _ := false; max_message_size _ := Some 1000;
  enqueue_write _ := Ok tt; buffer_available _ := true |}.
Definition pass : Pass := mkPass (0, 0) [interest_name (fun b => b) 1 there] one_world (0, 0).
Definition engine : PubSub := pubsub_new 7.
Definition refreshed : PubSub := default engine (refresh_pass (fun _ => true) Some here pass engine).
End OnePeer.

