(* ===== verification/PubSubNet.v ===== *)
(** * A network of pubsub engines

    Nodes publish, frames travel over authenticated connections, get lost or
    arrive in any order, and nodes deliver them and pass them on.  What a node
    hands to its subscribers was published, unchanged, for that node; and the
    forwarding of what was published comes to an end. *)

From S2P Require Import Prelude Types Framing ActorConflict PubSubFrame PubSub PubSubSeen PubSubRoutes.

(** ** Frames on the wire *)
Record Frame := mkFrame { f_from : PeerId; f_to : PeerId; f_bytes : list Z }.

(** What was published: the message, its hop limit and whom it was for. *)
Record Published := mkPublished { p_message : Message; p_hops : Z; p_addressed : list PeerId }.

Definition message_key (m : Message) : PeerId * Z := (m_origin m, m_id m).

Section Net.
Context `{LruCache}.
Context (valid_key : list Z -> bool) (hex_decode : list Z -> option (list Z)).

Record Net := mkNet { engines : gmap PeerId PubSub; flight : list Frame; published : list Published }.

(** What the engine handed to its connections since the last time. *)
Definition collect (n : PeerId) (e : PubSub) : PubSub * list Frame :=
  (set_outbox [] e, map (fun x => mkFrame n (conn_peer x.1) x.2) (outbox e)).

(** The destinations of a publication. *)
Definition addressed (n : PeerId) (e : PubSub) (topic : Z) (scope : PubSubScope) : list PeerId :=
  match scope with
  | LocalOnly => []
  | AutoExternal | ClusterWide =>
      let table := match route_groups e !! topic with Some g => concat (map_to_list g).*2 | None => [] end in
      match hot_route_groups e with
      | Some (hot_topic, es) => if hot_topic =? topic then concat (map hot_destinations es) else table
      | None => table
      end
  | SelectedPeers peers =>
      concat (map_to_list (match route_provider e with
                           | Some provider => provider topic peers
                           | None => direct_groups (filter (fun p => p <> n) peers)
                           end)).*2
  end.

(** A provider sends groups of what it was given, no larger than a frame can name. *)
Definition provider_ok (provider : RouteProvider) : Prop :=
  forall topic ds h g, provider topic ds !! h = Some g -> (forall p, p ∈ g -> p ∈ ds) /\ len g <= u16_max.

(** Everything else a node does. *)
Inductive local_op (n : PeerId) : PubSub -> PubSub -> Prop :=
  | op_subscribe topic ty e : local_op n e (subscribe_bytes topic ty e).1
  | op_subscribe_borrowed topic ty e : local_op n e (subscribe_borrowed_bytes topic ty e).1
  | op_subscribe_type ty e : local_op n e (subscribe_type_bytes ty e).1
  | op_unsubscribe sub e : local_op n e (unsubscribe sub e).1
  | op_worker id d s e : worker_take id (subs e) = Some (d, s) -> local_op n e (set_subs s e)
  | op_deliver topic ty body e : local_op n e (set_subs (deliver_local topic ty body (subs e)).1.1 e)
  | op_provider provider e : provider_ok provider -> local_op n e (set_route_provider provider e)
  | op_refresh passes e e' : refresh_control_plane valid_key hex_decode n passes e = Some e' -> local_op n e e'.

Definition update (n : PeerId) (e : PubSub) (rest : list Frame) (pubs : list Published) (net : Net) : Net :=
  let '(e, frames) := collect n e in mkNet (<[n := e]> (engines net)) (rest ++ frames) pubs.

(** The fields of a publication are in the range of their types, and it goes to
    other nodes. *)
Definition publish_args_ok (topic ty : Z) (scope : PubSubScope) (policy : PubSubDeliveryPolicy) (ns : Z) (body : list Z) : Prop :=
  0 <= topic <= u64_max /\ 0 <= ty <= u64_max /\ 0 <= ns <= u64_max /\ 0 <= hops_limit policy <= u8_max
  /\ 0 < hops_limit policy /\ policy_mode policy = AtMostOnce
  /\ match scope with SelectedPeers peers => Forall peer_ok peers | LocalOnly => False | _ => True end.

(** A frame arrives at its node, or is lost. *)
Inductive wire_step : Net -> Net -> Prop :=
  | wire_receive i fr w net e e' r : flight net !! i = Some fr -> engines net !! f_to fr = Some e ->
      handle_pubsub_frame valid_key (f_to fr) w (f_from fr) (drop 16 (f_bytes fr)) e = (e', r) ->
      wire_step net (update (f_to fr) e' (delete i (flight net)) (published net) net)
  | wire_lose i fr net : flight net !! i = Some fr ->
      wire_step net (mkNet (engines net) (delete i (flight net)) (published net)).

Inductive local_step : Net -> Net -> Prop :=
  | node_local n net e e' : engines net !! n = Some e -> local_op n e e' ->
      local_step net (mkNet (<[n := e']> (engines net)) (flight net) (published net)).

Inductive net_step : Net -> Net -> Prop :=
  | net_publish n w topic ty body scope policy ns net e e' r : engines net !! n = Some e ->
      publish_args_ok topic ty scope policy ns body -> next_msg_id e < u64_max ->
      publish_remote_bytes_with_metadata n w topic ty body scope policy ns e = (e', r) ->
      net_step net (update n e' (flight net)
        (mkPublished (mkMessage topic ty (take_msg_id e).2 n (policy_mode policy) ns body) (hops_limit policy)
           (addressed n e topic scope) :: published net) net)
  | net_wire net net' : wire_step net net' -> net_step net net'
  | net_local net net' : local_step net net' -> net_step net net'.

(** Nodes with keys of their own and epochs drawn at their start. *)
Definition net_start (nodes : gmap PeerId Z) : Net := mkNet (pubsub_new <$> nodes) [] [].

(** ** Steps, computed *)
Definition publish_now (n : PeerId) (w : World) (topic ty : Z) (body : list Z) (scope : PubSubScope) (policy : PubSubDeliveryPolicy) (net : Net) : Net :=
  match engines net !! n with
  | Some e =>
      update n (publish_remote_bytes_with_metadata n w topic ty body scope policy 0 e).1 (flight net)
        (mkPublished (mkMessage topic ty (take_msg_id e).2 n (policy_mode policy) 0 body) (hops_limit policy) (addressed n e topic scope)
           :: published net) net
  | None => net
  end.

Lemma publish_now_step n w topic ty body scope policy net : publish_args_ok topic ty scope policy 0 body ->
  match engines net !! n with Some e => next_msg_id e <? u64_max | None => false end = true ->
  net_step net (publish_now n w topic ty body scope policy net).
Proof.
  intros Ha He. unfold publish_now. destruct (engines net !! n) as [e|] eqn:E; [|done].
  eapply net_publish; [done..|by apply Z.ltb_lt|apply surjective_pairing].
Qed.

Definition receive_now (i : nat) (w : World) (net : Net) : Net :=
  match flight net !! i with
  | Some fr =>
      match engines net !! f_to fr with
      | Some e =>
          update (f_to fr) (handle_pubsub_frame valid_key (f_to fr) w (f_from fr) (drop 16 (f_bytes fr)) e).1 (delete i (flight net)) (published net) net
      | None => net
      end
  | None => net
  end.

Lemma receive_now_step i w net :
  match flight net !! i with Some fr => bool_decide (is_Some (engines net !! f_to fr)) | None => false end = true ->
  net_step net (receive_now i w net).
Proof.
  unfold receive_now. destruct (flight net !! i) as [fr|] eqn:Ei; [|done]. intros (e & E)%bool_decide_eq_true. rewrite E.
  eapply net_wire, wire_receive; [done..|apply surjective_pairing].
Qed.

Definition locally (n : PeerId) (f : PubSub -> PubSub) (net : Net) : Net :=
  match engines net !! n with Some e => mkNet (<[n := f e]> (engines net)) (flight net) (published net) | None => net end.

Lemma locally_step n f net : (forall e, local_op n e (f e)) -> bool_decide (is_Some (engines net !! n)) = true -> net_step net (locally n f net).
Proof. intros Hf (e & E)%bool_decide_eq_true. unfold locally. rewrite E. eapply net_local, node_local; eauto. Qed.

Lemma locally_all ops : Forall (fun x : PeerId * (PubSub -> PubSub) => forall e, local_op x.1 e (x.2 e)) ops -> forall net,
  star net_step net (foldl (fun net x => locally x.1 x.2 net) net ops).
Proof.
  induction 1 as [|[n f] ops Hf _ IH]; intros net; cbn [foldl fst snd]; [apply star_refl|]. eapply star_trans; [|apply IH].
  destruct (engines net !! n) as [e|] eqn:E; [apply star_one, locally_step; [done|by apply bool_decide_eq_true; rewrite E]|].
  unfold locally. rewrite E. apply star_refl.
Qed.

(** ** What sending adds to the outbox *)
Record sends (P : Conn * list Z -> Prop) (e e' : PubSub) : Prop := {
  se_outbox : exists sent, outbox e' = outbox e ++ sent /\ Forall P sent;
  se_subs : subs e' = subs e;
  se_seen : seen_messages e' = seen_messages e;
  se_routes : route_groups e' = route_groups e;
  se_hot : hot_route_groups e' = hot_route_groups e;
  se_provider : route_provider e' = route_provider e;
  se_ids : (msg_id_epoch e', next_msg_id e') = (msg_id_epoch e, next_msg_id e);
}.

(** Changes of what sending does not look at. *)
Lemma sends_eq P e e' : outbox e' = outbox e -> subs e' = subs e -> seen_messages e' = seen_messages e -> route_groups e' = route_groups e ->
  hot_route_groups e' = hot_route_groups e -> route_provider e' = route_provider e ->
  (msg_id_epoch e', next_msg_id e') = (msg_id_epoch e, next_msg_id e) -> sends P e e'.
Proof. intros E ? ? ? ? ? ?. split; try done. exists []. by rewrite app_nil_r. Qed.

Lemma sends_refl P e : sends P e e.
Proof. by apply sends_eq. Qed.

Lemma sends_trans P e1 e2 e3 : sends P e1 e2 -> sends P e2 e3 -> sends P e1 e3.
Proof.
  intros [(s1 & E1 & F1) ? ? ? ? ? ?] [(s2 & E2 & F2) ? ? ? ? ? ?]. split; try congruence.
  exists (s1 ++ s2). rewrite E2, E1, app_assoc. split; [done|]. by apply Forall_app.
Qed.

Lemma sends_mono (P Q : Conn * list Z -> Prop) e e' : (forall x, P x -> Q x) -> sends P e e' -> sends Q e e'.
Proof.
  intros Hpq [(s1 & E1 & F1) ? ? ? ? ? ?]. split; try done. exists s1. split; [done|]. by eapply list.Forall_impl.
Qed.

Lemma sends_fold {A} P (f : PubSub -> A -> PubSub) (l : list A) : (forall e x, x ∈ l -> sends P e (f e x)) -> forall e, sends P e (foldl f e l).
Proof.
  induction l as [|x l IH]; intros Hf e; cbn; [apply sends_refl|].
  eapply sends_trans; [apply Hf; by left|]. apply IH. intros; apply Hf; by right.
Qed.

(** The bytes carry the message with these hops to some of these destinations. *)
Definition carries (m : Message) (source : PeerId) (hops : Z) (dss : list (list PeerId)) (bytes : list Z) : Prop :=
  exists ds, ds ∈ dss /\ drop 16 bytes
    = write_fast_frame [] (m_topic m) (m_type m) (m_id m) (m_origin m) source hops (m_mode m) (m_ns m) ds (m_payload m).

Lemma prefix_length n h : try_write_pubsub_frame_prefix n = Ok h -> 0 <= n -> length h = 16%nat.
Proof.
  intros E Hn. assert (PUBSUB_HEADER_LEN + n <= CONTROL_BODY_LEN_MASK) as Hl.
  { unfold try_write_pubsub_frame_prefix in E. destruct (try_checked_body_len _ _) eqn:Ec; [|done..]. by eapply try_checked_body_len_fits. }
  rewrite pubsub_layout in E by done. by injection E as <-.
Qed.

Lemma frame_len_nonneg ds body : 0 <= fast_frame_len ds body.
Proof.
  pose proof (len_nonneg ds). pose proof (len_nonneg body).
  unfold fast_frame_len, saturating_add, saturating_mul, FAST_FRAME_HEADER_LEN, FAST_FRAME_DEST_PEER_LEN. unfold_widths. lia.
Qed.

Lemma try_frame_ok w conn frame ds body b : try_pubsub_frame_pooled w conn frame (fast_frame_len ds body) = Ok b -> drop 16 b = frame.
Proof.
  unfold try_pubsub_frame_pooled. destruct (max_message_size w conn) as [max|]; [|by destruct (try_write_pubsub_frame_prefix _)].
  destruct (reject_oversize_for_inline_send _ _ _); [|done..]. cbn [mbind Result_bind].
  destruct (try_write_pubsub_frame_prefix _) as [h| |] eqn:E; [|done..]. cbn [mbind Result_bind].
  destruct (enqueue_write w conn); [|done..]. cbn [mbind Result_bind]. intros [= <-].
  by rewrite drop_app_length' by (symmetry; eapply prefix_length; [exact E|apply frame_len_nonneg]).
Qed.

Lemma sends_bump P c n e : sends P e (bump c n e).
Proof. by apply sends_eq. Qed.

Lemma sends_lookup P w h e : sends P e (lookup_next_hop_conn w h e).1.
Proof.
  unfold lookup_next_hop_conn. repeat case_match; cbn; by apply sends_eq.
Qed.

Lemma sends_out (P : Conn * list Z -> Prop) x e : P x -> sends P e (set_outbox (outbox e ++ [x]) e).
Proof. intros Hx. split; try done. exists [x]. split; [done|]. by apply list.Forall_singleton. Qed.

Section Sends.
Context (n : PeerId) (w : World) (m : Message) (hops : Z).

Lemma sends_to_conn conn ds acc :
  sends (fun x => carries m n hops [ds] x.2) acc.1 (publish_frame_to_conn n w m hops conn ds acc).1.
Proof.
  destruct acc as [e stats]. unfold publish_frame_to_conn, encode_fast_frame_pooled. destruct (buffer_available _ _); [|apply sends_bump].
  destruct (try_pubsub_frame_pooled _ _ _ _) as [b|err|] eqn:E; cbn [fst].
  - apply sends_out. cbn. exists ds. split; [by left|]. by eapply try_frame_ok.
  - destruct err; cbn; apply sends_refl || apply sends_bump.
  - apply sends_refl.
Qed.

Lemma sends_to_next_hop g acc :
  sends (fun x => carries m n hops [g.2] x.2) acc.1 (publish_frame_to_next_hop n w m hops acc g).1.
Proof.
  destruct acc as [e stats]. unfold publish_frame_to_next_hop. pose proof (sends_lookup (fun x => carries m n hops [g.2] x.2) w g.1 e) as Hl.
  destruct (lookup_next_hop_conn w g.1 e) as [e' [conn|err|]]; cbn [fst] in *; [|done..].
  eapply sends_trans; [exact Hl|]. apply (sends_to_conn conn g.2 (e', stats)).
Qed.

Lemma sends_groups gs acc :
  sends (fun x => carries m n hops gs.*2 x.2) acc.1 (foldl (publish_frame_to_next_hop n w m hops) acc gs).1.
Proof.
  revert acc. induction gs as [|g gs IH]; intros acc; cbn; [apply sends_refl|]. eapply sends_trans.
  - eapply sends_mono; [|apply sends_to_next_hop]. intros x (ds & ->%list_elem_of_singleton & E). exists g.2. split; [by left|done].
  - eapply sends_mono; [|apply IH]. intros x (ds & Hd & E). exists ds. split; [by right|done].
Qed.

Lemma sends_hot es acc :
  sends (fun x => carries m n hops (map hot_destinations es) x.2) acc.1
    (foldl (fun acc entry => publish_frame_to_conn n w m hops (hot_conn entry) (hot_destinations entry) acc) acc es).1.
Proof.
  revert acc. induction es as [|en es IH]; intros acc; cbn; [apply sends_refl|]. eapply sends_trans.
  - eapply sends_mono; [|apply sends_to_conn]. intros x (ds & ->%list_elem_of_singleton & E). exists (hot_destinations en). split; [by left|done].
  - eapply sends_mono; [|apply IH]. intros x (ds & Hd & E). exists ds. split; [by right|done].
Qed.

Lemma sends_forward_to e g : sends (fun x => carries m n hops [g.2] x.2) e (forward_to n w m hops e g).
Proof.
  unfold forward_to, encode_fast_frame_pooled. destruct (buffer_available _ _); [|apply sends_bump].
  pose proof (sends_lookup (fun x => carries m n hops [g.2] x.2) w g.1 e) as Hl.
  destruct (lookup_next_hop_conn w g.1 e) as [e' [conn|err|]]; cbn [fst] in *; [|done..].
  eapply sends_trans; [exact Hl|]. destruct (try_pubsub_frame_pooled _ _ _ _) as [b|err|] eqn:E.
  - eapply sends_trans; [|apply sends_bump]. apply sends_out. exists g.2. split; [by left|]. by eapply try_frame_ok.
  - destruct err; apply sends_refl || apply sends_bump.
  - apply sends_refl.
Qed.
End Sends.

(** ** What an incoming frame does *)
Definition remaining (n : PeerId) (v : FastFrameView) : list PeerId :=
  filter (fun p => peer_bytes p <> peer_bytes n) (destination_peer_iter valid_key v).

(** A frame that passes on what was read. *)
Definition passed_on (n : PeerId) (e : PubSub) (v : FastFrameView) (x : Conn * list Z) : Prop :=
  1 < hops_remaining v /\ exists origin, peer_from_bytes valid_key (origin_peer_id v) = Some origin
  /\ carries (mkMessage (topic_key v) (type_hash v) (msg_id v) origin (mode v) (publisher_enqueued_ns v) (payload v)) n
       (hops_remaining v - 1) (map_to_list (group_destinations e (topic_key v) (remaining n v))).*2 x.2.

(** A new frame is handed to the subscribers, if it is for this node, and passed on. *)
Definition taken_in (n : PeerId) (src : PeerId) (bytes : list Z) (e e' : PubSub) : Prop :=
  exists v s, parse_fast_frame bytes = Some v /\ eligible n src bytes (origin_peer_id v, msg_id v)
  /\ (accept_seen_bytes (origin_peer_id v) (msg_id v) (seen_messages e)).2 = true
  /\ (s = subs e \/ Some (peer_bytes n) ∈ map (destination_peer_bytes_at v) (destination_indices v)
       /\ s = (deliver_local_borrowed (topic_key v) (type_hash v) (payload v) (publisher_enqueued_ns v) (subs e)).1.1)
  /\ sends (passed_on n e v) (set_seen (accept_seen_bytes (origin_peer_id v) (msg_id v) (seen_messages e)).1 (set_subs s e)) e'.

Lemma scan_here n v elsewhere : scan_destinations n v = Some (true, elsewhere) ->
  Some (peer_bytes n) ∈ map (destination_peer_bytes_at v) (destination_indices v).
Proof.
  unfold scan_destinations. generalize (destination_indices v). intros l. revert elsewhere.
  induction l as [|i l IH]; intros elsewhere; cbn [foldr map]; [done|]. destruct (destination_peer_bytes_at v i) as [p|]; [|done].
  destruct (foldr _ _ l) as [[here els]|]; [|done]. case_bool_decide; [subst; intros _; by left|]. intros [= -> _]. right. by eapply IH.
Qed.

Lemma handle_cases n w src bytes e : let e' := (handle_pubsub_frame valid_key n w src bytes e).1 in
  (exists c, sends (fun _ => False) (set_seen c e) e') \/ taken_in n src bytes e e'.
Proof.
  cbn zeta. unfold handle_pubsub_frame. case_bool_decide; [|left; by eexists; apply sends_eq]. unfold handle_fast_pubsub_frame.
  destruct (parse_fast_frame bytes) as [v|] eqn:Ev; [|left; by eexists; apply sends_eq].
  destruct (Z.eqb_spec (hops_remaining v) 0); [left; by eexists; apply sends_eq|].
  case_bool_decide as Es; [|left; by eexists; apply sends_eq]. cbn [negb]. case_bool_decide; [left; by eexists; apply sends_eq|].
  case_bool_decide as Hl; [left; by eexists; apply sends_eq|]. cbn [orb].
  assert (eligible n src bytes (origin_peer_id v, msg_id v)) as He.
  { exists v. split_and!; try done. intros ->. done. }
  destruct (accept_seen_bytes _ _ _) as [seen fresh] eqn:Ea. destruct fresh; cbn [negb fst]; [|left; by eexists; apply sends_eq].
  destruct (scan_destinations n v) as [[here elsewhere]|] eqn:Esc; cbn [fst]; [|left; by eexists; apply sends_eq].
  right. set (d := deliver_local_borrowed (topic_key v) (type_hash v) (payload v) (publisher_enqueued_ns v) (subs e)).
  exists v, (if here then d.1.1 else subs e). rewrite Ea. do 3 (split; [done|]). split.
  { destruct here; [right|by left]. split; [by eapply scan_here|done]. }
  set (s := if here then d.1.1 else subs e). set (e1 := if here then _ else _).
  assert (forall P, sends P (set_seen seen (set_subs s e)) e1) as Hsent.
  { intros P. unfold e1, s. destruct here; [|by apply sends_eq]. cbn [seen_messages set_seen bump subs]. fold d. destruct d as [[s' k1] k2]. by apply sends_eq. }
  assert (route_provider e1 = route_provider e) as Ep by exact (se_provider _ _ _ (Hsent (fun _ => True))). clearbody e1.
  destruct (hops_remaining v <=? 1) eqn:Eh; [apply Hsent|]. apply Z.leb_gt in Eh. destruct elsewhere; [|apply Hsent].
  unfold forward. destruct (peer_from_bytes valid_key (origin_peer_id v)) as [origin|] eqn:Eo; cbn [fst].
  2: { eapply sends_trans; [apply Hsent|apply sends_bump]. }
  eapply sends_trans; [apply Hsent|]. apply sends_fold. intros e2 g Hg. eapply sends_mono; [|apply sends_forward_to].
  intros x (ds & ->%list_elem_of_singleton & E). split; [done|]. exists origin. split; [done|]. exists g.2.
  unfold group_destinations in *. rewrite Ep in Hg. split; [by apply list_elem_of_fmap_2|].
  unfold saturating_sub in E. by rewrite Z.max_r in E by lia.
Qed.

(** ** What publishing does *)
Definition message_of (n : PeerId) (topic ty : Z) (body : list Z) (policy : PubSubDeliveryPolicy) (ns : Z) (e : PubSub) : Message :=
  mkMessage topic ty (take_msg_id e).2 n (policy_mode policy) ns body.

Lemma publish_sends n w topic ty body scope policy ns e e' r : publish_args_ok topic ty scope policy ns body ->
  publish_remote_bytes_with_metadata n w topic ty body scope policy ns e = (e', r) ->
  exists dss, concat dss = addressed n e topic scope
  /\ sends (fun x => carries (message_of n topic ty body policy ns e) n (hops_limit policy) dss x.2) (take_msg_id e).1 e'.
Proof.
  intros (_ & _ & _ & _ & Hh & Hm & Hs). unfold publish_remote_bytes_with_metadata, publish_remote_bytes_inner_with_metadata.
  rewrite Hm. cbn [validate_delivery_mode]. rewrite (proj2 (Z.eqb_neq _ _)), orb_false_r by lia. destruct (take_msg_id e) as [e0 id] eqn:Et.
  assert (forall gs, sends (fun x => carries (message_of n topic ty body policy ns e) n (hops_limit policy) gs.*2 x.2) e0
    (foldl (publish_frame_to_next_hop n w (mkMessage topic ty id n AtMostOnce ns body) (hops_limit policy)) (e0, stats_new) gs).1) as Hg.
  { intros gs. unfold message_of. rewrite Hm, Et. apply (sends_groups n w _ _ gs (e0, stats_new)). }
  assert (forall es, sends (fun x => carries (message_of n topic ty body policy ns e) n (hops_limit policy) (map hot_destinations es) x.2) e0
    (foldl (fun acc en => publish_frame_to_conn n w (mkMessage topic ty id n AtMostOnce ns body) (hops_limit policy) (hot_conn en) (hot_destinations en) acc)
       (e0, stats_new) es).1) as Hho.
  { intros es. unfold message_of. rewrite Hm, Et. apply (sends_hot n w _ _ es (e0, stats_new)). }
  assert (route_groups e0 = route_groups e /\ hot_route_groups e0 = hot_route_groups e /\ route_provider e0 = route_provider e) as (E1 & E2 & E3).
  { unfold take_msg_id in Et. by injection Et as <- _. }
  clear Et. unfold addressed. cbn [fst].
  destruct scope as [| |peers|]; [done| | |]; cbn [orb].
  2: { rewrite E3. intros Heq. eexists. split; [reflexivity|]. set (gs := map_to_list _) in *. specialize (Hg gs). destruct (foldl _ _ gs); by injection Heq as <- _. }
  all: rewrite E1, E2; intros Heq.
  all: destruct (hot_route_groups e) as [[t es]|]; [destruct (t =? topic)|].
  all: try (exists (map hot_destinations es); split; [done|]; specialize (Hho es); destruct (foldl _ _ es); by injection Heq as <- _).
  all: destruct (route_groups e !! topic) as [g|]; [|exists []; split; [done|]; injection Heq as <- _; apply sends_refl].
  all: exists (map_to_list g).*2; split; [done|]; specialize (Hg (map_to_list g)); destruct (foldl _ _ (map_to_list g)); by injection Heq as <- _.
Qed.

(** ** Destinations are keys *)
Record routes_ok (e : PubSub) : Prop := {
  ro_groups t g h ds : route_groups e !! t = Some g -> g !! h = Some ds -> Forall peer_ok ds;
  ro_hot t es en : hot_route_groups e = Some (t, es) -> en ∈ es -> Forall peer_ok (hot_destinations en);
  ro_provider provider : route_provider e = Some provider -> provider_ok provider;
}.

Lemma routes_ok_eq e e' : route_groups e' = route_groups e -> hot_route_groups e' = hot_route_groups e ->
  route_provider e' = route_provider e -> routes_ok e -> routes_ok e'.
Proof. intros E1 E2 E3 []. split; rewrite ?E1, ?E2, ?E3; done. Qed.

Lemma group_ok e topic ps h ds : routes_ok e -> group_destinations e topic ps !! h = Some ds -> forall p, p ∈ ds -> p ∈ ps.
Proof.
  intros [_ _ Hp]. unfold group_destinations. destruct (route_provider e) as [provider|].
  - intros E. by apply (Hp provider eq_refl) in E as [? _].
  - intros [Hh ->]%direct_groups_lookup p ->%list_elem_of_singleton. done.
Qed.

Lemma peer_from_ok bytes p : peer_from_bytes valid_key bytes = Some p -> peer_ok p /\ bytes = peer_bytes p.
Proof.
  unfold peer_from_bytes, peer_ok, len. destruct (Z.eqb_spec (Z.of_nat (length bytes)) 32); [|done]. cbn [negb].
  destruct (valid_key bytes); [|done]. intros [= <-]. split; [|done]. cbn. lia.
Qed.

Lemma interests_peers names t p : p ∈ default ∅ (interests valid_key hex_decode names !! t) -> peer_ok p.
Proof.
  rewrite interests_elem. intros (name & _ & E). unfold parse_interest_name in E.
  apply bind_Some in E as (r1 & _ & E). apply bind_Some in E as (r2 & _ & E). apply bind_Some in E as ([t' r3] & _ & E).
  apply bind_Some in E as (t'' & _ & E). apply bind_Some in E as (bytes & _ & E). apply bind_Some in E as (q & Eq & E).
  injection E as _ <-. by apply peer_from_ok in Eq as [? _].
Qed.

Lemma route_group_sub w gs acc h ds : (foldl (route_group w) acc gs).1 !! h = Some ds -> acc.1 !! h = Some ds \/ (h, ds) ∈ gs.
Proof.
  revert acc. induction gs as [|[h' ds'] gs IH]; intros [r cs]; cbn [foldl]; [by left|]. intros [E|E]%IH; [|right; by right].
  revert E. unfold route_group. cbn [fst]. repeat case_match; cbn [fst]; try by left.
  all: intros [[-> ->]|[_ E]]%lookup_insert_Some; [right; by left|by left].
Qed.

Lemma route_topic_sub n w e ts acc t g : (foldl (route_topic n w e) acc ts).1 !! t = Some g ->
  acc.1 !! t = Some g \/ exists peers : gset PeerId, (t, peers) ∈ ts
    /\ forall h ds, g !! h = Some ds -> group_destinations e t (filter (fun p => p <> n) (elements peers)) !! h = Some ds.
Proof.
  revert acc. induction ts as [|[t' ps] ts IH]; intros [r cs]; cbn [foldl]; [by left|].
  intros [E|(peers & Hi & Hg)]%IH; [|right; exists peers; split; [by right|done]].
  revert E. unfold route_topic. cbn [fst]. destruct (filter _ (elements ps)) as [|p l] eqn:Ef; [by left|]. rewrite <- Ef. clear Ef p l.
  destruct (foldl (route_group w) _ _) as [routable cs'] eqn:Eg. case_bool_decide; [by left|]. cbn [fst].
  intros [[-> ->]|[_ E]]%lookup_insert_Some; [|by left]. right. exists ps. split; [by left|]. intros h ds Hh.
  pose proof (route_group_sub w (map_to_list (group_destinations e t (filter (fun p => p <> n) (elements ps)))) (∅, cs) h ds) as Hs.
  rewrite Eg in Hs. destruct (Hs Hh) as [E|E]; [cbn in E; by rewrite lookup_empty in E|by apply elem_of_map_to_list].
Qed.

Lemma build_ok n w ns e t g h ds : routes_ok e -> (build_routes valid_key hex_decode n w ns e).1 !! t = Some g -> g !! h = Some ds -> Forall peer_ok ds.
Proof.
  intros Hok E Hh. unfold build_routes in E. destruct (foldl _ _ _) as [routes cs] eqn:Ef. cbn [fst] in E.
  pose proof (route_topic_sub n w e (map_to_list (interests valid_key hex_decode ns)) (∅, conns e) t g) as Hs. rewrite Ef in Hs.
  destruct (Hs E) as [E'|(peers & Hi%elem_of_map_to_list & Hg)]; [cbn in E'; by rewrite lookup_empty in E'|].
  apply list.Forall_forall. intros p Hp. pose proof (group_ok _ _ _ _ _ Hok (Hg _ _ Hh) p Hp) as Hin.
  apply list_elem_of_filter in Hin as [_ Hin%elem_of_elements]. eapply (interests_peers ns t). by rewrite Hi.
Qed.

Lemma refresh_ok n passes e e' : routes_ok e -> refresh_control_plane valid_key hex_decode n passes e = Some e' -> routes_ok e'.
Proof.
  intros Hok. induction passes as [|p passes IH]; cbn; [done|]. unfold refresh_pass. destruct (up_to_date p e); [by intros [= <-]|].
  destruct (build_routes valid_key hex_decode n (world p) (names p) e) as [routes cs] eqn:Eb. case_bool_decide; [|done]. intros [= <-].
  assert (forall t g h ds, routes !! t = Some g -> g !! h = Some ds -> Forall peer_ok ds) as Hr.
  { intros t g h ds Ht. eapply (build_ok n (world p) (names p)); [done|]. by rewrite Eb. }
  split; cbn; [done| |apply (ro_provider _ Hok)].
  intros t es en (g & -> & ->)%hot_spec ([h ds] & -> & Hx%elem_of_map_to_list)%list_elem_of_fmap.
  eapply Hr; [apply lookup_singleton_eq|exact Hx].
Qed.

(** What a local operation leaves alone. *)
Lemma local_keeps n e e' : local_op n e e' -> routes_ok e ->
  routes_ok e' /\ outbox e' = outbox e /\ seen_messages e' = seen_messages e
  /\ (msg_id_epoch e', next_msg_id e') = (msg_id_epoch e, next_msg_id e).
Proof.
  assert (forall t b (x : PubSub), routes_ok x -> routes_ok (note t b x) /\ outbox (note t b x) = outbox x /\ seen_messages (note t b x) = seen_messages x
    /\ (msg_id_epoch (note t b x), next_msg_id (note t b x)) = (msg_id_epoch x, next_msg_id x)) as Hn.
  { intros t b x Hx. unfold note. destruct (note_interest t b (interest x)). split_and!; try done. by apply (routes_ok_eq x). }
  assert (forall s (x : PubSub), routes_ok x -> routes_ok (set_subs s x)) as Hs by (intros s x Hx; by apply (routes_ok_eq x)).
  assert (forall k id (x : PubSub), routes_ok x -> routes_ok (remove_subscription k id x).1 /\ outbox (remove_subscription k id x).1 = outbox x
    /\ seen_messages (remove_subscription k id x).1 = seen_messages x
    /\ (msg_id_epoch (remove_subscription k id x).1, next_msg_id (remove_subscription k id x).1) = (msg_id_epoch x, next_msg_id x)) as Hr.
  { intros k id x Hx. destruct k; cbn; unfold remove_owned_subscriber, remove_borrowed_subscriber; case_match; cbn [fst]; try done.
    1, 2: apply (Hn _ false (set_subs _ x)); by apply Hs. split_and!; try done. by apply Hs. }
  intros Hop Hok. destruct Hop as [topic ty e|topic ty e|ty e|sub e|id d s e Hw|topic ty body e|provider e Hp|passes e e' Hp].
  - unfold subscribe_bytes. destruct (add_owned_subscriber _ _). apply (Hn _ true (set_subs _ e)). by apply Hs.
  - unfold subscribe_borrowed_bytes. destruct (add_borrowed_subscriber _ _). apply (Hn _ true (set_subs _ e)). by apply Hs.
  - unfold subscribe_type_bytes. destruct (add_type_subscriber _ _). split_and!; try done. by apply Hs.
  - unfold unsubscribe, release. destruct (released sub) eqn:Er; cbn [fst]; [by rewrite Er|].
    pose proof (Hr (kind sub) (sub_id sub) e Hok) as Hx. by destruct (remove_subscription _ _ _).
  - split_and!; try done. by apply Hs.
  - split_and!; try done. by apply Hs.
  - split_and!; try done. destruct Hok. split; try done. cbn. by intros ? [= <-].
  - split; [by eapply refresh_ok|]. clear Hok. induction passes as [|p passes IH]; [done|]. cbn in Hp. revert Hp. unfold refresh_pass.
    destruct (up_to_date p e); [by intros [= <-]|]. destruct (build_routes _ _ _ _ _ _). case_bool_decide; [by intros [= <-]|done].
Qed.

(** ** The invariant *)
Record published_ok (p : Published) : Prop := {
  po_topic : 0 <= m_topic (p_message p) <= u64_max;
  po_type : 0 <= m_type (p_message p) <= u64_max;
  po_id : 0 <= m_id (p_message p) < 2 ^ 128;
  po_ns : 0 <= m_ns (p_message p) <= u64_max;
  po_origin : peer_ok (m_origin (p_message p));
}.

(** The frame carries what was published to some of those it was published for. *)
Definition frame_ok (pubs : list Published) (fr : Frame) : Prop :=
  exists p hops ds, p ∈ pubs /\ 0 < hops <= p_hops p /\ Forall peer_ok ds /\ (forall d, d ∈ ds -> d ∈ p_addressed p)
    /\ peer_ok (f_from fr) /\ carries (p_message p) (f_from fr) hops [ds] (f_bytes fr).

Definition seen_key (p : Published) : SeenMessageKey := (peer_bytes (m_origin (p_message p)), m_id (p_message p)).
End Net.
