(* ===== verification/PubSubDelivery.v ===== *)
(** * What pubsub subscribers are handed

    An invariant of the network of engines in [PubSubNet]: every frame under way
    carries a published message to nodes it was published for.  So a node hands
    its subscribers only what was published, and each message once. *)

From S2P Require Import Prelude Types Framing ActorConflict PubSubFrame PubSub PubSubSeen PubSubRoutes PubSubNet.

Section Delivery.
Context `{LruLaws}.
Context (valid_key : list Z -> bool) (hex_decode : list Z -> option (list Z)).

Record engine_ok (pubs : list Published) (n : PeerId) (e : PubSub) : Prop := {
  eo_peer : peer_ok n;
  eo_outbox : outbox e = [];
  eo_routes : routes_ok e;
  eo_epoch : 1 <= msg_id_epoch e <= u64_max;
  eo_next : 0 <= next_msg_id e <= u64_max;
  eo_ids p : p ∈ pubs -> m_origin (p_message p) = n ->
    exists k, 0 <= k < next_msg_id e /\ m_id (p_message p) = Z.lor (Z.shiftl (msg_id_epoch e) 64) k;
  eo_cache : cache_ok (seen_messages e);
  eo_seen k : k ∈ lru_keys (seen_messages e) -> k ∈ map seen_key pubs;
}.

Record net_ok (net : Net) : Prop := {
  no_engines n e : engines net !! n = Some e -> engine_ok (published net) n e;
  no_published : Forall published_ok (published net);
  no_keys : NoDup (map (fun p => message_key (p_message p)) (published net));
  no_flight : Forall (frame_ok (published net)) (flight net);
}.

(** Nodes are keys, and their epochs are 64-bit numbers. *)
Definition nodes_ok (nodes : gmap PeerId Z) : Prop :=
  forall n entropy, nodes !! n = Some entropy -> peer_ok n /\ 0 <= entropy <= u64_max.

Lemma start_ok nodes : nodes_ok nodes -> net_ok (net_start nodes).
Proof.
  intros Hn. split; [|apply list.Forall_nil|apply list.NoDup_nil|apply list.Forall_nil]; try done.
  intros n e (entropy & <- & He)%lookup_fmap_Some. destruct (Hn _ _ He) as [Hp Hb].
  split; cbn [pubsub_new outbox msg_id_epoch next_msg_id seen_messages published net_start]; try done.
  - unfold new_msg_id_epoch. unfold_widths. lia.
  - by intros p Hi%not_elem_of_nil.
  - split; [rewrite lru_new_keys; constructor|apply lru_new_cap].
  - intros k. rewrite lru_new_keys. by intros Hi%not_elem_of_nil.
Qed.

(** ** Reading a frame under way *)
Lemma frame_view pubs fr v : Forall published_ok pubs -> frame_ok pubs fr -> parse_fast_frame (drop 16 (f_bytes fr)) = Some v ->
  exists p hops ds, p ∈ pubs /\ 0 < hops <= p_hops p /\ Forall peer_ok ds /\ (forall d, d ∈ ds -> d ∈ p_addressed p)
    /\ (m_topic (p_message p), m_type (p_message p), m_id (p_message p), m_ns (p_message p)) = (topic_key v, type_hash v, msg_id v, publisher_enqueued_ns v)
    /\ (m_mode (p_message p), m_payload (p_message p), peer_bytes (m_origin (p_message p))) = (mode v, payload v, origin_peer_id v)
    /\ hops_remaining v = hops
    /\ map (destination_peer_bytes_at v) (destination_indices v) = map (fun p => Some (peer_bytes p)) (written_destinations ds)
    /\ destination_peer_iter valid_key v = filter (fun p => valid_key (peer_bytes p) = true) (written_destinations ds).
Proof.
  intros Hp (p & hops & ds & Hi & Hh & Hd & Ha & Hf & ds' & ->%list_elem_of_singleton & E).
  destruct (proj1 (list.Forall_forall _ _) Hp p Hi). rewrite E.
  rewrite (parse_written_frame (m_topic (p_message p)) (m_type (p_message p)) (m_id (p_message p)) hops (m_ns (p_message p)) (m_origin (p_message p)) (f_from fr)
    (m_mode (p_message p)) ds (m_payload (p_message p))) by done.
  intros [= <-]. exists p, hops, ds. do 7 (split; [done|]). split; [by apply view_destinations|by apply view_peers].
Qed.

(** ** What the steps of an engine keep *)
Lemma engine_pubs pubs pubs' n e : pubs ⊆ pubs' -> (forall p, p ∈ pubs' -> m_origin (p_message p) = n -> p ∈ pubs) ->
  engine_ok pubs n e -> engine_ok pubs' n e.
Proof.
  intros Hs Hn []. split; auto. intros k Hk%eo_seen0. revert Hk. rewrite !list_elem_of_fmap. naive_solver.
Qed.

Lemma engine_local pubs n e e' : engine_ok pubs n e -> local_op valid_key hex_decode n e e' -> engine_ok pubs n e'.
Proof.
  intros [? ? Hr ? ? ? ? ?] Hop. destruct (local_keeps _ _ _ _ _ Hop Hr) as (Hr' & Eo & Es & [= Ee En]).
  split; rewrite ?Eo, ?Es, ?Ee, ?En; done.
Qed.

(** Sending and then handing the outbox to the connections. *)
Lemma engine_sends pubs n P e e' : engine_ok pubs n e -> sends P e e' -> engine_ok pubs n (set_outbox [] e').
Proof.
  intros [? ? Hr ? ? ? ? ?] [_ _ Es Er Eh Ep [= Ee En]].
  split; cbn; rewrite ?Es, ?Ee, ?En; try done. eapply routes_ok_eq, Hr; done.
Qed.

Lemma sent_frames n P e e' : outbox e = [] -> sends P e e' ->
  Forall (fun fr => f_from fr = n /\ exists c, P (c, f_bytes fr)) (collect n e').2.
Proof.
  intros Eo [(sent & E & Hf) _ _ _ _ _ _]. cbn. rewrite E, Eo. cbn [app]. apply list.Forall_fmap.
  eapply list.Forall_impl; [exact Hf|]. intros [c b] Hb. cbn. eauto.
Qed.

Lemma cache_touch pubs c k : cache_ok c -> (forall k', k' ∈ lru_keys c -> k' ∈ map seen_key pubs) -> k ∈ map seen_key pubs ->
  let c' := (accept_seen_bytes k.1 k.2 c).1 in
  cache_ok c' /\ (forall k', k' ∈ lru_keys c' -> k' ∈ map seen_key pubs)
  /\ ((accept_seen_bytes k.1 k.2 c).2 = true -> k ∉ lru_keys c)
  /\ (len pubs <= SEEN_MESSAGE_CAPACITY -> forall k', k' = k \/ k' ∈ lru_keys c -> k' ∈ lru_keys c').
Proof.
  intros [Hn Hc] Hs Hk. destruct (accept_nodup k c Hn) as [Hn' Hc']. cbn zeta. split; [split; [done|congruence]|].
  clear Hn' Hc'. unfold accept_seen_bytes. rewrite <- surjective_pairing.
  pose proof (lru_get_found k c) as Hg. pose proof (lru_get_keys k c) as Hkeys. pose proof (lru_get_cap k c) as Hcap.
  destruct (lru_get k c) as [found c'] eqn:Eg. cbn [fst snd] in *. subst found.
  case_bool_decide as Hin; cbn [fst snd].
  - rewrite decide_True in Hkeys by done. rewrite Hkeys. split; [|split; [done|]].
    + intros k' [->|[_ Hi]%list_elem_of_filter]%elem_of_cons; auto.
    + intros _ k' [->|Hi]; [by left|]. destruct (decide (k' = k)) as [->|]; [by left|]. right. by apply list_elem_of_filter.
  - rewrite decide_False in Hkeys by done. rewrite lru_put_keys by (by rewrite Hkeys). rewrite Hkeys, Hcap, Hc. split; [|split; [done|]].
    + intros k' Hi%elem_of_take. destruct Hi as (i & Hi & _). apply list_elem_of_lookup_2, elem_of_cons in Hi as [->|]; auto.
    + intros Hl k' Hi. assert (length (k :: lru_keys c) <= length (map seen_key pubs))%nat as Hle.
      { apply list.submseteq_length, NoDup_submseteq; [by constructor|]. intros x [->|]%elem_of_cons; auto. }
      rewrite length_fmap in Hle. rewrite take_ge by (unfold len in Hl; lia). apply elem_of_cons. tauto.
Qed.

Lemma engine_cache pubs n e c s : engine_ok pubs n e -> cache_ok c -> (forall k, k ∈ lru_keys c -> k ∈ map seen_key pubs) ->
  engine_ok pubs n (set_seen c e) /\ engine_ok pubs n (set_seen c (set_subs s e)).
Proof. intros [? ? Hr ? ? ? ? ?] Hc Hk. split; split; try done; by apply (routes_ok_eq e). Qed.

(** The node hands its subscribers this message. *)
Definition handed (n : PeerId) (p : Published) (e e' : PubSub) : Prop :=
  let m := p_message p in
  n ∈ p_addressed p /\ n <> m_origin m
  /\ subs e' = (deliver_local_borrowed (m_topic m) (m_type m) (m_payload m) (m_ns m) (subs e)).1.1.

Section Receive.
Context (pubs : list Published) (fr : Frame) (w : World) (e : PubSub).
Context (Hp : Forall published_ok pubs) (Hf : frame_ok pubs fr) (He : engine_ok pubs (f_to fr) e).

Let n := f_to fr.
Let e' := (handle_pubsub_frame valid_key n w (f_from fr) (drop 16 (f_bytes fr)) e).1.

Lemma receive_key k : key_of (drop 16 (f_bytes fr)) = Some k -> k ∈ map seen_key pubs.
Proof using Hp Hf valid_key.
  unfold key_of. destruct (parse_fast_frame _) as [v|] eqn:Ev; [|done]. intros [= <-].
  destruct (frame_view _ _ _ Hp Hf Ev) as (p & hops & ds & Hi & _ & _ & _ & [= _ _ Eid _] & [= _ _ Eo] & _).
  apply list_elem_of_fmap. exists p. split; [|done]. unfold seen_key. by rewrite Eid, Eo.
Qed.

Lemma receive_cache : cache_ok (seen_messages e') /\ (forall k, k ∈ lru_keys (seen_messages e') -> k ∈ map seen_key pubs)
  /\ (len pubs <= SEEN_MESSAGE_CAPACITY -> forall k, k ∈ lru_keys (seen_messages e) -> k ∈ lru_keys (seen_messages e')).
Proof using All.
  destruct He as [_ _ _ _ _ _ Hc Hs]. unfold e'.
  destruct (handle_seen valid_key n w (f_from fr) (drop 16 (f_bytes fr)) e) as [->|(k & Hk & ->)]; [done|].
  destruct (cache_touch pubs (seen_messages e) k Hc Hs (receive_key k Hk)) as (H1 & H2 & _ & H4). split_and!; auto.
Qed.

Lemma receive_engine : engine_ok pubs n (set_outbox [] e').
Proof using All.
  destruct receive_cache as (Hc & Hs & _).
  destruct (handle_cases valid_key n w (f_from fr) (drop 16 (f_bytes fr)) e) as [(c & Hx)|(v & s & _ & _ & _ & _ & Hx)]; fold e' in Hx.
  - pose proof (se_seen _ _ _ Hx) as Ec. cbn in Ec. eapply engine_sends; [|exact Hx]. rewrite Ec in Hc, Hs.
    by apply (engine_cache pubs n e c (subs e)).
  - pose proof (se_seen _ _ _ Hx) as Ec. cbn in Ec. eapply engine_sends; [|exact Hx]. rewrite Ec in Hc, Hs. by apply engine_cache.
Qed.

Lemma receive_frames : Forall (frame_ok pubs) (collect n e').2.
Proof using All.
  pose proof (eo_outbox _ _ _ He) as Eo.
  destruct (handle_cases valid_key n w (f_from fr) (drop 16 (f_bytes fr)) e) as [(c & Hx)|(v & s & Ev & _ & _ & _ & Hx)]; fold e' in Hx;
    (eapply list.Forall_impl; [eapply sent_frames; [|exact Hx]; done|]); [by intros f (_ & ? & [])|].
  intros f [Efrom (c & Hh & origin & Hor & ds' & Hd & E)].
  destruct (frame_view _ _ _ Hp Hf Ev) as (p & hops & ds & Hi & Hhops & Hds & Ha & [= Et Ety Eid Ens] & [= Em Epl Eor] & Eh & _ & Edst).
  apply peer_from_ok in Hor as [Hpo Eob].
  assert (forall d, d ∈ ds' -> d ∈ ds) as Hsub.
  { apply list_elem_of_fmap in Hd as ([h g] & -> & Hg%elem_of_map_to_list). cbn. intros d Hdd.
    pose proof (group_ok _ _ _ _ _ (eo_routes _ _ _ He) Hg d Hdd) as Hr. apply list_elem_of_filter in Hr as [_ Hr]. rewrite Edst in Hr.
    apply list_elem_of_filter in Hr as [_ Hr]. apply list_elem_of_lookup_1 in Hr as (i & Hi'). unfold written_destinations in Hi'. apply lookup_take_Some in Hi' as [Hi' _]. by eapply list_elem_of_lookup_2. }
  exists p, (hops - 1), ds'. split; [done|]. split; [lia|]. split.
  { apply list.Forall_forall. intros d Hdd. by apply (proj1 (list.Forall_forall _ _) Hds), Hsub. }
  split; [auto|]. rewrite Efrom. split; [apply (eo_peer _ _ _ He)|]. exists ds'. split; [by left|]. cbn in E. rewrite E, Et, Ety, Eid, Ens, Em, Epl, Eh.
  assert (m_origin (p_message p) = origin) as -> by (destruct (m_origin (p_message p)), origin; cbn in *; congruence). done.
Qed.

Lemma receive_hands : subs e' = subs e \/ (exists p, p ∈ pubs /\ handed n p e e'
  /\ (seen_key p ∉ lru_keys (seen_messages e)) /\ (len pubs <= SEEN_MESSAGE_CAPACITY -> seen_key p ∈ lru_keys (seen_messages e'))).
Proof using All.
  destruct (handle_cases valid_key n w (f_from fr) (drop 16 (f_bytes fr)) e) as [(c & Hx)|(v & s & Ev & El & Hfr & Hs & Hx)]; fold e' in Hx;
    [left; apply (se_subs _ _ _ Hx)|].
  rewrite (se_subs _ _ _ Hx). cbn [subs set_seen set_subs]. destruct Hs as [->|[Hn ->]]; [by left|]. right.
  destruct (frame_view _ _ _ Hp Hf Ev) as (p & hops & ds & Hi & _ & _ & Ha & [= Et Ety Eid Ens] & [= Em Epl Eor] & _ & Edst & _).
  exists p. split; [done|].
  destruct He as [_ _ _ _ _ _ Hc Hsk]. assert (seen_key p ∈ map seen_key pubs) as Hk by (by apply list_elem_of_fmap_2).
  destruct (cache_touch pubs (seen_messages e) (seen_key p) Hc Hsk Hk) as (_ & _ & H3 & H4). 
  assert (accept_seen_bytes (seen_key p).1 (seen_key p).2 (seen_messages e) = accept_seen_bytes (origin_peer_id v) (msg_id v) (seen_messages e)) as Ek.
  { unfold seen_key. cbn [fst snd]. by rewrite Eid, Eor. }
  rewrite Ek in H3, H4. split; [|split; [by apply H3|]].
  - split.
    + rewrite Edst in Hn. apply list_elem_of_fmap in Hn as (q & [= Eq] & Hq). apply Ha.
      apply list_elem_of_lookup_1 in Hq as (i & Hq). unfold written_destinations in Hq. apply lookup_take_Some in Hq as [Hq _].
      assert (n = q) as -> by (destruct n, q; cbn in *; congruence). by eapply list_elem_of_lookup_2.
    + split; [|by rewrite (se_subs _ _ _ Hx), Et, Ety, Epl, Ens]. destruct El as (v' & Ev' & _ & _ & _ & Ho & _). assert (v' = v) as -> by congruence. congruence.
  - intros Hl. rewrite (se_seen _ _ _ Hx). cbn [seen_messages set_seen]. apply H4; auto.
Qed.
End Receive.

(** ** Publishing *)
Lemma addressed_ok n e topic ty scope policy ns body : routes_ok e -> publish_args_ok topic ty scope policy ns body ->
  Forall peer_ok (addressed n e topic scope).
Proof.
  intros [Hg Hh Hpr] (_ & _ & _ & _ & _ & _ & Hs).
  assert (forall g : RouteGroups, (forall h ds, g !! h = Some ds -> Forall peer_ok ds) -> Forall peer_ok (concat (map_to_list g).*2)) as Hc.
  { intros g Hx. apply Forall_concat, list.Forall_forall. intros ds ([h ds'] & -> & Hi%elem_of_map_to_list)%list_elem_of_fmap. by eapply Hx. }
  unfold addressed. destruct scope as [| |peers|]; [done| | |].
  2: { apply Hc. intros h ds. destruct (route_provider e) as [provider|].
       - intros E. apply list.Forall_forall. intros p Hp. apply (proj1 (list.Forall_forall _ _) Hs). by eapply (Hpr provider).
       - intros [[_ Hin]%list_elem_of_filter ->]%direct_groups_lookup. constructor; [|done]. by apply (proj1 (list.Forall_forall _ _) Hs). }
  all: assert (Forall peer_ok (match route_groups e !! topic with Some g => concat (map_to_list g).*2 | None => [] end)) as Ht
    by (destruct (route_groups e !! topic) as [g|] eqn:E; [apply Hc; intros h ds; by apply (Hg topic g)|done]).
  all: destruct (hot_route_groups e) as [[t es]|]; [|done]; destruct (t =? topic); [|done].
  all: apply Forall_concat, list.Forall_forall; intros ds (en & -> & Hi)%list_elem_of_fmap; by eapply Hh.
Qed.

Lemma id_of epoch k : 0 <= epoch <= u64_max -> 0 <= k <= u64_max -> Z.lor (Z.shiftl epoch 64) k = epoch * 2 ^ 64 + k.
Proof. intros He Hk. rewrite lor_shiftl_add by (unfold_widths; lia). lia. Qed.

Lemma frame_ok_mono pubs pubs' fr : pubs ⊆ pubs' -> frame_ok pubs fr -> frame_ok pubs' fr.
Proof. intros Hs (p & hops & ds & Hi & Hr). exists p, hops, ds. auto. Qed.

Section Publish.
Context (net : Net) (n : PeerId) (w : World) (topic ty : Z) (body : list Z) (scope : PubSubScope) (policy : PubSubDeliveryPolicy) (ns : Z).
Context (e e' : PubSub) (r : Result PublishStats).
Context (Hok : net_ok net) (He : engines net !! n = Some e) (Ha : publish_args_ok topic ty scope policy ns body) (Hid : next_msg_id e < u64_max).
Context (Hp : publish_remote_bytes_with_metadata n w topic ty body scope policy ns e = (e', r)).

Let new := mkPublished (message_of n topic ty body policy ns e) (hops_limit policy) (addressed n e topic scope).

Lemma new_id : m_id (p_message new) = msg_id_epoch e * 2 ^ 64 + next_msg_id e.
Proof using Hok He Hid.
  destruct (no_engines _ Hok n e He). cbn. rewrite id_of by lia. done.
Qed.

Lemma new_fresh : message_key (p_message new) ∉ map (fun p => message_key (p_message p)) (published net).
Proof using Hok He Hid.
  destruct (no_engines _ Hok n e He). intros (p & E & Hi)%list_elem_of_fmap. pose proof new_id as Hnew. unfold message_key in E.
  injection E as Eo Ei. cbn in Eo. destruct (eo_ids0 p Hi (eq_sym Eo)) as (k & Hk & Ek). rewrite id_of in Ek by lia.
  assert (m_id (p_message new) = m_id (p_message p)) as Hsame by exact Ei. lia.
Qed.

Lemma new_ok : published_ok new.
Proof using Hok He Ha Hid.
  destruct (no_engines _ Hok n e He). destruct Ha as (? & ? & ? & _). pose proof new_id as Hnew.
  split; try done. rewrite Hnew. unfold_widths. lia.
Qed.

Lemma taken_ok : engine_ok (new :: published net) n (take_msg_id e).1.
Proof using Hok He Hid.
  destruct (no_engines _ Hok n e He) as [? ? Hr ? ? Hids ? Hs]. cbn [take_msg_id fst].
  assert (wrapping_add u64_max (next_msg_id e) 1 = next_msg_id e + 1) as Ew.
  { unfold wrapping_add. rewrite Z.mod_small; unfold_widths; lia. }
  split; cbn [peer_ok outbox set_next_msg_id msg_id_epoch next_msg_id seen_messages]; rewrite ?Ew; try done.
  - by apply (routes_ok_eq e).
  - lia.
  - intros p [->|Hi]%elem_of_cons Ho.
    + exists (next_msg_id e). split; [lia|done].
    + destruct (Hids p Hi Ho) as (k & Hk & Ek). exists k. split; [lia|done].
  - intros k Hk. right. auto.
Qed.

Lemma publish_frames : Forall (frame_ok (new :: published net)) (collect n e').2.
Proof using Hok He Ha Hp.
  destruct (publish_sends _ _ _ _ _ _ _ _ _ _ _ Ha Hp) as (dss & Ed & Hs). pose proof (no_engines _ Hok n e He) as Hen.
  pose proof (addressed_ok n _ _ _ _ _ _ _ (eo_routes _ _ _ Hen) Ha) as Hads. destruct Ha as (_ & _ & _ & _ & Hh & _).
  eapply list.Forall_impl; [eapply sent_frames; [|exact Hs]; apply (eo_outbox _ _ _ Hen)|]. intros fr [Efrom (c & ds & Hd & E)].
  assert (forall d, d ∈ ds -> d ∈ addressed n e topic scope) as Hsub.
  { intros d Hdd. rewrite <- Ed. apply list_elem_of_In, in_concat. exists ds. by rewrite <- !list_elem_of_In. }
  exists new, (hops_limit policy), ds. split; [by left|]. split; [cbn; lia|]. split.
  { apply list.Forall_forall. intros d Hdd. by apply (proj1 (list.Forall_forall _ _) Hads), Hsub. }
  split; [done|]. rewrite Efrom. split; [apply (eo_peer _ _ _ Hen)|]. exists ds. split; [by left|done].
Qed.

Lemma publish_ok : net_ok (update n e' (flight net) (new :: published net) net).
Proof using All.
  destruct (publish_sends _ _ _ _ _ _ _ _ _ _ _ Ha Hp) as (dss & _ & Hs). pose proof publish_frames as Hf.
  unfold update, collect in *. cbn [snd] in Hf. split; cbn [engines published flight].
  - intros m x [[<- <-]|[Hne Hm]]%lookup_insert_Some; [eapply engine_sends; [apply taken_ok|exact Hs]|].
    eapply engine_pubs, (no_engines _ Hok m x Hm); [set_solver|]. intros p [->|Hi]%elem_of_cons Ho; [by cbn in Ho|done].
  - constructor; [apply new_ok|apply (no_published _ Hok)].
  - apply list.NoDup_cons. split; [apply new_fresh|apply (no_keys _ Hok)].
  - apply Forall_app. split; [|done]. eapply list.Forall_impl; [apply (no_flight _ Hok)|]. intros fr. apply frame_ok_mono. set_solver.
Qed.
End Publish.

Lemma net_step_ok net net' : net_step valid_key hex_decode net net' -> net_ok net -> net_ok net'.
Proof.
  intros Hst Hok. destruct Hst as [n w topic ty body scope policy ns net e e' r He Ha Hid Hp|? ? [i fr w net e e' r Hi He Hh|i fr net Hi]|? ? [n net e e' He Hop]].
  - by eapply publish_ok.
  - pose proof (proj1 (list.Forall_forall _ _) (no_flight _ Hok) fr (list_elem_of_lookup_2 _ _ _ Hi)) as Hfr.
    pose proof (no_engines _ Hok _ _ He) as Hen. destruct Hok as [Ho Hpub Hk Hf].
    pose proof (receive_engine _ fr w e Hpub Hfr Hen) as H1. pose proof (receive_frames _ fr w e Hpub Hfr Hen) as H2. rewrite Hh in H1, H2.
    unfold update, collect in *. cbn [fst snd] in H1, H2. split; try done; cbn [engines flight published].
    + intros m x [[<- <-]|[Hne Hm]]%lookup_insert_Some; auto.
    + apply Forall_app. split; [by apply list.Forall_delete|done].
  - destruct Hok as [Ho Hpub Hk Hf]. split; try done. by apply list.Forall_delete.
  - destruct Hok as [Ho Hpub Hk Hf]. split; try done. cbn [engines published].
    intros m x [[<- <-]|[Hne Hm]]%lookup_insert_Some; [|auto]. eapply engine_local; [|exact Hop]. auto.
Qed.

(** ** What stays while the network runs *)
Lemma published_mono net net' : net_step valid_key hex_decode net net' -> exists new, published net' = new ++ published net.
Proof. destruct 1 as [|? ? []|? ? []]; [by eexists [_]|by exists []..]. Qed.

(** A message looked up at a node is remembered there. *)
Definition remembers (n : PeerId) (k : SeenMessageKey) (net : Net) : Prop :=
  exists e, engines net !! n = Some e /\ k ∈ lru_keys (seen_messages e).

Lemma remembers_step n k net net' : net_step valid_key hex_decode net net' -> net_ok net -> len (published net') <= SEEN_MESSAGE_CAPACITY ->
  remembers n k net -> remembers n k net'.
Proof.
  assert (forall m x y pubs fl, n <> m -> engines net !! n = Some y -> k ∈ lru_keys (seen_messages y) ->
    remembers n k (mkNet (<[m := x]> (engines net)) fl pubs)) as Hother.
  { intros m x y pubs fl Hne Hy Hk. exists y. split; [|done]. cbn [engines]. by rewrite lookup_insert_ne. }
  assert (forall x pubs fl, k ∈ lru_keys (seen_messages x) -> remembers n k (mkNet (<[n := x]> (engines net)) fl pubs)) as Hsame.
  { intros x pubs fl Hk. exists x. split; [|done]. apply lookup_insert_eq. }
  intros Hst Hok Hl (x & Hx & Hk).
  destruct Hst as [m w topic ty body scope policy ns net e e' r He Ha Hid Hp|? ? [i fr w net e e' r Hi He Hh|i fr net Hi]|? ? [m net e e' He Hop]].
  2: { pose proof (proj1 (list.Forall_forall _ _) (no_flight _ Hok) fr (list_elem_of_lookup_2 _ _ _ Hi)) as Hfr.
       destruct (receive_cache _ fr w e (no_published _ Hok) Hfr (no_engines _ Hok _ _ He)) as (_ & _ & Hkeep). rewrite Hh in Hkeep.
       destruct (decide (n = f_to fr)) as [->|]; [|by eapply Hother]. assert (x = e) as -> by congruence.
       apply Hsame, Hkeep; done. }
  2: by exists x.
  all: destruct (decide (n = m)) as [->|]; [|by eapply Hother]; assert (x = e) as -> by congruence; apply Hsame.
  - destruct (publish_sends _ _ _ _ _ _ _ _ _ _ _ Ha Hp) as (dss & _ & Hs). cbn. rewrite (se_seen _ _ _ Hs). done.
  - destruct (local_keeps _ _ _ _ _ Hop (eo_routes _ _ _ (no_engines _ Hok _ _ He))) as (_ & _ & -> & _). done.
Qed.

Lemma published_star net net' : star (net_step valid_key hex_decode) net net' -> exists new, published net' = new ++ published net.
Proof.
  induction 1 as [|s t u Hst _ (new & E)]; [by exists []|]. destruct (published_mono _ _ Hst) as (more & E').
  exists (new ++ more). by rewrite E, E', app_assoc.
Qed.

Lemma net_star_ok net net' : star (net_step valid_key hex_decode) net net' -> net_ok net -> net_ok net'.
Proof. apply star_invariant. intros s t Hs Hst. by eapply net_step_ok. Qed.

Lemma remembers_star n k net net' : star (net_step valid_key hex_decode) net net' -> net_ok net -> len (published net') <= SEEN_MESSAGE_CAPACITY ->
  remembers n k net -> remembers n k net'.
Proof.
  induction 1 as [net|net net1 net' Hst Hrun IH]; intros Hok Hl Hr; [done|]. apply IH; [by eapply net_step_ok|done|].
  eapply remembers_step; try done. destruct (published_star _ _ Hrun) as (new & E).
  revert Hl. rewrite E. unfold len. rewrite length_app. lia.
Qed.

(** Node [n] takes a frame off the wire and goes from [e] to [e']. *)
Definition receives (n : PeerId) (net net' : Net) (e e' : PubSub) : Prop :=
  exists i fr w r, flight net !! i = Some fr /\ f_to fr = n /\ engines net !! n = Some e
  /\ handle_pubsub_frame valid_key n w (f_from fr) (drop 16 (f_bytes fr)) e = (e', r)
  /\ net' = update n e' (delete i (flight net)) (published net) net.

Lemma receives_spec n net net' e e' : net_ok net -> receives n net net' e e' -> subs e' <> subs e ->
  net_step valid_key hex_decode net net' /\ exists p, p ∈ published net /\ handed n p e e' /\ (seen_key p ∉ lru_keys (seen_messages e))
  /\ (len (published net) <= SEEN_MESSAGE_CAPACITY -> remembers n (seen_key p) net').
Proof.
  intros Hok (i & fr & w & r & Hi & <- & He & Hh & ->) Hs. split; [by eapply net_wire, wire_receive|].
  pose proof (proj1 (list.Forall_forall _ _) (no_flight _ Hok) fr (list_elem_of_lookup_2 _ _ _ Hi)) as Hfr.
  pose proof (receive_hands _ fr w e (no_published _ Hok) Hfr (no_engines _ Hok _ _ He)) as Hr. rewrite Hh in Hr. cbn [fst] in Hr.
  destruct Hr as [?|(p & Hp & Hd & Hn & Hm)]; [done|]. exists p. split_and!; try done.
  intros Hl. eexists. split; [apply lookup_insert_eq|]. apply Hm, Hl.
Qed.

End Delivery.

(** ** A run: two messages for one subscriber *)
Module TwoMessages.
#[local] Existing Instance list_lru.
#[local] Existing Instance list_lru_laws.
Definition key (n : Z) : PeerId := mkPeerId (replicate 32 n).
Definition open_world : World := {|
  lookup_connected_peer p := Some (mkConn p 5); has_connection_by_peer_id _ := true; is_closed _ := false;
  max_message_size _ := Some 1000; enqueue_write _ := Ok tt; buffer_available _ := true |}.
Definition nodes : gmap PeerId Z := {[key 1 := 7; key 2 := 8]}.
Definition publish (body : list Z) : Net -> Net :=
  publish_now (key 1) open_world 3 4 body (SelectedPeers [key 2]) (mkPolicy 8 AtMostOnce).
Definition receive : Net -> Net := receive_now (fun _ => true) 0 open_world.

Definition net1 : Net := publish [6] (publish [5] (locally (key 2) (fun e => (subscribe_bytes 3 4 e).1) (net_start nodes))).
Definition net2 : Net := receive net1.
Definition engine (net : Net) : PubSub := default (pubsub_new 0) (engines net !! key 2).

Lemma args_ok body : publish_args_ok 3 4 (SelectedPeers [key 2]) (mkPolicy 8 AtMostOnce) 0 body.
Proof. unfold publish_args_ok. unfold_widths. cbn [hops_limit policy_mode]. split_and!; try lia; [done|]. repeat constructor. Qed.

Lemma first_run : star (net_step (fun _ => true) Some) (net_start nodes) net1.
Proof.
  set (subscribed := locally (key 2) (fun e => (subscribe_bytes 3 4 e).1) (net_start nodes)).
  apply star_step with subscribed; [apply locally_step; [intros e; apply op_subscribe|vm_compute; reflexivity]|].
  apply star_step with (publish [5] subscribed); [apply publish_now_step; [apply args_ok|vm_compute; reflexivity]|].
  apply star_one. apply publish_now_step; [apply args_ok|vm_compute; reflexivity].
Qed.

Lemma nodes_fit : nodes_ok nodes.
Proof.
  unfold nodes. intros n entropy [[<- <-]|[_ [<- <-]%lookup_singleton_Some]]%lookup_insert_Some; split; first [reflexivity | unfold_widths; lia].
Qed.

Lemma receives_here net : match flight net !! 0%nat with Some fr => bool_decide (f_to fr = key 2) && bool_decide (is_Some (engines net !! key 2)) | None => false end = true ->
  receives (fun _ => true) (key 2) net (receive net) (engine net)
    (handle_pubsub_frame (fun _ => true) (key 2) open_world (default (key 2) (f_from <$> flight net !! 0%nat))
       (drop 16 (default [] (f_bytes <$> flight net !! 0%nat))) (engine net)).1.
Proof.
  intros Hb. destruct (flight net !! 0%nat) as [fr|] eqn:Ef; [|done]. apply andb_true_iff in Hb as [Ht%bool_decide_eq_true (e & Ee)%bool_decide_eq_true].
  unfold engine. rewrite Ee. exists 0%nat, fr, open_world. eexists. split_and!; [done..|apply surjective_pairing|].
  unfold receive, receive_now. rewrite Ef, Ht, Ee. done.
Qed.
End TwoMessages.

