(* ===== verification/PubSubForward.v ===== *)
(** * Forwarding

    Every frame a node passes on has fewer hops left than the one it took in,
    so what was published stops travelling.  A node that takes in one branch of
    a message refuses the others, whoever they are for. *)

From S2P Require Import Prelude Types Framing ActorConflict PubSubFrame PubSub PubSubSeen PubSubRoutes PubSubNet PubSubDelivery.

(** ** One number replaced by smaller ones *)
Definition shrinks (l' l : list nat) : Prop :=
  exists h r s, l ≡ₚ h :: r /\ l' ≡ₚ r ++ s /\ Forall (fun x => x < h)%nat s.

#[global] Instance shrinks_perm : Proper ((≡ₚ) ==> iff) (Acc shrinks).
Proof.
  intros l l' Hp. split; intros [Ha]; constructor; intros y (h & r & s & E & Hr); apply Ha; exists h, r, s; (split; [|done]);
    [by rewrite Hp|by rewrite <- Hp].
Qed.

Lemma cons_perm (h h0 : nat) l r : h :: l ≡ₚ h0 :: r -> (h = h0 /\ l ≡ₚ r) \/ exists r', l ≡ₚ h0 :: r' /\ r ≡ₚ h :: r'.
Proof.
  intros E. destruct (decide (h = h0)) as [->|Hne]; [left; split; [done|by eapply Permutation_cons_inv]|right].
  assert (h0 ∈ h :: l) as Hin by (rewrite E; by left). apply elem_of_cons in Hin as [?|Hin]; [done|].
  apply elem_of_Permutation in Hin as (r' & E'). exists r'. split; [done|]. rewrite E' in E.
  apply (Permutation_cons_inv (a := h0)). rewrite <- E. apply perm_swap.
Qed.

Lemma shrinks_cons h : (forall h', (h' < h)%nat -> forall l, Acc shrinks l -> Acc shrinks (h' :: l)) ->
  forall l, Acc shrinks l -> Acc shrinks (h :: l).
Proof.
  intros Hh l Hl. induction Hl as [l Hl IH]. constructor. intros y (h0 & r & s & E & -> & Hs).
  destruct (cons_perm _ _ _ _ E) as [[<- <-]|(r' & El & ->)].
  - assert (Acc shrinks l) as Ha by (by constructor). clear -Hs Ha Hh. rewrite Permutation_app_comm.
    induction Hs as [|x s Hx _ IHs]; [done|]. cbn. by apply Hh.
  - cbn. apply IH. exists h0, r', s. done.
Qed.

Lemma shrinks_wf l : Acc shrinks l.
Proof.
  induction l as [|h l IH]; [constructor; intros y (h & r & s & E & _); by apply Permutation_nil_cons in E|].
  revert l IH. induction h as [h IHh] using (well_founded_induction lt_wf). by apply shrinks_cons.
Qed.

Section Forward.
Context `{LruLaws}.
Context (valid_key : list Z -> bool) (hex_decode : list Z -> option (list Z)).

(** The hops a frame has left. *)
Definition hops_of (fr : Frame) : nat := Z.to_nat (byte_at (drop 16 (f_bytes fr)) 6).

Lemma parsed_hops bytes v : parse_fast_frame bytes = Some v -> hops_remaining v = byte_at bytes 6.
Proof.
  unfold parse_fast_frame. destruct (_ || _); [done|]. destruct (negb _); [done|]. intros (m & _ & E)%bind_Some. revert E.
  intros (dl & _ & E)%bind_Some. apply bind_Some in E as (po & _ & E). destruct (_ <? _); [done|]. by injection E as <-.
Qed.

Lemma receive_shrinks fr w e e' r : outbox e = [] ->
  handle_pubsub_frame valid_key (f_to fr) w (f_from fr) (drop 16 (f_bytes fr)) e = (e', r) ->
  Forall (fun f => hops_of f < hops_of fr)%nat (collect (f_to fr) e').2.
Proof.
  intros Eo Eh. pose proof (handle_cases valid_key (f_to fr) w (f_from fr) (drop 16 (f_bytes fr)) e) as Hc. rewrite Eh in Hc. cbn [fst] in Hc.
  destruct Hc as [(c & Hx)|(v & s & Ev & _ & _ & _ & Hx)];
    (eapply list.Forall_impl; [eapply sent_frames; [|exact Hx]; done|]); [by intros f (_ & ? & [])|].
  intros f [_ (c & Hh & origin & _ & ds & _ & E)]. cbn [snd] in E. apply parsed_hops in Ev. unfold hops_of. rewrite E, <- Ev.
  change (byte_at (write_fast_frame _ _ _ _ _ _ ?h _ _ _ _) 6) with h.
  lia.
Qed.

(** A frame arrives or is lost, after any number of local operations. *)
Definition moves_on (net' net : Net) : Prop :=
  exists mid, star (local_step valid_key hex_decode) net mid /\ wire_step valid_key mid net'.

Lemma local_star net mid : star (local_step valid_key hex_decode) net mid -> net_ok net -> net_ok mid /\ flight mid = flight net.
Proof.
  induction 1 as [|s t u Hst _ IH]; intros Hok; [done|]. assert (flight t = flight s) as <- by (by destruct Hst).
  apply IH. eapply (net_step_ok valid_key hex_decode); [by apply net_local|done].
Qed.

Lemma wire_shrinks net net' : wire_step valid_key net net' -> net_ok net -> shrinks (map hops_of (flight net')) (map hops_of (flight net)).
Proof.
  intros Hst Hok. destruct Hst as [i fr w net e e' r Hi He Hh|i fr net Hi];
    exists (hops_of fr), (map hops_of (delete i (flight net))); cbn [flight update].
  - exists (map hops_of (collect (f_to fr) e').2). split; [|split].
    + by rewrite (delete_Permutation (flight net) i fr Hi) at 1.
    + unfold update, collect. cbn [flight snd]. by rewrite <- map_app.
    + apply list.Forall_fmap. eapply receive_shrinks; [|exact Hh]. apply (eo_outbox _ _ _ (no_engines _ Hok _ _ He)).
  - exists []. split; [|split; [by rewrite app_nil_r|constructor]]. by rewrite (delete_Permutation (flight net) i fr Hi) at 1.
Qed.

(** C27: forwarding comes to an end.  From any state a network of nodes reaches,
    with routes of any shape, loops included, only finitely many frames arrive
    or get lost before a node publishes again, whatever the nodes do in
    between. *)
Theorem forwarding_terminates nodes net :
  nodes_ok nodes -> star (net_step valid_key hex_decode) (net_start nodes) net -> Acc moves_on net.
Proof.
  intros Hn Hrun. assert (net_ok net) as Hok by (eapply net_star_ok; [exact Hrun|by apply start_ok]). clear Hrun.
  remember (map hops_of (flight net)) as l eqn:El. revert net El Hok. induction (shrinks_wf l) as [l _ IH]. intros net -> Hok.
  constructor. intros net' (mid & Hl & Hw). destruct (local_star _ _ Hl Hok) as [Hok' Ef].
  eapply IH; [|reflexivity|eapply (net_step_ok valid_key hex_decode); [by apply net_wire|done]]. rewrite <- Ef. by apply wire_shrinks.
Qed.
End Forward.

Lemma forwarding_terminates_witness :
  flight TwoMessages.net1 <> [] /\ Acc (moves_on (fun _ => true) Some) TwoMessages.net1.
Proof.
  split; [vm_compute; discriminate|].
  exact (forwarding_terminates (H0 := list_lru_laws) (fun _ => true) Some TwoMessages.nodes TwoMessages.net1 TwoMessages.nodes_fit TwoMessages.first_run).
Defined.

(** ** A run: two branches of a message meet at a node

    Node 1 sends to nodes 5 and 6 by way of nodes 2 and 3, which both send by
    way of node 4. *)
Module Reconverging.
#[local] Existing Instance list_lru.
Import TwoMessages.
Definition all_nodes : gmap PeerId Z := list_to_map (map (fun n => (key n, 7)) [1; 2; 3; 4; 5; 6]).

(** A provider that sends to each destination in the list through its next hop. *)
Definition via (hops : list (Z * Z)) : RouteProvider :=
  fun _ ds => foldr (fun '(d, h) groups => if decide (key d ∈ ds) then <[key h := [key d]]> groups else groups) ∅ hops.

Lemma via_ok hops : provider_ok (via hops).
Proof.
  intros topic ds h g. unfold via. induction hops as [|[d h'] hops IH]; cbn [foldr]; [by intros E%lookup_empty_Some|].
  case_decide as Hd; [|done]. intros [[_ <-]|[_ E]]%lookup_insert_Some; [|by apply IH]. split; [|vm_compute; discriminate].
  by intros p ->%list_elem_of_singleton.
Qed.

Definition configured : list (PeerId * (PubSub -> PubSub)) :=
  [(key 5, fun e => (subscribe_bytes 3 4 e).1); (key 6, fun e => (subscribe_bytes 3 4 e).1);
   (key 1, set_route_provider (via [(5, 2); (6, 3)])); (key 2, set_route_provider (via [(5, 4)]));
   (key 3, set_route_provider (via [(6, 4)]))].
Definition ready : Net := foldl (fun net x => locally x.1 x.2 net) (net_start all_nodes) configured.
Definition sent : Net := publish_now (key 1) open_world 3 4 [9] (SelectedPeers [key 5; key 6]) (mkPolicy 8 AtMostOnce) ready.

(** Every frame arrives, the oldest first. *)
Definition arrivals (n : nat) : Net := Nat.iter n (receive_now (fun _ => true) 0 open_world) sent.
Definition final : Net := arrivals 5.

Definition at_node {A} (f : PubSub -> A) (d : A) (net : Net) (n : Z) : A :=
  match engines net !! key n with Some e => f e | None => d end.
Definition queued (net : Net) (n : Z) : list (list Delivered) := (map_to_list (workers (at_node subs subs_new net n))).*2.

Lemma ready_run : star (net_step (fun _ => true) Some) (net_start all_nodes) ready.
Proof.
  apply locally_all. repeat (apply list.Forall_cons; split; [intros e; first [apply op_subscribe | apply op_provider, via_ok]|]).
  apply list.Forall_nil. exact I.
Qed.

Lemma sent_run : net_step (fun _ => true) Some ready sent.
Proof.
  apply publish_now_step; [|vm_compute; reflexivity]. unfold publish_args_ok. unfold_widths. cbn [hops_limit policy_mode].
  split_and!; try lia; [done|]. repeat constructor.
Qed.

Lemma arrival n : match flight (arrivals n) !! 0%nat with Some fr => bool_decide (is_Some (engines (arrivals n) !! f_to fr)) | None => false end = true ->
  net_step (fun _ => true) Some (arrivals n) (arrivals (S n)).
Proof. apply receive_now_step. Qed.

Lemma final_run : star (net_step (fun _ => true) Some) sent final.
Proof.
  apply (star_step _ _ (arrivals 1)); [apply (arrival 0); vm_compute; reflexivity|].
  apply (star_step _ _ (arrivals 2)); [apply (arrival 1); vm_compute; reflexivity|].
  apply (star_step _ _ (arrivals 3)); [apply (arrival 2); vm_compute; reflexivity|].
  apply (star_step _ _ (arrivals 4)); [apply (arrival 3); vm_compute; reflexivity|].
  apply (star_step _ _ (arrivals 5)); [apply (arrival 4); vm_compute; reflexivity|]. unfold final. apply star_refl.
Qed.
End Reconverging.

(** C33: where routes meet again, a branch is lost.  In this run node 1 publishes
    to nodes 5 and 6, both subscribed, with eight hops; every frame arrives, no
    queue is full, no route is missing and no hop limit is reached, and when
    nothing is left under way node 6 has the message and node 5 does not: node
    4 took the frame for node 6 in, and dropped the frame for node 5 as a
    duplicate. *)
Theorem reconvergent_branch_lost :
  star (net_step (fun _ => true) Some) (net_start Reconverging.all_nodes) Reconverging.final
  /\ flight Reconverging.final = []
  /\ map (fun p => (m_payload (p_message p), list_to_set (p_addressed p) : gset PeerId)) (published Reconverging.final)
     = [([9], {[TwoMessages.key 5; TwoMessages.key 6]})]
  /\ Reconverging.queued Reconverging.final 6 = [[DeliveredOwned [9]]]
  /\ Reconverging.queued Reconverging.final 5 = [[]]
  /\ (forall n c, n ∈ [1; 2; 3; 4; 5; 6] ->
        c ∈ [duplicate_drops; ttl_drops; reflection_drops; decode_drops; queue_full_drops; route_miss_drops; subscriber_queue_drops] ->
        Reconverging.at_node counters (fun _ => 0) Reconverging.final n c = if decide (n = 4 /\ c = duplicate_drops) then 1 else 0).
Proof.
  split; [|do 4 (split; [vm_compute; reflexivity|])].
  - eapply star_trans; [apply Reconverging.ready_run|]. eapply star_step; [apply Reconverging.sent_run|apply Reconverging.final_run].
  - intros n c Hn Hc. repeat (apply elem_of_cons in Hn as [->|Hn] || apply elem_of_nil in Hn as []).
    all: repeat (apply elem_of_cons in Hc as [->|Hc] || apply elem_of_nil in Hc as []); vm_compute; reflexivity.
Qed.
