(* ===== verification/PubSubInterest.v ===== *)
(** * Advertising a node's interest

    Clients subscribe and unsubscribe from any number of threads; each changes
    the subscriber tables first and then counts the change for its topic, and a
    change from none to some or back starts a task that registers or removes
    the topic's interest actor, one task per topic at a time
    ([note_interest] and [drive_interest_dispatch], src/src/pubsub.rs).  When
    everything has come to rest the node advertises the topics it has
    subscribers for. *)

From stdpp Require Import relations.
From S2P Require Import Prelude Types PubSubFrame PubSub PubSubLocal.

(** ** State *)

(** Where the thread of a subscription is: its entry is in the tables and not
    counted yet, its handle is held, or its entry is gone and not discounted yet. *)
Inductive Stage := Entered | Held | Leaving.

#[global] Instance Stage_eq_dec : EqDecision Stage.
Proof. solve_decision. Defined.

(** Where a dispatch loop is, with what it read. *)
Inductive Loop :=
  | Reading
  | Calling (want_present : bool) (generation : Z)
  | Finishing (want_present : bool) (generation : Z).

Record Node := mkNode {
  i_subs : Subscribers;
  i_state : InterestState;
  regs : gmap Z (SubscriptionKind * Stage);
  loops : gmap Z Loop;
  advertised : gset Z;
}.

Definition node_new : Node := mkNode subs_new interest_new ∅ ∅ ∅.

Definition topic_of (k : SubscriptionKind) : option Z :=
  match k with OwnedKind t _ | BorrowedKind t _ => Some t | TypeKind _ => None end.

Definition add_subscriber (k : SubscriptionKind) (s : Subscribers) : Subscribers * Z :=
  match k with
  | OwnedKind t y => add_owned_subscriber (t, y) s
  | BorrowedKind t y => add_borrowed_subscriber (t, y) s
  | TypeKind y => add_type_subscriber y s
  end.

Definition take_subscriber (k : SubscriptionKind) (id : Z) (s : Subscribers) : option Subscribers :=
  match k with
  | OwnedKind t y => take_owned_subscriber (t, y) id s
  | BorrowedKind t y => take_borrowed_subscriber (t, y) id s
  | TypeKind y => remove_type_subscriber y id s
  end.

(** [note_interest], and the task it starts. *)
Definition noted (topic : Z) (present : bool) (rs : gmap Z (SubscriptionKind * Stage)) (x : Node) : Node :=
  let '(st, spawn) := note_interest topic present (i_state x) in
  mkNode (i_subs x) st rs (if (spawn : bool) then <[topic := Reading]> (loops x) else loops x) (advertised x).

(** ** Steps *)

(** Before 2^64 subscriptions and changes. *)
Definition in_range (topic : Z) (st : InterestState) : Prop :=
  count_of st topic < usize_max /\ generation_of st topic < u64_max.

(** What the threads and the tasks do on their own. *)
Inductive task_step (fails : bool) : Node -> Node -> Prop :=
  | task_count id k topic x : regs x !! id = Some (k, Entered) -> topic_of k = Some topic -> in_range topic (i_state x) ->
      task_step fails x (noted topic true (<[id := (k, Held)]> (regs x)) x)
  | task_discount id k topic x : regs x !! id = Some (k, Leaving) -> topic_of k = Some topic -> in_range topic (i_state x) ->
      task_step fails x (noted topic false (delete id (regs x)) x)
  | task_read topic x : loops x !! topic = Some Reading ->
      task_step fails x
        (mkNode (i_subs x) (i_state x) (regs x)
           (<[topic := let '(want, gen) := dispatch_read topic (i_state x) in Calling want gen]> (loops x)) (advertised x))
  | task_call topic want gen x : loops x !! topic = Some (Calling want gen) ->
      task_step fails x
        (mkNode (i_subs x) (i_state x) (regs x) (<[topic := Finishing want gen]> (loops x))
           (if want then {[topic]} ∪ advertised x else advertised x ∖ {[topic]}))
  | task_call_fails topic want gen x : fails = true -> loops x !! topic = Some (Calling want gen) ->
      task_step fails x (mkNode (i_subs x) (i_state x) (regs x) (<[topic := Finishing want gen]> (loops x)) (advertised x))
  | task_finish topic want gen st stop x : loops x !! topic = Some (Finishing want gen) ->
      dispatch_finish topic want gen (i_state x) = (st, stop) ->
      task_step fails x
        (mkNode (i_subs x) st (regs x) (if (stop : bool) then delete topic (loops x) else <[topic := Reading]> (loops x)) (advertised x)).

(** What clients begin. *)
Inductive client_step : Node -> Node -> Prop :=
  | client_subscribe k s id x : next_sub_id (i_subs x) < u64_max -> add_subscriber k (i_subs x) = (s, id) ->
      client_step x
        (mkNode s (i_state x) (<[id := (k, match topic_of k with Some _ => Entered | None => Held end)]> (regs x)) (loops x) (advertised x))
  | client_unsubscribe id k x : regs x !! id = Some (k, Held) ->
      client_step x
        match take_subscriber k id (i_subs x) with
        | Some s =>
            mkNode s (i_state x) (match topic_of k with Some _ => <[id := (k, Leaving)]> (regs x) | None => delete id (regs x) end) (loops x) (advertised x)
        | None => mkNode (i_subs x) (i_state x) (delete id (regs x)) (loops x) (advertised x)
        end.

Definition node_step (fails : bool) (x y : Node) : Prop := client_step x y \/ task_step fails x y.

(** A subscriber of the topic. *)
Definition subscribed (topic : Z) (s : Subscribers) : Prop := exists k id, topic_of k = Some topic /\ id ∈ entries s k.

(** ** The tables *)
Lemma add_subscriber_spec k s s' id : add_subscriber k s = (s', id) -> subs_ok s -> next_sub_id s < u64_max ->
  subs_ok s' /\ id = next_sub_id s /\ next_sub_id s' = id + 1
  /\ forall i k', i ∈ entries s' k' <-> i ∈ entries s k' \/ (i = id /\ k' = k).
Proof.
  intros E Hs Hm. assert (subs_ok s') as Hs'.
  { apply (f_equal fst) in E. cbn [fst] in E. subst s'. destruct k; [by apply add_owned_ok|by apply add_borrowed_ok|by apply add_type_ok]. }
  assert (wrapping_add u64_max (next_sub_id s) 1 = next_sub_id s + 1) as Ew.
  { pose proof (so_next _ Hs). unfold wrapping_add. rewrite Z.mod_small; unfold_widths; lia. }
  split; [done|]. destruct k; injection E as <- <-; (split; [done|]); (split; [exact Ew|]); intros i [];
    cbn; rewrite ?callbacks_insert; repeat case_decide; simplify_eq; rewrite ?elem_of_app, ?list_elem_of_singleton; unfold callbacks; intuition congruence.
Qed.

Lemma take_out_found id l : id ∈ l -> is_Some (take_out id l).
Proof.
  intros Hi. unfold take_out. destruct (list_find_elem_of (fun e => e = id) l id Hi eq_refl) as ([pos x] & ->). cbn. eauto.
Qed.

Lemma take_subscriber_spec k id s : subs_ok s -> id ∈ entries s k ->
  exists s', take_subscriber k id s = Some s' /\ subs_ok s' /\ next_sub_id s' = next_sub_id s
  /\ forall i k', i ∈ entries s' k' <-> i ∈ entries s k' /\ i <> id.
Proof.
  intros Hs Hi. destruct (take_out_found _ _ Hi) as (l & El).
  assert (exists s', take_subscriber k id s = Some s' /\ next_sub_id s' = next_sub_id s
    /\ forall k', entries s' k' = if decide (k' = k) then l else entries s k') as (s' & Et & En & He).
  { destruct k; cbn [entries take_subscriber] in El |- *; unfold callbacks, take_owned_subscriber, take_borrowed_subscriber, remove_type_subscriber in *;
      (destruct (_ !! _) as [l0|]; cbn [default mbind option_bind] in El |- *; [|done]); change (Datatypes.id l0) with l0 in El;
      rewrite El; cbn [mbind option_bind]; eexists; (split; [done|]); (split; [done|]);
      intros []; cbn; rewrite ?callbacks_put_back; repeat case_decide; simplify_eq; done. }
  exists s'. split; [done|]. split; [destruct k; [by eapply take_owned_ok|by eapply take_borrowed_ok|by eapply take_type_ok]|]. split; [done|].
  destruct (take_out_spec _ _ _ El (so_nodup _ Hs k)) as (_ & _ & Hl). intros i k'. rewrite He. case_decide as Ek; [subst; apply Hl|].
  split; [|tauto]. intros Hik. split; [done|]. intros ->. by rewrite (so_unique _ Hs _ _ _ Hik Hi) in Ek.
Qed.

(** ** Counting *)
Lemma note_spec t p st : in_range t st -> 0 <= count_of st t -> (p = false -> 0 < count_of st t) ->
  let '(st', spawn) := note_interest t p st in
  let transition := xorb (0 <? count_of st t) (0 <? count_of st' t) in
  count_of st' t = count_of st t + (if p then 1 else -1)
  /\ generation_of st' t = generation_of st t + (if transition then 1 else 0)
  /\ spawn = transition && bool_decide (t ∉ dispatch_in_flight st)
  /\ dispatch_in_flight st' = (if spawn then {[t]} ∪ dispatch_in_flight st else dispatch_in_flight st)
  /\ (local_counts st' !! t = None <-> count_of st' t = 0)
  /\ (transition = false -> generations st' !! t = generations st !! t)
  /\ forall t', t' <> t -> local_counts st' !! t' = local_counts st !! t' /\ generations st' !! t' = generations st !! t'.
Proof.
  intros [Hc Hg] H0 Hp. unfold note_interest.
  set (next := if p then saturating_add usize_max (count_of st t) 1 else saturating_sub (count_of st t) 1).
  assert (next = count_of st t + (if p then 1 else -1)) as En.
  { unfold next, saturating_add, saturating_sub. destruct p; [|specialize (Hp eq_refl)]; lia. }
  set (counts := if next =? 0 then _ else _). set (tr := (p && _) || _). set (gens := if tr then _ else _).
  assert (default 0 (counts !! t) = next) as Ecount.
  { unfold counts. destruct (Z.eqb_spec next 0) as [->|]; [by rewrite lookup_delete_eq|by rewrite lookup_insert_eq]. }
  assert (counts !! t = None <-> next = 0) as Ec0.
  { unfold counts. destruct (Z.eqb_spec next 0) as [->|]; [by rewrite lookup_delete_eq|by rewrite lookup_insert_eq]. }
  assert (tr = xorb (0 <? count_of st t) (0 <? next)) as Etr.
  { unfold tr. rewrite En. destruct p; [|specialize (Hp eq_refl)]; cbn; cmp_cases; cbn; try done; lia. }
  assert (default 0 (gens !! t) = generation_of st t + (if tr then 1 else 0)) as Eg.
  { unfold gens, saturating_add. destruct tr; [rewrite lookup_insert_eq; cbn; lia|unfold generation_of; lia]. }
  destruct (tr && bool_decide (t ∉ dispatch_in_flight st)) eqn:Es; unfold count_of, generation_of in *; cbn [local_counts generations dispatch_in_flight] in *;
    rewrite Ecount, <- Etr.
  all: split_and!; try done; try lia.
  all: try (intros Et; unfold gens; by rewrite Et).
  all: intros t' Hne; split; [unfold counts; destruct (next =? 0)|unfold gens; destruct tr]; rewrite ?lookup_delete_ne, ?lookup_insert_ne by done; done.
Qed.

Definition weight (t : Z) (r : SubscriptionKind * Stage) : Z := if decide (topic_of r.1 = Some t /\ r.2 <> Entered) then 1 else 0.

Lemma weight_nonneg t r : 0 <= weight t r.
Proof. unfold weight. case_decide; lia. Qed.

(** What the loop of a topic knows. *)
Definition loop_ok (t : Z) (st : InterestState) (adv : gset Z) (o : option Loop) : Prop :=
  match o with
  | None => (t ∈ adv <-> 0 < count_of st t) /\ (count_of st t = 0 -> generations st !! t = None)
  | Some Reading => True
  | Some (Calling want gen) => gen <= generation_of st t /\ (generation_of st t = gen -> want = (0 <? count_of st t))
  | Some (Finishing want gen) =>
      (gen <= generation_of st t /\ (generation_of st t = gen -> want = (0 <? count_of st t))) /\ (t ∈ adv <-> want = true)
  end.

Record node_ok (x : Node) : Prop := {
  nk_subs : subs_ok (i_subs x);
  nk_regs id k : id ∈ entries (i_subs x) k <-> exists stage, regs x !! id = Some (k, stage) /\ stage <> Leaving;
  nk_fresh id r : regs x !! id = Some r -> id < next_sub_id (i_subs x);
  nk_count t : count_of (i_state x) t = map_sum (weight t) (regs x);
  nk_counts t : local_counts (i_state x) !! t = None <-> count_of (i_state x) t = 0;
  nk_flight t : t ∈ dispatch_in_flight (i_state x) <-> is_Some (loops x !! t);
  nk_loop t : loop_ok t (i_state x) (advertised x) (loops x !! t);
}.

Lemma count_nonneg x t : node_ok x -> 0 <= count_of (i_state x) t.
Proof. intros Hx. rewrite (nk_count _ Hx). apply map_sum_nonneg. intros. apply weight_nonneg. Qed.

Lemma node_new_ok : node_ok node_new.
Proof.
  split; cbn.
  - apply subs_new_ok.
  - intros id k. split; [|intros (? & E & _); by rewrite lookup_empty in E]. destruct k; cbn; unfold callbacks; rewrite lookup_empty; by intros Hi%elem_of_nil.
  - intros id r E. by rewrite lookup_empty in E.
  - intros t. done.
  - intros t. unfold count_of. cbn. by rewrite lookup_empty.
  - intros t. rewrite lookup_empty. split; [by intros Hi%elem_of_empty|by intros [? ?]].
  - intros t. rewrite lookup_empty. cbn. unfold count_of. cbn. rewrite !lookup_empty. cbn. split; [|done]. split; [by intros Hi%elem_of_empty|lia].
Qed.

(** Counting a change wakes the loop that is under way, or starts one. *)
Lemma loop_note t st st' adv o tr : tr = xorb (0 <? count_of st t) (0 <? count_of st' t) -> 0 <= count_of st t -> 0 <= count_of st' t ->
  generation_of st' t = generation_of st t + (if tr then 1 else 0) -> (tr = false -> generations st' !! t = generations st !! t) ->
  loop_ok t st adv o -> loop_ok t st' adv (match o with Some l => Some l | None => if tr then Some Reading else None end).
Proof.
  intros Et H0 H0' Eg Egen. destruct tr.
  - destruct o as [[|want gen|want gen]|]; cbn; try done.
    + intros [H1 H2]. split; lia.
    + intros [[H1 H2] H3]. split; [split; lia|done].
  - assert ((0 <? count_of st' t) = (0 <? count_of st t)) as Hsame by (by destruct (0 <? count_of st t), (0 <? count_of st' t)).
    rewrite Z.add_0_r in Eg. destruct o as [[|want gen|want gen]|]; cbn; rewrite ?Eg, ?Hsame, ?Egen by done; try done.
    intros [H1 H2]. revert Hsame. rewrite H1. cmp_cases; try done; intros _; split; try lia; intros; apply H2; lia.
Qed.

Lemma noted_ok x id k stage t p rs : node_ok x -> regs x !! id = Some (k, stage) -> topic_of k = Some t -> in_range t (i_state x) ->
  (p = false -> 0 < count_of (i_state x) t) ->
  (forall id k, (exists s, rs !! id = Some (k, s) /\ s <> Leaving) <-> (exists s, regs x !! id = Some (k, s) /\ s <> Leaving)) ->
  (forall id r, rs !! id = Some r -> is_Some (regs x !! id)) ->
  (forall t', map_sum (weight t') rs = map_sum (weight t') (regs x) + (if decide (t' = t) then (if p then 1 else -1) else 0)) ->
  node_ok (noted t p rs x).
Proof.
  intros Hx Hr Hk Hin Hp Hrs Hdom Hsum. pose proof (note_spec t p (i_state x) Hin (count_nonneg x t Hx) Hp) as Hn. unfold noted.
  destruct (note_interest t p (i_state x)) as [st spawn]. destruct Hn as (Ec & Eg & Es & Ef & E0 & Egen & Hother).
  assert (forall t', count_of st t' = count_of (i_state x) t' + (if decide (t' = t) then (if p then 1 else -1) else 0)) as Hc.
  { intros t'. destruct (decide (t' = t)) as [E|E]; [rewrite E; exact Ec|]. unfold count_of. rewrite (proj1 (Hother t' E)). lia. }
  pose proof (count_nonneg x t Hx) as Hc0. assert (0 <= count_of st t) as Hc0' by (rewrite Ec; destruct p; [|specialize (Hp eq_refl)]; lia).
  destruct Hx as [H1 H2 H3 H4 H5 H6 H7]. split; cbn [i_subs i_state regs loops advertised].
  - done.
  - intros i k'. rewrite H2. symmetry. apply Hrs.
  - intros i r Hi. destruct (Hdom _ _ Hi) as (r' & Hi'). by eapply H3.
  - intros t'. by rewrite Hc, H4, Hsum.
  - intros t'. destruct (decide (t' = t)) as [->|E]; [done|]. unfold count_of. rewrite (proj1 (Hother t' E)). apply H5.
  - intros t'. rewrite Ef. destruct spawn; [|apply H6]. rewrite elem_of_union, elem_of_singleton, H6, lookup_insert.
    destruct (decide (t = t')); [subst; split; [eauto|by left]|]. naive_solver.
  - intros t'. destruct (decide (t' = t)) as [->|E].
    2: { specialize (H7 t'). assert (count_of st t' = count_of (i_state x) t' /\ generation_of st t' = generation_of (i_state x) t') as [E1 E2].
         { unfold count_of, generation_of. by rewrite (proj1 (Hother t' E)), (proj2 (Hother t' E)). }
         replace ((if spawn then <[t:=Reading]> (loops x) else loops x) !! t') with (loops x !! t') by (destruct spawn; rewrite ?lookup_insert_ne; done).
         unfold loop_ok in *. rewrite E1, E2, (proj2 (Hother t' E)). done. }
    pose proof (loop_note t _ st _ _ _ eq_refl Hc0 Hc0' Eg Egen (H7 t)) as Hl. revert Hl Es. generalize (xorb (0 <? count_of (i_state x) t) (0 <? count_of st t)).
    intros tr Hl Es. specialize (H6 t). destruct (loops x !! t) as [l|] eqn:El.
    + rewrite bool_decide_false, andb_false_r in Es by (intros Hn; by apply Hn, H6). subst spawn. by rewrite El.
    + rewrite bool_decide_true, andb_true_r in Es by (intros [? ?]%H6; done). subst spawn.
      destruct tr; [by rewrite lookup_insert_eq|by rewrite El].
Qed.

Lemma count_step x id k t : node_ok x -> regs x !! id = Some (k, Entered) -> topic_of k = Some t -> in_range t (i_state x) ->
  node_ok (noted t true (<[id := (k, Held)]> (regs x)) x).
Proof.
  intros Hx Hr Hk Hin. eapply noted_ok; try done.
  - intros i k'. rewrite lookup_insert. case_decide as E; [subst i; rewrite Hr|done]. naive_solver.
  - intros i r. rewrite lookup_insert. case_decide as E; [subst i; eauto|eauto].
  - intros t'. rewrite (map_sum_replace _ _ _ _ _ Hr). unfold weight. cbn [fst snd]. rewrite Hk. repeat case_decide; naive_solver lia.
Qed.

Lemma discount_step x id k t : node_ok x -> regs x !! id = Some (k, Leaving) -> topic_of k = Some t -> in_range t (i_state x) ->
  node_ok (noted t false (delete id (regs x)) x).
Proof.
  intros Hx Hr Hk Hin. assert (forall t', weight t' (k, Leaving) = if decide (t' = t) then 1 else 0) as Hw.
  { intros t'. unfold weight. cbn [fst snd]. rewrite Hk. repeat case_decide; naive_solver. }
  eapply noted_ok; try done.
  - intros _. rewrite (nk_count _ Hx), (map_sum_delete _ _ _ _ Hr), Hw, decide_True by done.
    pose proof (map_sum_nonneg (weight t) (delete id (regs x)) ltac:(intros; apply weight_nonneg)). lia.
  - intros i k'. rewrite lookup_delete. case_decide as E; [subst i; rewrite Hr|done]. naive_solver.
  - intros i r [_ Hi]%lookup_delete_Some. eauto.
  - intros t'. rewrite (map_sum_delete _ _ _ _ Hr), Hw. case_decide; lia.
Qed.

Lemma client_step_ok x y : client_step x y -> node_ok x -> node_ok y.
Proof.
  intros Hst Hx. destruct Hst as [k s id x Hm Ha|id k x Hr]; destruct Hx as [H1 H2 H3 H4 H5 H6 H7].
  - destruct (add_subscriber_spec _ _ _ _ Ha H1 Hm) as (Hs & -> & En & He).
    assert (regs x !! next_sub_id (i_subs x) = None) as Hnone.
    { destruct (regs x !! _) as [r|] eqn:E; [|done]. apply H3 in E. lia. }
    split; cbn [i_subs i_state regs loops advertised]; try done.
    + intros i k'. rewrite He, H2, lookup_insert. case_decide as E; [subst i; rewrite Hnone|]; destruct (topic_of k); naive_solver.
    + intros i r. rewrite lookup_insert. case_decide as E; [lia|]. intros Hi%H3. lia.
    + intros t. rewrite map_sum_insert, H4 by done. unfold weight. cbn [fst snd]. destruct (topic_of k); case_decide; naive_solver lia.
  - assert (id ∈ entries (i_subs x) k) as Hi by (apply H2; eauto).
    destruct (take_subscriber_spec _ _ _ H1 Hi) as (s & -> & Hs & En & He).
    split; cbn [i_subs i_state regs loops advertised]; try done.
    + intros i k'. rewrite He, H2. destruct (topic_of k); rewrite ?lookup_insert, ?lookup_delete; case_decide as E; naive_solver.
    + intros i r. rewrite En. destruct (topic_of k); rewrite ?lookup_insert, ?lookup_delete; case_decide as E; try done; try apply H3.
      subst i. intros _. by eapply H3.
    + intros t. rewrite H4. destruct (topic_of k) eqn:Ek.
      * rewrite (map_sum_replace _ _ _ _ _ Hr). unfold weight. cbn [fst snd]. repeat case_decide; naive_solver lia.
      * rewrite (map_sum_delete _ _ _ _ Hr). unfold weight at 1. cbn [fst snd]. case_decide; naive_solver lia.
Qed.

Lemma task_step_ok x y : task_step false x y -> node_ok x -> node_ok y.
Proof.
  intros Hst Hx. destruct Hst as [id k t x Hr Hk Hin|id k t x Hr Hk Hin|t x El|t want gen x El|t want gen x Hf El|t want gen st stop x El Ed].
  - by apply (count_step x id k t).
  - by apply (discount_step x id k t).
  - destruct Hx as [H1 H2 H3 H4 H5 H6 H7]. split; cbn [i_subs i_state regs loops advertised]; try done.
    + intros t'. rewrite H6, lookup_insert. case_decide; [subst|done]. naive_solver.
    + intros t'. rewrite lookup_insert. case_decide as E; [subst|done]. cbn. lia.
  - destruct Hx as [H1 H2 H3 H4 H5 H6 H7]. split; cbn [i_subs i_state regs loops advertised]; try done.
    + intros t'. rewrite H6, lookup_insert. case_decide; [subst|done]. naive_solver.
    + intros t'. specialize (H7 t'). rewrite lookup_insert. case_decide as E.
      * subst. rewrite El in H7. cbn in *. split; [done|]. destruct want; set_solver.
      * assert (t' ∈ (if want then {[t]} ∪ advertised x else advertised x ∖ {[t]}) <-> t' ∈ advertised x) as Ha by (destruct want; set_solver).
        destruct (loops x !! t') as [[| |]|]; cbn in *; rewrite ?Ha; done.
  - done.
  - destruct Hx as [H1 H2 H3 H4 H5 H6 H7]. unfold dispatch_finish in Ed. pose proof (H7 t) as Ht. rewrite El in Ht. destruct Ht as [[_ Hw] Ha].
    destruct (Z.eqb_spec (generation_of (i_state x) t) gen) as [Eg|]; injection Ed as <- <-.
    2: { split; cbn [i_subs i_state regs loops advertised]; try done.
         - intros t'. rewrite H6, lookup_insert. case_decide; [subst|done]. naive_solver.
         - intros t'. rewrite lookup_insert. by case_decide. }
    specialize (Hw Eg).
    split; cbn [i_subs i_state regs loops advertised local_counts dispatch_in_flight]; try done.
    + intros t'. rewrite elem_of_difference, elem_of_singleton, H6, lookup_delete. case_decide; naive_solver.
    + intros t'. rewrite lookup_delete. case_decide as E.
      * subst t'. cbn. change (count_of (mkInterest _ _ _) t) with (count_of (i_state x) t).
        pose proof (count_nonneg _ t (Build_node_ok _ H1 H2 H3 H4 H5 H6 H7)). rewrite Ha. split; [rewrite Hw; lia|].
        intros E0. rewrite E0 in Hw. subst want. cbn. apply lookup_delete_eq.
      * specialize (H7 t'). assert ((if want then generations (i_state x) else delete t (generations (i_state x))) !! t' = generations (i_state x) !! t') as E2
          by (destruct want; rewrite ?lookup_delete_ne; done).
        unfold loop_ok, count_of, generation_of in *. cbn [local_counts generations]. by rewrite E2.
Qed.

(** ** Coming to rest *)
Definition pending (r : SubscriptionKind * Stage) : Z := if decide (r.2 = Held) then 0 else 1.

Definition loop_cost (generation : Z) (l : Loop) : Z :=
  match l with
  | Reading => 3
  | Calling _ g => if g =? generation then 2 else 5
  | Finishing _ g => if g =? generation then 1 else 4
  end.

Definition costs (x : Node) : gmap Z Z := map_imap (fun t l => Some (loop_cost (generation_of (i_state x) t) l)) (loops x).

(** An upper bound of the steps left. *)
Definition work (x : Node) : Z := 4 * map_sum pending (regs x) + map_sum id (costs x).

Lemma loop_cost_pos gen l : 1 <= loop_cost gen l <= 5.
Proof. destruct l; cbn; cmp_cases; lia. Qed.

Lemma costs_lookup x t : costs x !! t = loop_cost (generation_of (i_state x) t) <$> loops x !! t.
Proof. unfold costs. rewrite map_lookup_imap. by destruct (loops x !! t). Qed.

Lemma costs_nonneg x : 0 <= map_sum id (costs x) /\ forall t c, costs x !! t = Some c -> 1 <= c <= 5.
Proof.
  assert (forall t c, costs x !! t = Some c -> 1 <= c <= 5) as Hc.
  { intros t c. rewrite costs_lookup. intros (l & _ & ->)%fmap_Some. apply loop_cost_pos. }
  split; [|done]. apply map_sum_nonneg. intros t c E%Hc. unfold id. lia.
Qed.

(** A change at one topic. *)
Lemma costs_change x y t o : (forall t', t' <> t -> loops y !! t' = loops x !! t' /\ generation_of (i_state y) t' = generation_of (i_state x) t') ->
  costs y !! t = o -> map_sum id (costs y) = map_sum id (costs x) - default 0 (costs x !! t) + default 0 o.
Proof.
  intros Hother Hy. assert (costs y = match o with Some c => <[t := c]> (costs x) | None => delete t (costs x) end) as ->.
  { apply map_eq. intros t'. destruct (decide (t' = t)) as [->|Hne].
    - rewrite Hy. destruct o; by rewrite ?lookup_insert_eq, ?lookup_delete_eq.
    - rewrite !costs_lookup. destruct (Hother t' Hne) as [-> ->]. destruct o; rewrite ?lookup_insert_ne, ?lookup_delete_ne, costs_lookup by done; done. }
  destruct (costs x !! t) as [c|] eqn:Ec; destruct o as [c'|]; cbn.
  - rewrite (map_sum_replace _ _ _ _ _ Ec). unfold id. lia.
  - rewrite (map_sum_delete id (costs x) t c Ec). unfold id. lia.
  - rewrite map_sum_insert by done. unfold id. lia.
  - rewrite delete_id by done. lia.
Qed.

Lemma note_generations t p st t' : t' <> t -> generation_of (note_interest t p st).1 t' = generation_of st t'.
Proof.
  intros Hne. unfold note_interest, generation_of. destruct (_ && _); cbn [fst generations]; destruct (_ || _); rewrite ?lookup_insert_ne by done; done.
Qed.

Lemma noted_cost x t p rs : map_sum id (costs (noted t p rs x)) <= map_sum id (costs x) + 3.
Proof.
  pose proof (note_generations t p (i_state x)) as Hg. unfold noted. destruct (note_interest t p (i_state x)) as [st spawn].
  set (y := mkNode _ _ _ _ _).
  rewrite (costs_change x y t (costs y !! t)); [|intros t' Hne; split; [cbn; destruct spawn; by rewrite ?lookup_insert_ne|by apply Hg]|done].
  rewrite !costs_lookup. unfold y. cbn [loops i_state]. destruct spawn; [rewrite lookup_insert_eq|]; destruct (loops x !! t) as [[| |]|]; cbn; cmp_cases; lia.
Qed.

Lemma task_step_work x y : task_step false x y -> work y < work x.
Proof.
  assert (forall id k st k' st', regs x !! id = Some (k, st) -> map_sum pending (<[id := (k', st')]> (regs x))
    = map_sum pending (regs x) - pending (k, st) + pending (k', st')) as Hrep by (intros; by apply map_sum_replace).
  intros Hst. unfold work. destruct Hst as [id k t x Hr Hk Hin|id k t x Hr Hk Hin|t x El|t want gen x El|t want gen x Hf El|t want gen st stop x El Ed].
  - pose proof (noted_cost x t true (<[id := (k, Held)]> (regs x))).
    assert (regs (noted t true (<[id := (k, Held)]> (regs x)) x) = <[id := (k, Held)]> (regs x)) as -> by (unfold noted; by destruct (note_interest _ _ _)).
    rewrite (Hrep _ _ _ _ _ Hr). change (pending (k, Entered)) with 1. change (pending (k, Held)) with 0. lia.
  - pose proof (noted_cost x t false (delete id (regs x))).
    assert (regs (noted t false (delete id (regs x)) x) = delete id (regs x)) as -> by (unfold noted; by destruct (note_interest _ _ _)).
    rewrite (map_sum_delete pending (regs x) id _ Hr). change (pending (k, Leaving)) with 1. lia.
  - set (y := mkNode _ _ _ _ _). rewrite (costs_change x y t (costs y !! t)); [|intros t' Hne; split; [by cbn; rewrite lookup_insert_ne|done]|done].
    rewrite !costs_lookup. cbn [loops i_state y]. rewrite lookup_insert_eq, El. cbn. rewrite Z.eqb_refl. lia.
  - set (y := mkNode _ _ _ _ _). rewrite (costs_change x y t (costs y !! t)); [|intros t' Hne; split; [by cbn; rewrite lookup_insert_ne|done]|done].
    rewrite !costs_lookup. cbn [loops i_state y]. rewrite lookup_insert_eq, El. cbn. cmp_cases; lia.
  - done.
  - set (y := mkNode _ _ _ _ _).
    assert (forall t', t' <> t -> loops y !! t' = loops x !! t' /\ generation_of (i_state y) t' = generation_of (i_state x) t') as Hother.
    { intros t' Hne. unfold dispatch_finish in Ed. destruct (_ =? gen); injection Ed as <- <-; cbn; rewrite ?lookup_insert_ne, ?lookup_delete_ne by done; [|done].
      split; [done|]. unfold generation_of. cbn. destruct want; by rewrite ?lookup_delete_ne. }
    rewrite (costs_change x y t (costs y !! t) Hother eq_refl). rewrite !costs_lookup. cbn [loops i_state y]. rewrite El.
    unfold dispatch_finish in Ed. destruct (Z.eqb_spec (generation_of (i_state x) t) gen) as [Eg|Eg]; injection Ed as <- <-.
    + rewrite lookup_delete_eq. cbn. cmp_cases; lia.
    + rewrite lookup_insert_eq. cbn. cmp_cases; lia.
Qed.

(** A node with nothing under way. *)
Lemma at_rest x : node_ok x -> (forall t, in_range t (i_state x)) -> (~ exists y, task_step false x y) ->
  loops x = ∅ /\ forall id k stage, regs x !! id = Some (k, stage) -> topic_of k <> None -> stage = Held.
Proof.
  intros Hx Hin Hno. split.
  - apply map_eq. intros t. rewrite lookup_empty. destruct (loops x !! t) as [[|want gen|want gen]|] eqn:El; [..|done]; destruct Hno.
    + eexists. by apply (task_read false t).
    + eexists. by apply (task_call false t want gen).
    + destruct (dispatch_finish t want gen (i_state x)) as [st stop] eqn:Ed. eexists. by apply (task_finish false t want gen st stop).
  - intros id k stage Hr Hk. destruct (topic_of k) as [t|] eqn:Ek; [|done]. destruct stage; [|done|]; destruct Hno; eexists;
      [by apply (task_count false id k t)|by apply (task_discount false id k t)].
Qed.

Lemma advertised_subscribed x t : node_ok x -> loops x = ∅ -> (forall id k stage, regs x !! id = Some (k, stage) -> topic_of k <> None -> stage = Held) ->
  t ∈ advertised x <-> subscribed t (i_subs x).
Proof.
  intros Hx El Hheld. pose proof (nk_loop _ Hx t) as Hl. rewrite El, lookup_empty in Hl. destruct Hl as [-> _]. rewrite (nk_count _ Hx).
  assert (0 < map_sum (weight t) (regs x) <-> exists id k stage, regs x !! id = Some (k, stage) /\ topic_of k = Some t /\ stage <> Entered) as ->.
  { generalize (regs x). intros m. induction m as [|i [k stage] m Hi IH] using map_ind.
    { rewrite map_sum_empty. split; [lia|]. intros (? & ? & ? & E & _). by rewrite lookup_empty in E. }
    rewrite map_sum_insert by done. pose proof (map_sum_nonneg (weight t) m ltac:(intros; apply weight_nonneg)).
    unfold weight at 1. cbn [fst snd]. case_decide as Ed.
    - split; [|lia]. intros _. exists i, k, stage. rewrite lookup_insert_eq. tauto.
    - rewrite Z.add_0_l, IH. split; intros (i' & k' & s' & Hi' & Hk & Hs).
      + exists i', k', s'. rewrite lookup_insert_ne; [tauto|]. intros ->. by rewrite Hi in Hi'.
      + apply lookup_insert_Some in Hi' as [[-> [= -> ->]]|[_ Hi']]; [tauto|]. eauto 6. }
  split.
  - intros (id & k & stage & Hr & Hk & _). exists k, id. split; [done|]. apply (nk_regs _ Hx). exists stage. split; [done|].
    rewrite (Hheld id k stage Hr); [done|by rewrite Hk].
  - intros (k & id & Hk & (stage & Hr & Hs)%(nk_regs _ Hx)). exists id, k, stage. split_and!; try done.
    rewrite (Hheld id k stage Hr); [done|by rewrite Hk].
Qed.

Lemma nsteps_work n x y : nsteps (task_step false) n x y -> Z.of_nat n + work y <= work x.
Proof.
  induction 1 as [|n x y z Hst _ IH]; [lia|]. apply task_step_work in Hst. lia.
Qed.

Lemma costs_le x : map_sum id (costs x) <= 5 * map_len (loops x).
Proof.
  assert (map_len (costs x) = map_len (loops x)) as <-.
  { unfold map_len. rewrite <- !size_dom. do 2 f_equal. apply set_eq. intros t. rewrite !elem_of_dom, costs_lookup. by rewrite fmap_is_Some. }
  pose proof (proj2 (costs_nonneg x)) as Hc. revert Hc. generalize (costs x). intros m. induction m as [|t c m Ht IH] using map_ind; intros Hc; [done|].
  rewrite map_sum_insert, map_len_insert_fresh by done. pose proof (Hc t c (lookup_insert_eq m t c)).
  assert (map_sum id m <= 5 * map_len m); [|unfold id in *; lia]. apply IH. intros t' c' E. apply (Hc t'). rewrite lookup_insert_ne; [done|congruence].
Qed.

(** C28: interest in topics is advertised.  Let clients subscribe and unsubscribe
    from any number of threads, and let the counting and the dispatch loops
    run at any pace, with the registry taking every call.  From then on the
    threads and tasks take at most four steps for each subscription not counted
    yet and five for each loop, and when none of them can move the node
    advertises exactly the topics that have a subscriber, and keeps no count and
    no generation of any other topic. *)
Theorem interest_converges x y n :
  star (node_step false) node_new x -> nsteps (task_step false) n x y ->
  Z.of_nat n <= 4 * map_sum pending (regs x) + 5 * map_len (loops x)
  /\ ((forall t, in_range t (i_state y)) -> (~ exists z, task_step false y z) ->
      forall t, (t ∈ advertised y <-> subscribed t (i_subs y))
        /\ (t ∉ advertised y -> local_counts (i_state y) !! t = None /\ generations (i_state y) !! t = None)).
Proof.
  intros Hx Hn. assert (node_ok x) as Hok.
  { eapply star_invariant; [|exact Hx|apply node_new_ok]. intros a b Ha [Hc|Ht]; [by eapply client_step_ok|by eapply task_step_ok]. }
  split.
  - apply nsteps_work in Hn. assert (0 <= work y) as Hy.
    { unfold work. pose proof (proj1 (costs_nonneg y)). pose proof (map_sum_nonneg pending (regs y) ltac:(intros; unfold pending; case_decide; lia)). lia. }
    enough (map_sum id (costs x) <= 5 * map_len (loops x)) by (unfold work in *; lia). apply costs_le.
  - intros Hin Hno t. assert (node_ok y) as Hoky by (clear -Hn Hok; induction Hn as [|n a b c Hst _ IH]; [done|]; by eapply IH, task_step_ok).
    destruct (at_rest y Hoky Hin Hno) as [El Hheld]. pose proof (advertised_subscribed y t Hoky El Hheld) as Hadv. split; [done|].
    intros Hna. pose proof (nk_loop _ Hoky t) as Hl. rewrite El, lookup_empty in Hl. destruct Hl as [Ha Hg].
    assert (count_of (i_state y) t = 0) as E0 by (pose proof (count_nonneg y t Hoky); rewrite Ha in Hna; lia).
    split; [by apply (nk_counts _ Hoky)|auto].
Qed.

(** ** A run: one subscription *)
Module OneSubscriber.
Definition entered : Node :=
  mkNode (add_owned_subscriber (1, 2) subs_new).1 interest_new {[1 := (OwnedKind 1 2, Entered)]} ∅ ∅.
Definition counted : Node := noted 1 true {[1 := (OwnedKind 1 2, Held)]} entered.
Definition asked : Node :=
  mkNode (i_subs counted) (i_state counted) (regs counted) (<[1 := Calling true 1]> (loops counted)) (advertised counted).

(** The registry took the call, or refused it. *)
Definition answered (took : bool) : Node :=
  mkNode (i_subs asked) (i_state asked) (regs asked) (<[1 := Finishing true 1]> (loops asked)) (if took then {[1]} ∪ advertised asked else advertised asked).
Definition finished (took : bool) : Node :=
  mkNode (i_subs (answered took)) (dispatch_finish 1 true 1 (i_state (answered took))).1 (regs (answered took)) (delete 1 (loops (answered took)))
    (advertised (answered took)).

(** A second subscriber of the topic. *)
Definition second : Node :=
  noted 1 true {[1 := (OwnedKind 1 2, Held); 2 := (OwnedKind 1 2, Held)]}
    (mkNode (add_owned_subscriber (1, 2) (i_subs (finished false))).1 (i_state (finished false))
       {[1 := (OwnedKind 1 2, Held); 2 := (OwnedKind 1 2, Entered)]} (loops (finished false)) (advertised (finished false))).

Lemma entered_run fails : star (node_step fails) node_new entered.
Proof.
  apply star_one. left. apply (client_subscribe (OwnedKind 1 2) _ 1 node_new); [done|reflexivity].
Qed.

Lemma count_run fails : task_step fails entered counted.
Proof.
  apply (task_count fails 1 (OwnedKind 1 2) 1 entered); [reflexivity|reflexivity|]. split; vm_compute; reflexivity.
Qed.

Lemma finish_run took : nsteps (task_step (negb took)) 4 entered (finished took).
Proof.
  apply (nsteps_l _ _ _ counted); [apply count_run|].
  apply (nsteps_l _ _ _ asked); [apply (task_read _ 1 counted); vm_compute; reflexivity|].
  apply (nsteps_l _ _ _ (answered took)).
  { destruct took; [apply (task_call _ 1 true 1 asked)|apply (task_call_fails _ 1 true 1 asked)]; vm_compute; reflexivity. }
  apply (nsteps_l _ _ _ (finished took)); [|apply nsteps_O].
  apply (task_finish _ 1 true 1 (dispatch_finish 1 true 1 (i_state (answered took))).1 true); destruct took; vm_compute; reflexivity.
Qed.

Lemma rest_stays fails x y : loops x = ∅ -> forallb (fun r => bool_decide (r.2.2 = Held)) (map_to_list (regs x)) = true -> ~ task_step fails x y.
Proof.
  intros El Hb Hst. assert (forall id r, regs x !! id = Some r -> r.2 = Held) as Hr.
  { intros id r Hi%elem_of_map_to_list. rewrite forallb_forall in Hb. by apply list_elem_of_In, Hb, bool_decide_eq_true in Hi. }
  destruct Hst as [id k t x Hi|id k t x Hi|t x Hl|t want gen x Hl|t want gen x _ Hl|t want gen st stop x Hl _];
    try (by rewrite El, lookup_empty in Hl); by apply Hr in Hi.
Qed.
End OneSubscriber.

Lemma interest_converges_witness :
  4 <= 4 * map_sum pending (regs OneSubscriber.entered) + 5 * map_len (loops OneSubscriber.entered)
  /\ (1 ∈ advertised (OneSubscriber.finished true) <-> subscribed 1 (i_subs (OneSubscriber.finished true))).
Proof.
  destruct (interest_converges OneSubscriber.entered (OneSubscriber.finished true) 4 (OneSubscriber.entered_run false) (OneSubscriber.finish_run true))
    as [Hn Hrest].
  split; [exact Hn|]. apply Hrest.
  - intros t. unfold in_range. unfold count_of, generation_of. change (local_counts (i_state (OneSubscriber.finished true))) with ({[1 := 1]} : gmap Z Z).
    change (generations (i_state (OneSubscriber.finished true))) with ({[1 := 1]} : gmap Z Z).
    destruct (decide (t = 1)) as [->|Hne]; [rewrite lookup_singleton_eq|rewrite lookup_singleton_ne by congruence]; split; reflexivity.
  - intros (z & Hz). eapply OneSubscriber.rest_stays; [..|exact Hz]; vm_compute; reflexivity.
Defined.

(** A refused registration is not repeated.  When the registry refuses the
    call for the first subscriber of a topic, the loop ends all the same, and
    further subscribers start no other: the node is at rest with two
    subscribers of a topic it does not advertise. *)
Theorem refused_registration_not_retried :
  star (node_step true) node_new OneSubscriber.second
  /\ (forall y, ~ task_step true OneSubscriber.second y)
  /\ entries (i_subs OneSubscriber.second) (OwnedKind 1 2) = [1; 2]
  /\ advertised OneSubscriber.second = ∅.
Proof.
  split; [|split_and!; try reflexivity].
  - eapply star_trans; [apply OneSubscriber.entered_run|]. eapply star_trans with (OneSubscriber.finished false).
    { generalize (OneSubscriber.finish_run false). cbn [negb]. generalize OneSubscriber.entered, (OneSubscriber.finished false), 4%nat.
      intros a b n Hn. induction Hn as [|n a b c Hst _ IH]; [apply star_refl|]. eapply star_step; [by right|done]. }
    eapply star_step; [left; apply (client_subscribe (OwnedKind 1 2) (add_owned_subscriber (1, 2) (i_subs (OneSubscriber.finished false))).1 2); [vm_compute; reflexivity|reflexivity]|].
    apply star_one. right. apply (task_count true 2 (OwnedKind 1 2) 1); [reflexivity..|]. split; vm_compute; reflexivity.
  - intros y. apply OneSubscriber.rest_stays; vm_compute; reflexivity.
Qed.
